(* ===== verification/_CoqProject ===== *)
-Q . S2P
Prelude.v
Cxx.v
Floats.v
Errors.v
Log.v
StreamBuffer.v
Strings.v
Headers.v
CircularQueue.v
Serializer.v
JsonFormatter.v
AsyncSerializer.v
JsonParser.v
JsonRoundtrip.v
SerializedValue.v
TaggedTypes.v
MountPath.v
EndpointTrie.v
HttpRequest.v
CoReader.v
HttpResponse.v
Http.v
Sessions.v
StringStreams.v
FlagFormat.v
Flags.v
Future.v
FutureAll.v
Scheduler.v
Threads.v
Timers.v
Generators.v
Buffer.v
Blobs.v
TlsClient.v
TlsStream.v
Tuples.v
Sockets.v
SocketStream.v
Server.v
Serving.v
EchoServer.v
ServerResources.v
ResourceAccess.v
