(* ===== verification/Prelude.v ===== *)
(** * liblw: a verification library

    liblw (under src/lw) is a C++20 library for asynchronous servers:
    coroutines and their scheduler, sockets, an HTTP server with its parser,
    router and responses, JSON, command line flags, and the containers these
    share.  This library models its parts as executable definitions, one file
    for each part, and proves what makes each of them correct.

    ** How the program is put together

    A program parses its flags (base/init, flags), attaches routers to ports
    and listens (net/server over net/socket), and runs the scheduler of its
    thread (co/scheduler over co/systems/epoll), which resumes the coroutines
    whose futures (co/future) were set or whose descriptors are ready.  The
    accept loop hands each connection to a router; the HTTP router (http/http)
    reads a request through a buffered reader (io/co), parses it
    (http/http_request), finds its handler in the trie of mount paths
    (http/internal/http_mount_path), lets it build a response and writes that
    out (http/http_response through io/stream).  Handlers get resources
    (net/server_resource) and bodies as JSON (io/serializer, mime/json).

    ** Files

    - [Prelude], [Cxx]: outcomes ([res]: a value, an exception, or undefined
      behaviour), calls on an object ([ST], which keeps the object's state when
      a call throws), coroutines ([CO], which may stay suspended), machine
      integers as [Z] with their wrapping, automation; [std::from_chars],
      decimal output, character classes and substrings.
    - [Floats]: [strtod] and the printing of floating point numbers, over the
      [spec_float] of the Standard Library.
    - [Errors]: err/error, err/system: error frames and the table of [errno].
    - [Log]: log/log, which messages are written and their text.
    - [StreamBuffer]: io/stream/buffer, [StringBuffer].
    - [Strings], [Headers]: base/strings and http/headers, maps under the
      case-insensitive order.
    - [CircularQueue]: memory/circular_queue as a refinement of a bounded list.
    - [Buffer], [Blobs]: memory/buffer and its views over a memory of blocks;
      format/blobs, their text in hexadecimal and base64.
    - [Serializer], [JsonFormatter], [JsonParser], [JsonRoundtrip]:
      io/serializer and mime/json; the last composes the two sides.
    - [AsyncSerializer]: the overloads of [Serializer::write] that are
      coroutines.
    - [SerializedValue]: the typed view of a token, over the interface
      [DeserializationToken] that the tokens of JSON implement.
    - [TaggedTypes]: types with a specialization of [Serialize] of their own,
      as a class with laws, and the two of io/serializer/testing.
    - [MountPath], [EndpointTrie]: http/internal/http_mount_path.
    - [HttpRequest], [CoReader], [HttpResponse], [Http]: http/http_request over
      the interface [BaseCoReader], io/co, which implements it, the response,
      and the router that composes all of these for a connection.
    - [Sessions]: whole sessions of that server, from the endpoints registered
      to the text each client gets.
    - [StringStreams]: io/co/testing, streams over strings as sources and
      connections, and the repository's tests of reader, request and router
      evaluated on them.
    - [FlagFormat], [Flags]: flags/format, flags/flags and base/init.
    - [Future], [FutureAll], [Scheduler]: co/future over a store of shared states, and
      co/events, co/systems/epoll and co/scheduler over a class of kernel calls.
    - [Threads]: making and destroying schedulers and the table of them by
      thread, as owners of descriptors.
    - [Timers]: co/time, sleeping on a timer the scheduler watches.
    - [Generators]: co/generator, co/sequences, co/task and co/await, coroutines
      as functions of their frames.
    - [Sockets], [Server]: net/socket over a class of system calls with the
      laws POSIX gives them, and net/server over the sockets.
    - [SocketStream]: a socket as an [io::CoStream], and sessions of the HTTP
      router over the system calls of one.
    - [Serving]: net/router as an interface (the class [Router]) which the HTTP
      router and [TLSRouter] implement, and the server over it: the coroutines
      of its connections, resumed in any order between its other calls.
    - [EchoServer]: [main] of examples/echo_server.cpp, from the flags to the
      exit code.
    - [TlsClient], [TlsStream]: net/internal, net/tls and net/tls_router over a
      class of OpenSSL's calls with the laws of its manual; a stream under TLS
      is again a source for [CoReader] and a connection for [Http].
    - [Tuples], [ServerResources], [ResourceAccess]: base/tuple as functions on
      types, the context of net/server_resource as a state machine of calls, and
      the resources' way back to it.

    A C++ member function is the definition of its name; the fields of a class
    are the fields of a record of its name.  Names that several classes share
    are told apart by their file.

    ** What is proved

    - Round trips: JSON through formatter and parser, a request's text, the
      header fields of a response, hexadecimal and base64 views, a
      document read through its typed view, objects of a program's own types.
    - Refinements and equivalences: the queue against a list, writing values
      that wait against writing those that do not, a promise and its
      future against a cell set once (without a value too), mount paths matched segment by segment,
      the server against the sequence of requests and responses a client sees,
      also while the sessions of HTTP and HTTPS clients are interleaved, and
      down to the bytes that [send] puts on the wire,
      the treatment of arguments in place against a left-to-right reading.
    - Invariants: no byte of a connection is lost, repeated or reordered by the
      reader; every block, descriptor and OpenSSL handle has one owner; a server that
      listens has every port bound, and each router counts the connections it
      is handling, which is what [try_close] asks; each resource is constructed
      once, from the resources it depends on.
    - Termination: the event loop, the service of a connection, the
      construction of resources without cycles, sending, TLS handshakes and
      the HTTPS router over them.
    - Outcomes of every branch, errors included: parsing requests and JSON,
      writing JSON and responses, answering a request, listening, sleeping, the
      end of a task, awaiting several futures; the exit code of the example; the
      numbers a range goes through.
    Theorems about interfaces ([BaseCoReader], [CoReadable], [Router],
    [Kernel], [SocketCalls], [OpenSSL]) hold for every implementation; each has a concrete one on
    which its witness evaluates.

    ** Fuel

    Loops that are not structural take fuel, and a theorem says how much is
    enough: the number of bytes left for the service of a connection
    ([Http.run_terminates]), one unit for each entry of a queue or action of a
    coroutine ([Scheduler.run_finishes]), two more than the number of
    registered types for nested resources ([ServerResources.max_depth]), the
    bytes to send and the times the system makes the sender wait
    ([Sockets.send_outcome]), two rounds for each byte a peer sends in a
    handshake ([TlsStream.handshake_outcome]), the binary length of a number for its digits
    ([Cxx.show_digits]).  Where the code's loop does not end the definition
    says so with [Undef], as in [CoReader.realloc_buffers].

    ** Assumptions

    - [errno] is read right after the call that set it.
    - The arguments of a call, and the futures given to [co::all], are
      evaluated from left to right.
    - The locale of the C library is "C", it rounds to nearest, and a stream
      prints with its default precision.  NaNs have no sign.
    - Allocation succeeds.  Sizes are unbounded naturals except where the code
      narrows them or wraps; those places keep their width.
    - An [std::unordered_map] is traversed in the order of an association list
      or of a parameter.
    - [std::terminate], and recursion without end, are [Undef].
    - Ranges are of integer types; what an asynchronous generator awaits is not
      set yet when it starts to wait.
    - While a coroutine of a socket is suspended nothing else uses that socket.
      A run of the server is two steps, before and after the scheduler's loop,
      between which anything else may happen.
    - In [Serving] the coroutine of a connection goes on by one round of its
      router's loop at a time: what is awaited within a round concerns that
      connection only.
    - In [SocketStream] what a peer sends is a text the system hands out in
      order, as [recv] does for a stream socket.
    - In [ServerResources] waiters are resumed by an event of their own,
      which stands for any number of turns of the scheduler.

    ** Not modelled

    - [std::regex], [std::hash], [epoll], sockets, name resolution, OpenSSL and
      threads: parameters.
    - The concepts of io/serializer/concepts.h, base/concepts.h and
      co/concepts.h: whether a type satisfies one is a matter of the overload
      resolution and partial specialization of C++, not of what runs.  The
      overloads they select are modelled.
    - The messages of errors and source locations: text for people.
    - Destruction of coroutine frames, and the memory orders of the scheduler
      beyond the accesses of [Future]. *)
From Stdlib Require Export ZArith Ascii String.
From stdpp Require Export prelude list gmap strings.

#[export] Set Default Goal Selector "!".
Declare Scope lw_scope.
Delimit Scope lw_scope with lw.
Open Scope lw_scope.

(** * Data shared by every component *)

(** The classes of lw/err/canonical.h.  An error's message text is not
    modelled, only its class. *)
Inductive error_kind :=
  | Aborted | AlreadyExists | Cancelled | DeadlineExceeded
  | FailedPrecondition | Internal | InvalidArgument | NotFound
  | OutOfRange | PermissionDenied | ResourceExhausted | Unavailable
  | Unimplemented.

(** What a [throw] can carry: an [lw::Error] or one of the standard
    library's exceptions. *)
Inductive exn :=
  | LwError (k : error_kind)
  | StdOutOfRange
  | StdRegexError
  | StdBadVariantAccess.

#[export] Instance error_kind_eq_dec : EqDecision error_kind.
Proof. solve_decision. Defined.
#[export] Instance exn_eq_dec : EqDecision exn.
Proof. solve_decision. Defined.

(** The outcome of a C++ call: a value, a thrown exception, or behaviour
    that the C++ standard leaves undefined. *)
Inductive res (A : Type) : Type :=
  | Ok (a : A)
  | Throw (e : exn)
  | Undef.
Arguments Ok {_} _.
Arguments Throw {_} _.
Arguments Undef {_}.

#[export] Instance res_eq_dec `{EqDecision A} : EqDecision (res A).
Proof. solve_decision. Defined.

#[export] Instance res_ret : MRet res := λ A a, Ok a.
#[export] Instance res_bind : MBind res := λ A B f m,
  match m with Ok a => f a | Throw e => Throw e | Undef => Undef end.
#[export] Instance res_fmap : FMap res := λ A B f m,
  match m with Ok a => Ok (f a) | Throw e => Throw e | Undef => Undef end.

Definition throw {A} (k : error_kind) : res A := Throw (LwError k).

(** A call on an object: the object's new state is kept when the call
    throws, because the caller may catch and go on using the object. *)
Definition ST (S A : Type) : Type := S → S * res A.

#[export] Instance ST_ret {S} : MRet (ST S) := λ A a s, (s, Ok a).
#[export] Instance ST_bind {S} : MBind (ST S) := λ A B f m s,
  match m s with
  | (s', Ok a) => f a s'
  | (s', Throw e) => (s', Throw e)
  | (s', Undef) => (s', Undef)
  end.

Definition st_get {S} : ST S S := λ s, (s, Ok s).
Definition st_put {S} (s' : S) : ST S () := λ _, (s', Ok ()).
Definition st_modify {S} (f : S → S) : ST S () := λ s, (f s, Ok ()).
Definition st_res {S A} (r : res A) : ST S A := λ s, (s, r).
Definition st_throw {S A} (k : error_kind) : ST S A := st_res (throw k).

(** A coroutine on an object, run until it ends or, with [None], until it is
    suspended for good. *)
Definition CO (S A : Type) : Type := S → S * option (res A).

#[export] Instance CO_ret {S} : MRet (CO S) := λ A a s, (s, Some (Ok a)).
#[export] Instance CO_bind {S} : MBind (CO S) := λ A B f m s,
  match m s with
  | (s', Some (Ok a)) => f a s'
  | (s', Some (Throw e)) => (s', Some (Throw e))
  | (s', Some Undef) => (s', Some Undef)
  | (s', None) => (s', None)
  end.

Definition co_get {S} : CO S S := λ s, (s, Some (Ok s)).
Definition co_modify {S} (f : S → S) : CO S () := λ s, (f s, Some (Ok ())).
Definition co_res {S A} (r : res A) : CO S A := λ s, (s, Some r).
Definition co_throw {S A} (k : error_kind) : CO S A := co_res (throw k).
Definition suspended {S A} : CO S A := λ s, (s, None).

(** Byte strings: [std::string] and the bytes a [std::string_view] shows. *)
Abbreviation str := (list ascii).
Definition B (s : string) : str := list_ascii_of_string s.

(** * Machine integers *)

Definition wrap_u (w z : Z) : Z := z `mod` 2 ^ w.
Definition wrap_s (w z : Z) : Z := (z + 2 ^ (w - 1)) `mod` 2 ^ w - 2 ^ (w - 1).
Definition SIZE_MAX : Z := 2 ^ 64 - 1.

Lemma wrap_u_range w z : (0 ≤ w → 0 ≤ wrap_u w z < 2 ^ w)%Z.
Proof. intros. apply Z.mod_pos_bound. by apply Z.pow_pos_nonneg. Qed.

Lemma wrap_u_small w z : (0 ≤ z < 2 ^ w → wrap_u w z = z)%Z.
Proof. apply Z.mod_small. Qed.

Lemma pow2_half w : (0 < w → 2 ^ w = 2 * 2 ^ (w - 1))%Z.
Proof. intros. rewrite <- Z.pow_succ_r by lia. f_equal. lia. Qed.

Lemma wrap_s_range w z :
  (0 < w → - 2 ^ (w - 1) ≤ wrap_s w z < 2 ^ (w - 1))%Z.
Proof.
  intros Hw. unfold wrap_s. pose proof (pow2_half w Hw).
  assert (0 < 2 ^ (w - 1))%Z by (apply Z.pow_pos_nonneg; lia).
  pose proof (Z.mod_pos_bound (z + 2 ^ (w - 1)) (2 ^ w)). lia.
Qed.

Lemma wrap_s_small w z :
  (0 < w → - 2 ^ (w - 1) ≤ z < 2 ^ (w - 1) → wrap_s w z = z)%Z.
Proof.
  intros Hw Hz. unfold wrap_s. pose proof (pow2_half w Hw).
  rewrite Z.mod_small by lia. lia.
Qed.

(** * Automation *)

Create HintDb lw.
#[export] Hint Resolve wrap_u_range wrap_s_range : lw.
Create Rewrite HintDb lw_simp.

(** Case analysis on the scrutinee of the goal's or a hypothesis's match. *)
Ltac case_step :=
  match goal with
  | |- context [match ?x with _ => _ end] =>
      lazymatch x with context [match _ with _ => _ end] => fail | _ => destruct x eqn:? end
  | H : context [match ?x with _ => _ end] |- _ =>
      lazymatch x with context [match _ with _ => _ end] => fail | _ => destruct x eqn:? end
  end.
Ltac crush_cases := repeat (case_step; simplify_eq/=; try done).

(** Turn boolean tests among the hypotheses into propositions. *)
Ltac bool_hyps :=
  repeat match goal with
  | H : andb _ _ = true |- _ => apply andb_true_iff in H as [? ?]
  | H : orb _ _ = false |- _ => apply orb_false_iff in H as [? ?]
  | H : negb _ = true |- _ => apply negb_true_iff in H
  | H : negb _ = false |- _ => apply negb_false_iff in H
  | H : Nat.leb _ _ = true |- _ => apply Nat.leb_le in H
  | H : Nat.leb _ _ = false |- _ => apply Nat.leb_gt in H
  | H : Nat.eqb _ _ = true |- _ => apply Nat.eqb_eq in H
  | H : Nat.eqb _ _ = false |- _ => apply Nat.eqb_neq in H
  | H : Z.leb _ _ = true |- _ => apply Z.leb_le in H
  | H : Z.leb _ _ = false |- _ => apply Z.leb_gt in H
  | H : Z.ltb _ _ = true |- _ => apply Z.ltb_lt in H
  | H : Z.ltb _ _ = false |- _ => apply Z.ltb_ge in H
  | H : Z.eqb _ _ = true |- _ => apply Z.eqb_eq in H
  | H : Z.eqb _ _ = false |- _ => apply Z.eqb_neq in H
  | H : Ascii.eqb _ _ = true |- _ => apply Ascii.eqb_eq in H
  | H : Ascii.eqb _ _ = false |- _ => apply Ascii.eqb_neq in H
  end.

(** * Calls that return, calls that throw *)

(** [for (const auto& x : l) f(x);] *)
Definition for_each {S A} (f : A → ST S ()) : list A → ST S () :=
  fix go l := match l with [] => mret () | x :: l => f x ≫= λ _, go l end.

Definition returns {S A} (m : ST S A) (s : S) (a : A) (s' : S) : Prop := m s = (s', Ok a).
Definition throws {S A} (m : ST S A) (s : S) : Prop := ∃ s' e, m s = (s', Throw e).

Section calls.
Context {S : Type}.

Lemma returns_bind {A C} (m : ST S A) (k : A → ST S C) s a s1 c s2 :
  returns m s a s1 → returns (k a) s1 c s2 → returns (m ≫= k) s c s2.
Proof. unfold returns, mbind, ST_bind. by intros ->. Qed.

Lemma throws_bind_l {A C} (m : ST S A) (k : A → ST S C) s :
  throws m s → throws (m ≫= k) s.
Proof. unfold throws, mbind, ST_bind. intros (s' & e & ->). eauto. Qed.

Lemma throws_bind_r {A C} (m : ST S A) (k : A → ST S C) s a s1 :
  returns m s a s1 → throws (k a) s1 → throws (m ≫= k) s.
Proof. unfold returns, throws, mbind, ST_bind. by intros ->. Qed.

Lemma bind_returns_inv {A C} (m : ST S A) (k : A → ST S C) s c s2 :
  returns (m ≫= k) s c s2 → ∃ a s1, returns m s a s1 ∧ returns (k a) s1 c s2.
Proof.
  unfold returns, mbind, ST_bind. destruct (m s) as [s1 [a|e|]]; intros ?; simplify_eq; eauto.
Qed.

Lemma returns_throws_excl {A} (m : ST S A) s a s' : returns m s a s' → throws m s → False.
Proof. unfold returns, throws. intros -> (? & ? & ?). simplify_eq. Qed.

Lemma for_each_app {A} (f : A → ST S ()) l1 l2 s :
  for_each f (l1 ++ l2) s = (for_each f l1 ≫= λ _, for_each f l2) s.
Proof.
  revert s. induction l1 as [|x l1 IH]; intros s; [done|].
  cbn. unfold mbind, ST_bind. destruct (f x s) as [s' [[]|e|]]; [|done..]. apply IH.
Qed.

Lemma bind_assoc {A C D} (m : ST S A) (k : A → ST S C) (h : C → ST S D) s :
  ((m ≫= k) ≫= h) s = (m ≫= λ a, k a ≫= h) s.
Proof. unfold mbind, ST_bind. by destruct (m s) as [? []]. Qed.

Lemma bind_ext {A C} (m m' : ST S A) (k k' : A → ST S C) s :
  m s = m' s → (∀ a s1, k a s1 = k' a s1) → (m ≫= k) s = (m' ≫= k') s.
Proof. unfold mbind, ST_bind. intros -> Hk. by destruct (m' s) as [? []]. Qed.

(** Elements that each return, from any state satisfying [P]. *)
Lemma for_each_returns {A} (f : A → ST S ()) (R : list A → S → Prop) l s :
  R [] s →
  (∀ l1 x s1, (∃ l2, l = l1 ++ x :: l2) → R l1 s1 → ∃ s2, returns (f x) s1 () s2 ∧ R (l1 ++ [x]) s2) →
  ∃ s', returns (for_each f l) s () s' ∧ R l s'.
Proof.
  intros H0 Hstep. enough (∀ l2 l1 s1, l = l1 ++ l2 → R l1 s1 →
    ∃ s', returns (for_each f l2) s1 () s' ∧ R l s') as HH by (by apply (HH l [] s)).
  induction l2 as [|x l2 IH]; intros l1 s1 Hl HR.
  - rewrite app_nil_r in Hl. subst. by exists s1.
  - destruct (Hstep l1 x s1) as (s2 & Hx & HR2); [eauto|done|].
    destruct (IH (l1 ++ [x]) s2) as (s' & Hs & HRl); [by rewrite <- app_assoc|done|].
    exists s'. split; [|done]. by eapply returns_bind.
Qed.
End calls.

(** [try { m } catch (...) { h }]. *)
Definition co_catch {S A} (m : CO S A) (h : exn → CO S A) : CO S A := λ s,
  match m s with (s', Some (Throw e)) => h e s' | r => r end.
Definition co_for_each {S A} (f : A → CO S ()) : list A → CO S () :=
  fix go l := match l with [] => mret () | x :: l => f x ≫= λ _, go l end.

Lemma co_get_bind {S A} (k : S → CO S A) s : (co_get ≫= k) s = k s s.
Proof. done. Qed.

(** How a coroutine made of two came to its outcome. *)
Lemma co_bind_inv {S A C} (m : CO S A) (k : A → CO S C) s s' r :
  (m ≫= k) s = (s', r) →
  (∃ a s1, m s = (s1, Some (Ok a)) ∧ k a s1 = (s', r)) ∨
  (∃ x, m s = (s', x) ∧ (∀ a, x ≠ Some (Ok a)) ∧ (∀ c, r ≠ Some (Ok c))).
Proof.
  unfold mbind, CO_bind. destruct (m s) as [s1 [[a|e|]|]]; intros; simplify_eq; [left; eauto|right; eauto..].
Qed.

(** * Lists *)

Lemma Forall_digits_app {A} (P : A → Prop) l1 l2 :
  Forall P l1 → Forall P l2 → Forall P (l1 ++ l2).
Proof. intros. by apply Forall_app. Qed.
#[export] Hint Resolve Forall_digits_app : lw.

Lemma forallb_Forall {A} (f : A → bool) l :
  forallb f l = true ↔ Forall (λ x, f x = true) l.
Proof.
  induction l as [|x l IH]; [by split|]. cbn. by rewrite andb_true_iff, IH, Forall_cons.
Qed.
