(* ===== verification/Cxx.v ===== *)
(** The parts of the C++ standard library that liblw calls, as executable
    definitions: character classes of the C locale (a [char] is signed),
    [std::from_chars] and the decimal output of integers, and the substring
    operations of [std::string_view]. *)
From S2P Require Import Prelude.

(** * Characters *)

(** The value of a (signed) [char] as an [int]. *)
Definition char_int (c : ascii) : Z :=
  let n := Z.of_nat (nat_of_ascii c) in if (n <? 128)%Z then n else (n - 256)%Z.

Definition in_range (lo hi : Z) (c : ascii) : bool :=
  (lo <=? char_int c)%Z && (char_int c <=? hi)%Z.

Definition isdigit (c : ascii) : bool := in_range 48 57 c.
Definition isupper (c : ascii) : bool := in_range 65 90 c.
Definition islower (c : ascii) : bool := in_range 97 122 c.
Definition isalnum (c : ascii) : bool := isdigit c || isupper c || islower c.
Definition isspace (c : ascii) : bool := in_range 9 13 c || in_range 32 32 c.

(** [std::toupper] returns an [int]. *)
Definition toupper (c : ascii) : Z :=
  if islower c then (char_int c - 32)%Z else char_int c.

Lemma char_int_inj c d : char_int c = char_int d → c = d.
Proof.
  intros H. rewrite <- (ascii_nat_embedding c), <- (ascii_nat_embedding d).
  f_equal. pose proof (nat_ascii_bounded c). pose proof (nat_ascii_bounded d).
  unfold char_int in H.
  destruct (Z.ltb_spec (Z.of_nat (nat_of_ascii c)) 128),
    (Z.ltb_spec (Z.of_nat (nat_of_ascii d)) 128); lia.
Qed.

Lemma char_int_range c : (-128 ≤ char_int c ≤ 127)%Z.
Proof.
  pose proof (nat_ascii_bounded c). unfold char_int.
  destruct (Z.ltb_spec (Z.of_nat (nat_of_ascii c)) 128); lia.
Qed.

Lemma toupper_range c : (-128 ≤ toupper c ≤ 127)%Z.
Proof.
  pose proof (char_int_range c). unfold toupper.
  destruct (islower c) eqn:E; [|lia]. unfold islower, in_range in E. bool_hyps. lia.
Qed.

(** * Decimal numbers *)

Definition digit_val (c : ascii) : Z := (Z.of_nat (nat_of_ascii c) - 48)%Z.
Definition digit_char (d : Z) : ascii := ascii_of_nat (Z.to_nat (d + 48)).

(** The longest prefix of digits. *)
Fixpoint digit_run (s : str) : str :=
  match s with
  | [] => []
  | c :: r => if isdigit c then c :: digit_run r else []
  end.

Definition digits_value (ds : str) : Z :=
  fold_left (λ a c, 10 * a + digit_val c)%Z ds 0%Z.

Fixpoint show_fuel (fuel : nat) (n : Z) (acc : str) : str :=
  match fuel with
  | 0 => acc
  | S fuel =>
      let acc := digit_char (n `mod` 10) :: acc in
      if (n <? 10)%Z then acc else show_fuel fuel (n `div` 10) acc
  end.

(** The decimal digits of a nonnegative number; its binary length is enough
    fuel. *)
Definition show_digits (n : Z) : str := show_fuel (S (Z.to_nat (Z.log2 n))) n [].

(** [stream << n] and [std::to_string(n)] for the integer types. *)
Definition show_Z (z : Z) : str :=
  if (z <? 0)%Z then "-"%char :: show_digits (- z) else show_digits z.

Inductive errc := errc_ok | errc_invalid_argument | errc_result_out_of_range.
#[export] Instance errc_eq_dec : EqDecision errc.
Proof. solve_decision. Defined.

(** [std::from_chars] for an integer type with values [lo..hi]: how many
    characters were consumed, the error code, and the value stored (none: the
    output argument is left unmodified).  A minus sign is only recognised for
    signed types, a plus sign never. *)
Definition from_chars (lo hi : Z) (s : str) : nat * errc * option Z :=
  let neg := bool_decide (lo < 0)%Z && bool_decide (head s = Some "-"%char) in
  let body := if neg then tail s else s in
  let ds := digit_run body in
  let v := if neg then (- digits_value ds)%Z else digits_value ds in
  let used := (if neg then 1 else 0) + length ds in
  if bool_decide (ds = []) then (0, errc_invalid_argument, None)
  else if (lo <=? v)%Z && (v <=? hi)%Z then (used, errc_ok, Some v)
  else (used, errc_result_out_of_range, None).

Definition INT16_MIN : Z := - 2 ^ 15.
Definition INT16_MAX : Z := 2 ^ 15 - 1.
Definition INT32_MIN : Z := - 2 ^ 31.
Definition INT32_MAX : Z := 2 ^ 31 - 1.
Definition INT64_MIN : Z := - 2 ^ 63.
Definition INT64_MAX : Z := 2 ^ 63 - 1.
Definition UINT16_MAX : Z := 2 ^ 16 - 1.
Definition UINT32_MAX : Z := 2 ^ 32 - 1.
Definition UINT64_MAX : Z := 2 ^ 64 - 1.

(** * Substrings *)

(** The view between two positions, [string_view{begin + i, begin + j}]. *)
Definition slice {A} (s : list A) (i j : nat) : list A := take (j - i) (drop i s).

(** [string_view::substr(pos, n)]. *)
Definition substr (s : str) (pos n : nat) : res str :=
  if decide (pos ≤ length s) then Ok (take n (drop pos s)) else Throw StdOutOfRange.

(** [string_view::at(i)]. *)
Definition char_at (s : str) (i : nat) : res ascii :=
  match s !! i with Some c => Ok c | None => Throw StdOutOfRange end.

Fixpoint starts_with (p s : str) : bool :=
  match p, s with
  | [], _ => true
  | _ :: _, [] => false
  | a :: p, c :: s => Ascii.eqb a c && starts_with p s
  end.

(** [string_view::find(pat, 0)]: the position of the first occurrence. *)
Fixpoint find_str (pat s : str) : option nat :=
  if starts_with pat s then Some 0
  else match s with [] => None | _ :: s => S <$> find_str pat s end.

Definition str_eqb (a b : str) : bool := bool_decide (a = b).

Lemma starts_with_spec p s : starts_with p s = true ↔ ∃ r, s = p ++ r.
Proof.
  revert s. induction p as [|a p IH]; intros s; cbn.
  - split; [by exists s | done].
  - destruct s as [|c s]; [split; [done | by intros [? ?]]|].
    rewrite andb_true_iff, Ascii.eqb_eq, IH. split.
    + intros [-> [r ->]]. by exists r.
    + intros [r [= -> ->]]. eauto.
Qed.

Lemma starts_with_app p r : starts_with p (p ++ r) = true.
Proof. apply starts_with_spec. eauto. Qed.

Lemma find_str_Some pat s n :
  find_str pat s = Some n → ∃ r, drop n s = pat ++ r ∧ n ≤ length s.
Proof.
  revert n. induction s as [|c s IH]; intros n; cbn.
  - destruct (starts_with pat []) eqn:E; [|done]. intros [= <-].
    apply starts_with_spec in E as [r E]. exists r. by rewrite E.
  - destruct (starts_with pat (c :: s)) eqn:E.
    + intros [= <-]. apply starts_with_spec in E as [r E]. exists r. split; [done|lia].
    + destruct (find_str pat s) as [m|] eqn:F; [|done]. intros [= <-].
      destruct (IH m eq_refl) as [r [? ?]]. exists r. split; [done|]. cbn. lia.
Qed.

(** * Texts inside a text *)

(** [t] is the text of [w] from position [i] on. *)
Definition occurs_in (w : str) (i : nat) (t : str) : Prop :=
  ∃ pre post, w = pre ++ t ++ post ∧ i = length pre.

Section occurs.
Context {w : str}.

Lemma occurs_app i s t : occurs_in w i (s ++ t) → occurs_in w i s ∧ occurs_in w (i + length s) t.
Proof.
  intros (pre & post & He & ->). rewrite <- app_assoc in He. split.
  - by exists pre, (t ++ post).
  - exists (pre ++ s), post. rewrite length_app. by rewrite <- app_assoc.
Qed.

Lemma occurs_lookup i s k c :
  occurs_in w i s → s !! k = Some c → w !! (i + k) = Some c ∧ i + k < length w.
Proof.
  intros (pre & post & He & ->) Hk. pose proof (lookup_lt_Some _ _ _ Hk). rewrite He. split.
  - rewrite lookup_app_r by lia. replace (length pre + k - length pre) with k by lia.
    by rewrite lookup_app_l.
  - rewrite !length_app. lia.
Qed.

Lemma occurs_head i c s :
  occurs_in w i (c :: s) → w !! i = Some c ∧ i < length w ∧ occurs_in w (S i) s.
Proof.
  intros H. destruct (occurs_lookup i (c :: s) 0 c H eq_refl) as [H1 H2]. rewrite Nat.add_0_r in *.
  split_and!; [done..|]. apply (occurs_app i [c] s) in H as [_ H]. by rewrite Nat.add_1_r in H.
Qed.

Lemma occurs_slice i s : occurs_in w i s → slice w i (i + length s) = s.
Proof.
  intros (pre & post & He & ->). unfold slice. rewrite He, drop_app_length.
  replace (length pre + length s - length pre) with (length s) by lia. apply take_app_length.
Qed.

Lemma occurs_length i s : occurs_in w i s → i + length s ≤ length w.
Proof. intros (pre & post & -> & ->). rewrite !length_app. lia. Qed.

Lemma occurs_substr i s : occurs_in w i s → substr w i (length s) = Ok s.
Proof.
  intros H. pose proof (occurs_length i s H). pose proof (occurs_slice i s H) as Hs. unfold slice in Hs.
  replace (i + length s - i) with (length s) in Hs by lia.
  unfold substr. rewrite decide_True by lia. by rewrite Hs.
Qed.
End occurs.

Lemma occurs_all w : occurs_in w 0 w.
Proof. exists [], []. by rewrite app_nil_r. Qed.

Definition no_char (x : ascii) (s : str) : bool := forallb (λ c, negb (Ascii.eqb c x)) s.

Lemma no_char_lookup x s k c : no_char x s = true → s !! k = Some c → c ≠ x.
Proof.
  unfold no_char. intros Hs%forallb_Forall Hk. rewrite Forall_lookup in Hs.
  specialize (Hs k c Hk). cbn in Hs. bool_hyps. congruence.
Qed.

Lemma forallb_lookup (f : ascii → bool) s k c : forallb f s = true → s !! k = Some c → f c = true.
Proof.
  intros Hs%forallb_Forall Hk. rewrite Forall_lookup in Hs. by apply (Hs k c).
Qed.

(** * Decimal output is read back by [from_chars] *)

(** The ten cases of a digit's value. *)
Ltac digit_cases d :=
  let H := fresh in
  assert (d = 0 ∨ d = 1 ∨ d = 2 ∨ d = 3 ∨ d = 4 ∨ d = 5 ∨ d = 6 ∨ d = 7 ∨ d = 8 ∨ d = 9)%Z
    as H by lia; destruct_or! H; subst d.

Lemma digit_char_isdigit d : (0 ≤ d < 10 → isdigit (digit_char d) = true)%Z.
Proof.
  intros [H1 H2]. by digit_cases d.
Qed.

Lemma digit_val_char d : (0 ≤ d < 10 → digit_val (digit_char d) = d)%Z.
Proof.
  intros. unfold digit_val, digit_char. rewrite nat_ascii_embedding; lia.
Qed.

Lemma digits_value_snoc ds c :
  digits_value (ds ++ [c]) = (10 * digits_value ds + digit_val c)%Z.
Proof. unfold digits_value. by rewrite fold_left_app. Qed.

Lemma digit_run_app ds r :
  Forall isdigit ds → (∀ c, head r = Some c → isdigit c = false) → digit_run (ds ++ r) = ds.
Proof.
  induction 1 as [|c ds Hc _ IH]; intros Hr; cbn.
  - destruct r as [|c r]; [done|]. cbn. by rewrite (Hr c).
  - apply Is_true_true in Hc. rewrite Hc. f_equal. auto.
Qed.

Lemma digit_run_all ds : Forall isdigit ds → digit_run ds = ds.
Proof. intros. rewrite <- (app_nil_r ds) at 1. by apply digit_run_app. Qed.

(** What the digit loop produces: the digits of [n], without leading zeros. *)
Lemma show_fuel_spec fuel n acc :
  (0 ≤ n < 2 ^ Z.of_nat fuel)%Z → 0 < fuel →
  ∃ ds, show_fuel fuel n acc = ds ++ acc ∧ Forall isdigit ds ∧ ds ≠ [] ∧
    digits_value ds = n ∧ (head ds = Some "0"%char → n = 0%Z ∧ ds = ["0"%char]).
Proof.
  revert n acc. induction fuel as [|fuel IH]; intros n acc Hn Hf; [lia|]. cbn [show_fuel].
  pose proof (Z.mod_pos_bound n 10).
  destruct (Z.ltb_spec n 10) as [Hs|Hs].
  - exists [digit_char (n `mod` 10)]. rewrite Z.mod_small by lia. split_and!; [done|..|].
    + constructor; [|done]. apply Is_true_true, digit_char_isdigit. lia.
    + done.
    + cbn -[digit_val]. rewrite digit_val_char; lia.
    + cbn. intros [= E]. apply (f_equal digit_val) in E.
      rewrite digit_val_char in E by lia. cbn in E. subst n. done.
  - destruct (IH (n `div` 10)%Z (digit_char (n `mod` 10) :: acc)) as (ds & -> & Hd & Hne & Hv & Hz).
    { rewrite Nat2Z.inj_succ, Z.pow_succ_r in Hn by lia.
      split; [apply Z.div_pos; lia|]. apply Z.div_lt_upper_bound; lia. }
    { destruct fuel; [cbn in Hn; lia | lia]. }
    exists (ds ++ [digit_char (n `mod` 10)]). split_and!.
    + by rewrite <- app_assoc.
    + apply Forall_app; split; [done|]. constructor; [|done].
      apply Is_true_true, digit_char_isdigit. lia.
    + by destruct ds.
    + rewrite digits_value_snoc, Hv, digit_val_char by lia.
      pose proof (Z.div_mod n 10). lia.
    + intros Hh. destruct ds as [|d ds]; [done|]. cbn in Hh.
      destruct (Hz Hh) as [E _]. pose proof (Z.div_le_lower_bound n 10 1). lia.
Qed.

Lemma show_digits_spec n :
  (0 ≤ n)%Z →
  Forall isdigit (show_digits n) ∧ show_digits n ≠ [] ∧ digits_value (show_digits n) = n ∧
  (head (show_digits n) = Some "0"%char → show_digits n = ["0"%char]).
Proof.
  intros Hn. unfold show_digits.
  destruct (show_fuel_spec (S (Z.to_nat (Z.log2 n))) n []) as (ds & -> & ? & ? & ? & Hz); [|lia|].
  - rewrite Nat2Z.inj_succ, Z2Nat.id by apply Z.log2_nonneg. split; [done|].
    destruct (decide (n = 0%Z)) as [->|]; [done|]. apply Z.log2_spec. lia.
  - rewrite app_nil_r. split_and!; try done. intros Hh. by apply Hz.
Qed.

Lemma show_digits_head_digit n c :
  (0 ≤ n)%Z → head (show_digits n) = Some c → isdigit c = true.
Proof.
  intros Hn Hh. destruct (show_digits_spec n Hn) as [Hd _].
  destruct (show_digits n) as [|d ds]; [done|]. simplify_eq/=.
  apply Forall_cons in Hd as [Hd _]. by apply Is_true_true.
Qed.

(** [from_chars] reads back a decimal number of its type, whatever nondigit
    follows. *)
Lemma from_chars_show lo hi z r :
  (lo ≤ z ≤ hi)%Z → (z < 0 → lo < 0)%Z →
  (∀ c, head r = Some c → isdigit c = false) →
  from_chars lo hi (show_Z z ++ r) = (length (show_Z z), errc_ok, Some z).
Proof.
  intros Hz Hneg Hr. unfold from_chars, show_Z.
  assert (Hin : ((lo <=? z) && (z <=? hi))%Z = true)
    by (apply andb_true_iff; split; apply Z.leb_le; lia).
  destruct (Z.ltb_spec z 0) as [Hlt|Hge].
  - pose proof (Hneg Hlt). destruct (show_digits_spec (- z)) as (Hd & Hne & Hv & _); [lia|].
    cbn [app head tail]. rewrite (bool_decide_true (lo < 0)%Z) by lia.
    rewrite (bool_decide_true (Some _ = _)) by done. cbn [andb].
    rewrite digit_run_app, Hv, Z.opp_involutive by done.
    by rewrite bool_decide_false, Hin.
  - destruct (show_digits_spec z) as (Hd & Hne & Hv & _); [lia|].
    assert (bool_decide (head (show_digits z ++ r) = Some "-"%char) = false) as ->.
    { apply bool_decide_eq_false. destruct (show_digits z) as [|d ds] eqn:E; [done|].
      cbn. intros [= ->]. apply Forall_cons in Hd as [Hd _]. done. }
    rewrite andb_false_r. cbn [Nat.add].
    rewrite digit_run_app, Hv by done. by rewrite bool_decide_false, Hin.
Qed.

Lemma from_chars_range lo hi s n z :
  from_chars lo hi s = (n, errc_ok, Some z) → (lo ≤ z ≤ hi)%Z ∧ 0 < n.
Proof.
  unfold from_chars. intros H. repeat case_bool_decide; crush_cases; bool_hyps; split;
    try lia; destruct (digit_run _); cbn; (done || lia).
Qed.

#[export] Hint Resolve digit_char_isdigit toupper_range char_int_range : lw.
