(* ===== verification/Floats.v ===== *)
(** The floating point numbers of the C library: [strtod] and its kin in the
    "C" locale, and the texts that [std::to_string] and a stream make of them.
    A number is a [spec_float] of [prec] bits and exponents below [emax]. *)
From Stdlib Require Import SpecFloat.
From S2P Require Import Prelude Cxx.

(** * Reading *)

(** What a text denotes, apart from its sign: [m * 10^e], [m * 2^e], or one of
    the two words. *)
Inductive subject := SDecimal (m e : Z) | SHex (m e : Z) | SInfinity | SNan.

Definition isxdigit (c : ascii) : bool := isdigit c || in_range 65 70 c || in_range 97 102 c.
Definition hex_val (c : ascii) : Z := if isdigit c then digit_val c else (toupper c - 55)%Z.
Fixpoint run_of (f : ascii → bool) (s : str) : str :=
  match s with c :: r => if f c then c :: run_of f r else [] | [] => [] end.
Definition hex_value (ds : str) : Z := fold_left (λ a c, 16 * a + hex_val c)%Z ds 0%Z.

(** Digits with at most one point: those before it, those after it, and the
    number of characters. *)
Definition scan_digits (run : str → str) (s : str) : str * str * nat :=
  let ip := run s in
  match drop (length ip) s with
  | c :: r => if decide (c = "."%char) then let fp := run r in (ip, fp, length ip + 1 + length fp) else (ip, [], length ip)
  | [] => (ip, [], length ip)
  end.
(** A sign that may be missing. *)
Definition scan_sign (s : str) : bool * nat :=
  match s with
  | c :: _ => if decide (c = "-"%char) then (true, 1) else if decide (c = "+"%char) then (false, 1) else (false, 0)
  | [] => (false, 0)
  end.
(** An exponent, which is left alone when it has no digits. *)
Definition scan_exponent (mark : ascii) (s : str) : Z * nat :=
  match s with
  | c :: r =>
      if decide (toupper c = char_int mark) then
        let '(negative, k) := scan_sign r in
        let ds := digit_run (drop k r) in
        if decide (ds = []) then (0%Z, 0)
        else (if negative then (- digits_value ds)%Z else digits_value ds, 1 + k + length ds)
      else (0%Z, 0)
  | [] => (0%Z, 0)
  end.

Definition scan_decimal (s : str) : option (subject * nat) :=
  let '(ip, fp, n) := scan_digits digit_run s in
  if decide (ip ++ fp = []) then None
  else let '(e, k) := scan_exponent "E" (drop n s) in
       Some (SDecimal (digits_value (ip ++ fp)) (e - Z.of_nat (length fp)), n + k).
Definition scan_hex (s : str) : option (subject * nat) :=
  match s with
  | z :: x :: r =>
      if decide (z = "0"%char ∧ toupper x = char_int "X") then
        let '(ip, fp, n) := scan_digits (run_of isxdigit) r in
        if decide (ip ++ fp = []) then None
        else let '(e, k) := scan_exponent "P" (drop n r) in
             Some (SHex (hex_value (ip ++ fp)) (e - 4 * Z.of_nat (length fp)), 2 + n + k)
      else None
  | _ => None
  end.
(** [p] is in capitals. *)
Fixpoint starts_with_word (p s : str) : bool :=
  match p, s with
  | [], _ => true
  | a :: p, c :: s => (toupper c =? char_int a)%Z && starts_with_word p s
  | _ :: _, [] => false
  end.
Definition scan_word (s : str) : option (subject * nat) :=
  if starts_with_word (B "INFINITY") s then Some (SInfinity, 8)
  else if starts_with_word (B "INF") s then Some (SInfinity, 3)
  else if starts_with_word (B "NAN") s then
    let seq := run_of (λ c, isalnum c || bool_decide (c = "_"%char)) (drop 4 s) in
    Some (SNan, if bool_decide (s !! 3 = Some "("%char ∧ s !! (4 + length seq) = Some ")"%char) then 5 + length seq else 3)
  else None.
Definition scan_subject (s : str) : option (subject * nat) :=
  match scan_word s with
  | Some r => Some r
  | None => match scan_hex s with Some r => Some r | None => scan_decimal s end
  end.

Section format.
Context (prec emax : Z).

(** The number nearest to [m * 10^e], the even one of two. *)
Definition nearest (negative : bool) (m e : Z) : spec_float :=
  match m with
  | Zpos p =>
      if (0 <? e)%Z then binary_round prec emax negative (p * Z.to_pos (10 ^ e)) 0
      else SFdiv prec emax (S754_finite negative p 0) (S754_finite false (Z.to_pos (10 ^ (- e))) 0)
  | _ => S754_zero negative
  end.
Definition subject_value (negative : bool) (x : subject) : spec_float :=
  match x with
  | SDecimal m e => nearest negative m e
  | SHex (Zpos p) e => binary_round prec emax negative p e
  | SHex _ _ => S754_zero negative
  | SInfinity => S754_infinity negative
  | SNan => S754_nan
  end.

(** [strtod]: the number, and how many characters were taken; none, and zero,
    when there is no number. *)
Definition strtod (s : str) : spec_float * nat :=
  let spaces := length (run_of isspace s) in
  let '(negative, k) := scan_sign (drop spaces s) in
  match scan_subject (drop (spaces + k) s) with
  | Some (x, n) => (subject_value negative x, spaces + k + n)
  | None => (S754_zero false, 0)
  end.
End format.

Definition HUGE_VAL : spec_float := S754_infinity false.
#[export] Instance spec_float_eq_dec : EqDecision spec_float.
Proof. solve_decision. Defined.

(** * Printing *)

(** [num / den] rounded to an integer, the even one of two. *)
Definition round_div (num den : Z) : Z :=
  let q := (num `div` den)%Z in
  let r := (2 * (num `mod` den))%Z in
  if (r <? den)%Z then q else if (den <? r)%Z then (q + 1)%Z else if Z.even q then q else (q + 1)%Z.

(** [m * 2^e] as a fraction, and times [10^k] as an integer. *)
Definition numerator (m : positive) (e : Z) : Z := (Zpos m * 2 ^ Z.max e 0)%Z.
Definition denominator (e : Z) : Z := (2 ^ Z.max (- e) 0)%Z.
Definition scaled (m : positive) (e k : Z) : Z :=
  round_div (numerator m e * 10 ^ Z.max k 0) (denominator e * 10 ^ Z.max (- k) 0).

Definition pad_digits (k : nat) (n : Z) : str :=
  replicate (k - length (show_digits n)) "0"%char ++ show_digits n.
Definition sign_text (negative : bool) : str := if negative then B "-" else [].
(** The text of [r / 10^k] with [k] decimals. *)
Definition plain_text (negative : bool) (r : Z) (k : nat) : str :=
  sign_text negative ++ show_digits (r `div` 10 ^ Z.of_nat k) ++
  match k with 0 => [] | _ => "."%char :: pad_digits k (r `mod` 10 ^ Z.of_nat k) end.

(** [std::to_string]: six decimals. *)
Definition to_string (x : spec_float) : str :=
  match x with
  | S754_nan => B "nan"
  | S754_infinity s => sign_text s ++ B "inf"
  | S754_zero s => plain_text s 0 6
  | S754_finite s m e => plain_text s (scaled m e 6) 6
  end.

(** The exponent of the first decimal digit of [num / den]. *)
Definition first_digit (num den : Z) : Z :=
  if (den <=? num)%Z then (Z.of_nat (length (show_digits (num `div` den))) - 1)%Z
  else (- Z.of_nat (length (show_digits ((den - 1) `div` num))))%Z.
(** Six significant digits, and the exponent of the first of them. *)
Definition six_digits (m : positive) (e : Z) : Z * Z :=
  let x := first_digit (numerator m e) (denominator e) in
  let r := scaled m e (5 - x) in
  if (r =? 10 ^ 6)%Z then (10 ^ 5, x + 1)%Z else (r, x).
(** Zeros at the end of [k] decimals are dropped. *)
Fixpoint strip_zeros (r : Z) (k : nat) : Z * nat :=
  match k with
  | S k' => if (r `mod` 10 =? 0)%Z then strip_zeros (r `div` 10) k' else (r, k)
  | 0 => (r, 0)
  end.
Definition exponent_text (x : Z) : str :=
  (if (x <? 0)%Z then B "e-" else B "e+") ++ pad_digits 2 (Z.abs x).

(** [stream << x], with the six digits a stream starts with. *)
Definition show_float (x : spec_float) : str :=
  match x with
  | S754_nan => B "nan"
  | S754_infinity s => sign_text s ++ B "inf"
  | S754_zero s => sign_text s ++ B "0"
  | S754_finite s m e =>
      let '(r, x) := six_digits m e in
      if ((-4 <=? x) && (x <? 6))%Z then
        let '(r, k) := strip_zeros r (Z.to_nat (5 - x)) in plain_text s r k
      else let '(r, k) := strip_zeros r 5 in plain_text s r k ++ exponent_text x
  end.
(** * Reading what was printed *)

Lemma digits_value_app a b : digits_value (a ++ b) = (digits_value a * 10 ^ Z.of_nat (length b) + digits_value b)%Z.
Proof.
  induction b as [|c b IH] using rev_ind; [rewrite app_nil_r; cbn; lia|].
  rewrite app_assoc, !digits_value_snoc, IH, length_app. cbn [length].
  replace (Z.of_nat (length b + 1)) with (Z.succ (Z.of_nat (length b))) by lia. rewrite Z.pow_succ_r by lia. ring.
Qed.
Lemma digit_val_range c : isdigit c = true → (0 ≤ digit_val c < 10)%Z.
Proof. intros H. pose proof (nat_ascii_bounded c).
  unfold isdigit, in_range, char_int, digit_val in *. destruct (Z.ltb_spec (Z.of_nat (nat_of_ascii c)) 128); bool_hyps; lia. Qed.
Lemma digits_value_range ds : Forall isdigit ds → (0 ≤ digits_value ds < 10 ^ Z.of_nat (length ds))%Z.
Proof.
  induction ds as [|c ds IH] using rev_ind; intros H; [cbn; lia|]. apply Forall_app in H as [H [Hc%Is_true_true _]%Forall_cons].
  rewrite digits_value_snoc, length_app. cbn [length]. replace (Z.of_nat (length ds + 1)) with (Z.succ (Z.of_nat (length ds))) by lia.
  rewrite Z.pow_succ_r by lia. pose proof (digit_val_range c Hc). specialize (IH H). lia.
Qed.
Lemma digit_val_zero c : isdigit c = true → digit_val c = 0%Z → c = "0"%char.
Proof.
  intros _ Hc. apply char_int_inj. unfold digit_val, char_int in *. destruct (Z.ltb_spec (Z.of_nat (nat_of_ascii c)) 128) as [Hlt|Hge]; [|lia].
  replace (Z.of_nat (nat_of_ascii c)) with 48%Z by lia. done.
Qed.

(** How long a number is. *)
Lemma show_digits_length n k : (0 ≤ n)%Z → (0 < n → 10 ^ (Z.of_nat (length (show_digits n)) - 1) ≤ n)%Z ∧
  (n < 10 ^ Z.of_nat (length (show_digits n)))%Z ∧ (k ≠ 0 → (n < 10 ^ Z.of_nat k)%Z → length (show_digits n) ≤ k).
Proof.
  intros Hn. destruct (show_digits_spec n Hn) as (Hd & Hne & Hv & Hz). pose proof (digits_value_range _ Hd) as Hr. rewrite Hv in Hr.
  assert (0 < n → 10 ^ (Z.of_nat (length (show_digits n)) - 1) ≤ n)%Z as Hlow.
  { intros Hpos. destruct (show_digits n) as [|c ds] eqn:E; [done|]. apply Forall_cons in Hd as [Hc%Is_true_true Hds].
    change (c :: ds) with ([c] ++ ds) in Hv. rewrite digits_value_app in Hv. change (digits_value [c]) with (10 * 0 + digit_val c)%Z in Hv.
    pose proof (digits_value_range ds Hds). pose proof (digit_val_range c Hc). cbn [length].
    replace (Z.of_nat (S (length ds)) - 1)%Z with (Z.of_nat (length ds)) by lia.
    assert (digit_val c ≠ 0%Z) as Hc0; [|nia]. intros Hc0. apply digit_val_zero in Hc0 as ->; [|done]. pose proof (Hz eq_refl) as Hz'. injection Hz' as ->. vm_compute in Hv. lia. }
  split_and!; [done|lia|]. intros Hk Hnk. destruct (decide (n = 0%Z)) as [->|Hn0]; [cbn; lia|]. specialize (Hlow ltac:(lia)).
  destruct (decide (length (show_digits n) ≤ k)) as [|Hgt]; [done|]. assert (10 ^ Z.of_nat k ≤ 10 ^ (Z.of_nat (length (show_digits n)) - 1))%Z by (apply Z.pow_le_mono_r; lia). lia.
Qed.

Lemma pad_digits_spec k n : k ≠ 0 → (0 ≤ n < 10 ^ Z.of_nat k)%Z →
  Forall isdigit (pad_digits k n) ∧ length (pad_digits k n) = k ∧ digits_value (pad_digits k n) = n.
Proof.
  intros Hk [Hn Hlt]. destruct (show_digits_spec n Hn) as (Hd & Hne & Hv & Hz). destruct (show_digits_length n k Hn) as (_ & _ & Hl).
  specialize (Hl Hk Hlt). unfold pad_digits. split_and!.
  - apply Forall_app. split; [|done]. by apply Forall_replicate.
  - rewrite length_app, length_replicate. lia.
  - rewrite digits_value_app, Hv. enough (∀ i, digits_value (replicate i "0"%char) = 0%Z) as -> by lia.
    induction i as [|i IH]; [done|]. rewrite replicate_S_end, digits_value_snoc, IH. done.
Qed.

(** What may follow the text of a number without being taken for a part of it. *)
Definition ends_number (rest : str) : Prop := ∀ c, head rest = Some c →
  isdigit c = false ∧ c ≠ "."%char ∧ toupper c ≠ char_int "E" ∧ toupper c ≠ char_int "X".

(** A sign, digits, and decimals: the numbers of JSON and of [plain_text]. *)
Definition decimal_text (sign ip : str) (fp : option str) : str :=
  sign ++ ip ++ match fp with Some fp => "."%char :: fp | None => [] end.
Definition is_sign (s : str) : Prop := s = [] ∨ s = ["+"%char] ∨ s = ["-"%char].
Definition sign_negative (s : str) : bool := bool_decide (s = ["-"%char]).

Lemma digit_facts c : isdigit c = true → toupper c = char_int c ∧ (48 ≤ char_int c ≤ 57)%Z ∧ isspace c = false.
Proof.
  intros H. unfold isspace, toupper, islower, isdigit, in_range in *. bool_hyps. rewrite (proj2 (Z.leb_gt 97 (char_int c))) by lia. split_and!; [done|lia..|].
  destruct (Z.leb_spec (char_int c) 13), (Z.leb_spec (char_int c) 32), (Z.leb_spec 9 (char_int c)), (Z.leb_spec 32 (char_int c)); cbn; lia || done.
Qed.
Lemma not_a_word a p c s : isdigit c = true → (57 < char_int a)%Z → starts_with_word (a :: p) (c :: s) = false.
Proof. intros Hc Ha. cbn. destruct (digit_facts c Hc) as (-> & H & _). by rewrite (proj2 (Z.eqb_neq (char_int c) (char_int a))) by lia. Qed.

Lemma scan_decimal_text ip fp rest : Forall isdigit ip → ip ≠ [] → Forall isdigit (default [] fp) → ends_number rest →
  scan_subject (decimal_text [] ip fp ++ rest) =
    Some (SDecimal (digits_value (ip ++ default [] fp)) (- Z.of_nat (length (default [] fp))), length (decimal_text [] ip fp)).
Proof.
  intros Hip Hne Hfp Hrest. unfold decimal_text. cbn [app]. set (tl := match fp with Some fp => "."%char :: fp | None => [] end).
  assert (∀ c, head (tl ++ rest) = Some c → isdigit c = false ∧ toupper c ≠ char_int "X") as Htl.
  { intros c Hc. unfold tl in Hc. destruct fp; cbn in Hc; [by injection Hc as <-|]. destruct (Hrest c Hc) as (? & _ & _ & ?). done. }
  assert (scan_decimal ((ip ++ tl) ++ rest) = Some (SDecimal (digits_value (ip ++ default [] fp)) (- Z.of_nat (length (default [] fp))), length (ip ++ tl))) as Hd.
  { assert (scan_digits digit_run ((ip ++ tl) ++ rest) = (ip, default [] fp, length (ip ++ tl))) as Hs.
    { unfold scan_digits. rewrite <- app_assoc, digit_run_app by (done || (intros c Hc; by destruct (Htl c Hc))).
      rewrite drop_app_length. unfold tl. destruct fp as [fp|]; cbn [app default].
      - rewrite decide_True, digit_run_app by (done || (intros c Hc; by destruct (Hrest c Hc))). f_equal. rewrite length_app. cbn. lia.
      - rewrite app_nil_r. destruct rest as [|c rest]; [done|]. destruct (Hrest c eq_refl) as (_ & Hdot & _). by rewrite decide_False. }
    unfold scan_decimal. rewrite Hs, decide_False by by destruct ip. rewrite drop_app_length.
    assert (scan_exponent "E" rest = (0%Z, 0)) as ->.
    { unfold scan_exponent. destruct rest as [|c rest]; [done|]. destruct (Hrest c eq_refl) as (_ & _ & He & _). by rewrite decide_False. }
    by rewrite Nat.add_0_r, Z.sub_0_l. }
  destruct ip as [|c ip]; [done|]. apply Forall_cons in Hip as [Hc%Is_true_true Hip]. unfold scan_subject, scan_word.
  change (((c :: ip) ++ tl) ++ rest) with (c :: (ip ++ tl) ++ rest) in *.
  change (B "INFINITY") with ("I"%char :: B "NFINITY"). change (B "INF") with ("I"%char :: B "NF"). change (B "NAN") with ("N"%char :: B "AN").
  rewrite !not_a_word by done.
  assert (scan_hex (c :: (ip ++ tl) ++ rest) = None) as ->; [|done].
  unfold scan_hex. destruct ((ip ++ tl) ++ rest) as [|x y] eqn:E; [done|]. rewrite decide_False; [done|]. intros [_ Hx].
  destruct ip as [|d ip].
  - cbn in E. destruct (Htl x) as [_ []]; [by rewrite E|done].
  - injection E as -> _. apply Forall_cons in Hip as [Hd'%Is_true_true _]. destruct (digit_facts x Hd') as (E & Hr & _). rewrite E in Hx. change (char_int "X") with 88%Z in Hx. lia.
Qed.

Lemma strtod_decimal prec emax sign ip fp rest : is_sign sign → Forall isdigit ip → ip ≠ [] → Forall isdigit (default [] fp) → ends_number rest →
  strtod prec emax (decimal_text sign ip fp ++ rest) =
    (nearest prec emax (sign_negative sign) (digits_value (ip ++ default [] fp)) (- Z.of_nat (length (default [] fp))), length (decimal_text sign ip fp)).
Proof.
  intros Hs Hip Hne Hfp Hrest. pose proof (scan_decimal_text ip fp rest Hip Hne Hfp Hrest) as Hsc.
  assert (decimal_text sign ip fp = sign ++ decimal_text [] ip fp) as -> by done.
  assert (∃ c t, decimal_text [] ip fp = c :: t ∧ isdigit c = true) as (c & t & Hct & Hc).
  { destruct ip as [|c ip]; [done|]. apply Forall_cons in Hip as [Hc%Is_true_true _]. by eexists _, _. }
  unfold strtod. rewrite <- app_assoc. rewrite Hct in *. destruct (digit_facts c Hc) as (_ & Hr & Hsp).
  assert (c ≠ "+"%char ∧ c ≠ "-"%char) as [H1 H2] by (split; intros ->; done).
  change ((c :: t) ++ rest) with (c :: t ++ rest) in *. destruct Hs as [-> | [-> | ->]]; cbn [app].
  - cbn [run_of]. rewrite Hsp. cbn [length drop scan_sign]. rewrite !decide_False by done. by rewrite drop_0, Hsc.
  - change (run_of isspace ("+"%char :: c :: t ++ rest)) with (@nil ascii). cbn [length drop scan_sign Nat.add].
    rewrite decide_False, decide_True by done. cbn [drop]. by rewrite Hsc.
  - change (run_of isspace ("-"%char :: c :: t ++ rest)) with (@nil ascii). cbn [length drop scan_sign Nat.add].
    rewrite decide_True by done. cbn [drop]. by rewrite Hsc.
Qed.

(** The text of [r / 10^k] is one of these, and denotes it. *)
Definition plain_parts (r : Z) (k : nat) : str * option str :=
  (show_digits (r `div` 10 ^ Z.of_nat k), match k with 0 => None | _ => Some (pad_digits k (r `mod` 10 ^ Z.of_nat k)) end).
Lemma plain_text_parts negative r k : (0 ≤ r)%Z → let '(ip, fp) := plain_parts r k in
  plain_text negative r k = decimal_text (sign_text negative) ip fp ∧ Forall isdigit ip ∧ ip ≠ [] ∧ Forall isdigit (default [] fp) ∧
  digits_value (ip ++ default [] fp) = r ∧ length (default [] fp) = k.
Proof.
  intros Hr. unfold plain_parts, plain_text, decimal_text. assert (0 < 10 ^ Z.of_nat k)%Z by lia.
  destruct (show_digits_spec (r `div` 10 ^ Z.of_nat k)) as (Hd & Hne & Hv & _); [by apply Z.div_pos|]. destruct k as [|k].
  - cbn [default]. split_and!; try done. rewrite app_nil_r, Hv. cbn. apply Z.div_1_r.
  - destruct (pad_digits_spec (S k) (r `mod` 10 ^ Z.of_nat (S k))) as (Hf & Hl & Hp); [done|by apply Z.mod_pos_bound|].
    unfold default, id. split_and!; try done. rewrite digits_value_app, Hv, Hl, Hp. pose proof (Z.div_mod r (10 ^ Z.of_nat (S k))). lia.
Qed.
Lemma strtod_plain prec emax negative r k rest : (0 ≤ r)%Z → ends_number rest →
  strtod prec emax (plain_text negative r k ++ rest) = (nearest prec emax negative r (- Z.of_nat k), length (plain_text negative r k)).
Proof.
  intros Hr Hrest. pose proof (plain_text_parts negative r k Hr) as H. destruct (plain_parts r k) as [ip fp].
  destruct H as (-> & Hip & Hne & Hfp & Hv & Hl). rewrite strtod_decimal by (done || by destruct negative; unfold is_sign; auto).
  rewrite Hv, Hl. by destruct negative.
Qed.

(** * Six digits *)

Lemma round_div_bounds a b num den : (0 < den)%Z → (a * den ≤ num < b * den)%Z → (a ≤ round_div num den ≤ b)%Z.
Proof.
  intros Hd Hn. unfold round_div. assert (a ≤ num `div` den < b)%Z as Hq.
  { split; [apply Z.div_le_lower_bound; lia|apply Z.div_lt_upper_bound; lia]. }
  destruct (2 * (num `mod` den) <? den)%Z, (den <? 2 * (num `mod` den))%Z, (Z.even (num `div` den)); lia.
Qed.

Lemma round_div_nonneg num den : (0 ≤ num)%Z → (0 < den)%Z → (0 ≤ round_div num den)%Z.
Proof. intros. apply (round_div_bounds 0 (num + 1)); nia. Qed.
Lemma scaled_nonneg m e k : (0 ≤ scaled m e k)%Z.
Proof. apply round_div_nonneg; unfold numerator, denominator; nia. Qed.

Lemma first_digit_spec num den : (0 < num)%Z → (0 < den)%Z → let x := first_digit num den in
  (10 ^ 5 * (den * 10 ^ Z.max (- (5 - x)) 0) ≤ num * 10 ^ Z.max (5 - x) 0 < 10 ^ 6 * (den * 10 ^ Z.max (- (5 - x)) 0))%Z.
Proof.
  intros Hn Hd. unfold first_digit. destruct (Z.leb_spec den num) as [Hle|Hlt].
  - assert (1 ≤ num `div` den)%Z as Hq by (apply Z.div_le_lower_bound; lia).
    destruct (show_digits_length (num `div` den) 0) as (Hlo & Hhi & _); [lia|]. specialize (Hlo ltac:(lia)).
    destruct (show_digits_spec (num `div` den)) as (_ & Hne & _); [lia|]. set (l := Z.of_nat (length (show_digits (num `div` den)))) in *.
    assert (1 ≤ l)%Z as Hl by (unfold l; destruct (show_digits (num `div` den)); [done|cbn [length]; lia]).
    pose proof (Z.div_mod num den). pose proof (Z.mod_pos_bound num den Hd).
    assert (10 ^ (l - 1) * den ≤ num < 10 ^ l * den)%Z as Hb by nia. cbn zeta. replace (5 - (l - 1))%Z with (6 - l)%Z by lia.
    destruct (Z.leb_spec l 6) as [H6|H6].
    + rewrite (Z.max_l (6 - l)), (Z.max_r (- (6 - l))) by lia. replace (10 ^ 5)%Z with (10 ^ (l - 1) * 10 ^ (6 - l))%Z by (rewrite <- Z.pow_add_r by lia; f_equal; lia).
      replace (10 ^ 6)%Z with (10 ^ l * 10 ^ (6 - l))%Z by (rewrite <- Z.pow_add_r by lia; f_equal; lia). assert (0 < 10 ^ (6 - l))%Z by lia. nia.
    + rewrite (Z.max_r (6 - l)), (Z.max_l (- (6 - l))) by lia.
      assert (10 ^ 5 * 10 ^ (- (6 - l)) = 10 ^ (l - 1))%Z as H5 by (rewrite <- Z.pow_add_r by lia; f_equal; lia).
      assert (10 ^ 6 * 10 ^ (- (6 - l)) = 10 ^ l)%Z as H6' by (rewrite <- Z.pow_add_r by lia; f_equal; lia). nia.
  - assert (1 ≤ (den - 1) `div` num)%Z as Hq by (apply Z.div_le_lower_bound; lia).
    destruct (show_digits_length ((den - 1) `div` num) 0) as (Hlo & Hhi & _); [lia|]. specialize (Hlo ltac:(lia)).
    destruct (show_digits_spec ((den - 1) `div` num)) as (_ & Hne & _); [lia|]. set (l := Z.of_nat (length (show_digits ((den - 1) `div` num)))) in *.
    assert (1 ≤ l)%Z as Hl by (unfold l; destruct (show_digits ((den - 1) `div` num)); [done|cbn [length]; lia]).
    pose proof (Z.div_mod (den - 1) num). pose proof (Z.mod_pos_bound (den - 1) num Hn).
    assert (10 ^ l = 10 * 10 ^ (l - 1))%Z as Hl10 by (rewrite <- Z.pow_succ_r by lia; f_equal; lia).
    assert (den ≤ num * 10 ^ l < 10 * den)%Z as Hb by nia. cbn zeta. replace (5 - - l)%Z with (5 + l)%Z by lia.
    rewrite (Z.max_l (5 + l)), (Z.max_r (- (5 + l))), Z.pow_add_r by lia. change (10 ^ 0)%Z with 1%Z. nia.
Qed.

(** The six digits of a number are six. *)
Lemma six_digits_range m e : (10 ^ 5 ≤ (six_digits m e).1 < 10 ^ 6)%Z.
Proof.
  unfold six_digits. set (x := first_digit (numerator m e) (denominator e)). assert (0 < numerator m e)%Z as Hn by (unfold numerator; lia).
  assert (0 < denominator e)%Z as Hd by (unfold denominator; lia). pose proof (first_digit_spec _ _ Hn Hd) as H. fold x in H. cbn zeta in H.
  assert (10 ^ 5 ≤ scaled m e (5 - x) ≤ 10 ^ 6)%Z as Hs by (unfold scaled; apply round_div_bounds; lia).
  destruct (Z.eqb_spec (scaled m e (5 - x)) (10 ^ 6)); cbn [fst]; lia.
Qed.
Lemma strip_zeros_range r k : (0 ≤ r)%Z → (0 ≤ (strip_zeros r k).1 ≤ r)%Z.
Proof.
  revert r. induction k as [|k IH]; intros r Hr; cbn; [lia|]. destruct (r `mod` 10 =? 0)%Z; [|cbn; lia].
  assert (r `div` 10 ≤ r)%Z by (apply Z.div_le_upper_bound; lia). assert (0 ≤ r `div` 10)%Z by (apply Z.div_pos; lia). specialize (IH (r `div` 10)%Z). lia.
Qed.
(** Dropping zeros keeps the number. *)
Lemma strip_zeros_value r k : (0 ≤ r)%Z → let '(r', k') := strip_zeros r k in k' ≤ k ∧ r = (r' * 10 ^ Z.of_nat (k - k'))%Z.
Proof.
  revert r. induction k as [|k IH]; intros r Hr; cbn [strip_zeros]; [split; [done|cbn; lia]|].
  destruct (Z.eqb_spec (r `mod` 10) 0) as [Hm|]; [|split; [done|]; rewrite Nat.sub_diag; cbn; lia].
  specialize (IH (r `div` 10)%Z ltac:(apply Z.div_pos; lia)). destruct (strip_zeros (r `div` 10) k) as [r' k']. destruct IH as [Hk Hv]. split; [lia|].
  replace (Z.of_nat (S k - k')) with (Z.succ (Z.of_nat (k - k'))) by lia. rewrite Z.pow_succ_r by lia. pose proof (Z.div_mod r 10). lia.
Qed.

(** The numbers a stream prints without an exponent: the sign, the digits and
    the number of decimals of their texts. *)
Definition plain_decimal (x : spec_float) : option (bool * Z * nat) :=
  match x with
  | S754_zero s => Some (s, 0%Z, 0)
  | S754_finite s m e =>
      let '(r, x) := six_digits m e in
      if ((-4 <=? x) && (x <? 6))%Z then let '(r, k) := strip_zeros r (Z.to_nat (5 - x)) in Some (s, r, k) else None
  | _ => None
  end.
(** What such a text denotes. *)
Definition six_digit_value (x : spec_float) : spec_float :=
  match plain_decimal x with Some (s, r, k) => nearest 53 1024 s r (- Z.of_nat k) | None => x end.

Lemma show_float_plain x s r k : plain_decimal x = Some (s, r, k) → show_float x = plain_text s r k ∧ (0 ≤ r < 10 ^ 6)%Z.
Proof.
  destruct x as [s'|s'| |s' m e]; try done; cbn [plain_decimal show_float].
  - intros [= <- <- <-]. split; [|done]. by destruct s'.
  - pose proof (six_digits_range m e) as Hr. destruct (six_digits m e) as [r0 x]. cbn [fst] in Hr. destruct (_ && _); [|done].
    pose proof (strip_zeros_range r0 (Z.to_nat (5 - x))) as Hs. destruct (strip_zeros r0 _) as [r1 k1]. cbn [fst] in Hs. intros [= <- <- <-]. split; [done|lia].
Qed.

(** * No overflow *)

Lemma shr_1_half r : (0 ≤ shr_m r)%Z → (shr_m (shr_1 r) = shr_m r `div` 2)%Z.
Proof.
  destruct r as [[|[p|p|]|p] b c]; cbn [shr_m]; intros H; [done| | |done|lia]; cbn [shr_1 shr_m].
  - apply (Z.div_unique _ 2 _ 1); lia.
  - apply (Z.div_unique _ 2 _ 0); lia.
Qed.
Lemma shr_iter_half p : ∀ r, (0 ≤ shr_m r)%Z → (shr_m (SpecFloat.iter_pos shr_1 p r) = shr_m r `div` 2 ^ Zpos p)%Z.
Proof.
  assert (∀ q x, 0 ≤ x → 0 ≤ x `div` 2 ^ Zpos q)%Z as Hpos by (intros; apply Z.div_pos; lia).
  induction p as [p IH|p IH|]; intros r Hr; cbn [SpecFloat.iter_pos].
  - pose proof (shr_1_half r Hr) as H1. assert (0 ≤ shr_m (shr_1 r))%Z as H1' by (rewrite H1; apply Z.div_pos; lia).
    rewrite (IH (SpecFloat.iter_pos shr_1 p (shr_1 r))) by (rewrite IH by done; by apply Hpos). rewrite IH, H1, !Z.div_div by lia. f_equal.
    rewrite <- Z.pow_add_r, <- Z.pow_succ_r by lia. f_equal. lia.
  - rewrite (IH (SpecFloat.iter_pos shr_1 p r)) by (rewrite IH by done; by apply Hpos). rewrite IH, !Z.div_div by lia. f_equal.
    rewrite <- Z.pow_add_r by lia. f_equal. lia.
  - by rewrite shr_1_half.
Qed.

Lemma digits_log2 p : Zpos (digits2_pos p) = (Z.log2 (Zpos p) + 1)%Z.
Proof.
  assert (digits2_pos p = Pos.size p) as -> by (induction p as [p IH|p IH|]; cbn; [by rewrite IH..|done]).
  destruct p as [p|p|]; cbn; lia.
Qed.
Lemma digits_bound m d : (0 ≤ m)%Z → (0 ≤ d)%Z → (m < 2 ^ d)%Z → (Zdigits2 m ≤ d)%Z.
Proof.
  intros Hm Hd Hlt. destruct m as [|p|p]; cbn [Zdigits2]; [done| |lia]. rewrite digits_log2.
  assert (Z.log2 (Zpos p) < d)%Z by (apply Z.log2_lt_pow2; lia). lia.
Qed.

Section overflow.
Context (prec emax : Z).

Lemma shr_fexp_spec m e l : (0 ≤ m)%Z → let '(r, e') := shr_fexp prec emax m e l in
  e' = Z.max e (fexp prec emax (Zdigits2 m + e)) ∧ shr_m r = (m `div` 2 ^ (e' - e))%Z.
Proof.
  intros Hm. unfold shr_fexp. assert (shr_m (shr_record_of_loc m l) = m) as Hl by (by destruct l as [|[]]).
  set (f := fexp prec emax (Zdigits2 m + e)). destruct (f - e)%Z as [|p|p] eqn:E; cbn [shr].
  - split; [lia|]. rewrite Z.sub_diag, Hl. by rewrite Z.div_1_r.
  - split; [lia|]. rewrite shr_iter_half, Hl by (by rewrite Hl). f_equal. f_equal. lia.
  - split; [lia|]. rewrite Z.sub_diag, Hl. by rewrite Z.div_1_r.
Qed.

Lemma round_aux_finite negative m e l d inf : (0 ≤ m)%Z → (e ≤ 0)%Z → (0 ≤ d)%Z → (m < 2 ^ (d - e))%Z →
  (fexp prec emax (d + 1) ≤ 0)%Z → (prec ≤ emax)%Z → binary_round_aux prec emax negative m e l ≠ S754_infinity inf.
Proof.
  intros Hm He Hd Hlt Hf Hp. unfold binary_round_aux. assert (∀ a b, a ≤ b → fexp prec emax a ≤ fexp prec emax b)%Z as Hmono by (unfold fexp; lia).
  pose proof (shr_fexp_spec m e l Hm) as H1. destruct (shr_fexp prec emax m e l) as [r1 e1]. destruct H1 as [He1 Hr1].
  pose proof (digits_bound m (d - e)%Z Hm ltac:(lia) Hlt) as Hdig.
  assert (e1 ≤ 0)%Z as He1' by (pose proof (Hmono (Zdigits2 m + e)%Z (d + 1)%Z ltac:(lia)); lia).
  assert (0 ≤ shr_m r1 < 2 ^ (d - e1))%Z as Hb.
  { rewrite Hr1. split; [apply Z.div_pos; lia|]. apply Z.div_lt_upper_bound; [lia|]. rewrite <- Z.pow_add_r by lia. by replace (e1 - e + (d - e1))%Z with (d - e)%Z by lia. }
  set (m2 := round_nearest_even (shr_m r1) (loc_of_shr_record r1)).
  assert (0 ≤ m2 ≤ shr_m r1 + 1)%Z as Hm2 by (unfold m2, round_nearest_even; destruct (loc_of_shr_record r1) as [|[]]; [lia|destruct (Z.even _)|..]; lia).
  pose proof (shr_fexp_spec m2 e1 loc_Exact ltac:(lia)) as H2. destruct (shr_fexp prec emax m2 e1 loc_Exact) as [r2 e2]. destruct H2 as [He2 _].
  assert (2 ^ (d + 1 - e1) = 2 * 2 ^ (d - e1))%Z as Hpow by (rewrite <- Z.pow_succ_r by lia; f_equal; lia).
  pose proof (digits_bound m2 (d + 1 - e1)%Z ltac:(lia) ltac:(lia) ltac:(lia)) as Hdig2.
  assert (e2 ≤ 0)%Z as He2' by (pose proof (Hmono (Zdigits2 m2 + e1)%Z (d + 1)%Z ltac:(lia)); lia).
  destruct (shr_m r2); [done| |done]. by rewrite (proj2 (Z.leb_le e2 (emax - prec))) by lia.
Qed.

Lemma nearest_finite negative m k d inf : (0 ≤ m < 2 ^ d)%Z → (0 ≤ d)%Z → (fexp prec emax (d + 1) ≤ 0)%Z → (prec ≤ emax)%Z →
  nearest prec emax negative m (- Z.of_nat k) ≠ S754_infinity inf.
Proof.
  intros Hm Hd Hf Hp. destruct m as [|p|p]; [done| |done]. cbn [nearest]. rewrite (proj2 (Z.ltb_ge 0 (- Z.of_nat k))) by lia.
  unfold SFdiv, SFdiv_core_binary. set (y := Zpos (Z.to_pos (10 ^ (- (- Z.of_nat k))))).
  set (e := Z.min (fexp prec emax (Zdigits2 (Zpos p) + 0 - (Zdigits2 y + 0))) (0 - 0)). assert (e ≤ 0)%Z as He by lia.
  set (m' := match (0 - 0 - e)%Z with Z0 => Zpos p | Zpos _ => Z.shiftl (Zpos p) (0 - 0 - e) | Zneg _ => 0%Z end).
  assert (m' = Zpos p * 2 ^ (- e))%Z as Hm'.
  { unfold m'. destruct (0 - 0 - e)%Z as [|q|q] eqn:Eq; [|rewrite Z.shiftl_mul_pow2 by lia; f_equal; f_equal; lia|lia]. replace e with 0%Z by lia. by rewrite Z.mul_1_r. }
  pose proof (Z_div_mod m' y ltac:(lia)) as Hq. destruct (Z.div_eucl m' y) as [q r]. destruct Hq as [Hq Hr]. rewrite xorb_false_r.
  apply (round_aux_finite _ _ _ _ d); try done.
  - destruct (decide (q < 0)%Z); [|lia]. assert (0 ≤ m')%Z by lia. nia.
  - assert (q ≤ m')%Z by nia. apply (Z.le_lt_trans _ m'); [done|]. rewrite Hm'. unfold Z.sub. rewrite Z.pow_add_r by lia. apply Z.mul_lt_mono_pos_r; lia.
Qed.
End overflow.

(** Six digits without an exponent are in the range of [double]. *)
Lemma six_digit_value_finite x : is_Some (plain_decimal x) → six_digit_value x ≠ HUGE_VAL.
Proof.
  unfold six_digit_value. intros [[[s r] k] E]. rewrite E. destruct (show_float_plain x s r k E) as [_ Hr]. 
  apply (nearest_finite _ _ _ _ _ 20); [lia|done..].
Qed.
