(* ===== verification/Errors.v ===== *)
(** lw/err: the table from system error numbers to error classes, and the
    error objects with their stacks. *)
From S2P Require Import Prelude Cxx.

(** * System errors *)

(** The errno constants that [check_system_error] names. *)
Inductive errno :=
  | EAGAIN | ECONNABORTED | EDEADLK | ENETRESET | ERESTART | EALREADY | EEXIST | EINPROGRESS
  | ECANCELED | ECONNRESET | EINTR | ENOLINK | ETIME | ETIMEDOUT | EADDRINUSE
  | EADDRNOTAVAIL | EBADFD | ECHILD | EISCONN | EISDIR | EISNAM | EKEYEXPIRED | ENODATA
  | ENONET | ENOPKG | ENOTBLK | ENOTCONN | ENOTEMPTY | ENOTTY | ENOTUNIQ | EPIPE | ESHUTDOWN
  | EUNATCH | EBADE | ECOMM | EHWPOISON | EIDRM | EIO | EL2HLT | EL2NSYNC | EL3HLT | EL3RST
  | ELIBACC | ELIBBAD | ELIBSCN | ELIBEXEC | ENOTRECOVERABLE | ERFKILL | E2BIG | EBADF
  | EBADMSG | EBADR | EBADRQC | EBADSLT | EDESTADDRREQ | EFAULT | EILSEQ | EINVAL
  | ENAMETOOLONG | ENOEXEC | ENOTDIR | ENOSTR | ENOTSOCK | EPROTOTYPE | ESPIPE | ESTALE
  | ENODEV | ENOENT | ENOMSG | ENXIO | ESRCH | ECHRNG | EDOM | ERANGE | EACCES
  | ECONNREFUSED | EKEYREJECTED | EKEYREVOKED | EPERM | EROFS | EDQUOT | EFBIG | ELIBMAX
  | ELOOP | EMFILE | EMLINK | EMSGSIZE | ENFILE | ENOBUFS | ENOKEY | ENOLCK | ENOMEM
  | ENOSPC | ENOSR | EOVERFLOW | ETOOMANYREFS | EUSERS | EXFULL | EBUSY | EHOSTDOWN
  | EHOSTUNREACH | ENETDOWN | ENETUNREACH | ENOPROTOOPT | ETXTBSY | EAFNOSUPPORT | ENOSYS
  | ENOTSUP | EPFNOSUPPORT | EPROTONOSUPPORT | ESOCKTNOSUPPORT.

(** Their values on Linux (<cerrno>). *)
Definition errno_num (e : errno) : Z :=
  match e with
  | EAGAIN => 11 | ECONNABORTED => 103 | EDEADLK => 35 | ENETRESET => 102 | ERESTART => 85
  | EALREADY => 114 | EEXIST => 17 | EINPROGRESS => 115 | ECANCELED => 125
  | ECONNRESET => 104 | EINTR => 4 | ENOLINK => 67 | ETIME => 62 | ETIMEDOUT => 110
  | EADDRINUSE => 98 | EADDRNOTAVAIL => 99 | EBADFD => 77 | ECHILD => 10 | EISCONN => 106
  | EISDIR => 21 | EISNAM => 120 | EKEYEXPIRED => 127 | ENODATA => 61 | ENONET => 64
  | ENOPKG => 65 | ENOTBLK => 15 | ENOTCONN => 107 | ENOTEMPTY => 39 | ENOTTY => 25
  | ENOTUNIQ => 76 | EPIPE => 32 | ESHUTDOWN => 108 | EUNATCH => 49 | EBADE => 52
  | ECOMM => 70 | EHWPOISON => 133 | EIDRM => 43 | EIO => 5 | EL2HLT => 51 | EL2NSYNC => 45
  | EL3HLT => 46 | EL3RST => 47 | ELIBACC => 79 | ELIBBAD => 80 | ELIBSCN => 81
  | ELIBEXEC => 83 | ENOTRECOVERABLE => 131 | ERFKILL => 132 | E2BIG => 7 | EBADF => 9
  | EBADMSG => 74 | EBADR => 53 | EBADRQC => 56 | EBADSLT => 57 | EDESTADDRREQ => 89
  | EFAULT => 14 | EILSEQ => 84 | EINVAL => 22 | ENAMETOOLONG => 36 | ENOEXEC => 8
  | ENOTDIR => 20 | ENOSTR => 60 | ENOTSOCK => 88 | EPROTOTYPE => 91 | ESPIPE => 29
  | ESTALE => 116 | ENODEV => 19 | ENOENT => 2 | ENOMSG => 42 | ENXIO => 6 | ESRCH => 3
  | ECHRNG => 44 | EDOM => 33 | ERANGE => 34 | EACCES => 13 | ECONNREFUSED => 111
  | EKEYREJECTED => 129 | EKEYREVOKED => 128 | EPERM => 1 | EROFS => 30 | EDQUOT => 122
  | EFBIG => 27 | ELIBMAX => 82 | ELOOP => 40 | EMFILE => 24 | EMLINK => 31 | EMSGSIZE => 90
  | ENFILE => 23 | ENOBUFS => 105 | ENOKEY => 126 | ENOLCK => 37 | ENOMEM => 12
  | ENOSPC => 28 | ENOSR => 63 | EOVERFLOW => 75 | ETOOMANYREFS => 109 | EUSERS => 87
  | EXFULL => 54 | EBUSY => 16 | EHOSTDOWN => 112 | EHOSTUNREACH => 113 | ENETDOWN => 100
  | ENETUNREACH => 101 | ENOPROTOOPT => 92 | ETXTBSY => 26 | EAFNOSUPPORT => 97
  | ENOSYS => 38 | ENOTSUP => 95 | EPFNOSUPPORT => 96 | EPROTONOSUPPORT => 93
  | ESOCKTNOSUPPORT => 94
  end%Z.

(** The class thrown for each [case] of the [switch]. *)
Definition errno_class (e : errno) : error_kind :=
  match e with
  | EAGAIN | ECONNABORTED | EDEADLK | ENETRESET | ERESTART => Aborted
  | EALREADY | EEXIST | EINPROGRESS => AlreadyExists
  | ECANCELED | ECONNRESET | EINTR | ENOLINK => Cancelled
  | ETIME | ETIMEDOUT => DeadlineExceeded
  | EADDRINUSE | EADDRNOTAVAIL | EBADFD | ECHILD | EISCONN | EISDIR | EISNAM | EKEYEXPIRED
  | ENODATA | ENONET | ENOPKG | ENOTBLK | ENOTCONN | ENOTEMPTY | ENOTTY | ENOTUNIQ | EPIPE
  | ESHUTDOWN | EUNATCH => FailedPrecondition
  | EBADE | ECOMM | EHWPOISON | EIDRM | EIO | EL2HLT | EL2NSYNC | EL3HLT | EL3RST | ELIBACC
  | ELIBBAD | ELIBSCN | ELIBEXEC | ENOTRECOVERABLE | ERFKILL => Internal
  | E2BIG | EBADF | EBADMSG | EBADR | EBADRQC | EBADSLT | EDESTADDRREQ | EFAULT | EILSEQ
  | EINVAL | ENAMETOOLONG | ENOEXEC | ENOTDIR | ENOSTR | ENOTSOCK | EPROTOTYPE | ESPIPE
  | ESTALE => InvalidArgument
  | ENODEV | ENOENT | ENOMSG | ENXIO | ESRCH => NotFound
  | ECHRNG | EDOM | ERANGE => OutOfRange
  | EACCES | ECONNREFUSED | EKEYREJECTED | EKEYREVOKED | EPERM | EROFS => PermissionDenied
  | EDQUOT | EFBIG | ELIBMAX | ELOOP | EMFILE | EMLINK | EMSGSIZE | ENFILE | ENOBUFS
  | ENOKEY | ENOLCK | ENOMEM | ENOSPC | ENOSR | EOVERFLOW | ETOOMANYREFS | EUSERS | EXFULL => ResourceExhausted
  | EBUSY | EHOSTDOWN | EHOSTUNREACH | ENETDOWN | ENETUNREACH | ENOPROTOOPT | ETXTBSY => Unavailable
  | EAFNOSUPPORT | ENOSYS | ENOTSUP | EPFNOSUPPORT | EPROTONOSUPPORT | ESOCKTNOSUPPORT => Unimplemented
  end.

Definition all_errno : list errno :=
   [EAGAIN; ECONNABORTED; EDEADLK; ENETRESET; ERESTART; EALREADY; EEXIST; EINPROGRESS
   ; ECANCELED; ECONNRESET; EINTR; ENOLINK; ETIME; ETIMEDOUT; EADDRINUSE; EADDRNOTAVAIL
   ; EBADFD; ECHILD; EISCONN; EISDIR; EISNAM; EKEYEXPIRED; ENODATA; ENONET; ENOPKG; ENOTBLK
   ; ENOTCONN; ENOTEMPTY; ENOTTY; ENOTUNIQ; EPIPE; ESHUTDOWN; EUNATCH; EBADE; ECOMM
   ; EHWPOISON; EIDRM; EIO; EL2HLT; EL2NSYNC; EL3HLT; EL3RST; ELIBACC; ELIBBAD; ELIBSCN
   ; ELIBEXEC; ENOTRECOVERABLE; ERFKILL; E2BIG; EBADF; EBADMSG; EBADR; EBADRQC; EBADSLT
   ; EDESTADDRREQ; EFAULT; EILSEQ; EINVAL; ENAMETOOLONG; ENOEXEC; ENOTDIR; ENOSTR; ENOTSOCK
   ; EPROTOTYPE; ESPIPE; ESTALE; ENODEV; ENOENT; ENOMSG; ENXIO; ESRCH; ECHRNG; EDOM; ERANGE
   ; EACCES; ECONNREFUSED; EKEYREJECTED; EKEYREVOKED; EPERM; EROFS; EDQUOT; EFBIG; ELIBMAX
   ; ELOOP; EMFILE; EMLINK; EMSGSIZE; ENFILE; ENOBUFS; ENOKEY; ENOLCK; ENOMEM; ENOSPC; ENOSR
   ; EOVERFLOW; ETOOMANYREFS; EUSERS; EXFULL; EBUSY; EHOSTDOWN; EHOSTUNREACH; ENETDOWN
   ; ENETUNREACH; ENOPROTOOPT; ETXTBSY; EAFNOSUPPORT; ENOSYS; ENOTSUP; EPFNOSUPPORT
   ; EPROTONOSUPPORT; ESOCKTNOSUPPORT].

(** [check_system_error(err_code)]: an [int], looked up in the switch. *)
Definition check_system_error (err_code : Z) : res () :=
  if (err_code =? 0)%Z then Ok ()
  else match List.find (λ e, errno_num e =? err_code)%Z all_errno with
       | Some e => throw (errno_class e)
       | None => throw Internal
       end.

(** [check_system_error()]: the call reads [errno]. *)
Definition check_errno (errno_value : Z) : res () := check_system_error errno_value.

Lemma errno_num_range e : (1 ≤ errno_num e ≤ 133)%Z.
Proof. by destruct e. Qed.

Lemma find_named e : List.find (λ e', errno_num e' =? errno_num e)%Z all_errno = Some e.
Proof. by destruct e. Qed.

Lemma check_named e : check_system_error (errno_num e) = throw (errno_class e).
Proof. by destruct e. Qed.

Lemma check_cases code :
  code = 0%Z ∧ check_system_error code = Ok () ∨
  (∃ e, code = errno_num e ∧ check_system_error code = throw (errno_class e)) ∨
  code ≠ 0%Z ∧ (∀ e, code ≠ errno_num e) ∧ check_system_error code = throw Internal.
Proof.
  destruct (decide (code = 0%Z)) as [->|Hne]; [by left|right].
  destruct (List.find (λ e, errno_num e =? code)%Z all_errno) as [e|] eqn:E.
  - left. apply List.find_some in E as [_ E%Z.eqb_eq]. exists e. split; [done|].
    rewrite <- E. apply check_named.
  - right. split_and!; [done|..].
    + intros e ->. assert (In e all_errno) as Hin by (destruct e; cbn; tauto).
      eapply List.find_none in E; [|exact Hin]. by rewrite Z.eqb_refl in E.
    + unfold check_system_error. rewrite E. by destruct (Z.eqb_spec code 0).
Qed.

(** * Error objects *)

(** [ErrorStack]: where the error was created, the text streamed into it so
    far, and the error it wraps. *)
Inductive ErrorStack (location : Type) :=
  | Stack (_location : location) (_buffer : str) (_previous : option (ErrorStack location)).
Arguments Stack {_} _ _ _.

Section errors.
Context {location : Type}.
Implicit Types (loc : location) (s : ErrorStack location).

Definition stack_location s : location := match s with Stack l _ _ => l end.
Definition message s : str := match s with Stack _ m _ => m end.
Definition _previous s : option (ErrorStack location) := match s with Stack _ _ p => p end.

(** An [Error]: its class and its stack. *)
Record Error := MakeError { error_class : error_kind; _stack : ErrorStack location }.

(** The constructor streams the location and the class name into the message;
    [header] is that text. *)
Definition new_error (header : location → error_kind → str) (k : error_kind) loc : Error :=
  MakeError k (Stack loc (header loc k) None).

(** [err << val]. *)
Definition stream_into (err : Error) (text : str) : Error :=
  MakeError (error_class err)
    (Stack (stack_location (_stack err)) (message (_stack err) ++ text) (_previous (_stack err))).

(** [err << other_error]. *)
Definition stream_error (err other : Error) : Error := stream_into err (message (_stack other)).

(** [ErrorStack(const ErrorStack&)] copies the chain. *)
Fixpoint copy_stack s : ErrorStack location :=
  match s with Stack l m p => Stack l m (option_map copy_stack p) end.

(** [Error(const Error&)] and [Error(Error&&)]. *)
Definition copy_error (e : Error) : Error := MakeError (error_class e) (copy_stack (_stack e)).
Definition move_error (e : Error) : Error := e.

(** [ErrorStack::operator=(const ErrorStack&)]: [reserve] does not change the
    destination's size, and that many bytes are copied from the source, whose
    terminator is the last byte that may be read; the old [_previous] stays
    when the source has none. *)
Definition assign_stack (dst src : ErrorStack location) : res (ErrorStack location) :=
  let n := length (message dst) in
  if decide (n ≤ S (length (message src))) then
    Ok (Stack (stack_location src) (take n (message src ++ ["000"%char]))
          (match _previous src with
           | Some p => Some (copy_stack p)
           | None => _previous dst
           end))
  else Undef.

(** [Error::operator=(const Error&)]. *)
Definition assign_error (dst src : Error) : res Error :=
  s ← assign_stack (_stack dst) (_stack src); Ok (MakeError (error_class dst) s).

(** [wrap<ErrorType>(sub_error)]. *)
Definition wrap (header : location → error_kind → str) (k : error_kind) (sub_error : Error) loc :
    Error :=
  let err := new_error header k loc in
  MakeError k (Stack (stack_location (_stack err)) (message (_stack err))
                 (Some (copy_stack (_stack sub_error)))).

(** The [ErrorStack::Iterator]: a loop over [begin() .. end()]. *)
Fixpoint frames s : list (location * str) :=
  match s with Stack l m p => (l, m) :: match p with Some s => frames s | None => [] end end.

(** Induction along the chain. *)
Fixpoint stack_ind' (P : ErrorStack location → Prop)
    (H0 : ∀ l m, P (Stack l m None)) (H1 : ∀ l m p, P p → P (Stack l m (Some p))) s : P s :=
  match s with
  | Stack l m None => H0 l m
  | Stack l m (Some p) => H1 l m p (stack_ind' P H0 H1 p)
  end.

Lemma copy_stack_id s : copy_stack s = s.
Proof. induction s as [|l m p IH] using stack_ind'; [done|]. cbn. by rewrite IH. Qed.

(** What an error chain shows after it was built by wrapping: the newest error
    first, the wrapped one's frames behind it unchanged. *)
Lemma wrap_frames header k sub loc text :
  frames (_stack (stream_into (wrap header k sub loc) text))
  = (loc, header loc k ++ text) :: frames (_stack sub).
Proof. cbn. by rewrite copy_stack_id. Qed.

Lemma assign_stack_lengths dst src :
  length (message dst) = length (message src) →
  assign_stack dst src = Ok (Stack (stack_location src) (message src)
    (match _previous src with Some p => Some p | None => _previous dst end)).
Proof.
  intros Hl. unfold assign_stack. rewrite Hl, decide_True by lia. do 2 f_equal.
  - by rewrite take_app_length.
  - destruct (_previous src); [by rewrite copy_stack_id|done].
Qed.
End errors.
Arguments Error : clear implicits.

(** * Properties *)

(** [check_system_error] for every [int]: it returns for zero only; each
    number in the table throws its own class, and every other number throws
    [Internal].  No number is claimed by two cases of the switch. *)
Theorem check_system_error_table (code : Z) :
  (check_system_error code = Ok () ↔ code = 0%Z) ∧
  (∀ e, code = errno_num e → check_system_error code = throw (errno_class e)) ∧
  (code ≠ 0%Z → (∀ e, code ≠ errno_num e) → check_system_error code = throw Internal) ∧
  (∀ e e', errno_num e = errno_num e' → e = e').
Proof.
  split_and!.
  - destruct (check_cases code) as [[-> ?]|[(e & -> & ->)|(? & ? & ->)]]; [done|..]; split; try done.
    intros He. pose proof (errno_num_range e). lia.
  - intros e ->. apply check_named.
  - intros H0 He. destruct (check_cases code) as [[]|[(e & ? & _)|(_ & _ & ->)]]; [done| |done].
    by apply He in H1 || (exfalso; by eapply He).
  - intros e e' H. pose proof (find_named e) as He. rewrite H, find_named in He. congruence.
Qed.

(** Copy-assigning an error gives an equal error exactly when both
    messages have the same length and the source wraps an error whenever the
    target does: the assignment copies as many bytes as the target's own
    message has (running past a shorter source), and never clears the target's
    wrapped error. *)
Theorem assign_error_correct_iff {location} (dst src : ErrorStack location) :
  assign_stack dst src = Ok src ↔
  length (message dst) = length (message src) ∧
  (_previous src = None → _previous dst = None).
Proof.
  split.
  - intros H. assert (length (message dst) = length (message src)) as Hl.
    { unfold assign_stack in H. destruct (decide _) as [Hle|]; [|done].
      injection H as H. apply (f_equal (λ s, length (message s))) in H. cbn in H.
      rewrite length_take, length_app in H. cbn in H. lia. }
    split; [done|]. rewrite assign_stack_lengths in H by done. destruct src as [l m [p|]]; [done|].
    cbn in *. by intros _; inversion H.
  - intros [Hl Hp]. rewrite assign_stack_lengths by done. destruct src as [l m [p|]]; [done|].
    cbn in *. by rewrite Hp.
Qed.

(** A chain of wrapped errors iterates newest first: each [wrap] adds one
    frame with its own location and message in front and keeps all earlier
    frames, however often errors are copied on the way. *)
Theorem wrap_chain {location} (header : location → error_kind → str)
    (layers : list (error_kind * location * str)) (e : Error location) :
  frames (_stack (fold_left (λ e '(k, loc, text), stream_into (wrap header k (copy_error e) loc) text)
                    layers e))
  = rev (map (λ '(k, loc, text), (loc, header loc k ++ text)) layers) ++ frames (_stack e).
Proof.
  revert e. induction layers as [|[[k loc] text] layers IH]; intros e; [done|].
  cbn [fold_left map rev]. rewrite IH, wrap_frames. cbn. by rewrite copy_stack_id, <- app_assoc.
Qed.
