(* ===== verification/Log.v ===== *)
(** lw/log: which messages are written, and the text of an error. *)
From S2P Require Import Prelude Cxx Errors.

Inductive LogLevel := TRACE | DEBUG | INFO | WARN | ERROR.
(** The values of the enumeration. *)
Definition level_value (level : LogLevel) : Z :=
  match level with TRACE => 0 | DEBUG => 1 | INFO => 2 | WARN => 3 | ERROR => 4 end.

(** [LogSink::level_name]. *)
Definition level_name (level : LogLevel) : str :=
  B match level with TRACE => "Trace" | DEBUG => "Debug" | INFO => "Info" | WARN => "Warn" | ERROR => "Error" end.

(** The flags of the component. *)
Record log_flags := LogFlags {
  enable_trace_logs : bool; enable_debug_logs : bool; enable_logs : bool; enable_error_stacks : bool;
}.
Definition default_log_flags : log_flags := LogFlags false false true true.

Section log.
Context {location : Type} (file_name : location → str) (line : location → Z).

(** [DefaultLogSink::start_log]: what starts a line. *)
Definition start_log (level : LogLevel) (loc : location) : str :=
  take 1 (level_name level) ++ B ":" ++ file_name loc ++ B ":" ++ show_Z (line loc) ++ B ": ".

(** [Logger]: the sink that was set, or the default one. *)
Definition Logger : Type := option (LogLevel → location → str).
Definition sink (l : Logger) : LogLevel → location → str := default start_log l.

(** [log(level)]: whether the writer has a stream. *)
Definition captures (f : log_flags) (level : LogLevel) : bool :=
  if negb (enable_logs f) then false
  else match level with
       | DEBUG => enable_debug_logs f
       | TRACE => enable_trace_logs f && enable_debug_logs f
       | _ => true
       end.
(** [log(level) << values...;]: the writer's destructor ends the line. *)
Definition log (f : log_flags) (l : Logger) (level : LogLevel) (loc : location) (values : list str) : str :=
  if captures f level then sink l level loc ++ concat values ++ ["010"%char] else [].

(** The frames of an error, outermost first. *)
Fixpoint messages (s : ErrorStack location) : list str :=
  match s with Stack _ m previous => m :: match previous with Some p => messages p | None => [] end end.
(** [operator<<(std::ostream&, const Error&)]; without stacks it calls itself
    for ever. *)
Definition error_text (f : log_flags) (err : Error location) : res str :=
  if enable_error_stacks f then
    Ok (concat ((λ m, B "  -> " ++ m ++ ["010"%char]) <$> messages (_stack err)) ++ ["010"%char])
  else Undef.

(** A level that is written does not hide a more important one. *)
Lemma captures_monotone f a b : (level_value a ≤ level_value b)%Z → captures f a = true → captures f b = true.
Proof.
  unfold captures. destruct (enable_logs f); [|done]. destruct a, b; cbn; try done; try lia. by intros _ [_ ?]%andb_true_iff.
Qed.
(** Every line of the log starts with the initial of its level. *)
Lemma log_line_head f level loc values :
  captures f level = true → take 2 (log f None level loc values) = take 1 (level_name level) ++ B ":".
Proof. intros Hc. unfold log. rewrite Hc. by destruct level. Qed.
(** The levels can be told apart by it. *)
Lemma level_initials a b : take 1 (level_name a) = take 1 (level_name b) → a = b.
Proof. by destruct a, b. Qed.
End log.

(** Without stacks no error can be written. *)
Lemma errors_need_stacks {location} (f : log_flags) (err : Error location) :
  error_text f err = Undef ↔ enable_error_stacks f = false.
Proof. unfold error_text. by destruct (enable_error_stacks f). Qed.
