(* ===== verification/StreamBuffer.v ===== *)
(** lw/io/stream/buffer: [StringBuffer], a stream buffer that stores its bytes
    in a [std::string]. *)
From S2P Require Import Prelude Cxx.

(** The string, its capacity, and the pointers of [std::streambuf] as offsets
    from the string's data.  [egptr] may lie before the data. *)
Record StringBuffer := MkStringBuffer {
  _buffer : str;
  _capacity : nat;
  gptr : nat;
  egptr : Z;
  pptr : nat;
  epptr : nat;
}.

Section buffer.
(** The capacity a [std::string] has after construction from a text, and after
    [reserve(n)] at a given capacity: never less than what is needed. *)
Context (initial_capacity : nat → nat) (grow : nat → nat → nat).
Hypothesis grow_enough : ∀ c n, c ≤ grow c n ∧ n ≤ grow c n.

(** [StringBuffer()] and [StringBuffer(const std::string&)]. *)
Definition make_string_buffer (text : str) : StringBuffer :=
  let c := initial_capacity (length text) in MkStringBuffer text c 0 0 0 c.

Definition buffer_reserve (new_capacity : nat) (b : StringBuffer) : StringBuffer :=
  let c := grow (_capacity b) new_capacity in
  MkStringBuffer (_buffer b) c (gptr b) (Z.of_nat (length (_buffer b)) - 1) (length (_buffer b)) c.

(** [_get_size()] and [showmanyc()]. *)
Definition _get_size (b : StringBuffer) : nat := gptr b.

(** [xsputn(in, count)]; [append] stays within the capacity just reserved. *)
Definition xsputn (text : str) (b : StringBuffer) : StringBuffer * nat :=
  let b := if decide (_capacity b < length text + length (_buffer b))
           then buffer_reserve ((length text + length (_buffer b)) * 2) b else b in
  let s := _buffer b ++ text in
  (MkStringBuffer s (_capacity b) (gptr b) (Z.of_nat (length s) - 1) (length s) (_capacity b),
   length text).

(** [xsgetn(out, count)]: the bytes copied to [out]. *)
Definition xsgetn (count : nat) (b : StringBuffer) : StringBuffer * str :=
  let copied := Nat.min count (_get_size b) in
  (MkStringBuffer (_buffer b) (_capacity b) (gptr b + copied)
     (Z.of_nat (length (_buffer b)) - 1) (pptr b) (epptr b),
   take copied (_buffer b)).

(** [std::streambuf::sbumpc]: the next character of the get area, or the end of
    the file ([underflow] is not overridden). *)
Definition sbumpc (b : StringBuffer) : StringBuffer * option ascii :=
  if decide (Z.of_nat (gptr b) < egptr b)%Z
  then (MkStringBuffer (_buffer b) (_capacity b) (S (gptr b)) (egptr b) (pptr b) (epptr b),
        _buffer b !! gptr b)
  else (b, None).

(** Reading character by character until the end of the file. *)
Fixpoint read_chars (fuel : nat) (b : StringBuffer) : str :=
  match fuel with
  | 0 => []
  | S fuel => match sbumpc b with (b, Some c) => c :: read_chars fuel b | (_, None) => [] end
  end.

Definition write_all (ws : list str) (b : StringBuffer) : StringBuffer :=
  fold_left (λ b w, (xsputn w b).1) ws b.

(** * The invariant of a buffer that was written to *)

Definition written (text : str) (b : StringBuffer) : Prop :=
  _buffer b = text ∧ length text ≤ _capacity b ∧ gptr b = 0 ∧
  egptr b = (Z.of_nat (length text) - 1)%Z ∧ pptr b = length text ∧ epptr b = _capacity b.

Lemma xsputn_spec w b text :
  _buffer b = text → gptr b = 0 → written (text ++ w) (xsputn w b).1.
Proof.
  intros Hb Hg. unfold xsputn, written. cbn -[decide].
  destruct (decide _) as [Hlt|Hge]; cbn [_buffer _capacity gptr buffer_reserve]; rewrite Hb in *;
    rewrite length_app; split_and!; try done; [|lia].
  destruct (grow_enough (_capacity b) ((length w + length text) * 2)). lia.
Qed.

Lemma write_all_spec ws w b text :
  _buffer b = text → gptr b = 0 → written (text ++ concat (w :: ws)) (write_all (w :: ws) b).
Proof.
  revert w b text. induction ws as [|w' ws IH]; intros w b text Hb Hg.
  - cbn [concat]. rewrite app_nil_r. by apply xsputn_spec.
  - destruct (xsputn_spec w b text Hb Hg) as (Hb' & _ & Hg' & _).
    change (concat (w :: w' :: ws)) with (w ++ concat (w' :: ws)). rewrite app_assoc.
    by apply (IH w' (xsputn w b).1).
Qed.

Lemma read_chars_spec fuel b :
  (egptr b ≤ Z.of_nat (length (_buffer b)))%Z →
  read_chars fuel b = take (Nat.min fuel (Z.to_nat (egptr b) - gptr b)) (drop (gptr b) (_buffer b)).
Proof.
  revert b. induction fuel as [|fuel IH]; intros b Hb; [done|]. cbn [read_chars]. unfold sbumpc.
  destruct (decide _) as [Hlt|Hge].
  - destruct (_buffer b !! gptr b) as [c|] eqn:E.
    + rewrite IH by done. cbn [egptr gptr _buffer].
      rewrite (drop_S _ c (gptr b) E).
      replace (Nat.min (S fuel) (Z.to_nat (egptr b) - gptr b))
        with (S (Nat.min fuel (Z.to_nat (egptr b) - S (gptr b)))) by lia. done.
    + apply lookup_ge_None in E. lia.
  - replace (Nat.min (S fuel) (Z.to_nat (egptr b) - gptr b)) with 0 by lia. done.
Qed.
End buffer.

(** * Properties *)

(** Everything streamed into a fresh buffer is in [string()], in order,
    whatever growth policy the string has; the string never outgrows the
    capacity it reserved first, so the put pointers stay inside it. *)
Theorem writes_accumulate (initial_capacity : nat → nat) (grow : nat → nat → nat)
    (grow_enough : ∀ c n, c ≤ grow c n ∧ n ≤ grow c n) (w : str) (ws : list str) :
  written (concat (w :: ws)) (write_all grow (w :: ws) (make_string_buffer initial_capacity [])).
Proof. by apply (write_all_spec grow grow_enough ws w _ []). Qed.

Lemma writes_accumulate_witness :
  written (B "Hello, World!") (write_all Nat.max [B "Hello, "; B "World!"] (make_string_buffer (λ _, 15) [])).
Proof. apply (writes_accumulate (λ _, 15) Nat.max ltac:(intros; lia)). Defined.

(** What can be read back from a buffer that was written to: a block read
    ([xsgetn]) returns no bytes at all, because it counts the bytes already
    read instead of those left; reading by characters returns everything except
    the last character, because the get area ends one byte early. *)
Theorem reads_after_writes (initial_capacity : nat → nat) (grow : nat → nat → nat)
    (grow_enough : ∀ c n, c ≤ grow c n ∧ n ≤ grow c n) (w : str) (ws : list str) (count : nat) :
  let b := write_all grow (w :: ws) (make_string_buffer initial_capacity []) in
  let text := concat (w :: ws) in
  (xsgetn count b).2 = [] ∧
  (length text ≤ count → read_chars count b = take (length text - 1) text).
Proof.
  intros b text. destruct (write_all_spec grow grow_enough ws w
    (make_string_buffer initial_capacity []) []) as (Hb & _ & Hg & He & _); [done..|].
  fold text b in Hb, Hg, He. cbn [app] in Hb, He. fold text in Hb, He. split.
  - unfold xsgetn, _get_size. rewrite Hg, Nat.min_0_r. done.
  - intros Hc. rewrite read_chars_spec by (rewrite Hb, He; lia). rewrite Hg, He, Hb, drop_0.
    f_equal. lia.
Qed.

Lemma reads_after_writes_witness :
  read_chars 20 (write_all Nat.max [B "Hello"] (make_string_buffer (λ _, 15) [])) = B "Hell".
Proof.
  apply (proj2 (reads_after_writes (λ _, 15) Nat.max ltac:(intros; lia) (B "Hello") [] 20)).
  cbn. lia.
Defined.
