(* ===== verification/Strings.v ===== *)
(** lw/base/strings: the case-insensitive hash, equality and ordering that the
    header, query and flag tables are keyed by. *)
From S2P Require Import Prelude Cxx.

(** * The functors *)

Definition HASH_PRIME : Z := 251.

(** One iteration of the loop of [CaseInsensitiveHash]: the [int] of [toupper]
    is converted to [std::size_t], and all arithmetic wraps at 64 bits before
    the explicit [%]. *)
Definition hash_step (acc : Z * Z) (c : ascii) : Z * Z :=
  let '(hash, multiplier) := acc in
  let upper := toupper c in
  (wrap_u 64 (hash + wrap_u 64 (wrap_u 64 (upper + 1) * multiplier)) `mod` SIZE_MAX,
   wrap_u 64 (multiplier * HASH_PRIME) `mod` SIZE_MAX)%Z.

Definition CaseInsensitiveHash (s : str) : Z := (fold_left hash_step s (0, 1)%Z).1.

(** The loop of [CaseInsensitiveEqual], over two strings of the same size. *)
Fixpoint equal_loop (lhs rhs : str) : bool :=
  match lhs, rhs with
  | l :: lhs, r :: rhs => if decide (toupper l = toupper r) then equal_loop lhs rhs else false
  | _, _ => true
  end.

Definition CaseInsensitiveEqual (lhs rhs : str) : bool :=
  if decide (length lhs = length rhs) then equal_loop lhs rhs else false.

(** The difference of two [std::size_t], returned as an [int]. *)
Definition size_difference (lhs rhs : str) : Z :=
  wrap_s 32 (wrap_u 64 (Z.of_nat (length lhs) - Z.of_nat (length rhs))).

(** The loop of [CaseInsensitiveCompare] from some index on; [tail] is what
    is returned after it. *)
Fixpoint compare_loop (tail : Z) (lhs rhs : str) : Z :=
  match lhs, rhs with
  | l :: lhs, r :: rhs =>
      if decide (toupper l = toupper r) then compare_loop tail lhs rhs else (toupper l - toupper r)%Z
  | _, _ => tail
  end.

Definition CaseInsensitiveCompare (lhs rhs : str) : Z :=
  match lhs, rhs with
  | [], [] => 0%Z
  | _, _ => compare_loop (size_difference lhs rhs) lhs rhs
  end.

Definition CaseInsensitiveLess (lhs rhs : str) : bool :=
  (CaseInsensitiveCompare lhs rhs <? 0)%Z.

(** * Reference: the lexicographic order on upper-case texts *)

Definition upper (s : str) : list Z := map toupper s.

Fixpoint lex_lt (l r : list Z) : Prop :=
  match l, r with
  | [], _ :: _ => True
  | _, [] => False
  | a :: l, b :: r => (a < b)%Z ∨ a = b ∧ lex_lt l r
  end.

Lemma lex_lt_trans l m r : lex_lt l m → lex_lt m r → lex_lt l r.
Proof.
  revert m r. induction l as [|a l IH]; intros [|b m] [|c r]; cbn; try done.
  intros [?|[-> ?]] [?|[-> ?]]; try (left; lia). right. eauto.
Qed.

Lemma lex_lt_irrefl l : ¬ lex_lt l l.
Proof. induction l as [|a l IH]; cbn; [tauto|]. intros [?|[_ ?]]; [lia|tauto]. Qed.

Lemma lex_lt_total l r : lex_lt l r ∨ l = r ∨ lex_lt r l.
Proof.
  revert r. induction l as [|a l IH]; intros [|b r]; cbn; auto.
  destruct (Z.lt_trichotomy a b) as [?|[->|?]]; auto.
  destruct (IH r) as [?|[->|?]]; auto.
Qed.

Lemma upper_cons c s : upper (c :: s) = toupper c :: upper s.
Proof. done. Qed.

Lemma equal_upper lhs rhs : CaseInsensitiveEqual lhs rhs = true ↔ upper lhs = upper rhs.
Proof.
  unfold CaseInsensitiveEqual. revert rhs. induction lhs as [|l lhs IH]; intros [|r rhs];
    cbn -[decide toupper upper]; [done|by rewrite decide_False..|].
  rewrite !upper_cons. specialize (IH rhs). destruct (decide (toupper l = toupper r)) as [E|E].
  - rewrite E. destruct (decide (length lhs = length rhs)) as [Hl|Hl].
    + rewrite decide_True by congruence. split.
      * intros ?. f_equal. by apply IH.
      * intros [= ?]. by apply IH.
    + rewrite decide_False by congruence. split; [done|]. intros [= ?]. by apply IH.
  - split; [by destruct (decide (S _ = _))|]. intros [= ? ?]. congruence.
Qed.

Lemma hash_upper lhs rhs acc :
  upper lhs = upper rhs → fold_left hash_step lhs acc = fold_left hash_step rhs acc.
Proof.
  revert rhs acc. induction lhs as [|l lhs IH]; intros [|r rhs] acc; try done.
  rewrite !upper_cons. intros [= E ?]. cbn. rewrite (IH rhs) by done.
  f_equal. unfold hash_step. destruct acc. by rewrite E.
Qed.

(** Strings an [int] can count. *)
Definition short (s : str) : Prop := (Z.of_nat (length s) < 2 ^ 31)%Z.

Lemma size_difference_short lhs rhs :
  short lhs → short rhs →
  size_difference lhs rhs = (Z.of_nat (length lhs) - Z.of_nat (length rhs))%Z.
Proof.
  unfold short, size_difference. intros Hl Hr.
  assert (∀ z, (- 2 ^ 31 < z < 2 ^ 31 → wrap_s 32 (wrap_u 64 z) = z)%Z) as H; [|apply H; lia].
  clear. intros z Hz. unfold wrap_s, wrap_u. change (2 ^ (32 - 1))%Z with (2 ^ 31)%Z.
  assert ((z `mod` 2 ^ 64 + 2 ^ 31) `mod` 2 ^ 32 = (z + 2 ^ 31) `mod` 2 ^ 32)%Z as ->.
  { rewrite <- (Z.add_mod_idemp_l z) by lia. rewrite <- (Z.add_mod_idemp_l (z `mod` 2 ^ 64)) by lia.
    do 2 f_equal. change (2 ^ 64)%Z with (2 ^ 32 * 2 ^ 32)%Z.
    rewrite Z.rem_mul_r by lia. rewrite Z.mul_comm, Z.mod_add, Z.mod_mod by lia. done. }
  rewrite Z.mod_small by lia. lia.
Qed.

Lemma compare_loop_spec tail lhs rhs :
  ((tail < 0)%Z ↔ length lhs < length rhs) → (tail = 0%Z ↔ length lhs = length rhs) →
  (compare_loop tail lhs rhs < 0 ↔ lex_lt (upper lhs) (upper rhs))%Z ∧
  (compare_loop tail lhs rhs = 0 ↔ upper lhs = upper rhs)%Z.
Proof.
  revert rhs. induction lhs as [|l lhs IH]; intros [|r rhs] Hlt Heq;
    cbn [compare_loop upper map lex_lt length] in *.
  1-3: split; split; intros; try done; try lia.
  destruct (decide (toupper l = toupper r)) as [E|E].
  - destruct (IH rhs) as [H1 H2]; [split; lia..|]. rewrite H1, H2, E. split; split.
    + auto.
    + intros [?|[_ ?]]; [lia|done].
    + unfold upper. by intros ->.
    + by intros [= ?].
  - split; split; [left; lia|intros [?|[? _]]; [lia|done]|lia|by intros [= ? ?]].
Qed.

Lemma compare_spec lhs rhs :
  short lhs → short rhs →
  (CaseInsensitiveCompare lhs rhs < 0 ↔ lex_lt (upper lhs) (upper rhs))%Z ∧
  (CaseInsensitiveCompare lhs rhs = 0 ↔ upper lhs = upper rhs)%Z.
Proof.
  intros Hl Hr. destruct lhs as [|l lhs], rhs as [|r rhs]; [done|..];
    (apply compare_loop_spec; rewrite size_difference_short by done; lia).
Qed.

Lemma less_upper lhs rhs :
  short lhs → short rhs → CaseInsensitiveLess lhs rhs = true ↔ lex_lt (upper lhs) (upper rhs).
Proof.
  intros. unfold CaseInsensitiveLess. rewrite Z.ltb_lt. by apply compare_spec.
Qed.

(** [CaseInsensitiveEqual] as a setoid: the tables identify these keys. *)
Definition ci_equiv (lhs rhs : str) : Prop := CaseInsensitiveEqual lhs rhs = true.

#[export] Instance ci_equiv_dec lhs rhs : Decision (ci_equiv lhs rhs).
Proof. unfold ci_equiv. apply _. Defined.

#[export] Instance ci_equiv_equivalence : Equivalence ci_equiv.
Proof.
  split; unfold Reflexive, Symmetric, Transitive, ci_equiv; intros; rewrite equal_upper in *; congruence.
Qed.

#[export] Instance hash_proper : Proper (ci_equiv ==> eq) CaseInsensitiveHash.
Proof.
  intros lhs rhs H. apply equal_upper in H. unfold CaseInsensitiveHash. by rewrite (hash_upper _ rhs).
Qed.

(** * Properties *)

(** The contract of an unordered table with these functors: the equality
    is an equivalence, and keys it identifies have the same 64-bit hash. *)
Theorem hash_respects_equal :
  Equivalence ci_equiv ∧
  ∀ lhs rhs, CaseInsensitiveEqual lhs rhs = true →
    CaseInsensitiveHash lhs = CaseInsensitiveHash rhs ∧ (0 ≤ CaseInsensitiveHash lhs < 2 ^ 64)%Z.
Proof.
  split; [apply _|]. intros lhs rhs H. split; [by apply hash_proper|].
  unfold CaseInsensitiveHash.
  assert (∀ s acc, (0 ≤ acc.1 < 2 ^ 64)%Z → (0 ≤ (fold_left hash_step s acc).1 < 2 ^ 64)%Z) as Hs;
    [|by apply Hs].
  induction s as [|c s IH]; intros [h m] Ha; [done|]. cbn [fold_left]. apply IH. cbn [hash_step fst].
  pose proof (Z.mod_pos_bound (wrap_u 64 (h + wrap_u 64 (wrap_u 64 (toupper c + 1) * m))) SIZE_MAX).
  unfold SIZE_MAX in *. lia.
Qed.

(** C40.  [CaseInsensitiveLess] orders strings shorter than 2^31 bytes strictly
    and weakly, as an ordered table needs: it is irreflexive and transitive,
    and two keys are incomparable exactly when [CaseInsensitiveEqual]
    identifies them, which is also when the comparison returns zero. *)
Theorem less_strict_weak_order (a b c : str) :
  short a → short b → short c →
  CaseInsensitiveLess a a = false ∧
  (CaseInsensitiveLess a b = true → CaseInsensitiveLess b c = true →
   CaseInsensitiveLess a c = true) ∧
  (CaseInsensitiveLess a b = false ∧ CaseInsensitiveLess b a = false ↔
   CaseInsensitiveEqual a b = true) ∧
  (CaseInsensitiveCompare a b = 0%Z ↔ CaseInsensitiveEqual a b = true).
Proof.
  intros Ha Hb Hc. rewrite <- !not_true_iff_false, !less_upper, equal_upper by done. split_and!.
  - apply lex_lt_irrefl.
  - apply lex_lt_trans.
  - split.
    + intros [H1 H2]. by destruct (lex_lt_total (upper a) (upper b)) as [?|[?|?]].
    + intros ->. split; apply lex_lt_irrefl.
  - by apply compare_spec.
Qed.

Lemma less_strict_weak_order_witness :
  CaseInsensitiveLess (B "Accept") (B "content-length") = true ∧
  CaseInsensitiveLess (B "content-length") (B "HOST") = true ∧
  CaseInsensitiveLess (B "Accept") (B "HOST") = true.
Proof.
  split_and!; [by vm_compute|by vm_compute|].
  apply (less_strict_weak_order (B "Accept") (B "content-length") (B "HOST")); by vm_compute.
Defined.

(** Past 2^31 bytes the returned [int] no longer has the sign of the
    comparison: a string with 2^31 more bytes than its prefix compares as less
    than it, and so do both against each other. *)
Lemma compare_truncates (a b : str) :
  (Z.of_nat (length b) = 2 ^ 31)%Z → a ≠ [] →
  (CaseInsensitiveCompare (a ++ b) a < 0)%Z ∧ (CaseInsensitiveCompare a (a ++ b) < 0)%Z.
Proof.
  intros Hb Ha.
  assert (∀ z, (z = 2 ^ 31 ∨ z = - 2 ^ 31 → wrap_s 32 (wrap_u 64 z) < 0)%Z) as Hw
    by by intros z [-> | ->].
  assert (∀ s t u, compare_loop t (s ++ u) s = t ∧ compare_loop t s (s ++ u) = t) as Hc.
  { induction s as [|c s IH]; intros t u; [by destruct u|]. cbn -[decide].
    rewrite !decide_True by done. apply IH. }
  destruct a as [|c a]; [done|]. unfold CaseInsensitiveCompare. cbn [app].
  change (c :: a ++ b) with ((c :: a) ++ b).
  destruct (Hc (c :: a) (size_difference ((c :: a) ++ b) (c :: a)) b) as [-> _].
  destruct (Hc (c :: a) (size_difference (c :: a) ((c :: a) ++ b)) b) as [_ ->].
  unfold size_difference. rewrite length_app. split; apply Hw; lia.
Qed.
