(* ===== verification/Headers.v ===== *)
(** lw/http/headers: [Headers] and [HeadersView], ordered maps under
    [CaseInsensitiveLess]. *)
From S2P Require Import Prelude Cxx Strings.

(** A [std::map]: its entries in order.  Two keys are the same when neither is
    less than the other. *)
Definition Headers : Type := list (str * str).

(** [find] / [at]: the value under a key. *)
Fixpoint headers_find (k : str) (m : Headers) : option str :=
  match m with
  | [] => None
  | (k', v) :: r =>
      if CaseInsensitiveLess k' k then headers_find k r
      else if CaseInsensitiveLess k k' then None else Some v
  end.

Definition headers_contains (k : str) (m : Headers) : bool := bool_decide (is_Some (headers_find k m)).

(** [m[k] = v]: an existing entry keeps its key. *)
Fixpoint headers_set (k v : str) (m : Headers) : Headers :=
  match m with
  | [] => [(k, v)]
  | (k', v') :: r =>
      if CaseInsensitiveLess k' k then (k', v') :: headers_set k v r
      else if CaseInsensitiveLess k k' then (k, v) :: m else (k', v) :: r
  end.

(** [m.insert({k, v})]: an existing entry stays. *)
Definition headers_insert (k v : str) (m : Headers) : Headers :=
  if headers_contains k m then m else headers_set k v m.

(** The entries are strictly increasing, under keys an [int] can count. *)
Inductive ordered : Headers → Prop :=
  | ordered_nil : ordered []
  | ordered_cons k v m : short k → Forall (λ p, lex_lt (upper k) (upper p.1)) m → ordered m →
      ordered ((k, v) :: m).
#[export] Hint Constructors ordered : lw.

Lemma ordered_short m : ordered m → Forall (λ p, short p.1) m.
Proof. induction 1; auto. Qed.

Lemma set_forall (P : str → Prop) k v m :
  P k → Forall (λ p, P p.1) m → Forall (λ p, P p.1) (headers_set k v m).
Proof.
  intros Hk. induction 1 as [|[k' v'] m Hp Hm IH]; cbn; [auto|].
  destruct (CaseInsensitiveLess k' k); [auto|]. destruct (CaseInsensitiveLess k k'); auto.
Qed.

Lemma set_ordered k v m : short k → ordered m → ordered (headers_set k v m).
Proof.
  intros Hk. induction 1 as [|k' v' m Hs Hlt Hm IH]; cbn; [auto with lw|].
  destruct (CaseInsensitiveLess k' k) eqn:E1; [|destruct (CaseInsensitiveLess k k') eqn:E2].
  - apply less_upper in E1; [|done..]. constructor; [done| |done].
    by apply (set_forall (λ x, lex_lt (upper k') (upper x))).
  - apply less_upper in E2; [|done..]. constructor; [done| |by constructor].
    constructor; [done|]. eapply Forall_impl; [done|]. intros p. by apply lex_lt_trans.
  - by constructor.
Qed.

(** Keys of which neither is less are the same key. *)
Lemma neither_less a b :
  short a → short b → CaseInsensitiveLess a b = false → CaseInsensitiveLess b a = false →
  upper a = upper b.
Proof.
  intros Ha Hb H1 H2. apply not_true_iff_false in H1, H2. rewrite less_upper in H1, H2 by done.
  by destruct (lex_lt_total (upper a) (upper b)) as [?|[?|?]].
Qed.

Lemma find_set_eq k k' v m :
  short k → short k' → ordered m → upper k = upper k' → headers_find k' (headers_set k v m) = Some v.
Proof.
  intros Hk Hk' Hm He.
  assert (∀ x, short x → CaseInsensitiveLess x k' = CaseInsensitiveLess x k) as Hl.
  { intros x Hx. apply eq_true_iff_eq. rewrite !less_upper by done. by rewrite He. }
  assert (∀ x, short x → CaseInsensitiveLess k' x = CaseInsensitiveLess k x) as Hr.
  { intros x Hx. apply eq_true_iff_eq. rewrite !less_upper by done. by rewrite He. }
  assert (CaseInsensitiveLess k k = false) as Hkk.
  { apply not_true_iff_false. rewrite less_upper by done. apply lex_lt_irrefl. }
  induction Hm as [|x v' m Hs Hlt Hm IH]; cbn.
  - by rewrite Hl, Hr, !Hkk.
  - destruct (CaseInsensitiveLess x k) eqn:E1; cbn; [by rewrite Hl, E1|].
    destruct (CaseInsensitiveLess k x) eqn:E2; cbn.
    + by rewrite (Hl k), (Hr k), !Hkk by done.
    + by rewrite Hl, Hr, E1, E2.
Qed.

Lemma find_set_ne k k' v m :
  short k → short k' → ordered m → upper k ≠ upper k' →
  headers_find k' (headers_set k v m) = headers_find k' m.
Proof.
  intros Hk Hk' Hm Hne. induction Hm as [|x v' m Hs Hlt Hm IH]; cbn.
  - destruct (CaseInsensitiveLess k k') eqn:E; [done|].
    destruct (CaseInsensitiveLess k' k) eqn:E'; [done|]. by destruct Hne; apply neither_less.
  - destruct (CaseInsensitiveLess x k) eqn:E1; cbn; [by rewrite IH|].
    destruct (CaseInsensitiveLess k x) eqn:E2; cbn.
    2: { destruct (CaseInsensitiveLess x k') eqn:E3; [done|].
         destruct (CaseInsensitiveLess k' x) eqn:E4; [done|].
         exfalso. apply Hne. transitivity (upper x); [symmetry|]; by apply neither_less. }
    destruct (CaseInsensitiveLess k k') eqn:E3; [done|].
    destruct (CaseInsensitiveLess k' k) eqn:E4.
    + apply less_upper in E4, E2; [|done..].
      assert (CaseInsensitiveLess k' x = true) as ->.
      { apply less_upper; [done..|]. by eapply lex_lt_trans. }
      assert (CaseInsensitiveLess x k' = false) as ->; [|done].
      apply not_true_iff_false. rewrite less_upper by done. intros H.
      apply (lex_lt_irrefl (upper x)). by eapply lex_lt_trans; [done|]; eapply lex_lt_trans.
    + by destruct Hne; apply neither_less.
Qed.

(** The entry a list of assignments gives a name, the first that is the same
    up to case. *)
Definition first_assigned (k : str) (l : list (str * str)) : option str :=
  snd <$> List.find (λ p, CaseInsensitiveEqual p.1 k) l.

Lemma first_assigned_upper k k' l : upper k = upper k' → first_assigned k l = first_assigned k' l.
Proof.
  intros E. unfold first_assigned. f_equal. induction l as [|p l IH]; [done|]. cbn. rewrite IH.
  assert (CaseInsensitiveEqual p.1 k = CaseInsensitiveEqual p.1 k') as ->; [|done].
  apply eq_true_iff_eq. rewrite !equal_upper. by rewrite E.
Qed.

Lemma find_ordered k m : short k → ordered m → headers_find k m = first_assigned k m.
Proof.
  intros Hk. unfold first_assigned. induction 1 as [|x v m Hs Hlt Hm IH]; [done|]. cbn.
  destruct (CaseInsensitiveEqual x k) eqn:E.
  - apply equal_upper in E.
    assert (∀ a b, short a → short b → upper a = upper b → CaseInsensitiveLess a b = false) as Hn.
    { intros a b Ha Hb Hab. apply not_true_iff_false. rewrite less_upper, Hab by done. apply lex_lt_irrefl. }
    by rewrite !Hn.
  - destruct (CaseInsensitiveLess x k) eqn:E1; [done|].
    destruct (CaseInsensitiveLess k x) eqn:E2.
    + apply less_upper in E2; [|done..]. destruct (List.find _ m) as [p|] eqn:F; [|done].
      apply find_some in F as [Hin He]. apply equal_upper in He. rewrite Forall_forall in Hlt.
      apply list_elem_of_In, Hlt in Hin. rewrite He in Hin. exfalso. apply (lex_lt_irrefl (upper k)).
      by eapply lex_lt_trans.
    + apply not_true_iff_false in E. destruct E. apply equal_upper. by apply neither_less.
Qed.

Lemma insert_ordered k v m : short k → ordered m → ordered (headers_insert k v m).
Proof. intros. unfold headers_insert. destruct (headers_contains k m); [done|]. by apply set_ordered. Qed.

Lemma find_insert k k' v m :
  short k → short k' → ordered m →
  headers_find k' (headers_insert k v m)
  = match headers_find k' m with
    | Some w => Some w
    | None => if CaseInsensitiveEqual k k' then Some v else None
    end.
Proof.
  intros Hk Hk' Hm. destruct (CaseInsensitiveEqual k k') eqn:E.
  - pose proof E as Eu. apply equal_upper in Eu.
    assert (headers_find k' m = headers_find k m) as Hf.
    { rewrite !find_ordered by done. by apply first_assigned_upper. }
    unfold headers_insert, headers_contains. rewrite Hf. destruct (headers_find k m) as [w|] eqn:F.
    + rewrite bool_decide_true by eauto. by rewrite Hf.
    + rewrite bool_decide_false by (intros [? ?]; done). by rewrite (find_set_eq k).
  - unfold headers_insert. destruct (headers_contains k m).
    + by destruct (headers_find k' m).
    + rewrite find_set_ne; [by destruct (headers_find k' m)|done..|].
      intros He. apply equal_upper in He. congruence.
Qed.

(** * Properties *)

(** A header map is a finite map on names up to letter case: starting
    from the empty map, after any assignments with names an [int] can count,
    a name finds the value last assigned to a name that
    [CaseInsensitiveEqual] identifies with it, and the entries stay in strict
    order. *)
Theorem headers_last_assignment (assignments : list (str * str)) (k : str) :
  Forall (λ p, short p.1) assignments → short k →
  let m := fold_left (λ m p, headers_set p.1 p.2 m) assignments [] in
  ordered m ∧
  headers_find k m = snd <$> List.find (λ p, CaseInsensitiveEqual p.1 k) (rev assignments).
Proof.
  intros Hs Hk. cbn zeta. induction assignments as [|[k' v] l IH] using rev_ind.
  - split; [constructor|done].
  - apply Forall_app in Hs as [Hs [Hk' _]%Forall_cons]. destruct (IH Hs) as [Ho Hf].
    rewrite fold_left_app, rev_app_distr. cbn. split; [by apply set_ordered|].
    destruct (CaseInsensitiveEqual k' k) eqn:E.
    + apply equal_upper in E. by apply find_set_eq.
    + rewrite find_set_ne; [done..|]. intros He. apply equal_upper in He. congruence.
Qed.

Lemma headers_last_assignment_witness :
  headers_find (B "hoSt") (fold_left (λ m p, headers_set p.1 p.2 m)
    [(B "Host", B "a"); (B "Accept", B "b"); (B "HOST", B "c")] []) = Some (B "c").
Proof.
  etrans; [apply (headers_last_assignment
    [(B "Host", B "a"); (B "Accept", B "b"); (B "HOST", B "c")] (B "hoSt"))|by vm_compute].
  - repeat constructor; by vm_compute.
  - by vm_compute.
Defined.
