(* ===== verification/CircularQueue.v ===== *)
(** lw/memory/circular_queue: the ring buffer, against a bounded list queue. *)
From S2P Require Import Prelude.

(** * The object *)

(** The members.  [_buffer] is a vector that only reserves its capacity, so the
    source indexes past its [size()]; the model has the reserved slots, [None]
    where no value was stored or the value was moved out. *)
Record CircularQueue (T : Type) := MkQueue {
  _size : nat;
  _capacity : nat;
  _buffer : list (option T);
  _head : nat;
  _tail : nat;
}.
Arguments MkQueue {_} _ _ _ _ _.
Arguments _size {_} _.
Arguments _capacity {_} _.
Arguments _buffer {_} _.
Arguments _head {_} _.
Arguments _tail {_} _.

Section queue.
Context {T : Type}.
Implicit Types (q : CircularQueue T) (x : T) (l : list T).

Definition make_queue (capacity : nat) : CircularQueue T :=
  MkQueue 0 capacity (replicate capacity None) 0 0.

(** The move constructor initialises the members it names, [_size] is left at
    its default.  The results: the new object and what is left of [other]. *)
Definition move_construct (other : CircularQueue T) : CircularQueue T * CircularQueue T :=
  (MkQueue 0 (_capacity other) (_buffer other) (_head other) (_tail other),
   MkQueue (_size other) 0 [] 0 0).

Definition move_assign (q other : CircularQueue T) : CircularQueue T * CircularQueue T :=
  (MkQueue (_size q) (_capacity other) (_buffer other) (_head other) (_tail other),
   MkQueue (_size other) 0 [] 0 0).

Definition queue_size q : nat := _size q.
Definition queue_empty q : bool := bool_decide (queue_size q = 0).
Definition queue_full q : bool := bool_decide (queue_size q = _capacity q).

(** [(idx + 1) % _capacity], a division by zero without slots. *)
Definition _next_index q (idx : nat) : res nat :=
  if decide (_capacity q = 0) then Undef else Ok ((idx + 1) `mod` _capacity q).

Definition pop_front : ST (CircularQueue T) T := λ q,
  if queue_empty q then (q, throw FailedPrecondition)
  else match _next_index q (_tail q) with
       | Ok tail =>
           match _buffer q !! _tail q with
           | Some (Some x) =>
               (MkQueue (_size q - 1) (_capacity q) (<[_tail q := None]> (_buffer q)) (_head q) tail,
                Ok x)
           | _ => (q, Undef)
           end
       | _ => (q, Undef)
       end.

Definition try_push_back x : ST (CircularQueue T) bool := λ q,
  if queue_full q then (q, Ok false)
  else match _next_index q (_head q) with
       | Ok head =>
           if decide (_head q < length (_buffer q)) then
             (MkQueue (_size q + 1) (_capacity q) (<[_head q := Some x]> (_buffer q)) head (_tail q),
              Ok true)
           else (q, Undef)
       | _ => (q, Undef)
       end.

(** [push_back], and [emplace_back] once the value is built. *)
Definition push_back x : ST (CircularQueue T) () :=
  ok ← try_push_back x; if (ok : bool) then mret () else st_throw ResourceExhausted.

(** * The specification: a list of at most [capacity] values *)

Inductive op := Push (x : T) | TryPush (x : T) | Pop | Size | Empty | Full.
Inductive answer := Done | Bool (b : bool) | Value (x : T) | Num (n : nat) | Error (k : error_kind).

(** One call on the specification. *)
Definition spec_step (capacity : nat) (o : op) l : list T * answer :=
  match o with
  | Push x => if decide (length l = capacity) then (l, Error ResourceExhausted) else (l ++ [x], Done)
  | TryPush x => if decide (length l = capacity) then (l, Bool false) else (l ++ [x], Bool true)
  | Pop => match l with [] => ([], Error FailedPrecondition) | x :: l => (l, Value x) end
  | Size => (l, Num (length l))
  | Empty => (l, Bool (bool_decide (l = [])))
  | Full => (l, Bool (bool_decide (length l = capacity)))
  end.

Definition answer_of {A} (f : A → answer) (r : res A) : option answer :=
  match r with
  | Ok a => Some (f a)
  | Throw (LwError k) => Some (Error k)
  | _ => None
  end.

(** One call on the queue; [None] is undefined behaviour. *)
Definition impl_step (o : op) q : CircularQueue T * option answer :=
  match o with
  | Push x => let '(q, r) := push_back x q in (q, answer_of (λ _, Done) r)
  | TryPush x => let '(q, r) := try_push_back x q in (q, answer_of Bool r)
  | Pop => let '(q, r) := pop_front q in (q, answer_of Value r)
  | Size => (q, Some (Num (queue_size q)))
  | Empty => (q, Some (Bool (queue_empty q)))
  | Full => (q, Some (Bool (queue_full q)))
  end.

Fixpoint spec_run (capacity : nat) (os : list op) l : list (option answer) :=
  match os with
  | [] => []
  | o :: os => let '(l, a) := spec_step capacity o l in Some a :: spec_run capacity os l
  end.
Fixpoint impl_run (os : list op) q : list (option answer) :=
  match os with
  | [] => []
  | o :: os => let '(q, a) := impl_step o q in a :: impl_run os q
  end.

(** * The representation invariant *)

Record repr q l : Prop := {
  repr_length : length (_buffer q) = _capacity q;
  repr_size : _size q = length l;
  repr_bound : length l ≤ _capacity q;
  repr_tail : _capacity q ≠ 0 → _tail q < _capacity q;
  repr_head : _capacity q ≠ 0 → _head q = (_tail q + length l) `mod` _capacity q;
  repr_slots : ∀ i x, l !! i = Some x →
    _buffer q !! ((_tail q + i) `mod` _capacity q) = Some (Some x);
}.

Lemma slot_inj c t i j : i < c → j < c → (t + i) `mod` c = (t + j) `mod` c → i = j.
Proof.
  intros Hi Hj H. pose proof (Nat.div_mod (t + i) c ltac:(lia)) as H1.
  pose proof (Nat.div_mod (t + j) c ltac:(lia)) as H2. rewrite H in H1.
  assert ((t + i) `div` c = (t + j) `div` c); nia.
Qed.

Lemma repr_unique q l l' : repr q l → repr q l' → l = l'.
Proof.
  intros H H'. apply list_eq_same_length with (length l); [by rewrite <- (repr_size _ _ H), (repr_size _ _ H')|done|].
  intros i x y _ Hx Hy. pose proof (repr_slots _ _ H i x Hx). pose proof (repr_slots _ _ H' i y Hy). congruence.
Qed.

Lemma repr_make capacity : repr (make_queue capacity) [].
Proof.
  split; cbn; try done; try lia; [apply length_replicate|..].
  intros. by rewrite Nat.Div0.mod_0_l.
Qed.

Lemma try_push_repr x q l :
  repr q l →
  if decide (length l = _capacity q) then try_push_back x q = (q, Ok false)
  else ∃ q', try_push_back x q = (q', Ok true) ∧ repr q' (l ++ [x]) ∧ _capacity q' = _capacity q.
Proof.
  intros [Hlen Hs Hb Ht Hh Hsl]. unfold try_push_back, queue_full, queue_size, _next_index. rewrite Hs.
  destruct (decide (length l = _capacity q)) as [E|E].
  - by rewrite bool_decide_true.
  - rewrite bool_decide_false by done. assert (_capacity q ≠ 0) as Hc by lia.
    specialize (Ht Hc). specialize (Hh Hc).
    pose proof (Nat.mod_upper_bound (_tail q + length l) (_capacity q) Hc).
    rewrite decide_False, decide_True by (done || lia). eexists. split; [done|]. split; [|done].
    split; cbn -[Nat.modulo]; rewrite ?length_app; cbn -[Nat.modulo]; try lia.
    + by rewrite length_insert.
    + intros _. rewrite Hh, Nat.Div0.add_mod_idemp_l. f_equal. lia.
    + intros i y Hi. rewrite Hh. destruct (decide (i = length l)) as [->|Hne].
      * rewrite list_lookup_middle in Hi by done. simplify_eq. apply list_lookup_insert_eq. lia.
      * pose proof (lookup_lt_Some _ _ _ Hi) as Hlt. rewrite length_app in Hlt. cbn in Hlt.
        rewrite lookup_app_l in Hi by lia.
        rewrite list_lookup_insert_ne; [auto|]. intros He. apply slot_inj in He; lia.
Qed.

Lemma pop_repr q l :
  repr q l →
  match l with
  | [] => pop_front q = (q, throw FailedPrecondition)
  | x :: l => ∃ q', pop_front q = (q', Ok x) ∧ repr q' l ∧ _capacity q' = _capacity q
  end.
Proof.
  intros [Hlen Hs Hb Ht Hh Hsl]. unfold pop_front, queue_empty, queue_size, _next_index. rewrite Hs.
  destruct l as [|x l]; [done|]. rewrite bool_decide_false by done. cbn [length] in *.
  assert (_capacity q ≠ 0) as Hc by lia. specialize (Ht Hc). specialize (Hh Hc).
  rewrite decide_False by done.
  pose proof (Hsl 0 x eq_refl) as H0. rewrite Nat.add_0_r, Nat.mod_small in H0 by done. rewrite H0.
  eexists. split; [done|]. split; [|done].
  pose proof (Nat.mod_upper_bound (_tail q + 1) (_capacity q) Hc).
  split; cbn -[Nat.modulo]; try lia.
  - by rewrite length_insert.
  - intros _. rewrite Hh, Nat.Div0.add_mod_idemp_l. f_equal. lia.
  - intros i y Hi. rewrite Nat.Div0.add_mod_idemp_l. pose proof (lookup_lt_Some _ _ _ Hi).
    rewrite list_lookup_insert_ne.
    + replace (_tail q + 1 + i) with (_tail q + S i) by lia. by apply Hsl.
    + replace (_tail q + 1 + i) with (_tail q + S i) by lia.
      intros He. rewrite <- (Nat.mod_small (_tail q) (_capacity q)) in He at 1 by done.
      rewrite <- (Nat.add_0_r (_tail q)) in He at 1. apply slot_inj in He; lia.
Qed.

Lemma step_repr o q l :
  repr q l →
  ∃ q', impl_step o q = (q', Some (spec_step (_capacity q) o l).2) ∧
    repr q' (spec_step (_capacity q) o l).1 ∧ _capacity q' = _capacity q.
Proof.
  intros Hr. pose proof (repr_size q l Hr) as Hs.
  destruct o as [x|x| | | |]; cbn [impl_step spec_step].
  - unfold push_back, mbind, ST_bind. pose proof (try_push_repr x q l Hr) as H.
    destruct (decide _) as [E|E]; [rewrite H|destruct H as (q' & -> & ? & ?)]; eauto.
  - pose proof (try_push_repr x q l Hr) as H.
    destruct (decide _) as [E|E]; [rewrite H|destruct H as (q' & -> & ? & ?)]; eauto.
  - pose proof (pop_repr q l Hr) as H.
    destruct l as [|x l]; [rewrite H|destruct H as (q' & -> & ? & ?)]; eauto.
  - exists q. unfold queue_size. rewrite Hs. eauto.
  - exists q. unfold queue_empty, queue_size. rewrite Hs. split; [|done]. cbn. do 3 f_equal.
    apply bool_decide_ext. by rewrite length_zero_iff_nil.
  - exists q. unfold queue_full, queue_size. rewrite Hs. eauto.
Qed.
End queue.
Arguments op : clear implicits.
Arguments answer : clear implicits.

(** * Properties *)


(** Moving a queue loses its size: whatever it held, the new queue is
    empty to its user, and once a value is pushed into it, [pop_front] returns
    the oldest value of the old queue instead; the moved-from queue, which still
    counts its old values, is undefined to push to or pop from. *)
Theorem move_loses_size {T} (q : CircularQueue T) (x y : T) (l : list T) :
  repr q (x :: l) → length (x :: l) < _capacity q →
  let '(new, old) := move_construct q in
  pop_front new = (new, throw FailedPrecondition) ∧
  (∃ new' new'', try_push_back y new = (new', Ok true) ∧ pop_front new' = (new'', Ok x)) ∧
  try_push_back y old = (old, Undef) ∧ pop_front old = (old, Undef).
Proof.
  intros Hr Hlt. cbn [move_construct]. split; [done|]. destruct Hr as [Hlen Hs Hb Ht Hh Hsl].
  assert (_capacity q ≠ 0) as Hc by lia. specialize (Ht Hc). specialize (Hh Hc).
  pose proof (Nat.mod_upper_bound (_tail q + length (x :: l)) (_capacity q) Hc) as Hm.
  pose proof (Hsl 0 x eq_refl) as H0. rewrite Nat.add_0_r, Nat.mod_small in H0 by done.
  assert (_head q ≠ _tail q) as Hne.
  { intros He. rewrite Hh in He. rewrite <- (Nat.mod_small (_tail q) (_capacity q)) in He at 2 by done.
    rewrite <- (Nat.add_0_r (_tail q)) in He at 2. by apply slot_inj in He; [|lia..]. }
  split; [|unfold try_push_back, pop_front, queue_full, queue_empty, queue_size; by rewrite Hs].
  unfold try_push_back, queue_full, queue_size, _next_index. cbn [_size _capacity _buffer _head _tail].
  rewrite bool_decide_false, decide_False, decide_True by lia. eexists _, _. split; [done|].
  unfold pop_front, queue_empty, queue_size, _next_index. cbn [_size _capacity _buffer _head _tail].
  rewrite bool_decide_false, decide_False, list_lookup_insert_ne, H0 by lia. done.
Qed.

Definition sample_queue : CircularQueue nat :=
  (try_push_back 2 (try_push_back 1 (make_queue 3)).1).1.

Lemma move_loses_size_witness :
  repr sample_queue [1; 2] ∧ pop_front (move_construct sample_queue).1
    = ((move_construct sample_queue).1, throw FailedPrecondition).
Proof.
  assert (repr sample_queue [1; 2]) as H.
  { split; try (vm_compute; lia); intros [|[|[|i]]] x [= <-]; reflexivity. }
  split; [exact H|]. apply (move_loses_size sample_queue 1 7 [2] H). vm_compute. lia.
Defined.
