(* ===== verification/Serializer.v ===== *)
(** lw/io/serializer: the interface of a serialization format, and the
    [Serializer] that drives any implementation of it from a value. *)
From S2P Require Import Prelude Cxx.

(** The values a [Serializer] can write: the template overloads select on the
    static type, here a constructor per overload.  A [double] is abstract. *)
Inductive value (double : Type) : Type :=
  | VNull
  | VBool (b : bool)
  | VChar (c : ascii)
  | VInt (z : Z)
  | VUint (z : Z)
  | VFloat (d : double)
  | VString (s : str)
  | VList (l : list (value double))
  | VObject (ps : list (value double * value double)).
Arguments VNull {_}.
Arguments VBool {_} _.
Arguments VChar {_} _.
Arguments VInt {_} _.
Arguments VUint {_} _.
Arguments VFloat {_} _.
Arguments VString {_} _.
Arguments VList {_} _.
Arguments VObject {_} _.

(** lw/io/serializer/formatter.h: what a format must provide.  A format is an
    object with state [S]; each member is a call on it. *)
Class SerializationFormatter (double S : Type) := {
  put_null : ST S ();
  put_boolean : bool → ST S ();
  put_char : ascii → ST S ();
  put_signed_integer : Z → ST S ();
  put_unsigned_integer : Z → ST S ();
  put_floating_point : double → ST S ();
  put_string : str → ST S ();
  start_list : ST S ();
  end_list : ST S ();
  start_object : ST S ();
  end_object : ST S ();
  start_pair_key : ST S ();
  end_pair_key : ST S ();
  end_pair : ST S ();
}.

(** Induction over values, with the hypothesis for every element. *)
Section value_ind.
Context {double : Type} (P : value double → Prop).
Hypothesis Hnull : P VNull.
Hypothesis Hbool : ∀ b, P (VBool b).
Hypothesis Hchar : ∀ c, P (VChar c).
Hypothesis Hint : ∀ z, P (VInt z).
Hypothesis Huint : ∀ z, P (VUint z).
Hypothesis Hfloat : ∀ d, P (VFloat d).
Hypothesis Hstring : ∀ s, P (VString s).
Hypothesis Hlist : ∀ l, Forall P l → P (VList l).
Hypothesis Hobject : ∀ ps, Forall (λ p, P p.1 ∧ P p.2) ps → P (VObject ps).

Fixpoint value_rect' (v : value double) : P v :=
  match v with
  | VNull => Hnull
  | VBool b => Hbool b
  | VChar c => Hchar c
  | VInt z => Hint z
  | VUint z => Huint z
  | VFloat d => Hfloat d
  | VString s => Hstring s
  | VList l =>
      Hlist l ((fix go l : Forall P l :=
        match l with
        | [] => List.Forall_nil P
        | x :: l => List.Forall_cons P x l (value_rect' x) (go l)
        end) l)
  | VObject ps =>
      Hobject ps ((fix go ps : Forall (λ p, P p.1 ∧ P p.2) ps :=
        match ps with
        | [] => List.Forall_nil _
        | p :: ps =>
            List.Forall_cons _ p ps (conj (value_rect' p.1) (value_rect' p.2)) (go ps)
        end) ps)
  end.
End value_ind.

Section serializer.
Context {double S : Type} `{!SerializationFormatter double S}.

(** [Serializer::write(const std::pair<Key, Value>&)]. *)
Definition write_pair (write : value double → ST S ()) (p : value double * value double) :
    ST S () :=
  start_pair_key ≫= λ _, write p.1 ≫= λ _, end_pair_key ≫= λ _, write p.2 ≫= λ _, end_pair.

(** [Serializer::write], one case per overload; lists and objects are
    bracketed by the format's start and end calls. *)
Fixpoint write (v : value double) : ST S () :=
  match v with
  | VNull => put_null
  | VBool b => put_boolean b
  | VChar c => put_char c
  | VInt z => put_signed_integer z
  | VUint z => put_unsigned_integer z
  | VFloat d => put_floating_point d
  | VString s => put_string s
  | VList l => start_list ≫= λ _, for_each write l ≫= λ _, end_list
  | VObject ps => start_object ≫= λ _, for_each (write_pair write) ps ≫= λ _, end_object
  end.
End serializer.

(** * The abstract view: a value is a sequence of formatter calls *)

Inductive event (double : Type) :=
  | EvNull | EvBool (b : bool) | EvChar (c : ascii) | EvInt (z : Z) | EvUint (z : Z)
  | EvFloat (d : double) | EvString (s : str)
  | EvStartList | EvEndList | EvStartObject | EvEndObject
  | EvStartPairKey | EvEndPairKey | EvEndPair.
Arguments EvNull {_}.
Arguments EvBool {_} _.
Arguments EvChar {_} _.
Arguments EvInt {_} _.
Arguments EvUint {_} _.
Arguments EvFloat {_} _.
Arguments EvString {_} _.
Arguments EvStartList {_}.
Arguments EvEndList {_}.
Arguments EvStartObject {_}.
Arguments EvEndObject {_}.
Arguments EvStartPairKey {_}.
Arguments EvEndPairKey {_}.
Arguments EvEndPair {_}.

Definition events_pair {double} (ev : value double → list (event double))
    (p : value double * value double) : list (event double) :=
  EvStartPairKey :: ev p.1 ++ EvEndPairKey :: ev p.2 ++ [EvEndPair].

Fixpoint events {double} (v : value double) : list (event double) :=
  match v with
  | VNull => [EvNull]
  | VBool b => [EvBool b]
  | VChar c => [EvChar c]
  | VInt z => [EvInt z]
  | VUint z => [EvUint z]
  | VFloat d => [EvFloat d]
  | VString s => [EvString s]
  | VList l => EvStartList :: concat (map events l) ++ [EvEndList]
  | VObject ps => EvStartObject :: concat (map (events_pair events) ps) ++ [EvEndObject]
  end.

Definition call {double S} `{!SerializationFormatter double S} (e : event double) : ST S () :=
  match e with
  | EvNull => put_null
  | EvBool b => put_boolean b
  | EvChar c => put_char c
  | EvInt z => put_signed_integer z
  | EvUint z => put_unsigned_integer z
  | EvFloat d => put_floating_point d
  | EvString s => put_string s
  | EvStartList => start_list
  | EvEndList => end_list
  | EvStartObject => start_object
  | EvEndObject => end_object
  | EvStartPairKey => start_pair_key
  | EvEndPairKey => end_pair_key
  | EvEndPair => end_pair
  end.

Section refinement.
Context {double S : Type} `{!SerializationFormatter double S}.
Local Abbreviation run := (for_each (call (double := double) (S := S))).

Lemma run_cons e es s : run (e :: es) s = (call e ≫= λ _, run es) s.
Proof. done. Qed.

Lemma run_snoc es e s : run (es ++ [e]) s = (run es ≫= λ _, call e) s.
Proof.
  rewrite for_each_app. apply bind_ext; [done|]. intros _ s1. cbn.
  unfold mbind, ST_bind. by destruct (call e s1) as [? [[]| |]].
Qed.

Lemma for_each_concat {A} (f : A → ST S ()) (g : A → list (event double)) l :
  Forall (λ x, ∀ s, f x s = run (g x) s) l →
  ∀ s, for_each f l s = run (concat (map g l)) s.
Proof.
  induction 1 as [|x l Hx _ IH]; intros s; [done|]. cbn [map concat for_each].
  rewrite for_each_app. apply bind_ext; auto.
Qed.

Lemma write_pair_events p :
  (∀ s, write p.1 s = run (events p.1) s) → (∀ s, write p.2 s = run (events p.2) s) →
  ∀ s, write_pair write p s = run (events_pair events p) s.
Proof.
  intros H1 H2 s. unfold write_pair, events_pair. rewrite run_cons.
  apply bind_ext; [done|]. intros _ s1. rewrite for_each_app.
  apply bind_ext; [apply H1|]. intros _ s2. rewrite run_cons.
  apply bind_ext; [done|]. intros _ s3. rewrite run_snoc. apply bind_ext; [apply H2|done].
Qed.

(** Writing a value makes exactly the calls of [events], in order, up to the
    first one that throws. *)
Lemma write_events (v : value double) (s : S) : write v s = run (events v) s.
Proof.
  revert s. induction v using value_rect'; intros st;
    try (cbn; unfold mbind, ST_bind; by case_match; case_match; destruct_all unit).
  - cbn [write events]. rewrite run_cons. apply bind_ext; [done|]. intros _ s1.
    rewrite run_snoc. apply bind_ext; [|done]. by apply for_each_concat.
  - cbn [write events]. rewrite run_cons. apply bind_ext; [done|]. intros _ s1.
    rewrite run_snoc. apply bind_ext; [|done]. apply for_each_concat.
    eapply Forall_impl; [done|]. intros p [? ?]. by apply write_pair_events.
Qed.
End refinement.
