(* ===== verification/JsonFormatter.v ===== *)
(** lw/mime/json: [JSONSerializationFormatter], the state machine that turns
    formatter calls into JSON text, and what it does under a [Serializer]. *)
From S2P Require Import Prelude Cxx Serializer.

(** * The object *)

(** [JSONSerializationFormatter::State]. *)
Inductive State :=
  | VALUE | LIST | LIST_VALUE | OBJECT | OBJECT_VALUE | KEY_STARTED | KEY_ADDED | KEY_ENDED.

#[export] Instance State_eq_dec : EqDecision State.
Proof. solve_decision. Defined.

(** The members [_state] (top of the stack first) and the text sent to
    [_output] so far. *)
Record formatter := Formatter { _state : list State; _output : str }.

(** The constructor: the stack starts with [VALUE]. *)
Definition make_formatter : formatter := Formatter [VALUE] [].

Definition fmt := ST formatter.

(** [std::stack]: [top] and [pop] on an empty stack are undefined. *)
Definition top : fmt State := λ f,
  match _state f with [] => (f, Undef) | t :: _ => (f, Ok t) end.
Definition pop : fmt () := λ f,
  match _state f with [] => (f, Undef) | _ :: r => (Formatter r (_output f), Ok ()) end.
Definition push (t : State) : fmt () := st_modify (λ f, Formatter (t :: _state f) (_output f)).
Definition emit (s : str) : fmt () := st_modify (λ f, Formatter (_state f) (_output f ++ s)).

Definition QUOTE : ascii := "034".
Definition BACKSLASH : ascii := "\".

Definition _maybe_comma : fmt () :=
  t ← top;
  if bool_decide (t = LIST_VALUE ∨ t = OBJECT_VALUE) then emit (B ",") else mret ().

Definition _check_can_add_value : fmt () :=
  t ← top;
  if bool_decide (t ≠ VALUE ∧ t ≠ LIST ∧ t ≠ LIST_VALUE ∧ t ≠ KEY_ENDED)
  then st_throw InvalidArgument else mret ().

Definition _check_can_add_string : fmt () :=
  t ← top;
  if bool_decide (t ≠ VALUE ∧ t ≠ LIST ∧ t ≠ LIST_VALUE ∧ t ≠ KEY_STARTED ∧ t ≠ KEY_ENDED)
  then st_throw InvalidArgument else mret ().

Definition _value_added : fmt () :=
  t ← top;
  match t with
  | LIST => pop ≫= λ _, push LIST_VALUE
  | OBJECT => pop ≫= λ _, push OBJECT_VALUE
  | VALUE | KEY_ENDED => pop
  | LIST_VALUE | OBJECT_VALUE => mret ()
  | KEY_STARTED | KEY_ADDED => st_throw Internal
  end.

Definition _string_added : fmt () :=
  t ← top;
  if bool_decide (t = KEY_STARTED) then pop ≫= λ _, push KEY_ADDED else _value_added.

(** The text [_put_char] sends for one character. *)
Definition escape (c : ascii) : str :=
  if bool_decide (c = QUOTE ∨ c = BACKSLASH ∨ c = "/"%char) then [BACKSLASH; c]
  else if decide (c = "008"%char) then B "\b"
  else if decide (c = "012"%char) then B "\f"
  else if decide (c = "010"%char) then B "\n"
  else if decide (c = "013"%char) then B "\r"
  else if decide (c = "009"%char) then B "\t"
  else [c].

Definition _put_char (c : ascii) : fmt () := emit (escape c).

Definition _add_literal (s : str) : fmt () :=
  _check_can_add_value ≫= λ _, _maybe_comma ≫= λ _, emit s ≫= λ _, _value_added.

Definition json_put_char (c : ascii) : fmt () :=
  _check_can_add_string ≫= λ _, _maybe_comma ≫= λ _, emit [QUOTE] ≫= λ _,
  _put_char c ≫= λ _, emit [QUOTE] ≫= λ _, _string_added.

Definition json_put_string (s : str) : fmt () :=
  _check_can_add_string ≫= λ _, _maybe_comma ≫= λ _, emit [QUOTE] ≫= λ _,
  for_each _put_char s ≫= λ _, emit [QUOTE] ≫= λ _, _string_added.

Definition json_put_null : fmt () := _add_literal (B "null").

Definition bool_text (b : bool) : str := if b then B "true" else B "false".

Definition json_put_boolean (b : bool) : fmt () := _add_literal (bool_text b).

Definition json_put_signed_integer (number : Z) : fmt () :=
  _check_can_add_value ≫= λ _, _maybe_comma ≫= λ _, emit (show_Z number) ≫= λ _, _value_added.

Definition json_put_unsigned_integer (number : Z) : fmt () :=
  _check_can_add_value ≫= λ _, _maybe_comma ≫= λ _, emit (show_Z number) ≫= λ _, _value_added.

(** The text of a [double] is the output stream's own conversion. *)
Definition json_put_floating_point {double} (show_double : double → str) (number : double) :
    fmt () :=
  _check_can_add_value ≫= λ _, _maybe_comma ≫= λ _, emit (show_double number) ≫= λ _,
  _value_added.

Definition json_start_list : fmt () :=
  _check_can_add_value ≫= λ _, _maybe_comma ≫= λ _, emit (B "[") ≫= λ _, push LIST.

Definition json_end_list : fmt () :=
  t ← top;
  if bool_decide (t ≠ LIST ∧ t ≠ LIST_VALUE) then st_throw FailedPrecondition
  else emit (B "]") ≫= λ _, _value_added.

Definition json_start_object : fmt () :=
  _check_can_add_value ≫= λ _, _maybe_comma ≫= λ _, emit (B "{") ≫= λ _, push OBJECT.

Definition json_end_object : fmt () :=
  t ← top;
  if bool_decide (t ≠ OBJECT ∧ t ≠ OBJECT_VALUE) then st_throw FailedPrecondition
  else emit (B "}") ≫= λ _, _value_added.

Definition json_start_pair_key : fmt () :=
  t ← top;
  if bool_decide (t ≠ OBJECT ∧ t ≠ OBJECT_VALUE) then st_throw FailedPrecondition
  else _maybe_comma ≫= λ _, push KEY_STARTED.

Definition json_end_pair_key : fmt () :=
  t ← top;
  if bool_decide (t ≠ KEY_ADDED) then st_throw FailedPrecondition
  else emit (B ":") ≫= λ _, pop ≫= λ _, push KEY_ENDED.

Definition json_end_pair : fmt () :=
  t ← top;
  if bool_decide (t ≠ OBJECT ∧ t ≠ OBJECT_VALUE) then st_throw FailedPrecondition
  else _value_added.

(** [JSONSerializationFormatter] as an implementation of the format
    interface. *)
Section instance.
Context {double : Type} (show_double : double → str).

Definition JSONSerializationFormatter : SerializationFormatter double formatter := {|
  put_null := json_put_null;
  put_boolean := json_put_boolean;
  put_char := json_put_char;
  put_signed_integer := json_put_signed_integer;
  put_unsigned_integer := json_put_unsigned_integer;
  put_floating_point := json_put_floating_point show_double;
  put_string := json_put_string;
  start_list := json_start_list;
  end_list := json_end_list;
  start_object := json_start_object;
  end_object := json_end_object;
  start_pair_key := json_start_pair_key;
  end_pair_key := json_end_pair_key;
  end_pair := json_end_pair
|}.
End instance.

(** * The reference printer *)

Fixpoint join (sep : str) (l : list str) : str :=
  match l with
  | [] => []
  | [x] => x
  | x :: l => x ++ sep ++ join sep l
  end.

Definition quoted (s : str) : str := QUOTE :: concat (map escape s) ++ [QUOTE].

Section render.
Context {double : Type} (show_double : double → str).

Definition render_pair (render : value double → str) (p : value double * value double) : str :=
  render p.1 ++ B ":" ++ render p.2.

(** The JSON text of a value. *)
Fixpoint render (v : value double) : str :=
  match v with
  | VNull => B "null"
  | VBool b => bool_text b
  | VChar c => quoted [c]
  | VInt z | VUint z => show_Z z
  | VFloat d => show_double d
  | VString s => quoted s
  | VList l => B "[" ++ join (B ",") (map render l) ++ B "]"
  | VObject ps => B "{" ++ join (B ",") (map (render_pair render) ps) ++ B "}"
  end.
End render.

(** * One call at a time *)

(** The states in which a value may start, the separator it is preceded by
    and the stack it leaves. *)
Definition accepts (t : State) : Prop := t = VALUE ∨ t = LIST ∨ t = LIST_VALUE ∨ t = KEY_ENDED.
Definition comma (t : State) : str :=
  match t with LIST_VALUE | OBJECT_VALUE => B "," | _ => [] end.
Definition after (t : State) (st : list State) : list State :=
  match t with
  | LIST => LIST_VALUE :: st
  | OBJECT => OBJECT_VALUE :: st
  | VALUE | KEY_ENDED => st
  | KEY_STARTED => KEY_ADDED :: st
  | _ => t :: st
  end.

#[export] Instance accepts_dec t : Decision (accepts t).
Proof. unfold accepts. apply _. Defined.

Ltac fmt_calc :=
  unfold returns, throws; lazy -[app concat map escape];
  rewrite ?app_nil_r; repeat rewrite <- app_assoc; eauto.

Section ops.
Implicit Types (t : State) (st : list State) (out text : str).

Lemma add_text_returns text t st out :
  accepts t →
  returns (_check_can_add_value ≫= λ _, _maybe_comma ≫= λ _, emit text ≫= λ _, _value_added)
    (Formatter (t :: st) out) () (Formatter (after t st) (out ++ comma t ++ text)).
Proof. unfold accepts. intros H; destruct_or! H; subst t; fmt_calc. Qed.

Lemma put_chars_returns s st out :
  returns (for_each _put_char s) (Formatter st out) ()
    (Formatter st (out ++ concat (map escape s))).
Proof.
  revert out. induction s as [|c s IH]; intros out.
  - by rewrite app_nil_r.
  - eapply returns_bind; [done|]. cbn. rewrite app_assoc. apply IH.
Qed.

Lemma put_string_returns s t st out :
  accepts t ∨ t = KEY_STARTED →
  returns (json_put_string s) (Formatter (t :: st) out) ()
    (Formatter (after t st) (out ++ comma t ++ quoted s)).
Proof.
  intros Ht. unfold json_put_string.
  eapply returns_bind; [unfold accepts in Ht; destruct_or! Ht; by subst t|]. cbn beta.
  eapply (returns_bind _ _ _ () (Formatter (t :: st) (out ++ comma t))).
  { unfold accepts in Ht; destruct_or! Ht; subst t; fmt_calc. }
  eapply returns_bind; [done|]. eapply returns_bind; [apply put_chars_returns|].
  eapply returns_bind; [done|]. unfold quoted.
  unfold accepts in Ht; destruct_or! Ht; subst t; fmt_calc.
Qed.

Lemma put_char_as_string c f : json_put_char c f = json_put_string [c] f.
Proof.
  unfold json_put_char, json_put_string. repeat (apply bind_ext; [done|intros _ ?]). done.
Qed.

Lemma start_list_returns t st out :
  accepts t →
  returns json_start_list (Formatter (t :: st) out) ()
    (Formatter (LIST :: t :: st) (out ++ comma t ++ B "[")).
Proof. unfold accepts. intros H; destruct_or! H; subst t; fmt_calc. Qed.

Lemma start_object_returns t st out :
  accepts t →
  returns json_start_object (Formatter (t :: st) out) ()
    (Formatter (OBJECT :: t :: st) (out ++ comma t ++ B "{")).
Proof. unfold accepts. intros H; destruct_or! H; subst t; fmt_calc. Qed.

Lemma end_list_returns t st out :
  t = LIST ∨ t = LIST_VALUE →
  returns json_end_list (Formatter (t :: st) out) () (Formatter (LIST_VALUE :: st) (out ++ B "]")).
Proof. intros [-> | ->]; fmt_calc. Qed.

Lemma end_object_returns t st out :
  t = OBJECT ∨ t = OBJECT_VALUE →
  returns json_end_object (Formatter (t :: st) out) ()
    (Formatter (OBJECT_VALUE :: st) (out ++ B "}")).
Proof. intros [-> | ->]; fmt_calc. Qed.

Lemma start_pair_key_returns t st out :
  t = OBJECT ∨ t = OBJECT_VALUE →
  returns json_start_pair_key (Formatter (t :: st) out) ()
    (Formatter (KEY_STARTED :: t :: st) (out ++ comma t)).
Proof. intros [-> | ->]; fmt_calc. Qed.

Lemma end_pair_key_returns st out :
  returns json_end_pair_key (Formatter (KEY_ADDED :: st) out) ()
    (Formatter (KEY_ENDED :: st) (out ++ B ":")).
Proof. done. Qed.

Lemma end_pair_returns t st out :
  t = OBJECT ∨ t = OBJECT_VALUE →
  returns json_end_pair (Formatter (t :: st) out) () (Formatter (OBJECT_VALUE :: st) out).
Proof. intros [-> | ->]; fmt_calc. Qed.

(** A value cannot start in any other state. *)
Lemma add_value_throws t st out : ¬ accepts t → throws _check_can_add_value (Formatter (t :: st) out).
Proof. unfold accepts. intros H. destruct t; try (exfalso; by auto 7); fmt_calc. Qed.
End ops.

(** * Which values a [Serializer] can write *)

Definition is_key {double} (v : value double) : bool :=
  match v with VChar _ | VString _ => true | _ => false end.

(** Lists of lists of scalars, and objects of objects of scalars. *)
Fixpoint pure_list {double} (v : value double) : bool :=
  match v with VList l => forallb pure_list l | VObject _ => false | _ => true end.
Fixpoint pure_object {double} (v : value double) : bool :=
  match v with
  | VObject ps => forallb (λ p, is_key p.1 && pure_object p.2) ps
  | VList _ => false
  | _ => true
  end.
Definition writable {double} (v : value double) : bool := pure_list v || pure_object v.

Lemma join_map_snoc {A} sep (f : A → str) l x :
  join sep (map f (l ++ [x])) = join sep (map f l) ++ (if l is [] then [] else sep) ++ f x.
Proof.
  induction l as [|y l IH]; [done|]. destruct l as [|z l]; [done|].
  cbn [app map join] in *. rewrite IH. by rewrite <- !app_assoc.
Qed.

Lemma forallb_false_split {A} (f : A → bool) l :
  forallb f l = false → ∃ l1 x l2, l = l1 ++ x :: l2 ∧ forallb f l1 = true ∧ f x = false.
Proof.
  induction l as [|y l IH]; [done|]. cbn. destruct (f y) eqn:E.
  - intros H. destruct (IH H) as (l1 & x & l2 & -> & ? & ?).
    exists (y :: l1), x, l2. cbn. by rewrite E.
  - intros _. by exists [], y, l.
Qed.

Lemma for_each_throws {S A} (f : A → ST S ()) l1 x l2 s s1 :
  returns (for_each f l1) s () s1 → throws (f x) s1 → throws (for_each f (l1 ++ x :: l2)) s.
Proof.
  intros Hl Hx. unfold throws. rewrite for_each_app.
  eapply throws_bind_r; [done|]. by apply throws_bind_l.
Qed.

Section writes.
Context {double : Type} (show_double : double → str).
#[local] Existing Instance JSONSerializationFormatter.
#[local] Instance JSF : SerializationFormatter double formatter :=
  JSONSerializationFormatter show_double.
Local Abbreviation text := (render show_double).
Implicit Types (v : value double) (t : State) (st : list State) (out : str).

(** What the stack looks like after a value was written. *)
Definition left_by v t st st' : Prop :=
  match v with
  | VList _ => ∃ g, st' = LIST_VALUE :: g
  | VObject _ => ∃ g, st' = OBJECT_VALUE :: g
  | _ => st' = after t st
  end.

Definition writes v : Prop := ∀ t st out, accepts t →
  ∃ st', returns (write v) (Formatter (t :: st) out) ()
           (Formatter st' (out ++ comma t ++ text v)) ∧ left_by v t st st'.

Lemma write_scalar v :
  match v with VList _ | VObject _ => False | _ => True end → writes v.
Proof.
  intros Hv t st out Ht. exists (after t st).
  destruct v; try done; (split; [|done]); cbn [write render].
  all: try (by apply add_text_returns).
  - cbn. unfold returns. rewrite put_char_as_string. apply put_string_returns. auto.
  - apply put_string_returns. auto.
Qed.

(** The state a list or an object is in once the elements [l] are written. *)
Definition ltop {A} (l : list A) : State := if l is [] then LIST else LIST_VALUE.
Definition otop {A} (l : list A) : State := if l is [] then OBJECT else OBJECT_VALUE.

Lemma pure_list_left_by {A} v (l : list A) st st' :
  pure_list v = true → left_by v (ltop l) st st' → ∃ g, st' = LIST_VALUE :: g.
Proof. destruct v, l; cbn; intros; (done || eauto). Qed.

Lemma pure_object_left_by v st t st' :
  pure_object v = true → left_by v KEY_ENDED (t :: st) st' →
  t = OBJECT ∨ t = OBJECT_VALUE → ∃ t' g, st' = t' :: g ∧ (t' = OBJECT ∨ t' = OBJECT_VALUE).
Proof. destruct v; cbn; intros ?? Ht; try done; try match goal with H : ∃ _, _ |- _ => destruct H end; subst; eauto. Qed.

Lemma write_elements l st out :
  Forall (λ v, pure_list v = true → writes v) l → forallb pure_list l = true →
  ∃ g, returns (for_each write l) (Formatter (LIST :: st) out) ()
    (Formatter (ltop l :: g) (out ++ join (B ",") (map text l))).
Proof.
  intros Hw Hp.
  destruct (for_each_returns write
    (λ l1 f, ∃ g, f = Formatter (ltop l1 :: g) (out ++ join (B ",") (map text l1)))
    l (Formatter (LIST :: st) out)) as (f & Hf & g & ->); [| |eauto].
  - exists st. by rewrite app_nil_r.
  - intros l1 x f [l2 ->] [g ->].
    rewrite forallb_app in Hp. apply andb_true_iff in Hp as [_ [Hp _]%andb_true_iff].
    apply Forall_app in Hw as [_ Hw]. apply Forall_cons in Hw as [Hx _].
    destruct (Hx Hp (ltop l1) g (out ++ join (B ",") (map text l1))) as (st' & Hr & Hs);
      [unfold accepts; destruct l1; auto|].
    destruct (pure_list_left_by _ _ _ _ Hp Hs) as [g' ->].
    eexists. split; [exact Hr|]. exists g'. rewrite join_map_snoc, <- !app_assoc.
    by destruct l1.
Qed.

Lemma write_key k t st out :
  is_key k = true →
  returns (write k) (Formatter (KEY_STARTED :: t :: st) out) ()
    (Formatter (KEY_ADDED :: t :: st) (out ++ text k)).
Proof.
  intros Hk. destruct k; try done; cbn [write].
  - cbn. unfold returns. rewrite put_char_as_string. apply (put_string_returns [c]). auto.
  - apply put_string_returns. auto.
Qed.

Lemma write_pair_returns p t st out :
  is_key p.1 = true → pure_object p.2 = true → writes p.2 → t = OBJECT ∨ t = OBJECT_VALUE →
  ∃ g, returns (write_pair write p) (Formatter (t :: st) out) ()
    (Formatter (OBJECT_VALUE :: g) (out ++ comma t ++ render_pair text p)).
Proof.
  intros Hk Hp Hw Ht.
  destruct (Hw KEY_ENDED (t :: st) (((out ++ comma t) ++ text p.1) ++ B ":"))
    as (st' & Hr & Hs); [unfold accepts; auto|].
  destruct (pure_object_left_by _ _ _ _ Hp Hs Ht) as (t' & g & -> & Ht').
  exists g. unfold write_pair.
  eapply returns_bind; [by apply start_pair_key_returns|].
  eapply returns_bind; [by apply write_key|].
  eapply returns_bind; [apply end_pair_key_returns|].
  eapply returns_bind; [exact Hr|].
  unfold render_pair. rewrite <- !app_assoc. by apply end_pair_returns.
Qed.

Lemma write_members ps st out :
  Forall (λ p, pure_object p.2 = true → writes p.2) ps →
  forallb (λ p, is_key p.1 && pure_object p.2) ps = true →
  ∃ g, returns (for_each (write_pair write) ps) (Formatter (OBJECT :: st) out) ()
    (Formatter (otop ps :: g) (out ++ join (B ",") (map (render_pair text) ps))).
Proof.
  intros Hw Hp.
  destruct (for_each_returns (write_pair write)
    (λ l1 f, ∃ g, f = Formatter (otop l1 :: g) (out ++ join (B ",") (map (render_pair text) l1)))
    ps (Formatter (OBJECT :: st) out)) as (f & Hf & g & ->); [| |eauto].
  - exists st. by rewrite app_nil_r.
  - intros l1 p f [l2 ->] [g ->].
    rewrite forallb_app in Hp.
    apply andb_true_iff in Hp as [_ [[Hk Hp]%andb_true_iff _]%andb_true_iff].
    apply Forall_app in Hw as [_ Hw]. apply Forall_cons in Hw as [Hx _].
    destruct (write_pair_returns p (otop l1) g
      (out ++ join (B ",") (map (render_pair text) l1))) as [g' Hr];
      [exact Hk|exact Hp|auto|destruct l1; auto|].
    eexists. split; [exact Hr|]. exists g'. rewrite join_map_snoc, <- !app_assoc.
    by destruct l1.
Qed.

Lemma write_pure_list v : pure_list v = true → writes v.
Proof.
  induction v as [| | | | | | |l IH|ps _] using value_rect'; intros Hp;
    try done; try (by apply write_scalar).
  intros t st out Ht. cbn in Hp.
  destruct (write_elements l (t :: st) (out ++ comma t ++ B "[") IH Hp) as [g Hr].
  exists (LIST_VALUE :: g). split; [|by eexists]. cbn [write].
  eapply returns_bind; [by apply start_list_returns|].
  eapply returns_bind; [exact Hr|].
  replace (out ++ comma t ++ text (VList l))
    with (((out ++ comma t ++ B "[") ++ join (B ",") (map text l)) ++ B "]")
    by (cbn [render]; by rewrite <- !app_assoc).
  apply end_list_returns. destruct l; auto.
Qed.

Lemma write_pure_object v : pure_object v = true → writes v.
Proof.
  induction v as [| | | | | | |l _|ps IH] using value_rect'; intros Hp;
    try done; try (by apply write_scalar).
  intros t st out Ht. cbn in Hp.
  destruct (write_members ps (t :: st) (out ++ comma t ++ B "{")) as [g Hr];
    [eapply Forall_impl; [done|naive_solver]|done|].
  exists (OBJECT_VALUE :: g). split; [|by eexists]. cbn [write].
  eapply returns_bind; [by apply start_object_returns|].
  eapply returns_bind; [exact Hr|].
  replace (out ++ comma t ++ text (VObject ps))
    with (((out ++ comma t ++ B "{") ++ join (B ",") (map (render_pair text) ps)) ++ B "}")
    by (cbn [render]; by rewrite <- !app_assoc).
  apply end_object_returns. destruct ps; auto.
Qed.

Lemma write_writable v : writable v = true → writes v.
Proof.
  unfold writable. intros [|]%orb_true_iff; [by apply write_pure_list|by apply write_pure_object].
Qed.

(** ** Everything else throws *)

Lemma write_not_accepted v t st out :
  ¬ accepts t → is_key v = false ∨ t ≠ KEY_STARTED → throws (write v) (Formatter (t :: st) out).
Proof.
  intros Ht Hv.
  assert (∀ A (k : () → fmt A), throws (_check_can_add_value ≫= k) (Formatter (t :: st) out)) as Hc
    by (intros; by apply throws_bind_l, add_value_throws).
  assert (t ≠ KEY_STARTED → ∀ s, throws (json_put_string s) (Formatter (t :: st) out)) as Hs.
  { intros Hk s. apply throws_bind_l. unfold accepts in Ht.
    destruct t; try (exfalso; by auto 7); fmt_calc. }
  destruct v; try apply Hc; try (apply throws_bind_l, Hc).
  - destruct Hv as [|Hv]; [done|]. cbn. unfold throws. rewrite put_char_as_string.
    by apply Hs.
  - destruct Hv as [|Hv]; [done|]. by apply Hs.
Qed.

Lemma end_list_throws st out : throws json_end_list (Formatter (OBJECT_VALUE :: st) out).
Proof. fmt_calc. Qed.
Lemma end_pair_throws st out : throws json_end_pair (Formatter (LIST_VALUE :: st) out).
Proof. fmt_calc. Qed.

Definition refuses v : Prop := ∀ t st out, accepts t → throws (write v) (Formatter (t :: st) out).

(** A list with an element that is not a list of lists cannot be written:
    either the element itself is refused, or it is an object, and then the
    state it leaves refuses whatever comes next. *)
Lemma write_elements_throws l st out :
  Forall (λ v, writable v = false → refuses v) l → forallb pure_list l = false →
  throws (for_each write l ≫= λ _, end_list) (Formatter (LIST :: st) out).
Proof.
  intros Hr (l1 & x & l2 & -> & Hl1 & Hx)%forallb_false_split.
  apply Forall_app in Hr as [_ Hr]. apply Forall_cons in Hr as [Hr _].
  destruct (write_elements l1 st out) as [g Hg]; [|done|].
  { apply Forall_true. auto using write_pure_list. }
  assert (accepts (ltop l1)) by (unfold accepts; destruct l1; auto).
  destruct (writable x) eqn:Ew.
  - destruct (write_writable x Ew (ltop l1) g (out ++ join (B ",") (map text l1)))
      as (st' & Hw & Hs); [done|].
    unfold writable in Ew. rewrite Hx in Ew.
    destruct x; try done. destruct Hs as [g' ->].
    unfold throws, mbind, ST_bind. rewrite for_each_app.
    unfold mbind, ST_bind. rewrite Hg. cbn [for_each]. unfold mbind, ST_bind. rewrite Hw.
    destruct l2 as [|y l2]; cbn [for_each]; unfold mbind, ST_bind.
    + apply end_list_throws.
    + destruct (write_not_accepted y OBJECT_VALUE g'
        ((out ++ join (B ",") (map text l1)) ++ comma (ltop l1) ++ text (VObject ps)))
        as (s' & e & ->); [by intros [|[|[|]]]|by right|]. eauto.
  - apply throws_bind_l. eapply for_each_throws; [done|]. by apply Hr.
Qed.

Lemma write_pair_throws p t st out :
  (writable p.2 = false → refuses p.2) → t = OBJECT ∨ t = OBJECT_VALUE →
  is_key p.1 && pure_object p.2 = false →
  throws (write_pair write p) (Formatter (t :: st) out).
Proof.
  intros Hr Ht Hp. eapply throws_bind_r; [by apply start_pair_key_returns|].
  destruct (is_key p.1) eqn:Ek.
  - eapply throws_bind_r; [by apply write_key|].
    eapply throws_bind_r; [apply end_pair_key_returns|].
    assert (accepts KEY_ENDED) by (unfold accepts; auto).
    destruct (writable p.2) eqn:Ew; [|by apply throws_bind_l, Hr].
    destruct (write_writable p.2 Ew KEY_ENDED (t :: st)
      (((out ++ comma t) ++ text p.1) ++ B ":")) as (st' & Hw & Hs); [done|].
    eapply throws_bind_r; [done|].
    unfold writable in Ew. cbn in Hp. rewrite Hp, orb_false_r in Ew.
    destruct (p.2); try done. destruct Hs as [g ->]. apply end_pair_throws.
  - apply throws_bind_l, write_not_accepted; [by intros [|[|[|]]]|by left].
Qed.

Lemma write_members_throws ps st out :
  Forall (λ p, writable p.2 = false → refuses p.2) ps →
  forallb (λ p, is_key p.1 && pure_object p.2) ps = false →
  throws (for_each (write_pair write) ps) (Formatter (OBJECT :: st) out).
Proof.
  intros Hr (l1 & p & l2 & -> & Hl1 & Hp)%forallb_false_split.
  apply Forall_app in Hr as [_ Hr]. apply Forall_cons in Hr as [Hr _].
  destruct (write_members l1 st out) as [g Hg]; [|done|].
  { apply Forall_true. auto using write_pure_object. }
  eapply for_each_throws; [done|]. apply write_pair_throws; [done| |done].
  destruct l1; auto.
Qed.

Lemma write_unwritable v : writable v = false → refuses v.
Proof.
  induction v as [| | | | | | |l IH|ps IH] using value_rect'; intros Hv; try done;
    intros t st out Ht; cbn [write];
    unfold writable in Hv; cbn in Hv; rewrite ?orb_false_r in Hv.
  - eapply throws_bind_r; [by apply start_list_returns|]. by apply write_elements_throws.
  - eapply throws_bind_r; [by apply start_object_returns|]. apply throws_bind_l.
    apply write_members_throws; [|done]. eapply Forall_impl; [done|naive_solver].
Qed.
End writes.

(** * Properties *)

(** C37.  [Serializer::write] on a fresh JSON formatter: a scalar, a list built
    from lists and scalars only, or an object built (under string or character
    keys) from objects and scalars only, is written as its JSON text; every
    other value makes some formatter call throw.  In particular a list inside
    an object and an object inside a list cannot be written, because
    [end_list] and [end_object] do not pop the state that [start_list] and
    [start_object] pushed. *)
Theorem json_write_outcome {double} (show_double : double → str) (v : value double) :
  if writable v
  then ∃ st, @write _ _ (JSONSerializationFormatter show_double) v make_formatter
             = (Formatter st (render show_double v), Ok ())
  else ∃ f e, @write _ _ (JSONSerializationFormatter show_double) v make_formatter
              = (f, Throw e).
Proof.
  assert (accepts VALUE) by (unfold accepts; auto).
  destruct (writable v) eqn:E.
  - destruct (write_writable show_double v E VALUE [] []) as (st & Hr & _); [done|].
    by exists st.
  - by apply (write_unwritable show_double v E VALUE [] []).
Qed.

(** Every call on a JSON formatter, in any state: it is undefined exactly
    when the state stack is empty (after a finished top-level scalar); when it
    throws, the error is [InvalidArgument] or [FailedPrecondition] (never the
    [Internal] error of [_value_added]) and the object is unchanged; when it
    returns, it has only appended to the output. *)
Theorem json_call_outcome {double} (show_double : double → str) (e : event double)
    (f : formatter) :
  let '(f', r) := @call _ _ (JSONSerializationFormatter show_double) e f in
  match r with
  | Undef => _state f = []
  | Throw x => _state f ≠ [] ∧ f' = f ∧
      (x = LwError InvalidArgument ∨ x = LwError FailedPrecondition)
  | Ok _ => _state f ≠ [] ∧ ∃ s, _output f' = _output f ++ s
  end.
Proof.
  assert (∀ s, let '(f', r) := json_put_string s f in
    match r with
    | Undef => _state f = []
    | Throw x => _state f ≠ [] ∧ f' = f ∧
        (x = LwError InvalidArgument ∨ x = LwError FailedPrecondition)
    | Ok _ => _state f ≠ [] ∧ ∃ s, _output f' = _output f ++ s
    end) as Hs.
  { intros s. destruct f as [[|t st] out]; [done|].
    destruct (decide (accepts t ∨ t = KEY_STARTED)) as [Ht|Ht].
    - rewrite (put_string_returns s t st out Ht). eauto.
    - unfold accepts in Ht. destruct t; try (exfalso; by auto 7);
        lazy; split_and!; try done; auto. }
  destruct e; try apply Hs.
  3: { specialize (Hs [c]). cbn [call put_char JSONSerializationFormatter].
       by rewrite put_char_as_string. }
  all: destruct f as [[|t st] out]; [done|].
  all: destruct t; lazy -[app show_Z bool_text]; rewrite <- ?app_assoc.
  all: split_and?; try done; auto; try (by eexists); exists []; by rewrite app_nil_r.
Qed.
