(* ===== verification/AsyncSerializer.v ===== *)
(** lw/io/serializer: writing values whose serialization is a coroutine. *)
From S2P Require Import Prelude Cxx Serializer JsonFormatter.

(** * Coroutines that can wait *)

Section coroutine.
Context {S : Type}.

(** Where a coroutine on an object is: at its end, or waiting, for a future or
    with [None] for its turn of the scheduler. *)
Inductive suspended (A : Type) : Type :=
  | Ended (r : res A)
  | Waiting (on : option nat) (k : S → S * suspended A).
Arguments Ended {_} _.
Arguments Waiting {_} _ _.

Definition Coro (A : Type) : Type := S → S * suspended A.

#[export] Instance coro_ret : MRet Coro := λ A a s, (s, Ended (Ok a)).
Fixpoint bind_suspended {A B} (f : A → Coro B) (x : suspended A) : Coro B := λ s,
  match x with
  | Ended (Ok a) => f a s
  | Ended (Throw e) => (s, Ended (Throw e))
  | Ended Undef => (s, Ended Undef)
  | Waiting on k => (s, Waiting on (λ s, let '(s, x) := k s in bind_suspended f x s))
  end.
#[export] Instance coro_bind : MBind Coro := λ A B f m s, let '(s, x) := m s in bind_suspended f x s.

(** A call that does not wait. *)
Definition now {A} (m : ST S A) : Coro A := λ s, let '(s, r) := m s in (s, Ended r).
(** [co_await] on something outside of the serializer. *)
Definition await_future (f : nat) : Coro () := λ s, (s, Waiting (Some f) (λ s, (s, Ended (Ok ())))).
(** [co_await] on the future of another coroutine: its caller goes on at once
    when it did not wait, and otherwise is scheduled when it ends. *)
Fixpoint scheduled_after {A} (x : suspended A) : suspended A :=
  match x with
  | Ended r => Waiting None (λ s, (s, Ended r))
  | Waiting on k => Waiting on (λ s, let '(s, x) := k s in (s, scheduled_after x))
  end.
Definition await_coroutine {A} (m : Coro A) : Coro A := λ s,
  match m s with (s, Ended r) => (s, Ended r) | (s, x) => (s, scheduled_after x) end.
Fixpoint co_for_range {A} (f : A → Coro ()) (l : list A) : Coro () :=
  match l with [] => mret () | x :: l => f x ≫= λ _, co_for_range f l end.

(** Everything that is awaited becomes ready, and the coroutine is resumed until
    it ends; and the states in which it is left waiting. *)
Fixpoint drive {A} (x : suspended A) : ST S A := λ s,
  match x with Ended r => (s, r) | Waiting _ k => let '(s, x) := k s in drive x s end.
Definition run_co {A} (m : Coro A) : ST S A := λ s, let '(s, x) := m s in drive x s.
Fixpoint pauses {A} (x : suspended A) (s : S) : list S :=
  match x with Ended _ => [] | Waiting _ k => s :: (let '(s, x) := k s in pauses x s) end.
Definition pauses_co {A} (m : Coro A) (s : S) : list S := let '(s, x) := m s in pauses x s.

Section suspended_ind.
Context {A : Type} (P : suspended A → Prop).
Hypothesis Hended : ∀ r, P (Ended r).
Hypothesis Hwaiting : ∀ on k, (∀ s, P (k s).2) → P (Waiting on k).
Fixpoint suspended_rect' (x : suspended A) : P x :=
  match x with
  | Ended r => Hended r
  | Waiting on k => Hwaiting on k (λ s, match k s as p return P p.2 with (s, x) => suspended_rect' x end)
  end.
End suspended_ind.

Lemma drive_bind {A B} (f : A → Coro B) (x : suspended A) : ∀ s, run_co (bind_suspended f x) s = (drive x ≫= λ a, run_co (f a)) s.
Proof.
  induction x as [[a|e|]|on k IH] using suspended_rect'; intros s; [done..|]. unfold run_co, mbind, ST_bind in *. cbn [bind_suspended drive].
  specialize (IH s). by destruct (k s) as [s' x].
Qed.
Lemma run_bind {A B} (m : Coro A) (f : A → Coro B) s : run_co (m ≫= f) s = (run_co m ≫= λ a, run_co (f a)) s.
Proof.
  unfold run_co at 1, mbind at 1, coro_bind. destruct (m s) as [s' x] eqn:E. pose proof (drive_bind f x s') as H. unfold run_co in H at 1.
  rewrite H. unfold mbind, ST_bind, run_co at 2. by rewrite E.
Qed.
Lemma pauses_bind {A B} (f : A → Coro B) (x : suspended A) : ∀ s,
  pauses_co (bind_suspended f x) s = pauses x s ++ match drive x s with (s', Ok a) => pauses_co (f a) s' | _ => [] end.
Proof.
  induction x as [[a|e|]|on k IH] using suspended_rect'; intros s; [done..|]. unfold pauses_co in *. cbn [bind_suspended pauses drive app].
  specialize (IH s). destruct (k s) as [s' x]. by rewrite IH.
Qed.

Lemma run_await {A} (m : Coro A) s : run_co (await_coroutine m) s = run_co m s.
Proof.
  assert (∀ (x : suspended A) s, drive (scheduled_after x) s = drive x s) as H.
  { induction x as [r|on k IH] using suspended_rect'; intros t; [done|]. cbn [scheduled_after drive]. specialize (IH t). by destruct (k t). }
  unfold run_co, await_coroutine. destruct (m s) as [s' [r|on k]]; [done|]. apply H.
Qed.
(** Awaiting adds at most one turn, at the end. *)
Lemma pauses_await {A} (m : Coro A) s : ∃ l, pauses_co (await_coroutine m) s = pauses_co m s ++ l ∧ Forall (λ s', s' = (run_co m s).1) l.
Proof.
  assert (∀ (x : suspended A) s, ∃ l, pauses (scheduled_after x) s = pauses x s ++ l ∧ Forall (λ s', s' = (drive x s).1) l) as H.
  { induction x as [r|on k IH] using suspended_rect'; intros t; cbn [scheduled_after pauses drive].
    - exists [t]. by split; [|apply Forall_singleton].
    - specialize (IH t). destruct (k t) as [t' x]. destruct (IH t') as (l & E & Hl). exists l. cbn [snd] in *. by rewrite E. }
  unfold pauses_co, await_coroutine, run_co. destruct (m s) as [s' [r|on k]]; [by exists []|]. apply H.
Qed.
End coroutine.
Arguments suspended : clear implicits.
Arguments Coro : clear implicits.
Arguments Ended {_ _} _.
Arguments Waiting {_ _} _ _.

(** * Values *)

(** [ListTag] and [ObjectTag]. *)
Inductive category := ListTag | ObjectTag.

(** What the body of a [Serialize<T>::serialize] that returns a future does, over
    the types [A] it awaits the writing of. *)
Inductive async_call (double A : Type) : Type :=
  | SAwait (f : nat)
  | SWrite (v : value double)
  | SWriteAsync (a : A)
  | SWritePair (key v : value double)
  | SWritePairAsync (key : value double) (a : A).
Arguments SAwait {_ _} _.
Arguments SWrite {_ _} _.
Arguments SWriteAsync {_ _} _.
Arguments SWritePair {_ _} _ _.
Arguments SWritePairAsync {_ _} _ _.

(** A value of a type with such a [serialize], tagged or not, or a range of
    them. *)
Inductive async_value (double : Type) : Type :=
  | ATagged (tag : option category) (body : list (async_call double (async_value double)))
  | AList (l : list (async_value double)).
Arguments ATagged {_} _ _.
Arguments AList {_} _.

Section async_ind.
Context {double : Type} (P : async_value double → Prop).
Definition step_holds (st : async_call double (async_value double)) : Prop :=
  match st with SWriteAsync a | SWritePairAsync _ a => P a | _ => True end.
Hypothesis Htagged : ∀ tag body, Forall step_holds body → P (ATagged tag body).
Hypothesis Hlist : ∀ l, Forall P l → P (AList l).

Fixpoint async_value_rect' (a : async_value double) : P a :=
  match a with
  | ATagged tag body =>
      Htagged tag body ((fix go body : Forall step_holds body :=
        match body with
        | [] => List.Forall_nil step_holds
        | st :: body =>
            List.Forall_cons step_holds st body
              (match st return step_holds st with
               | SWriteAsync a => async_value_rect' a
               | SWritePairAsync _ a => async_value_rect' a
               | _ => I
               end) (go body)
        end) body)
  | AList l =>
      Hlist l ((fix go l : Forall P l :=
        match l with [] => List.Forall_nil P | a :: l => List.Forall_cons P a l (async_value_rect' a) (go l) end) l)
  end.
End async_ind.

(** * [Serializer::write] as a coroutine *)

Section async.
Context {double S : Type} `{!SerializationFormatter double S}.
Local Abbreviation CoS := (Coro S).

(** [write(key, value)] with a value that is awaited. *)
Definition write_pair_async (key : value double) (write_value : CoS ()) : CoS () :=
  now start_pair_key ≫= λ _, now (write key) ≫= λ _, now end_pair_key ≫= λ _,
  await_coroutine write_value ≫= λ _, now end_pair.
(** The body of a [serialize]. *)
Definition serialize_step {A} (write_async : A → CoS ()) (st : async_call double A) : CoS () :=
  match st with
  | SAwait f => await_future f
  | SWrite v => now (write v)
  | SWriteAsync a => await_coroutine (write_async a)
  | SWritePair key v => now (write_pair write (key, v))
  | SWritePairAsync key a => await_coroutine (write_pair_async key (write_async a))
  end.
(** [_serialize_list] of a tagged type, [_serialize_object], and [_serialize_list]
    of a range. *)
Definition _serialize_tagged (serialize : CoS ()) : CoS () := await_coroutine serialize.
Definition _serialize_range {A} (write_async : A → CoS ()) (l : list A) : CoS () :=
  co_for_range (λ v, await_coroutine (write_async v)) l.
Definition write_list_async (serialize_list : CoS ()) : CoS () :=
  now start_list ≫= λ _, await_coroutine serialize_list ≫= λ _, now end_list.
Definition write_object_async (serialize_object : CoS ()) : CoS () :=
  now start_object ≫= λ _, await_coroutine serialize_object ≫= λ _, now end_object.

Fixpoint write_async (a : async_value double) : CoS () :=
  match a with
  | ATagged (Some ListTag) body => write_list_async (_serialize_tagged (co_for_range (serialize_step write_async) body))
  | ATagged (Some ObjectTag) body => write_object_async (_serialize_tagged (co_for_range (serialize_step write_async) body))
  | ATagged None body => await_coroutine (co_for_range (serialize_step write_async) body)
  | AList l => write_list_async (_serialize_range write_async l)
  end.
End async.

(** * The calls on the format *)

Definition step_events {double A} (ev : A → list (event double)) (st : async_call double A) : list (event double) :=
  match st with
  | SAwait _ => []
  | SWrite v => events v
  | SWriteAsync a => ev a
  | SWritePair key v => events_pair events (key, v)
  | SWritePairAsync key a => EvStartPairKey :: events key ++ EvEndPairKey :: ev a ++ [EvEndPair]
  end.
Fixpoint async_events {double} (a : async_value double) : list (event double) :=
  match a with
  | ATagged (Some ListTag) body => EvStartList :: concat (map (step_events async_events) body) ++ [EvEndList]
  | ATagged (Some ObjectTag) body => EvStartObject :: concat (map (step_events async_events) body) ++ [EvEndObject]
  | ATagged None body => concat (map (step_events async_events) body)
  | AList l => EvStartList :: concat (map async_events l) ++ [EvEndList]
  end.

Section follows.
Context {double S : Type} `{!SerializationFormatter double S}.
Local Abbreviation run := (for_each (call (double := double) (S := S))).

(** A coroutine makes the calls [es]: it ends as they do, and wherever it waits
    the first of them have been made. *)
Definition follows (m : Coro S ()) (es : list (event double)) : Prop := ∀ s,
  run_co m s = run es s ∧ Forall (λ s', ∃ n, s' = (run (take n es) s).1) (pauses_co m s).

Lemma follows_now m es : (∀ s, m s = run es s) → follows (now m) es.
Proof. intros H s. unfold run_co, pauses_co, now. rewrite H. by destruct (run es s). Qed.
Lemma follows_await_future f : follows (await_future f) [].
Proof. intros s. split; [done|]. apply Forall_singleton. by exists 0. Qed.
Lemma follows_await m es : follows m es → follows (await_coroutine m) es.
Proof.
  intros H s. destruct (H s) as [H1 H2]. split; [by rewrite run_await|]. destruct (pauses_await m s) as (l & -> & Hl).
  apply Forall_app. split; [done|]. eapply Forall_impl; [exact Hl|]. intros s' ->. exists (length es). by rewrite take_ge, H1.
Qed.
Lemma follows_bind m1 m2 es1 es2 : follows m1 es1 → follows m2 es2 → follows (m1 ≫= λ _, m2) (es1 ++ es2).
Proof.
  intros H1 H2 s. destruct (H1 s) as [R1 P1]. split.
  - rewrite run_bind, for_each_app. unfold mbind, ST_bind. rewrite R1. destruct (run es1 s) as [s' [[]|e|]]; [apply H2|done..].
  - assert (pauses_co (m1 ≫= λ _, m2) s = pauses_co m1 s ++ match run_co m1 s with (s', Ok _) => pauses_co m2 s' | _ => [] end) as ->.
    { unfold pauses_co at 1, mbind, coro_bind. unfold run_co, pauses_co at 1. destruct (m1 s) as [s' x]. apply (pauses_bind (λ _, m2)). }
    apply Forall_app. split.
    + eapply Forall_impl; [exact P1|]. intros s' [n ->]. exists (n `min` length es1).
      rewrite take_app_le by lia. destruct (decide (n ≤ length es1)); [by rewrite Nat.min_l|]. by rewrite Nat.min_r, !take_ge by lia.
    + rewrite R1. destruct (run es1 s) as [s' [[]|e|]] eqn:E; [|done..]. destruct (H2 s') as [_ P2]. eapply Forall_impl; [exact P2|].
      intros s2 [n ->]. exists (length es1 + n). rewrite take_app_add, for_each_app. unfold mbind, ST_bind. by rewrite E.
Qed.
Lemma follows_ret : follows (mret ()) [].
Proof. by intros s. Qed.
Lemma follows_each {A} (f : A → Coro S ()) (ev : A → list (event double)) l :
  Forall (λ x, follows (f x) (ev x)) l → follows (co_for_range f l) (concat (map ev l)).
Proof. induction 1 as [|x l Hx _ IH]; [apply follows_ret|]. by apply follows_bind. Qed.

Lemma follows_event e : follows (now (call e)) [e].
Proof. apply follows_now. intros s. cbn. unfold mbind, ST_bind. by destruct (call e s) as [? [[]| |]]. Qed.
Lemma follows_write v : follows (now (write v)) (events v).
Proof. apply follows_now. intros s. apply write_events. Qed.
Lemma follows_bracket e1 e2 m es : follows m es → follows (now (call e1) ≫= λ _, m ≫= λ _, now (call e2)) (e1 :: es ++ [e2]).
Proof. intros H. apply (follows_bind _ _ [e1]); [apply follows_event|]. apply follows_bind; [done|apply follows_event]. Qed.

Lemma follows_step {A} (wa : A → Coro S ()) (ev : A → list (event double)) st :
  match st with SWriteAsync a | SWritePairAsync _ a => follows (wa a) (ev a) | _ => True end →
  follows (serialize_step wa st) (step_events ev st).
Proof.
  destruct st as [f|v|a|key v|key a]; intros H; cbn [serialize_step step_events].
  - apply follows_await_future.
  - apply follows_write.
  - by apply follows_await.
  - apply follows_now. intros s. apply write_pair_events; intros s'; apply write_events.
  - apply follows_await. apply (follows_bind _ _ [EvStartPairKey]); [apply (follows_event EvStartPairKey)|].
    apply follows_bind; [apply follows_write|]. apply (follows_bind _ _ [EvEndPairKey]); [apply (follows_event EvEndPairKey)|].
    apply follows_bind; [by apply follows_await|]. apply (follows_event EvEndPair).
Qed.

Lemma follows_write_async a : follows (write_async a) (async_events a).
Proof.
  induction a as [tag body IH|l IH] using async_value_rect'.
  - assert (follows (co_for_range (serialize_step write_async) body) (concat (map (step_events async_events) body))) as Hb.
    { apply follows_each. eapply Forall_impl; [exact IH|]. intros st Hst. by apply follows_step. }
    destruct tag as [[|]|]; cbn [write_async async_events].
    + apply (follows_bracket EvStartList EvEndList). by apply follows_await, follows_await.
    + apply (follows_bracket EvStartObject EvEndObject). by apply follows_await, follows_await.
    + by apply follows_await.
  - cbn [write_async async_events]. apply (follows_bracket EvStartList EvEndList). apply follows_await, follows_each.
    eapply Forall_impl; [exact IH|]. intros a Ha. by apply follows_await.
Qed.
End follows.

(** * The value that is written *)

(** The results of [f], one after the other, if all have one. *)
Definition gather {A B} (f : A → option (list B)) : list A → option (list B) :=
  fix go l := match l with
    | [] => Some []
    | x :: l => match f x, go l with Some a, Some b => Some (a ++ b) | _, _ => None end
    end.
(** The elements a step adds to a list, and the members it adds to an object. *)
Definition step_elements {double A} (val : A → option (value double)) (st : async_call double A) : option (list (value double)) :=
  match st with
  | SAwait _ => Some []
  | SWrite v => Some [v]
  | SWriteAsync a => (λ v, [v]) <$> val a
  | _ => None
  end.
Definition step_members {double A} (val : A → option (value double)) (st : async_call double A) : option (list (value double * value double)) :=
  match st with
  | SAwait _ => Some []
  | SWritePair key v => Some [(key, v)]
  | SWritePairAsync key a => (λ v, [(key, v)]) <$> val a
  | _ => None
  end.
Fixpoint value_of {double} (a : async_value double) : option (value double) :=
  match a with
  | ATagged (Some ListTag) body => VList <$> gather (step_elements value_of) body
  | ATagged (Some ObjectTag) body => VObject <$> gather (step_members value_of) body
  | ATagged None body => match gather (step_elements value_of) body with Some [v] => Some v | _ => None end
  | AList l => VList <$> gather (λ a, (λ v, [v]) <$> value_of a) l
  end.

Lemma gather_events {double A B} (f : A → option (list B)) (ev : A → list (event double)) (evb : B → list (event double)) l bs :
  gather f l = Some bs → Forall (λ x, ∀ bs, f x = Some bs → ev x = concat (map evb bs)) l → concat (map ev l) = concat (map evb bs).
Proof.
  intros H Hl. revert bs H. induction Hl as [|x l Hx _ IH]; intros bs H; cbn in H; [by simplify_eq|].
  destruct (f x) as [a|]; [|done]. destruct (gather f l) as [b|]; [|done]. injection H as <-.
  cbn. by rewrite map_app, concat_app, (Hx a), (IH b).
Qed.
Lemma single_events {double A} (val : A → option (value double)) (ev : A → list (event double)) (a : A) :
  (∀ v, val a = Some v → ev a = events v) → ∀ bs, (λ v, [v]) <$> val a = Some bs → ev a = concat (map events bs).
Proof. intros H bs Hb. destruct (val a) as [v|]; [|done]. injection Hb as <-. rewrite (H v eq_refl). cbn. by rewrite app_nil_r. Qed.

Lemma value_of_events {double} (a : async_value double) v : value_of a = Some v → async_events a = events v.
Proof.
  revert v. induction a as [tag body IH|l IH] using async_value_rect'; intros v Hv.
  - assert (∀ bs, gather (step_elements value_of) body = Some bs → concat (map (step_events async_events) body) = concat (map events bs)) as Hl.
    { intros bs Hb. apply (gather_events _ _ _ _ _ Hb). eapply Forall_impl; [exact IH|].
      intros [f|w|a|k w|k a] Hst bs' E; cbn in E; simplify_eq; cbn; [done|by rewrite app_nil_r|by apply (single_events value_of)]. }
    assert (∀ ps, gather (step_members value_of) body = Some ps → concat (map (step_events async_events) body) = concat (map (events_pair events) ps)) as Ho.
    { intros ps Hb. apply (gather_events _ _ _ _ _ Hb). eapply Forall_impl; [exact IH|].
      intros [f|w|a|k w|k a] Hst bs' E; cbn in E; simplify_eq; cbn; [done|by rewrite app_nil_r|].
      destruct (value_of a) as [w|] eqn:Ea; [|done]. injection E as <-. cbn. by rewrite app_nil_r, (Hst w Ea). }
    cbn [value_of async_events] in *. destruct tag as [[|]|].
    + destruct (gather _ body) as [bs|]; [|done]. injection Hv as <-. cbn [events]. by rewrite (Hl bs).
    + destruct (gather _ body) as [ps|]; [|done]. injection Hv as <-. cbn [events]. by rewrite (Ho ps).
    + destruct (gather _ body) as [[|b [|]]|]; try done. injection Hv as <-. rewrite (Hl [b]) by done. cbn. by rewrite app_nil_r.
  - cbn [value_of async_events] in *. destruct (gather _ l) as [bs|] eqn:E; [|done]. injection Hv as <-. cbn [events].
    rewrite (gather_events _ async_events events _ _ E); [done|]. eapply Forall_impl; [exact IH|]. intros a Ha bs' Hb. by apply (single_events value_of).
Qed.

(** * Properties *)

(** C14.  A value whose serialization is a coroutine, awaiting whatever it likes
    in between, is written as the value it stands for is by the calls that do not
    wait: once all it awaits is ready it has ended with the same state and the
    same outcome, errors included, and wherever it waits the first of the calls on
    the format have been made, none of them out of order. *)
Theorem async_writes_value {double S} `{!SerializationFormatter double S} (a : async_value double) (v : value double) (s : S) :
  value_of a = Some v →
  run_co (write_async a) s = write v s ∧
  Forall (λ s', ∃ n, s' = (for_each call (take n (events v)) s).1) (pauses_co (write_async a) s).
Proof. intros H. rewrite write_events, <- (value_of_events a v H). apply follows_write_async. Qed.

(** * A document *)

(** A type with a tagged [serialize] that waits before its second member and in
    the middle of it. *)
Definition late_document : async_value unit :=
  ATagged (Some ObjectTag)
    [SWritePair (VString (B "id")) (VInt 7); SAwait 3; SWritePairAsync (VString (B "ok")) (ATagged None [SAwait 4; SWrite (VBool true)])].
Definition late_value : value unit := VObject [(VString (B "id"), VInt 7); (VString (B "ok"), VBool true)].
#[local] Instance unit_json : SerializationFormatter unit formatter := JSONSerializationFormatter (λ _, []).

Lemma async_writes_value_witness :
  value_of late_document = Some late_value ∧ run_co (write_async late_document) make_formatter = write late_value make_formatter.
Proof. split; [by vm_compute|]. apply (async_writes_value late_document late_value make_formatter). by vm_compute. Defined.
(** What has been written where the coroutine waits: for the two futures, and
    for its turn after each of the five coroutines on the way back. *)
Lemma late_document_pauses :
  _output <$> pauses_co (write_async late_document) make_formatter =
    (B "{" ++ quoted (B "id") ++ B ":7") :: (B "{" ++ quoted (B "id") ++ B ":7," ++ quoted (B "ok") ++ B ":") ::
    replicate 5 (B "{" ++ quoted (B "id") ++ B ":7," ++ quoted (B "ok") ++ B ":true") ∧
  _output (run_co (write_async late_document) make_formatter).1 = render (λ _, []) late_value.
Proof. by vm_compute. Qed.
