(* ===== verification/JsonParser.v ===== *)
(** lw/mime/json: the tokens of a parsed document, the [JSONParse] state
    machine and [JSONDeserializationParser::parse]. *)
From Stdlib Require Import SpecFloat.
From S2P Require Import Prelude Cxx Floats.

(** * Tokens *)

Inductive JSONType := NUL | BOOLEAN | STRING | INTEGER | FLOAT | LIST | OBJECT.
#[export] Instance JSONType_eq_dec : EqDecision JSONType.
Proof. solve_decision. Defined.

Definition DQUOTE : ascii := "034".
Definition BSLASH : ascii := "\".

(** The character(s) an escape sequence stands for; an unknown one is dropped. *)
Definition unescape (c : ascii) : str :=
  if bool_decide (c = DQUOTE ∨ c = BSLASH ∨ c = "/"%char) then [c]
  else if decide (c = "b"%char) then ["008"%char]
  else if decide (c = "f"%char) then ["012"%char]
  else if decide (c = "n"%char) then ["010"%char]
  else if decide (c = "r"%char) then ["013"%char]
  else if decide (c = "t"%char) then ["009"%char]
  else [].

(** The loop of [decode_string] from some position on.  It stops one character
    before the end of the token (the closing quote), which an escape can still
    read. *)
Fixpoint decode_loop (s : str) : str :=
  match s with
  | [] => []
  | c :: r =>
      match r with
      | [] => []
      | d :: r' =>
          if decide (c = BSLASH) then unescape d ++ decode_loop r' else c :: decode_loop r
      end
  end.

(** [decode_string(token)], the quotation marks included in [token]. *)
Definition decode_string (token : str) : str := decode_loop (drop 1 token).

(** The [DeserializationToken]s.  [JSONScalarToken] keeps its text and, for a
    string, the decoded text; an object keeps its members in insertion order
    under distinct keys. *)
Inductive token :=
  | JSONScalarToken (type : JSONType) (text decoded : str)
  | JSONListToken (elements : list token)
  | JSONObjectToken (elements : list (str * token)).

(** The constructor of [JSONScalarToken]. *)
Definition make_scalar (type : JSONType) (text : str) : token :=
  JSONScalarToken type text (if decide (type = STRING) then decode_string text else []).

Definition assoc {A} (k : str) (l : list (str * A)) : option A :=
  snd <$> List.find (λ p, str_eqb p.1 k) l.

(** [JSONObjectToken::has_key] and [JSONObjectToken::insert]. *)
Definition object_has_key (es : list (str * token)) (k : str) : bool :=
  bool_decide (is_Some (assoc k es)).
Definition object_insert (es : list (str * token)) (k : str) (t : token) :
    res (list (str * token)) :=
  if object_has_key es k then throw FailedPrecondition else Ok (es ++ [(k, t)]).

(** ** The token interface of lw/io/serializer/parser.h *)

Definition is_null (t : token) : bool :=
  match t with JSONScalarToken ty _ _ => bool_decide (ty = NUL) | _ => false end.
Definition is_boolean (t : token) : bool :=
  match t with JSONScalarToken ty _ _ => bool_decide (ty = BOOLEAN) | _ => false end.
Definition is_string (t : token) : bool :=
  match t with JSONScalarToken ty _ _ => bool_decide (ty = STRING) | _ => false end.
Definition is_list (t : token) : bool := match t with JSONListToken _ => true | _ => false end.
Definition is_object (t : token) : bool := match t with JSONObjectToken _ => true | _ => false end.
Definition is_signed_integer (t : token) : bool :=
  match t with JSONScalarToken ty _ _ => bool_decide (ty = INTEGER) | _ => false end.
Definition is_unsigned_integer (t : token) : bool :=
  match t with
  | JSONScalarToken ty text _ => bool_decide (ty = INTEGER ∧ head text ≠ Some "-"%char)
  | _ => false
  end.
Definition is_floating_point (t : token) : bool :=
  match t with
  | JSONScalarToken ty _ _ => bool_decide (ty = INTEGER ∨ ty = FLOAT)
  | _ => false
  end.

Definition size (t : token) : res nat :=
  match t with
  | JSONScalarToken ty _ decoded =>
      if decide (ty = STRING) then Ok (length decoded) else throw FailedPrecondition
  | JSONListToken es => Ok (length es)
  | JSONObjectToken es => Ok (length es)
  end.

Definition is_char (t : token) : bool :=
  is_string t && bool_decide (size t = Ok 1).

(** [get_boolean], [get_char], [get_signed_integer], [get_unsigned_integer],
    [get_floating_point] and [get_string] of lists and of objects. *)
Definition list_scalar {A} (es : list token) : res A := throw FailedPrecondition.
Definition object_scalar {A} (es : list (str * token)) : res A := throw FailedPrecondition.

Definition get_boolean (t : token) : res bool :=
  match t with
  | JSONScalarToken ty text _ =>
      if decide (ty = BOOLEAN) then Ok (str_eqb text (B "true")) else throw FailedPrecondition
  | JSONListToken es => list_scalar es
  | JSONObjectToken es => object_scalar es
  end.

Definition get_char (t : token) : res ascii :=
  match t with
  | JSONScalarToken _ _ decoded =>
      if is_char t then match head decoded with Some c => Ok c | None => Undef end
      else throw FailedPrecondition
  | JSONListToken es => list_scalar es
  | JSONObjectToken es => object_scalar es
  end.

(** The common body of the integer getters: skip a plus sign, convert, and
    reject what [from_chars] did not accept to the end. *)
Definition get_integer (lo hi : Z) (text : str) : res Z :=
  let digits := match text with
                | c :: r => if decide (c = "+"%char) then r else text
                | [] => text end in
  let '(used, err, out) := from_chars lo hi digits in
  if bool_decide (used ≠ length digits ∨ err = errc_invalid_argument) then throw InvalidArgument
  else if decide (err = errc_result_out_of_range) then throw InvalidArgument
  else match out with Some z => Ok z | None => Undef end.

Definition get_signed_integer (t : token) : res Z :=
  match t with
  | JSONScalarToken _ text _ =>
      if is_signed_integer t then get_integer INT64_MIN INT64_MAX text
      else throw FailedPrecondition
  | JSONListToken es => list_scalar es
  | JSONObjectToken es => object_scalar es
  end.

Definition get_unsigned_integer (t : token) : res Z :=
  match t with
  | JSONScalarToken _ text _ =>
      if is_unsigned_integer t then get_integer 0 UINT64_MAX text else throw FailedPrecondition
  | JSONListToken es => list_scalar es
  | JSONObjectToken es => object_scalar es
  end.

(** [get_floating_point]; [strtod] is given no end and goes by what is in memory
    after the token's text. *)
Definition get_floating_point (after : token → str) (t : token) : res spec_float :=
  match t with
  | JSONScalarToken _ text _ =>
      if is_floating_point t then
        let '(out, n) := strtod 53 1024 (text ++ after t) in
        if decide (n ≠ length text) then throw InvalidArgument
        else if decide (out = HUGE_VAL) then throw InvalidArgument
        else Ok out
      else throw FailedPrecondition
  | JSONListToken es => list_scalar es
  | JSONObjectToken es => object_scalar es
  end.

Definition get_string (t : token) : res str :=
  match t with
  | JSONScalarToken ty _ decoded =>
      if decide (ty = STRING) then Ok decoded else throw FailedPrecondition
  | JSONListToken es => list_scalar es
  | JSONObjectToken es => object_scalar es
  end.

(** [has_index], [get_index], [has_key] and [get_key] of a token that has no
    elements: false, or an exception. *)
Definition scalar_has_element (text : str) : bool := false.
Definition scalar_get_element (text : str) : res token := throw FailedPrecondition.
Definition list_has_key (es : list token) (k : str) : bool := false.
Definition list_get_key (es : list token) (k : str) : res token := throw FailedPrecondition.
Definition object_has_index (es : list (str * token)) (i : nat) : bool := false.
Definition object_get_index (es : list (str * token)) (i : nat) : res token := throw FailedPrecondition.

Definition has_index (t : token) (i : nat) : bool :=
  match t with
  | JSONScalarToken _ text _ => scalar_has_element text
  | JSONListToken es => bool_decide (i < length es)
  | JSONObjectToken es => object_has_index es i
  end.
Definition get_index (t : token) (i : nat) : res token :=
  match t with
  | JSONScalarToken _ text _ => scalar_get_element text
  | JSONListToken es => match es !! i with Some x => Ok x | None => throw OutOfRange end
  | JSONObjectToken es => object_get_index es i
  end.

Definition has_key (t : token) (k : str) : bool :=
  match t with
  | JSONScalarToken _ text _ => scalar_has_element text
  | JSONListToken es => list_has_key es k
  | JSONObjectToken es => object_has_key es k
  end.
Definition get_key (t : token) (k : str) : res token :=
  match t with
  | JSONScalarToken _ text _ => scalar_get_element text
  | JSONListToken es => list_get_key es k
  | JSONObjectToken es => match assoc k es with Some x => Ok x | None => throw OutOfRange end
  end.

(** * The parser *)

(** [JSONToken]: a structural character or a token. *)
Inductive JSONToken := Char (c : ascii) | Tok (t : token).

(** [JSONParse]: the stack (top first) and the finished value. *)
Record parse_state := ParseState { _token_stack : list JSONToken; _final_value : option JSONToken }.

Definition is_scalar_token (t : JSONToken) : bool :=
  match t with Tok (JSONScalarToken _ _ _) => true | _ => false end.
Definition is_object_token (t : JSONToken) : bool :=
  match t with Tok (JSONObjectToken _) => true | _ => false end.
Definition is_list_token (t : JSONToken) : bool :=
  match t with Tok (JSONListToken _) => true | _ => false end.

Definition push_token (t : JSONToken) (p : parse_state) : parse_state :=
  ParseState (t :: _token_stack p) (_final_value p).

(** The position of the closing quote, counted from the opening one.  The
    source's [if (str[i] == '\\') continue;] skips the backslash only. *)
Fixpoint find_quote (s : str) : option nat :=
  match s with
  | [] => None
  | c :: r => if decide (c = DQUOTE) then Some 1 else S <$> find_quote r
  end.

(** The parsing helpers get the text from their position on and return how many
    characters beyond the first one they consumed, and the token. *)
Definition _parse_string (s : str) : res (nat * token) :=
  match find_quote (drop 1 s) with
  | None => throw InvalidArgument
  | Some e => Ok (e, make_scalar STRING (take (S e) s))
  end.

(** [past] is the byte in memory after the parsed text, which
    [substr[0]] reads when a keyword ends the text. *)
Definition _parse_keyword (past : ascii) (s : str) : res (nat * token) :=
  let found :=
    if starts_with (B "true") s then Some (BOOLEAN, 4)
    else if starts_with (B "false") s then Some (BOOLEAN, 5)
    else if starts_with (B "null") s then Some (NUL, 4)
    else None in
  match found with
  | None => throw InvalidArgument
  | Some (ty, n) =>
      let next := default past (s !! n) in
      if isalnum next || bool_decide (next = "_"%char) then throw InvalidArgument
      else Ok (n - 1, make_scalar ty (take n s))
  end.

(** The loop over digits and at most one point: the type and the number of
    characters. *)
Fixpoint number_loop (type : JSONType) (s : str) : res (JSONType * nat) :=
  match s with
  | [] => Ok (type, 0)
  | c :: r =>
      if decide (c = "."%char) then
        if decide (type = FLOAT) then throw InvalidArgument
        else '(ty, n) ← number_loop FLOAT r; Ok (ty, S n)
      else if isdigit c then '(ty, n) ← number_loop type r; Ok (ty, S n)
      else Ok (type, 0)
  end.

(** The sign and the first digit: the position at which the loop starts. *)
Definition number_start (s : str) : res nat :=
  let pos := if bool_decide (head s = Some "+"%char ∨ head s = Some "-"%char) then 1 else 0 in
  match s !! pos with
  | None => if decide (pos = 0) then Undef else throw InvalidArgument
  | Some c =>
      if decide (c = "0"%char) then
        match s !! S pos with
        | Some d => if isdigit d then throw InvalidArgument else Ok (S pos)
        | None => Ok (S pos)
        end
      else if isdigit c then Ok pos else throw InvalidArgument
  end.

Definition _parse_number (s : str) : res (nat * token) :=
  pos ← number_start s;
  '(type, n) ← number_loop INTEGER (drop pos s);
  let stop := pos + n in
  if decide (s !! (stop - 1) = Some "."%char) then throw InvalidArgument
  else Ok (stop - 1, make_scalar type (take stop s)).

(** The quoted key without its quotation marks. *)
Definition strip_quotes (s : str) : str := take (length s - 2) (drop 1 s).

Definition _pop_top (p : parse_state) : res parse_state :=
  match _token_stack p with
  | [] => Undef
  | rhs :: [] => Ok (ParseState [] (Some rhs))
  | Char _ :: _ :: _ => throw InvalidArgument
  | Tok t :: below :: rest =>
      match below with
      | Tok (JSONObjectToken _) =>
          if is_string t then Ok p else throw InvalidArgument
      | Tok (JSONListToken es) =>
          Ok (ParseState (Tok (JSONListToken (es ++ [t])) :: rest) (_final_value p))
      | Char c =>
          if decide (c = ":"%char) then
            match rest with
            | lhs :: object :: rest =>
                match object with
                | Tok (JSONObjectToken es) =>
                    match lhs with
                    | Tok (JSONScalarToken _ text _) =>
                        es ← object_insert es (strip_quotes text) t;
                        Ok (ParseState (Tok (JSONObjectToken es) :: rest) (_final_value p))
                    | _ => Throw StdBadVariantAccess
                    end
                | _ => throw InvalidArgument
                end
            | _ => Undef
            end
          else throw Unimplemented
      | Tok (JSONScalarToken _ _ _) => throw Unimplemented
      end
  end.

(** [_token_stack.top()]. *)
Definition top_token (p : parse_state) : res JSONToken :=
  match _token_stack p with [] => Undef | t :: _ => Ok t end.

(** The [switch] of [update] on one character [c] followed by [r]: the new
    state, and how many characters of [r] were consumed. *)
Definition dispatch (past : ascii) (p : parse_state) (c : ascii) (r : str) :
    res (parse_state * nat) :=
  if decide (c = "{"%char) then Ok (push_token (Tok (JSONObjectToken [])) p, 0)
  else if decide (c = "}"%char) then
    t ← top_token p;
    if is_object_token t then p ← _pop_top p; Ok (p, 0) else throw InvalidArgument
  else if decide (c = "["%char) then Ok (push_token (Tok (JSONListToken [])) p, 0)
  else if decide (c = "]"%char) then
    t ← top_token p;
    if is_list_token t then p ← _pop_top p; Ok (p, 0) else throw InvalidArgument
  else if decide (c = ":"%char) then
    match _token_stack p with
    | t :: _ => if is_scalar_token t then Ok (push_token (Char ":"%char) p, 0)
                else throw InvalidArgument
    | [] => throw InvalidArgument
    end
  else if decide (c = ","%char) then
    t ← top_token p;
    if is_list_token t || is_object_token t then Ok (p, 0) else throw InvalidArgument
  else if decide (c = DQUOTE) then
    '(n, t) ← _parse_string (c :: r); p ← _pop_top (push_token (Tok t) p); Ok (p, n)
  else if bool_decide (c = "t"%char ∨ c = "f"%char ∨ c = "n"%char) then
    '(n, t) ← _parse_keyword past (c :: r); p ← _pop_top (push_token (Tok t) p); Ok (p, n)
  else if bool_decide (c = "+"%char ∨ c = "-"%char) || isdigit c then
    '(n, t) ← _parse_number (c :: r); p ← _pop_top (push_token (Tok t) p); Ok (p, n)
  else throw InvalidArgument.

(** The loop of [update]; [skip] characters were consumed by the helper called
    at an earlier position ([i = _parse_string(str, i)]). *)
Fixpoint update_loop (past : ascii) (skip : nat) (p : parse_state) (s : str) : res parse_state :=
  match s with
  | [] => Ok p
  | c :: r =>
      match skip with
      | S skip => update_loop past skip p r
      | 0 =>
          if isspace c then update_loop past 0 p r
          else if bool_decide (is_Some (_final_value p)) then throw InvalidArgument
          else '(p, n) ← dispatch past p c r; update_loop past n p r
      end
  end.

Definition update (past : ascii) (p : parse_state) (s : str) : res (option JSONToken) :=
  p ← update_loop past 0 p s;
  match _token_stack p with
  | [] => Ok (_final_value p)
  | _ :: _ => throw InvalidArgument
  end.

(** [JSONDeserializationParser::parse]. *)
Definition parse (past : ascii) (s : str) : res token :=
  result ← update past (ParseState [] None) s;
  match result with
  | None => throw InvalidArgument
  | Some (Char _) => throw InvalidArgument
  | Some (Tok t) => Ok t
  end.

(** * The invariant of the parser's stack *)

(** From the top: a key, or a key and a colon, only directly above an object. *)
Inductive wf_stack : list JSONToken → Prop :=
  | wf_nil : wf_stack []
  | wf_list es st : wf_stack st → wf_stack (Tok (JSONListToken es) :: st)
  | wf_object es st : wf_stack st → wf_stack (Tok (JSONObjectToken es) :: st)
  | wf_key text dec es st : wf_stack st →
      wf_stack (Tok (JSONScalarToken STRING text dec) :: Tok (JSONObjectToken es) :: st)
  | wf_colon text dec es st : wf_stack st →
      wf_stack (Char ":" :: Tok (JSONScalarToken STRING text dec) ::
                Tok (JSONObjectToken es) :: st).

(** Once a significant character was read: a document is either in progress or
    finished. *)
Inductive wf_state : parse_state → Prop :=
  | wf_progress st : wf_stack st → st ≠ [] → wf_state (ParseState st None)
  | wf_done t : wf_state (ParseState [] (Some (Tok t))).

#[export] Hint Constructors wf_stack wf_state : lw.

(** The errors the parser throws. *)
Definition parse_error (e : exn) : Prop :=
  e = LwError InvalidArgument ∨ e = LwError FailedPrecondition ∨ e = LwError Unimplemented.

Definition defined {A} (r : res A) : Prop :=
  match r with Ok _ => True | Throw e => parse_error e | Undef => False end.

Definition wf_result (r : res parse_state) : Prop :=
  match r with Ok p => wf_state p | Throw e => parse_error e | Undef => False end.
Definition wf_step (r : res (parse_state * nat)) : Prop := wf_result (fst <$> r).

Lemma parse_error_invalid : parse_error (LwError InvalidArgument).
Proof. by left. Qed.
Lemma parse_error_unimplemented : parse_error (LwError Unimplemented).
Proof. by right; right. Qed.
Lemma parse_error_precondition : parse_error (LwError FailedPrecondition).
Proof. by right; left. Qed.
#[export] Hint Resolve parse_error_invalid parse_error_unimplemented
  parse_error_precondition : lw.

Lemma pop_top_wf t st :
  wf_stack st → wf_result (_pop_top (ParseState (Tok t :: st) None)).
Proof.
  intros Hst. inversion Hst as [|es st' Hw|es st' Hw|tx dec es st' Hw|tx dec es st' Hw]; subst; cbn.
  - auto with lw.
  - by auto with lw.
  - destruct (is_string t) eqn:E; [|cbn; by auto with lw].
    destruct t as [ty tx dec| |]; try done. cbn in E. apply bool_decide_eq_true in E as ->.
    cbn. by auto with lw.
  - by auto with lw.
  - rewrite decide_True by done. unfold object_insert.
    destruct (object_has_key _ _); cbn; auto with lw.
Qed.

(** A wf stack that is popped at a closing bracket. *)
Lemma close_wf t st :
  wf_stack (Tok t :: st) → is_scalar_token (Tok t) = false →
  wf_result (_pop_top (ParseState (Tok t :: st) None)).
Proof. intros H Ht. apply pop_top_wf. by inversion H; subst. Qed.

Lemma wf_step_bind r n : wf_result r → wf_step (p ← r; Ok (p, n)).
Proof. by destruct r. Qed.

Lemma scalar_push_wf (r : res (nat * token)) st :
  wf_stack st → defined r →
  wf_step ('(n, t) ← r; p ← _pop_top (push_token (Tok t) (ParseState st None)); Ok (p, n)).
Proof.
  intros Hst Hr. destruct r as [[n t]|e|]; [|exact Hr|done].
  by apply wf_step_bind, pop_top_wf.
Qed.

Lemma parse_string_no_undef s :
  defined (_parse_string s).
Proof. unfold _parse_string. destruct (find_quote _); cbn; auto with lw. Qed.

Lemma parse_keyword_no_undef past s :
  defined (_parse_keyword past s).
Proof.
  unfold _parse_keyword.
  destruct (starts_with (B "true") s); [|destruct (starts_with (B "false") s);
    [|destruct (starts_with (B "null") s); [|cbn; by auto with lw]]];
    (destruct (_ || _); cbn; auto with lw).
Qed.

Lemma number_loop_no_undef ty s :
  defined (number_loop ty s).
Proof.
  revert ty. induction s as [|c s IH]; intros ty; cbn; [done|].
  assert (∀ ty', defined ('(ty, n) ← number_loop ty' s; Ok (ty, S n))) as Hrec
    by (intros ty'; specialize (IH ty'); by destruct (number_loop ty' s) as [[]| |]).
  destruct (decide (c = "."%char)).
  - destruct (decide (ty = FLOAT)); [cbn; auto with lw|apply Hrec].
  - destruct (isdigit c); [apply Hrec|done].
Qed.

Lemma number_start_no_undef c r : defined (number_start (c :: r)).
Proof.
  unfold number_start. destruct (bool_decide _).
  - destruct r as [|d r]; cbn; [rewrite decide_False by done; cbn; auto with lw|].
    destruct (decide (d = "0"%char)).
    + destruct r as [|d' r]; cbn; [done|]. destruct (isdigit d'); cbn; auto with lw.
    + destruct (isdigit d); cbn; auto with lw.
  - cbn. destruct (decide (c = "0"%char)).
    + destruct r as [|d' r]; cbn; [done|]. destruct (isdigit d'); cbn; auto with lw.
    + destruct (isdigit c); cbn; auto with lw.
Qed.

Lemma parse_number_no_undef c r : defined (_parse_number (c :: r)).
Proof.
  unfold _parse_number. pose proof (number_start_no_undef c r) as H.
  destruct (number_start _) as [pos| |]; [|exact H|done]. cbn [mbind res_bind].
  pose proof (number_loop_no_undef INTEGER (drop pos (c :: r))) as Hn.
  destruct (number_loop _ _) as [[ty n]| |]; [|exact Hn|done]. cbn [mbind res_bind].
  destruct (decide _); cbn; auto with lw.
Qed.

Lemma top_undef c : c = "}"%char ∨ c = "]"%char ∨ c = ","%char → 
  ∀ past r, dispatch past (ParseState [] None) c r = Undef.
Proof. intros Hc past r. destruct_or! Hc; by subst c. Qed.

(** One character: from the initial state only a closing bracket or a comma is
    undefined, and later nothing is. *)
Lemma dispatch_wf past st c r :
  wf_stack st → (st = [] → c ≠ "}"%char ∧ c ≠ "]"%char ∧ c ≠ ","%char) →
  wf_step (dispatch past (ParseState st None) c r).
Proof.
  intros Hst Hc. unfold dispatch, top_token. cbn [_token_stack].
  repeat match goal with
  | |- wf_step (if decide (c = ?a) then _ else _) => destruct (decide (c = a)) as [?|?]
  end.
  - apply wf_progress; auto with lw.
  - destruct st as [|t st]; [destruct (Hc eq_refl) as (?&?&?); congruence|]. destruct t as [|[]]; cbn; auto with lw;
      by apply wf_step_bind, close_wf.
  - apply wf_progress; auto with lw.
  - destruct st as [|t st]; [destruct (Hc eq_refl) as (?&?&?); congruence|]. destruct t as [|[]]; cbn; auto with lw;
      by apply wf_step_bind, close_wf.
  - inversion Hst; subst; cbn; auto with lw; apply wf_progress; cbn; auto with lw.
  - destruct st as [|t st]; [destruct (Hc eq_refl) as (?&?&?); congruence|]. cbn. destruct t as [|[]]; cbn; auto with lw.
  - apply scalar_push_wf; [done|apply parse_string_no_undef].
  - destruct (bool_decide _).
    { apply scalar_push_wf; [done|apply parse_keyword_no_undef]. }
    destruct (_ || _); [|cbn; auto with lw].
    apply scalar_push_wf; [done|apply parse_number_no_undef].
Qed.

Lemma update_loop_wf past skip p s :
  wf_state p → wf_result (update_loop past skip p s).
Proof.
  revert skip p. induction s as [|c r IH]; intros skip p Hp; cbn; [done|].
  destruct skip as [|skip]; [|by apply IH]. destruct (isspace c); [by apply IH|].
  inversion Hp as [st Hst Hne|t]; subst; cbn; [|by auto with lw].
  pose proof (dispatch_wf past st c r Hst) as Hd.
  destruct (dispatch _ _ _ _) as [[p' n]| |]; cbn in *; [|by apply Hd..].
  apply IH. by apply Hd.
Qed.

(** The first character that is not white space. *)
Definition first_char (s : str) : option ascii := List.find (λ c, negb (isspace c)) s.

Definition undef_start (s : str) : bool :=
  match first_char s with
  | Some c => bool_decide (c = "}"%char ∨ c = "]"%char ∨ c = ","%char)
  | None => false
  end.

Lemma update_loop_start past s :
  if undef_start s then update_loop past 0 (ParseState [] None) s = Undef
  else match update_loop past 0 (ParseState [] None) s with
       | Ok p => wf_state p ∨ p = ParseState [] None
       | Throw e => parse_error e
       | Undef => False
       end.
Proof.
  unfold undef_start, first_char. induction s as [|c r IH]; cbn; [auto|].
  destruct (isspace c); cbn; [done|]. case_bool_decide as Hc.
  - by rewrite top_undef.
  - pose proof (dispatch_wf past [] c r wf_nil) as Hd.
    destruct (dispatch _ _ _ _) as [[p' n]| |]; cbn in *; [|apply Hd; naive_solver..].
    pose proof (update_loop_wf past n p' r) as Hu.
    assert (wf_state p') as Hp by (apply Hd; naive_solver).
    specialize (Hu Hp). clear IH. by destruct (update_loop _ _ _ _); [left|..].
Qed.

(** * Properties of the parser *)

