(* ===== verification/JsonRoundtrip.v ===== *)
(** lw/mime/json: what the parser makes of the formatter's output. *)
From Stdlib Require Import SpecFloat.
From S2P Require Import Prelude Cxx Floats Serializer JsonFormatter JsonParser.

(** * The token of a value *)

(** The text between the quotation marks of a key: the parser keeps it as it
    is, escape sequences included. *)
Definition key_text {double} (v : value double) : str :=
  match v with
  | VChar c => escape c
  | VString s => concat (map escape s)
  | _ => []
  end.

(** The token of a text that is a number as a whole. *)
Definition number_token (text : str) : option token :=
  match _parse_number text with
  | Ok (n, t) => if decide (S n = length text) then Some t else None
  | _ => None
  end.

Section tokens.
Context {double : Type} (show_double : double → str).

Fixpoint token_of (v : value double) : token :=
  match v with
  | VNull => make_scalar NUL (B "null")
  | VBool b => make_scalar BOOLEAN (bool_text b)
  | VChar c => make_scalar STRING (quoted [c])
  | VInt z | VUint z => make_scalar INTEGER (show_Z z)
  | VFloat d => default (make_scalar FLOAT []) (number_token (show_double d))
  | VString s => make_scalar STRING (quoted s)
  | VList l => JSONListToken (map token_of l)
  | VObject ps => JSONObjectToken (map (λ p, (key_text p.1, token_of p.2)) ps)
  end.

Definition no_quote (s : str) : bool := forallb (λ c, negb (Ascii.eqb c QUOTE)) s.

(** Values the parser can read back: no quotation mark inside a string, string
    keys that differ, no floating point number whose text has an exponent or is
    a word. *)
Fixpoint parseable (v : value double) : bool :=
  match v with
  | VFloat d => bool_decide (is_Some (number_token (show_double d)))
  | VChar c => no_quote [c]
  | VString s => no_quote s
  | VList l => forallb parseable l
  | VObject ps =>
      forallb (λ p, is_key p.1 && parseable p.1 && parseable p.2) ps &&
      bool_decide (NoDup (map (λ p, key_text p.1) ps))
  | _ => true
  end.
End tokens.

(** * Strings *)

Lemma escape_cases c :
  (∃ x, escape c = [BSLASH; x] ∧ unescape x = [c]) ∨ (escape c = [c] ∧ c ≠ BSLASH).
Proof.
  unfold escape. case_bool_decide as H.
  - left. exists c. split; [done|]. unfold unescape. by rewrite bool_decide_true.
  - repeat (case_decide; [left; eexists; split; [reflexivity|by subst c]|]).
    right. split; [done|]. intros ->. apply H. auto.
Qed.

Lemma decode_loop_escape s t :
  t ≠ [] → decode_loop (concat (map escape s) ++ t) = s ++ decode_loop t.
Proof.
  intros Ht. induction s as [|c s IH]; [done|]. cbn [map concat].
  assert (∃ d r, concat (map escape s) ++ t = d :: r) as (d & r & Hr).
  { destruct (concat (map escape s) ++ t) as [|d r] eqn:E; [|eauto].
    apply app_eq_nil in E as [_ E]. done. }
  rewrite <- app_assoc. destruct (escape_cases c) as [(x & -> & Hx)|[-> Hc]].
  - cbn -[unescape]. by rewrite Hx, IH.
  - cbn -[decode_loop]. rewrite <- IH, Hr. cbn. by rewrite decide_False.
Qed.

Lemma decode_quoted s : decode_string (quoted s) = s.
Proof.
  unfold decode_string, quoted. cbn [drop]. rewrite drop_0, decode_loop_escape by done.
  apply app_nil_r.
Qed.

Lemma escape_no_quote c : c ≠ QUOTE → no_quote (escape c) = true.
Proof.
  intros Hc. unfold escape. case_bool_decide as H.
  - apply Ascii.eqb_neq in Hc. cbn. by rewrite Hc.
  - repeat (case_decide; [done|]). apply Ascii.eqb_neq in Hc. cbn. by rewrite Hc.
Qed.

Lemma escapes_no_quote s : no_quote s = true → no_quote (concat (map escape s)) = true.
Proof.
  unfold no_quote. induction s as [|c s IH]; [done|]. cbn [map concat forallb].
  intros [Hc Hs]%andb_true_iff. rewrite forallb_app, IH by done.
  apply negb_true_iff, Ascii.eqb_neq in Hc. change (no_quote (escape c) && true = true).
  by rewrite (escape_no_quote c Hc).
Qed.

Lemma find_quote_app b r :
  no_quote b = true → find_quote (b ++ QUOTE :: r) = Some (S (length b)).
Proof.
  unfold no_quote. induction b as [|c b IH]; [done|]. cbn [app forallb find_quote length].
  intros [Hc%negb_true_iff Hb]%andb_true_iff. rewrite decide_False.
  - by rewrite IH.
  - intros ->. done.
Qed.

Lemma take_length_app {A} (a k : list A) : take (length a) (a ++ k) = a.
Proof. by rewrite take_app_length. Qed.

Lemma parse_quoted s k :
  no_quote s = true →
  _parse_string (quoted s ++ k) = Ok (length (quoted s) - 1, make_scalar STRING (quoted s)).
Proof.
  intros Hs. unfold _parse_string, quoted. cbn [app drop].
  rewrite drop_0, <- app_assoc. cbn [app]. rewrite find_quote_app by by apply escapes_no_quote.
  assert (∀ b : str, take (S (S (length b))) (QUOTE :: b ++ QUOTE :: k) = QUOTE :: b ++ [QUOTE]) as ->.
  { intros b. cbn. f_equal.
    replace (S (length b)) with (length (b ++ [QUOTE])) by (rewrite length_app; cbn; lia).
    change (QUOTE :: k) with ([QUOTE] ++ k). by rewrite app_assoc, take_length_app. }
  do 2 f_equal. cbn. rewrite length_app. cbn. lia.
Qed.

Lemma strip_quoted s : strip_quotes (quoted s) = concat (map escape s).
Proof.
  unfold strip_quotes, quoted. cbn [drop length]. rewrite drop_0, length_app. cbn [length].
  replace (S (length (concat (map escape s)) + 1) - 2) with (length (concat (map escape s))) by lia.
  apply take_length_app.
Qed.

(** * Numbers *)

Lemma isdigit_cases c : isdigit c = true → ∃ d, (0 ≤ d < 10)%Z ∧ c = digit_char d.
Proof.
  unfold isdigit, in_range. intros [H1 H2]%andb_true_iff. bool_hyps.
  exists (char_int c - 48)%Z. split; [lia|]. apply char_int_inj.
  assert (∃ d, (0 ≤ d < 10)%Z ∧ char_int c = (d + 48)%Z) as (d & Hd & ->)
    by (exists (char_int c - 48)%Z; lia).
  replace (d + 48 - 48)%Z with d by lia.
  by digit_cases d.
Qed.

Lemma isdigit_not_space c : isdigit c = true → isspace c = false.
Proof.
  intros (d & Hd & ->)%isdigit_cases.
  by digit_cases d.
Qed.

(** What may follow a value in a document. *)
Definition delimited (past : ascii) (k : str) : Prop :=
  isalnum (default past (head k)) = false ∧ default past (head k) ≠ "_"%char ∧
  head k ≠ Some "."%char.

Lemma delimited_digit past k c : delimited past k → head k = Some c → isdigit c = false.
Proof.
  intros [H _] Hc. rewrite Hc in H. cbn in H. unfold isalnum in H. by destruct (isdigit c).
Qed.

Lemma number_loop_digits past ds k :
  Forall isdigit ds → delimited past k → number_loop INTEGER (ds ++ k) = Ok (INTEGER, length ds).
Proof.
  intros Hds Hk. induction Hds as [|c ds Hc _ IH]; cbn.
  - destruct k as [|c k]; [done|]. cbn. rewrite decide_False.
    + by rewrite (delimited_digit _ _ c Hk).
    + intros ->. by destruct Hk as (_ & _ & []).
  - apply Is_true_true in Hc. rewrite decide_False by (by intros ->). by rewrite Hc, IH.
Qed.

(** A sign or nothing, then digits without a superfluous leading zero. *)
Lemma parse_digits past pre c ds k :
  pre = [] ∨ pre = ["-"%char] → Forall isdigit (c :: ds) → (c = "0"%char → ds = []) →
  delimited past k →
  _parse_number (pre ++ c :: ds ++ k)
  = Ok (length (pre ++ c :: ds) - 1, make_scalar INTEGER (pre ++ c :: ds)).
Proof.
  intros Hpre Hd Hz Hk. pose proof Hd as [Hc%Is_true_true Hds]%Forall_cons.
  assert (c ≠ "+"%char ∧ c ≠ "-"%char ∧ c ≠ "."%char) as (Hc1 & Hc2 & Hc3)
    by (split_and!; intros ->; done).
  assert (∃ n, number_start (pre ++ c :: ds ++ k) = Ok n ∧
    ((n = length pre) ∨ (n = S (length pre) ∧ ds = []))) as (n & Hn & Hcase).
  { assert ((if bool_decide (head (pre ++ c :: ds ++ k) = Some "+"%char ∨
        head (pre ++ c :: ds ++ k) = Some "-"%char) then 1 else 0) = length pre) as Hpos.
    { destruct Hpre as [-> | ->].
      - rewrite bool_decide_false; [done|]. cbn. naive_solver.
      - rewrite bool_decide_true; [done|]. by right. }
    assert ((pre ++ c :: ds ++ k) !! length pre = Some c ∧
      (pre ++ c :: ds ++ k) !! S (length pre) = head (ds ++ k)) as [H0 H1].
    { destruct Hpre as [-> | ->]; cbn; split; try done; by destruct (ds ++ k). }
    unfold number_start. rewrite Hpos, H0. destruct (decide (c = "0"%char)) as [->|Hne].
    - exists (S (length pre)). rewrite H1, (Hz eq_refl) in *. cbn [app]. split; [|auto].
      destruct (head k) as [d|] eqn:Ek; [|done]. by rewrite (delimited_digit past k d).
    - exists (length pre). split; [|auto]. by rewrite Hc. }
  unfold _parse_number. rewrite Hn. cbn [mbind res_bind].
  assert (drop n (pre ++ c :: ds ++ k) = drop (n - length pre) (c :: ds) ++ k) as ->.
  { destruct Hcase as [-> | [-> ->]]; destruct Hpre as [-> | ->]; done. }
  rewrite number_loop_digits with (past := past); [|by apply Forall_drop|done].
  cbn [mbind res_bind].
  assert (n + length (drop (n - length pre) (c :: ds)) = length (pre ++ c :: ds)) as ->.
  { rewrite length_drop, length_app. destruct Hcase as [-> | [-> ->]]; cbn; lia. }
  assert (pre ++ c :: ds ++ k = (pre ++ c :: ds) ++ k) as -> by by rewrite <- app_assoc.
  rewrite take_length_app, decide_False; [done|].
  rewrite lookup_app_l by (rewrite length_app; cbn; lia).
  rewrite length_app, lookup_app_r by (cbn; lia).
  replace (length pre + length (c :: ds) - 1 - length pre) with (length ds) by (cbn; lia).
  intros Hdot. apply (list_elem_of_lookup_2 _ (length ds)) in Hdot.
  rewrite Forall_forall in Hd. by apply Hd in Hdot.
Qed.

Lemma parse_show_Z past z k :
  delimited past k →
  _parse_number (show_Z z ++ k) = Ok (length (show_Z z) - 1, make_scalar INTEGER (show_Z z)).
Proof.
  assert (∀ n, (0 ≤ n)%Z → ∃ c ds, show_digits n = c :: ds ∧ Forall isdigit (c :: ds) ∧
    (c = "0"%char → ds = [])) as Hs.
  { intros n Hn. destruct (show_digits_spec n Hn) as (Hd & Hne & _ & Hz).
    destruct (show_digits n) as [|c ds]; [done|]. exists c, ds. split_and!; [done..|].
    intros ->. specialize (Hz eq_refl). congruence. }
  intros Hk. unfold show_Z. destruct (Z.ltb_spec z 0).
  - destruct (Hs (- z)%Z) as (c & ds & -> & Hd & Hz); [lia|].
    apply (parse_digits past ["-"%char] c ds k); auto.
  - destruct (Hs z) as (c & ds & -> & Hd & Hz); [lia|].
    apply (parse_digits past [] c ds k); auto.
Qed.

(** A text that is a number is one before anything that does not continue it,
    too. *)
Definition ends_digits (k : str) : Prop := ∀ c, head k = Some c → isdigit c = false ∧ c ≠ "."%char.
Lemma delimited_ends past k : delimited past k → ends_digits k.
Proof. intros H c Hc. split; [by eapply delimited_digit|]. intros ->. by destruct H as (_ & _ & []). Qed.

Lemma number_loop_app ty s k : ends_digits k → ∀ ty', number_loop ty s = Ok (ty', length s) → number_loop ty (s ++ k) = Ok (ty', length s).
Proof.
  intros Hk. revert ty. induction s as [|c s IH]; intros ty ty' H; cbn in H |- *.
  - destruct k as [|c k]; [done|]. destruct (Hk c eq_refl) as [Hc Hdot]. cbn. by rewrite decide_False, Hc.
  - assert (∀ ty2, ('(t, n) ← number_loop ty2 s; Ok (t, S n)) = Ok (ty', S (length s)) →
      ('(t, n) ← number_loop ty2 (s ++ k); Ok (t, S n)) = Ok (ty', S (length s))) as Hrec.
    { intros ty2 H2. destruct (number_loop ty2 s) as [[t n]|e|] eqn:E; [|done..]. cbn in H2. injection H2 as -> ->. by rewrite (IH _ _ E). }
    destruct (decide (c = "."%char)); [destruct (decide (ty = FLOAT)); [done|by apply Hrec]|]. destruct (isdigit c); [by apply Hrec|done].
Qed.
Lemma number_start_app t pos k : number_start t = Ok pos → ends_digits k →
  number_start (t ++ k) = Ok pos ∧ pos ≤ length t ∧ (∃ c a, t = c :: a ∧ (c = "-"%char ∨ c = "+"%char ∨ isdigit c = true)) ∧
  (pos = 0 → ∃ c a, t = c :: a ∧ isdigit c = true).
Proof.
  intros H Hk. destruct t as [|x t]; [done|]. unfold number_start in *. cbn [app head] in *.
  set (p := if bool_decide _ then 1 else 0) in *.
  destruct ((x :: t) !! p) as [c|] eqn:Ec; [|by destruct (decide (p = 0))]. change (x :: t ++ k) with ((x :: t) ++ k).
  rewrite (lookup_app_l_Some _ _ _ _ Ec). assert (p < length (x :: t)) as Hp by by eapply lookup_lt_Some.
  assert (c = "0"%char ∨ isdigit c = true) as Hc by (clear -H; destruct (decide (c = "0"%char)); [by left|right]; by destruct (isdigit c)).
  assert (isdigit c = true) as Hc' by by destruct Hc as [->|].
  assert (∃ c' a, x :: t = c' :: a ∧ (c' = "-"%char ∨ c' = "+"%char ∨ isdigit c' = true)) as Hh.
  { exists x, t. split; [done|]. unfold p in *. case_bool_decide as Hx; [destruct Hx as [[= ->]|[= ->]]; auto|]. injection Ec as ->. auto. }
  destruct (decide (c = "0"%char)) as [->|Hne].
  - destruct ((x :: t) !! S p) as [d|] eqn:Ed.
    + rewrite (lookup_app_l_Some _ _ _ _ Ed). destruct (isdigit d); [done|]. injection H as <-. split_and!; [done|lia|done|done].
    + injection H as <-. apply lookup_ge_None in Ed. split_and!; [|lia|done|done]. rewrite lookup_app_r by lia.
      replace (S p - length (x :: t)) with 0 by lia. destruct k as [|d k]; [done|]. cbn. by destruct (Hk d eq_refl) as [-> _].
  - rewrite Hc' in *. injection H as <-. split_and!; [done|lia|done|]. intros Hp0. rewrite Hp0 in Ec. injection Ec as ->. eauto.
Qed.
Lemma number_token_app t tok k : number_token t = Some tok → ends_digits k →
  _parse_number (t ++ k) = Ok (length t - 1, tok) ∧ ∃ c a, t = c :: a ∧ (c = "-"%char ∨ c = "+"%char ∨ isdigit c = true).
Proof.
  unfold number_token, _parse_number. intros H Hk. destruct (number_start t) as [pos|e|] eqn:Es; [|done..]. cbn [mbind res_bind] in H.
  destruct (number_start_app t pos k Es Hk) as (-> & Hpos & Hh & H0). split; [|done]. cbn [mbind res_bind].
  destruct (number_loop INTEGER (drop pos t)) as [[ty n]|e|] eqn:El; [|done..]. cbn [mbind res_bind] in H.
  destruct (decide (t !! (pos + n - 1) = Some "."%char)) as [|Hdot]; [done|]. destruct (decide (S (pos + n - 1) = length t)) as [Hl|]; [|done]. injection H as <-.
  assert (pos + n ≠ 0) as Hpn.
  { intros Hz. assert (pos = 0) as -> by lia. assert (n = 0) as -> by lia. destruct (H0 eq_refl) as (c & a & -> & Hc). cbn in El. rewrite Hc in El.
    destruct (decide (c = "."%char)) as [->|]; [done|]. by destruct (number_loop INTEGER a) as [[]| |]. }
  assert (n = length (drop pos t)) as Hn by (rewrite length_drop; lia). rewrite drop_app_le by lia. rewrite Hn in El.
  rewrite (number_loop_app _ _ k Hk _ El). cbn [mbind res_bind]. rewrite <- Hn. rewrite lookup_app_l by lia. rewrite decide_False by done.
  replace (pos + n) with (length t) in * by lia. by rewrite take_app_length, (take_ge t) by lia.
Qed.

(** ** Number texts are signs, digits and decimals *)

Lemma number_loop_run ty ds r : Forall isdigit ds → number_loop ty (ds ++ r) = ('(ty', n) ← number_loop ty r; Ok (ty', length ds + n)).
Proof.
  induction 1 as [|c ds Hc%Is_true_true _ IH]; [cbn; by destruct (number_loop ty r) as [[]| |]|]. cbn.
  rewrite decide_False by (by intros ->). rewrite Hc, IH. by destruct (number_loop ty r) as [[]| |].
Qed.
Lemma number_loop_float s ty : number_loop FLOAT s = Ok (ty, length s) → Forall isdigit s ∧ ty = FLOAT.
Proof.
  revert ty. induction s as [|c s IH]; intros ty H; cbn in H; [by injection H as <-|]. destruct (decide (c = "."%char)); [done|].
  destruct (isdigit c) eqn:Hc; [|done]. destruct (number_loop FLOAT s) as [[t k]| |] eqn:E; [|done..]. cbn in H. injection H as -> ->.
  destruct (IH _ eq_refl) as [? ->]. split; [|done]. constructor; [by apply Is_true_true|done].
Qed.
Lemma number_loop_integer s ty : number_loop INTEGER s = Ok (ty, length s) →
  ∃ ip fp, s = decimal_text [] ip fp ∧ Forall isdigit ip ∧ Forall isdigit (default [] fp) ∧ ty = match fp with Some _ => FLOAT | None => INTEGER end.
Proof.
  revert ty. induction s as [|c s IH]; intros ty H; cbn in H; [injection H as <-; by exists [], None|]. destruct (decide (c = "."%char)) as [->|].
  - cbn in H. destruct (number_loop FLOAT s) as [[t k]| |] eqn:E; [|done..]. cbn in H. injection H as -> ->. destruct (number_loop_float _ _ E) as [? ->].
    by exists [], (Some s).
  - destruct (isdigit c) eqn:Hc; [|done]. destruct (number_loop INTEGER s) as [[t k]| |] eqn:E; [|done..]. cbn in H. injection H as -> ->.
    destruct (IH _ eq_refl) as (ip & fp & -> & ? & ? & ->). exists (c :: ip), fp. split_and!; try done. constructor; [by apply Is_true_true|done].
Qed.

Lemma number_token_decimal sign c ip fp : is_sign sign → Forall isdigit (c :: ip) → (c = "0"%char → ip = []) → Forall isdigit (default [] fp) →
  fp ≠ Some [] → let t := decimal_text sign (c :: ip) fp in
  number_token t = Some (make_scalar (match fp with Some _ => FLOAT | None => INTEGER end) t).
Proof.
  intros Hs Hip Hz Hfp Hne. cbn zeta. apply Forall_cons in Hip as [Hc%Is_true_true Hip].
  set (tl := match fp with Some fp => "."%char :: fp | None => [] end). assert (decimal_text sign (c :: ip) fp = sign ++ c :: ip ++ tl) as -> by done.
  set (ty := match fp with Some _ => FLOAT | None => INTEGER end).
  assert (number_loop INTEGER tl = Ok (ty, length tl)) as Htl.
  { unfold tl, ty. destruct fp as [fp|]; [|done]. cbn. rewrite <- (app_nil_r fp), number_loop_run by done. cbn. by rewrite app_nil_r, Nat.add_0_r. }
  assert (∃ n, number_start (sign ++ c :: ip ++ tl) = Ok n ∧ (n = length sign ∨ (n = S (length sign) ∧ ip = []))) as (n & Hn & Hcase).
  { unfold number_start. assert (c ≠ "+"%char ∧ c ≠ "-"%char) as [Hc1 Hc2] by (split; intros ->; done).
    assert ((if bool_decide (head (sign ++ c :: ip ++ tl) = Some "+"%char ∨ head (sign ++ c :: ip ++ tl) = Some "-"%char) then 1 else 0) = length sign) as ->.
    { destruct Hs as [-> | [-> | ->]]; cbn; case_bool_decide; naive_solver. }
    assert ((sign ++ c :: ip ++ tl) !! length sign = Some c ∧ (sign ++ c :: ip ++ tl) !! S (length sign) = head (ip ++ tl)) as [-> ->]
      by (destruct Hs as [-> | [-> | ->]]; cbn; split; try done; by destruct (ip ++ tl)).
    destruct (decide (c = "0"%char)) as [->|]; [|rewrite Hc; eauto]. rewrite (Hz eq_refl). cbn [app]. exists (S (length sign)). split; [|auto].
    unfold tl. destruct fp; done. }
  unfold number_token, _parse_number. rewrite Hn. cbn [mbind res_bind].
  assert (drop n (sign ++ c :: ip ++ tl) = drop (n - length sign) (c :: ip) ++ tl) as ->.
  { destruct Hcase as [-> | [-> ->]]; destruct Hs as [-> | [-> | ->]]; done. }
  rewrite number_loop_run, Htl by (apply Forall_drop; constructor; [by apply Is_true_true|done]). cbn [mbind res_bind].
  assert (n + (length (drop (n - length sign) (c :: ip)) + length tl) = length (sign ++ c :: ip ++ tl)) as ->.
  { rewrite length_drop, length_app. cbn [length]. rewrite length_app. destruct Hcase as [-> | [-> ->]]; cbn [length]; lia. }
  set (t := sign ++ c :: ip ++ tl). assert (length t ≠ 0) as Hlen by (unfold t; rewrite length_app; cbn; lia). rewrite decide_False.
  { rewrite take_ge by lia. by rewrite decide_True by lia. }
  assert (∃ u d, t = u ++ [d] ∧ isdigit d = true) as (u & d & -> & Hd).
  { unfold t, tl. destruct fp as [fp|].
    - destruct fp as [|d fp _] using rev_ind; [done|]. apply Forall_app in Hfp as [_ [Hd%Is_true_true _]%Forall_cons].
      exists (sign ++ c :: ip ++ "."%char :: fp), d. split; [|done]. by rewrite !app_comm_cons, !app_assoc.
    - destruct ip as [|d ip _] using rev_ind; [exists sign, c; done|]. apply Forall_app in Hip as [_ [Hd%Is_true_true _]%Forall_cons].
      exists (sign ++ c :: ip), d. split; [|done]. rewrite app_nil_r, <- app_assoc. done. }
  rewrite length_app, lookup_app_r by (cbn; lia). cbn [length]. replace (length u + 1 - 1 - length u) with 0 by lia. cbn. intros [= ->]. done.
Qed.

Lemma number_start_parts t pos : number_start t = Ok pos →
  ∃ sign c r, t = sign ++ c :: r ∧ is_sign sign ∧ isdigit c = true ∧ (pos = length sign ∨ pos = S (length sign)).
Proof.
  unfold number_start. intros H. destruct t as [|x t]; [done|]. cbn [head] in H. case_bool_decide as Hx.
  - destruct ((x :: t) !! 1) as [c|] eqn:Ec; [|done]. destruct t as [|c' t]; [done|]. injection Ec as ->. exists [x], c, t.
    assert (is_sign [x]) as Hs by (unfold is_sign; destruct Hx as [[= ->] | [= ->]]; auto). destruct (decide (c = "0"%char)) as [->|].
    + split_and!; try done. right. destruct ((x :: "0"%char :: t) !! 2) as [d|]; [destruct (isdigit d); [done|]|]; by injection H as <-.
    + destruct (isdigit c) eqn:Hc; [|done]. split_and!; try done. left. by injection H as <-.
  - cbn [lookup list_lookup] in H. exists [], x, t. assert (is_sign []) by by left. destruct (decide (x = "0"%char)) as [->|].
    + split_and!; try done. right. destruct (t !! 0) as [d|]; [destruct (isdigit d); [done|]|]; by injection H as <-.
    + destruct (isdigit x) eqn:Hc; [|done]. split_and!; try done. left. by injection H as <-.
Qed.
Lemma number_token_parts t tok : number_token t = Some tok → ∃ sign ip fp,
  is_sign sign ∧ Forall isdigit ip ∧ ip ≠ [] ∧ Forall isdigit (default [] fp) ∧ t = decimal_text sign ip fp ∧
  tok = make_scalar (match fp with Some _ => FLOAT | None => INTEGER end) t.
Proof.
  unfold number_token, _parse_number. intros H. destruct (number_start t) as [pos|e|] eqn:Es; [|done..]. cbn [mbind res_bind] in H.
  destruct (number_loop INTEGER (drop pos t)) as [[ty n]|e|] eqn:El; [|done..]. cbn [mbind res_bind] in H.
  destruct (decide (t !! (pos + n - 1) = Some "."%char)) as [|Hdot]; [done|]. destruct (decide (S (pos + n - 1) = length t)) as [Hl|]; [|done]. injection H as <-.
  destruct (number_start_parts t pos Es) as (sign & c & r & -> & Hs & Hc & Hpos). rewrite length_app in Hl. cbn [length] in Hl.
  assert (pos + n ≠ 0) as Hnz.
  { intros Hz. destruct Hpos as [-> | ->]; [|lia]. assert (n = 0) as -> by lia. destruct sign; [|cbn in Hz; lia]. cbn in El. rewrite Hc in El.
    rewrite decide_False in El by (by intros ->). by destruct (number_loop INTEGER r) as [[]| |]. }
  assert (take (pos + n) (sign ++ c :: r) = sign ++ c :: r) as -> by (apply take_ge; rewrite length_app; cbn [length]; lia).
  assert (∃ ip fp, sign ++ c :: r = decimal_text sign ip fp ∧ Forall isdigit ip ∧ ip ≠ [] ∧ Forall isdigit (default [] fp) ∧
    ty = match fp with Some _ => FLOAT | None => INTEGER end) as (ip & fp & -> & ? & ? & ? & ->); [|by exists sign, ip, fp].
  destruct Hpos as [-> | ->].
  - rewrite drop_app_length in El. assert (n = length (c :: r)) as -> by (cbn [length]; lia). destruct (number_loop_integer _ _ El) as (ip & fp & He & Hip & Hfp & ->).
    exists ip, fp. split_and!; try done; [by rewrite He|]. intros ->. destruct fp; cbn in He; [|done]. injection He as -> _. done.
  - replace (S (length sign)) with (length sign + 1) in El by lia. rewrite drop_app_add in El. cbn [drop] in El. rewrite drop_0 in El.
    assert (n = length r) as -> by lia. destruct (number_loop_integer _ _ El) as (ip & fp & -> & Hip & Hfp & ->).
    exists (c :: ip), fp. split_and!; try done. constructor; [by apply Is_true_true|done].
Qed.

(** [get_floating_point] on such a token is what its text denotes, unless that
    is too large. *)
Lemma get_floating_point_number after t tok : number_token t = Some tok → ends_number (after tok) → ∃ sign ip fp,
  t = decimal_text sign ip fp ∧ is_sign sign ∧ Forall isdigit (ip ++ default [] fp) ∧
  let out := nearest 53 1024 (sign_negative sign) (digits_value (ip ++ default [] fp)) (- Z.of_nat (length (default [] fp))) in
  get_floating_point after tok = if decide (out = HUGE_VAL) then throw InvalidArgument else Ok out.
Proof.
  intros Ht Ha. destruct (number_token_parts t tok Ht) as (sign & ip & fp & Hs & Hip & Hne & Hfp & -> & ->). exists sign, ip, fp.
  split_and!; [done..|by apply Forall_app|]. unfold make_scalar at 1. cbn [get_floating_point]. cbn [is_floating_point].
  rewrite bool_decide_true by (destruct fp; auto). fold (make_scalar (match fp with Some _ => FLOAT | None => INTEGER end) (decimal_text sign ip fp)).
  by rewrite strtod_decimal, decide_False by auto.
Qed.

(** ** The doubles that are written without an exponent *)

Definition number_type (k : nat) : JSONType := match k with 0 => INTEGER | _ => FLOAT end.
Lemma plain_token s r k : (0 ≤ r)%Z → number_token (plain_text s r k) = Some (make_scalar (number_type k) (plain_text s r k)).
Proof.
  intros Hr. pose proof (plain_text_parts s r k Hr) as H. unfold plain_parts in H.
  set (fp := match k with 0 => None | _ => Some (pad_digits k (r `mod` 10 ^ Z.of_nat k)) end) in *. destruct H as (-> & Hip & Hne & Hfp & _ & Hl).
  destruct (show_digits_spec (r `div` 10 ^ Z.of_nat k)) as (_ & _ & _ & Hz); [apply Z.div_pos; lia|].
  destruct (show_digits (r `div` 10 ^ Z.of_nat k)) as [|c ip] eqn:Ed; [done|]. rewrite number_token_decimal; try done.
  - f_equal. f_equal. unfold fp. by destruct k.
  - destruct s; unfold is_sign; auto.
  - intros ->. specialize (Hz eq_refl). congruence.
  - unfold fp in *. destruct k; [done|]. intros [= E2]. rewrite E2 in Hl. done.
Qed.
Lemma shown_token x s r k : plain_decimal x = Some (s, r, k) → number_token (show_float x) = Some (make_scalar (number_type k) (show_float x)).
Proof. intros E. destruct (show_float_plain x s r k E) as [-> [Hr _]]. by apply plain_token. Qed.
Lemma shown_value after x tok : is_Some (plain_decimal x) → number_token (show_float x) = Some tok → ends_number (after tok) →
  get_floating_point after tok = Ok (six_digit_value x).
Proof.
  intros Hx Ht Ha. pose proof (six_digit_value_finite x Hx) as Hfin. destruct Hx as [[[s r] k] E]. rewrite (shown_token x s r k E) in Ht. injection Ht as <-.
  destruct (show_float_plain x s r k E) as [Hs [Hr _]]. unfold make_scalar at 1. cbn [get_floating_point is_floating_point].
  rewrite bool_decide_true by (destruct k; auto). fold (make_scalar (number_type k) (show_float x)).
  unfold six_digit_value in *. rewrite E in *. rewrite Hs at 1. rewrite strtod_plain, Hs by done. by rewrite decide_False, decide_False by auto.
Qed.

Lemma decimal_text_chars sign ip fp c : is_sign sign → Forall isdigit ip → Forall isdigit (default [] fp) → c ∈ decimal_text sign ip fp →
  isdigit c = true ∨ c ∈ B "+-.".
Proof.
  intros Hs Hip Hfp. rewrite Forall_forall in Hip, Hfp. unfold decimal_text. intros [Hc|[Hc|Hc]%elem_of_app]%elem_of_app.
  - right. destruct Hs as [-> | [-> | ->]]; [by apply elem_of_nil in Hc|..]; apply list_elem_of_singleton in Hc as ->; set_solver.
  - left. by apply Is_true_true, Hip.
  - destruct fp as [fp|]; [|by apply elem_of_nil in Hc]. apply elem_of_cons in Hc as [->|Hc]; [right; set_solver|]. left. by apply Is_true_true, Hfp.
Qed.
(** The others are not numbers for the parser. *)
Lemma unshown_text x : plain_decimal x = None →
  show_float x ∈ [B "nan"; B "inf"; B "-inf"] ∨ ∃ s r k e, show_float x = plain_text s r k ++ "e"%char :: e ∧ (0 ≤ r)%Z.
Proof.
  destruct x as [s|s| |s m e]; [done|destruct s; set_solver|set_solver|]. cbn [plain_decimal show_float]. intros H. right.
  pose proof (six_digits_range m e) as Hr. destruct (six_digits m e) as [r x]. cbn [fst] in Hr.
  destruct (_ && _); [by destruct (strip_zeros r _)|]. pose proof (strip_zeros_range r 5 ltac:(lia)) as Hs. destruct (strip_zeros r 5) as [r' k]. cbn [fst] in Hs.
  unfold exponent_text. destruct (x <? 0)%Z; (eexists s, r', k, _; split; [reflexivity|lia]).
Qed.
Lemma unshown_token x : plain_decimal x = None → number_token (show_float x) = None.
Proof.
  intros Hx. destruct (number_token (show_float x)) as [tok|] eqn:Ht; [|done]. destruct (number_token_parts _ _ Ht) as (sign & ip & fp & Hs & Hip & _ & Hfp & He & _).
  assert (∃ c, c ∈ show_float x ∧ isdigit c = false ∧ c ∉ B "+-.") as (c & Hc & Hd & Hn).
  { destruct (unshown_text x Hx) as [Hw|(s & r & k & e & -> & _)].
    - rewrite !elem_of_cons, elem_of_nil in Hw. destruct Hw as [-> |[-> |[-> |[]]]]; exists "n"%char; (split; [set_solver|split; [done|set_solver]]).
    - exists "e"%char. split; [set_solver|]. split; [done|set_solver]. }
  rewrite He in Hc. by destruct (decimal_text_chars _ _ _ _ Hs Hip Hfp Hc) as [Hd'|]; [rewrite Hd' in Hd|].
Qed.

(** * The parser on rendered values *)

Section reading.
Context {double : Type} (show_double : double → str) (past : ascii).
Local Abbreviation text := (render show_double).
Implicit Types (v : value double) (st : list JSONToken) (k : str).

(** What follows a finished token: [_pop_top], then the rest of the text. *)
Definition settle (t : token) st k : res parse_state :=
  p ← _pop_top (ParseState (Tok t :: st) None); update_loop past 0 p k.

Lemma update_skip a p k : update_loop past (length a) p (a ++ k) = update_loop past 0 p k.
Proof. by induction a. Qed.

Lemma update_char c st k p :
  isspace c = false → dispatch past (ParseState st None) c k = Ok (p, 0) →
  update_loop past 0 (ParseState st None) (c :: k) = update_loop past 0 p k.
Proof. intros Hc Hd. cbn -[dispatch]. by rewrite Hc, Hd. Qed.

(** A scalar: its text is consumed at once. *)
Lemma update_scalar c a t st k :
  isspace c = false →
  dispatch past (ParseState st None) c (a ++ k)
    = (p ← _pop_top (ParseState (Tok t :: st) None); Ok (p, length a)) →
  update_loop past 0 (ParseState st None) ((c :: a) ++ k) = settle t st k.
Proof.
  intros Hc Hd. cbn -[dispatch _pop_top]. rewrite Hc, Hd. unfold settle.
  destruct (_pop_top _); [|done..]. apply update_skip.
Qed.

(** A closing bracket. *)
Lemma update_close c t st k :
  isspace c = false →
  dispatch past (ParseState (Tok t :: st) None) c k
    = (p ← _pop_top (ParseState (Tok t :: st) None); Ok (p, 0)) →
  update_loop past 0 (ParseState (Tok t :: st) None) (c :: k) = settle t st k.
Proof.
  intros Hc Hd. cbn -[dispatch _pop_top]. rewrite Hc, Hd. unfold settle.
  by destruct (_pop_top _).
Qed.

Definition reads v : Prop := ∀ st k, delimited past k →
  update_loop past 0 (ParseState st None) (text v ++ k) = settle (token_of show_double v) st k.

Lemma read_keyword ty w t :
  w ∈ [B "null"; B "true"; B "false"] → t = make_scalar ty w →
  (∀ k, delimited past k → _parse_keyword past (w ++ k) = Ok (length w - 1, t)) →
  ∀ st k, delimited past k → update_loop past 0 (ParseState st None) (w ++ k) = settle t st k.
Proof.
  intros Hw -> Hk st k Hd. specialize (Hk k Hd).
  rewrite !elem_of_cons in Hw. destruct_or! Hw; [..|by apply not_elem_of_nil in Hw];
    subst w; (apply update_scalar; [done|]);
    (etrans; [|by apply (f_equal (λ r, '(n, t) ← r;
       p ← _pop_top (push_token (Tok t) (ParseState st None)); Ok (p, n))) in Hk]);
    reflexivity.
Qed.

Lemma parse_keyword_delimited w k :
  w ∈ [B "null"; B "true"; B "false"] → delimited past k →
  _parse_keyword past (w ++ k)
  = Ok (length w - 1, make_scalar (if decide (w = B "null") then NUL else BOOLEAN) w).
Proof.
  intros Hw (Ha & Hu & _). unfold _parse_keyword.
  assert (∀ n, n = length w → default past ((w ++ k) !! n) = default past (head k)) as Hn.
  { intros n ->. rewrite lookup_app_r, Nat.sub_diag by lia. by destruct k. }
  rewrite !elem_of_cons in Hw. destruct_or! Hw; [..|by apply not_elem_of_nil in Hw]; subst w;
    cbn -[take default lookup isalnum]; rewrite Hn by done; rewrite Ha, bool_decide_false by done;
    cbn -[take]; by rewrite ?take_0.
Qed.

Lemma read_string s st k :
  no_quote s = true →
  dispatch past (ParseState st None) QUOTE (concat (map escape s) ++ [QUOTE] ++ k)
  = (p ← _pop_top (ParseState (Tok (make_scalar STRING (quoted s)) :: st) None);
     Ok (p, length (concat (map escape s) ++ [QUOTE]))).
Proof.
  intros Hs. pose proof (parse_quoted s k Hs) as Hp. unfold quoted in Hp at 1.
  cbn [app] in Hp. rewrite <- app_assoc in Hp.
  unfold dispatch. change (QUOTE) with DQUOTE in *.
  repeat (rewrite decide_False by done). rewrite decide_True by done.
  rewrite Hp. cbn [mbind res_bind]. unfold push_token. cbn [_token_stack _final_value].
  by replace (length (quoted s) - 1) with (length (concat (map escape s) ++ [DQUOTE]))
    by (unfold quoted; cbn; rewrite !length_app; cbn; lia).
Qed.

Lemma read_number_text t tok st k :
  _parse_number (t ++ k) = Ok (length t - 1, tok) → (∃ c a, t = c :: a ∧ (c = "-"%char ∨ c = "+"%char ∨ isdigit c = true)) →
  update_loop past 0 (ParseState st None) (t ++ k) = settle tok st k.
Proof.
  intros Hp (c & a & -> & Hc).
  assert (∀ d, isdigit d = false → d ≠ "-"%char → d ≠ "+"%char → c ≠ d) as Hne.
  { intros d Hd Hm Hm' ->. destruct Hc as [|[|Hc]]; [done|done|]. by rewrite Hc in Hd. }
  apply update_scalar; [destruct Hc as [->|[->|Hc]]; [done|done|by apply isdigit_not_space]|].
  unfold dispatch. repeat (rewrite decide_False by by apply Hne).
  rewrite bool_decide_false by by intros [?|[?|?]]; revert select (c = _); apply Hne.
  assert (bool_decide (c = "+"%char ∨ c = "-"%char) || isdigit c = true) as ->.
  { destruct Hc as [->|[->|Hc]]; [done|done|]. by rewrite Hc, orb_true_r. }
  cbn [app] in Hp. rewrite Hp. cbn [mbind res_bind]. unfold push_token. cbn [_token_stack _final_value].
  by replace (length (c :: a) - 1) with (length a) by (cbn; lia).
Qed.

Lemma read_number z st k :
  delimited past k →
  update_loop past 0 (ParseState st None) (show_Z z ++ k)
  = settle (make_scalar INTEGER (show_Z z)) st k.
Proof.
  intros Hk. apply read_number_text; [by eapply parse_show_Z|].
  unfold show_Z. destruct (z <? 0)%Z eqn:E; [eauto|]. bool_hyps.
  destruct (show_digits_spec z E) as (Hd & Hne & _).
  destruct (show_digits z) as [|c ds]; [done|].
  apply Forall_cons in Hd as [Hc%Is_true_true _]. eauto 6.
Qed.

Lemma read_number_token t tok st k :
  number_token t = Some tok → delimited past k →
  update_loop past 0 (ParseState st None) (t ++ k) = settle tok st k.
Proof.
  intros Ht Hk. destruct (number_token_app t tok k Ht (delimited_ends _ _ Hk)) as [Hp Hh]. by apply read_number_text.
Qed.

Lemma reads_scalar v :
  match v with VList _ | VObject _ => False | _ => True end →
  parseable show_double v = true → reads v.
Proof.
  intros Hv Hp. destruct v as [|b|c|z|z|d|s| |]; try done; intros st k Hk; cbn [render token_of].
  - apply (read_keyword NUL); [set_solver|done| |done].
    clear k Hk. intros k Hk. apply (parse_keyword_delimited (B "null")); [set_solver|done].
  - apply (read_keyword BOOLEAN); [destruct b; set_solver|done| |done]. clear k Hk.
    intros k Hk.
    destruct b; (etrans; [apply parse_keyword_delimited; [set_solver|done]|done]).
  - assert (no_quote [c] = true) as Hq by done.
    apply (update_scalar QUOTE); [done|]. rewrite <- app_assoc. by apply read_string.
  - by apply read_number.
  - by apply read_number.
  - cbn in Hp. apply bool_decide_eq_true in Hp as [t Ht]. rewrite Ht. by apply read_number_token.
  - apply (update_scalar QUOTE); [done|]. rewrite <- app_assoc. by apply read_string.
Qed.

(** A double whose text has an exponent, or is a word, is not read back. *)
Lemma unshown_rejected x : plain_decimal x = None → parse past (show_float x) = throw InvalidArgument.
Proof.
  intros Hx. destruct (unshown_text x Hx) as [Hw|(s & r & k & e & -> & Hr)].
  - rewrite !elem_of_cons, elem_of_nil in Hw. destruct Hw as [-> |[-> |[-> |[]]]]; by vm_compute.
  - pose proof (plain_token s r k Hr) as Ht. assert (ends_digits ("e"%char :: e)) as Hk by (by intros c [= <-]).
    destruct (number_token_app _ _ _ Ht Hk) as [Hp Hh]. unfold parse, update. rewrite (read_number_text _ _ [] _ Hp Hh). done.
Qed.

(** ** Lists *)

Lemma settle_list x es st k :
  settle x (Tok (JSONListToken es) :: st) k
  = update_loop past 0 (ParseState (Tok (JSONListToken (es ++ [x])) :: st) None) k.
Proof. done. Qed.

Lemma join_cons {A} (f : A → str) x y l :
  join (B ",") (map f (x :: y :: l)) = f x ++ B "," ++ join (B ",") (map f (y :: l)).
Proof. done. Qed.

Lemma read_elements l :
  Forall (λ v, reads v) l → ∀ es st k,
  update_loop past 0 (ParseState (Tok (JSONListToken es) :: st) None)
    (join (B ",") (map text l) ++ B "]" ++ k)
  = settle (JSONListToken (es ++ map (token_of show_double) l)) st k.
Proof.
  induction 1 as [|x l Hx Hl IH]; intros es st k.
  - rewrite app_nil_r. cbn [map join app]. by apply (update_close "]").
  - destruct l as [|y l].
    + cbn [map join]. rewrite (Hx _ (B "]" ++ k)) by done.
      rewrite settle_list. specialize (IH (es ++ [token_of show_double x]) st k). cbn [map join app] in IH.
      by rewrite app_nil_r in IH.
    + rewrite join_cons, <- !app_assoc. rewrite (Hx _ (B "," ++ _)) by done.
      rewrite settle_list. change (B "," ++ ?r) with (","%char :: r).
      rewrite (update_char "," _ _ (ParseState (Tok (JSONListToken (es ++ [token_of show_double x])) :: st) None))
        by done.
      rewrite IH, <- app_assoc. done.
Qed.

(** ** Objects *)

Lemma assoc_not_in {A} k (es : list (str * A)) : k ∉ map fst es → assoc k es = None.
Proof.
  unfold assoc. induction es as [|[k' a] es IH]; [done|]. cbn.
  rewrite not_elem_of_cons. intros [Hk Hn]. unfold str_eqb.
  rewrite bool_decide_false by done. by apply IH.
Qed.

Lemma object_insert_new k es t :
  k ∉ map fst es → object_insert es k t = Ok (es ++ [(k, t)]).
Proof.
  intros Hk. unfold object_insert, object_has_key. rewrite assoc_not_in by done.
  by rewrite bool_decide_false by by intros [? ?].
Qed.

Lemma key_token v :
  is_key v = true → ∃ s, token_of show_double v = make_scalar STRING (quoted s) ∧ key_text v = concat (map escape s).
Proof. destruct v; try done; intros _; eexists; split; try done. cbn. by rewrite app_nil_r. Qed.

Lemma read_pair p es st k :
  is_key p.1 = true → reads p.1 → reads p.2 → delimited past k → key_text p.1 ∉ map fst es →
  update_loop past 0 (ParseState (Tok (JSONObjectToken es) :: st) None)
    (render_pair text p ++ k)
  = update_loop past 0
      (ParseState (Tok (JSONObjectToken (es ++ [(key_text p.1, token_of show_double p.2)])) :: st) None) k.
Proof.
  intros Hk H1 H2 Hd Hn. unfold render_pair. rewrite <- !app_assoc.
  rewrite (H1 _ (B ":" ++ _)) by done.
  destruct (key_token _ Hk) as (s & Ht & Hs). rewrite Ht, Hs in *.
  unfold settle at 1. cbn [_pop_top _token_stack is_string make_scalar].
  rewrite bool_decide_true by done. cbn [mbind res_bind].
  change (B ":" ++ ?r) with (":"%char :: r). fold (make_scalar STRING (quoted s)).
  rewrite (update_char ":" _ _ (ParseState (Char ":" :: Tok (make_scalar STRING (quoted s)) ::
    Tok (JSONObjectToken es) :: st) None)) by done.
  rewrite (H2 _ k) by done. unfold settle, make_scalar. cbn [_pop_top _token_stack].
  rewrite decide_True by done. by rewrite strip_quoted, object_insert_new.
Qed.

Lemma read_members ps :
  Forall (λ p, is_key p.1 = true ∧ reads p.1 ∧ reads p.2) ps → ∀ es st k,
  NoDup (map fst es ++ map (λ p, key_text p.1) ps) →
  update_loop past 0 (ParseState (Tok (JSONObjectToken es) :: st) None)
    (join (B ",") (map (render_pair text) ps) ++ B "}" ++ k)
  = settle (JSONObjectToken (es ++ map (λ p, (key_text p.1, token_of show_double p.2)) ps)) st k.
Proof.
  induction 1 as [|p ps (Hk & H1 & H2) Hps IH]; intros es st k Hnd.
  - rewrite app_nil_r. cbn [map join app]. by apply (update_close "}").
  - cbn [map] in Hnd.
    assert (key_text p.1 ∉ map fst es) as Hn.
    { apply NoDup_app in Hnd as (_ & Hnd & _). intros Hin. by apply (Hnd _ Hin), elem_of_cons; left. }
    specialize (IH (es ++ [(key_text p.1, token_of show_double p.2)]) st k).
    rewrite map_app, <- !app_assoc in IH. specialize (IH Hnd).
    destruct ps as [|q ps].
    + cbn [map join]. by rewrite read_pair.
    + rewrite join_cons, <- !app_assoc, read_pair by done.
      change (B "," ++ ?r) with (","%char :: r).
      rewrite (update_char "," _ _
        (ParseState (Tok (JSONObjectToken (es ++ [(key_text p.1, token_of show_double p.2)])) :: st) None))
        by done.
      exact IH.
Qed.

(** ** All values *)

Lemma reads_parseable v : parseable show_double v = true → reads v.
Proof.
  induction v as [| | | | | | |l IH|ps IH] using value_rect'; intros Hp;
    try (by apply reads_scalar); try done; intros st k Hk.
  - cbn [parseable] in Hp. cbn [render token_of]. rewrite <- !app_assoc.
    change (B "[" ++ ?r) with ("["%char :: r).
    rewrite (update_char "[" _ _ (ParseState (Tok (JSONListToken []) :: st) None)) by done.
    apply (read_elements l); clear Hk. apply forallb_Forall in Hp.
    rewrite Forall_forall in *. naive_solver.
  - cbn [parseable] in Hp. apply andb_true_iff in Hp as [Hp Hnd%bool_decide_eq_true].
    cbn [render token_of]. rewrite <- !app_assoc.
    change (B "{" ++ ?r) with ("{"%char :: r).
    rewrite (update_char "{" _ _ (ParseState (Tok (JSONObjectToken []) :: st) None)) by done.
    apply (read_members ps); [|done]; clear Hk. rewrite Forall_forall in *.
    intros p Hin. destruct (IH p Hin) as [H1 H2].
    apply forallb_Forall in Hp. rewrite Forall_forall in Hp. specialize (Hp p Hin).
    apply andb_true_iff in Hp as [[? ?]%andb_true_iff ?]. auto.
Qed.
End reading.

Lemma parse_text {double} (show_double : double → str) past (v : value double) :
  parseable show_double v = true → isalnum past = false → past ≠ "_"%char →
  parse past (render show_double v) = Ok (token_of show_double v).
Proof.
  intros Hv Ha Hu. pose proof (reads_parseable show_double past v Hv [] []) as Hr.
  rewrite app_nil_r in Hr. unfold parse, update. by rewrite Hr.
Qed.

(** * Reading a token through its accessors *)

(** The numbers a C++ program can pass to the formatter. *)
Fixpoint in_width {double} (v : value double) : bool :=
  match v with
  | VInt z => (INT64_MIN <=? z)%Z && (z <=? INT64_MAX)%Z
  | VUint z => (0 <=? z)%Z && (z <=? UINT64_MAX)%Z
  | VList l => forallb in_width l
  | VObject ps => forallb (λ p, in_width p.2) ps
  | _ => true
  end.

(** What a reader of the token sees of the value. *)
Inductive decodes {double} (show_double : double → str) : token → value double → Prop :=
  | decodes_null t : is_null t = true → decodes show_double t VNull
  | decodes_bool t b : get_boolean t = Ok b → decodes show_double t (VBool b)
  | decodes_char t c : get_char t = Ok c → decodes show_double t (VChar c)
  | decodes_int t z : get_signed_integer t = Ok z → decodes show_double t (VInt z)
  | decodes_uint t z : get_unsigned_integer t = Ok z → decodes show_double t (VUint z)
  | decodes_float t d : number_token (show_double d) = Some t → decodes show_double t (VFloat d)
  | decodes_string t s : get_string t = Ok s → decodes show_double t (VString s)
  | decodes_list t l : size t = Ok (length l) →
      (∀ i v, l !! i = Some v → ∃ x, get_index t i = Ok x ∧ decodes show_double x v) →
      decodes show_double t (VList l)
  | decodes_object t ps : size t = Ok (length ps) →
      (∀ k v, (k, v) ∈ ps → ∃ x, get_key t (key_text k) = Ok x ∧ decodes show_double x v) →
      decodes show_double t (VObject ps).

Lemma get_integer_show lo hi z :
  (lo ≤ z ≤ hi)%Z → (z < 0 → lo < 0)%Z → get_integer lo hi (show_Z z) = Ok z.
Proof.
  intros Hz Hlo. unfold get_integer.
  assert (∀ c r, show_Z z = c :: r → c ≠ "+"%char) as Hp.
  { unfold show_Z. destruct (z <? 0)%Z eqn:E; intros c r; [by intros [= <- _]|].
    intros Hc ->. bool_hyps. pose proof (show_digits_head_digit z "+" E). rewrite Hc in *. naive_solver. }
  assert (match show_Z z with c :: r => if decide (c = "+"%char) then r else show_Z z | [] => show_Z z end
    = show_Z z) as ->.
  { destruct (show_Z z) as [|c r]; [done|]. by rewrite decide_False by eauto. }
  pose proof (from_chars_show lo hi z [] Hz Hlo) as Hf. rewrite app_nil_r in Hf.
  rewrite Hf by done. rewrite bool_decide_false by naive_solver. done.
Qed.

Lemma assoc_lookup {A} k (x : A) es : NoDup (map fst es) → (k, x) ∈ es → assoc k es = Some x.
Proof.
  unfold assoc, str_eqb. induction es as [|[k' a] es IH]; [by intros ? ?%not_elem_of_nil|].
  cbn. intros [Hk Hnd]%NoDup_cons [[= <- <-]|Hin]%elem_of_cons.
  - by rewrite bool_decide_true.
  - rewrite bool_decide_false; [by apply IH|]. intros ->. apply Hk.
    by apply (list_elem_of_fmap_2 fst) in Hin.
Qed.

Lemma token_decodes {double} (show_double : double → str) (v : value double) :
  parseable show_double v = true → in_width v = true → decodes show_double (token_of show_double v) v.
Proof.
  induction v as [|b|c|z|z| |s|l IH|ps IH] using value_rect'; intros Hp Hw.
  - by constructor.
  - constructor. by destruct b.
  - constructor. cbn [token_of]. unfold make_scalar. rewrite decide_True, decode_quoted by done. done.
  - constructor. cbn in Hw. bool_hyps. cbn -[get_integer show_Z].
    apply get_integer_show; unfold INT64_MIN in *; lia.
  - constructor. cbn in Hw. bool_hyps. cbn -[get_integer show_Z].
    rewrite bool_decide_true; [apply get_integer_show; lia|]. split; [done|].
    unfold show_Z. destruct (z <? 0)%Z eqn:E; bool_hyps; [lia|].
    intros Hh. by apply show_digits_head_digit in Hh.
  - constructor. cbn in Hp. apply bool_decide_eq_true in Hp as [t Ht]. cbn [token_of]. by rewrite Ht.
  - constructor. cbn [token_of]. unfold make_scalar. rewrite decide_True, decode_quoted by done. done.
  - cbn in Hp, Hw. apply forallb_Forall in Hp, Hw. rewrite Forall_forall in *.
    apply decodes_list; cbn [token_of size get_index]; [by rewrite length_map|].
    intros i v Hi. exists (token_of show_double v). rewrite list_lookup_fmap, Hi. split; [done|].
    apply list_elem_of_lookup_2 in Hi. auto.
  - cbn in Hp, Hw. apply andb_true_iff in Hp as [Hp Hnd%bool_decide_eq_true].
    apply forallb_Forall in Hp, Hw. rewrite Forall_forall in *.
    apply decodes_object; cbn [token_of size get_key]; [by rewrite length_map|].
    intros k v Hin. exists (token_of show_double v).
    rewrite (assoc_lookup _ (token_of show_double v)); [split; [done|]|..].
    + specialize (Hp _ Hin). bool_hyps. destruct (IH _ Hin) as [_ IHv]. apply IHv; [done|].
      by apply (Hw _ Hin).
    + by rewrite map_map.
    + by apply (list_elem_of_fmap_2 (λ p, (key_text p.1, token_of show_double p.2))) in Hin.
Qed.

(** * Properties *)

(** The parser reads back the JSON text of any value built from null,
    booleans, integers, strings without quotation marks, lists and objects with
    distinct keys, nested in any way: it returns the one token that mirrors the
    value, provided the byte after the text cannot continue a keyword. *)
Theorem parse_render {double} (show_double : double → str) (past : ascii) (v : value double) :
  parseable show_double v = true → isalnum past = false → past ≠ "_"%char →
  parse past (render show_double v) = Ok (token_of show_double v).
Proof. apply parse_text. Qed.

Definition sample : value unit :=
  VObject [(VString (B "list"), VList [VInt (-12); VBool true; VString (B "a/b\c")]);
           (VChar "o", VObject [(VString (B "u"), VUint 18446744073709551615); (VString [], VNull)])].

Lemma parse_render_witness :
  parse "000" (B "{" ++ render (λ _, []) sample ++ B "}") = throw InvalidArgument ∧
  parse "000" (render (λ _, []) sample) = Ok (token_of (λ _, []) sample).
Proof. split; [by vm_compute|]. apply parse_render; by vm_compute. Defined.

(** A value written by a [Serializer] through the JSON formatter and
    parsed again is the same value to a reader: each accessor of the token
    returns what was written (an integer of its C++ type, the decoded string,
    each list element, each object member under its key's escaped text). *)
Theorem json_roundtrip {double} (show_double : double → str) (past : ascii) (v : value double) :
  writable v = true → parseable show_double v = true → in_width v = true →
  isalnum past = false → past ≠ "_"%char →
  ∃ f t, @write _ _ (JSONSerializationFormatter show_double) v make_formatter = (f, Ok ()) ∧
    parse past (_output f) = Ok t ∧ decodes show_double t v.
Proof.
  intros Hw Hp Hr Ha Hu.
  destruct (write_writable show_double v Hw VALUE [] []) as (st & Hf & _); [by left|].
  eexists _, (token_of show_double v). split; [exact Hf|]. split; [|by apply token_decodes].
  by apply parse_text.
Qed.

Definition sample_list : value unit :=
  VList [VInt INT64_MIN; VList [VString (B "a\b"); VChar "n"]; VUint UINT64_MAX].

Lemma json_roundtrip_witness :
  ∃ f t, @write _ _ (JSONSerializationFormatter (λ _ : unit, [])) sample_list make_formatter
         = (f, Ok ()) ∧ parse "000" (_output f) = Ok t ∧ decodes (λ _ : unit, []) t sample_list.
Proof. apply json_roundtrip; by vm_compute. Defined.
