(* ===== verification/SerializedValue.v ===== *)
(** lw/io/serializer/parser and lw/io/serializer/serialized_value: the interface
    of a parsed token, and the typed view of it that programs read. *)
From Stdlib Require Import SpecFloat.
From S2P Require Import Prelude Cxx Floats Serializer JsonFormatter JsonParser JsonRoundtrip.

(** * Tokens *)

(** [DeserializationToken]. *)
Class DeserializationToken (double T : Type) := {
  token_size : T → res nat;
  token_is_null : T → bool;
  token_is_boolean : T → bool;
  token_is_char : T → bool;
  token_is_signed_integer : T → bool;
  token_is_unsigned_integer : T → bool;
  token_is_floating_point : T → bool;
  token_is_string : T → bool;
  token_is_list : T → bool;
  token_is_object : T → bool;
  token_boolean : T → res bool;
  token_char : T → res ascii;
  token_signed_integer : T → res Z;
  token_unsigned_integer : T → res Z;
  token_floating_point : T → res double;
  token_string : T → res str;
  token_has_index : T → nat → bool;
  token_index : T → nat → res T;
  token_has_key : T → str → bool;
  token_key : T → str → res T;
}.

(** The tokens of JSON; the conversion to [double] is the C library's. *)
Definition json_token {double} (get_floating_point : token → res double) : DeserializationToken double token := {|
  token_size := size; token_is_null := is_null; token_is_boolean := is_boolean; token_is_char := is_char;
  token_is_signed_integer := is_signed_integer; token_is_unsigned_integer := is_unsigned_integer;
  token_is_floating_point := is_floating_point; token_is_string := is_string; token_is_list := is_list;
  token_is_object := is_object; token_boolean := get_boolean; token_char := get_char;
  token_signed_integer := get_signed_integer; token_unsigned_integer := get_unsigned_integer;
  token_floating_point := get_floating_point; token_string := get_string; token_has_index := has_index;
  token_index := get_index; token_has_key := has_key; token_key := get_key;
|}.

(** * The view *)

Section view.
Context {double T : Type} `{!DeserializationToken double T}.

(** [SerializedValue]: a reference to a token. *)
Record SerializedValue := MkSerializedValue { _token : T }.

Definition has_member (key : str) (v : SerializedValue) : bool := token_has_key (_token v) key.
Definition has_element (index : nat) (v : SerializedValue) : bool := token_has_index (_token v) index.

(** [as<T>()], for each kind of type.  The integer types narrow the result of
    the token's getter. *)
Definition as_nullptr (v : SerializedValue) : res () := Ok ().
Definition as_bool (v : SerializedValue) : res bool := token_boolean (_token v).
Definition as_char (v : SerializedValue) : res ascii := token_char (_token v).
Definition as_signed (w : Z) (v : SerializedValue) : res Z := wrap_s w <$> token_signed_integer (_token v).
Definition as_unsigned (w : Z) (v : SerializedValue) : res Z := wrap_u w <$> token_unsigned_integer (_token v).
Definition as_floating_point (v : SerializedValue) : res double := token_floating_point (_token v).
Definition as_string_view (v : SerializedValue) : res str := token_string (_token v).
(** A type with a [Serialize<T>::deserialize] of its own. *)
Definition as_deserialized {A} (deserialize : SerializedValue → res A) (v : SerializedValue) : res A := deserialize v.

(** [get<T>(key)] and [get<T>(index)], also with a default, for the [as<T>] of
    the type. *)
Definition get_member {A} (as_type : SerializedValue → res A) (key : str) (v : SerializedValue) : res A :=
  t ← token_key (_token v) key; as_type (MkSerializedValue t).
Definition get_member_or {A} (as_type : SerializedValue → res A) (key : str) (default_value : A) (v : SerializedValue) : res A :=
  if token_has_key (_token v) key then get_member as_type key v else Ok default_value.
Definition get_element {A} (as_type : SerializedValue → res A) (index : nat) (v : SerializedValue) : res A :=
  t ← token_index (_token v) index; as_type (MkSerializedValue t).
Definition get_element_or {A} (as_type : SerializedValue → res A) (index : nat) (default_value : A) (v : SerializedValue) : res A :=
  if token_has_index (_token v) index then get_element as_type index v else Ok default_value.
End view.
Arguments SerializedValue : clear implicits.

(** * Reading what was written *)

(** How a program asks for a value of the kind that was written, with integers
    of [w] bits, and what it gets. *)
Inductive read_as `{!DeserializationToken spec_float token} (w : Z) (v : SerializedValue token) : value spec_float → Prop :=
  | read_null : as_nullptr v = Ok () → read_as w v VNull
  | read_bool b : as_bool v = Ok b → read_as w v (VBool b)
  | read_char c : as_char v = Ok c → read_as w v (VChar c)
  | read_int z : as_signed w v = Ok (wrap_s w z) → read_as w v (VInt z)
  | read_uint z : as_unsigned w v = Ok (wrap_u w z) → read_as w v (VUint z)
  | read_float d : as_floating_point v = Ok (six_digit_value d) → read_as w v (VFloat d)
  | read_string s : as_string_view v = Ok s → read_as w v (VString s)
  | read_list l :
      (∀ {A} (as_type : SerializedValue token → res A) d i, get_element_or as_type i d v =
        match l !! i with Some x => as_type (MkSerializedValue (token_of show_float x)) | None => Ok d end) →
      (∀ i x, l !! i = Some x → read_as w (MkSerializedValue (token_of show_float x)) x) → read_as w v (VList l)
  | read_object ps :
      (∀ {A} (as_type : SerializedValue token → res A) k x d, (k, x) ∈ ps →
        get_member as_type (key_text k) v = as_type (MkSerializedValue (token_of show_float x)) ∧
        get_member_or as_type (key_text k) d v = as_type (MkSerializedValue (token_of show_float x))) →
      (∀ {A} (as_type : SerializedValue token → res A) key d, key ∉ (λ p, key_text p.1) <$> ps →
        get_member as_type key v = throw OutOfRange ∧ get_member_or as_type key d v = Ok d) →
      (∀ k x, (k, x) ∈ ps → read_as w (MkSerializedValue (token_of show_float x)) x) → read_as w v (VObject ps).

Section reading.
Context (after : token → str) (Hafter : ∀ t, ends_number (after t)).
#[local] Instance json_tokens : DeserializationToken spec_float token := json_token (get_floating_point after).

Lemma assoc_absent {A} k (es : list (str * A)) : k ∉ es.*1 → assoc k es = None.
Proof.
  unfold assoc, str_eqb. induction es as [|[k' a] es IH]; [done|]. cbn. intros [Hne Hin]%not_elem_of_cons.
  rewrite bool_decide_false; [by apply IH|]. by intros ->.
Qed.

Lemma token_of_reads (w : Z) (v : value spec_float) :
  parseable show_float v = true → in_width v = true → read_as w (MkSerializedValue (token_of show_float v)) v.
Proof.
  induction v as [|b|c|z|z|d|s|l IH|ps IH] using value_rect'; intros Hp Hw; pose proof (token_decodes show_float _ Hp Hw) as Hd.
  - by apply read_null.
  - apply read_bool. by inversion Hd.
  - apply read_char. by inversion Hd.
  - apply read_int. inversion Hd as [| | |? ? Hz| | | | |]; subst. unfold as_signed. cbn [token_signed_integer json_tokens json_token _token].
    by rewrite Hz.
  - apply read_uint. inversion Hd as [| | | |? ? Hz| | | |]; subst. unfold as_unsigned. cbn [token_unsigned_integer json_tokens json_token _token].
    by rewrite Hz.
  - apply read_float. inversion Hd as [| | | | |? ? Ht| | |]; subst. unfold as_floating_point. cbn [token_floating_point json_tokens json_token _token].
    apply shown_value; [|done|by apply Hafter]. destruct (plain_decimal d) eqn:E; [done|]. by rewrite (unshown_token d E) in Ht.
  - apply read_string. by inversion Hd.
  - cbn in Hp, Hw. apply forallb_Forall in Hp, Hw. rewrite Forall_forall in *. apply read_list.
    + intros A as_type d i. unfold get_element_or, get_element. cbn. rewrite length_map.
      destruct (l !! i) as [x|] eqn:Hi.
      * rewrite bool_decide_true by (by eapply lookup_lt_Some). by rewrite list_lookup_fmap, Hi.
      * rewrite bool_decide_false; [done|]. apply lookup_ge_None in Hi. lia.
    + intros i x Hi%list_elem_of_lookup_2. auto.
  - cbn in Hp, Hw. apply andb_true_iff in Hp as [Hp Hnd%bool_decide_eq_true].
    apply forallb_Forall in Hp, Hw. rewrite Forall_forall in *.
    assert (∀ k x, (k, x) ∈ ps → assoc (key_text k) (map (λ p, (key_text p.1, token_of show_float p.2)) ps) = Some (token_of show_float x)) as Hin.
    { intros k x Hk. apply assoc_lookup; [by rewrite map_map|]. by apply (list_elem_of_fmap_2 (λ p, (key_text p.1, token_of show_float p.2))) in Hk. }
    apply read_object.
    + intros A as_type k x d Hk. specialize (Hin k x Hk). unfold get_member_or, get_member. cbn.
      unfold object_has_key. rewrite Hin. by rewrite ?bool_decide_true.
    + intros A as_type key d Hk. unfold get_member_or, get_member. cbn.
      assert (assoc key (map (λ p : value spec_float * value spec_float, (key_text p.1, token_of show_float p.2)) ps) = None) as Hno.
      { apply assoc_absent. intros Hin'. apply Hk. by rewrite <- list_fmap_compose in Hin'. }
      unfold object_has_key. by rewrite Hno.
    + intros k x Hk. specialize (Hp _ Hk). bool_hyps. destruct (IH _ Hk) as [_ IHv]. apply IHv; [done|]. by apply (Hw _ Hk).
Qed.
End reading.

(** * Properties *)

(** C30.  A program that reads a document back through [SerializedValue], by keys
    and positions and with the types that were written, gets what was written:
    a double comes back as its six digits, members and elements that are missing
    give the default, missing members without one throw, and an integer read as
    a narrower type wraps silently. *)
Theorem document_reads_back (past : ascii) (after : token → str) (w : Z) (v : value spec_float)
    (writable_v : writable v = true) (parseable_v : parseable show_float v = true) (widths : in_width v = true)
    (delimiter : isalnum past = false ∧ past ≠ "_"%char) (ends : ∀ t, ends_number (after t)) :
  ∃ f t, @write _ _ (JSONSerializationFormatter show_float) v make_formatter = (f, Ok ()) ∧
    parse past (_output f) = Ok t ∧ @read_as (json_token (get_floating_point after)) w (MkSerializedValue t) v.
Proof.
  destruct delimiter as [Ha Hu]. destruct (write_writable show_float v writable_v VALUE [] []) as (st & Hf & _); [by left|].
  eexists _, (token_of show_float v). split; [exact Hf|]. split; [|by apply token_of_reads]. by apply parse_text.
Qed.

(** A double can be in such a document exactly if it is printed without an
    exponent: if it is zero or its six digits start between the fourth decimal
    and the sixth digit before the point. *)
Lemma parseable_double x : parseable show_float (VFloat x) = bool_decide (is_Some (plain_decimal x)).
Proof.
  cbn [parseable]. destruct (plain_decimal x) as [[[s r] k]|] eqn:E; [by rewrite (shown_token x s r k E)|by rewrite (unshown_token x E)].
Qed.

(** * Witnesses *)

Definition sample_document : value spec_float :=
  VObject [(VString (B "port"), VInt 70000); (VString (B "tls"), VObject [(VChar "v", VString (B "1.3")); (VString (B "on"), VBool true)]);
           (VString (B "load"), VFloat (nearest 53 1024 false 123456789 (-8)))].
Definition comma_after (t : token) : str := B ",".

Lemma document_reads_back_witness :
  ∃ f t, @write _ _ (JSONSerializationFormatter show_float) sample_document make_formatter = (f, Ok ()) ∧
    parse "000" (_output f) = Ok t ∧ @read_as (json_token (get_floating_point comma_after)) 16 (MkSerializedValue t) sample_document.
Proof. apply (document_reads_back "000" comma_after 16 sample_document); [by vm_compute..|by split|]. by intros t c [= <-]. Defined.

(** A port that does not fit is read as another one, and a load loses digits. *)
Lemma narrow_member_wraps :
  let tokens := json_token (get_floating_point comma_after) in
  @get_member _ _ tokens _ (@as_signed _ _ tokens 16) (B "port") (MkSerializedValue (token_of show_float sample_document)) = Ok 4464%Z ∧
  @get_member _ _ tokens _ (@as_floating_point _ _ tokens) (B "load") (MkSerializedValue (token_of show_float sample_document)) =
    Ok (nearest 53 1024 false 123457 (-5)).
Proof. by vm_compute. Qed.

(** A document the library wrote that it cannot parse, and a number below the
    range of [double] that is not rejected. *)
Lemma large_double_unreadable :
  render show_float (VFloat (nearest 53 1024 false 1234567 0)) = B "1.23457e+06" ∧
  parse "000" (B "1.23457e+06") = throw InvalidArgument.
Proof. by vm_compute. Qed.
Lemma negative_overflow_accepted :
  let digits := replicate 400 "9"%char in
  (t ← parse "000" digits; get_floating_point (λ _, []) t) = throw InvalidArgument ∧
  (t ← parse "000" ("-"%char :: digits); get_floating_point (λ _, []) t) = Ok (S754_infinity true).
Proof. by vm_compute. Qed.
