(* ===== verification/TaggedTypes.v ===== *)
(** io/serializer/serializer.h: types of a program's own, written and read back
    through their specialization of [Serialize], and the two that
    io/serializer/testing/tagged_types.h declares. *)
From Stdlib Require Import SpecFloat.
From S2P Require Import Prelude Cxx Floats Serializer JsonFormatter AsyncSerializer JsonParser JsonRoundtrip SerializedValue.

(** * Specializations *)

(** [Serialize<T>] of a tagged type: its [serialization_category], the calls
    that [serialize] makes on a serializer, and [deserialize]. *)
Class Serialize (A : Type) := {
  serialization_category : category;
  serialize {double S} `{!SerializationFormatter double S} : A → ST S ();
  deserialize {double T} `{!DeserializationToken double T} : SerializedValue T → res A;
}.

Section writing.
Context {double S : Type} `{!SerializationFormatter double S} {A : Type} `{!Serialize A}.

(** [_serialize_list] and [_serialize_object] of a tagged type, and the two
    [write]s that call them. *)
Definition serialize_list : A → ST S () := serialize.
Definition serialize_object : A → ST S () := serialize.
Definition write_list (x : A) : ST S () := start_list ≫= λ _, serialize_list x ≫= λ _, end_list.
Definition write_object (x : A) : ST S () := start_object ≫= λ _, serialize_object x ≫= λ _, end_object.
Definition write_tagged (x : A) : ST S () :=
  match serialization_category (A := A) with ListTag => write_list x | ObjectTag => write_object x end.
End writing.

(** What a specialization is to keep to: the calls it makes are those for the
    elements of a list or the members of an object that can be written and read,
    and it finds these parts again.
    Its integers have [w] bits. *)
Class SerializeLaws (A : Type) (w : Z) `{!Serialize A} := {
  in_type : A → Prop;
  image : A → value spec_float;
  image_text x : in_type x → writable (image x) = true ∧ parseable show_float (image x) = true ∧ in_width (image x) = true;
  serialize_image {S} `{!SerializationFormatter spec_float S} x s :
    match serialization_category (A := A), image x with
    | ListTag, VList l => serialize x s = for_each write l s
    | ObjectTag, VObject ps => serialize x s = for_each (write_pair write) ps s
    | _, _ => False
    end;
  deserialize_image `{!DeserializationToken spec_float token} x v :
    in_type x → read_as w v (image x) → deserialize v = Ok x;
}.

(** ** Writing *)

Lemma bracketed {S} (start middle middle' stop : ST S ()) s :
  (∀ s, middle s = middle' s) → (start ≫= λ _, middle ≫= λ _, stop) s = (start ≫= λ _, middle' ≫= λ _, stop) s.
Proof.
  intros H. unfold mbind, ST_bind. destruct (start s) as [s1 [[]|e|]]; [|done..]. by rewrite H.
Qed.
Lemma write_tagged_image {A} (w : Z) `{!Serialize A, !SerializeLaws A w} {S} `{!SerializationFormatter spec_float S} (x : A) (s : S) :
  write_tagged x s = write (image (w := w) x) s.
Proof.
  unfold write_tagged. pose proof (λ s, serialize_image (w := w) x s) as H. destruct serialization_category, (image x); try by destruct (H s).
  - by apply bracketed.
  - by apply bracketed.
Qed.

(** ** Parts of a document *)

Section parts.
Context `{!DeserializationToken spec_float token} (w : Z) (v : SerializedValue token).

(** Elements and members that were written are there, as what was written. *)
Lemma element_reads {A} (as_type : SerializedValue token → res A) l i x :
  read_as w v (VList l) → l !! i = Some x → get_element as_type i v = as_type (MkSerializedValue (token_of show_float x)).
Proof.
  intros Hr Hi. inversion Hr as [| | | | | | |l' Hget _|]; subst.
  pose proof (Hget unit (λ _, throw Internal) () i) as Hhas. rewrite Hi in Hhas. unfold get_element_or in *.
  destruct (token_has_index _ _) eqn:E; [|done]. unfold get_element in *.
  pose proof (Hget (res A) (λ v, Ok (as_type v)) Undef i) as H. rewrite E, Hi in H.
  destruct (token_index (_token v) i) as [t|e|]; [|done..]. by injection H.
Qed.

Lemma signed_element l i z : read_as w v (VList l) → l !! i = Some (VInt z) → get_element (as_signed w) i v = Ok (wrap_s w z).
Proof.
  intros Hr Hi. rewrite (element_reads _ l i (VInt z)) by done. inversion Hr as [| | | | | | |l' _ Hx|]; subst.
  specialize (Hx _ _ Hi). by inversion Hx.
Qed.
Lemma signed_member ps k z : read_as w v (VObject ps) → (VString k, VInt z) ∈ ps → concat (map escape k) = k → get_member (as_signed w) k v = Ok (wrap_s w z).
Proof.
  intros Hr Hk He. inversion Hr as [| | | | | | | |ps' Hget _ Hx]; subst. pose proof (proj1 (Hget _ (as_signed w) _ _ 0%Z Hk)) as H.
  cbn [key_text] in H. rewrite He in H. rewrite H.
  specialize (Hx _ _ Hk). by inversion Hx.
Qed.
End parts.

(** ** The types of the tests *)

Definition int32 (z : Z) : Prop := (-2 ^ 31 ≤ z < 2 ^ 31)%Z.

Record ObjectTagged := MkObjectTagged { object_a : Z; object_b : Z; object_c : Z }.
Record ListTagged := MkListTagged { list_a : Z; list_b : Z; list_c : Z }.

Definition write_member {double S} `{!SerializationFormatter double S} (key : str) (n : Z) : ST S () :=
  write_pair write (VString key, VInt n).

#[export] Instance serialize_ObjectTagged : Serialize ObjectTagged := {|
  serialization_category := ObjectTag;
  serialize _ _ _ x :=
    write_member (B "a") (object_a x) ≫= λ _, write_member (B "b") (object_b x) ≫= λ _, write_member (B "c") (object_c x);
  deserialize _ _ _ v :=
    a ← get_member (as_signed 32) (B "a") v; b ← get_member (as_signed 32) (B "b") v; c ← get_member (as_signed 32) (B "c") v;
    Ok (MkObjectTagged a b c);
|}.
#[export] Instance serialize_ListTagged : Serialize ListTagged := {|
  serialization_category := ListTag;
  serialize _ _ _ x := write (VInt (list_a x)) ≫= λ _, write (VInt (list_b x)) ≫= λ _, write (VInt (list_c x));
  deserialize _ _ _ v :=
    a ← get_element (as_signed 32) 0 v; b ← get_element (as_signed 32) 1 v; c ← get_element (as_signed 32) 2 v;
    Ok (MkListTagged a b c);
|}.

Lemma int32_in_width z : int32 z → in_width (VInt (double := spec_float) z) = true.
Proof. unfold int32. cbn. intros H. apply andb_true_iff. rewrite !Z.leb_le. unfold INT64_MIN, INT64_MAX. lia. Qed.
Lemma int32_wrap z : int32 z → wrap_s 32 z = z.
Proof. intros H. apply wrap_s_small; [lia|]. exact H. Qed.

(** Three calls and then nothing are a loop over three. *)
Lemma three_calls {S A} (f : A → ST S ()) x y z s :
  (f x ≫= λ _, f y ≫= λ _, f z) s = for_each f [x; y; z] s.
Proof.
  unfold for_each, mbind, ST_bind. cbn. destruct (f x s) as [s1 [[]|e|]]; [|done..]. destruct (f y s1) as [s2 [[]|e|]]; [|done..].
  by destruct (f z s2) as [s3 [[]|e|]].
Qed.

#[export] Instance laws_ObjectTagged : SerializeLaws ObjectTagged 32.
Proof.
  refine {|
    in_type x := int32 (object_a x) ∧ int32 (object_b x) ∧ int32 (object_c x);
    image x := VObject [(VString (B "a"), VInt (object_a x)); (VString (B "b"), VInt (object_b x)); (VString (B "c"), VInt (object_c x))] |}.
  - intros [a b c] (Ha & Hb & Hc). split_and!; [done|by vm_compute|].
    cbn [in_width forallb snd object_a object_b object_c]. apply int32_in_width in Ha, Hb, Hc. cbn in Ha, Hb, Hc. by rewrite Ha, Hb, Hc.
  - intros S ? [a b c] s. apply (three_calls (write_pair write)).
  - intros ? [a b c] v (Ha & Hb & Hc) Hr. cbn [deserialize serialize_ObjectTagged object_a object_b object_c] in *.
    rewrite (signed_member 32 v _ (B "a") a Hr) by (repeat constructor). cbn [mbind res_bind].
    rewrite (signed_member 32 v _ (B "b") b Hr) by (repeat constructor). cbn [mbind res_bind].
    rewrite (signed_member 32 v _ (B "c") c Hr) by (repeat constructor). cbn [mbind res_bind]. by rewrite !int32_wrap.
Defined.
#[export] Instance laws_ListTagged : SerializeLaws ListTagged 32.
Proof.
  refine {|
    in_type x := int32 (list_a x) ∧ int32 (list_b x) ∧ int32 (list_c x);
    image x := VList [VInt (list_a x); VInt (list_b x); VInt (list_c x)] |}.
  - intros [a b c] (Ha & Hb & Hc). split_and!; [done|by vm_compute|].
    cbn [in_width forallb list_a list_b list_c]. apply int32_in_width in Ha, Hb, Hc. cbn in Ha, Hb, Hc. by rewrite Ha, Hb, Hc.
  - intros S ? [a b c] s. apply (three_calls write).
  - intros ? [a b c] v (Ha & Hb & Hc) Hr. cbn [deserialize serialize_ListTagged list_a list_b list_c] in *.
    rewrite (signed_element 32 v _ 0 a Hr), (signed_element 32 v _ 1 b Hr), (signed_element 32 v _ 2 c Hr) by done.
    cbn [mbind res_bind]. by rewrite !int32_wrap.
Defined.

(** * Properties *)

(** C31.  A type of a program's own, by what its specialization of [Serialize] is
    to keep to, is written as the text of its value in brackets or braces, and
    the document parses and reads back as the same object. *)
Theorem tagged_reads_back {A} (w : Z) `{!Serialize A, !SerializeLaws A w} (past : ascii) (after : token → str) (x : A) :
  in_type (w := w) x → isalnum past = false ∧ past ≠ "_"%char → (∀ t, ends_number (after t)) →
  ∃ f t, @write_tagged _ _ (JSONSerializationFormatter show_float) _ _ x make_formatter = (f, Ok ()) ∧
    _output f = render show_float (image (w := w) x) ∧ parse past (_output f) = Ok t ∧
    @deserialize A _ _ _ (json_token (get_floating_point after)) (MkSerializedValue t) = Ok x.
Proof.
  intros Hx [Ha Hu] Hafter. destruct (image_text x Hx) as (Hw & Hp & Hi).
  destruct (write_writable show_float (image (w := w) x) Hw VALUE [] []) as (st & Hf & _); [by left|].
  eexists _, (token_of show_float (image (w := w) x)). split_and!; [rewrite (write_tagged_image w); exact Hf|done|by apply parse_text|].
  apply (deserialize_image (w := w) x); [done|]. by apply token_of_reads.
Qed.

Lemma tagged_reads_back_witness :
  ∃ f t, @write_tagged _ _ (JSONSerializationFormatter show_float) _ _ (MkObjectTagged 1 (-2) 3) make_formatter = (f, Ok ()) ∧
    _output f = render show_float (image (w := 32%Z) (MkObjectTagged 1 (-2) 3)) ∧ parse "000" (_output f) = Ok t ∧
    @deserialize ObjectTagged _ _ _ (json_token (get_floating_point comma_after)) (MkSerializedValue t) = Ok (MkObjectTagged 1 (-2) 3).
Proof.
  apply (tagged_reads_back 32 "000" comma_after (MkObjectTagged 1 (-2) 3)); [by split_and!|by split|by intros t c [= <-]].
Defined.

(** The documents of json_test.cpp. *)
Lemma tagged_documents :
  _output (@write_tagged _ _ (JSONSerializationFormatter show_float) _ _ (MkListTagged 1 2 3) make_formatter).1 = B "[1,2,3]" ∧
  _output (@write_tagged _ _ (JSONSerializationFormatter show_float) _ _ (MkObjectTagged 1 2 3) make_formatter).1 =
    B "{" ++ quoted (B "a") ++ B ":1," ++ quoted (B "b") ++ B ":2," ++ quoted (B "c") ++ B ":3}".
Proof. by vm_compute. Qed.

(** Reading a document of another shape: what is missing throws. *)
Lemma tagged_of_other_throws :
  match parse "000" (B "[1,2]") with
  | Ok t => @deserialize ListTagged _ _ _ (json_token (get_floating_point comma_after)) (MkSerializedValue t) = throw OutOfRange
  | _ => False
  end.
Proof. by vm_compute. Qed.

(** The parser keeps a key as it stands in the document: a member whose name has
    a character that is escaped is not found under its name. *)
Lemma escaped_member_missing :
  let document := VObject [(VString (B "a\"), VInt 1)] in
  match parse "000" (render show_float document) with
  | Ok t => @get_member _ _ (json_token (get_floating_point comma_after)) _ (@as_signed _ _ (json_token (get_floating_point comma_after)) 32)
              (B "a\") (MkSerializedValue t) = throw OutOfRange
  | _ => False
  end.
Proof. by vm_compute. Qed.
