(* ===== verification/MountPath.v ===== *)
(** lw/http/internal/http_mount_path: the path matchers, the endpoint parser and
    [MountPath::match]. *)
From S2P Require Import Prelude Cxx Strings Headers.

Definition SEP : ascii := "/".

(** [std::regex]: compiled patterns, and the first capture of a match (the
    source asks for it only when the pattern has one).  A capture is part of
    the matched text. *)
Class RegexEngine := {
  regex : Type;
  regex_compile : str → option regex;
  mark_count : regex → nat;
  regex_match : regex → str → option str;
  capture_within : ∀ re s v, regex_match re s = Some v → length v ≤ length s;
}.

(** * Matchers *)

Inductive validator_function := _int_validator_fn | _uint_validator_fn.

Section matchers.
Context `{RE : RegexEngine}.

(** The four classes.  [ParameterPathMatcher] and its subclass keep views into
    their own copy of the chunk. *)
Inductive PathMatcher :=
  | LiteralPathMatcher (_chunk : str)
  | ParameterPathMatcher (_chunk _name _extension : str)
  | ValidatedParameterPathMatcher (_chunk _name _extension : str) (_validator : validator_function)
  | RegexPathMatcher (_name _chunk : str) (_regex : regex).

Definition is_literal (m : PathMatcher) : bool :=
  match m with LiteralPathMatcher _ => true | _ => false end.
Definition matcher_name (m : PathMatcher) : str :=
  match m with
  | LiteralPathMatcher c => c
  | ParameterPathMatcher _ n _ | ValidatedParameterPathMatcher _ n _ _ => n
  | RegexPathMatcher n _ _ => n
  end.
Definition matcher_chunk (m : PathMatcher) : str :=
  match m with
  | LiteralPathMatcher c => c
  | ParameterPathMatcher c _ _ | ValidatedParameterPathMatcher c _ _ _ => c
  | RegexPathMatcher _ c _ => c
  end.

(** [ParameterPathMatcher::match]. *)
Definition parameter_match (extension url_part : str) : option str :=
  if decide (extension = []) then Some url_part
  else if decide (length url_part ≤ length extension) then None
  else
    let cut := length url_part - length extension in
    if CaseInsensitiveEqual extension (drop cut url_part) then Some (take cut url_part) else None.

Definition _uint_validator (url_part : str) : bool := forallb isdigit url_part.

(** [url_part[0]] of an empty view is undefined. *)
Definition _int_validator (url_part : str) : res bool :=
  match url_part with
  | [] => Undef
  | c :: r => Ok (_uint_validator (if decide (c = "-"%char) then r else url_part))
  end.

Definition run_validator (f : validator_function) (url_part : str) : res bool :=
  match f with
  | _int_validator_fn => _int_validator url_part
  | _uint_validator_fn => Ok (_uint_validator url_part)
  end.

Definition validator_for (type : str) : res validator_function :=
  if decide (type = B "int") then Ok _int_validator_fn
  else if decide (type = B "uint") then Ok _uint_validator_fn
  else throw InvalidArgument.

(** [PathMatcher::match]. *)
Definition matcher_match (m : PathMatcher) (url_part : str) : res (option str) :=
  match m with
  | LiteralPathMatcher chunk =>
      Ok (if CaseInsensitiveEqual chunk url_part then Some url_part else None)
  | ParameterPathMatcher _ _ extension => Ok (parameter_match extension url_part)
  | ValidatedParameterPathMatcher _ _ extension validator =>
      match parameter_match extension url_part with
      | Some sub_part =>
          ok ← run_validator validator sub_part; Ok (if (ok : bool) then Some sub_part else None)
      | None => Ok None
      end
  | RegexPathMatcher _ _ re =>
      Ok (match regex_match re url_part with
          | Some capture => Some (if decide (mark_count re = 0) then url_part else capture)
          | None => None
          end)
  end.

(** * The endpoint parser *)

Inductive State :=
  | START | LITERAL | PARAMETER_START | PARAMETER_TYPE | PARAMETER_NAME
  | PARAMETER_EXTENSION | PARAMETER_END | REGEX.

(** The local variables of [parse_into_matchers].  Pointers into the endpoint
    are positions, views are pairs of positions. *)
Record parse_vars := ParseVars {
  state : State;
  name : nat * nat;
  extension : nat * nat;
  type : nat * nat;
  chunk_start : nat;
  name_start : option nat;
  extension_start : nat;
  type_start : nat;
  escaping : bool;
  unnamed_counter : nat;
  matchers : list PathMatcher;
}.

Definition initial_vars : parse_vars :=
  ParseVars START (0, 0) (0, 0) (0, 0) 0 None 0 0 false 0 [].

Definition set_state (s : State) (p : parse_vars) : parse_vars :=
  ParseVars s (name p) (extension p) (type p) (chunk_start p) (name_start p) (extension_start p)
    (type_start p) (escaping p) (unnamed_counter p) (matchers p).
Definition set_chunk_start (i : nat) (p : parse_vars) : parse_vars :=
  ParseVars (state p) (name p) (extension p) (type p) i (name_start p) (extension_start p)
    (type_start p) (escaping p) (unnamed_counter p) (matchers p).
Definition set_name_start (i : option nat) (p : parse_vars) : parse_vars :=
  ParseVars (state p) (name p) (extension p) (type p) (chunk_start p) i (extension_start p)
    (type_start p) (escaping p) (unnamed_counter p) (matchers p).
Definition set_name (v : nat * nat) (p : parse_vars) : parse_vars :=
  ParseVars (state p) v (extension p) (type p) (chunk_start p) (name_start p) (extension_start p)
    (type_start p) (escaping p) (unnamed_counter p) (matchers p).
Definition set_extension (v : nat * nat) (p : parse_vars) : parse_vars :=
  ParseVars (state p) (name p) v (type p) (chunk_start p) (name_start p) (extension_start p)
    (type_start p) (escaping p) (unnamed_counter p) (matchers p).
Definition set_extension_start (i : nat) (p : parse_vars) : parse_vars :=
  ParseVars (state p) (name p) (extension p) (type p) (chunk_start p) (name_start p) i
    (type_start p) (escaping p) (unnamed_counter p) (matchers p).
Definition set_type (v : nat * nat) (p : parse_vars) : parse_vars :=
  ParseVars (state p) (name p) (extension p) v (chunk_start p) (name_start p) (extension_start p)
    (type_start p) (escaping p) (unnamed_counter p) (matchers p).
Definition set_type_start (i : nat) (p : parse_vars) : parse_vars :=
  ParseVars (state p) (name p) (extension p) (type p) (chunk_start p) (name_start p)
    (extension_start p) i (escaping p) (unnamed_counter p) (matchers p).
Definition set_escaping (b : bool) (p : parse_vars) : parse_vars :=
  ParseVars (state p) (name p) (extension p) (type p) (chunk_start p) (name_start p)
    (extension_start p) (type_start p) b (unnamed_counter p) (matchers p).
Definition count_unnamed (p : parse_vars) : parse_vars :=
  ParseVars (state p) (name p) (extension p) (type p) (chunk_start p) (name_start p)
    (extension_start p) (type_start p) (escaping p) (S (unnamed_counter p)) (matchers p).
Definition push_matcher (m : PathMatcher) (p : parse_vars) : parse_vars :=
  ParseVars (state p) (name p) (extension p) (type p) (chunk_start p) (name_start p)
    (extension_start p) (type_start p) (escaping p) (unnamed_counter p) (matchers p ++ [m]).

(** The text of a view into the endpoint. *)
Definition view (endpoint : str) (v : nat * nat) : str := slice endpoint v.1 v.2.

(** The constructor of [ParameterPathMatcher]: the extension is the end of the
    chunk, the name runs from its own offset to the extension. *)
Definition parameter_views (chunk : str) (name_offset : nat) (ext : nat * nat) : str * str :=
  let n := length chunk - (ext.2 - ext.1) in (slice chunk name_offset n, drop n chunk).

(** The end of a parameter, whose chunk stops before position [stop] (twice in
    the source: in [case PARAMETER_END] and after the loop). *)
Definition finish_parameter (endpoint : str) (stop : nat) (p : parse_vars) : res parse_vars :=
  let p := set_name_start None p in
  let chunk := view endpoint (chunk_start p, stop) in
  let '(n, e) := parameter_views chunk ((name p).1 - chunk_start p) (extension p) in
  let t := view endpoint (type p) in
  if decide (t = []) then Ok (push_matcher (ParameterPathMatcher chunk n e) p)
  else f ← validator_for t; Ok (push_matcher (ValidatedParameterPathMatcher chunk n e f) p).

Definition start_case (at_end : bool) (i : nat) (c : ascii) (p : parse_vars) : parse_vars :=
  if at_end || bool_decide (c = SEP) then p
  else set_state (if decide (c = ":"%char) then PARAMETER_START else LITERAL) (set_chunk_start i p).

(** The constructor of [RegexPathMatcher]: the pattern follows the five
    characters [:[re]]. *)
Definition make_regex_matcher (index : nat) (chunk : str) : res PathMatcher :=
  match regex_compile (drop 5 chunk) with
  | Some re => Ok (RegexPathMatcher (show_Z (Z.of_nat index)) chunk re)
  | None => Throw StdRegexError
  end.

(** The body of the loop for position [i] with character [c]. *)
Definition parse_step (endpoint : str) (i : nat) (p : parse_vars) : res parse_vars :=
  let at_end := bool_decide (i = length endpoint) in
  let c := default "000"%char (endpoint !! i) in
  match state p with
  | PARAMETER_END =>
      p ← finish_parameter endpoint (i - 1) p;
      Ok (start_case at_end i c (set_state START p))
  | START => Ok (start_case at_end i c p)
  | LITERAL =>
      if at_end || bool_decide (c = SEP) then
        Ok (set_state START (push_matcher (LiteralPathMatcher (view endpoint (chunk_start p, i))) p))
      else Ok p
  | PARAMETER_START =>
      if at_end then throw InvalidArgument
      else if decide (c = "["%char) then Ok (set_state PARAMETER_TYPE (set_type_start (i + 1) p))
      else if isalnum c then Ok (set_state PARAMETER_NAME (set_name_start (Some i) p))
      else throw InvalidArgument
  | PARAMETER_TYPE =>
      if at_end then throw InvalidArgument
      else if decide (c = "]"%char) then
        let p := set_type (type_start p, i) p in
        if decide (view endpoint (type p) = []) then throw InvalidArgument
        else if decide (view endpoint (type p) = B "re") then Ok (set_state REGEX (count_unnamed p))
        else Ok (set_state PARAMETER_NAME p)
      else Ok p
  | PARAMETER_NAME =>
      let start := default i (name_start p) in
      let p := set_name_start (Some start) p in
      if at_end || bool_decide (c = "."%char ∨ c = SEP) then
        let p := set_name (start, i) p in
        if decide (view endpoint (name p) = []) then throw InvalidArgument
        else if decide (c = "."%char)
        then Ok (set_state PARAMETER_EXTENSION (set_extension_start i p))
        else Ok (set_state PARAMETER_END (set_extension (0, 0) p))
      else if isalnum c then Ok p else throw InvalidArgument
  | PARAMETER_EXTENSION =>
      if at_end || bool_decide (c = SEP) then
        let p := set_extension (extension_start p, i) p in
        if decide (length (view endpoint (extension p)) = 1) then throw InvalidArgument
        else Ok (set_state PARAMETER_END p)
      else if bool_decide (c = "."%char) || isalnum c then Ok p else throw InvalidArgument
  | REGEX =>
      if escaping p then Ok (set_escaping false p)
      else if decide (c = "\"%char) then Ok (set_escaping true p)
      else if at_end || bool_decide (c = SEP) then
        m ← make_regex_matcher (unnamed_counter p) (view endpoint (chunk_start p, i));
        Ok (set_state START (push_matcher m p))
      else Ok p
  end.

Fixpoint parse_from (endpoint : str) (i n : nat) (p : parse_vars) : res parse_vars :=
  match n with
  | 0 => Ok p
  | S n => p ← parse_step endpoint i p; parse_from endpoint (S i) n p
  end.

Definition parse_into_matchers (endpoint : str) : res (list PathMatcher) :=
  p ← parse_from endpoint 0 (S (length endpoint)) initial_vars;
  match state p with
  | PARAMETER_END => p ← finish_parameter endpoint (length endpoint) p; Ok (matchers p)
  | _ => Ok (matchers p)
  end.

(** [MountPath::parse_endpoint]: a mount path is its matchers. *)
Definition parse_endpoint (endpoint : str) : res (list PathMatcher) := parse_into_matchers endpoint.

(** * Matching a whole path *)

(** The loop of [MountPath::match] from position [i] on, where [n] positions are
    left; the result is the parameters, the matchers left and the final [i].  A
    view that starts at a null [part_start] is undefined. *)
Fixpoint match_loop (url_path : str) (i n : nat) (part_start : option nat)
    (ms : list PathMatcher) (parameters : Headers) :
    res (option (Headers * list PathMatcher * nat)) :=
  match n, ms with
  | 0, _ | _, [] => Ok (Some (parameters, ms, i))
  | S n, m :: ms' =>
      if bool_decide (i ≠ length url_path) && bool_decide (url_path !! i ≠ Some SEP) then
        match_loop url_path (S i) n (Some (default i part_start)) ms parameters
      else
        match part_start with
        | None => Undef
        | Some start =>
            let url_part := slice url_path start i in
            if decide (url_part = []) then match_loop url_path (S i) n None ms parameters
            else
              value ← matcher_match m url_part;
              match value with
              | None => Ok None
              | Some value =>
                  match_loop url_path (S i) n None ms'
                    (if is_literal m then parameters
                     else headers_set (matcher_name m) value parameters)
              end
        end
  end.

(** [MountPath::match]. *)
Definition mount_match (ms : list PathMatcher) (url_path : str) : res (option Headers) :=
  result ← match_loop url_path 0 (S (length url_path)) (Some 0) ms [];
  match result with
  | None => Ok None
  | Some (parameters, rest, i) =>
      if bool_decide (i < length url_path ∨ rest ≠ []) then Ok None else Ok (Some parameters)
  end.

(** * Endpoints as segments *)

(** The forms of a path segment. *)
Inductive segment :=
  | SLiteral (s : str)
  | SParameter (ty : option str) (n e : str)
  | SRegex (pattern : str).

Definition segment_text (g : segment) : str :=
  match g with
  | SLiteral s => s
  | SParameter None n e => B ":" ++ n ++ e
  | SParameter (Some t) n e => B ":[" ++ t ++ B "]" ++ n ++ e
  | SRegex r => B ":[re]" ++ r
  end.

Definition endpoint_text (gs : list segment) : str := concat (map (λ g, SEP :: segment_text g) gs).

(** Well-formed segments: names are alphanumeric, an extension has something
    after its point, a regular expression compiles and has no escapes. *)
Definition wf_segment (g : segment) : Prop :=
  match g with
  | SLiteral s => s ≠ [] ∧ head s ≠ Some ":"%char ∧ no_char SEP s = true
  | SParameter t n e =>
      n ≠ [] ∧ forallb isalnum n = true ∧
      (e = [] ∨ ∃ x, e = "."%char :: x ∧ x ≠ [] ∧ forallb (λ c, Ascii.eqb c "." || isalnum c) x = true) ∧
      match t with Some t => t ≠ [] ∧ t ≠ B "re" ∧ no_char "]" t = true | None => True end
  | SRegex r => no_char SEP r = true ∧ no_char "\" r = true ∧ is_Some (regex_compile r)
  end.

(** The matcher of a segment.  [ty] is the type seen last, [index] the number
    of regular expressions so far. *)
Definition segment_matcher (ty : str) (index : nat) (g : segment) : res PathMatcher :=
  match g with
  | SLiteral s => Ok (LiteralPathMatcher s)
  | SParameter t n e =>
      let ty := default ty t in
      if decide (ty = []) then Ok (ParameterPathMatcher (segment_text g) n e)
      else f ← validator_for ty; Ok (ValidatedParameterPathMatcher (segment_text g) n e f)
  | SRegex r => make_regex_matcher (S index) (segment_text g)
  end.
Definition next_type (ty : str) (g : segment) : str :=
  match g with SParameter (Some t) _ _ => t | SRegex _ => B "re" | _ => ty end.
Definition next_index (index : nat) (g : segment) : nat :=
  match g with SRegex _ => S index | _ => index end.

(** What the parser should return, with the type carried from one parameter to
    the next. *)
Fixpoint segments_matchers (ty : str) (index : nat) (gs : list segment) : res (list PathMatcher) :=
  match gs with
  | [] => Ok []
  | g :: gs =>
      m ← segment_matcher ty index g;
      ms ← segments_matchers (next_type ty g) (next_index index g) gs;
      Ok (m :: ms)
  end.

Section parsing.
Context (endpoint : str).

Local Abbreviation occurs := (occurs_in endpoint).

Definition boundary (i : nat) : Prop := endpoint !! i = Some SEP ∨ i = length endpoint.

(** Characters that leave the variables as they are. *)
Lemma parse_run i s n p :
  occurs i s →
  (∀ k c, s !! k = Some c → endpoint !! (i + k) = Some c → i + k < length endpoint →
    parse_step endpoint (i + k) p = Ok p) →
  parse_from endpoint i (length s + n) p = parse_from endpoint (i + length s) n p.
Proof.
  revert i. induction s as [|c s IH]; intros i Ho Hs; cbn [length Nat.add parse_from].
  - by rewrite Nat.add_0_r.
  - destruct (occurs_head _ _ _ Ho) as (Hc & Hlt & Ho').
    pose proof (Hs 0 c eq_refl) as H0. rewrite Nat.add_0_r in H0. rewrite H0 by done.
    cbn [mbind res_bind]. rewrite IH; [f_equal; lia|done|].
    intros k d Hk Hd Hkl. specialize (Hs (S k) d Hk). rewrite Nat.add_succ_r in Hs. by apply Hs.
Qed.

(** A pending parameter is finished when the next position is looked at. *)
Definition settle (j : nat) (p : parse_vars) : res parse_vars :=
  match state p with
  | PARAMETER_END => p ← finish_parameter endpoint (j - 1) p; Ok (set_state START p)
  | _ => Ok p
  end.

Lemma parse_step_settle j p :
  state p = START ∨ state p = PARAMETER_END →
  parse_step endpoint j p = (p ← settle j p; parse_step endpoint j p).
Proof.
  unfold settle, parse_step. intros [E|E]; rewrite E; cbn [mbind res_bind]; [by rewrite E|].
  by destruct (finish_parameter _ _ _) as [p'|e|].
Qed.

Lemma parse_end j p :
  state p = START ∨ state p = PARAMETER_END → j = S (length endpoint) →
  match state p with
  | PARAMETER_END => p ← finish_parameter endpoint (length endpoint) p; Ok (matchers p)
  | _ => Ok (matchers p)
  end = (p ← settle j p; Ok (matchers p)).
Proof.
  intros Hp ->. unfold settle. cbn [Nat.sub]. rewrite Nat.sub_0_r.
  destruct Hp as [-> | ->]; [done|]. by destruct (finish_parameter _ _ _).
Qed.

(** Between two segments. *)
Record settled (p : parse_vars) (ms : list PathMatcher) (ty : str) (index : nat) : Prop := {
  settled_state : state p = START;
  settled_matchers : matchers p = ms;
  settled_type : view endpoint (type p) = ty;
  settled_name : name_start p = None;
  settled_escaping : escaping p = false;
  settled_index : unnamed_counter p = index;
}.

(** After the boundary behind a segment. *)
Definition pending (j : nat) (p : parse_vars) (ms : list PathMatcher) (ty : str) (index : nat)
    (g : segment) : Prop :=
  (state p = START ∨ state p = PARAMETER_END) ∧
  match segment_matcher ty index g with
  | Ok m => ∃ p', settle j p = Ok p' ∧ settled p' (ms ++ [m]) (next_type ty g) (next_index index g)
  | Throw e => settle j p = Throw e
  | Undef => False
  end.

Lemma boundary_step i :
  boundary i → i ≤ length endpoint →
  bool_decide (i = length endpoint) || bool_decide (default "000"%char (endpoint !! i) = SEP) = true.
Proof.
  intros [H| ->] _; [|by rewrite bool_decide_true].
  rewrite H. cbn [default from_option id]. by rewrite (bool_decide_true (SEP = SEP)), orb_true_r.
Qed.

Lemma inside_step i c :
  endpoint !! i = Some c → i < length endpoint → c ≠ SEP →
  bool_decide (i = length endpoint) || bool_decide (default "000"%char (endpoint !! i) = SEP) = false.
Proof. intros H Hi Hc. rewrite H. cbn [default from_option id]. rewrite !bool_decide_false; [done|done|lia]. Qed.

Ltac look H := rewrite H; cbn [default from_option id].

Lemma start_step i c p :
  state p = START → endpoint !! i = Some c → i < length endpoint → c ≠ SEP →
  parse_step endpoint i p
  = Ok (set_state (if decide (c = ":"%char) then PARAMETER_START else LITERAL) (set_chunk_start i p)).
Proof.
  intros Hp Hc Hi Hne. unfold parse_step, start_case. rewrite Hp.
  by rewrite (inside_step i c Hc Hi Hne), Hc.
Qed.

Lemma literal_segment i s n p ms ty index :
  settled p ms ty index → wf_segment (SLiteral s) → occurs i s → boundary (i + length s) →
  ∃ p', parse_from endpoint i (length s + S n) p = parse_from endpoint (S (i + length s)) n p' ∧
    pending (S (i + length s)) p' ms ty index (SLiteral s).
Proof.
  intros [Hst Hms Hty Hns Hes Hix] (Hne & Hhd & Hsep) Ho Hb. destruct s as [|c s]; [done|].
  destruct (occurs_head i c s Ho) as (Hc & Hi & Ho').
  pose proof (no_char_lookup _ _ 0 c Hsep eq_refl) as Hcs.
  set (p1 := set_state LITERAL (set_chunk_start i p)).
  exists (set_state START (push_matcher (LiteralPathMatcher (c :: s)) p1)).
  cbn [length Nat.add parse_from]. rewrite (start_step i c p) by done. cbn [mbind res_bind].
  rewrite decide_False by (intros ->; by destruct Hhd). fold p1.
  assert (length (c :: s) = S (length s)) as El by done. rewrite El in Hb.
  rewrite (parse_run (S i) s); [|done|].
  2: { intros k d Hk Hd Hlt. pose proof (no_char_lookup _ _ (S k) d Hsep Hk).
       unfold parse_step. cbn [state p1 set_state]. by rewrite (inside_step _ d). }
  replace (S i + length s) with (i + S (length s)) by lia. cbn [parse_from].
  assert (parse_step endpoint (i + S (length s)) p1
    = Ok (set_state START (push_matcher (LiteralPathMatcher (c :: s)) p1))) as ->.
  { unfold parse_step. cbn [state p1 set_state]. rewrite boundary_step;
      [|done|destruct Hb as [Hb|Hb]; [apply lookup_lt_Some in Hb|]; lia].
    do 3 f_equal. cbn [chunk_start p1 set_state set_chunk_start].
    f_equal. unfold view. cbn [fst snd]. apply (occurs_slice i (c :: s) Ho). }
  split; [done|]. split; [by left|]. cbn [segment_matcher]. eexists. split; [done|].
  split; cbn; try done. by rewrite Hms.
Qed.

Lemma type_phase i t n p :
  state p = START → t ≠ [] → no_char "]" t = true → occurs i (B ":[" ++ t ++ B "]") →
  let q := set_type (i + 2, i + 2 + length t) (set_state PARAMETER_TYPE (set_type_start (i + 2)
             (set_state PARAMETER_START (set_chunk_start i p)))) in
  parse_from endpoint i (3 + length t + n) p
  = parse_from endpoint (i + 3 + length t) n
      (if decide (t = B "re") then set_state REGEX (count_unnamed q) else set_state PARAMETER_NAME q).
Proof.
  intros Hst Hne Ht Ho q. cbn [B list_ascii_of_string app] in Ho.
  destruct (occurs_head _ _ _ Ho) as (H0 & L0 & Ho1).
  destruct (occurs_head _ _ _ Ho1) as (H1 & L1 & Ho2).
  apply occurs_app in Ho2 as [Ho2 Ho3]. destruct (occurs_head _ _ _ Ho3) as (H3 & L3 & _).
  replace (3 + length t + n) with (S (S (length t + S n))) by lia. cbn [parse_from].
  rewrite (start_step i ":" p) by done. cbn [mbind res_bind].
  assert (parse_step endpoint (S i) (set_state PARAMETER_START (set_chunk_start i p))
    = Ok (set_state PARAMETER_TYPE (set_type_start (i + 2) (set_state PARAMETER_START (set_chunk_start i p))))) as E1.
  { unfold parse_step. cbn [state set_state]. rewrite bool_decide_false by lia. look H1.
    cbn. by replace (S (i + 1)) with (i + 2) by lia. }
  rewrite decide_True by done. rewrite E1. cbn [mbind res_bind].
  rewrite (parse_run (S (S i)) t); [|done|].
  2: { intros k d Hk Hd Hlt. unfold parse_step. cbn [state set_state].
       rewrite bool_decide_false by lia. look Hd. rewrite decide_False; [done|].
       by eapply no_char_lookup. }
  cbn [parse_from]. unfold parse_step at 1. cbn [state set_state]. rewrite bool_decide_false by lia. look H3.
  rewrite (decide_True (P := "]"%char = "]"%char)) by done.
  cbn [type_start set_state set_type_start type set_type].
  assert (view endpoint (i + 2, S (S i) + length t) = t) as Hv.
  { unfold view. cbn [fst snd]. replace (i + 2) with (S (S i)) by lia. by apply occurs_slice. }
  rewrite Hv, decide_False by done. unfold q.
  replace (S (S i) + length t) with (i + 2 + length t) by lia.
  replace (S (i + 2 + length t)) with (i + 3 + length t) by lia.
  by destruct (decide (t = B "re")).
Qed.

(** The rest [n2] of a parameter's name [n1 ++ n2] and its extension. *)
Lemma name_phase start n1 n2 e k p :
  state p = PARAMETER_NAME → (name_start p = Some start ∨ name_start p = None ∧ n1 = [] ∧ n2 ≠ []) →
  occurs start (n1 ++ n2 ++ e) → n1 ++ n2 ≠ [] → forallb isalnum n2 = true →
  (e = [] ∨ ∃ x, e = "."%char :: x ∧ x ≠ [] ∧ forallb (λ c, Ascii.eqb c "." || isalnum c) x = true) →
  boundary (start + length (n1 ++ n2 ++ e)) →
  ∃ ext, ext.2 - ext.1 = length e ∧
  parse_from endpoint (start + length n1) (length (n2 ++ e) + S k) p
  = parse_from endpoint (S (start + length (n1 ++ n2 ++ e))) k
      (set_state PARAMETER_END (set_extension ext (set_extension_start
        (if decide (e = []) then extension_start p else start + length (n1 ++ n2))
        (set_name (start, start + length (n1 ++ n2)) (set_name_start (Some start) p))))).
Proof.
  intros Hst Hns Ho Hne Ha He Hb.
  set (q := set_name_start (Some start) p). set (b := start + length (n1 ++ n2)).
  assert (b = start + length n1 + length n2) as Eb by (unfold b; rewrite length_app; lia).
  pose proof Ho as Ho'. rewrite app_assoc in Ho'. apply occurs_app in Ho' as [Ho12 Hoe].
  pose proof (occurs_slice _ _ Ho12) as Hname. fold b in Hname, Hoe.
  assert (start + length (n1 ++ n2 ++ e) = b + length e) as Eend
    by (unfold b; rewrite !length_app; lia).
  rewrite Eend in *.
  apply occurs_app in Ho12 as [Ho1 Ho2].
  assert (parse_from endpoint (start + length n1) (length (n2 ++ e) + S k) p
    = parse_from endpoint b (length e + S k) q) as ->.
  { rewrite length_app, <- Nat.add_assoc. destruct n2 as [|c n2].
    - rewrite Eb. cbn [length]. rewrite Nat.add_0_r. cbn [Nat.add]. f_equal.
      destruct Hns as [Hns|(_ & _ & ?)]; [|done]. unfold q. destruct p. cbn in Hns. by subst.
    - destruct (occurs_head _ _ _ Ho2) as (Hc & Hlt & Ho2').
      cbn [length Nat.add parse_from].
      assert (parse_step endpoint (start + length n1) p = Ok q) as ->.
      { cbn [forallb] in Ha. bool_hyps. unfold parse_step. rewrite Hst.
        rewrite bool_decide_false by lia. look Hc. rewrite bool_decide_false.
        - cbn [orb]. rewrite H. do 2 f_equal. unfold q. f_equal.
          destruct Hns as [-> | (-> & -> & _)]; [done|]. cbn. f_equal. lia.
        - intros [-> | ->]; done. }
      cbn [mbind res_bind]. rewrite (parse_run (S (start + length n1)) n2); [|done|].
      + f_equal. rewrite Eb. cbn. lia.
      + intros j d Hj Hd Hjl. pose proof (forallb_lookup _ _ (S j) d Ha Hj) as Hal.
        unfold parse_step. unfold q. cbn [state set_name_start]. rewrite Hst.
        rewrite bool_decide_false by lia. look Hd. rewrite bool_decide_false.
        * cbn [orb]. rewrite Hal. by destruct p.
        * intros [-> | ->]; done. }
  assert (view endpoint (start, b) = n1 ++ n2) as Hv by done.
  assert (slice endpoint start b ≠ []) as Hv' by by rewrite Hname.
  destruct He as [-> | (x & -> & Hx & Hxa)].
  - exists (0, 0). split; [done|]. cbn [length]. rewrite Nat.add_0_r. cbn [Nat.add parse_from].
    unfold parse_step at 1. unfold q at 1. cbn [state set_name_start]. rewrite Hst.
    rewrite Nat.add_0_r in Hb.
    assert (default "000"%char (endpoint !! b) ≠ "."%char ∧
      bool_decide (b = length endpoint) || bool_decide (default "000"%char (endpoint !! b) = "."%char
        ∨ default "000"%char (endpoint !! b) = SEP) = true) as [Hdot ->].
    { destruct Hb as [Hb|Hb].
      - rewrite Hb. cbn [default from_option id]. split; [done|]. rewrite (bool_decide_true (_ ∨ _)) by auto. apply orb_true_r.
      - rewrite (bool_decide_true (b = _)) by done. rewrite lookup_ge_None_2 by lia. done. }
    cbn [name_start q set_name_start]. cbn [default from_option id name set_name]. rewrite decide_False by done.
    rewrite decide_False by done. cbn [mbind res_bind]. rewrite decide_True by done. by destruct p.
  - exists (b, b + length ("."%char :: x)). split; [cbn; lia|].
    destruct (occurs_head _ _ _ Hoe) as (Hc & Hlt & Hox).
    cbn [length Nat.add parse_from]. unfold parse_step at 1. unfold q at 1. cbn [state set_name_start].
    rewrite Hst. rewrite bool_decide_false by lia. look Hc. rewrite bool_decide_true by auto.
    cbn [name_start q set_name_start orb]. cbn [default from_option id name set_name].
    rewrite decide_False by done. rewrite decide_True by done. cbn [mbind res_bind].
    rewrite (parse_run (S b) x); [|done|].
    2: { intros j d Hj Hd Hjl. pose proof (forallb_lookup _ _ j d Hxa Hj) as Hal.
         unfold parse_step. cbn [state set_state]. rewrite (inside_step _ d);
           [|done|done|by intros ->]. rewrite Hd. cbn [default from_option id].
         assert (bool_decide (d = "."%char) || isalnum d = true) as ->; [|done].
         apply orb_true_iff in Hal as [->%Ascii.eqb_eq|Hal]; [done|]. rewrite Hal. apply orb_true_r. }
    replace (S b + length x) with (b + S (length x)) by lia. cbn [length] in Hb.
    cbn [parse_from]. unfold parse_step at 1. cbn [state set_state].
    rewrite boundary_step; [|done|destruct Hb as [Hb|Hb]; [apply lookup_lt_Some in Hb|]; lia].
    cbn [extension set_extension extension_start set_extension_start set_state].
    assert (view endpoint (b, b + S (length x)) = "."%char :: x) as ->
      by apply (occurs_slice b ("."%char :: x) Hoe).
    rewrite decide_False by (destruct x; cbn; [done|lia]). cbn [mbind res_bind].
    rewrite (decide_False (P := "."%char :: x = [])) by done. by destruct p.
Qed.

Lemma parameter_views_spec (a n e : str) v :
  v.2 - v.1 = length e → parameter_views (a ++ n ++ e) (length a) v = (n, e).
Proof.
  intros Hv. unfold parameter_views. rewrite Hv.
  assert (length (a ++ n ++ e) - length e = length (a ++ n)) as -> by (rewrite !length_app; lia).
  f_equal.
  - unfold slice. rewrite drop_app_length. rewrite length_app.
    replace (length a + length n - length a) with (length n) by lia. apply take_app_length.
  - rewrite app_assoc. apply drop_app_length.
Qed.

(** A parameter whose name was read after the prefix [a] of its segment. *)
Lemma finish_segment i a n e ext es p q ms ty index t :
  settled p ms ty index → n ≠ [] → occurs i (a ++ n ++ e) → ext.2 - ext.1 = length e →
  state q = PARAMETER_END → chunk_start q = i →
  name q = (i + length a, es) → extension q = ext → view endpoint (type q) = default ty t →
  matchers q = ms → escaping q = false → unnamed_counter q = index →
  segment_text (SParameter t n e) = a ++ n ++ e →
  pending (S (i + length (a ++ n ++ e))) q ms ty index (SParameter t n e).
Proof.
  intros Hp Hn Ho He Hst Hcs Hnm Hext Hty Hms Hes Hix Htx. split; [by right|].
  cbn [segment_matcher]. unfold settle. rewrite Hst. unfold finish_parameter.
  cbn [chunk_start name extension type set_name_start].
  rewrite Hcs, Hnm, Hext. cbn [fst]. replace (i + length a - i) with (length a) by lia.
  replace (S (i + length (a ++ n ++ e)) - 1) with (i + length (a ++ n ++ e)) by lia.
  assert (view endpoint (i, i + length (a ++ n ++ e)) = a ++ n ++ e) as ->
    by by apply (occurs_slice i (a ++ n ++ e)).
  rewrite parameter_views_spec by done. rewrite Hty, Htx.
  assert (∀ m, settled (set_state START (push_matcher m (set_name_start None q))) (ms ++ [m])
    (next_type ty (SParameter t n e)) (next_index index (SParameter t n e))) as Hdone.
  { intros m. split; cbn; rewrite ?Hms, ?Hty; try done. }
  destruct (decide (default ty t = [])); [eexists; by split|].
  unfold validator_for.
  repeat (destruct (decide (_ = B _)); [eexists; by split|]). done.
Qed.

Lemma parameter_segment i t n e k p ms ty index :
  settled p ms ty index → wf_segment (SParameter t n e) →
  occurs i (segment_text (SParameter t n e)) →
  boundary (i + length (segment_text (SParameter t n e))) →
  ∃ q, parse_from endpoint i (length (segment_text (SParameter t n e)) + S k) p
       = parse_from endpoint (S (i + length (segment_text (SParameter t n e)))) k q ∧
    pending (S (i + length (segment_text (SParameter t n e)))) q ms ty index (SParameter t n e).
Proof.
  intros Hp (Hn & Hna & He & Ht) Ho Hb. pose proof Hp as [Hst Hms Hty Hns Hes Hix].
  destruct t as [t|]; cbn [segment_text] in *.
  - destruct Ht as (Htn & Htr & Htc).
    assert (B ":[" ++ t ++ B "]" ++ n ++ e = (B ":[" ++ t ++ B "]") ++ n ++ e) as Eq
      by by rewrite <- !app_assoc.
    rewrite Eq in *. set (a := B ":[" ++ t ++ B "]") in *.
    assert (length a = 3 + length t) as Ea by (unfold a; rewrite !length_app; cbn; lia).
    pose proof Ho as Ho'. apply occurs_app in Ho' as [Hoa Hon].
    rewrite length_app, Ea, <- Nat.add_assoc.
    rewrite (type_phase i t _ p) by done. rewrite decide_False by done.
    set (q0 := set_state PARAMETER_NAME _).
    destruct (name_phase (i + 3 + length t) [] n e k q0) as (ext & Hext & Hrun); try done.
    { by right. }
    { cbn [app]. by rewrite <- Nat.add_assoc, <- Ea. }
    { cbn [app]. rewrite length_app in Hb. by rewrite <- (Nat.add_assoc i), <- Ea, <- Nat.add_assoc. }
    cbn [app length] in Hrun. rewrite Nat.add_0_r in Hrun. rewrite Hrun.
    rewrite (Nat.add_assoc i), (Nat.add_assoc i 3). eexists. split; [done|].
    replace (i + 3 + length t + length (n ++ e)) with (i + length (a ++ n ++ e))
      by (rewrite (length_app a); lia).
    apply (finish_segment i a n e ext (i + 3 + length t + length n) p); try done.
    + cbn [name set_state set_extension set_extension_start set_name]. f_equal. lia.
    + cbn. unfold view. cbn [fst snd]. apply occurs_app in Hoa as [_ Hot].
      apply occurs_app in Hot as [Hot _]. by apply (occurs_slice (i + 2) t).
  - cbn [B list_ascii_of_string app] in *.
    destruct (occurs_head _ _ _ Ho) as (Hc & Hlt & Hon). destruct n as [|c n]; [done|].
    cbn [app] in Hon. destruct (occurs_head _ _ _ Hon) as (Hc' & Hlt' & _).
    cbn [length Nat.add parse_from]. rewrite (start_step i ":" p) by done. cbn [mbind res_bind].
    rewrite decide_True by done. cbn [app length Nat.add parse_from].
    cbn [forallb] in Hna. apply andb_true_iff in Hna as [Hca Hna].
    set (q0 := set_state PARAMETER_NAME (set_name_start (Some (S i))
      (set_state PARAMETER_START (set_chunk_start i p)))).
    assert (parse_step endpoint (S i) (set_state PARAMETER_START (set_chunk_start i p)) = Ok q0) as ->.
    { unfold parse_step. cbn [state set_state]. rewrite bool_decide_false by lia. look Hc'.
      rewrite decide_False by (by intros ->). by rewrite Hca. }
    cbn [mbind res_bind].
    destruct (name_phase (S i) [c] n e k q0) as (ext & Hext & Hrun); try done.
    { by left. }
    { cbn [app length] in *. by replace (S i + S (length (n ++ e))) with (i + S (S (length (n ++ e)))) by lia. }
    cbn [app length] in Hrun. replace (S i + 1) with (S (S i)) in Hrun by lia. rewrite Hrun.
    replace (S i + S (length (n ++ e))) with (i + S (S (length (n ++ e)))) by lia.
    eexists. split; [done|].
    apply (finish_segment i (B ":") (c :: n) e ext (S i + length (c :: n)) p); try done.
    + cbn. f_equal; lia.
Qed.

Lemma regex_segment i r k p ms ty index :
  settled p ms ty index → wf_segment (SRegex r) → occurs i (segment_text (SRegex r)) →
  boundary (i + length (segment_text (SRegex r))) →
  ∃ q, parse_from endpoint i (length (segment_text (SRegex r)) + S k) p
       = parse_from endpoint (S (i + length (segment_text (SRegex r)))) k q ∧
    pending (S (i + length (segment_text (SRegex r)))) q ms ty index (SRegex r).
Proof.
  intros [Hst Hms Hty Hns Hes Hix] (Hrs & Hrb & [re Hre]) Ho Hb.
  cbn [segment_text] in *. pose proof (occurs_slice _ _ Ho) as Hchunk.
  pose proof Ho as Ho'. apply occurs_app in Ho' as [Ho5 Hor].
  assert (length (B ":[re]" ++ r) = 5 + length r) as El by done. rewrite El in *.
  replace (5 + length r + S k) with (3 + length (B "re") + (length r + S k)) by (cbn; lia).
  rewrite (type_phase i (B "re")) by done. rewrite decide_True by done.
  set (q := set_state REGEX _). change (length (B ":[re]")) with 5 in Hor.
  change (length (B "re")) with 2. replace (i + 3 + 2) with (i + 5) by lia.
  rewrite (parse_run (i + 5) r); [|done|].
  2: { intros j d Hj Hd Hjl. pose proof (no_char_lookup _ _ j d Hrs Hj).
       pose proof (no_char_lookup _ _ j d Hrb Hj). unfold parse_step. cbn [state q set_state escaping].
       cbn [escaping count_unnamed set_type set_type_start set_state set_chunk_start]. rewrite Hes.
       rewrite (inside_step _ d) by done. rewrite Hd. cbn [default from_option id].
       by rewrite decide_False. }
  replace (i + (5 + length r)) with (i + 5 + length r) in * by lia. cbn [parse_from].
  assert (parse_step endpoint (i + 5 + length r) q
    = (m ← make_regex_matcher (S index) (B ":[re]" ++ r); Ok (set_state START (push_matcher m q)))) as ->.
  { unfold parse_step. cbn [state q set_state escaping count_unnamed set_type set_type_start set_chunk_start].
    rewrite Hes. rewrite boundary_step;
      [|done|destruct Hb as [Hb|Hb]; [apply lookup_lt_Some in Hb|]; lia].
    rewrite decide_False.
    - cbn [unnamed_counter set_state count_unnamed set_type set_type_start set_chunk_start chunk_start].
      unfold view. cbn [fst snd]. change (unnamed_counter q) with (S (unnamed_counter p)).
      change (chunk_start q) with i. by rewrite Hix, Hchunk.
    - destruct Hb as [Hb|Hb]; [by rewrite Hb|]. by rewrite lookup_ge_None_2 by lia. }
  unfold make_regex_matcher at 1. cbn [drop B list_ascii_of_string app]. rewrite drop_0, Hre.
  cbn [mbind res_bind]. eexists. split; [done|]. split; [by left|].
  cbn [segment_matcher]. unfold make_regex_matcher.
  cbn [drop B list_ascii_of_string app segment_text]. rewrite drop_0, Hre.
  eexists. split; [done|]. split; cbn; rewrite ?Hms, ?Hix; try done.
  unfold view. cbn [fst snd]. apply (occurs_app i (B ":[") (B "re]")) in Ho5 as [_ Ho5].
  apply (occurs_app (i + 2) (B "re") (B "]")) in Ho5 as [Ho5 _]. apply (occurs_slice _ _ Ho5).
Qed.

Lemma one_segment i g k p ms ty index :
  settled p ms ty index → wf_segment g → occurs i (segment_text g) →
  boundary (i + length (segment_text g)) →
  ∃ q, parse_from endpoint i (length (segment_text g) + S k) p
       = parse_from endpoint (S (i + length (segment_text g))) k q ∧
    pending (S (i + length (segment_text g))) q ms ty index g.
Proof.
  destruct g; [by apply literal_segment|by apply parameter_segment|by apply regex_segment].
Qed.

Definition parse_final (r : res parse_vars) : res (list PathMatcher) :=
  p ← r;
  match state p with
  | PARAMETER_END => p ← finish_parameter endpoint (length endpoint) p; Ok (matchers p)
  | _ => Ok (matchers p)
  end.

Lemma parse_from_settle j n p :
  state p = START ∨ state p = PARAMETER_END →
  parse_from endpoint j (S n) p = (p' ← settle j p; parse_from endpoint j (S n) p').
Proof.
  intros Hp. cbn [parse_from]. rewrite parse_step_settle by done. by destruct (settle j p).
Qed.

Lemma segments_run gs : ∀ g j p p' ms ty index,
  state p = START ∨ state p = PARAMETER_END → settle j p = Ok p' → settled p' ms ty index →
  Forall wf_segment (g :: gs) → occurs j (segment_text g ++ endpoint_text gs) →
  length endpoint = j + length (segment_text g ++ endpoint_text gs) →
  parse_final (parse_from endpoint j (S (length endpoint - j)) p)
  = app ms <$> segments_matchers ty index (g :: gs).
Proof.
  induction gs as [|g' gs IH]; intros g j p p' ms ty index Hp Hs Hsd Hwf Ho Hlen;
    apply Forall_cons in Hwf as [Hg Hgs]; apply occurs_app in Ho as [Ho Hor];
    rewrite parse_from_settle, Hs by done; cbn [mbind res_bind];
    rewrite length_app in Hlen.
  - cbn [endpoint_text map concat length] in Hlen.
    replace (S (length endpoint - j)) with (length (segment_text g) + 1) by lia.
    destruct (one_segment j g 0 p' ms ty index) as (q & Hrun & Hq & Hpend); [done..|by right; lia|].
    rewrite Hrun. cbn [parse_from parse_final mbind res_bind].
    rewrite (parse_end (S (j + length (segment_text g)))) by (done || lia).
    cbn [segments_matchers]. destruct (segment_matcher ty index g) as [m|e|]; [|by rewrite Hpend|done].
    destruct Hpend as (q' & -> & Hq'). cbn. by rewrite (settled_matchers _ _ _ _ Hq').
  - change (endpoint_text (g' :: gs)) with (SEP :: segment_text g' ++ endpoint_text gs) in *.
    destruct (occurs_head _ _ _ Hor) as (Hsep & Hlt & Hor').
    cbn [length] in Hlen.
    replace (S (length endpoint - j)) with
      (length (segment_text g) + S (S (length endpoint - S (j + length (segment_text g))))) by lia.
    destruct (one_segment j g (S (length endpoint - S (j + length (segment_text g)))) p' ms ty index)
      as (q & Hrun & Hq & Hpend); [done..|by left|].
    rewrite Hrun. cbn [segments_matchers].
    destruct (segment_matcher ty index g) as [m|e|]; [| |done].
    + destruct Hpend as (q' & Hq1 & Hq2).
      rewrite (IH g' _ q q' _ _ _ Hq Hq1 Hq2 Hgs Hor') by lia. cbn [mbind res_bind segments_matchers].
      destruct (segment_matcher (next_type ty g) _ g') as [m'|e|]; [|done..]. cbn [mbind res_bind].
      destruct (segments_matchers _ _ gs); [|done..]. cbn. by rewrite <- app_assoc.
    + rewrite parse_from_settle by done. by rewrite Hpend.
Qed.
End parsing.

(** * Paths as parts *)

Definition path_text (parts : list str) : str := concat (map (λ part, SEP :: part) parts).
Definition wf_part (part : str) : Prop := part ≠ [] ∧ no_char SEP part = true.

(** Matchers against the parts of a path, one by one. *)
Fixpoint match_parts (ms : list PathMatcher) (parts : list str) (parameters : Headers) :
    res (option Headers) :=
  match ms, parts with
  | [], [] => Ok (Some parameters)
  | [], _ :: _ | _ :: _, [] => Ok None
  | m :: ms, part :: parts =>
      value ← matcher_match m part;
      match value with
      | None => Ok None
      | Some value =>
          match_parts ms parts
            (if is_literal m then parameters else headers_set (matcher_name m) value parameters)
      end
  end.

Lemma parameter_match_nonempty e s v : s ≠ [] → parameter_match e s = Some v → v ≠ [].
Proof.
  unfold parameter_match. intros Hs. destruct (decide (e = [])); [by intros [= <-]|].
  destruct (decide _) as [Hle|Hgt]; [done|]. destruct (CaseInsensitiveEqual _ _); [|done].
  intros [= <-] Hv. apply (f_equal length) in Hv. rewrite length_take in Hv.
  assert (0 < length e) by (destruct e; [done|cbn; lia]). cbn in Hv. lia.
Qed.

(** A matcher is defined, and throws nothing, on every nonempty part. *)
Lemma matcher_match_defined m part : part ≠ [] → ∃ v, matcher_match m part = Ok v.
Proof.
  intros Hp. destruct m as [c|c n e|c n e [|]|n c re]; cbn; eauto;
    destruct (parameter_match e part) as [v|] eqn:E; cbn; eauto.
  pose proof (parameter_match_nonempty _ _ _ Hp E). destruct v; cbn; [done|eauto].
Qed.

Section matching.
Context (url_path : str).

Lemma match_run part n m ms parameters : part ≠ [] → no_char SEP part = true → ∀ j ps,
  occurs_in url_path j part →
  match_loop url_path j (length part + n) ps (m :: ms) parameters
  = match_loop url_path (j + length part) n (Some (default j ps)) (m :: ms) parameters.
Proof.
  induction part as [|c part IH]; intros Hne Hns j ps Ho; [done|].
  destruct (occurs_head _ _ _ Ho) as (Hc & Hlt & Ho').
  cbn [no_char forallb] in Hns. apply andb_true_iff in Hns as [Hcs Hns].
  apply negb_true_iff, Ascii.eqb_neq in Hcs.
  cbn [length Nat.add match_loop]. rewrite Hc, (bool_decide_true (j ≠ _)) by lia.
  rewrite bool_decide_true by congruence. cbn [andb].
  destruct part as [|d part].
  - cbn [length Nat.add]. f_equal. lia.
  - rewrite IH; [|done..]. cbn [default from_option id]. f_equal. cbn. lia.
Qed.

(** A part and the boundary behind it. *)
Lemma match_part part n m ms parameters j :
  wf_part part → occurs_in url_path j part → boundary url_path (j + length part) →
  match_loop url_path j (length part + S n) None (m :: ms) parameters
  = (value ← matcher_match m part;
     match value with
     | None => Ok None
     | Some value =>
         match_loop url_path (S (j + length part)) n None ms
           (if is_literal m then parameters else headers_set (matcher_name m) value parameters)
     end).
Proof.
  intros [Hne Hns] Ho Hb. rewrite match_run by done. cbn [match_loop default from_option id].
  assert (bool_decide (j + length part ≠ length url_path) &&
    bool_decide (url_path !! (j + length part) ≠ Some SEP) = false) as ->.
  { destruct Hb as [Hb|Hb].
    - rewrite Hb, (bool_decide_false (Some SEP ≠ Some SEP)) by (intros H; by apply H). apply andb_false_r.
    - rewrite bool_decide_false by (intros H; by apply H). done. }
  rewrite (occurs_slice _ _ Ho), decide_False by done. done.
Qed.

Lemma match_parts_run parts : ∀ part j ms parameters,
  Forall wf_part (part :: parts) → occurs_in url_path j (part ++ path_text parts) →
  length url_path = j + length (part ++ path_text parts) → ms ≠ [] →
  (result ← match_loop url_path j (S (length url_path - j)) None ms parameters;
   match result with
   | None => Ok None
   | Some (parameters, rest, i) =>
       if bool_decide (i < length url_path ∨ rest ≠ []) then Ok None else Ok (Some parameters)
   end) = match_parts ms (part :: parts) parameters.
Proof.
  induction parts as [|part' parts IH]; intros part j ms parameters Hwf Ho Hlen Hms;
    apply Forall_cons in Hwf as [Hp Hps]; apply occurs_app in Ho as [Ho Hor];
    rewrite length_app in Hlen; destruct ms as [|m ms]; try done.
  - cbn [path_text map concat length] in Hlen.
    replace (S (length url_path - j)) with (length part + 1) by lia.
    rewrite match_part; [|done..|by right; lia]. cbn [match_parts].
    destruct (matcher_match m part) as [[v|]| |]; [|done..]. cbn [mbind res_bind match_loop].
    destruct ms; [rewrite bool_decide_false by (intros [?|?]; [lia|done])|
      rewrite bool_decide_true by by right]; done.
  - change (path_text (part' :: parts)) with (SEP :: part' ++ path_text parts) in *.
    destruct (occurs_head _ _ _ Hor) as (Hsep & Hlt & Hor'). cbn [length] in Hlen.
    replace (S (length url_path - j)) with
      (length part + S (S (length url_path - S (j + length part)))) by lia.
    rewrite match_part; [|done..|by left]. cbn [match_parts].
    destruct (matcher_match m part) as [[v|]| |]; [|done..]. cbn [mbind res_bind].
    destruct ms as [|m' ms]; [|apply (IH part'); (done || lia)].
    cbn [match_loop mbind res_bind]. rewrite bool_decide_true; [done|]. left.
    apply Forall_cons in Hps as [[Hne _] _]. rewrite length_app in Hlen.
    destruct part'; [done|]. cbn in Hlen. lia.
Qed.
End matching.

(** The parser on an endpoint with at least one segment. *)
Lemma parse_segments (g : segment) (gs : list segment) :
  Forall wf_segment (g :: gs) →
  parse_endpoint (endpoint_text (g :: gs)) = segments_matchers [] 0 (g :: gs).
Proof.
  intros Hwf. unfold parse_endpoint, parse_into_matchers. fold (parse_final (endpoint_text (g :: gs))
    (parse_from (endpoint_text (g :: gs)) 0 (S (length (endpoint_text (g :: gs)))) initial_vars)).
  set (endpoint := endpoint_text (g :: gs)).
  assert (endpoint = SEP :: segment_text g ++ endpoint_text gs) as He by done.
  assert (parse_step endpoint 0 initial_vars = Ok initial_vars) as H0.
  { unfold parse_step, start_case. cbn [state initial_vars]. rewrite He. cbn [lookup list_lookup default].
    by rewrite orb_true_r. }
  cbn [parse_from]. rewrite H0. cbn [mbind res_bind].
  assert (length endpoint = S (length endpoint - 1)) as -> by (rewrite He; cbn; lia).
  rewrite (segments_run endpoint gs g 1 initial_vars initial_vars [] [] 0); try done.
  - by destruct (segments_matchers [] 0 (g :: gs)).
  - by left.
  - exists [SEP], []. by rewrite app_nil_r.
Qed.

(** Literal segments alone. *)
Lemma literal_matchers ty index names :
  segments_matchers ty index (map SLiteral names) = Ok (map LiteralPathMatcher names).
Proof.
  revert ty. induction names as [|s names IH]; intros ty; [done|].
  cbn [map segments_matchers segment_matcher next_type next_index mbind res_bind]. by rewrite IH.
Qed.

(** * Properties *)

(** C12.  The endpoint parser on every endpoint built from segments: each
    literal, parameter (with a type, an extension, both or neither) and regular
    expression gives its matcher, whose chunk is the segment's text and whose
    name and extension are the segment's; the type of a parameter without one is
    the type seen last, so that after [:[int]a] a plain [:b] is validated as an
    [int] too, and after a regular expression it is rejected. *)
Theorem parse_endpoint_segments (gs : list segment) :
  Forall wf_segment gs →
  parse_endpoint (endpoint_text gs) = segments_matchers [] 0 gs.
Proof. intros Hwf. destruct gs as [|g gs]; [done|by apply parse_segments]. Qed.

(** C11.  [MountPath::match] on a path made of nonempty parts is matching part by
    part: it succeeds with the captured parameters exactly when there are as
    many parts as matchers and each matcher accepts its part, and it is never
    undefined and throws nothing. *)
Theorem mount_match_parts (ms : list PathMatcher) (parts : list str) :
  Forall wf_part parts →
  mount_match ms (path_text parts) = match_parts ms parts [] ∧
  ∃ result, mount_match ms (path_text parts) = Ok result.
Proof.
  intros Hwf. assert (∀ ms parameters, ∃ r, match_parts ms parts parameters = Ok r) as Hdef.
  { clear ms. induction Hwf as [|part parts [Hne _] _ IH]; intros [|m ms] parameters; cbn; eauto.
    destruct (matcher_match_defined m part Hne) as [[v|] ->]; cbn; eauto. }
  enough (mount_match ms (path_text parts) = match_parts ms parts []) as H
    by (rewrite H; split; [done|apply Hdef]).
  unfold mount_match. destruct ms as [|m ms]; [by destruct parts|].
  destruct parts as [|part parts]; [done|].
  set (url_path := path_text (part :: parts)).
  assert (url_path = SEP :: part ++ path_text parts) as He by done.
  assert (match_loop url_path 0 (S (length url_path)) (Some 0) (m :: ms) []
    = match_loop url_path 1 (length url_path) None (m :: ms) []) as ->.
  { cbn [match_loop]. rewrite He. cbn [lookup list_lookup].
    rewrite (bool_decide_false (Some SEP ≠ Some SEP)) by (intros H; by apply H).
    rewrite andb_false_r. done. }
  assert (length url_path = S (length url_path - 1)) as Hl by (rewrite He; cbn; lia).
  rewrite Hl at 1. apply match_parts_run; [done| | |done].
  - exists [SEP], []. by rewrite app_nil_r.
  - rewrite He. cbn. lia.
Qed.
End matchers.

(** A regular expression engine for the examples: a pattern matches itself. *)
Definition literal_engine : RegexEngine.
Proof.
  refine {| regex := str; regex_compile := Some; mark_count := λ _, 0;
    regex_match := λ re s, if decide (re = s) then Some s else None |}.
  intros re s v. destruct (decide (re = s)); [by intros [= ->]|done].
Defined.

Definition sample_segments : list segment :=
  [SLiteral (B "users"); SParameter (Some (B "int")) (B "id") []; SParameter None (B "file") (B ".json")].

Lemma parse_endpoint_segments_witness :
  endpoint_text sample_segments = B "/users/:[int]id/:file.json" ∧
  @parse_endpoint literal_engine (B "/users/:[int]id/:file.json")
  = Ok [LiteralPathMatcher (B "users");
        ValidatedParameterPathMatcher (B ":[int]id") (B "id") [] _int_validator_fn;
        ValidatedParameterPathMatcher (B ":file.json") (B "file") (B ".json") _int_validator_fn].
Proof.
  split; [by vm_compute|].
  etrans; [apply (@parse_endpoint_segments literal_engine sample_segments)|by vm_compute].
  apply Forall_cons; split; [by split_and!|]. apply Forall_cons; split.
  - split_and!; [done|done|by left|done..].
  - apply Forall_singleton. split_and!; [done|done|right; by exists (B "json")|done].
Defined.

Lemma mount_match_parts_witness :
  @mount_match literal_engine
    [LiteralPathMatcher (B "users"); ParameterPathMatcher (B ":id") (B "id") []]
    (path_text [B "USERS"; B "42"]) = Ok (Some [(B "id", B "42")]).
Proof.
  etrans; [apply (@mount_match_parts literal_engine
    [LiteralPathMatcher (B "users"); ParameterPathMatcher (B ":id") (B "id") []]
    [B "USERS"; B "42"])|by vm_compute].
  by repeat constructor.
Defined.

(** A parameter after a regular expression is rejected. *)
Lemma type_leaks_from_regex :
  @parse_endpoint literal_engine (B "/:[re]a/:b") = throw InvalidArgument.
Proof. by vm_compute. Qed.

(** A regular expression that ends in a backslash is dropped without an error. *)
Lemma trailing_escape_drops_regex : @parse_endpoint literal_engine (B "/:[re]a\") = Ok [].
Proof. by vm_compute. Qed.

(** A path whose last part is empty reads a view that starts at a null pointer. *)
Lemma match_trailing_separator `{RE : RegexEngine} (m : PathMatcher) (ms : list PathMatcher) :
  mount_match (m :: ms) (B "/") = Undef.
Proof. done. Qed.

(** A sign alone is an integer. *)
Lemma lone_sign_is_int : _int_validator (B "-") = Ok true.
Proof. done. Qed.
