(* ===== verification/EndpointTrie.v ===== *)
(** lw/http/internal/http_mount_path: the trie that routes a request path to the
    endpoint mounted for it. *)
From S2P Require Import Prelude Cxx Strings Headers MountPath.

Section trie.
Context `{RE : RegexEngine} {Endpoint : Type} (route : Endpoint → str).

(** * The tree *)

(** [TrieNode]: the endpoint, the children by character, and the wildcard with
    the subtree behind it. *)
Inductive TrieNode :=
  | Node (endpoint : option Endpoint) (children : list (ascii * TrieNode))
      (wildcard : option (PathMatcher * TrieNode)).

Definition node_endpoint (n : TrieNode) := match n with Node e _ _ => e end.
Definition node_children (n : TrieNode) := match n with Node _ cs _ => cs end.
Definition node_wildcard (n : TrieNode) := match n with Node _ _ w => w end.

Definition make_node : TrieNode := Node None [] None.

(** [children.find(c)]. *)
Fixpoint find_child (c : ascii) (cs : list (ascii * TrieNode)) : option TrieNode :=
  match cs with
  | [] => None
  | (d, n) :: cs => if Ascii.eqb d c then Some n else find_child c cs
  end.
Definition child (c : ascii) (n : TrieNode) : option TrieNode := find_child c (node_children n).

(** The node with its child under [c] replaced by what a call made of it. *)
Fixpoint replace_child (c : ascii) (m : TrieNode) (cs : list (ascii * TrieNode)) :
    list (ascii * TrieNode) :=
  match cs with
  | [] => [(c, m)]
  | (d, n) :: cs => if Ascii.eqb d c then (d, m) :: cs else (d, n) :: replace_child c m cs
  end.
Definition set_child (c : ascii) (m n : TrieNode) : TrieNode :=
  Node (node_endpoint n) (replace_child c m (node_children n)) (node_wildcard n).
Definition set_endpoint (e : Endpoint) (n : TrieNode) : TrieNode :=
  Node (Some e) (node_children n) (node_wildcard n).
Definition set_wildcard (m : PathMatcher) (w n : TrieNode) : TrieNode :=
  Node (node_endpoint n) (node_children n) (Some (m, w)).

(** The source returns a pointer into the tree and goes on from it; here the
    rest of the work on the reached node is the argument [k]. *)
Definition visit : Type := TrieNode → TrieNode * res ().

(** [_build_literal_path(root, part)]. *)
Fixpoint _build_literal_path (part : str) (k : visit) : visit := λ root,
  match part with
  | [] => k root
  | c :: part =>
      let '(m, r) := _build_literal_path part k (default make_node (child c root)) in
      (set_child c m root, r)
  end.

(** [build_path(mount_path, route)]. *)
Fixpoint build_path (ms : list PathMatcher) (k : visit) : visit :=
  match ms with
  | [] => k
  | matcher :: ms =>
      _build_literal_path [SEP] (λ node,
        if is_literal matcher then _build_literal_path (matcher_chunk matcher) (build_path ms k) node
        else match node_wildcard node with
             | None =>
                 let '(w, r) := build_path ms k make_node in (set_wildcard matcher w node, r)
             | Some (first, w) =>
                 if decide (matcher_chunk first ≠ matcher_chunk matcher)
                 then (node, throw AlreadyExists)
                 else let '(w, r) := build_path ms k w in (set_wildcard first w node, r)
             end)
  end.

(** [insert(mount_path, endpoint)]. *)
Definition insert (ms : list PathMatcher) (endpoint : Endpoint) : ST TrieNode () :=
  build_path ms (λ node,
    match node_endpoint node with
    | Some e =>
        if decide (route e = route endpoint) then (node, throw AlreadyExists)
        else (node, throw AlreadyExists)
    | None => (set_endpoint endpoint node, Ok ())
    end).

(** * The walk *)

Definition wild_stack : Type := list (TrieNode * nat).

(** [path.find(SEP, from)], or the path's size. *)
Fixpoint find_sep (s : str) : nat :=
  match s with [] => 0 | c :: s => if Ascii.eqb c SEP then 0 else S (find_sep s) end.
Definition sep_from (path : str) (from : nat) : nat :=
  Nat.min (from + find_sep (drop from path)) (length path).

(** The [while] loop over [wildcard_stack]: the node to go on from, the next
    position, and the stack and parameters left. *)
Fixpoint backtrack (path : str) (stack : wild_stack) (parameters : Headers) :
    res (option (TrieNode * nat * wild_stack * Headers)) :=
  match stack with
  | [] => Ok None
  | (wild_node, wild_i) :: stack =>
      match node_wildcard wild_node with
      | None => Undef
      | Some (matcher, matched_node) =>
          wild_results ← matcher_match matcher (slice path wild_i (sep_from path (wild_i + 1)));
          match wild_results with
          | Some v =>
              Ok (Some (matched_node, wild_i + length v, stack,
                        headers_set (matcher_name matcher) v parameters))
          | None => backtrack path stack parameters
          end
      end
  end.

Record BaseMatchResult := MatchResult { parameters : Headers; result_node : option TrieNode }.

(** [if (node->wildcard) wildcard_stack.push_back(...)]. *)
Definition push_wild (node : TrieNode) (i : nat) (stack : wild_stack) : wild_stack :=
  if node_wildcard node is Some _ then (node, i) :: stack else stack.

(** The loop of [walk_path]; [None] when the fuel runs out. *)
Fixpoint walk (fuel : nat) (path : str) (node : TrieNode) (i : nat) (stack : wild_stack)
    (params : Headers) : option (res BaseMatchResult) :=
  match fuel with
  | 0 => None
  | S fuel =>
      match path !! i with
      | None => Some (Ok (MatchResult params (Some node)))
      | Some c =>
          let stack := push_wild node i stack in
          match child c node with
          | Some next => walk fuel path next (S i) stack params
          | None =>
              match backtrack path stack params with
              | Ok None => Some (Ok (MatchResult [] None))
              | Ok (Some (next, i, stack, params)) => walk fuel path next i stack params
              | Throw e => Some (Throw e)
              | Undef => Some Undef
              end
          end
      end
  end.

(** The number of nodes of a tree, enough fuel for a walk. *)
Fixpoint node_size (n : TrieNode) : nat :=
  match n with
  | Node _ cs w =>
      S (list_sum (map (λ p, node_size p.2) cs) + match w with Some (_, w) => node_size w | None => 0 end)
  end.

Definition walk_path (root : TrieNode) (path : str) : option (res BaseMatchResult) :=
  walk (node_size root) path root 0 [] [].

(** [match(url_path)]. *)
Definition trie_match (root : TrieNode) (url_path : str) : option (res (option (Headers * Endpoint))) :=
  result ← walk_path root url_path;
  Some (r ← result;
        match result_node r with
        | Some n => match node_endpoint n with
                    | Some e => Ok (Some (parameters r, e))
                    | None => Ok None
                    end
        | None => Ok None
        end).

(** * Termination and definedness *)

Definition wild_size (n : TrieNode) : nat :=
  match node_wildcard n with Some (_, w) => node_size w | None => 0 end.
Definition stack_size (st : wild_stack) : nat := list_sum (map (λ p, wild_size p.1) st).

(** Every node of the stack has a wildcard and a position inside the path. *)
Definition wf_wild_stack (path : str) (st : wild_stack) : Prop :=
  Forall (λ p, is_Some (node_wildcard p.1) ∧ p.2 < length path) st.

Lemma stack_size_cons n i st : stack_size ((n, i) :: st) = wild_size n + stack_size st.
Proof. done. Qed.

Lemma stack_size_app st1 st2 : stack_size (st1 ++ st2) = stack_size st1 + stack_size st2.
Proof. unfold stack_size. by rewrite map_app, list_sum_app. Qed.

Lemma wild_size_lt n m w : node_wildcard n = Some (m, w) → wild_size n = node_size w.
Proof. unfold wild_size. by intros ->. Qed.

Lemma child_size c n m : child c n = Some m → node_size m + wild_size n < node_size n.
Proof.
  destruct n as [e cs w]. unfold child, wild_size. cbn [node_children node_wildcard node_size].
  assert (find_child c cs = Some m → node_size m ≤ list_sum (map (λ p, node_size p.2) cs)) as H.
  { induction cs as [|[d n] cs IH]; [done|]. cbn. destruct (Ascii.eqb d c); [intros [= ->]; lia|].
    intros Hf. specialize (IH Hf). unfold list_sum in IH. lia. }
  intros Hf. specialize (H Hf). destruct w as [[? ?]|]; lia.
Qed.

Lemma node_size_pos n : 0 < node_size n.
Proof. destruct n. cbn. lia. Qed.

Lemma wild_lt_size n : wild_size n < node_size n.
Proof. destruct n as [e cs [[m w]|]]; unfold wild_size; cbn; lia. Qed.

Lemma slice_nonempty path i : i < length path → slice path i (sep_from path (i + 1)) ≠ [].
Proof.
  intros Hi Hs. apply (f_equal length) in Hs. unfold slice, sep_from in Hs.
  rewrite length_take, length_drop in Hs. cbn [length] in Hs. lia.
Qed.

Lemma backtrack_spec path st params :
  wf_wild_stack path st →
  match backtrack path st params with
  | Ok None => True
  | Ok (Some (next, i, st', params')) =>
      ∃ n wi m v st1, st = st1 ++ (n, wi) :: st' ∧ node_wildcard n = Some (m, next) ∧
        matcher_match m (slice path wi (sep_from path (wi + 1))) = Ok (Some v) ∧ i = wi + length v
  | _ => False
  end.
Proof.
  induction 1 as [|[n wi] st [[[m w] Hw] Hi] _ IH]; [done|]. cbn in Hw, Hi. cbn [backtrack]. rewrite Hw.
  destruct (matcher_match_defined m _ (slice_nonempty path wi Hi)) as [[v|] Hv]; rewrite Hv;
    cbn [mbind res_bind].
  - exists n, wi, m, v, []. eauto.
  - destruct (backtrack path st params) as [[[[[? ?] ?] ?]|]| |]; [|done..].
    destruct IH as (n' & wi' & m' & v & st1 & -> & ?). by exists n', wi', m', v, ((n, wi) :: st1).
Qed.

Lemma push_wf path node i st c :
  wf_wild_stack path st → path !! i = Some c →
  wf_wild_stack path (push_wild node i st) ∧
  stack_size (push_wild node i st) = stack_size st + wild_size node.
Proof.
  intros Hst Hi%lookup_lt_Some. unfold push_wild, wild_size. destruct (node_wildcard node) as [[m w]|] eqn:E.
  - split; [constructor; [|done]; cbn; rewrite E; eauto|]. rewrite stack_size_cons. unfold wild_size. rewrite E. lia.
  - split; [done|lia].
Qed.

Lemma walk_total fuel : ∀ path node i st params,
  wf_wild_stack path st → node_size node + stack_size st ≤ fuel →
  ∃ r, walk fuel path node i st params = Some (Ok r).
Proof.
  induction fuel as [|fuel IH]; intros path node i st params Hst Hf;
    [pose proof (node_size_pos node); lia|]. cbn [walk].
  destruct (path !! i) as [c|] eqn:Hi; [|by eexists].
  destruct (push_wf path node i st c Hst Hi) as [Hst' Hsz].
  set (st' := push_wild node i st) in *. clearbody st'.
  destruct (child c node) as [next|] eqn:Hc.
  - apply IH; [done|]. pose proof (child_size _ _ _ Hc). lia.
  - pose proof (backtrack_spec path st' params Hst') as Hb.
    destruct (backtrack path st' params) as [[[[[next j] st''] params']|]| |]; [|by eexists|done..].
    destruct Hb as (n & wi & m & v & st1 & -> & Hw & _ & _).
    apply Forall_app in Hst' as [_ Hst']. apply Forall_cons in Hst' as [_ Hst'].
    apply IH; [done|]. rewrite stack_size_app, stack_size_cons, (wild_size_lt _ _ _ Hw) in Hsz.
    pose proof (wild_lt_size node). lia.
Qed.

(** * Soundness of the walk *)

(** [reaches n s m]: following characters and wildcards from [n] along [s] ends
    in [m].  A wildcard consumes what its matcher returned for the text up to
    the next separator. *)
Inductive reaches : TrieNode → str → TrieNode → Prop :=
  | reaches_here n : reaches n [] n
  | reaches_child n c next s m : child c n = Some next → reaches next s m → reaches n (c :: s) m
  | reaches_wild n matcher next part s v m :
      node_wildcard n = Some (matcher, next) → part ≠ [] → no_char SEP (drop 1 part) = true →
      (s = [] ∨ head s = Some SEP) → matcher_match matcher part = Ok (Some v) →
      reaches next (drop (length v) (part ++ s)) m →
      reaches n (part ++ s) m.

Lemma find_sep_spec s : no_char SEP (take (find_sep s) s) = true ∧
  (drop (find_sep s) s = [] ∨ head (drop (find_sep s) s) = Some SEP) ∧ find_sep s ≤ length s.
Proof.
  unfold no_char. induction s as [|c s (H1 & H2 & H3)]; [by cbn; auto|]. cbn.
  destruct (Ascii.eqb_spec c SEP) as [->|Hne]; cbn; [split_and!; auto; lia|].
  apply Ascii.eqb_neq in Hne. rewrite Hne. split_and!; [done..|lia].
Qed.

Lemma wild_reaches path n wi m next v target :
  wi < length path → node_wildcard n = Some (m, next) →
  matcher_match m (slice path wi (sep_from path (wi + 1))) = Ok (Some v) →
  reaches next (drop (wi + length v) path) target → reaches n (drop wi path) target.
Proof.
  intros Hi Hw Hv Hr.
  pose proof (find_sep_spec (drop (wi + 1) path)) as (H1 & H2 & H3).
  set (k := find_sep (drop (wi + 1) path)) in *. rewrite length_drop in H3.
  assert (sep_from path (wi + 1) = wi + S k) as Es by (unfold sep_from; fold k; lia).
  rewrite Es in Hv. unfold slice in Hv. replace (wi + S k - wi) with (S k) in Hv by lia.
  rewrite drop_drop in H2. replace (wi + 1 + k) with (wi + S k) in H2 by lia.
  assert (drop wi path = take (S k) (drop wi path) ++ drop (wi + S k) path) as Hsplit.
  { by rewrite <- drop_drop, take_drop. }
  rewrite Hsplit. apply (reaches_wild _ m next _ _ v); [done| | |done|done|].
  - intros Hn. apply (f_equal length) in Hn. rewrite length_take, length_drop in Hn. cbn [length] in Hn. lia.
  - rewrite <- H1. f_equal. rewrite <- drop_drop.
    destruct (drop wi path); cbn; [by destruct k|]. by rewrite !drop_0.
  - by rewrite <- Hsplit, drop_drop.
Qed.

(** What is left to walk leads on to the root's walk. *)
Definition leads (root : TrieNode) (path : str) (n : TrieNode) (i : nat) : Prop :=
  ∀ m, reaches n (drop i path) m → reaches root path m.

Lemma walk_sound fuel : ∀ root path node i st params r m,
  wf_wild_stack path st → Forall (λ p, leads root path p.1 p.2) st → leads root path node i →
  walk fuel path node i st params = Some (Ok r) → result_node r = Some m → reaches root path m.
Proof.
  induction fuel as [|fuel IH]; intros root path node i st params r m Hwf Hst Hl Hw Hm; [done|].
  cbn [walk] in Hw. destruct (path !! i) as [c|] eqn:Hi.
  2: { injection Hw as <-. injection Hm as <-. apply Hl.
       apply lookup_ge_None in Hi. rewrite drop_ge by done. constructor. }
  destruct (push_wf path node i st c Hwf Hi) as [Hwf' _].
  assert (Forall (λ p, leads root path p.1 p.2) (push_wild node i st)) as Hst'.
  { unfold push_wild. destruct (node_wildcard node); [by constructor|done]. }
  set (st' := push_wild node i st) in *. clearbody st'.
  destruct (child c node) as [next|] eqn:Hc.
  - eapply IH; [done|done| |done|done]. intros t Ht. apply Hl.
    rewrite (drop_S _ _ _ Hi). by eapply reaches_child.
  - pose proof (backtrack_spec path st' params Hwf') as Hb.
    destruct (backtrack path st' params) as [[[[[next j] st''] params']|]| |];
      [|by injection Hw as <-|done..].
    destruct Hb as (n & wi & mt & v & st1 & -> & Hn & Hv & ->).
    apply Forall_app in Hwf' as [_ Hwf']. apply Forall_cons in Hwf' as [[_ Hlt] Hwf'].
    apply Forall_app in Hst' as [_ Hst']. apply Forall_cons in Hst' as [Hlead Hst'].
    eapply IH; [done|done| |done|done]. intros t Ht. apply Hlead. by eapply wild_reaches.
Qed.

(** * What insertions keep *)

(** The node at the end of a text, by characters only. *)
Fixpoint follow (s : str) (n : TrieNode) : option TrieNode :=
  match s with [] => Some n | c :: s => m ← child c n; follow s m end.
Definition found (s : str) (n : TrieNode) : option Endpoint := n ← follow s n; node_endpoint n.

(** Endpoints found by characters stay where they are. *)
Definition keeps (n n' : TrieNode) : Prop := ∀ s e, found s n = Some e → found s n' = Some e.

Lemma find_replace c d m cs :
  find_child d (replace_child c m cs) = if Ascii.eqb c d then Some m else find_child d cs.
Proof.
  induction cs as [|[x n] cs IH]; cbn; [done|].
  destruct (Ascii.eqb_spec x c) as [->|Hne]; cbn.
  - by destruct (Ascii.eqb c d).
  - rewrite IH. destruct (Ascii.eqb_spec x d) as [->|Hd]; [|done].
    destruct (Ascii.eqb_spec c d); [congruence|done].
Qed.

Lemma found_cons c s n : found (c :: s) n = (m ← child c n; found s m).
Proof. unfold found. cbn. by destruct (child c n). Qed.

Lemma found_set_child c d s m n :
  found (d :: s) (set_child c m n) = if Ascii.eqb c d then found s m else found (d :: s) n.
Proof.
  rewrite found_cons. unfold child. cbn [node_children set_child]. rewrite find_replace.
  destruct (Ascii.eqb c d); [done|]. by rewrite found_cons.
Qed.

Lemma found_make_node s : found s make_node = None.
Proof. by destruct s. Qed.

Lemma build_literal_keeps part k n :
  (∀ m, keeps m (k m).1) → keeps n (_build_literal_path part k n).1.
Proof.
  intros Hk. revert n. induction part as [|c part IH]; intros n; [apply Hk|]. cbn [_build_literal_path].
  specialize (IH (default make_node (child c n))).
  destruct (_build_literal_path part k (default make_node (child c n))) as [m r]. cbn [fst] in *.
  intros s e Hs. destruct s as [|d s]; [done|]. rewrite found_set_child.
  destruct (Ascii.eqb_spec c d) as [<-|]; [|done]. apply IH. rewrite found_cons in Hs.
  by destruct (child c n).
Qed.

Lemma set_wildcard_keeps m w n : keeps n (set_wildcard m w n).
Proof. intros [|c s] e; [done|]. by rewrite !found_cons. Qed.

Lemma build_path_keeps ms k : (∀ m, keeps m (k m).1) → ∀ n, keeps n (build_path ms k n).1.
Proof.
  intros Hk. induction ms as [|matcher ms IH]; intros n; [apply Hk|]. cbn [build_path].
  apply build_literal_keeps. clear n. intros n. destruct (is_literal matcher).
  - by apply build_literal_keeps.
  - destruct (node_wildcard n) as [[first w]|].
    + destruct (decide _); [by intros s e|]. destruct (build_path ms k w). apply set_wildcard_keeps.
    + destruct (build_path ms k make_node). apply set_wildcard_keeps.
Qed.

Lemma insert_keeps ms e n : keeps n (insert ms e n).1.
Proof.
  apply build_path_keeps. clear n. intros n. destruct (node_endpoint n) eqn:E.
  - destruct (decide _); by intros s e'.
  - intros [|c s] e'; [unfold found; cbn; by rewrite E|]. by rewrite !found_cons.
Qed.

(** The endpoints of a tree, and that an insertion adds only its own. *)
Inductive inside (e : Endpoint) : TrieNode → Prop :=
  | inside_here n : node_endpoint n = Some e → inside e n
  | inside_child n c m : child c n = Some m → inside e m → inside e n
  | inside_wild n p m : node_wildcard n = Some (p, m) → inside e m → inside e n.
#[local] Hint Constructors inside : core.

Lemma reaches_inside root path n e : reaches root path n → inside e n → inside e root.
Proof. induction 1; eauto. Qed.

Lemma match_inside root path ps e : trie_match root path = Some (Ok (Some (ps, e))) → inside e root.
Proof.
  unfold trie_match, walk_path. destruct (walk _ _ _ _ _ _) as [[r| |]|] eqn:E; try done. cbn.
  destruct (result_node r) as [n|] eqn:En; [|done].
  destruct (node_endpoint n) as [e'|] eqn:Ee; [|done]. intros [= _ <-].
  apply (reaches_inside root path n); [|by constructor].
  eapply walk_sound; [..|exact E|exact En]; [constructor|constructor|].
  intros m Hm. by rewrite drop_0 in Hm.
Qed.

Lemma inside_make_node e : ¬ inside e make_node.
Proof. by inversion 1. Qed.

(** A visit that adds at most endpoints satisfying [P]. *)
Definition adds (e : Endpoint) (P : Prop) (k : visit) : Prop := ∀ n, inside e (k n).1 → inside e n ∨ P.

Lemma build_literal_adds e P part k : adds e P k → adds e P (_build_literal_path part k).
Proof.
  intros Hk. induction part as [|c part IH]; intros n; [apply Hk|]. cbn [_build_literal_path].
  specialize (IH (default make_node (child c n))).
  destruct (_build_literal_path part k (default make_node (child c n))) as [m r]. cbn [fst] in *.
  assert (inside e m → inside e n ∨ P) as Hm.
  { intros H. destruct (IH H) as [Hi|]; [|auto]. destruct (child c n) eqn:E; [eauto|]. by destruct (inside_make_node e). }
  inversion 1 as [? He|? d m' Hc Hi|? p m' Hw Hi]; subst; cbn in *; [eauto| |eauto].
  unfold child, set_child in Hc. cbn in Hc. rewrite find_replace in Hc.
  destruct (Ascii.eqb c d); [simplify_eq; auto|eauto].
Qed.

Lemma set_wildcard_adds e P m w n : (inside e w → inside e n ∨ P) → inside e (set_wildcard m w n) → inside e n ∨ P.
Proof. intros Hw. inversion 1; subst; cbn in *; simplify_eq; eauto. Qed.

Lemma build_path_adds e P ms k : adds e P k → adds e P (build_path ms k).
Proof.
  intros Hk. induction ms as [|matcher ms IH]; [done|]. cbn [build_path].
  apply build_literal_adds. intros n. destruct (is_literal matcher); [by apply build_literal_adds|].
  destruct (node_wildcard n) as [[first w]|] eqn:E.
  - destruct (decide _); [by left|]. specialize (IH w). destruct (build_path ms k w).
    apply set_wildcard_adds. intros H. destruct (IH H); eauto.
  - specialize (IH make_node). destruct (build_path ms k make_node).
    apply set_wildcard_adds. intros H. destruct (IH H) as [[]%inside_make_node|]; auto.
Qed.

Lemma insert_adds ms e e' n : inside e (insert ms e' n).1 → inside e n ∨ e = e'.
Proof.
  apply (build_path_adds e (e = e')). clear n. intros n. destruct (node_endpoint n) eqn:E.
  - destruct (decide _); auto.
  - cbn. inversion 1; subst; cbn in *; simplify_eq; eauto.
Qed.

(** The text a literal route is stored under. *)
Definition route_text (ms : list PathMatcher) : str := concat (map (λ m, SEP :: matcher_chunk m) ms).

Lemma build_literal_found part k n n' s e :
  (∀ m m', k m = (m', Ok ()) → found s m' = Some e) →
  _build_literal_path part k n = (n', Ok ()) → found (part ++ s) n' = Some e.
Proof.
  intros Hk. revert n n'. induction part as [|c part IH]; intros n n' Hb; [by eapply Hk|].
  cbn [_build_literal_path] in Hb.
  destruct (_build_literal_path part k (default make_node (child c n))) as [m r] eqn:E.
  injection Hb as <- ->. cbn [app]. rewrite found_set_child, Ascii.eqb_refl. by eapply IH.
Qed.

Lemma insert_found ms e n n' :
  forallb is_literal ms = true → insert ms e n = (n', Ok ()) → found (route_text ms) n' = Some e.
Proof.
  unfold insert. revert n n'. induction ms as [|m ms IH]; intros n n' Hl Hi.
  - cbn in Hi. destruct (node_endpoint n); [by destruct (decide _)|]. by injection Hi as <-.
  - cbn [forallb] in Hl. apply andb_true_iff in Hl as [Hm Hl]. cbn [build_path] in Hi.
    change (route_text (m :: ms)) with ([SEP] ++ matcher_chunk m ++ route_text ms).
    eapply build_literal_found; [|exact Hi]. intros a a'. cbn beta. rewrite Hm.
    apply build_literal_found. intros b b'. by apply IH.
Qed.

Lemma walk_follow path params fuel n i st :
  length path - i < fuel → (∃ m, follow (drop i path) n = Some m) → i ≤ length path →
  ∃ m, follow (drop i path) n = Some m ∧
    walk fuel path n i st params = Some (Ok (MatchResult params (Some m))).
Proof.
  revert n i st. induction fuel as [|fuel IH]; intros n i st Hf [m Hm] Hi; [lia|]. cbn [walk].
  destruct (path !! i) as [c|] eqn:Hc.
  - rewrite (drop_S _ _ _ Hc) in *. cbn in Hm. cbn [follow].
    destruct (child c n) as [next|]; [|done]. cbn in Hm |- *.
    apply lookup_lt_Some in Hc. apply IH; [lia|eauto|lia].
  - apply lookup_ge_None in Hc. rewrite drop_ge in * by done. by exists n.
Qed.

Lemma follow_size s n m : follow s n = Some m → length s < node_size n.
Proof.
  revert n. induction s as [|c s IH]; intros n; [intros _; apply node_size_pos|]. cbn.
  destruct (child c n) as [next|] eqn:E; [|done]. cbn. intros Hf%IH.
  pose proof (child_size _ _ _ E). lia.
Qed.

Lemma match_found path n e : found path n = Some e → trie_match n path = Some (Ok (Some ([], e))).
Proof.
  unfold found. intros Hf. destruct (follow path n) as [m|] eqn:E; [|done]. cbn in Hf.
  destruct (walk_follow path [] (node_size n) n 0 []) as (m' & Hm & Hw); [|by exists m; rewrite drop_0|lia|].
  { pose proof (follow_size _ _ _ E). lia. }
  rewrite drop_0, E in Hm. injection Hm as <-.
  unfold trie_match, walk_path. rewrite Hw. cbn. by rewrite Hf.
Qed.

(** A sequence of insertions, the results of the calls aside. *)
Definition insert_all (routes : list (list PathMatcher * Endpoint)) (n : TrieNode) : TrieNode :=
  fold_left (λ n p, (insert p.1 p.2 n).1) routes n.

(** * Properties *)

(** Routing a path always ends, within as many steps as the trie has nodes,
    for every trie and every path; it is never undefined (no matcher sees an
    empty part) and throws nothing. *)
Theorem trie_match_total (root : TrieNode) (path : str) :
  ∃ result, trie_match root path = Some (Ok result).
Proof.
  destruct (walk_total (node_size root) path root 0 [] []) as [r Hr]; [constructor|cbn; lia|].
  unfold trie_match, walk_path. rewrite Hr. cbn.
  destruct (result_node r) as [n|]; [destruct (node_endpoint n)|]; eauto.
Qed.


(** A literal route that was inserted successfully is found by its own
    path, without parameters, whatever else was inserted before it and after
    it, successfully or not. *)
Theorem literal_route_found (before after : list (list PathMatcher * Endpoint))
    (ms : list PathMatcher) (e : Endpoint) (root : TrieNode) :
  forallb is_literal ms = true →
  insert ms e (insert_all before make_node) = (root, Ok ()) →
  trie_match (insert_all after root) (route_text ms) = Some (Ok (Some ([], e))).
Proof.
  intros Hl Hi. apply match_found. apply insert_found in Hi; [|done]. clear Hl.
  revert root Hi. induction after as [|p after IH]; intros root Hi; [done|].
  apply IH. by apply insert_keeps.
Qed.
End trie.
Arguments TrieNode {_} _.

Definition endpoint_trie_sample : @TrieNode literal_engine str :=
  (@insert literal_engine str id [LiteralPathMatcher (B "foo"); LiteralPathMatcher (B "bar")]
    (B "/foo/bar") (@insert_all literal_engine str id
      [([@ParameterPathMatcher literal_engine (B ":x") (B "x") []], B "/:x")] make_node)).1.

Lemma literal_route_found_witness :
  @trie_match literal_engine str endpoint_trie_sample (B "/foo/bar") = Some (Ok (Some ([], B "/foo/bar"))).
Proof.
  apply (@literal_route_found literal_engine str id
    [([@ParameterPathMatcher literal_engine (B ":x") (B "x") []], B "/:x")] []
    [LiteralPathMatcher (B "foo"); LiteralPathMatcher (B "bar")] (B "/foo/bar") endpoint_trie_sample);
    by vm_compute.
Defined.


(** The walk does not go back when the path ends inside literal text: with
    [/foo/bar] and [/:x] mounted, [/foo] is routed nowhere although [/:x]
    accepts it, while [/fox] is routed to [/:x]. *)
Lemma no_backtracking_at_end :
  @trie_match literal_engine str endpoint_trie_sample (B "/foo") = Some (Ok None) ∧
  @trie_match literal_engine str endpoint_trie_sample (B "/fox")
  = Some (Ok (Some ([(B "x", B "fox")], B "/:x"))).
Proof. by split; vm_compute. Qed.

(** A parameter with an extension is accepted by its matcher but never routed:
    the walk goes on at the extension, below which nothing is stored. *)
Lemma extension_not_routed :
  @mount_match literal_engine [ParameterPathMatcher (B ":f.json") (B "f") (B ".json")] (B "/a.json")
  = Ok (Some [(B "f", B "a")]) ∧
  @trie_match literal_engine str
    (@insert literal_engine str id [ParameterPathMatcher (B ":f.json") (B "f") (B ".json")]
       (B "/:f.json") make_node).1 (B "/a.json") = Some (Ok None).
Proof. by split; vm_compute. Qed.

(** Literal text is matched by letter case in the trie, not in a mount path. *)
Lemma case_divergence :
  @mount_match literal_engine [LiteralPathMatcher (B "foo")] (B "/FOO") = Ok (Some []) ∧
  @trie_match literal_engine str
    (@insert literal_engine str id [LiteralPathMatcher (B "foo")] (B "/foo") make_node).1 (B "/FOO")
  = Some (Ok None).
Proof. by split; vm_compute. Qed.
