(* ===== verification/HttpRequest.v ===== *)
(** lw/http/http_request: the request parser and the request object, over any
    connection that implements [BaseCoReader]. *)
From S2P Require Import Prelude Cxx Strings Headers.

(** * The connection (lw/io/co/co.h) *)

(** [BaseCoReader]: what a request needs from its connection; a call that the
    source awaits is one call here. *)
Class BaseCoReader (S : Type) := {
  reader_eof : S → bool;
  reader_good : S → bool;
  reader_read : nat → ST S str;
  reader_read_until : str → nat → ST S str;
}.

(** * Parsing helpers *)

Definition CR : ascii := "013".
Definition LF : ascii := "010".
Definition CRLF : str := [CR; LF].
Definition line_end (c : ascii) : bool := bool_decide (c = CR ∨ c = LF).

(** [is_not_space(header, i)]. *)
Definition is_not_space (header : str) (i : nat) : bool :=
  match header !! i with Some c => negb (isspace c) | None => false end.

(** How many characters satisfy [f] before the first that does not. *)
Fixpoint scan (f : ascii → bool) (s : str) : nat :=
  match s with c :: s => if f c then S (scan f s) else 0 | [] => 0 end.
(** [while (f(header, i)) ++i;] *)
Definition scan_from (f : ascii → bool) (s : str) (i : nat) : nat := i + scan f (drop i s).
Definition not_space (c : ascii) : bool := negb (isspace c).

Definition check_is_space (header : str) (i : nat) : res () :=
  match header !! i with
  | None => throw InvalidArgument
  | Some c => if negb (isspace c) || line_end c then throw InvalidArgument else Ok ()
  end.

Definition check_not_line_end (header : str) (i : nat) : res () :=
  match header !! i with
  | None => throw InvalidArgument
  | Some c => if line_end c then throw InvalidArgument else Ok ()
  end.

Definition insert_view_pairs (view : str) (key_start key_end value_start value_end : nat)
    (pairs : Headers) : res Headers :=
  if decide (key_end ≤ key_start) then Ok pairs
  else
    k ← substr view key_start (key_end - key_start);
    v ← substr view value_start
          (if decide (value_end ≤ value_start) then 0 else value_end - value_start);
    Ok (headers_insert k v pairs).

Record query_vars := QueryVars {
  parsing_key : bool; key_start : nat; key_end : nat; value_start : nat; query_params : Headers;
}.

(** The body of the loop of [parse_query_params] for character [c] at [i]. *)
Definition query_step (params_str : str) (i : nat) (c : ascii) (q : query_vars) : res query_vars :=
  let q := if parsing_key q
           then QueryVars (negb (Ascii.eqb c "=")) (key_start q) i (S i) (query_params q)
           else q in
  if decide (c = "&"%char) then
    pairs ← insert_view_pairs params_str (key_start q) (key_end q) (value_start q) i (query_params q);
    Ok (QueryVars true (S i) (S i) (S i) pairs)
  else Ok q.

Fixpoint query_loop (params_str : str) (i : nat) (s : str) (q : query_vars) : res query_vars :=
  match s with
  | [] => Ok q
  | c :: s => q ← query_step params_str i c q; query_loop params_str (S i) s q
  end.

Definition parse_query_params (params_str : str) (pairs : Headers) : res Headers :=
  q ← query_loop params_str 0 params_str (QueryVars true 0 0 0 pairs);
  let i := length params_str in
  if decide (key_start q ≠ i)
  then insert_view_pairs params_str (key_start q) (key_end q) (value_start q) i (query_params q)
  else Ok (query_params q).

(** [parse_header_line(header_view)]: the pair, and the view after the line.
    The loop to the colon checks each character before it. *)
Definition parse_header_line (header_view : str) : res (str * str * str) :=
  let colon_pos := scan (λ c, negb (Ascii.eqb c ":") && negb (line_end c)) header_view in
  match header_view !! colon_pos with
  | None => throw InvalidArgument
  | Some c =>
      if line_end c then throw InvalidArgument
      else
        let i := scan_from (λ c, isspace c && negb (line_end c)) header_view (S colon_pos) in
        if decide (length header_view ≤ i) then throw InvalidArgument
        else
          match find_str CRLF (drop i header_view) with
          | None => throw InvalidArgument
          | Some n =>
              k ← substr header_view 0 colon_pos;
              v ← substr header_view i n;
              Ok (k, v, drop (i + n + 2) header_view)
          end
  end.

(** * The request object *)

Record HttpRequest := MkRequest {
  _raw_header : str;
  _http_version : str;
  _method : str;
  _path : str;
  _raw_path : str;
  _headers : Headers;
  _query_params : Headers;
  _route_params : Headers;
  _content_length : Z;
}.

Definition make_request : HttpRequest := MkRequest [] [] [] [] [] [] [] [] (-1).

Definition has_header (r : HttpRequest) (name : str) : bool := headers_contains name (_headers r).
(** [std::map::at] throws [std::out_of_range]. *)
Definition map_at (m : Headers) (name : str) : res str :=
  match headers_find name m with Some v => Ok v | None => Throw StdOutOfRange end.
Definition header (r : HttpRequest) (name : str) : res str := map_at (_headers r) name.
Definition has_query_param (r : HttpRequest) (name : str) : bool :=
  headers_contains name (_query_params r).
Definition query_param (r : HttpRequest) (name : str) : res str := map_at (_query_params r) name.
Definition has_route_param (r : HttpRequest) (name : str) : bool :=
  headers_contains name (_route_params r).
Definition route_param (r : HttpRequest) (name : str) : res str := map_at (_route_params r) name.
Definition set_route_params (params : Headers) (r : HttpRequest) : HttpRequest :=
  MkRequest (_raw_header r) (_http_version r) (_method r) (_path r) (_raw_path r) (_headers r)
    (_query_params r) params (_content_length r).
(** [content_length()] converts the [int64_t] to [std::size_t]. *)
Definition content_length (r : HttpRequest) : Z := wrap_u 64 (_content_length r).

Definition set_raw_header (s : str) (r : HttpRequest) : HttpRequest :=
  MkRequest s (_http_version r) (_method r) (_path r) (_raw_path r) (_headers r)
    (_query_params r) (_route_params r) (_content_length r).
Definition set_method (s : str) (r : HttpRequest) : HttpRequest :=
  MkRequest (_raw_header r) (_http_version r) s (_path r) (_raw_path r) (_headers r)
    (_query_params r) (_route_params r) (_content_length r).
Definition set_query_params (m : Headers) (r : HttpRequest) : HttpRequest :=
  MkRequest (_raw_header r) (_http_version r) (_method r) (_path r) (_raw_path r) (_headers r)
    m (_route_params r) (_content_length r).
Definition set_paths (p raw : str) (r : HttpRequest) : HttpRequest :=
  MkRequest (_raw_header r) (_http_version r) (_method r) p raw (_headers r)
    (_query_params r) (_route_params r) (_content_length r).
Definition set_http_version (s : str) (r : HttpRequest) : HttpRequest :=
  MkRequest (_raw_header r) s (_method r) (_path r) (_raw_path r) (_headers r)
    (_query_params r) (_route_params r) (_content_length r).
Definition set_headers (m : Headers) (r : HttpRequest) : HttpRequest :=
  MkRequest (_raw_header r) (_http_version r) (_method r) (_path r) (_raw_path r) m
    (_query_params r) (_route_params r) (_content_length r).
Definition set_content_length (z : Z) (r : HttpRequest) : HttpRequest :=
  MkRequest (_raw_header r) (_http_version r) (_method r) (_path r) (_raw_path r) (_headers r)
    (_query_params r) (_route_params r) z.

(** The query part of [_parse_method_line]: [mark] is the position where the
    path ends; the result is where the target ends. *)
Definition _parse_query (header_view : str) (mark : nat) : ST HttpRequest nat :=
  if decide (header_view !! mark = Some "?"%char) then
    let i := scan_from not_space header_view mark in
    st_res (check_is_space header_view i) ≫= λ _,
    params ← st_res (substr header_view (mark + 1) (i - mark));
    r ← st_get;
    q ← st_res (parse_query_params params (_query_params r));
    st_modify (set_query_params q) ≫= λ _, mret i
  else mret mark.

(** [_parse_method_line(header_view)]: the position after the line. *)
Definition _parse_method_line (header_view : str) : ST HttpRequest nat :=
  let i := scan_from not_space header_view 0 in
  st_res (check_is_space header_view i) ≫= λ _,
  method ← st_res (substr header_view 0 i);
  st_modify (set_method method) ≫= λ _,
  let start := S i in
  let mark := scan_from (λ c, not_space c && negb (Ascii.eqb c "?")) header_view start in
  i ← _parse_query header_view mark;
  st_res (check_is_space header_view i) ≫= λ _,
  path ← st_res (substr header_view start (mark - start));
  raw_path ← st_res (substr header_view start (i - start));
  st_modify (set_paths path raw_path) ≫= λ _,
  let start := S i in
  let i := scan_from not_space header_view start in
  if decide (length header_view ≤ i + 1) then st_throw InvalidArgument
  else
    c ← st_res (char_at header_view i);
    d ← st_res (char_at header_view (i + 1));
    if bool_decide (c ≠ CR ∨ d ≠ LF) then st_throw InvalidArgument
    else
      version ← st_res (substr header_view start (i - start));
      st_modify (set_http_version version) ≫= λ _, mret (i + 2).

(** The loop of [_parse_headers]; a line has at least three characters, so the
    length of the text is enough fuel. *)
Fixpoint headers_loop (fuel : nat) (header_view : str) : ST HttpRequest () :=
  match fuel with
  | 0 => st_res Undef
  | S fuel =>
      if starts_with CRLF header_view then mret ()
      else
        '(k, v, rest) ← st_res (parse_header_line header_view);
        st_modify (λ r, set_headers (headers_insert k v (_headers r)) r) ≫= λ _,
        headers_loop fuel rest
  end.
Definition _parse_headers (header_view : str) : ST HttpRequest () :=
  headers_loop (S (length header_view)) header_view.

Definition CONTENT_LENGTH : str := B "content-length".

Definition _parse_content_length : ST HttpRequest () :=
  r ← st_get;
  if has_header r CONTENT_LENGTH then
    content_length_str ← st_res (header r CONTENT_LENGTH);
    let '(used, _, out) := from_chars INT64_MIN INT64_MAX content_length_str in
    let n := default (_content_length r) out in
    st_put (set_content_length n r) ≫= λ _,
    if bool_decide (used ≠ length content_length_str ∨ (n < 0)%Z) then st_throw InvalidArgument
    else mret ()
  else st_put (set_content_length 0 r).

(** What [read_header] does with the text it read. *)
Definition parse_raw_header (raw : str) : ST HttpRequest () :=
  st_modify (set_raw_header raw) ≫= λ _,
  method_line_end ← _parse_method_line raw;
  _parse_headers (drop method_line_end raw) ≫= λ _,
  _parse_content_length.

Section request.
Context {S : Type} `{!BaseCoReader S}.

(** A call on the connection or on the request, as a call on both. *)
Definition on_connection {A} (m : ST S A) : ST (HttpRequest * S) A := λ p,
  let '(s, a) := m p.2 in ((p.1, s), a).
Definition on_request {A} (m : ST HttpRequest A) : ST (HttpRequest * S) A := λ p,
  let '(r, a) := m p.1 in ((r, p.2), a).

(** [read_header()]. *)
Definition read_header : ST (HttpRequest * S) () :=
  r ← on_request st_get;
  if decide (_raw_header r ≠ []) then st_throw FailedPrecondition
  else
    raw ← on_connection (reader_read_until (CRLF ++ CRLF) 0);
    on_request (parse_raw_header raw).

(** [body()]. *)
Definition body : ST (HttpRequest * S) str :=
  r ← on_request st_get;
  if (content_length r =? 0)%Z then mret []
  else if (content_length r >? 0)%Z then on_connection (reader_read (Z.to_nat (content_length r)))
  else st_throw Internal.
End request.

(** * Only [InvalidArgument] is thrown *)

(** A result that is a value with [Q], or an [InvalidArgument]. *)
Definition valid {A} (Q : A → Prop) (r : res A) : Prop :=
  match r with Ok a => Q a | Throw e => e = LwError InvalidArgument | Undef => False end.
Definition st_valid {S A} (Q : A → Prop) (m : ST S A) : Prop := ∀ s, valid Q (m s).2.

Lemma valid_bind {A C} (Q : A → Prop) (R : C → Prop) (r : res A) (k : A → res C) :
  valid Q r → (∀ a, Q a → valid R (k a)) → valid R (r ≫= k).
Proof. destruct r; cbn; auto. Qed.

Lemma st_valid_bind {S A C} (Q : A → Prop) (R : C → Prop) (m : ST S A) (k : A → ST S C) :
  st_valid Q m → (∀ a, Q a → st_valid R (k a)) → st_valid R (m ≫= k).
Proof.
  unfold st_valid, mbind, ST_bind. intros Hm Hk s. specialize (Hm s).
  destruct (m s) as [s' [a|e|]]; cbn in *; [by apply Hk|done..].
Qed.

Lemma st_valid_res {S A} (Q : A → Prop) (r : res A) : valid Q r → @st_valid S A Q (st_res r).
Proof. by intros ? s. Qed.

Lemma st_valid_ret {S A} (Q : A → Prop) (a : A) : Q a → @st_valid S A Q (mret a).
Proof. by intros ? s. Qed.

Lemma st_valid_modify {S} (f : S → S) : st_valid (λ _, True) (st_modify f).
Proof. by intros s. Qed.

Lemma st_valid_get {S} : st_valid (λ _, True) (@st_get S).
Proof. by intros s. Qed.

Lemma st_valid_throw {S A} (Q : A → Prop) : @st_valid S A Q (st_throw InvalidArgument).
Proof. by intros s. Qed.

#[export] Hint Resolve st_valid_res st_valid_ret st_valid_modify st_valid_get st_valid_throw : lw.

Lemma check_is_space_valid h i : valid (λ _, i < length h) (check_is_space h i).
Proof.
  unfold check_is_space. destruct (h !! i) as [c|] eqn:E; [|done].
  destruct (_ || _); [done|]. by apply lookup_lt_Some in E.
Qed.

Lemma substr_valid s pos n : pos ≤ length s → valid (λ _, True) (substr s pos n).
Proof. intros. unfold substr. by rewrite decide_True. Qed.

Lemma scan_le f s : scan f s ≤ length s.
Proof. induction s as [|c s IH]; cbn; [done|]. destruct (f c); lia. Qed.

Lemma scan_from_le f s i : i ≤ scan_from f s i ∧ (i ≤ length s → scan_from f s i ≤ length s).
Proof.
  unfold scan_from. pose proof (scan_le f (drop i s)). rewrite length_drop in *. lia.
Qed.

Lemma insert_view_pairs_valid view ks ke vs ve pairs :
  ks ≤ length view → vs ≤ length view → valid (λ _, True) (insert_view_pairs view ks ke vs ve pairs).
Proof.
  intros. unfold insert_view_pairs. destruct (decide _); [done|].
  eapply valid_bind; [by apply substr_valid|]. intros k _.
  by eapply valid_bind; [by apply substr_valid|].
Qed.

(** The positions of the query loop stay inside the text. *)
Definition query_inside (s : str) (q : query_vars) : Prop :=
  key_start q ≤ length s ∧ value_start q ≤ length s.

Lemma query_step_valid s i c q :
  i < length s → query_inside s q → valid (query_inside s) (query_step s i c q).
Proof.
  intros Hi [Hk Hv]. unfold query_step, query_inside.
  set (q' := if parsing_key q then _ else q).
  assert (key_start q' ≤ length s ∧ value_start q' ≤ length s) as [Hk' Hv']
    by (unfold q'; destruct (parsing_key q); cbn; lia).
  destruct (decide (c = "&"%char)); [|done].
  eapply valid_bind; [by apply insert_view_pairs_valid|]. intros pairs _. cbn. lia.
Qed.

Lemma query_loop_valid s i t q :
  i + length t = length s → query_inside s q → valid (query_inside s) (query_loop s i t q).
Proof.
  revert i q. induction t as [|c t IH]; intros i q Hi Hq; cbn in *; [done|].
  eapply valid_bind; [apply query_step_valid; [lia|done]|]. intros q' Hq'. apply IH; [lia|done].
Qed.

Lemma parse_query_params_valid s pairs : valid (λ _, True) (parse_query_params s pairs).
Proof.
  unfold parse_query_params. eapply valid_bind; [apply query_loop_valid; [done|split; cbn; lia]|].
  intros q [Hk Hv]. destruct (decide _); [by apply insert_view_pairs_valid|done].
Qed.

Lemma parse_header_line_valid h :
  valid (λ r, length r.2 < length h) (parse_header_line h).
Proof.
  unfold parse_header_line. set (colon := scan _ h).
  destruct (h !! colon) as [c|] eqn:E; [|done]. apply lookup_lt_Some in E.
  destruct (line_end c); [done|]. set (i := scan_from _ h (S colon)).
  destruct (decide (length h ≤ i)) as [|Hi]; [done|].
  destruct (find_str CRLF (drop i h)) as [n|] eqn:F; [|done].
  eapply valid_bind; [apply substr_valid; lia|]. intros k _.
  eapply valid_bind; [apply substr_valid; lia|]. intros v _. cbn. rewrite length_drop. lia.
Qed.

Lemma headers_loop_valid fuel h : length h < fuel → st_valid (λ _, True) (headers_loop fuel h).
Proof.
  revert h. induction fuel as [|fuel IH]; intros h Hf; [lia|]. cbn [headers_loop].
  destruct (starts_with CRLF h); [auto with lw|].
  eapply st_valid_bind; [apply st_valid_res, parse_header_line_valid|]. intros [[k v] rest] Hr.
  cbn in Hr. eapply st_valid_bind; [apply st_valid_modify|]. intros _ _. apply IH. lia.
Qed.

Lemma parse_query_valid h mark :
  mark ≤ length h → st_valid (λ i, mark ≤ i ∧ i ≤ length h) (_parse_query h mark).
Proof.
  intros Hm. unfold _parse_query. destruct (decide _) as [E|]; [|by apply st_valid_ret].
  pose proof (scan_from_le not_space h mark) as [Hle _].
  eapply st_valid_bind; [apply st_valid_res, check_is_space_valid|]. cbn beta. intros _ Hi.
  eapply st_valid_bind; [apply st_valid_res, substr_valid; lia|]. intros params _.
  eapply st_valid_bind; [apply st_valid_get|]. intros r _.
  eapply st_valid_bind; [apply st_valid_res, parse_query_params_valid|]. intros q _.
  eapply st_valid_bind; [apply st_valid_modify|]. intros _ _. apply st_valid_ret. lia.
Qed.

Lemma char_at_valid h i : i < length h → valid (λ _, True) (char_at h i).
Proof.
  intros Hi. unfold char_at. by destruct (lookup_lt_is_Some_2 h i Hi) as [c ->].
Qed.

Lemma parse_method_line_valid h : st_valid (λ _, True) (_parse_method_line h).
Proof.
  unfold _parse_method_line.
  eapply st_valid_bind; [apply st_valid_res, check_is_space_valid|]. cbn beta. intros _ Hi.
  eapply st_valid_bind; [apply st_valid_res, substr_valid; lia|]. intros method _.
  eapply st_valid_bind; [apply st_valid_modify|]. intros _ _.
  set (start := S (scan_from not_space h 0)). set (f := λ c, not_space c && _).
  destruct (scan_from_le f h start) as [Hs1 Hs2].
  eapply st_valid_bind; [apply parse_query_valid; unfold start in *; lia|]. cbn beta. intros i [Hm Hl].
  eapply st_valid_bind; [apply st_valid_res, check_is_space_valid|]. cbn beta. intros _ Hi'.
  eapply st_valid_bind; [apply st_valid_res, substr_valid; lia|]. intros path _.
  eapply st_valid_bind; [apply st_valid_res, substr_valid; lia|]. intros raw _.
  eapply st_valid_bind; [apply st_valid_modify|]. intros _ _.
  destruct (scan_from_le not_space h (S i)) as [Hv1 Hv2].
  destruct (decide _) as [|Hend]; [apply st_valid_throw|].
  eapply st_valid_bind; [apply st_valid_res, char_at_valid; lia|]. intros c _.
  eapply st_valid_bind; [apply st_valid_res, char_at_valid; lia|]. intros d _.
  destruct (bool_decide _); [apply st_valid_throw|].
  eapply st_valid_bind; [apply st_valid_res, substr_valid; lia|]. intros version _.
  eapply st_valid_bind; [apply st_valid_modify|]. intros _ _. by apply st_valid_ret.
Qed.

Lemma parse_content_length_valid : st_valid (λ _, True) _parse_content_length.
Proof.
  intros r. unfold _parse_content_length, st_get, mbind, ST_bind. cbn -[from_chars CONTENT_LENGTH].
  unfold has_header, headers_contains, header, map_at.
  destruct (headers_find CONTENT_LENGTH (_headers r)) as [v|] eqn:E.
  - rewrite bool_decide_true by eauto. cbn -[from_chars CONTENT_LENGTH].
    destruct (from_chars INT64_MIN INT64_MAX v) as [[used err] out].
    unfold st_put. cbn. by destruct (bool_decide _).
  - by rewrite bool_decide_false by by intros [? ?].
Qed.

Lemma parse_raw_header_valid raw : st_valid (λ _, True) (parse_raw_header raw).
Proof.
  unfold parse_raw_header. eapply st_valid_bind; [apply st_valid_modify|]. intros _ _.
  eapply st_valid_bind; [apply parse_method_line_valid|]. intros n _.
  eapply st_valid_bind; [apply headers_loop_valid; rewrite length_drop; lia|]. intros _ _.
  apply parse_content_length_valid.
Qed.

(** * Requests as text *)

(** The items of a query: a name, with a value or without. *)
Definition query_item : Type := str * option str.
Definition item_text (it : query_item) : str :=
  it.1 ++ match it.2 with Some v => "="%char :: v | None => [] end.
Fixpoint query_text (items : list query_item) : str :=
  match items with
  | [] => []
  | [it] => item_text it
  | it :: items => item_text it ++ "&"%char :: query_text items
  end.

Definition wf_item (it : query_item) : Prop :=
  no_char "&" it.1 = true ∧ no_char "=" it.1 = true ∧
  match it.2 with Some v => no_char "&" v = true | None => True end.

(** An item without a name is dropped; a repeated name keeps its first value. *)
Definition insert_item (it : query_item) (m : Headers) : Headers :=
  if decide (it.1 = []) then m else headers_insert it.1 (default [] it.2) m.

(** What the parser reads from the items followed by one more character [sp]:
    the last value, if the last item has one, ends in that character. *)
Fixpoint read_items (sp : ascii) (items : list query_item) (m : Headers) : Headers :=
  match items with
  | [] => m
  | [(k, v)] => insert_item (k, option_map (λ v, v ++ [sp]) v) m
  | it :: items => read_items sp items (insert_item it m)
  end.

Section query.
Context (s : str).

Lemma query_loop_app i t1 t2 q :
  query_loop s i (t1 ++ t2) q = (q ← query_loop s i t1 q; query_loop s (i + length t1) t2 q).
Proof.
  revert i q. induction t1 as [|c t1 IH]; intros i q; cbn; [by rewrite Nat.add_0_r|].
  destruct (query_step s i c q) as [q'| |]; [|done..]. cbn. rewrite IH.
  by rewrite Nat.add_succ_r.
Qed.

Lemma key_run k i ks ke vs m :
  no_char "&" k = true → no_char "=" k = true →
  ∃ ke' vs', query_loop s i k (QueryVars true ks ke vs m) = Ok (QueryVars true ks ke' vs' m).
Proof.
  revert i ke vs. induction k as [|c k IH]; intros i ke vs Ha He; [by eexists _, _|].
  cbn [no_char forallb] in Ha, He. apply andb_true_iff in Ha as [Hca Ha], He as [Hce He].
  cbn [query_loop]. unfold query_step. cbn [parsing_key]. apply negb_true_iff in Hca, Hce.
  rewrite decide_False by by apply Ascii.eqb_neq. cbn [mbind res_bind]. rewrite Hce. by apply IH.
Qed.

Lemma value_run v i q :
  no_char "&" v = true → parsing_key q = false → query_loop s i v q = Ok q.
Proof.
  revert i. induction v as [|c v IH]; intros i Ha Hq; [done|].
  cbn [no_char forallb] in Ha. apply andb_true_iff in Ha as [Hca Ha]. apply negb_true_iff in Hca.
  cbn [query_loop]. unfold query_step. rewrite Hq. rewrite decide_False by by apply Ascii.eqb_neq.
  by apply IH.
Qed.

(** The state after a name and a value, or after a name only. *)
Lemma item_run it i ke vs m c :
  wf_item it → c ≠ "="%char →
  ∃ q, query_loop s i (item_text it) (QueryVars true i ke vs m) = Ok q ∧
    query_step s (i + length (item_text it)) c q
    = query_step s (i + length (item_text it)) c
        (match it.2 with
         | None => QueryVars true i ke vs m
         | Some v => QueryVars false i (i + length it.1) (S (i + length it.1)) m
         end).
Proof.
  destruct it as [k [v|]]; intros (Ha & He & Hv) Hc; cbn [fst snd] in *; unfold item_text; cbn [fst snd].
  - destruct (key_run k i i ke vs m Ha He) as (ke' & vs' & Hk).
    eexists. split; [|reflexivity]. rewrite query_loop_app, Hk. cbn [mbind res_bind query_loop].
    unfold query_step at 1. cbn [parsing_key]. rewrite decide_False by done. cbn [mbind res_bind].
    by apply value_run.
  - destruct (key_run k i i ke vs m Ha He) as (ke' & vs' & Hk). rewrite app_nil_r.
    eexists. split; [exact Hk|]. done.
Qed.

Lemma insert_pairs_spec k v i vs ve m :
  occurs_in s i k → take (ve - vs) (drop vs s) = v → vs ≤ length s →
  insert_view_pairs s i (i + length k) vs ve m = Ok (if decide (k = []) then m else headers_insert k v m).
Proof.
  intros Hk Hv Hvs. unfold insert_view_pairs. destruct (decide (k = [])) as [->|Hne].
  - by rewrite decide_True by (cbn; lia).
  - assert (length k ≠ 0) by (by intros ?%length_zero_iff_nil). rewrite decide_False by lia.
    replace (i + length k - i) with (length k) by lia. rewrite (occurs_substr _ _ Hk).
    cbn [mbind res_bind].
    assert ((if decide (ve ≤ vs) then 0 else ve - vs) = ve - vs) as -> by (destruct (decide _); lia).
    unfold substr. rewrite decide_True by done. cbn. by rewrite Hv.
Qed.

Lemma item_step it rest i ke vs m :
  wf_item it → occurs_in s i (item_text it ++ "&"%char :: rest) →
  query_loop s i (item_text it ++ "&"%char :: rest) (QueryVars true i ke vs m)
  = query_loop s (S (i + length (item_text it))) rest
      (QueryVars true (S (i + length (item_text it))) (S (i + length (item_text it)))
         (S (i + length (item_text it))) (insert_item it m)).
Proof.
  intros Hwf Ho. destruct (item_run it i ke vs m "&" Hwf) as (q & Hq & Hstep); [done|].
  rewrite query_loop_app, Hq. cbn [mbind res_bind query_loop]. rewrite Hstep.
  apply occurs_app in Ho as [Ho Hr]. pose proof (occurs_length _ _ Hr) as Hlen. cbn in Hlen.
  destruct it as [k [v|]]; unfold item_text in *; cbn [fst snd] in *; unfold query_step;
    cbn [parsing_key key_start key_end value_start query_params]; rewrite decide_True by done.
  - pose proof Ho as Ho'. apply occurs_app in Ho' as [Hk Hv].
    destruct (occurs_head _ _ _ Hv) as (_ & _ & Hv'). apply occurs_slice in Hv'. unfold slice in Hv'.
    rewrite length_app in *. cbn [length] in *.
    rewrite (insert_pairs_spec k v) by (done || lia || (etrans; [|exact Hv']; f_equal; lia)).
    done.
  - rewrite app_nil_r in *.
    rewrite (insert_pairs_spec k []) by (done || lia || (replace (i + length k - S (i + length k)) with 0 by lia; apply take_0)).
    done.
Qed.

(** The last item, with the character behind it. *)
Lemma last_item it sp i ke vs m :
  wf_item it → sp ≠ "="%char → sp ≠ "&"%char → occurs_in s i (item_text it ++ [sp]) →
  length s = i + length (item_text it ++ [sp]) →
  (q ← query_loop s i (item_text it ++ [sp]) (QueryVars true i ke vs m);
   if decide (key_start q ≠ length s)
   then insert_view_pairs s (key_start q) (key_end q) (value_start q) (length s) (query_params q)
   else Ok (query_params q)) = Ok (insert_item (it.1, option_map (λ v, v ++ [sp]) it.2) m).
Proof.
  intros Hwf Hs1 Hs2 Ho Hlen. destruct (item_run it i ke vs m sp Hwf Hs1) as (q & Hq & Hstep).
  rewrite query_loop_app, Hq. cbn [mbind res_bind query_loop]. rewrite Hstep.
  rewrite length_app in Hlen. cbn [length] in Hlen.
  destruct it as [k [v|]]; unfold item_text in *; cbn [fst snd option_map] in *; unfold query_step;
    cbn [parsing_key]; rewrite decide_False by done; cbn [mbind res_bind key_start key_end value_start query_params];
    rewrite decide_True by lia.
  - rewrite <- app_assoc in Ho. apply occurs_app in Ho as [Hk Hv]. cbn [app] in Hv.
    destruct (occurs_head _ _ _ Hv) as (_ & _ & Hv'). apply occurs_slice in Hv'. unfold slice in Hv'.
    rewrite !length_app in *. cbn [length] in *.
    by rewrite (insert_pairs_spec k (v ++ [sp])) by (done || lia || (etrans; [|exact Hv']; f_equal; lia)).
  - rewrite app_nil_r in *. apply occurs_app in Ho as [Hk _].
    by rewrite (insert_pairs_spec k []) by (done || lia || (replace (length s - S (i + length k)) with 0 by lia; apply take_0)).
Qed.

Lemma items_run sp items : ∀ it i ke vs m,
  Forall wf_item (it :: items) → sp ≠ "="%char → sp ≠ "&"%char →
  occurs_in s i (query_text (it :: items) ++ [sp]) →
  length s = i + length (query_text (it :: items) ++ [sp]) →
  (q ← query_loop s i (query_text (it :: items) ++ [sp]) (QueryVars true i ke vs m);
   if decide (key_start q ≠ length s)
   then insert_view_pairs s (key_start q) (key_end q) (value_start q) (length s) (query_params q)
   else Ok (query_params q)) = Ok (read_items sp (it :: items) m).
Proof.
  induction items as [|it' items IH]; intros it i ke vs m Hwf Hs1 Hs2 Ho Hlen;
    apply Forall_cons in Hwf as [Hit Hwf].
  - etrans; [by apply (last_item it)|]. by destruct it.
  - change (query_text (it :: it' :: items)) with (item_text it ++ "&"%char :: query_text (it' :: items)) in *.
    rewrite <- app_assoc in *. cbn [app] in *. rewrite item_step by done.
    rewrite length_app in Hlen. cbn [length] in Hlen.
    apply occurs_app in Ho as [_ Ho]. destruct (occurs_head _ _ _ Ho) as (_ & _ & Ho').
    assert (read_items sp (it :: it' :: items) m = read_items sp (it' :: items) (insert_item it m)) as ->
      by by destruct it.
    apply (IH it' (S (i + length (item_text it)))); (done || lia).
Qed.
End query.

Lemma parse_query_text sp items m :
  Forall wf_item items → sp ≠ "="%char → sp ≠ "&"%char →
  parse_query_params (query_text items ++ [sp]) m = Ok (read_items sp items m).
Proof.
  intros Hwf H1 H2. unfold parse_query_params. destruct items as [|it items].
  - cbn. unfold query_step. cbn [parsing_key]. by rewrite decide_False.
  - apply (items_run (query_text (it :: items) ++ [sp])); try done. apply occurs_all.
Qed.

(** A header field: name and value. *)
Definition header_line (h : str * str) : str := h.1 ++ B ": " ++ h.2 ++ CRLF.
Definition wf_header (h : str * str) : Prop :=
  forallb (λ c, negb (Ascii.eqb c ":") && negb (line_end c)) h.1 = true ∧
  no_char CR h.2 = true ∧ (∀ c, head h.2 = Some c → isspace c && negb (line_end c) = false).

Lemma scan_stop f a c r : forallb f a = true → f c = false → scan f (a ++ c :: r) = length a.
Proof.
  induction a as [|x a IH]; cbn; intros Ha Hc; [by rewrite Hc|].
  apply andb_true_iff in Ha as [Hx Ha]. rewrite Hx. f_equal. by apply IH.
Qed.

Lemma find_CRLF v r : no_char CR v = true → find_str CRLF (v ++ CRLF ++ r) = Some (length v).
Proof.
  induction v as [|c v IH]; intros Hv; [done|].
  cbn [no_char forallb] in Hv. apply andb_true_iff in Hv as [Hc Hv]. apply negb_true_iff in Hc.
  cbn [app length]. specialize (IH Hv). cbn [find_str starts_with CRLF].
  rewrite Ascii.eqb_sym, Hc. cbn [andb]. by rewrite IH.
Qed.

Lemma substr_app a b r : substr (a ++ b ++ r) (length a) (length b) = Ok b.
Proof. apply occurs_substr. by exists a, r. Qed.

Lemma parse_header_text h r :
  wf_header h → parse_header_line (header_line h ++ r) = Ok (h.1, h.2, r).
Proof.
  destruct h as [k v]. intros (Hk & Hv & Hhd). cbn [fst snd] in *. unfold parse_header_line, header_line.
  cbn [fst snd]. set (t := (k ++ B ": " ++ v ++ CRLF) ++ r).
  assert (t = k ++ ":"%char :: " "%char :: v ++ CRLF ++ r) as Et
    by (unfold t; by rewrite <- !app_assoc).
  assert (scan (λ c, negb (Ascii.eqb c ":") && negb (line_end c)) t = length k) as ->
    by (rewrite Et; by apply scan_stop).
  assert (t !! length k = Some ":"%char) as ->.
  { rewrite Et, lookup_app_r, Nat.sub_diag by lia. done. }
  change (line_end ":") with false. cbn iota.
  assert (scan_from (λ c, isspace c && negb (line_end c)) t (S (length k)) = length k + 2) as ->.
  { unfold scan_from. rewrite Et.
    replace (drop (S (length k)) (k ++ ":"%char :: " "%char :: v ++ CRLF ++ r)) with
      (" "%char :: v ++ CRLF ++ r).
    - cbn [scan]. change (isspace " " && negb (line_end " ")) with true. cbn iota.
      assert (scan (λ c, isspace c && negb (line_end c)) (v ++ CRLF ++ r) = 0) as ->; [|lia].
      destruct v as [|c v]; [done|]. cbn [app scan]. by rewrite (Hhd c eq_refl).
    - rewrite drop_app_ge by lia. by replace (S (length k) - length k) with 1 by lia. }
  assert (length t = length k + 2 + length v + 2 + length r) as Hl
    by (rewrite Et; repeat (rewrite length_app; cbn [length]); cbn; lia).
  rewrite decide_False by lia.
  assert (drop (length k + 2) t = v ++ CRLF ++ r) as Hd.
  { rewrite Et, drop_app_ge by lia. by replace (length k + 2 - length k) with 2 by lia. }
  rewrite Hd, find_CRLF by done.
  assert (substr t 0 (length k) = Ok k) as -> by (rewrite Et; apply (substr_app [])).
  assert (substr t (length k + 2) (length v) = Ok v) as ->.
  { rewrite Et. apply occurs_substr. exists (k ++ B ": "), (CRLF ++ r).
    rewrite length_app. split; [by rewrite <- app_assoc|done]. }
  cbn [mbind res_bind]. do 2 f_equal.
  rewrite <- Nat.add_assoc, <- drop_drop, Hd, drop_app_ge by lia.
  by replace (length v + 2 - length v) with 2 by lia.
Qed.

Definition read_headers (hs : list (str * str)) (m : Headers) : Headers :=
  fold_left (λ m h, headers_insert h.1 h.2 m) hs m.

Lemma headers_text_loop hs rest fuel r :
  Forall wf_header hs → length hs < fuel →
  headers_loop fuel (concat (map header_line hs) ++ CRLF ++ rest) r
  = (set_headers (read_headers hs (_headers r)) r, Ok ()).
Proof.
  intros Hwf. revert fuel r. induction Hwf as [|h hs Hh Hhs IH]; intros fuel r Hf;
    (destruct fuel as [|fuel]; [cbn in Hf; lia|]).
  - cbn. by destruct r.
  - cbn [map concat headers_loop]. rewrite <- app_assoc.
    assert (starts_with CRLF (header_line h ++ concat (map header_line hs) ++ CRLF ++ rest) = false) as ->.
    { destruct h as [[|c k] v]; [done|]. destruct Hh as (Hk & _). cbn [fst forallb] in Hk.
      apply andb_true_iff in Hk as [[_ Hc]%andb_true_iff _]. unfold header_line. cbn [fst snd app CRLF starts_with].
      destruct (Ascii.eqb_spec CR c) as [<-|]; [done|done]. }
    unfold mbind at 1, ST_bind, st_res. rewrite parse_header_text by done.
    unfold mbind, ST_bind, st_modify. cbn in Hf. rewrite IH by lia. by destruct r.
Qed.

Lemma length_concat_lines hs : length hs ≤ length (concat (map header_line hs)).
Proof.
  induction hs as [|[k v] hs IH]; [done|]. cbn [map concat length]. rewrite length_app.
  assert (0 < length (header_line (k, v))); [|lia].
  unfold header_line. cbn [fst snd]. rewrite !length_app. cbn. lia.
Qed.

(** * The method line *)

Definition target_text (query : option (list query_item)) : str :=
  match query with Some items => "?"%char :: query_text items | None => [] end.
Definition read_query (query : option (list query_item)) : Headers :=
  match query with Some items => read_items " " items [] | None => [] end.

Lemma scan_from_occurs f h i a c r :
  occurs_in h i (a ++ c :: r) → forallb f a = true → f c = false → scan_from f h i = i + length a.
Proof.
  intros (pre & post & -> & ->) Ha Hc. unfold scan_from. rewrite drop_app_length, <- app_assoc.
  cbn [app]. by rewrite scan_stop.
Qed.

Lemma check_space_occurs h i r : occurs_in h i (" "%char :: r) → check_is_space h i = Ok ().
Proof. intros Ho. destruct (occurs_head _ _ _ Ho) as (Hc & _ & _). unfold check_is_space. by rewrite Hc. Qed.

Lemma occurs_substr_app h i j a r : occurs_in h i (a ++ r) → j = length a → substr h i j = Ok a.
Proof. intros Ho ->. apply occurs_app in Ho as [Ho _]. by apply occurs_substr. Qed.

Lemma parse_query_spec h i query r req :
  match query with
  | Some items => Forall wf_item items ∧ forallb not_space (query_text items) = true
  | None => True
  end →
  occurs_in h i (target_text query ++ " "%char :: r) → _query_params req = [] →
  _parse_query h i req
  = (set_query_params (read_query query) req, Ok (i + length (target_text query))).
Proof.
  intros Hq Ho Hr. unfold _parse_query.
  destruct query as [items|]; cbn [target_text read_query] in *.
  - destruct Hq as [Hwf Hns]. destruct (occurs_head _ _ _ Ho) as (Hc & _ & Ho'). rewrite decide_True by done.
    assert (scan_from not_space h i = i + length ("?"%char :: query_text items)) as ->
      by (eapply scan_from_occurs; [exact Ho|by cbn; rewrite Hns|done]).
    pose proof Ho as Hsp. apply occurs_app in Hsp as [_ Hsp].
    unfold mbind, ST_bind, st_res. rewrite (check_space_occurs _ _ _ Hsp).
    rewrite (occurs_substr_app h (i + 1) _ (query_text items ++ [" "%char]) r);
      [|rewrite <- app_assoc; by rewrite Nat.add_1_r|rewrite length_app; cbn; lia].
    unfold st_get. rewrite Hr, parse_query_text by done. done.
  - destruct (occurs_head _ _ _ Ho) as (Hc & _ & _).
    rewrite decide_False by (rewrite Hc; congruence). cbn. rewrite Nat.add_0_r. by destruct req; cbn in *; subst.
Qed.

Definition request_line (method path version : str) (query : option (list query_item)) : str :=
  method ++ " "%char :: path ++ target_text query ++ " "%char :: version ++ CRLF.

Definition wf_line (method path version : str) (query : option (list query_item)) : Prop :=
  forallb not_space method = true ∧
  forallb (λ c, not_space c && negb (Ascii.eqb c "?")) path = true ∧
  forallb not_space version = true ∧
  match query with
  | Some items => Forall wf_item items ∧ forallb not_space (query_text items) = true
  | None => True
  end.

Lemma parse_method_line_text method path version query rest req :
  wf_line method path version query → _query_params req = [] →
  _parse_method_line (request_line method path version query ++ rest) req
  = (set_http_version version (set_paths path (path ++ target_text query)
       (set_query_params (read_query query) (set_method method req))),
     Ok (length (request_line method path version query))).
Proof.
  intros (Hm & Hp & Hv & Hq) Hr. set (h := request_line method path version query ++ rest).
  assert (occurs_in h 0 (method ++ " "%char :: path ++ target_text query ++ " "%char :: version ++ CRLF ++ rest)) as Ho.
  { replace (method ++ _) with h; [apply occurs_all|]. unfold h, request_line.
    repeat (rewrite <- app_assoc || cbn [app]). done. }
  unfold _parse_method_line.
  rewrite (scan_from_occurs _ _ _ _ _ _ Ho Hm) by done. cbn [Nat.add].
  pose proof Ho as Ho1. apply occurs_app in Ho1 as [_ Ho1]. cbn [Nat.add] in Ho1.
  unfold mbind, ST_bind, st_res, st_modify. rewrite (check_space_occurs _ _ _ Ho1).
  rewrite (occurs_substr_app _ _ _ _ _ Ho eq_refl).
  destruct (occurs_head _ _ _ Ho1) as (_ & _ & Ho2).
  assert (scan_from (λ c, not_space c && negb (Ascii.eqb c "?")) h (S (length method))
    = S (length method) + length path) as Hmark.
  { destruct query as [items|]; cbn [target_text app] in Ho2;
      (eapply scan_from_occurs; [exact Ho2|done|done]). }
  rewrite Hmark. pose proof Ho2 as Ho3. apply occurs_app in Ho3 as [_ Ho3].
  rewrite (parse_query_spec _ _ query _ _ Hq Ho3) by done.
  pose proof Ho3 as Ho4. apply occurs_app in Ho4 as [_ Ho4]. rewrite (check_space_occurs _ _ _ Ho4).
  rewrite (occurs_substr_app _ _ _ path _ Ho2) by lia.
  rewrite (occurs_substr_app h _ _ (path ++ target_text query) (" "%char :: version ++ CRLF ++ rest));
    [|rewrite <- app_assoc; exact Ho2|rewrite length_app; lia].
  destruct (occurs_head _ _ _ Ho4) as (_ & _ & Ho5).
  set (st := S (S (length method) + length path + length (target_text query))) in *.
  rewrite (scan_from_occurs not_space h st version CR (LF :: rest)) by done.
  pose proof Ho5 as Ho6. apply occurs_app in Ho6 as [_ Ho6]. cbn [CRLF app] in Ho6.
  destruct (occurs_head _ _ _ Ho6) as (HCR & L1 & Ho7). destruct (occurs_head _ _ _ Ho7) as (HLF & L2 & _).
  rewrite decide_False by lia. unfold char_at. rewrite HCR.
  replace (st + length version + 1) with (S (st + length version)) by lia. rewrite HLF.
  rewrite bool_decide_false by (intros [?|?]; done).
  rewrite (occurs_substr_app h st _ version _ Ho5) by lia.
  unfold mret, ST_ret. do 2 f_equal. unfold request_line, st.
  repeat (rewrite length_app; cbn [length]).
  change (length CRLF) with 2. lia.
Qed.

(** The text of a request. *)
Definition request_text (method path version : str) (query : option (list query_item))
    (hs : list (str * str)) : str :=
  request_line method path version query ++ concat (map header_line hs) ++ CRLF.

(** The value of the content length header, if there is one. *)
Definition declared_length (hs : list (str * str)) (n : Z) : Prop :=
  match headers_find CONTENT_LENGTH (read_headers hs []) with
  | None => n = 0%Z
  | Some v => v = show_Z n ∧ (0 ≤ n ≤ INT64_MAX)%Z
  end.

Lemma parse_request_text (method path version : str) (query : option (list query_item))
    (hs : list (str * str)) (n : Z) :
  wf_line method path version query → Forall wf_header hs → declared_length hs n →
  parse_raw_header (request_text method path version query hs) make_request
  = (MkRequest (request_text method path version query hs) version method path
       (path ++ target_text query) (read_headers hs []) (read_query query) [] n, Ok ()).
Proof.
  intros Hl Hh Hn. unfold parse_raw_header, mbind, ST_bind, st_modify.
  set (raw := request_text method path version query hs).
  pose proof (parse_method_line_text method path version query (concat (map header_line hs) ++ CRLF)
    (set_raw_header raw make_request) Hl eq_refl) as Hline.
  change (request_line method path version query ++ _) with raw in Hline. rewrite Hline.
  assert (drop (length (request_line method path version query)) raw
    = concat (map header_line hs) ++ CRLF ++ []) as -> by (rewrite app_nil_r; apply drop_app_length).
  unfold _parse_headers. rewrite headers_text_loop; [|done|].
  2: { rewrite length_app. pose proof (length_concat_lines hs). cbn. lia. }
  unfold _parse_content_length, st_get, mbind, ST_bind, st_put.
  unfold has_header, headers_contains, header, map_at, declared_length in *.
  cbn -[headers_find read_headers from_chars CONTENT_LENGTH request_text read_query].
  destruct (headers_find CONTENT_LENGTH (read_headers hs [])) as [v|] eqn:E.
  - destruct Hn as [-> Hn]. rewrite bool_decide_true by eauto. cbn -[from_chars request_text read_query show_Z].
    pose proof (from_chars_show INT64_MIN INT64_MAX n []) as Hf. rewrite app_nil_r in Hf.
    rewrite Hf by (done || (unfold INT64_MIN; lia)). cbn [default from_option id].
    by rewrite bool_decide_false by (intros [?|?]; lia).
  - subst n. by rewrite bool_decide_false by by intros [? ?].
Qed.

(** * Properties *)

(** C1.  Reading a request header, whatever bytes arrived: the parser either
    accepts the text or throws [InvalidArgument] — no position it computes ever
    leaves the text, no header it looks up is missing, and it always ends. *)
Theorem parse_raw_header_outcome (raw : str) (r : HttpRequest) :
  (∃ r', parse_raw_header raw r = (r', Ok ())) ∨
  (∃ r', parse_raw_header raw r = (r', throw InvalidArgument)).
Proof.
  pose proof (parse_raw_header_valid raw r) as H.
  destruct (parse_raw_header raw r) as [r' [[]|e|]]; cbn in H; [left|right|done]; exists r'; by rewrite ?H.
Qed.

(** C2.  A request is read back from its text: over any connection that delivers
    the text up to the blank line, [read_header] fills in the method, the path,
    the raw path with its query, the version, the header fields (the first of
    equal names wins), the query parameters and the content length.  The last
    query value carries the space that follows the target. *)
Theorem read_header_text {S} `{!BaseCoReader S} (s s' : S) (method path version : str)
    (query : option (list query_item)) (hs : list (str * str)) (n : Z) :
  wf_line method path version query → Forall wf_header hs → declared_length hs n →
  reader_read_until (CRLF ++ CRLF) 0 s = (s', Ok (request_text method path version query hs)) →
  read_header (make_request, s)
  = ((MkRequest (request_text method path version query hs) version method path
        (path ++ target_text query) (read_headers hs []) (read_query query) [] n, s'), Ok ()).
Proof.
  intros Hl Hh Hn Hread. unfold read_header, mbind, ST_bind, on_request, on_connection, st_get.
  cbn [fst snd]. rewrite decide_False by (intros H; by apply H). cbn [fst snd]. rewrite Hread.
  cbn [fst snd]. by rewrite (parse_request_text _ _ _ _ _ n).
Qed.

(** A connection for the examples: a text that is all there. *)
#[local] Instance text_connection : BaseCoReader str := {|
  reader_eof := λ s, bool_decide (s = []);
  reader_good := λ s, negb (bool_decide (s = []));
  reader_read := λ n s, (drop n s, Ok (take n s));
  reader_read_until := λ pat _ s,
    match find_str pat s with
    | Some n => (drop (n + length pat) s, Ok (take (n + length pat) s))
    | None => (s, Ok [])
    end
|}.

Definition sample_headers : list (str * str) :=
  [(B "Host", B "test.com"); (B "Content-Length", B "42"); (B "HOST", B "other")].

Lemma read_header_text_witness :
  ∃ raw, read_header (make_request,
    request_text (B "GET") (B "/foo") (B "HTTP/1.1") (Some [(B "a", Some (B "1")); (B "b", None); (B "c", Some [])])
      sample_headers ++ B "body")
  = ((MkRequest raw (B "HTTP/1.1") (B "GET") (B "/foo") (B "/foo?a=1&b&c=")
        [(B "Content-Length", B "42"); (B "Host", B "test.com")]
        [(B "a", B "1"); (B "b", []); (B "c", B " ")] [] 42, B "body"), Ok ()).
Proof.
  eexists. etrans; [apply (read_header_text _ (B "body") (B "GET") (B "/foo") (B "HTTP/1.1")
    (Some [(B "a", Some (B "1")); (B "b", None); (B "c", Some [])]) sample_headers 42)|].
  - split_and!; try done. by repeat constructor.
  - repeat (apply Forall_cons; split; [split_and!; [done|done|by intros c [= <-]]|]). done.
  - by vm_compute.
  - by vm_compute.
  - by vm_compute.
Defined.

(** A negative content length is rejected. *)
Lemma negative_content_length :
  (parse_raw_header (request_text (B "GET") (B "/") (B "HTTP/1.1") None
     [(B "Content-Length", B "-1")]) make_request).2 = throw InvalidArgument.
Proof. by vm_compute. Qed.
