(* ===== verification/CoReader.v ===== *)
(** lw/io/co: [CoReader], the buffered reader in front of a source that can be
    awaited. *)
From S2P Require Import Prelude Cxx HttpRequest.

(** * Sources *)

(** lw/io/co/concepts.h, [CoReadable], with what a reader relies on: a read of
    [n] bytes delivers at most [n] bytes, the next ones of the source's stream. *)
Class CoReadable (S : Type) := {
  source_eof : S → bool;
  source_good : S → bool;
  source_read : nat → ST S str;
  stream : S → str;
  source_read_next n s s' d :
    source_read n s = (s', Ok d) → length d ≤ n ∧ stream s = d ++ stream s';
  source_read_failed n s s' r :
    source_read n s = (s', r) → (∀ d, r ≠ Ok d) → stream s' = stream s;
}.

(** The command line flags of the component. *)
Record reader_flags := ReaderFlags {
  initial_read_buffer_size : nat;
  maximum_read_buffer_size : nat;
  read_block_size : nat;
}.

Section reader.
Context (flags : reader_flags) {S : Type} `{!CoReadable S}.

(** * The object *)

(** A non-owning [Buffer]: an offset into the reader's block and a size.  The
    windows start out null; then nothing was read yet. *)
Record window := Window { data : option nat; win_size : nat }.

(** [_source], the bytes of [_buffer] and the two windows into them. *)
Record CoReader := MkReader {
  _source : S;
  _buffer : str;
  _read_window : window;
  _write_window : window;
}.

Definition make_reader (source : S) : CoReader :=
  MkReader source (replicate (initial_read_buffer_size flags) "000"%char)
    (Window None 0) (Window None 0).

(** The bytes a window shows. *)
Definition window_bytes (block : str) (w : window) : str :=
  match data w with Some off => take (win_size w) (drop off block) | None => [] end.
Definition buffered (r : CoReader) : str := window_bytes (_buffer r) (_read_window r).

(** [Buffer::trim_prefix]. *)
Definition trim_prefix (n : nat) (w : window) : res window :=
  if decide (n ≤ win_size w) then Ok (Window ((λ off, off + n) <$> data w) (win_size w - n))
  else throw InvalidArgument.

Definition eof (r : CoReader) : bool :=
  bool_decide (win_size (_read_window r) = 0) && source_eof (_source r).
Definition good (r : CoReader) : bool :=
  negb (bool_decide (win_size (_read_window r) = 0)) || source_good (_source r).

(** * Growing and compacting *)

(** [while (new_size < desired) new_size *= 2;]. *)
Fixpoint double_until (fuel desired new_size : nat) : option nat :=
  if decide (desired ≤ new_size) then Some new_size
  else match fuel with 0 => None | Datatypes.S fuel => double_until fuel desired (new_size * 2) end.

(** Bytes written over the start of a block. *)
Definition copy_in (bytes block : str) : str :=
  take (length block) bytes ++ drop (length bytes) block.

(** [realloc_buffers]; the fuel is enough unless the old buffer is empty, in
    which case the loop of the source does not end. *)
Definition realloc_buffers (desired_total_size : nat) (r : CoReader) : res CoReader :=
  if decide (maximum_read_buffer_size flags < desired_total_size) then throw ResourceExhausted
  else
    match double_until desired_total_size desired_total_size (length (_buffer r) * 2) with
    | None => Undef
    | Some new_size =>
        let new_size := Nat.min new_size (maximum_read_buffer_size flags) in
        let n := win_size (_read_window r) in
        let new_buff := copy_in (buffered r) (replicate new_size "000"%char) in
        write ← trim_prefix n (Window (Some 0) new_size);
        Ok (MkReader (_source r) new_buff (Window (Some 0) n) write)
    end.

(** [adjust_buffers].  The distance of a null read window from the buffer is
    taken to be negative, as on a flat address space. *)
Definition adjust_buffers (desired_write_size : nat) (r : CoReader) : res CoReader :=
  if decide (desired_write_size ≤ win_size (_write_window r)) then Ok r
  else
    let additional_space := desired_write_size - win_size (_write_window r) in
    let room := match data (_read_window r) with
                | Some off => bool_decide (additional_space ≤ off) | None => false end in
    if room then
      let n := win_size (_read_window r) in
      let block := copy_in (buffered r) (_buffer r) in
      write ← trim_prefix n (Window (Some 0) (length (_buffer r)));
      Ok (MkReader (_source r) block (Window (Some 0) n) write)
    else realloc_buffers (length (_buffer r) + additional_space) r.

(** [_load_buffer(limit)]. *)
Definition _load_buffer (limit : nat) : ST CoReader () := λ r,
  match (if decide (win_size (_write_window r) < limit) then adjust_buffers limit r else Ok r) with
  | Ok r =>
      match source_read limit (_source r) with
      | (source, Ok bytes) =>
          match data (_write_window r), trim_prefix (length bytes) (_write_window r) with
          | Some off, Ok write =>
              let block := take off (_buffer r) ++ copy_in bytes (drop off (_buffer r)) in
              (MkReader source block
                 (Window (data (_read_window r)) (win_size (_read_window r) + length bytes)) write,
               Ok ())
          | None, Ok write => (MkReader source (_buffer r) (_read_window r) write, Undef)
          | _, Throw e => (MkReader source (_buffer r) (_read_window r) (_write_window r), Throw e)
          | _, Undef => (r, Undef)
          end
      | (source, Throw e) =>
          (MkReader source (_buffer r) (_read_window r) (_write_window r), Throw e)
      | (source, Undef) => (MkReader source (_buffer r) (_read_window r) (_write_window r), Undef)
      end
  | Throw e => (r, Throw e)
  | Undef => (r, Undef)
  end.

(** The first [n] bytes of the read window, which moves past them. *)
Definition take_window (n : nat) : ST CoReader str := λ r,
  match trim_prefix n (_read_window r) with
  | Ok w => (MkReader (_source r) (_buffer r) w (_write_window r), Ok (take n (buffered r)))
  | Throw e => (r, Throw e)
  | Undef => (r, Undef)
  end.

(** * The reading operations *)

Definition read (bytes : nat) : ST CoReader str :=
  r ← st_get;
  (if decide (win_size (_read_window r) < bytes)
   then _load_buffer (bytes - win_size (_read_window r)) else mret ()) ≫= λ _,
  r ← st_get;
  take_window (Nat.min bytes (win_size (_read_window r))).

(** [if (i >= _read_window.size()) ...] of both loops; [true] when the source
    has ended. *)
Definition fill (limit i : nat) : ST CoReader bool :=
  r ← st_get;
  if decide (win_size (_read_window r) ≤ i) then
    if good r then _load_buffer (limit - i) ≫= λ _, mret false else mret true
  else mret false.

(** [_read_window[i]]: past the window's end lies memory nothing was read
    into. *)
Definition window_at (i : nat) : ST CoReader ascii :=
  r ← st_get; st_res (match buffered r !! i with Some c => Ok c | None => Undef end).

(** The loop of [read_until(c, limit)] with [n] iterations left; after the last
    one the coroutine ends without returning. *)
Fixpoint until_char (c : ascii) (limit i n : nat) : ST CoReader str :=
  match n with
  | 0 => st_res Undef
  | Datatypes.S n =>
      ended ← fill limit i;
      if (ended : bool) then mret []
      else
        d ← window_at i;
        if decide (d = c) then take_window (i + 1) else until_char c limit (i + 1) n
  end.
Definition read_until_char (c : ascii) (limit : nat) : ST CoReader str :=
  let limit := if decide (limit = 0) then read_block_size flags else limit in
  until_char c limit 0 limit.

(** The loop of [read_until(str, limit)]; [str_pos] is the number of characters
    matched so far. *)
Fixpoint until_str (pat : str) (limit str_pos i n : nat) : ST CoReader str :=
  match n with
  | 0 => st_res Undef
  | Datatypes.S n =>
      ended ← fill limit i;
      if (ended : bool) then mret []
      else
        d ← window_at i;
        p ← st_res (match pat !! str_pos with Some p => Ok p | None => Undef end);
        if decide (d = p) then
          if decide (str_pos + 1 = length pat) then take_window (i + 1)
          else until_str pat limit (str_pos + 1) (i + 1) n
        else until_str pat limit 0 (i + 1) n
  end.
Definition read_until_str (pat : str) (limit : nat) : ST CoReader str :=
  let limit := if decide (limit = 0) then read_block_size flags else limit in
  until_str pat limit 0 0 limit.

(** The reader as the connection of a request. *)
#[global] Instance CoReader_BaseCoReader : BaseCoReader CoReader := {|
  reader_eof := eof;
  reader_good := good;
  reader_read := read;
  reader_read_until := read_until_str
|}.

(** * The invariant *)

(** Either nothing was read yet, or the windows lie side by side and reach the
    end of the block. *)
Definition wf_reader (r : CoReader) : Prop :=
  (data (_read_window r) = None ∧ win_size (_read_window r) = 0 ∧
   data (_write_window r) = None ∧ win_size (_write_window r) = 0) ∨
  (∃ off, data (_read_window r) = Some off ∧
     data (_write_window r) = Some (off + win_size (_read_window r)) ∧
     off + win_size (_read_window r) + win_size (_write_window r) = length (_buffer r)).

(** Everything that is still to be read. *)
Definition unread (r : CoReader) : str := buffered r ++ stream (_source r).

Lemma wf_make s : wf_reader (make_reader s).
Proof. by left. Qed.

Lemma buffered_length r : wf_reader r → length (buffered r) = win_size (_read_window r).
Proof.
  unfold buffered, window_bytes. intros [(-> & -> & _)|(off & -> & _ & H)]; [done|].
  rewrite length_take, length_drop. lia.
Qed.

Lemma length_copy_in bytes block : length (copy_in bytes block) = length block.
Proof. unfold copy_in. rewrite length_app, length_take, length_drop. lia. Qed.

Lemma take_copy_in bytes block : length bytes ≤ length block → take (length bytes) (copy_in bytes block) = bytes.
Proof.
  intros. unfold copy_in. rewrite take_app_le by (rewrite length_take; lia).
  rewrite take_take, Nat.min_l by lia. by rewrite take_ge.
Qed.

(** Reallocating and compacting keep the buffered bytes and make room. *)
Definition adjusted (limit : nat) (r r' : CoReader) : Prop :=
  wf_reader r' ∧ buffered r' = buffered r ∧ _source r' = _source r ∧
  limit ≤ win_size (_write_window r') ∧ is_Some (data (_write_window r')).

Lemma moved_wf r block n limit :
  wf_reader r → n = win_size (_read_window r) → n ≤ length block →
  limit ≤ length block - n →
  adjusted limit r (MkReader (_source r) (copy_in (buffered r) block) (Window (Some 0) n)
    (Window (Some (0 + n)) (length block - n))).
Proof.
  intros Hwf -> Hle Hlim. pose proof (buffered_length r Hwf) as Hb. split_and!; cbn; try done; eauto.
  - right. exists 0. cbn. rewrite length_copy_in. split_and!; [done..|lia].
  - change (take (win_size (_read_window r)) (drop 0 (copy_in (buffered r) block)) = buffered r).
    rewrite drop_0, <- Hb. apply take_copy_in. lia.
Qed.

Lemma double_until_spec desired : ∀ fuel new_size n,
  double_until fuel desired new_size = Some n → desired ≤ n.
Proof.
  induction fuel as [|fuel IH]; intros new_size n; cbn; destruct (decide _); intros; simplify_eq; eauto.
Qed.

Lemma double_until_total desired : ∀ fuel new_size,
  0 < new_size → desired ≤ fuel + new_size → is_Some (double_until fuel desired new_size).
Proof.
  induction fuel as [|fuel IH]; intros new_size Hp Hd; cbn; (destruct (decide _); [eauto|]); [lia|].
  apply IH; lia.
Qed.

Lemma realloc_spec desired limit r r' :
  wf_reader r → win_size (_read_window r) + limit ≤ desired →
  realloc_buffers desired r = Ok r' → adjusted limit r r'.
Proof.
  intros Hwf Hd. unfold realloc_buffers. destruct (decide _) as [|Hm]; [done|].
  destruct (double_until _ _ _) as [n|] eqn:E; [|done]. apply double_until_spec in E.
  set (size := Nat.min n (maximum_read_buffer_size flags)).
  assert (desired ≤ size) by (unfold size; lia).
  unfold trim_prefix. cbn [win_size data]. rewrite decide_True by lia. cbn. intros [= <-].
  pose proof (moved_wf r (replicate size "000"%char) _ limit Hwf eq_refl) as Hmv.
  rewrite length_replicate in Hmv. apply Hmv; lia.
Qed.

Lemma adjust_spec limit r r' :
  wf_reader r → win_size (_write_window r) < limit → adjust_buffers limit r = Ok r' →
  adjusted limit r r'.
Proof.
  intros Hwf Hlt. unfold adjust_buffers. rewrite decide_False by lia.
  set (room := match data (_read_window r) with Some _ => _ | None => _ end).
  destruct room eqn:Eroom; unfold room in Eroom.
  - destruct (data (_read_window r)) as [off|] eqn:Ed; [|done]. apply bool_decide_eq_true in Eroom.
    destruct Hwf as [(? & _)|(off' & E1 & E2 & E3)]; [congruence|].
    rewrite Ed in E1. injection E1 as <-.
    unfold trim_prefix. cbn [win_size data]. rewrite decide_True by lia. cbn. intros [= <-].
    apply moved_wf; [right; eauto|done|lia..].
  - apply realloc_spec; [done|].
    destruct Hwf as [(_ & -> & _ & ->)|(off & _ & _ & H)]; lia.
Qed.

Lemma load_spec limit r r' res :
  wf_reader r → 0 < limit → _load_buffer limit r = (r', res) →
  wf_reader r' ∧ unread r' = unread r ∧
  (res = Ok () → win_size (_read_window r) ≤ win_size (_read_window r') ∧
     ∃ d, buffered r' = buffered r ++ d).
Proof.
  intros Hwf Hl. unfold _load_buffer.
  assert (∀ r1, (if decide (win_size (_write_window r) < limit) then adjust_buffers limit r else Ok r) = Ok r1 →
    adjusted limit r r1) as Hadj.
  { intros r1. destruct (decide _); [by apply adjust_spec|]. intros [= <-].
    split_and!; [done..|lia|]. destruct Hwf as [(_ & _ & _ & E)|(? & _ & -> & _)]; [lia|eauto]. }
  destruct (if decide _ then _ else _) as [r1|e|]; [|by intros [= <- <-]..].
  destruct (Hadj r1 eq_refl) as (Hwf1 & Hb & Hs & Hw & off & Ho). clear Hadj.
  destruct (source_read limit (_source r1)) as [source [d|e|]] eqn:Er.
  2-3: assert (stream source = stream (_source r1)) as Hst by (by eapply source_read_failed);
    intros [= <- <-]; split_and!; [exact Hwf1|unfold unread; cbn; by rewrite Hst, Hs, <- Hb|done].
  apply source_read_next in Er as [Hd Hst]. rewrite Ho.
  unfold trim_prefix. rewrite decide_True by lia. rewrite Ho. cbn. intros [= <- <-].
  destruct Hwf1 as [(_ & _ & ? & _)|(off' & E1 & E2 & E3)]; [congruence|].
  rewrite Ho in E2. injection E2 as ->.
  set (n := win_size (_read_window r1)) in *.
  assert (length (take (off' + n) (_buffer r1) ++ copy_in d (drop (off' + n) (_buffer r1)))
    = length (_buffer r1)) as Hlen.
  { rewrite length_app, length_copy_in, length_take, length_drop. lia. }
  set (block := take (off' + n) (_buffer r1) ++ copy_in d (drop (off' + n) (_buffer r1))) in *.
  assert (window_bytes block (Window (Some off') (n + length d)) = buffered r1 ++ d) as Hnew.
  { unfold buffered, window_bytes. cbn [data win_size]. rewrite E1. fold n. unfold block.
    assert (drop off' (take (off' + n) (_buffer r1)) = take n (drop off' (_buffer r1))) as Hdt
      by (rewrite skipn_firstn_comm; f_equal; lia).
    assert (length (take n (drop off' (_buffer r1))) = n) as Hn by (rewrite length_take, length_drop; lia).
    rewrite drop_app_le, Hdt by (rewrite length_take; lia).
    rewrite <- take_take_drop. f_equal.
    - rewrite take_app_le, take_take by lia. f_equal. lia.
    - rewrite drop_app_ge, Hn, Nat.sub_diag, drop_0 by lia.
      apply take_copy_in. rewrite length_drop. lia. }
  assert (wf_reader (MkReader source block (Window (data (_read_window r1)) (n + length d))
    (Window (Some (off' + n + length d)) (win_size (_write_window r1) - length d)))) as Hwf'.
  { right. exists off'. cbn. split_and!; [done|f_equal; lia|lia]. }
  split; [exact Hwf'|]. unfold unread, buffered at 1. cbn [_buffer _read_window _source]. rewrite E1, Hnew. split.
  - rewrite <- app_assoc, <- Hst, Hs. by rewrite <- Hb.
  - intros _. cbn. pose proof (buffered_length r Hwf) as H1. split.
    + rewrite <- H1, <- Hb, (buffered_length r1) by (right; eauto). fold n. lia.
    + exists d. change (window_bytes block (Window (Some off') (n + length d)) = buffered r ++ d).
      by rewrite Hnew, Hb.
Qed.

(** What a call may do to a reader: keep its invariant, and hand out a prefix of
    what is unread, or nothing when it fails. *)
Definition delivers (r : CoReader) (out : CoReader * res str) (P : str → CoReader → Prop) : Prop :=
  wf_reader out.1 ∧
  match out.2 with
  | Ok d => unread r = d ++ unread out.1 ∧ P d out.1
  | _ => unread out.1 = unread r
  end.

Lemma take_window_delivers n r r0 (P : str → CoReader → Prop) :
  wf_reader r → n ≤ win_size (_read_window r) → unread r = unread r0 →
  (∀ r', P (take n (buffered r)) r') → delivers r0 (take_window n r) P.
Proof.
  intros Hwf Hn Hu HP. unfold take_window, trim_prefix. rewrite decide_True by done. split; cbn [fst snd].
  - destruct Hwf as [(E1 & E2 & E3 & E4)|(off & E1 & E2 & E3)].
    + left. cbn. rewrite E1. split_and!; [done|lia|done..].
    + right. exists (off + n). cbn. rewrite E1, E2. split_and!; [done|f_equal; lia|lia].
  - split; [|apply HP]. rewrite <- Hu. unfold unread. cbn [_source]. rewrite app_assoc. f_equal.
    rewrite <- (take_drop n (buffered r)) at 1. f_equal.
    unfold buffered, window_bytes. cbn. destruct (data (_read_window r)) as [off|]; [|apply drop_nil].
    cbn. by rewrite skipn_firstn_comm, drop_drop.
Qed.

Lemma read_delivers n r :
  wf_reader r →
  delivers r (read n r) (λ d _, length d ≤ n ∧ (n ≤ length (buffered r) → length d = n)).
Proof.
  intros Hwf. pose proof (buffered_length r Hwf) as Hb. unfold read, mbind at 1, ST_bind, st_get.
  destruct (decide _) as [Hlt|Hge].
  - unfold mbind at 1, ST_bind. destruct (_load_buffer _ r) as [r1 [[]|e|]] eqn:E;
      apply load_spec in E as (Hwf1 & Hu & Hok); try done; try lia.
    unfold mbind, ST_bind. apply take_window_delivers; [done|lia|done|]. intros _.
    rewrite length_take, (buffered_length r1) by done. lia.
  - unfold mbind, ST_bind, mret, ST_ret. apply take_window_delivers; [done|lia|done|]. intros _.
    rewrite length_take. lia.
Qed.

(** A step of the search loops: either the reader has ended, or byte [i] of the
    window is looked at. *)
Lemma fill_spec limit i r r' res :
  wf_reader r → i < limit → fill limit i r = (r', res) →
  wf_reader r' ∧ unread r' = unread r ∧
  match res with
  | Ok b => (∃ d, buffered r' = buffered r ++ d) ∧ (b = true → good r' = false)
  | _ => True
  end.
Proof.
  intros Hwf Hi. assert (∃ d, buffered r = buffered r ++ d) as Hid by (exists []; by rewrite app_nil_r).
  unfold fill, mbind at 1, ST_bind, st_get. destruct (decide _); [|by intros [= <- <-]].
  destruct (good r) eqn:Eg; [|by intros [= <- <-]].
  unfold mbind, ST_bind. destruct (_load_buffer _ r) as [r1 [[]|e|]] eqn:E;
    apply load_spec in E as (Hwf1 & Hu & Hok); try done; try lia; intros [= <- <-];
    split_and!; try done. by destruct (Hok eq_refl).
Qed.

(** The first [i] bytes of the window end in the part of the pattern matched. *)
Definition matched (pat : str) (pos i : nat) (r : CoReader) : Prop :=
  pos ≤ length pat ∧ ∃ p, take i (buffered r) = p ++ take pos pat ∧ length p + pos = i.

Lemma matched_more pat pos i r r' :
  matched pat pos i r → (∃ d, buffered r' = buffered r ++ d) → matched pat pos i r'.
Proof.
  intros (Hp & p & Ht & Hl) [d Hd]. split; [done|]. exists p. split; [|done].
  apply (f_equal length) in Ht as Hlen. rewrite length_take, length_app, length_take in Hlen.
  rewrite Hd, take_app_le by lia. done.
Qed.

Lemma window_at_eq i (r : CoReader) :
  window_at i r = (r, match buffered r !! i with Some c => Ok c | None => Undef end).
Proof. reflexivity. Qed.

(** One iteration of the loop on a string, with its bindings worked out. *)
Lemma until_str_step pat limit pos i n r r1 p :
  fill limit i r = (r1, Ok false) → pat !! pos = Some p →
  until_str pat limit pos i (Datatypes.S n) r =
  match buffered r1 !! i with
  | None => (r1, Undef)
  | Some c =>
      if decide (c = p) then
        if decide (pos + 1 = length pat) then take_window (i + 1) r1
        else until_str pat limit (pos + 1) (i + 1) n r1
      else until_str pat limit 0 (i + 1) n r1
  end.
Proof.
  intros Hf Hp. cbn [until_str]. unfold mbind at 1, ST_bind at 1. rewrite Hf.
  unfold mbind at 1, ST_bind at 1. rewrite window_at_eq. destruct (buffered r1 !! i); [|done].
  unfold mbind, ST_bind, st_res. rewrite Hp. by repeat destruct (decide _).
Qed.

Lemma until_str_stop pat limit pos i n r r1 res :
  fill limit i r = (r1, res) → res ≠ Ok false →
  until_str pat limit pos i (Datatypes.S n) r =
  (r1, match res with Ok _ => Ok [] | Throw e => Throw e | Undef => Undef end).
Proof.
  intros Hf Hne. cbn [until_str]. unfold mbind at 1, ST_bind at 1. rewrite Hf.
  by destruct res as [[|]| |].
Qed.

Lemma until_str_delivers pat limit r0 : pat ≠ [] → ∀ n pos i r,
  wf_reader r → unread r = unread r0 → matched pat pos i r → pos < length pat → i + n = limit →
  delivers r0 (until_str pat limit pos i n r)
    (λ d r', d = [] ∧ good r' = false ∨ ∃ p, d = p ++ pat).
Proof.
  intros Hpat. induction n as [|n IH]; intros pos i r Hwf Hu Hm Hpos Hi; [by split|].
  destruct (fill limit i r) as [r1 res] eqn:Ef. assert (i < limit) as Hil by lia.
  destruct (fill_spec limit i r r1 res Hwf Hil Ef) as (Hwf1 & Hu1 & Hres).
  destruct res as [[|]|e|].
  - rewrite (until_str_stop _ _ _ _ _ _ _ _ Ef) by done. split; [done|]. cbn. split; [congruence|].
    left. split; [done|]. by destruct Hres as [_ Hg]; apply Hg.
  - destruct (lookup_lt_is_Some_2 pat pos Hpos) as [p Ep]. rewrite (until_str_step _ _ _ _ _ _ _ _ Ef Ep).
    destruct (buffered r1 !! i) as [c|] eqn:Ec; [|split; [done|cbn; congruence]].
    assert (matched pat pos i r1) as (_ & q & Hq & Hql) by (eapply matched_more; [done|by apply Hres]).
    pose proof (lookup_lt_Some _ _ _ Ec) as Hlt.
    destruct (decide (c = p)) as [->|Hne].
    + assert (take (i + 1) (buffered r1) = q ++ take (pos + 1) pat) as Hnext.
      { rewrite !Nat.add_1_r, (take_S_r _ _ _ Ec), (take_S_r _ _ _ Ep), Hq. by rewrite <- app_assoc. }
      destruct (decide (pos + 1 = length pat)) as [E|E].
      * rewrite (buffered_length r1) in Hlt by done.
        apply take_window_delivers; [done|lia|congruence|]. intros r2. right. exists q.
        rewrite Hnext, E. f_equal. by apply take_ge.
      * apply IH; [done|congruence| |lia|lia]. split; [lia|]. exists q. split; [done|lia].
    + apply IH; [done|congruence| |lia|lia]. split; [lia|]. exists (take (i + 1) (buffered r1)).
      cbn. rewrite app_nil_r. split; [done|]. rewrite length_take. lia.
  - rewrite (until_str_stop _ _ _ _ _ _ _ _ Ef) by done. split; [done|cbn; congruence].
  - rewrite (until_str_stop _ _ _ _ _ _ _ _ Ef) by done. split; [done|cbn; congruence].
Qed.

(** Bytes of the stream are never lost or reordered by a sequence of calls. *)
Inductive read_call := Read (n : nat) | ReadUntilStr (pat : str) (limit : nat).
Definition do_call (c : read_call) : ST CoReader str :=
  match c with Read n => read n | ReadUntilStr pat limit => read_until_str pat limit end.
Definition wf_call (c : read_call) : Prop :=
  match c with Read _ => True | ReadUntilStr pat _ => pat ≠ [] end.

(** The bytes handed out by the calls, failed ones skipped. *)
Fixpoint run_calls (cs : list read_call) (r : CoReader) : str * CoReader :=
  match cs with
  | [] => ([], r)
  | c :: cs =>
      let '(r, res) := do_call c r in
      let '(d, r) := run_calls cs r in
      (match res with Ok d' => d' ++ d | _ => d end, r)
  end.

Lemma do_call_delivers c r :
  wf_reader r → wf_call c → delivers r (do_call c r) (λ _ _, True).
Proof.
  intros Hwf Hc. assert (∀ P, delivers r (do_call c r) P → delivers r (do_call c r) (λ _ _, True)) as Hw.
  { intros P [H1 H2]. split; [done|]. by destruct (do_call c r).2; [destruct H2|..]. }
  destruct c as [n|pat limit]; eapply Hw; [by apply read_delivers|].
  unfold do_call, read_until_str. apply until_str_delivers; try done.
  - split; [lia|]. by exists [].
  - destruct pat; [done|cbn; lia].
Qed.
End reader.

(** * Properties *)

(** C34.  Whatever is called on a fresh reader, in whatever order and with
    whatever results, the bytes handed out followed by the bytes still unread
    are exactly the source's stream: growing, compacting, short reads and
    failed calls neither lose, repeat nor reorder a byte. *)
Theorem reader_preserves_stream (flags : reader_flags) {S} `{!CoReadable S} (source : S)
    (cs : list read_call) :
  Forall wf_call cs →
  let '(d, r) := run_calls flags cs (make_reader flags source) in
  wf_reader r ∧ stream source = d ++ unread r.
Proof.
  intros Hcs. assert (∀ r, wf_reader r → let '(d, r') := run_calls flags cs r in
    wf_reader r' ∧ unread r = d ++ unread r') as H; [|by apply (H (make_reader flags source)), wf_make].
  induction Hcs as [|c cs Hc _ IH]; intros r Hr; [done|]. cbn [run_calls].
  pose proof (do_call_delivers flags c r Hr Hc) as [Hwf Hd].
  destruct (do_call flags c r) as [r1 res]. cbn in *. specialize (IH r1 Hwf).
  destruct (run_calls flags cs r1) as [d r2]. destruct IH as [Hwf2 Hu]. split; [done|].
  destruct res as [d'| |]; [destruct Hd as [-> _]; by rewrite Hu, app_assoc|congruence..].
Qed.

(** [read_until(str)] from a reader in a consistent state: a nonempty result
    ends in the pattern and is the next part of the stream; an empty one means
    the source has ended and leaves everything unread; in every other case
    (a failed read, the limit) nothing is consumed. *)
Theorem read_until_str_outcome (flags : reader_flags) {S} `{!CoReadable S} (r : CoReader)
    (pat : str) (limit : nat) :
  wf_reader r → pat ≠ [] →
  let '(r', res) := read_until_str flags pat limit r in
  wf_reader r' ∧
  match res with
  | Ok d => unread r = d ++ unread r' ∧ (d = [] ∧ good r' = false ∨ ∃ p, d = p ++ pat)
  | _ => unread r' = unread r
  end.
Proof.
  intros Hwf Hpat. unfold read_until_str.
  set (n := if decide (limit = 0) then _ else limit).
  destruct (until_str_delivers flags pat n r Hpat n 0 0 r) as [H1 H2]; try done.
  - split; [lia|]. by exists [].
  - destruct pat; [done|cbn; lia].
  - by destruct (until_str flags pat n 0 0 n r).
Qed.

(** Growing the block of a reader whose block is not empty: the call throws
    ResourceExhausted exactly beyond the maximum, and otherwise the loop ends,
    the block has at least the size asked for and at most the maximum, and the
    buffered bytes are the same. *)
Theorem realloc_outcome (flags : reader_flags) {S} `{!CoReadable S} (desired : nat) (r : CoReader (S := S)) :
  wf_reader r → 0 < length (_buffer r) → win_size (_read_window r) ≤ desired →
  if decide (maximum_read_buffer_size flags < desired)
  then realloc_buffers flags desired r = throw ResourceExhausted
  else ∃ r' : CoReader (S := S), realloc_buffers flags desired r = Ok r' ∧ wf_reader r' ∧ buffered r' = buffered r ∧
         _source r' = _source r ∧
         desired ≤ length (_buffer r') ≤ maximum_read_buffer_size flags.
Proof.
  intros Hwf Hpos Hle. unfold realloc_buffers. destruct (decide _) as [|Hm]; [done|].
  destruct (double_until_total desired desired (length (_buffer r) * 2)) as [n E]; [lia..|].
  rewrite E. apply double_until_spec in E.
  set (size := Nat.min n (maximum_read_buffer_size flags)).
  unfold trim_prefix. cbn [win_size data]. rewrite decide_True by (unfold size; lia). cbn.
  pose proof (moved_wf r (replicate size "000"%char) _ 0 Hwf eq_refl) as Hmv.
  rewrite length_replicate in Hmv. destruct Hmv as (H1 & H2 & H3 & _); [unfold size; lia..|].
  eexists. split_and!; [done..| |]; cbn; rewrite length_copy_in, length_replicate; unfold size; lia.
Qed.

(** * Concrete readers *)

(** A source that delivers its bytes in the given chunks, one per read, and an
    oversized chunk in parts. *)
Definition chunk_read (n : nat) : ST (list str) str := λ s,
  match s with
  | [] => ([], Ok [])
  | d :: s => (if decide (length d ≤ n) then s else drop n d :: s, Ok (take n d))
  end.

#[export] Instance chunks_readable : CoReadable (list str).
Proof.
  refine {|
    source_eof := λ s, bool_decide (s = []);
    source_good := λ s, negb (bool_decide (s = []));
    source_read := chunk_read;
    stream := λ s, concat s |}.
  - intros n [|d s] s' r; unfold chunk_read; [intros [= <- <-]; by split; [cbn; lia|]|].
    case_decide as Hd; intros [= <- <-]; (split; [rewrite length_take; lia|cbn]).
    + by rewrite take_ge.
    + by rewrite app_assoc, take_drop.
  - intros n [|d s] s' r; unfold chunk_read; intros [= <- <-] Hr; by destruct (Hr _ eq_refl).
Defined.

Definition small_flags : reader_flags := ReaderFlags 4 32 16.
Definition request_chunks : list str := [B "GET / HT"; B "TP/1.1" ++ CRLF ++ CRLF ++ B "body"].

Lemma reader_preserves_stream_witness :
  ∃ r, run_calls small_flags [Read 3; ReadUntilStr (CRLF ++ CRLF) 0; Read 40; Read 10]
         (make_reader small_flags request_chunks)
       = (B "GET / HTTP/1.1" ++ CRLF ++ CRLF ++ B "body", r) ∧
  wf_reader r ∧ unread r = [].
Proof.
  pose proof (reader_preserves_stream small_flags request_chunks
    [Read 3; ReadUntilStr (CRLF ++ CRLF) 0; Read 40; Read 10]) as H.
  destruct (run_calls _ _ _) as [d r] eqn:E. vm_compute in E. injection E as <- <-.
  destruct H as [Hwf Hs]; [by repeat constructor|].
  eexists. split_and!; [by vm_compute|exact Hwf|]. vm_compute in Hs |- *. congruence.
Defined.

Lemma read_until_str_outcome_witness :
  ∃ r, read_until_str small_flags (CRLF ++ CRLF) 0 (make_reader small_flags [B "ab" ++ CRLF; CRLF ++ B "c"])
       = (r, Ok (B "ab" ++ CRLF ++ CRLF)) ∧ wf_reader r ∧ unread r = B "c".
Proof.
  pose proof (read_until_str_outcome small_flags (make_reader small_flags [B "ab" ++ CRLF; CRLF ++ B "c"])
    (CRLF ++ CRLF) 0 (wf_make _ _)) as H.
  destruct (read_until_str _ _ _ _) as [r x] eqn:E. vm_compute in E. injection E as <- <-.
  destruct H as [Hwf [Hs _]]; [done|].
  eexists. split_and!; [by vm_compute|exact Hwf|]. vm_compute in Hs |- *. congruence.
Defined.

Lemma realloc_outcome_witness :
  ∃ r', realloc_buffers small_flags 20 (make_reader small_flags request_chunks) = Ok r' ∧
        length (_buffer r') = 32.
Proof.
  pose proof (realloc_outcome small_flags 20 (make_reader small_flags request_chunks) (wf_make _ _)
    ltac:(cbn; lia) ltac:(cbn; lia)) as H. rewrite decide_False in H by (cbn; lia).
  destruct H as (r' & E & _). exists r'. split; [exact E|]. vm_compute in E. by injection E as <-.
Defined.

(** * Behaviour a caller would not expect *)

(** With --initial-read-buffer-size=0 the doubling loop never ends. *)
Lemma empty_initial_buffer_loops desired fuel : 0 < desired → double_until fuel desired 0 = None.
Proof. intros. induction fuel as [|fuel IH]; cbn; by rewrite decide_False by lia. Qed.

(** A mismatch is not tried as the start of a new match: a terminator preceded
    by a stray CR is overlooked, and the search runs on to the limit, where
    the coroutine ends without a value. *)
Lemma terminator_overlooked :
  (read_until_str small_flags (CRLF ++ CRLF) 5
     (make_reader small_flags [B "a" ++ [CR] ++ CRLF ++ CRLF ++ B "b"])).2 = Undef.
Proof. by vm_compute. Qed.

(** When a read delivers nothing, the byte looked at was never read. *)
Lemma short_read_looks_past_window :
  (read_until_str small_flags CRLF 5 (make_reader small_flags [[]; B "a" ++ CRLF])).2 = Undef.
Proof. by vm_compute. Qed.
