(* ===== verification/HttpResponse.v ===== *)
(** lw/http/http_response: the response object and its text. *)
From S2P Require Import Prelude Cxx StreamBuffer Strings Headers HttpRequest.

(** * Status codes *)

Inductive Status :=
  | CONTINUE
  | SWITCHING_PROTOCOLS
  | PROCESSING
  | EARLY_HINTS
  | OK
  | CREATED
  | ACCEPTED
  | NONAUTHORITATIVE_INFORMATION
  | NO_CONTENT
  | RESET_CONTENT
  | PARTIAL_CONTENT
  | MULTISTATUS
  | ALREADY_REPORTED
  | IM_USED
  | MULTIPLE_CHOICES
  | MOVED_PERMANENTLY
  | FOUND
  | SEE_OTHER
  | NOT_MODIFIED
  | USE_PROXY
  | SWITCH_PROXY
  | TEMPORARY_REDIRECT
  | PERMANENT_REDIRECT
  | BAD_REQUEST
  | UNAUTHORIZED
  | PAYMENT_REQUIRED
  | FORBIDDEN
  | NOT_FOUND
  | METHOD_NOT_ALLOWED
  | NOT_ACCEPTABLE
  | PROXY_AUTHENTICATION_REQUIRED
  | REQUEST_TIMEOUT
  | CONFLICT
  | GONE
  | LENGTH_REQUIRED
  | PRECONDITION_FAILED
  | PAYLOAD_TOO_LARGE
  | URI_TOO_LONG
  | UNSUPPORTED_MEDIA_TYPE
  | RANGE_NOT_SATISFIABLE
  | EXPECTATION_FAILED
  | IM_A_TEAPOT
  | MISDIRECTED_REQUEST
  | UNPROCESSABLE_ENTITY
  | LOCKED
  | FAILED_DEPENDENCY
  | TOO_EARLY
  | UPGRADE_REQUIRED
  | PRECONDITION_REQUIRED
  | TOO_MANY_REQUESTS
  | REQUEST_HEADER_FIELDS_TOO_LARGE
  | UNAVAILABLE_FOR_LEGAL_REASONS
  | INTERNAL_SERVER_ERROR
  | NOT_IMPLEMENTED
  | BAD_GATEWAY
  | SERVICE_UNAVAILABLE
  | GATEWAY_TIMEOUT
  | HTTP_VERSION_NOT_SUPPORTED
  | VARIANT_ALSO_NEGOTIATES
  | INSUFFICIENT_STORAGE
  | LOOP_DETECTED
  | NOT_EXTENDED
  | NETWORK_AUTHENTICATION_REQUIRED.

Definition status_value (s : Status) : Z :=
  match s with
  | CONTINUE => 100
  | SWITCHING_PROTOCOLS => 101
  | PROCESSING => 102
  | EARLY_HINTS => 103
  | OK => 200
  | CREATED => 201
  | ACCEPTED => 202
  | NONAUTHORITATIVE_INFORMATION => 203
  | NO_CONTENT => 204
  | RESET_CONTENT => 205
  | PARTIAL_CONTENT => 206
  | MULTISTATUS => 207
  | ALREADY_REPORTED => 208
  | IM_USED => 226
  | MULTIPLE_CHOICES => 300
  | MOVED_PERMANENTLY => 301
  | FOUND => 302
  | SEE_OTHER => 303
  | NOT_MODIFIED => 304
  | USE_PROXY => 305
  | SWITCH_PROXY => 306
  | TEMPORARY_REDIRECT => 307
  | PERMANENT_REDIRECT => 308
  | BAD_REQUEST => 400
  | UNAUTHORIZED => 401
  | PAYMENT_REQUIRED => 402
  | FORBIDDEN => 403
  | NOT_FOUND => 404
  | METHOD_NOT_ALLOWED => 405
  | NOT_ACCEPTABLE => 406
  | PROXY_AUTHENTICATION_REQUIRED => 407
  | REQUEST_TIMEOUT => 408
  | CONFLICT => 409
  | GONE => 410
  | LENGTH_REQUIRED => 411
  | PRECONDITION_FAILED => 412
  | PAYLOAD_TOO_LARGE => 413
  | URI_TOO_LONG => 414
  | UNSUPPORTED_MEDIA_TYPE => 415
  | RANGE_NOT_SATISFIABLE => 416
  | EXPECTATION_FAILED => 417
  | IM_A_TEAPOT => 418
  | MISDIRECTED_REQUEST => 421
  | UNPROCESSABLE_ENTITY => 422
  | LOCKED => 423
  | FAILED_DEPENDENCY => 424
  | TOO_EARLY => 425
  | UPGRADE_REQUIRED => 426
  | PRECONDITION_REQUIRED => 428
  | TOO_MANY_REQUESTS => 429
  | REQUEST_HEADER_FIELDS_TOO_LARGE => 431
  | UNAVAILABLE_FOR_LEGAL_REASONS => 451
  | INTERNAL_SERVER_ERROR => 500
  | NOT_IMPLEMENTED => 501
  | BAD_GATEWAY => 502
  | SERVICE_UNAVAILABLE => 503
  | GATEWAY_TIMEOUT => 504
  | HTTP_VERSION_NOT_SUPPORTED => 505
  | VARIANT_ALSO_NEGOTIATES => 506
  | INSUFFICIENT_STORAGE => 507
  | LOOP_DETECTED => 508
  | NOT_EXTENDED => 510
  | NETWORK_AUTHENTICATION_REQUIRED => 511
  end.

Definition all_statuses : list Status := [
  CONTINUE; SWITCHING_PROTOCOLS; PROCESSING; EARLY_HINTS; OK; CREATED; ACCEPTED;
  NONAUTHORITATIVE_INFORMATION; NO_CONTENT; RESET_CONTENT; PARTIAL_CONTENT; MULTISTATUS;
  ALREADY_REPORTED; IM_USED; MULTIPLE_CHOICES; MOVED_PERMANENTLY; FOUND; SEE_OTHER;
  NOT_MODIFIED; USE_PROXY; SWITCH_PROXY; TEMPORARY_REDIRECT; PERMANENT_REDIRECT; BAD_REQUEST;
  UNAUTHORIZED; PAYMENT_REQUIRED; FORBIDDEN; NOT_FOUND; METHOD_NOT_ALLOWED; NOT_ACCEPTABLE;
  PROXY_AUTHENTICATION_REQUIRED; REQUEST_TIMEOUT; CONFLICT; GONE; LENGTH_REQUIRED;
  PRECONDITION_FAILED; PAYLOAD_TOO_LARGE; URI_TOO_LONG; UNSUPPORTED_MEDIA_TYPE;
  RANGE_NOT_SATISFIABLE; EXPECTATION_FAILED; IM_A_TEAPOT; MISDIRECTED_REQUEST;
  UNPROCESSABLE_ENTITY; LOCKED; FAILED_DEPENDENCY; TOO_EARLY; UPGRADE_REQUIRED;
  PRECONDITION_REQUIRED; TOO_MANY_REQUESTS; REQUEST_HEADER_FIELDS_TOO_LARGE;
  UNAVAILABLE_FOR_LEGAL_REASONS; INTERNAL_SERVER_ERROR; NOT_IMPLEMENTED; BAD_GATEWAY;
  SERVICE_UNAVAILABLE; GATEWAY_TIMEOUT; HTTP_VERSION_NOT_SUPPORTED; VARIANT_ALSO_NEGOTIATES;
  INSUFFICIENT_STORAGE; LOOP_DETECTED; NOT_EXTENDED; NETWORK_AUTHENTICATION_REQUIRED].

#[export] Instance Status_eq_dec : EqDecision Status.
Proof. solve_decision. Defined.

(** The map [_messages]. *)
Definition status_messages : list (Z * str) := [
  (100%Z, B "Continue");
  (101%Z, B "Switching Protocols");
  (102%Z, B "Processing");
  (103%Z, B "Early Hints");
  (200%Z, B "OK");
  (201%Z, B "Created");
  (202%Z, B "Accepted");
  (203%Z, B "Non-Authoritative Information");
  (204%Z, B "No Content");
  (205%Z, B "Reset Content");
  (206%Z, B "Partial Content");
  (207%Z, B "Multi-Status");
  (208%Z, B "Already Reported");
  (226%Z, B "IM Used");
  (300%Z, B "Multiple Choices");
  (301%Z, B "Moved Permanently");
  (302%Z, B "Found");
  (303%Z, B "See Other");
  (304%Z, B "Not Modified");
  (305%Z, B "Use Proxy");
  (306%Z, B "Switch Proxy");
  (307%Z, B "Temporary Redirect");
  (308%Z, B "Permanent Redirect");
  (400%Z, B "Bad Request");
  (401%Z, B "Unauthorized");
  (402%Z, B "Payment Required");
  (403%Z, B "Forbidden");
  (404%Z, B "Not Found");
  (405%Z, B "Method Not Allowed");
  (406%Z, B "Not Acceptable");
  (407%Z, B "Proxy Authentication Required");
  (408%Z, B "Request Timeout");
  (409%Z, B "Conflict");
  (410%Z, B "Gone");
  (411%Z, B "Length Required");
  (412%Z, B "Precondition Failed");
  (413%Z, B "Payload Too Large");
  (414%Z, B "URI Too Long");
  (415%Z, B "Unsupported Media Type");
  (416%Z, B "Range Not Satisfiable");
  (417%Z, B "Expectation Failed");
  (418%Z, B "I'm a teapot");
  (421%Z, B "Misdirected Request");
  (422%Z, B "Unprocessable Entity");
  (423%Z, B "Locked");
  (424%Z, B "Failed Dependency");
  (425%Z, B "Too Early");
  (426%Z, B "Upgrade Required");
  (428%Z, B "Precondition Required");
  (429%Z, B "Too Many Requests");
  (431%Z, B "Request Header Fields Too Large");
  (451%Z, B "Unavailable For Legal Reasons");
  (500%Z, B "Internal Server Error");
  (501%Z, B "Not Implemented");
  (502%Z, B "Bad Gateway");
  (503%Z, B "Service Unavailable");
  (504%Z, B "Gateway Timeout");
  (505%Z, B "HTTP Version Not Supported");
  (506%Z, B "Variant Also Negotiates");
  (507%Z, B "Insufficient Storage");
  (508%Z, B "Loop Detected");
  (510%Z, B "Not Extended");
  (511%Z, B "Network Authentication Required")].

(** [unordered_map::find] on the table. *)
Fixpoint message_at (code : Z) (table : list (Z * str)) : option str :=
  match table with
  | [] => None
  | (c, m) :: table => if decide (c = code) then Some m else message_at code table
  end.

Definition default_status_message (code : Z) : res str :=
  match message_at code status_messages with
  | None => throw InvalidArgument
  | Some m => Ok m
  end.

(** * The response object *)

Record HttpResponse := MkResponse {
  _status_code : Z;
  _status_message : str;
  response_headers : Headers;
  _body : str;
}.

Definition make_response : HttpResponse := MkResponse 0 [] [] [].

Definition status (r : HttpResponse) : Z :=
  if decide (_status_code r = 0%Z) then status_value OK else _status_code r.

(** [status(code)] and [status(code, message)]. *)
Definition set_status (code : Z) (r : HttpResponse) : HttpResponse :=
  MkResponse code [] (response_headers r) (_body r).
Definition set_status_message (code : Z) (message : str) (r : HttpResponse) : HttpResponse :=
  MkResponse code message (response_headers r) (_body r).

Definition status_message (r : HttpResponse) : res str :=
  if decide (_status_message r = []) then default_status_message (status r)
  else Ok (_status_message r).

Definition response_has_header (r : HttpResponse) (header_name : str) : bool :=
  headers_contains header_name (response_headers r).

Definition response_header (r : HttpResponse) (header_name : str) : res str :=
  match headers_find header_name (response_headers r) with
  | None => throw NotFound
  | Some v => Ok v
  end.

(** [header(name, value)]: inserts, or assigns to the entry that is there. *)
Definition set_header (header_name value : str) (r : HttpResponse) : HttpResponse :=
  MkResponse (_status_code r) (_status_message r)
    (match headers_find header_name (response_headers r) with
     | None => headers_insert header_name value (response_headers r)
     | Some _ => headers_set header_name value (response_headers r)
     end) (_body r).

Definition set_body (b : str) (r : HttpResponse) : HttpResponse :=
  MkResponse (_status_code r) (_status_message r) (response_headers r) b.

(** * Serialization *)

Section serialize.
(** The growth of the [std::string] behind the stream. *)
Context (initial_capacity : nat → nat) (grow : nat → nat → nat).

(** A stream over a [StringBuffer]: each [<<] is one [xsputn]. *)
Definition put (text : str) : ST StringBuffer () := λ b, ((xsputn grow text b).1, Ok ()).

(** [operator<<(stream, res)]. *)
Definition stream_response (r : HttpResponse) : ST StringBuffer () :=
  put (B "HTTP/1.1 ") ≫= λ _, put (show_Z (status r)) ≫= λ _, put (B " ") ≫= λ _,
  message ← st_res (status_message r);
  put message ≫= λ _, put CRLF ≫= λ _,
  for_each (λ p, put p.1 ≫= λ _, put (B ": ") ≫= λ _, put p.2 ≫= λ _, put CRLF)
    (response_headers r) ≫= λ _,
  (if response_has_header r (B "Content-Length") then mret ()
   else put (B "Content-Length: ") ≫= λ _,
        put (show_Z (Z.of_nat (length (_body r)))) ≫= λ _, put CRLF) ≫= λ _,
  put CRLF ≫= λ _, put (_body r).

(** [serialize()]. *)
Definition serialize (r : HttpResponse) : res str :=
  match stream_response r (make_string_buffer initial_capacity []) with
  | (b, Ok _) => Ok (StreamBuffer._buffer b)
  | (_, Throw e) => Throw e
  | (_, Undef) => Undef
  end.

(** Calls that append a text to the stream. *)
Definition appends (text : str) (m : ST StringBuffer ()) : Prop :=
  ∀ b, ∃ b', m b = (b', Ok ()) ∧ StreamBuffer._buffer b' = StreamBuffer._buffer b ++ text.

Lemma appends_put text : appends text (put text).
Proof. intros b. eexists. split; [done|]. unfold xsputn. by destruct (decide _). Qed.

Lemma appends_ret : appends [] (mret ()).
Proof. intros b. exists b. by rewrite app_nil_r. Qed.

Lemma appends_bind t1 t2 m1 (m2 : () → ST StringBuffer ()) :
  appends t1 m1 → appends t2 (m2 ()) → appends (t1 ++ t2) (m1 ≫= m2).
Proof.
  intros H1 H2 b. destruct (H1 b) as (b1 & E1 & Hb1). destruct (H2 b1) as (b2 & E2 & Hb2).
  exists b2. unfold mbind, ST_bind. rewrite E1, E2, Hb2, Hb1. by rewrite app_assoc.
Qed.

Lemma appends_each {A} (f : A → ST StringBuffer ()) (g : A → str) l :
  (∀ x, appends (g x) (f x)) → appends (concat (map g l)) (for_each f l).
Proof.
  intros H. induction l as [|x l IH]; [apply appends_ret|]. cbn. by apply appends_bind.
Qed.
End serialize.

(** The text of a response: its status line, its header fields and its body. *)
Definition status_line (code : Z) (message : str) : str :=
  B "HTTP/1.1 " ++ show_Z code ++ B " " ++ message ++ CRLF.
Definition sent_headers (r : HttpResponse) : list (str * str) :=
  response_headers r ++
  (if response_has_header r (B "Content-Length") then []
   else [(B "Content-Length", show_Z (Z.of_nat (length (_body r))))]).
Definition response_text (message : str) (r : HttpResponse) : str :=
  status_line (status r) message ++ concat (map header_line (sent_headers r)) ++ CRLF ++ _body r.

Lemma stream_response_ok grow r m :
  status_message r = Ok m → appends (response_text m r) (stream_response grow r).
Proof.
  intros E. unfold stream_response, response_text, status_line, sent_headers. rewrite E.
  rewrite map_app, concat_app, <- !app_assoc.
  repeat (apply appends_bind; [apply appends_put|]).
  apply appends_bind.
  { apply appends_each. intros p. repeat (apply appends_bind; [apply appends_put|]). apply appends_put. }
  apply appends_bind.
  { destruct (response_has_header _ _); [apply appends_ret|]. cbn [map concat header_line fst snd].
    rewrite app_nil_r. unfold header_line. cbn [fst snd]. rewrite app_assoc. repeat (apply appends_bind; [apply appends_put|]). apply appends_put. }
  apply appends_bind; apply appends_put.
Qed.

Lemma message_at_in code table m : message_at code table = Some m → (code, m) ∈ table.
Proof.
  induction table as [|[c m'] table IH]; cbn; [done|]. destruct (decide (c = code)) as [->|].
  - intros [= ->]. by left.
  - intros. right. auto.
Qed.

Lemma message_at_none code table : message_at code table = None ↔ code ∉ map fst table.
Proof.
  induction table as [|[c m] table IH]; cbn; [split; [|done]; intros _; inversion 1|].
  rewrite not_elem_of_cons. destruct (decide (c = code)) as [->|].
  - split; [done|]. by intros [? _].
  - rewrite IH. naive_solver.
Qed.

Lemma unknown_code code :
  message_at code status_messages = None ↔ code ∉ map status_value all_statuses.
Proof. apply message_at_none. Qed.

(** * Properties *)

(** The codes with a default message are exactly those of [Status], each
    with a message of its own that is not empty and fits on the status line. *)
Theorem default_messages_cover_statuses :
  map fst status_messages = map status_value all_statuses ∧
  (∀ s, s ∈ all_statuses) ∧
  (∀ s, ∃ m, default_status_message (status_value s) = Ok m ∧ m ≠ [] ∧ no_char CR m = true) ∧
  NoDup (map fst status_messages).
Proof.
  split_and!.
  - done.
  - intros s. apply (bool_decide_unpack (s ∈ all_statuses)). destruct s; vm_compute; exact I.
  - intros s. by destruct s; (eexists; split; [reflexivity|]).
  - apply (bool_decide_unpack _). by vm_compute.
Qed.

(** [serialize] on every response: the status line, the header fields in
    order, a Content-Length field unless the handler set one, a blank line and
    the body; it throws [InvalidArgument] exactly when no message was given and
    the code is none of [Status]. *)
Theorem serialize_outcome (initial_capacity : nat → nat) (grow : nat → nat → nat) (r : HttpResponse) :
  match status_message r with
  | Ok m => serialize initial_capacity grow r = Ok (response_text m r)
  | _ => serialize initial_capacity grow r = throw InvalidArgument
  end ∧
  (serialize initial_capacity grow r = throw InvalidArgument ↔
   _status_message r = [] ∧ status r ∉ map status_value all_statuses).
Proof.
  assert (∀ m, status_message r = Ok m → serialize initial_capacity grow r = Ok (response_text m r)) as Hok.
  { intros m E. unfold serialize.
    destruct (stream_response_ok grow r m E (make_string_buffer initial_capacity [])) as (b & -> & ->). done. }
  assert (status_message r = throw InvalidArgument → serialize initial_capacity grow r = throw InvalidArgument) as Hno.
  { intros E. unfold serialize, stream_response. by rewrite E. }
  assert ((∃ m, status_message r = Ok m) ∨ status_message r = throw InvalidArgument ∧
    _status_message r = [] ∧ status r ∉ map status_value all_statuses) as [[m E]|(E & H)].
  { unfold status_message, default_status_message. destruct (decide _) as [H0|]; [|eauto].
    destruct (message_at _ _) eqn:Em; [eauto|]. right. split_and!; [done..|]. by apply unknown_code. }
  - rewrite E. split; [by apply Hok|]. rewrite (Hok m E). split; [done|]. intros [H0 H1].
    unfold status_message, default_status_message in E. rewrite decide_True in E by done.
    apply unknown_code in H1. by rewrite H1 in E.
  - rewrite E. cbn. split; [by apply Hno|]. split; [done|]. by intros _; apply Hno.
Qed.

(** * Reading the fields back *)

Lemma read_headers_spec hs m :
  Forall (λ h, short h.1) hs → ordered m →
  ordered (read_headers hs m) ∧
  ∀ k, short k → headers_find k (read_headers hs m)
    = match headers_find k m with Some v => Some v | None => first_assigned k hs end.
Proof.
  intros Hs. revert m. induction Hs as [|[x v] hs Hx Hhs IH]; intros m Hm.
  - split; [done|]. intros k _. cbn. by destruct (headers_find k m).
  - cbn [fst] in Hx. destruct (IH (headers_insert x v m)) as [Ho Hf]; [by apply insert_ordered|].
    split; [done|]. intros k Hk. change (read_headers ((x, v) :: hs) m) with (read_headers hs (headers_insert x v m)).
    rewrite Hf, find_insert by done. unfold first_assigned. cbn.
    destruct (headers_find k m); [done|]. by destruct (CaseInsensitiveEqual x k).
Qed.

Lemma first_assigned_app k l1 l2 :
  first_assigned k (l1 ++ l2) = match first_assigned k l1 with Some v => Some v | None => first_assigned k l2 end.
Proof.
  unfold first_assigned. induction l1 as [|p l1 IH]; [done|]. cbn. by destruct (CaseInsensitiveEqual p.1 k).
Qed.

Lemma wf_length_header n : wf_header (B "Content-Length", show_Z (Z.of_nat n)).
Proof.
  unfold wf_header, show_Z. cbn [fst snd]. destruct (Z.ltb_spec (Z.of_nat n) 0); [lia|]. split_and!; [done|..].
  - destruct (show_digits_spec (Z.of_nat n)) as [Hd _]; [lia|]. unfold no_char. apply forallb_Forall.
    eapply Forall_impl; [exact Hd|]. intros c Hc%Is_true_true. by destruct (Ascii.eqb_spec c CR) as [->|].
  - intros c Hc. apply show_digits_head_digit in Hc; [|lia].
    destruct (isspace c) eqn:E; [|done]. exfalso. revert Hc E. clear.
    destruct c as [[] [] [] [] [] [] [] []]; vm_compute; congruence.
Qed.

(** C35.  The fields of a response can be read back by the parser of requests:
    from the end of the status line it finds every field of the response under
    its name in any spelling, and a Content-Length, the size of the body when
    the handler set none. *)
Theorem response_fields_read_back (initial_capacity : nat → nat) (grow : nat → nat → nat)
    (r : HttpResponse) (message text : str) :
  ordered (response_headers r) → Forall wf_header (response_headers r) →
  status_message r = Ok message → serialize initial_capacity grow r = Ok text →
  ∃ m, _parse_headers (drop (length (status_line (status r) message)) text) make_request
       = (set_headers m make_request, Ok ()) ∧
  ∀ name, short name → headers_find name m =
    match headers_find name (response_headers r) with
    | Some v => Some v
    | None => if CaseInsensitiveEqual (B "Content-Length") name
              then Some (show_Z (Z.of_nat (length (_body r)))) else None
    end.
Proof.
  intros Ho Hwf Hm. unfold serialize.
  destruct (stream_response_ok grow r message Hm (make_string_buffer initial_capacity [])) as (b & -> & ->).
  intros [= <-]. cbn [StreamBuffer._buffer make_string_buffer app]. unfold response_text.
  rewrite drop_app_length.
  assert (Forall wf_header (sent_headers r)) as Hwf'.
  { apply Forall_app. split; [done|]. destruct (response_has_header _ _); [done|].
    apply Forall_cons. split; [apply wf_length_header|done]. }
  exists (read_headers (sent_headers r) []). split.
  - unfold _parse_headers. apply headers_text_loop; [done|].
    rewrite length_app. pose proof (length_concat_lines (sent_headers r)). lia.
  - assert (Forall (λ h : str * str, short h.1) (sent_headers r)) as Hs.
    { apply Forall_app. split; [by apply ordered_short|]. destruct (response_has_header _ _); [done|].
      by repeat constructor. }
    intros name Hname. destruct (read_headers_spec (sent_headers r) [] Hs ordered_nil) as [_ Hf].
    rewrite Hf by done.
    cbn [headers_find]. unfold sent_headers. rewrite first_assigned_app, <- find_ordered by done.
    destruct (headers_find name (response_headers r)) as [v|] eqn:E; [done|].
    unfold response_has_header, headers_contains. case_bool_decide as Hc.
    + destruct (CaseInsensitiveEqual _ name) eqn:Eq; [|done]. apply equal_upper in Eq.
      rewrite find_ordered in E, Hc by done. by rewrite (first_assigned_upper _ _ _ Eq), E in Hc; destruct Hc.
    + unfold first_assigned. cbn [List.find fst]. by destruct (CaseInsensitiveEqual _ name).
Qed.

(** * Examples *)

Definition sample_response : HttpResponse :=
  set_body (B "Hi!") (set_header (B "connection") (B "close")
    (set_header (B "Connection") (B "keep-alive") (set_status (status_value NOT_FOUND) make_response))).

Lemma response_fields_read_back_witness :
  ∃ m, _parse_headers (drop (length (status_line 404 (B "Not Found")))
         (B "HTTP/1.1 404 Not Found" ++ CRLF ++ B "Connection: close" ++ CRLF ++
          B "Content-Length: 3" ++ CRLF ++ CRLF ++ B "Hi!")) make_request
       = (set_headers m make_request, Ok ()) ∧
  headers_find (B "CONTENT-LENGTH") m = Some (B "3") ∧ headers_find (B "connection") m = Some (B "close").
Proof.
  destruct (response_fields_read_back (λ _, 15) Nat.max sample_response (B "Not Found")
    (B "HTTP/1.1 404 Not Found" ++ CRLF ++ B "Connection: close" ++ CRLF ++
     B "Content-Length: 3" ++ CRLF ++ CRLF ++ B "Hi!")) as (m & Hm & Hf).
  - repeat constructor; by vm_compute.
  - repeat (apply Forall_cons; split; [split_and!; [done|done|by intros c [= <-]]|]). done.
  - by vm_compute.
  - by vm_compute.
  - exists m. split; [exact Hm|]. split; (rewrite Hf; [|by vm_compute]); by vm_compute.
Defined.
