(* ===== verification/Http.v ===== *)
(** lw/http/http, lw/http/http_handler and lw/net/router: handlers, the answer
    to one request, and the loop that serves a connection. *)
From S2P Require Import Prelude Cxx StreamBuffer Strings Headers MountPath EndpointTrie.
From S2P Require Import HttpRequest CoReader HttpResponse.

(** * Connections *)

(** lw/io/co/co.h, [CoStream]: a source that can be written to and closed.  The
    bytes still to come are not changed by a write, and a closed connection is
    no longer good. *)
Class CoStream (S : Type) `{!CoReadable S} := {
  stream_write : str → ST S nat;
  stream_close : S → S;
  stream_write_keeps t c c' r : stream_write t c = (c', r) → stream c' = stream c;
  stream_close_ends c : source_good (stream_close c) = false;
}.

Section http.
Context (flags : reader_flags) `{RE : RegexEngine} {S : Type} `{CS : CoStream S}.
(** The growth of the string a response is written to, and the text of the error
    that a request with this header was rejected with. *)
Context (initial_capacity : nat → nat) (grow : nat → nat → nat) (what : HttpRequest → str).

(** * Handlers *)

Abbreviation reader := (CoReader (S := S)).

#[local] Instance reader_connection : BaseCoReader reader := CoReader_BaseCoReader flags.

(** A handler's method: it reads its (constant) request, may read the body from
    the connection, and fills in the response. *)
Definition method_body : Type := HttpRequest → ST (reader * HttpResponse) ().

Record HttpHandler := MkHandler {
  del : method_body; get : method_body; head : method_body; options : method_body;
  patch : method_body; post : method_body; put : method_body;
}.

Definition _default_behavior : method_body := λ _ p,
  ((p.1, set_status (status_value NOT_FOUND) p.2), Ok ()).

(** A handler that overrides nothing. *)
Definition base_handler : HttpHandler :=
  MkHandler _default_behavior _default_behavior _default_behavior _default_behavior
    _default_behavior _default_behavior _default_behavior.

(** [BaseHttpHandlerFactory]. *)
Record HttpHandlerFactory := MkFactory { factory_route : str; make_handler : HttpHandler }.

Definition trie : Type := TrieNode HttpHandlerFactory.

(** * One request *)

(** The objects alive while a request is answered. *)
Record exchange := MkExchange { x_request : HttpRequest; x_reader : reader; x_response : HttpResponse }.

Definition respond_failure (code : Z) (text : str) (res : HttpResponse) : HttpResponse :=
  set_body text (set_header (B "Content-Type") (B "text/plain") (set_status code res)).

(** [try_read_header(req, res)]. *)
Definition try_read_header : ST exchange bool := λ x,
  match read_header (x_request x, x_reader x) with
  | ((req, rd), Ok _) => (MkExchange req rd (x_response x), Ok true)
  | ((req, rd), Throw e) =>
      if decide (e = LwError InvalidArgument)
      then (MkExchange req rd (respond_failure (status_value BAD_REQUEST) (what req) (x_response x)),
            Ok false)
      else (MkExchange req rd (x_response x), Throw e)
  | ((req, rd), Undef) => (MkExchange req rd (x_response x), Undef)
  end.

(** [req.has_header("connection") && req.header("connection") == "keep-alive"]. *)
Definition keep_alive (req : HttpRequest) : bool :=
  has_header req (B "connection") && bool_decide (header req (B "connection") = Ok (B "keep-alive")).

(** A call on the connection under the reader. *)
Definition on_source {A} (m : ST S A) : ST exchange A := λ x,
  let rd := x_reader x in
  let '(c, a) := m (_source rd) in
  (MkExchange (x_request x) (MkReader c (_buffer rd) (_read_window rd) (_write_window rd)) (x_response x), a).

(** [finish_request(conn, req, res)]. *)
Definition finish_request : ST exchange () :=
  x ← st_get;
  text ← st_res (serialize initial_capacity grow (x_response x));
  on_source (stream_write text) ≫= λ _,
  if keep_alive (x_request x) then mret () else on_source (st_modify stream_close).

(** A method of a handler, run on the exchange. *)
Definition run_method (m : method_body) : ST exchange () := λ x,
  let '((rd, res), r) := m (x_request x) (x_reader x, x_response x) in
  (MkExchange (x_request x) rd res, r).

Definition st_response (f : HttpResponse → HttpResponse) : ST exchange () :=
  st_modify (λ x, MkExchange (x_request x) (x_reader x) (f (x_response x))).

(** The chain of comparisons that selects the method. *)
Definition dispatch (handler : HttpHandler) : ST exchange () :=
  x ← st_get;
  let m := _method (x_request x) in
  if decide (m = B "DELETE") then run_method (del handler)
  else if decide (m = B "GET") then run_method (get handler)
  else if decide (m = B "HEAD") then run_method (head handler)
  else if decide (m = B "OPTIONS") then run_method (options handler)
  else if decide (m = B "PATCH") then run_method (patch handler)
  else if decide (m = B "POST") then run_method (post handler)
  else if decide (m = B "PUT") then run_method (put handler)
  else st_response (respond_failure (status_value BAD_REQUEST) (B "Unknown method.")).

Definition route_request (t : trie) : ST exchange () :=
  x ← st_get;
  match_results ← st_res (default Undef (trie_match t (_path (x_request x))));
  match match_results with
  | None => st_response (respond_failure (status_value HttpResponse.NOT_FOUND) (B "Not Found."))
  | Some (params, endpoint) =>
      st_modify (λ x, MkExchange (set_route_params params (x_request x)) (x_reader x) (x_response x)) ≫= λ _,
      dispatch (make_handler endpoint)
  end.

Definition answer_request (t : trie) : ST exchange () :=
  ok ← try_read_header;
  (if (ok : bool) then route_request t else mret ()) ≫= λ _,
  finish_request.

(** [run_request(conn, trie)]: the reader lives as long as the request. *)
Definition run_request (t : trie) : ST S () := λ conn,
  let '(x, r) := answer_request t (MkExchange make_request (make_reader flags conn) make_response) in
  (_source (x_reader x), r).

(** * The router *)

Record HttpRouter := MkRouter { _trie : trie; _connection_counter : Z }.
Definition make_router : HttpRouter := MkRouter make_node 0.

(** [_trie.insert(mount_path, endpoint)]. *)
Definition trie_insert (ms : list PathMatcher) (factory : HttpHandlerFactory) : ST HttpRouter () :=
  λ router,
    let '(t, r) := EndpointTrie.insert factory_route ms factory (_trie router) in
    (MkRouter t (_connection_counter router), r).

(** [attach_routes()], over the registered routes in the order of the set. *)
Definition attach_route (factory : HttpHandlerFactory) : ST HttpRouter () :=
  ms ← st_res (parse_endpoint (factory_route factory)); trie_insert ms factory.
Definition attach_routes (registered : list HttpHandlerFactory) : ST HttpRouter () :=
  for_each attach_route registered.

(** The loop of [run]; [None] when the fuel runs out. *)
Fixpoint serve (fuel : nat) (t : trie) (conn : S) : option (S * res ()) :=
  if source_good conn then
    match fuel with
    | 0 => None
    | Datatypes.S fuel =>
        match run_request t conn with
        | (conn, Ok _) => serve fuel t conn
        | (conn, Throw (LwError _)) =>
            serve fuel t (if source_good conn then stream_close conn else conn)
        | (conn, Throw e) => Some (conn, Throw e)
        | (conn, Undef) => Some (conn, Undef)
        end
    end
  else Some (conn, Ok ()).

(** [run(conn)]: the last decrement is skipped when an exception that is not an
    [Error] leaves the loop. *)
Definition run (fuel : nat) (router : HttpRouter) (conn : S) : option (HttpRouter * S * res ()) :=
  let router := MkRouter (_trie router) (wrap_u 64 (_connection_counter router + 1)) in
  match serve fuel (_trie router) conn with
  | None => None
  | Some (conn, Ok _) =>
      Some (MkRouter (_trie router) (wrap_u 64 (_connection_counter router - 1)), conn, Ok ())
  | Some (conn, r) => Some (router, conn, r)
  end.

(** * Answers *)

(** The request, reader and response an exchange has when its answer is
    written, given what reading the header made of it. *)
Inductive answer (t : trie) (x : exchange) : exchange → Prop :=
  | answer_malformed req rd :
      read_header (x_request x, x_reader x) = ((req, rd), throw InvalidArgument) →
      answer t x (MkExchange req rd
        (respond_failure (status_value BAD_REQUEST) (what req) (x_response x)))
  | answer_not_found req rd :
      read_header (x_request x, x_reader x) = ((req, rd), Ok ()) →
      trie_match t (_path req) = Some (Ok None) →
      answer t x (MkExchange req rd
        (respond_failure (status_value HttpResponse.NOT_FOUND) (B "Not Found.") (x_response x)))
  | answer_routed req rd params endpoint x' :
      read_header (x_request x, x_reader x) = ((req, rd), Ok ()) →
      trie_match t (_path req) = Some (Ok (Some (params, endpoint))) →
      dispatch (make_handler endpoint) (MkExchange (set_route_params params req) rd (x_response x)) = (x', Ok ()) →
      answer t x x'.

(** The connection after an answer was written to it. *)
Definition finished (req : HttpRequest) (c : S) : S := if keep_alive req then c else stream_close c.

Lemma finish_ok x x' :
  finish_request x = (x', Ok ()) →
  ∃ text c n, serialize initial_capacity grow (x_response x) = Ok text ∧
    stream_write text (_source (x_reader x)) = (c, Ok n) ∧
    _source (x_reader x') = finished (x_request x) c.
Proof.
  unfold finish_request, mbind, ST_bind, st_get, st_res.
  destruct (serialize _ _ _) as [text|e|]; [|done..]. unfold on_source.
  destruct (stream_write text _) as [c [n|e|]] eqn:E; [|done..]. cbn [x_request x_reader _source].
  unfold finished. destruct (keep_alive _); cbn; intros [= <-]; eauto 10.
Qed.

Definition fresh (conn : S) : exchange :=
  MkExchange make_request (make_reader flags conn) make_response.

Lemma answer_request_ok t x x' :
  answer_request t x = (x', Ok ()) ↔ ∃ xa, answer t x xa ∧ finish_request xa = (x', Ok ()).
Proof.
  unfold answer_request, mbind, ST_bind, try_read_header.
  destruct (read_header (x_request x, x_reader x)) as [[req rd] r] eqn:E. split.
  - destruct r as [[]|e|]; [|destruct (decide _) as [->|]; [|done]|done].
    + unfold route_request, mbind, ST_bind, st_get, st_res, st_modify. cbn [x_request].
      destruct (trie_match t (_path req)) as [[[[ps f]|]|e|]|] eqn:Em; cbn [default from_option id]; try done.
      * destruct (dispatch _ _) as [xa [[]|e|]] eqn:Ed; [|done..].
        intros H. exists xa. split; [by eapply answer_routed|done].
      * intros H. eexists. split; [by eapply answer_not_found|done].
    + intros H. eexists. split; [by eapply answer_malformed|done].
  - intros (xa & [req' rd' Hr|req' rd' Hr Hm|req' rd' ps f xa' Hr Hm Hd] & Hf); rewrite E in Hr;
      injection Hr as -> -> ->.
    + unfold throw. by rewrite decide_True.
    + unfold route_request, mbind, ST_bind, st_get, st_res. cbn [x_request]. by rewrite Hm.
    + unfold route_request, mbind, ST_bind, st_get, st_res, st_modify. cbn [x_request]. rewrite Hm.
      cbn [default from_option id x_request x_reader x_response]. by rewrite Hd.
Qed.

(** * Termination *)

(** A method that does not put bytes back into its connection. *)
Definition reads_only (m : method_body) : Prop := ∀ req rd res rd' res' r,
  m req (rd, res) = ((rd', res'), r) →
  length (stream (_source rd')) ≤ length (stream (_source rd)).
Definition wf_handler (h : HttpHandler) : Prop :=
  reads_only (del h) ∧ reads_only (get h) ∧ reads_only (head h) ∧ reads_only (options h) ∧
  reads_only (patch h) ∧ reads_only (post h) ∧ reads_only (put h).
Definition wf_trie (t : trie) : Prop := ∀ path ps f,
  trie_match t path = Some (Ok (Some (ps, f))) → wf_handler (make_handler f).

Definition left_over (x : exchange) : nat := length (stream (_source (x_reader x))).

Lemma run_method_reads m x x' r :
  reads_only m → run_method m x = (x', r) → x_request x' = x_request x ∧ left_over x' ≤ left_over x.
Proof.
  intros Hm. unfold run_method. destruct (m _ _) as [[rd res] r'] eqn:E. intros [= <- <-].
  split; [done|]. by eapply Hm.
Qed.

Lemma dispatch_reads h x x' r :
  wf_handler h → dispatch h x = (x', r) → x_request x' = x_request x ∧ left_over x' ≤ left_over x.
Proof.
  intros (H1 & H2 & H3 & H4 & H5 & H6 & H7). unfold dispatch, mbind, ST_bind, st_get.
  repeat (destruct (decide _); [by apply run_method_reads|]).
  unfold st_response, st_modify. intros [= <- <-]. done.
Qed.

(** Reading a header from a fresh reader: either the request has no header
    fields, or bytes of the connection were used up. *)
Lemma read_header_shrinks conn req rd r :
  read_header (make_request, make_reader flags conn) = ((req, rd), r) →
  length (stream (_source rd)) ≤ length (stream conn) ∧
  (_headers req = [] ∨ length (stream (_source rd)) < length (stream conn)).
Proof.
  unfold read_header, mbind, ST_bind, on_request, on_connection, st_get. cbn [fst snd].
  rewrite decide_False by (intros H; by apply H). cbn [reader_read_until reader_connection CoReader_BaseCoReader fst snd].
  pose proof (do_call_delivers flags (ReadUntilStr (CRLF ++ CRLF) 0) (make_reader flags conn) (wf_make _ _) ltac:(done))
    as [_ Hd].
  unfold do_call in Hd. destruct (read_until_str _ _ _ _) as [rd' res] eqn:E. cbn [fst snd] in *.
  change (unread (make_reader flags conn)) with (stream conn) in Hd.
  assert (length (stream (_source rd')) ≤ length (unread rd')) as Hle
    by (unfold unread; rewrite length_app; lia).
  destruct res as [raw|e|].
  2-3: cbn; intros [= <- <- <-]; rewrite Hd in Hle; by auto.
  destruct Hd as [Hd _]. apply (f_equal length) in Hd. rewrite length_app in Hd.
  destruct raw as [|c raw].
  - cbn. intros [= <- <- <-]. split; [cbn in Hd; lia|by left].
  - destruct (parse_raw_header _ _) as [req' r'] eqn:Ep. intros [= <- <- <-]. cbn in Hd. split; [lia|right; lia].
Qed.

Lemma no_fields_closes req c : _headers req = [] → finished req c = stream_close c.
Proof. intros H. unfold finished, keep_alive, has_header. by rewrite H. Qed.

Lemma run_request_shrinks t conn conn' :
  wf_trie t → run_request t conn = (conn', Ok ()) →
  source_good conn' = false ∨ length (stream conn') < length (stream conn).
Proof.
  intros Ht. unfold run_request. change (MkExchange _ _ _) with (fresh conn).
  destruct (answer_request t (fresh conn)) as [x r] eqn:E. intros [= <- ->].
  apply answer_request_ok in E as (xa & Ha & Hf).
  apply finish_ok in Hf as (text & c & n & _ & Hw & ->). apply stream_write_keeps in Hw.
  assert (∃ req rd r, read_header (make_request, make_reader flags conn) = ((req, rd), r) ∧
    _headers (x_request xa) = _headers req ∧ left_over xa ≤ length (stream (_source rd))) as
    (req & rd & r & Hr & Hh & Hl).
  { destruct Ha as [req rd Hr|req rd Hr Hm|req rd ps f xa Hr Hm Hd]; [eauto 10..|].
    apply dispatch_reads in Hd as [Hreq Hl]; [|by eapply Ht].
    exists req, rd, (Ok ()). split; [done|]. by rewrite Hreq. }
  apply read_header_shrinks in Hr as [Hle [H0|Hlt]].
  - left. rewrite no_fields_closes by congruence. apply stream_close_ends.
  - unfold finished. destruct (keep_alive _); [right|left; apply stream_close_ends].
    rewrite Hw. unfold left_over in Hl. lia.
Qed.

Lemma serve_ends t fuel conn :
  wf_trie t → length (stream conn) < fuel →
  ∃ conn' r, serve fuel t conn = Some (conn', r) ∧
    (r = Ok () → source_good conn' = false) ∧ (∀ k, r ≠ Throw (LwError k)).
Proof.
  intros Ht. revert conn. induction fuel as [|fuel IH]; intros conn Hf; [lia|].
  assert (∀ c fuel, source_good c = false → serve fuel t c = Some (c, Ok ())) as Hend.
  { intros c [|?] Hc; cbn; by rewrite Hc. }
  cbn [serve]. destruct (source_good conn) eqn:Eg; [|eauto].
  destruct (run_request t conn) as [c [[]|e|]] eqn:E.
  - destruct (run_request_shrinks t conn c Ht E) as [Hg|Hlt]; [|apply IH; lia].
    rewrite Hend by done. eexists _, _. by split_and!.
  - destruct e as [k| | |]; [|by eexists _, _; split_and!..].
    destruct (source_good c) eqn:Ec; rewrite Hend by (done || apply stream_close_ends).
    + eexists _, _. split_and!; [done| |done]. intros _. apply stream_close_ends.
    + by eexists _, _; split_and!.
  - by eexists _, _; split_and!.
Qed.

(** The connections counted while one is served. *)
Lemma run_served fuel router conn conn' r :
  (0 ≤ _connection_counter router < 2 ^ 64)%Z → serve fuel (_trie router) conn = Some (conn', r) →
  run fuel router conn =
    Some (if decide (r = Ok ()) then router else MkRouter (_trie router) (wrap_u 64 (_connection_counter router + 1)), conn', r).
Proof.
  intros Hc E. unfold run. cbn [_trie _connection_counter]. rewrite E. destruct r as [[]|e|]; [|done..].
  rewrite decide_True by done. destruct router as [t n]. cbn in *.
  assert (wrap_u 64 (wrap_u 64 (n + 1) - 1) = n) as ->; [|done].
  unfold wrap_u. rewrite Zminus_mod_idemp_l. rewrite Z.mod_small; lia.
Qed.

(** * Attaching *)

Lemma default_reads_only : reads_only _default_behavior.
Proof. by intros req rd res rd' res' r [= <- <- <-]. Qed.

Lemma attach_route_inside f g router :
  inside g (_trie (attach_route f router).1) → inside g (_trie router) ∨ g = f.
Proof.
  unfold attach_route, mbind, ST_bind, st_res. destruct (parse_endpoint _) as [ms|e|]; [|by left..].
  unfold trie_insert. pose proof (insert_adds factory_route ms g f (_trie router)) as H.
  by destruct (EndpointTrie.insert _ _ _ _).
Qed.

Lemma attach_routes_inside registered g :
  inside g (_trie (attach_routes registered make_router).1) → g ∈ registered.
Proof.
  assert (∀ router, inside g (_trie (attach_routes registered router).1) →
    inside g (_trie router) ∨ g ∈ registered) as H.
  2: { intros Hg. destruct (H _ Hg) as [Hm|]; [by apply inside_make_node in Hm|done]. }
  induction registered as [|f l IH]; intros router; [by left|].
  unfold attach_routes. cbn [for_each]. unfold mbind, ST_bind.
  pose proof (attach_route_inside f g router) as Hf.
  destruct (attach_route f router) as [router1 [[]|e|]]; cbn [fst] in *.
  - intros Hg. destruct (IH router1 Hg) as [Hi|]; [|right; by right].
    destruct (Hf Hi) as [|E]; [by left|right; rewrite E; left].
  - intros Hg. destruct (Hf Hg) as [|E]; [by left|right; rewrite E; left].
  - intros Hg. destruct (Hf Hg) as [|E]; [by left|right; rewrite E; left].
Qed.
End http.

(** * Properties *)

(** Whatever routes are registered, and wherever attaching them stops, a
    path is only ever routed to a factory that was registered. *)
Theorem routed_to_registered `{RE : RegexEngine} {S} `{CS : CoStream S}
    (registered : list (HttpHandlerFactory (S := S))) (path : str) (ps : Headers) (f : HttpHandlerFactory (S := S)) :
  trie_match (_trie (attach_routes registered make_router).1) path = Some (Ok (Some (ps, f))) →
  f ∈ registered.
Proof. intros H. by eapply attach_routes_inside, match_inside. Qed.

(** One request on a connection: the call returns exactly when an answer is
    determined (a 400 for a malformed header, a 404 for a path no route
    matches, or what the selected method of the matched endpoint's handler
    makes of the response, a 400 for an unknown method), that answer can be
    serialized and the write succeeds; then the connection is the one the
    answer was written to, left open only for a request with a Connection field
    that reads keep-alive. *)
Theorem run_request_answers (flags : reader_flags) `{RE : RegexEngine} {S} `{CS : CoStream S}
    (initial_capacity : nat → nat) (grow : nat → nat → nat) (what : HttpRequest → str)
    (t : trie) (conn conn' : S) :
  run_request flags initial_capacity grow what t conn = (conn', Ok ()) ↔
  ∃ xa text c n, answer flags what t (fresh flags conn) xa ∧
    serialize initial_capacity grow (x_response xa) = Ok text ∧
    stream_write text (_source (x_reader xa)) = (c, Ok n) ∧
    conn' = finished (x_request xa) c.
Proof.
  unfold run_request. change (MkExchange _ _ _) with (fresh flags conn). split.
  - destruct (answer_request _ _ _ _ t _) as [x r] eqn:E. intros [= <- ->].
    apply answer_request_ok in E as (xa & Ha & Hf). apply finish_ok in Hf as (text & c & n & ? & ? & ?).
    eauto 10.
  - intros (xa & text & c & n & Ha & Hs & Hw & ->).
    assert (∃ x', finish_request initial_capacity grow xa = (x', Ok ()) ∧
      _source (x_reader x') = finished (x_request xa) c) as (x' & Hx & Hc).
    { unfold finish_request, mbind, ST_bind, st_get, st_res. rewrite Hs. unfold on_source. rewrite Hw.
      unfold finished. cbn [x_request]. destruct (keep_alive _); cbn; eauto. }
    assert (answer_request flags initial_capacity grow what t (fresh flags conn) = (x', Ok ())) as ->
      by (apply answer_request_ok; eauto).
    by rewrite Hc.
Qed.

(** C3.  The router serves every connection to its end: however many requests
    the client sends, kept alive or not, well-formed or not, the loop ends after
    at most one more request than the connection had bytes, provided the
    handlers only read.  A connection left normally is closed or exhausted and
    the counter of connections is what it was before; no [Error] ever leaves
    the loop, and when another exception does, the counter stays one too
    high. *)
Theorem run_terminates (flags : reader_flags) `{RE : RegexEngine} {S} `{CS : CoStream S}
    (initial_capacity : nat → nat) (grow : nat → nat → nat) (what : HttpRequest → str)
    (router : HttpRouter) (conn : S) :
  wf_trie (_trie router) → (0 ≤ _connection_counter router < 2 ^ 64)%Z →
  ∃ router' conn' r,
    run flags initial_capacity grow what (length (stream conn) + 1) router conn = Some (router', conn', r) ∧
    (∀ k, r ≠ Throw (LwError k)) ∧
    (r = Ok () → source_good conn' = false ∧ router' = router) ∧
    (r ≠ Ok () → router' = MkRouter (_trie router) (wrap_u 64 (_connection_counter router + 1))).
Proof.
  intros Ht Hc. destruct (serve_ends flags initial_capacity grow what (_trie router)
    (length (stream conn) + 1) conn Ht) as (conn' & r & E & Hg & Hk); [lia|].
  rewrite (run_served flags initial_capacity grow what _ router conn conn' r Hc E).
  eexists _, _, r. split; [done|]. split; [done|]. split; [intros ->; split; [by apply Hg|done]|].
  intros Hr. by rewrite decide_False.
Qed.

(** * Examples *)

#[local] Existing Instance literal_engine.

(** A connection that delivers its bytes in chunks and collects what is
    written. *)
Record Wire := MkWire { incoming : list str; sent : str; is_open : bool }.

Definition wire_read (n : nat) : ST Wire str := λ w,
  let '(c, r) := chunk_read n (incoming w) in (MkWire c (sent w) (is_open w), r).

#[export] Instance wire_readable : CoReadable Wire.
Proof.
  refine {|
    source_eof := λ w, bool_decide (incoming w = []);
    source_good := λ w, is_open w && negb (bool_decide (incoming w = []));
    source_read := wire_read;
    stream := λ w, concat (incoming w) |}.
  - intros n s s' d. unfold wire_read. destruct (chunk_read n (incoming s)) as [c r] eqn:E.
    intros [= <- ->]. exact (source_read_next n (incoming s) c d E).
  - intros n s s' r. unfold wire_read. destruct (chunk_read n (incoming s)) as [c r'] eqn:E.
    intros [= <- ->]. exact (source_read_failed n (incoming s) c r E).
Defined.

#[export] Instance wire_stream : CoStream Wire.
Proof.
  refine {|
    stream_write := λ t w, (MkWire (incoming w) (sent w ++ t) (is_open w), Ok (length t));
    stream_close := λ w, MkWire (incoming w) (sent w) false |}; [|done].
  by intros t c c' r [= <- <-].
Defined.

(** A handler that answers GET with a route parameter. *)
Definition greet : method_body (S := Wire) := λ req p,
  match route_param req (B "name") with
  | Ok v => ((p.1, set_body (B "Hello " ++ v) p.2), Ok ())
  | Throw e => (p, Throw e)
  | Undef => (p, Undef)
  end.
Definition greeter : HttpHandlerFactory (S := Wire) :=
  MkFactory (B "/hi/:name") (MkHandler _default_behavior greet _default_behavior _default_behavior
    _default_behavior _default_behavior _default_behavior).

Lemma greet_reads_only : reads_only greet.
Proof.
  intros req rd res rd' res' r. unfold greet. by destruct (route_param _ _); intros [= <- <- <-].
Qed.

Definition wire_flags : reader_flags := ReaderFlags 64 256 128.
Definition attached : HttpRouter (S := Wire) :=
  (attach_routes [greeter] make_router).1.
Definition serve_wire := run wire_flags (λ _, 15) Nat.max (λ _, B "malformed").

Definition get_request (target connection : str) : str :=
  B "GET " ++ target ++ B " HTTP/1.1" ++ CRLF ++ B "Connection: " ++ connection ++ CRLF ++ CRLF.
Definition greeting : str := B "HTTP/1.1 200 OK" ++ CRLF ++ B "Content-Length: 9" ++ CRLF ++ CRLF ++ B "Hello bob".

Lemma run_request_answers_witness :
  ∃ xa text c n,
    answer wire_flags (λ _, []) (_trie attached)
      (fresh wire_flags (MkWire [get_request (B "/hi/bob") (B "close")] [] true)) xa ∧
    serialize (λ _, 15) Nat.max (x_response xa) = Ok text ∧
    stream_write text (_source (x_reader xa)) = (c, Ok n) ∧
    MkWire [] greeting false = finished (x_request xa) c.
Proof. apply run_request_answers. vm_compute. reflexivity. Defined.

Lemma routed_to_registered_witness :
  trie_match (_trie (attach_routes [greeter] make_router).1) (B "/hi/bob")
    = Some (Ok (Some ([(B "name", B "bob")], greeter))) ∧
  greeter ∈ [greeter].
Proof.
  split; [reflexivity|].
  apply (routed_to_registered [greeter] (B "/hi/bob") [(B "name", B "bob")] greeter). reflexivity.
Defined.

Lemma greeter_wf : wf_handler (make_handler greeter).
Proof. split_and!; try apply default_reads_only. apply greet_reads_only. Qed.

Lemma attached_eq : attached = (attach_routes [greeter] make_router).1.
Proof. reflexivity. Qed.

Lemma attached_wf : wf_trie (_trie attached).
Proof.
  intros path ps f H. apply match_inside in H. rewrite attached_eq in H. apply attach_routes_inside in H.
  apply list_elem_of_singleton in H. rewrite H. exact greeter_wf.
Qed.

Definition two_requests : Wire :=
  MkWire [get_request (B "/hi/bob") (B "keep-alive"); get_request (B "/hi/bob") (B "close")] [] true.

Lemma run_terminates_witness :
  ∃ router' conn' r,
    run wire_flags (λ _, 15) Nat.max (λ _, B "malformed") (length (stream two_requests) + 1) attached two_requests
    = Some (router', conn', r) ∧ (∀ k, r ≠ Throw (LwError k)) ∧
    (r = Ok () → source_good conn' = false ∧ router' = attached) ∧
    (r ≠ Ok () → router' = MkRouter (_trie attached) (wrap_u 64 (_connection_counter attached + 1))).
Proof.
  apply run_terminates; [exact attached_wf|]. by vm_compute.
Defined.

(** Two requests, each in its chunk, are both answered. *)
Lemma kept_alive :
  option_map (λ p, p.1.2) (serve_wire 3 attached two_requests)
  = Some (MkWire [] (greeting ++ greeting) false).
Proof. vm_compute. reflexivity. Qed.

(** * Behaviour a caller would not expect *)

(** Two requests that arrive together: the second is lost with the reader of the
    first. *)
Lemma pipelined_request_lost :
  option_map (λ p, p.1.2) (serve_wire 3 attached
    (MkWire [get_request (B "/hi/bob") (B "keep-alive") ++ get_request (B "/hi/bob") (B "close")] [] true))
  = Some (MkWire [] greeting true).
Proof. vm_compute. reflexivity. Qed.

(** A handler that asks for a parameter its route does not have throws
    [std::out_of_range], which is not an [Error]: it leaves the router with the
    connection open and still counted. *)
Definition asks_for_more : HttpHandlerFactory (S := Wire) :=
  MkFactory (B "/who") (MkHandler _default_behavior greet _default_behavior _default_behavior
    _default_behavior _default_behavior _default_behavior).
Lemma missing_parameter_escapes :
  option_map (λ p, (_connection_counter p.1.1, p.1.2, p.2))
    (serve_wire 3 (attach_routes [asks_for_more] make_router).1
       (MkWire [get_request (B "/who") (B "close")] [] true))
  = Some (1%Z, MkWire [] [] true, Throw StdOutOfRange).
Proof. vm_compute. reflexivity. Qed.
