(* ===== verification/Sessions.v ===== *)
(** A whole session of the HTTP server: requests that arrive on a connection in
    pieces are read, parsed, routed through the registered endpoints, handled and
    answered, one after the other, by [HttpRouter::run]; with the handler of
    examples/echo_server.cpp. *)
From S2P Require Import Prelude Cxx StreamBuffer Strings Headers MountPath EndpointTrie HttpRequest CoReader HttpResponse Http.

(** * Finding the end of a header *)

(** The search of [read_until] on a text that is all there: how many characters
    it looks at, with [pos] characters of the pattern matched so far. *)
Fixpoint search (pat : str) (pos : nat) (s : str) : option nat :=
  match s with
  | [] => None
  | c :: s =>
      if decide (pat !! pos = Some c) then
        if decide (pos + 1 = length pat) then Some 1 else S <$> search pat (pos + 1) s
      else S <$> search pat 0 s
  end.

(** A blank line is found at the end of the text and not before. *)
Definition HEADER_END : str := CRLF ++ CRLF.
Definition terminated (raw : str) : Prop := search HEADER_END 0 raw = Some (length raw).

Lemma search_app pat s r : ∀ pos k, search pat pos s = Some k → search pat pos (s ++ r) = Some k.
Proof.
  induction s as [|c s IH]; intros pos k; [done|]. cbn [search app].
  destruct (decide _); [destruct (decide _); [done|]|];
    intros (k' & Hk & ->)%fmap_Some; by rewrite (IH _ _ Hk).
Qed.

Lemma search_pos pat pos s k : search pat pos s = Some k → 0 < k.
Proof.
  destruct s as [|c s]; [done|]. cbn [search]. destruct (decide _); [destruct (decide _)|];
    [intros [= <-]; lia|..]; intros (? & _ & ->)%fmap_Some; lia.
Qed.

(** Text without a carriage return is passed over. *)
Lemma search_plain a s k :
  no_char CR a = true → search HEADER_END 0 s = Some k → search HEADER_END 0 (a ++ s) = Some (length a + k).
Proof.
  intros Ha Hs. induction a as [|c a IH]; [done|]. cbn in Ha. apply andb_true_iff in Ha as [Hc Ha].
  apply negb_true_iff, Ascii.eqb_neq in Hc. cbn [app search length].
  rewrite decide_False by (cbn; congruence). by rewrite (IH Ha).
Qed.

Definition starts_plain (s : str) : Prop := ∃ c r, s = c :: r ∧ c ≠ CR.

(** After the end of a line, text that goes on with a carriage return ends the
    header, and anything else is a new line. *)
Lemma search_new_line s : starts_plain s → search HEADER_END 2 s = search HEADER_END 0 s.
Proof.
  intros (c & r & -> & Hc). cbn [search].
  by rewrite !decide_False by (cbn; congruence).
Qed.

Lemma search_line a s k :
  no_char CR a = true → search HEADER_END 2 s = Some k →
  search HEADER_END 0 (a ++ CRLF ++ s) = Some (length (a ++ CRLF) + k).
Proof.
  intros Ha Hs. rewrite length_app, <- Nat.add_assoc. apply search_plain; [done|].
  change (CRLF ++ s) with (CR :: LF :: s). cbn [search].
  rewrite decide_True, decide_False by done. rewrite decide_True, decide_False by done.
  cbn [Nat.add] in *. by rewrite Hs.
Qed.

Lemma no_char_app c a b : no_char c (a ++ b) = no_char c a && no_char c b.
Proof. unfold no_char. by rewrite forallb_app. Qed.

Lemma no_char_forallb f c a : forallb f a = true → f c = false → no_char c a = true.
Proof.
  intros Ha Hc. unfold no_char. apply forallb_forall. intros x Hx.
  rewrite forallb_forall in Ha. specialize (Ha x Hx). by destruct (Ascii.eqb_spec x c) as [->|]; [congruence|].
Qed.

(** The header fields of a request and the blank line after them. *)
Lemma search_fields hs :
  Forall wf_header hs →
  search HEADER_END 2 (concat (map header_line hs) ++ CRLF)
  = Some (length (concat (map header_line hs) ++ CRLF)).
Proof.
  induction 1 as [|[k v] hs (Hk & Hv & _) _ IH]; [done|]. cbn [map concat fst snd] in *.
  set (rest := concat (map header_line hs) ++ CRLF) in *.
  assert ((header_line (k, v) ++ concat (map header_line hs)) ++ CRLF
    = (k ++ B ": " ++ v) ++ CRLF ++ rest) as ->
    by (unfold rest, header_line at 1; cbn [fst snd]; by rewrite <- !app_assoc).
  assert (no_char CR k = true) as Hkc by (by eapply no_char_forallb).
  rewrite search_new_line.
  - rewrite (search_line _ rest (length rest)); [by rewrite !length_app; f_equal; lia| |done].
    by rewrite !no_char_app, Hkc, Hv.
  - destruct k as [|c k]; [by exists ":"%char; eexists|].
    exists c. eexists. split; [done|]. cbn in Hkc. apply andb_true_iff in Hkc as [Hc _].
    by apply negb_true_iff, Ascii.eqb_neq in Hc.
Qed.

(** The text of a request ends where its header does. *)
Lemma request_terminated method path version query hs :
  wf_line method path version query → Forall wf_header hs →
  terminated (request_text method path version query hs).
Proof.
  intros (Hm & Hp & Hv & Hq) Hhs. unfold terminated, request_text, request_line.
  set (rest := concat (map header_line hs) ++ CRLF).
  assert ((method ++ " "%char :: path ++ target_text query ++ " "%char :: version ++ CRLF) ++ rest
    = (method ++ " "%char :: path ++ target_text query ++ " "%char :: version) ++ CRLF ++ rest) as ->
    by (repeat (rewrite <- app_assoc || cbn [app]); done).
  rewrite (search_line _ rest (length rest)); [by rewrite !length_app; f_equal; lia| |by apply search_fields].
  assert (∀ a, forallb not_space a = true → no_char CR a = true) as Hns
    by (intros a Ha; by eapply no_char_forallb).
  assert (no_char CR path = true) as Hpc by (by eapply no_char_forallb).
  assert (no_char CR (target_text query) = true) as Hqc.
  { destruct query as [items|]; [|done]. apply (Hns ("?"%char :: _)). cbn. by rewrite (proj2 Hq). }
  change (" "%char :: path ++ target_text query ++ " "%char :: version)
    with ([" "%char] ++ path ++ target_text query ++ [" "%char] ++ version).
  by rewrite !no_char_app, (Hns method), (Hns version), Hpc, Hqc.
Qed.

(** * A message that arrives *)

Section arrival.
Context {T : Type} `{!CoReadable T}.

(** Reads deliver the text in nonempty pieces and leave [c'].  The reader asks
    for [n] bytes less what it was given, and reads only while some of the [m]
    bytes of a header are missing: what arrives later is not part of the text. *)
Inductive arrives (c' : T) : nat → nat → T → str → Prop :=
  | arrived n m : arrives c' n m c' []
  | arrives_next n m c d rest c1 :
      0 < m → source_good c = true → source_read n c = (c1, Ok d) → d ≠ [] →
      arrives c' (n - length d) (m - length d) c1 rest → arrives c' n m c (d ++ rest).

(** What a reader has and will be given. *)
Definition pending (c' : T) (limit m : nat) (r : CoReader (S := T)) (text : str) : Prop :=
  wf_reader r ∧ ∃ rest, text = buffered r ++ rest ∧
    arrives c' (limit - win_size (_read_window r)) (m - win_size (_read_window r)) (_source r) rest.

(** A reader that was given all of it. *)
Definition holds (c' : T) (body : str) (r : CoReader (S := T)) : Prop :=
  wf_reader r ∧ buffered r = body ∧ _source r = c'.

Lemma pending_holds c' limit m r text :
  pending c' limit m r text → m ≤ win_size (_read_window r) → holds c' text r.
Proof.
  intros (Hwf & rest & -> & Ha) Hm. inversion Ha; subst; [by split_and!; rewrite ?app_nil_r|lia].
Qed.
End arrival.

(** ** Reading up to a pattern *)

Section reading.
Context (flags : reader_flags) {T : Type} `{!CoReadable T}.
Implicit Types r : CoReader (S := T).

(** There is room in the block for what a search up to [limit] may load: either
    nothing was read yet and the block may grow enough, or the windows have the
    room. *)
Definition roomy (limit : nat) r : Prop :=
  (data (_write_window r) = None ∧ 0 < length (_buffer r) ∧
   length (_buffer r) + limit ≤ maximum_read_buffer_size flags) ∨
  (is_Some (data (_write_window r)) ∧
   limit ≤ win_size (_read_window r) + win_size (_write_window r)).

(** The room is made by the first load. *)
Lemma adjust_room limit r :
  wf_reader r → roomy limit r → win_size (_read_window r) < limit →
  ∃ r1, (if decide (win_size (_write_window r) < limit - win_size (_read_window r))
         then adjust_buffers flags (limit - win_size (_read_window r)) r else Ok r) = Ok r1 ∧
    adjusted (limit - win_size (_read_window r)) r r1 ∧
    win_size (_read_window r1) = win_size (_read_window r).
Proof.
  intros Hwf Hroom Hlt. destruct (decide _) as [Hw|Hw].
  - destruct Hroom as [(Hn & Hpos & Hmax)|[_ Hle]]; [|lia].
    destruct Hwf as [(E1 & E2 & E3 & E4)|(off & _ & E2 & _)]; [|congruence].
    assert (wf_reader r) as Hwf by (by left). rewrite E2, Nat.sub_0_r in *.
    destruct (adjust_buffers flags limit r) as [r1|e|] eqn:Ea.
    1: { exists r1. pose proof (adjust_spec flags limit r r1 Hwf Hw Ea) as Had.
         split_and!; [done..|]. destruct Had as (Hwf1 & Hb & _).
         rewrite <- (buffered_length r1 Hwf1), Hb, (buffered_length r Hwf). lia. }
    all: exfalso; revert Ea; unfold adjust_buffers; rewrite decide_False, E1, E4, Nat.sub_0_r by lia;
      unfold realloc_buffers; rewrite decide_False by lia;
      destruct (double_until_total (length (_buffer r) + limit) (length (_buffer r) + limit) (length (_buffer r) * 2))
        as [n ->]; [lia..|]; unfold trim_prefix; rewrite E2; cbn [win_size];
      by rewrite decide_True by lia.
  - exists r. unfold adjusted. split_and!; [done..|lia| |done].
    destruct Hroom as [(Hn & _)|[Hs _]]; [|done].
    destruct Hwf as [(_ & _ & _ & E)|(? & _ & ? & _)]; [lia|congruence].
Qed.

(** A load delivers the next piece of what is pending. *)
Lemma load_pending c' limit m r text :
  pending c' limit m r text → roomy limit r → win_size (_read_window r) < limit →
  length (buffered r) < length text →
  ∃ r1, _load_buffer flags (limit - win_size (_read_window r)) r = (r1, Ok ()) ∧
    pending c' limit m r1 text ∧ roomy limit r1 ∧ win_size (_read_window r) < win_size (_read_window r1).
Proof.
  intros (Hwf & rest & Ht & Hs) Hroom Hlt Hlen.
  destruct (adjust_room limit r Hwf Hroom Hlt) as (ra & Ha & (Hwfa & Hba & Hsa & Hwa & off & Hoff) & Hra).
  set (n := limit - win_size (_read_window r)) in *. assert (0 < n) as Hn by lia.
  inversion Hs as [|? ? c d rest' c1 Hm _ Hd Hne Hs' E1 E2 E3 E4]; subst; [rewrite app_nil_r in Hlen; lia|].
  pose proof (source_read_next _ _ _ _ Hd) as [Hdn Hstream].
  assert (0 < length d) as Hdpos by (destruct d; [done|cbn; lia]).
  destruct (_load_buffer flags n r) as [r1 res] eqn:El.
  pose proof (load_spec flags n r r1 res Hwf Hn El) as (Hwf1 & Hu & Hok).
  revert El. unfold _load_buffer. rewrite Ha, Hsa, Hd, Hoff.
  unfold trim_prefix. rewrite decide_True by lia. rewrite Hoff. cbn [fmap option_fmap option_map].
  intros [= Er <-]. destruct (Hok eq_refl) as [_ [d' Hd']]. exists r1.
  assert (_source r1 = c1) as Hc1 by by rewrite <- Er.
  assert (win_size (_read_window r1) = win_size (_read_window r) + length d) as Hr1
    by (rewrite <- Er; cbn; lia).
  assert (d' = d) as ->.
  { unfold unread in Hu. rewrite Hd', Hc1, Hstream, <- app_assoc in Hu.
    apply app_inv_head in Hu. by apply app_inv_tail in Hu. }
  split_and!; [done| | |lia].
  - split; [done|]. exists rest'. rewrite Hd', Hc1, Hr1, <- app_assoc. split; [done|].
    by rewrite !Nat.sub_add_distr.
  - right. rewrite Hr1. rewrite <- Er. cbn. split; [eauto|]. lia.
Qed.

Lemma take_window_holds c' n r text :
  holds c' text r → n ≤ length text →
  ∃ r1, take_window n r = (r1, Ok (take n text)) ∧ holds c' (drop n text) r1.
Proof.
  intros (Hwf & <- & Hc) Hn. rewrite (buffered_length r Hwf) in Hn.
  destruct (take_window_delivers n r r (λ _ _, True) Hwf Hn eq_refl (λ _, I)) as [Hwf1 H1].
  destruct (take_window n r) as [r1 res] eqn:E. cbn [fst snd] in *.
  revert E. unfold take_window, trim_prefix. rewrite decide_True by done. intros [= Er <-].
  assert (_source r1 = _source r) as Hsrc by by rewrite <- Er. clear Er. destruct H1 as [Hu _].
  exists r1. split; [done|]. split_and!; [done| |congruence].
  unfold unread in Hu. rewrite Hsrc, app_assoc in Hu. apply app_inv_tail in Hu.
  rewrite <- (take_drop n (buffered r)) in Hu at 1. by apply app_inv_head in Hu.
Qed.

(** One iteration of the search: byte [i] of what is pending comes to lie in the
    window. *)
Lemma fill_pending c' limit m i r text :
  pending c' limit m r text → roomy limit r → i < limit → i < m → i < length text →
  i ≤ win_size (_read_window r) →
  ∃ r1, fill flags limit i r = (r1, Ok false) ∧ pending c' limit m r1 text ∧ roomy limit r1 ∧
    i < win_size (_read_window r1).
Proof.
  intros Hp Hroom Hi Him Hlt Hle. pose proof Hp as (Hwf & rest & Ht & Hs).
  pose proof (buffered_length r Hwf) as Hb.
  unfold fill, mbind at 1, ST_bind, st_get. destruct (decide _) as [Hend|]; [|exists r; split_and!; (done || lia)].
  assert (i = win_size (_read_window r)) as -> by lia.
  assert (good r = true) as ->.
  { unfold good. apply orb_true_iff. right. inversion Hs; [|done]. subst. rewrite app_nil_r in Hlt. lia. }
  destruct (load_pending c' limit m r text Hp Hroom Hi) as (r1 & E & Hp1 & Hr1 & Hw); [lia|].
  unfold mbind, ST_bind. rewrite E. exists r1. split_and!; (done || lia).
Qed.

Lemma pending_window c' limit m r text i :
  pending c' limit m r text → i < win_size (_read_window r) → buffered r !! i = text !! i.
Proof.
  intros (Hwf & rest & -> & _) Hi. rewrite lookup_app_l; [done|]. by rewrite buffered_length.
Qed.

Lemma until_str_finds c' pat limit m text : ∀ n pos i r k,
  pending c' limit m r text → roomy limit r → i ≤ win_size (_read_window r) → i + n = limit →
  pos < length pat → search pat pos (drop i text) = Some k → k ≤ n → i + k = m →
  ∃ r1, until_str flags pat limit pos i n r = (r1, Ok (take m text)) ∧ holds c' (drop m text) r1.
Proof.
  induction n as [|n IH]; intros pos i r k Hp Hroom Hi Hn Hpos Hk Hkn Hm; pose proof (search_pos _ _ _ _ Hk); [lia|].
  destruct (drop i text) as [|c s] eqn:Hd; [done|].
  assert (text !! i = Some c) as Hc by (rewrite <- (Nat.add_0_r i), <- lookup_drop, Hd; done).
  assert (drop (i + 1) text = s) as Hs by (by rewrite <- drop_drop, Hd).
  pose proof (lookup_lt_Some _ _ _ Hc) as Hlt.
  destruct (fill_pending c' limit m i r text) as (r1 & Ef & Hp1 & Hr1 & Hw1); [done..|lia|lia|done|lia|].
  destruct (lookup_lt_is_Some_2 pat pos Hpos) as [p Ep].
  rewrite (until_str_step _ _ _ _ _ _ _ _ _ Ef Ep), (pending_window c' limit m r1 text i Hp1 Hw1), Hc.
  cbn [search] in Hk. rewrite Ep in Hk.
  destruct (decide (c = p)) as [->|Hne]; [rewrite decide_True in Hk by done|rewrite decide_False in Hk by congruence].
  - destruct (decide (pos + 1 = length pat)) as [E|E].
    + injection Hk as <-. subst m. apply take_window_holds; [|lia]. eapply pending_holds; [exact Hp1|lia].
    + apply fmap_Some in Hk as (k' & Hk & ->).
      apply (IH (pos + 1) (i + 1) r1 k'); [done|done|lia..|by rewrite Hs|lia|lia].
  - apply fmap_Some in Hk as (k' & Hk & ->).
    apply (IH 0 (i + 1) r1 k'); [done|done|lia..|by rewrite Hs|lia|lia].
Qed.

(** A header that fits the block is read whole, however it arrives, and what
    arrived with its last piece stays to be read. *)
Lemma read_until_finds c c' pat raw rest :
  pat ≠ [] → search pat 0 raw = Some (length raw) →
  arrives c' (read_block_size flags) (length raw) c (raw ++ rest) →
  length raw ≤ read_block_size flags → 0 < initial_read_buffer_size flags →
  initial_read_buffer_size flags + read_block_size flags ≤ maximum_read_buffer_size flags →
  ∃ r, read_until_str flags pat 0 (make_reader flags c) = (r, Ok raw) ∧ holds c' rest r.
Proof.
  intros Hpat Hs Ha Hlen Hpos Hmax. unfold read_until_str. rewrite decide_True by done.
  destruct (until_str_finds c' pat (read_block_size flags) (length raw) (raw ++ rest) (read_block_size flags) 0 0
    (make_reader flags c) (length raw)) as (r & E & Hp).
  - split; [by left|]. exists (raw ++ rest). cbn. by rewrite !Nat.sub_0_r.
  - left. cbn. rewrite length_replicate. split_and!; (done || lia).
  - done.
  - done.
  - destruct pat; [done|cbn; lia].
  - rewrite drop_0. by apply search_app.
  - done.
  - done.
  - exists r. by rewrite take_app_length in E; rewrite drop_app_length in Hp.
Qed.

(** A body that is all there is handed out whole. *)
Lemma body_whole c' body req rd :
  holds c' body rd → _content_length req = Z.of_nat (length body) →
  (Z.of_nat (length body) < 2 ^ 64)%Z →
  ∃ rd', HttpRequest.body (BaseCoReader0 := CoReader_BaseCoReader flags) (req, rd) = ((req, rd'), Ok body) ∧
    holds c' [] rd'.
Proof.
  intros Hh Hc Hmax. unfold HttpRequest.body, mbind, ST_bind, on_request, on_connection, st_get, content_length.
  cbn [fst snd]. rewrite Hc, wrap_u_small by lia. destruct (Z.eqb_spec (Z.of_nat (length body)) 0) as [E|E].
  - exists rd. by destruct body.
  - replace (Z.of_nat (length body) >? 0)%Z with true by lia.
    cbn [fst snd reader_read CoReader_BaseCoReader]. rewrite Nat2Z.id.
    unfold read, mbind, ST_bind, st_get. pose proof Hh as (Hwf & Hb & _).
    assert (win_size (_read_window rd) = length body) as Hw by (rewrite <- Hb; symmetry; by apply buffered_length).
    rewrite decide_False by lia. unfold mret, ST_ret. rewrite Hw, Nat.min_id.
    destruct (take_window_holds c' (length body) rd body Hh) as (rd' & Et & Hh'); [done|].
    rewrite firstn_all in Et. rewrite drop_all in Hh'. rewrite Et. eauto.
Qed.
End reading.

(** * Routes *)

Section routes.
Context `{RE : RegexEngine} {T : Type} `{CS : CoStream T}.
Implicit Types router : HttpRouter (S := T).

Lemma attach_route_ok f router router' :
  attach_route f router = (router', Ok ()) →
  ∃ ms n, parse_endpoint (factory_route f) = Ok ms ∧
    EndpointTrie.insert factory_route ms f (_trie router) = (n, Ok ()) ∧
    router' = MkRouter n (_connection_counter router).
Proof.
  unfold attach_route, mbind, ST_bind, st_res, trie_insert.
  destruct (parse_endpoint _) as [ms|e|] eqn:Ep; [|done..].
  destruct (EndpointTrie.insert _ _ _ _) as [n r] eqn:Ei. intros [= <- ->]. eauto 10.
Qed.

Lemma attach_routes_cons f l router router' :
  attach_routes (f :: l) router = (router', Ok ()) →
  ∃ r1, attach_route f router = (r1, Ok ()) ∧ attach_routes l r1 = (router', Ok ()).
Proof.
  unfold attach_routes. cbn [for_each]. unfold mbind, ST_bind.
  destruct (attach_route f router) as [r1 [[]|e|]]; [eauto|done..].
Qed.

(** Attaching leaves the counter alone and what is found by characters where it
    is. *)
Lemma attach_routes_keeps l : ∀ router router',
  attach_routes l router = (router', Ok ()) →
  _connection_counter router' = _connection_counter router ∧ keeps (_trie router) (_trie router').
Proof.
  induction l as [|f l IH]; intros router router' H; [by injection H as <-; split; [|intros s e]|].
  apply attach_routes_cons in H as (r1 & (ms & n & _ & Hi & ->)%attach_route_ok & H).
  destruct (IH _ _ H) as [Hc Hk]. split; [done|]. intros s e Hs. apply Hk. cbn [_trie].
  pose proof (insert_keeps factory_route ms f (_trie router) s e Hs) as Hn. by rewrite Hi in Hn.
Qed.

(** An endpoint of literal segments. *)
Definition literal_endpoint (path : str) : Prop :=
  ∃ name names, path = endpoint_text (map SLiteral (name :: names)) ∧
    Forall wf_segment (map SLiteral (name :: names)).

Lemma route_text_literals names :
  route_text (map LiteralPathMatcher names) = endpoint_text (map SLiteral names).
Proof. unfold route_text, endpoint_text. by rewrite !map_map. Qed.

(** A registered literal endpoint is found by its own text, whatever was
    attached before and after it. *)
Lemma attached_literal l f : ∀ router router',
  f ∈ l → literal_endpoint (factory_route f) → attach_routes l router = (router', Ok ()) →
  trie_match (_trie router') (factory_route f) = Some (Ok (Some ([], f))).
Proof.
  intros router router' Hf (name & names & Hp & Hwf) H. apply match_found. revert router H.
  induction l as [|g l IH]; intros router H; [by apply not_elem_of_nil in Hf|].
  apply attach_routes_cons in H as (r1 & H1 & H). apply elem_of_cons in Hf as [<-|Hf]; [|by eapply IH].
  apply attach_routes_keeps in H as [_ Hk]. apply Hk.
  apply attach_route_ok in H1 as (ms & n & Hms & Hi & ->). cbn [_trie].
  rewrite Hp in *. cbn [map] in Hms, Hwf. rewrite parse_segments in Hms by done.
  change (SLiteral name :: map SLiteral names) with (map (@SLiteral) (name :: names)) in Hms.
  rewrite literal_matchers in Hms. injection Hms as <-.
  change (map SLiteral (name :: names)) with (map (@SLiteral) (name :: names)).
  rewrite <- route_text_literals. eapply insert_found; [|exact Hi].
  apply forallb_forall. by intros m (s & <- & _)%in_map_iff.
Qed.
End routes.

(** * Sessions *)

Section session.
Context (flags : reader_flags) `{RE : RegexEngine} {T : Type} `{CS : CoStream T}.
Context (initial_capacity : nat → nat) (grow : nat → nat → nat) (what : HttpRequest → str).
Context (registered : list (HttpHandlerFactory (S := T))) (router : HttpRouter (S := T)).

(** The method of a handler that a request's method names. *)
Definition method_of (h : HttpHandler) (m : str) : option (method_body (S := T)) :=
  if decide (m = B "DELETE") then Some (del h)
  else if decide (m = B "GET") then Some (get h)
  else if decide (m = B "HEAD") then Some (Http.head h)
  else if decide (m = B "OPTIONS") then Some (options h)
  else if decide (m = B "PATCH") then Some (patch h)
  else if decide (m = B "POST") then Some (post h)
  else if decide (m = B "PUT") then Some (put h)
  else None.

(** Where a path is routed to: a literal endpoint takes its own text, and for
    any other the trie says. *)
Inductive routed (path : str) : Headers → HttpHandlerFactory (S := T) → Prop :=
  | routed_literal f :
      f ∈ registered → factory_route f = path → literal_endpoint path → routed path [] f
  | routed_matched ps f :
      trie_match (_trie router) path = Some (Ok (Some (ps, f))) → routed path ps f.

(** What a method makes of a request whose [body] is in the reader: the response,
    on the connection it was given. *)
Definition handled (c1 : T) (m : method_body (S := T)) (req : HttpRequest) (body : str) (res : HttpResponse) : Prop :=
  ∀ rd, holds c1 body rd → ∃ rd', m req (rd, make_response) = ((rd', res), Ok ()) ∧ _source rd' = c1.

(** The response a client gets for a header and the body that follows it, and
    the request the server made of them. *)
Inductive answered (c1 : T) : str → str → HttpRequest → HttpResponse → Prop :=
  | answered_handled method path version query hs n ps f m body res req :
      wf_line method path version query → Forall wf_header hs → declared_length hs n →
      routed path ps f → method_of (make_handler f) method = Some m →
      let raw := request_text method path version query hs in
      req = MkRequest raw version method path (path ++ target_text query)
              (read_headers hs []) (read_query query) ps n →
      handled c1 m req body res →
      answered c1 raw body req res
  | answered_unknown_method method path version query hs n ps f req :
      wf_line method path version query → Forall wf_header hs → declared_length hs n →
      routed path ps f → method_of (make_handler f) method = None →
      let raw := request_text method path version query hs in
      req = MkRequest raw version method path (path ++ target_text query)
              (read_headers hs []) (read_query query) ps n →
      answered c1 raw [] req
        (respond_failure (status_value BAD_REQUEST) (B "Unknown method.") make_response)
  | answered_not_found method path version query hs n req :
      wf_line method path version query → Forall wf_header hs → declared_length hs n →
      trie_match (_trie router) path = Some (Ok None) →
      let raw := request_text method path version query hs in
      req = MkRequest raw version method path (path ++ target_text query)
              (read_headers hs []) (read_query query) [] n →
      answered c1 raw [] req
        (respond_failure (status_value HttpResponse.NOT_FOUND) (B "Not Found.") make_response)
  | answered_malformed raw req :
      terminated raw → parse_raw_header raw make_request = (req, throw InvalidArgument) →
      answered c1 raw [] req (respond_failure (status_value BAD_REQUEST) (what req) make_response).

(** A client that sends a request, reads the response and goes on while the
    connection is open; the texts it sends and gets.  The header arrives in pieces,
    and the body with the last of them. *)
Inductive session : T → list (str * str) → T → Prop :=
  | session_end c : source_good c = false → session c [] c
  | session_turn c raw body c1 req res message c2 n turns c' :
      length raw ≤ read_block_size flags →
      arrives c1 (read_block_size flags) (length raw) c (raw ++ body) →
      answered c1 raw body req res →
      status_message res = Ok message →
      stream_write (response_text message res) c1 = (c2, Ok n) →
      session (finished req c2) turns c' →
      session c ((raw ++ body, response_text message res) :: turns) c'.

(** ** One turn *)

Lemma dispatch_method h x :
  dispatch h x = match method_of h (_method (x_request x)) with
                 | Some m => run_method m x
                 | None => st_response (respond_failure (status_value BAD_REQUEST) (B "Unknown method.")) x
                 end.
Proof. unfold dispatch, method_of, mbind, ST_bind, st_get. by repeat destruct (decide _). Qed.

(** What the server needs to take a header in: room in its blocks. *)
Definition wf_flags : Prop :=
  0 < initial_read_buffer_size flags ∧
  initial_read_buffer_size flags + read_block_size flags ≤ maximum_read_buffer_size flags.

Lemma read_header_arrived c c1 raw body req r :
  wf_flags → terminated raw → length raw ≤ read_block_size flags →
  arrives c1 (read_block_size flags) (length raw) c (raw ++ body) →
  parse_raw_header raw make_request = (req, r) →
  ∃ rd, read_header (BaseCoReader0 := CoReader_BaseCoReader flags) (make_request, make_reader flags c) = ((req, rd), r) ∧
    holds c1 body rd.
Proof.
  intros [Hpos Hmax] Hraw Hlen Hs Hp.
  destruct (read_until_finds flags c c1 HEADER_END raw body) as (rd & E & Hpend); [done..|].
  exists rd. split; [|done]. unfold read_header, mbind, ST_bind, on_request, on_connection, st_get.
  cbn [fst snd]. rewrite decide_False by (intros H; by apply H). cbn [fst snd reader_read_until CoReader_BaseCoReader].
  unfold HEADER_END in E. rewrite E. cbn [fst snd]. by rewrite Hp.
Qed.

Lemma routed_match path ps f l :
  attach_routes registered make_router = (router, Ok ()) → registered = l → routed path ps f →
  trie_match (_trie router) path = Some (Ok (Some (ps, f))).
Proof. intros Ha _ [f' Hf <- Hlit|]; [by eapply attached_literal|done]. Qed.

(** The answer to a turn's request is determined, and the header and the body
    are used up when it is. *)
Lemma turn_answer c c1 raw body req res :
  wf_flags → attach_routes registered make_router = (router, Ok ()) →
  length raw ≤ read_block_size flags →
  arrives c1 (read_block_size flags) (length raw) c (raw ++ body) → answered c1 raw body req res →
  ∃ xa, answer flags what (_trie router) (fresh flags c) xa ∧
    x_request xa = req ∧ x_response xa = res ∧ _source (x_reader xa) = c1.
Proof.
  intros Hfl Ha Hlen Hs H. destruct H as
    [method path version query hs n ps f m body res req Hl Hh Hn Hr Hm raw Hreq Hd
    |method path version query hs n ps f req Hl Hh Hn Hr Hm raw Hreq
    |method path version query hs n req Hl Hh Hn Hr raw Hreq
    |raw req Hraw Hp].
  1-3: destruct (read_header_arrived c c1 raw _ _ _ Hfl (request_terminated _ _ _ _ _ Hl Hh) Hlen Hs
      (parse_request_text _ _ _ _ _ n Hl Hh Hn)) as (rd & Erd & Hpend).
  1-2: apply (routed_match _ _ _ registered Ha eq_refl) in Hr.
  - destruct (Hd rd Hpend) as (rd' & Em & Hsrc).
    eexists. split; [eapply answer_routed; [exact Erd|exact Hr|]|].
    + rewrite dispatch_method. cbn [x_request set_route_params _method]. rewrite Hm.
      subst req raw. unfold run_method, set_route_params. cbn in Em |- *. rewrite Em. reflexivity.
    + cbn. by subst req.
  - eexists. split; [eapply answer_routed; [exact Erd|exact Hr|]|].
    + rewrite dispatch_method. cbn [x_request set_route_params _method]. rewrite Hm. reflexivity.
    + subst req. split_and!; [done..|by destruct Hpend as (_ & _ & ?)].
  - eexists. split; [eapply answer_not_found; [exact Erd|exact Hr]|].
    subst req. split_and!; [done..|by destruct Hpend as (_ & _ & ?)].
  - destruct (read_header_arrived c c1 raw _ _ _ Hfl Hraw Hlen Hs Hp) as (rd & Erd & Hpend).
    eexists. split; [eapply answer_malformed; exact Erd|].
    split_and!; [done..|by destruct Hpend as (_ & _ & ?)].
Qed.

(** A request that was answered, with the response on its way. *)
Lemma finish_answered xa req message c2 n :
  x_request xa = req → status_message (x_response xa) = Ok message →
  stream_write (response_text message (x_response xa)) (_source (x_reader xa)) = (c2, Ok n) →
  ∃ x', finish_request initial_capacity grow xa = (x', Ok ()) ∧ _source (x_reader x') = finished req c2.
Proof.
  intros <- Hm Hw. unfold finish_request, mbind, ST_bind, st_get, st_res, serialize.
  destruct (stream_response_ok grow _ _ Hm (make_string_buffer initial_capacity [])) as (b & -> & ->).
  cbn [StreamBuffer._buffer make_string_buffer app]. unfold on_source. rewrite Hw.
  unfold finished. cbn [x_request]. destruct (keep_alive _); cbn; eauto.
Qed.

Lemma turn_served c c1 raw body req res message c2 n :
  wf_flags → attach_routes registered make_router = (router, Ok ()) →
  length raw ≤ read_block_size flags →
  arrives c1 (read_block_size flags) (length raw) c (raw ++ body) → answered c1 raw body req res →
  status_message res = Ok message → stream_write (response_text message res) c1 = (c2, Ok n) →
  run_request flags initial_capacity grow what (_trie router) c = (finished req c2, Ok ()).
Proof.
  intros Hfl Ha Hlen Hs Hans Hm Hw.
  destruct (turn_answer _ _ _ _ _ _ Hfl Ha Hlen Hs Hans) as (xa & Hxa & Hreq & <- & <-).
  destruct (finish_answered xa req message c2 n Hreq Hm Hw) as (x' & Hx & Hsrc).
  unfold run_request. change (MkExchange _ _ _) with (fresh flags c).
  assert (answer_request flags initial_capacity grow what (_trie router) (fresh flags c) = (x', Ok ())) as ->
    by (apply answer_request_ok; eauto).
  by rewrite Hsrc.
Qed.

Lemma answered_nonempty c1 raw body req res : answered c1 raw body req res → raw ≠ [].
Proof.
  destruct 1; try (subst raw; unfold request_text, request_line;
    intros E; apply (f_equal length) in E; rewrite !length_app in E; cbn in E; lia).
  intros ->. done.
Qed.

Lemma session_serves c turns c' :
  wf_flags → attach_routes registered make_router = (router, Ok ()) → session c turns c' →
  serve flags initial_capacity grow what (length turns) (_trie router) c = Some (c', Ok ()).
Proof.
  intros Hfl Ha. induction 1 as [c Hg|c raw body c1 req res message c2 n turns c' Hlen Hs Hans Hm Hw _ IH].
  - cbn. by rewrite Hg.
  - cbn [serve length]. assert (source_good c = true) as ->.
    { inversion Hs as [E|]; [|done]. apply answered_nonempty in Hans. destruct raw; [done|discriminate]. }
    by rewrite (turn_served _ _ _ _ _ _ _ _ _ Hfl Ha Hlen Hs Hans Hm Hw).
Qed.
End session.

(** * The echo server *)

Section echo.
Context (flags : reader_flags) `{RE : RegexEngine} {T : Type} `{CS : CoStream T}.

(** examples/echo_server.cpp: [EchoHandler::get] and [EchoHandler::post]. *)
Definition echo_get : method_body (S := T) := λ req p,
  ((p.1, set_body (_raw_path req)
      (set_header CONTENT_LENGTH (show_Z (Z.of_nat (length (_raw_path req)))) p.2)), Ok ()).
Definition echo_post : method_body (S := T) := λ req p,
  match (if has_header req CONTENT_LENGTH
         then v ← header req CONTENT_LENGTH; Ok (set_header CONTENT_LENGTH v p.2) else Ok p.2) with
  | Ok res =>
      match HttpRequest.body (BaseCoReader0 := CoReader_BaseCoReader flags) (req, p.1) with
      | ((_, rd), Ok b) => ((rd, set_body b res), Ok ())
      | ((_, rd), Throw e) => ((rd, res), Throw e)
      | ((_, rd), Undef) => ((rd, res), Undef)
      end
  | Throw e => (p, Throw e)
  | Undef => (p, Undef)
  end.
Definition EchoHandler : HttpHandler (S := T) :=
  MkHandler _default_behavior echo_get _default_behavior _default_behavior
    _default_behavior echo_post _default_behavior.
(** [LW_REGISTER_HTTP_HANDLER(EchoHandler, "/echo")]. *)
Definition echo_factory : HttpHandlerFactory (S := T) := MkFactory (B "/echo") EchoHandler.

Definition echoed (text : str) : HttpResponse :=
  set_body text (set_header CONTENT_LENGTH (show_Z (Z.of_nat (length text))) make_response).

Lemma echo_routed registered router : echo_factory ∈ registered → routed registered router (B "/echo") [] echo_factory.
Proof.
  intros H. apply routed_literal; [done|done|]. exists (B "echo"), []. split; [done|].
  apply Forall_singleton. by split_and!.
Qed.

(** A POST with its length gets its body back. *)
Lemma echo_post_answered what registered router c1 version query hs body :
  echo_factory ∈ registered →
  wf_line (B "POST") (B "/echo") version query → Forall wf_header hs →
  headers_find CONTENT_LENGTH (read_headers hs []) = Some (show_Z (Z.of_nat (length body))) →
  (Z.of_nat (length body) ≤ INT64_MAX)%Z →
  ∃ req, answered what registered router c1 (request_text (B "POST") (B "/echo") version query hs) body req (echoed body) ∧
    _headers req = read_headers hs [].
Proof.
  intros Hin Hl Hh Hc Hmax. eexists. split.
  - eapply (answered_handled _ _ _ _ (B "POST") (B "/echo") version query hs (Z.of_nat (length body))
      [] echo_factory echo_post); [done|done| |by apply echo_routed|done|reflexivity|].
    + unfold declared_length. rewrite Hc. split; [done|lia].
    + intros rd Hrd. unfold echo_post, has_header, headers_contains, header, map_at. cbn [_headers fst snd].
      rewrite Hc. rewrite bool_decide_true by eauto. cbn [mbind res_bind].
      match goal with |- context [HttpRequest.body (?r, rd)] =>
        destruct (body_whole flags c1 body r rd Hrd) as (rd' & E & _ & _ & Hs);
          [done|unfold INT64_MAX in Hmax; lia|] end.
      rewrite E. by exists rd'.
  - reflexivity.
Qed.

(** A GET gets its path with the query. *)
Lemma echo_get_answered what registered router c1 version query hs :
  echo_factory ∈ registered →
  wf_line (B "GET") (B "/echo") version query → Forall wf_header hs → declared_length hs 0 →
  ∃ req, answered what registered router c1 (request_text (B "GET") (B "/echo") version query hs) [] req
      (echoed (B "/echo" ++ target_text query)) ∧
    _headers req = read_headers hs [].
Proof.
  intros Hin Hl Hh Hn. eexists. split.
  - eapply (answered_handled _ _ _ _ (B "GET") (B "/echo") version query hs 0
      [] echo_factory echo_get); [done|done|done|by apply echo_routed|done|reflexivity|].
    intros rd (_ & _ & Hs). exists rd. split; [reflexivity|done].
  - reflexivity.
Qed.
End echo.

(** * Properties *)

(** C4.  The server as its clients see it.  Once the registered endpoints are
    attached, a client that sends requests one at a time, however each arrives
    in pieces, gets for each the response of the selected method of the handler
    it is routed to: a literal endpoint is reached by its own text and anything
    else by what the trie matches, with the parameters matched, the fields and the query
    that were sent and the body left to the handler; a 404 for a path that
    matches nothing, and a 400 for an unknown method or a malformed header.
    [HttpRouter::run] serves all of the session and returns with the connection
    where the client left it and the count of connections as it was. *)
Theorem session_served (flags : reader_flags) `{RE : RegexEngine} {T} `{CS : CoStream T}
    (initial_capacity : nat → nat) (grow : nat → nat → nat) (what : HttpRequest → str)
    (registered : list HttpHandlerFactory) (router : HttpRouter) (conn conn' : T) (turns : list (str * str)) :
  wf_flags flags → attach_routes registered make_router = (router, Ok ()) →
  session flags what registered router conn turns conn' →
  run flags initial_capacity grow what (length turns) router conn = Some (router, conn', Ok ()).
Proof.
  intros Hfl Ha Hs.
  pose proof (session_serves flags initial_capacity grow what registered router conn turns conn' Hfl Ha Hs) as E.
  apply attach_routes_keeps in Ha as [Hc _].
  rewrite (run_served _ _ _ _ _ _ _ _ _ ltac:(rewrite Hc; cbn; lia) E). by rewrite decide_True.
Qed.

(** * Deliveries, computed *)

(** The text that reads deliver while some of the first [m] bytes are missing. *)
Fixpoint gather {T} `{!CoReadable T} (fuel n m : nat) (c : T) : option (T * str) :=
  match m, fuel with
  | 0, _ => Some (c, [])
  | _, 0 => None
  | _, S fuel =>
      if source_good c then
        match source_read n c with
        | (c, Ok (a :: d)) => '(c, rest) ← gather fuel (n - length (a :: d)) (m - length (a :: d)) c; Some (c, (a :: d) ++ rest)
        | _ => None
        end
      else None
  end.
Lemma gather_arrives {T} `{!CoReadable T} fuel : ∀ n m (c c1 : T) text, gather fuel n m c = Some (c1, text) → arrives c1 n m c text.
Proof.
  induction fuel as [|fuel IH]; intros n [|m] c c1 text; cbn [gather]; [by intros [= <- <-]; apply arrived|done|by intros [= <- <-]; apply arrived|].
  destruct (source_good c) eqn:Hg; [|done]. destruct (source_read n c) as [c0 [[|a d]|e|]] eqn:E; [done| |done..].
  intros H. apply bind_Some in H as ([c2 rest] & H & [= <- <-]). change (a :: d ++ rest) with ((a :: d) ++ rest). eapply arrives_next; [lia|done|exact E|done|by apply IH].
Qed.

(** * A session on a wire *)

#[local] Existing Instance literal_engine.

(** Every piece arrives while some of the first [m] bytes are missing. *)
Fixpoint needed (m : nat) (ds : list str) : Prop :=
  match ds with [] => True | d :: ds => 0 < m ∧ d ≠ [] ∧ needed (m - length d) ds end.

Lemma wire_arrives out rest ds : ∀ n m,
  needed m ds → length (concat ds) ≤ n →
  arrives (MkWire rest out true) n m (MkWire (ds ++ rest) out true) (concat ds).
Proof.
  induction ds as [|d ds IH]; intros n m Hm Hn; [constructor|]. destruct Hm as (Hpos & Hne & Hm).
  cbn [concat] in *. rewrite length_app in Hn. eapply arrives_next; [done|done| |done|apply IH; [done|lia]].
  cbn. unfold wire_read. cbn. by rewrite decide_True, firstn_all2 by lia.
Qed.

Lemma greet_handled c1 req v :
  route_param req (B "name") = Ok v → handled c1 greet req [] (set_body (B "Hello " ++ v) make_response).
Proof. intros E rd (_ & _ & Hs). exists rd. unfold greet. by rewrite E. Qed.

Definition both_routes : list (HttpHandlerFactory (S := Wire)) := [greeter; echo_factory wire_flags].
Definition both : HttpRouter (S := Wire) := (attach_routes both_routes make_router).1.

Definition KEEP : str * str := (B "Connection", B "keep-alive").
Definition echo_request : str :=
  request_text (B "POST") (B "/echo") (B "HTTP/1.1") None [KEEP; (B "Content-Length", B "3")].
Definition hi_request : str :=
  request_text (B "GET") (B "/hi/bob") (B "HTTP/1.1") (Some [(B "x", Some (B "1"))]) [KEEP].
Definition lost_request : str := request_text (B "GET") (B "/none") (B "HTTP/1.1") None [KEEP].
Definition junk : str := B "junk" ++ HEADER_END.
(** The first request comes in three pieces, its body with the last. *)
Definition pieces : list (list str) := [
  [take 20 echo_request; take 40 (drop 20 echo_request); drop 60 echo_request ++ B "abc"];
  [take 30 hi_request; drop 30 hi_request]; [lost_request]; [junk]].

Definition talk : list (str * str) := [
  (echo_request ++ B "abc", response_text (B "OK") (echoed (B "abc")));
  (hi_request, response_text (B "OK") (set_body (B "Hello bob") make_response));
  (lost_request, response_text (B "Not Found") (respond_failure 404 (B "Not Found.") make_response));
  (junk, response_text (B "Bad Request") (respond_failure 400 (B "malformed") make_response))].

Lemma wf_keep : wf_header KEEP.
Proof. split_and!; [done|done|by intros c [= <-]]. Qed.

(** The steps of a turn whose pieces are next on the wire. *)
Lemma wire_turn reg router ds rest out raw body req res message turns c' :
  concat ds = raw ++ body → needed (length raw) ds → length (raw ++ body) ≤ read_block_size wire_flags →
  answered (λ _, B "malformed") reg router (MkWire rest out true) raw body req res →
  status_message res = Ok message →
  session wire_flags (λ _, B "malformed") reg router
    (MkWire rest (out ++ response_text message res) (keep_alive req)) turns c' →
  session wire_flags (λ _, B "malformed") reg router (MkWire (ds ++ rest) out true)
    ((raw ++ body, response_text message res) :: turns) c'.
Proof.
  intros Hds Hn Hlen Ha Hm Hs. eapply session_turn; [|rewrite <- Hds; by apply wire_arrives; rewrite ?Hds|exact Ha|exact Hm|reflexivity|].
  - rewrite length_app in Hlen. lia.
  - unfold finished. cbn. by destruct (keep_alive req).
Qed.

Lemma wf_fields : Forall wf_header [KEEP; (B "Content-Length", B "3")].
Proof.
  apply Forall_cons; split; [apply wf_keep|]. apply Forall_singleton.
  split_and!; [done|done|by intros c [= <-]].
Qed.
Lemma wf_kept : Forall wf_header [KEEP].
Proof. apply Forall_singleton, wf_keep. Qed.

Lemma echo_answered c1 :
  ∃ req, answered (λ _, B "malformed") both_routes both c1 echo_request (B "abc") req (echoed (B "abc")) ∧
    keep_alive req = true.
Proof.
  destruct (echo_post_answered wire_flags (λ _, B "malformed") both_routes both c1 (B "HTTP/1.1") None
    [KEEP; (B "Content-Length", B "3")] (B "abc")) as (req & Ha & Hr);
    [by right; left|done|apply wf_fields|by vm_compute|by vm_compute|].
  exists req. split; [exact Ha|]. unfold keep_alive, has_header, header. rewrite Hr. by vm_compute.
Qed.

Lemma hi_answered c1 :
  ∃ req, answered (λ _, B "malformed") both_routes both c1 hi_request [] req
    (set_body (B "Hello bob") make_response) ∧ keep_alive req = true.
Proof.
  eexists. split.
  - eapply (answered_handled _ _ _ _ (B "GET") (B "/hi/bob") (B "HTTP/1.1") (Some [(B "x", Some (B "1"))]) [KEEP] 0
      [(B "name", B "bob")] greeter greet); [|apply wf_kept|by vm_compute| |done|reflexivity|].
    + split_and!; try done. by repeat constructor.
    + apply routed_matched. reflexivity.
    + by apply (greet_handled _ _ (B "bob")).
  - by vm_compute.
Qed.

Lemma lost_answered c1 :
  ∃ req, answered (λ _, B "malformed") both_routes both c1 lost_request [] req
    (respond_failure 404 (B "Not Found.") make_response) ∧ keep_alive req = true.
Proof.
  eexists. split.
  - eapply (answered_not_found _ _ _ _ (B "GET") (B "/none") (B "HTTP/1.1") None [KEEP] 0);
      [done|apply wf_kept|by vm_compute|reflexivity|reflexivity].
  - by vm_compute.
Qed.

Lemma junk_answered c1 :
  ∃ req, answered (λ _, B "malformed") both_routes both c1 junk [] req
    (respond_failure 400 (B "malformed") make_response) ∧ keep_alive req = false.
Proof. eexists. split; [by apply answered_malformed; vm_compute|by vm_compute]. Qed.

Lemma talk_session :
  session wire_flags (λ _, B "malformed") both_routes both (MkWire (concat pieces) [] true) talk
    (MkWire [] (concat (map snd talk)) false).
Proof.
  destruct (echo_answered (MkWire (concat (drop 1 pieces)) [] true)) as (r1 & A1 & K1).
  eapply (wire_turn _ _ (nth 0 pieces []) (concat (drop 1 pieces)) [] echo_request (B "abc"));
    [by vm_compute|vm_compute; repeat split; (lia || discriminate)|vm_compute; lia|exact A1|reflexivity|].
  rewrite K1. clear. set (o1 := [] ++ _). rewrite <- (app_nil_r hi_request).
  destruct (hi_answered (MkWire (concat (drop 2 pieces)) o1 true)) as (r2 & A2 & K2).
  eapply (wire_turn _ _ (nth 1 pieces []) (concat (drop 2 pieces)) o1 hi_request []);
    [by vm_compute|vm_compute; repeat split; (lia || discriminate)|vm_compute; lia|exact A2|reflexivity|].
  rewrite K2. clear. set (o2 := o1 ++ _). rewrite <- (app_nil_r lost_request).
  destruct (lost_answered (MkWire (concat (drop 3 pieces)) o2 true)) as (r3 & A3 & K3).
  eapply (wire_turn _ _ (nth 2 pieces []) (concat (drop 3 pieces)) o2 lost_request []);
    [by vm_compute|vm_compute; repeat split; (lia || discriminate)|vm_compute; lia|exact A3|reflexivity|].
  rewrite K3. clear. set (o3 := o2 ++ _). rewrite <- (app_nil_r junk).
  destruct (junk_answered (MkWire [] o3 true)) as (r4 & A4 & K4).
  eapply (wire_turn _ _ (nth 3 pieces []) [] o3 junk []);
    [by vm_compute|vm_compute; repeat split; (lia || discriminate)|vm_compute; lia|exact A4|reflexivity|].
  rewrite K4. clear. set (o4 := o3 ++ _).
  assert (o4 = concat (map snd talk)) as -> by by vm_compute. by constructor.
Qed.

Lemma wire_flags_wf : wf_flags wire_flags.
Proof. split; vm_compute; lia. Qed.

Lemma both_attached : attach_routes both_routes make_router = (both, Ok ()).
Proof.
  assert (∀ p : HttpRouter (S := Wire) * res (), p.2 = Ok () → p = (p.1, Ok ())) as H by by intros [? ?] [= ->].
  apply H. by vm_compute.
Qed.

Lemma session_served_witness :
  run wire_flags (λ _, 15) Nat.max (λ _, B "malformed") (length talk) both (MkWire (concat pieces) [] true)
  = Some (both, MkWire [] (concat (map snd talk)) false, Ok ()).
Proof.
  exact (session_served wire_flags (λ _, 15) Nat.max (λ _, B "malformed") both_routes both
    (MkWire (concat pieces) [] true) (MkWire [] (concat (map snd talk)) false) talk
    wire_flags_wf both_attached talk_session).
Defined.

(** * Behaviour a caller would not expect *)

(** [body] makes one read: of a body that comes in more pieces only what the
    first of them brings is handed out, and the rest is taken for the header of
    the next request. *)
Lemma body_cut_short :
  option_map (λ p, p.1.2) (run wire_flags (λ _, 15) Nat.max (λ _, B "malformed") 3 both
    (MkWire [echo_request; B "a"; B "bc" ++ HEADER_END] [] true))
  = Some (MkWire [] (response_text (B "OK") (set_body (B "a") (echoed (B "abc"))) ++
      response_text (B "Bad Request") (respond_failure 400 (B "malformed") make_response)) false).
Proof. vm_compute. reflexivity. Qed.

(** A header that does not end within a block leaves the reader without a
    result. *)
Lemma long_header_undefined :
  option_map (λ p, p.2) (run (ReaderFlags 16 64 32) (λ _, 15) Nat.max (λ _, B "malformed") 3 both
    (MkWire [hi_request] [] true)) = Some Undef.
Proof. vm_compute. reflexivity. Qed.
