(* ===== verification/StringStreams.v ===== *)
(** lw/io/co/testing: the streams over strings that the tests of the reader, the
    router and TLS use, as sources and connections, and those tests. *)
From S2P Require Import Prelude Cxx MountPath EndpointTrie HttpRequest CoReader HttpResponse Http Sessions.

(** * Reading from a string *)

(** [StringReadable]. *)
Record StringReadable := MkStringReadable { readable_pos : nat; readable_str : str }.

Definition readable_good (s : StringReadable) : bool := readable_pos s <? length (readable_str s).
Definition readable_eof (s : StringReadable) : bool := negb (readable_good s).
(** The position never passes the end, so that the difference does not wrap. *)
Definition readable_read (size : nat) : ST StringReadable str := λ s,
  let read_size := (length (readable_str s) - readable_pos s) `min` size in
  (MkStringReadable (readable_pos s + read_size) (readable_str s), Ok (take read_size (drop (readable_pos s) (readable_str s)))).

#[export] Instance string_readable : CoReadable StringReadable.
Proof.
  refine {| source_eof := readable_eof; source_good := readable_good; source_read := readable_read;
            stream s := drop (readable_pos s) (readable_str s) |}.
  - intros n s s' d [= <- <-]. cbn. rewrite length_take, <- drop_drop, take_drop. split; [lia|done].
  - intros n s s' r [= <- <-] H. by edestruct H.
Defined.

(** * Duplex streams *)

(** What [CoStringStream] and an end of a [CoStringConnection] read from.  The
    size of a read is not reduced by what has been read, and copying from
    beyond the end of the string is undefined. *)
Record StringSource := MkStringSource { _read_pos : nat; _read_str : str }.

Definition string_eof (s : StringSource) : bool := length (_read_str s) <=? _read_pos s.
Definition string_good (s : StringSource) : bool := negb (string_eof s) && negb (bool_decide (_read_str s = [])).
Definition string_read (size : nat) (s : StringSource) : StringSource * res str :=
  let read_size := length (_read_str s) `min` size in
  if decide (_read_pos s + read_size ≤ length (_read_str s))
  then (MkStringSource (_read_pos s + read_size) (_read_str s), Ok (take read_size (drop (_read_pos s) (_read_str s))))
  else (s, Undef).
Definition string_close (s : StringSource) : StringSource := MkStringSource (_read_pos s) [].
Definition unread (s : StringSource) : str := drop (_read_pos s) (_read_str s).

Lemma string_read_next n s s' d : string_read n s = (s', Ok d) → length d ≤ n ∧ unread s = d ++ unread s'.
Proof.
  unfold string_read, unread. case_decide; intros [= <- <-]. cbn. rewrite length_take, <- drop_drop, take_drop. split; [lia|done].
Qed.
Lemma string_read_failed n s s' r : string_read n s = (s', r) → (∀ d, r ≠ Ok d) → s' = s.
Proof. unfold string_read. case_decide; intros [= <- <-] Hr; [by edestruct Hr|done]. Qed.
Lemma string_close_ends s : string_good (string_close s) = false.
Proof. by destruct s as [[|n] t]. Qed.

(** [CoStringStream], with the caller's string that it writes to. *)
Record CoStringStream := MkStringStream { source : StringSource; _write_str : str }.
Definition new_string_stream (input output : str) : CoStringStream := MkStringStream (MkStringSource 0 input) output.
Definition string_stream_read (size : nat) : ST CoStringStream str := λ s,
  let '(x, r) := string_read size (source s) in (MkStringStream x (_write_str s), r).
Definition string_stream_write (data : str) : ST CoStringStream nat := λ s,
  (MkStringStream (source s) (_write_str s ++ data), Ok (length data)).

#[export] Instance string_stream_readable : CoReadable CoStringStream.
Proof.
  refine {| source_eof s := string_eof (source s); source_good s := string_good (source s);
            source_read := string_stream_read; stream s := unread (source s) |}.
  - unfold string_stream_read. intros n [x o] s' d. cbn. destruct (string_read n x) as [x' r] eqn:E. intros [= <- ->]. by apply string_read_next.
  - unfold string_stream_read. intros n [x o] s' r. cbn. destruct (string_read n x) as [x' r'] eqn:E. intros [= <- ->] H. cbn.
    by rewrite (string_read_failed _ _ _ _ E H).
Defined.
#[export] Instance string_stream : CoStream CoStringStream.
Proof.
  refine {| stream_write := string_stream_write; stream_close s := MkStringStream (string_close (source s)) (_write_str s) |}.
  - by intros t c c' r [= <- <-].
  - intros c. apply string_close_ends.
Defined.

(** ** Pairs of connections *)

(** [make_connection]: two ends, each writing to the string the other reads. *)
Record connection := MkConnection { first_end : StringSource; second_end : StringSource }.
Definition make_connection : connection := MkConnection (MkStringSource 0 []) (MkStringSource 0 []).

Definition end_of (first : bool) (c : connection) : StringSource := if first then first_end c else second_end c.
Definition on_end (first : bool) (f : StringSource → StringSource) (c : connection) : connection :=
  if first then MkConnection (f (first_end c)) (second_end c) else MkConnection (first_end c) (f (second_end c)).

Definition connection_read (first : bool) (size : nat) : ST connection str := λ c,
  let '(x, r) := string_read size (end_of first c) in (on_end first (λ _, x) c, r).
Definition connection_write (first : bool) (data : str) : ST connection nat := λ c,
  (on_end (negb first) (λ s, MkStringSource (_read_pos s) (_read_str s ++ data)) c, Ok (length data)).
Definition connection_close (first : bool) : connection → connection := on_end first string_close.

Definition connection_readable (first : bool) : CoReadable connection.
Proof.
  refine {| source_eof c := string_eof (end_of first c); source_good c := string_good (end_of first c);
            source_read := connection_read first; stream c := unread (end_of first c) |}.
  - unfold connection_read. intros n c s' d. destruct (string_read n _) as [x r] eqn:E. intros [= <- ->]. apply string_read_next in E.
    by destruct first.
  - unfold connection_read. intros n c s' r. destruct (string_read n _) as [x r'] eqn:E. intros [= <- ->] H.
    rewrite (string_read_failed _ _ _ _ E H). by destruct first, c.
Defined.
Definition connection_stream (first : bool) : @CoStream connection (connection_readable first).
Proof.
  refine (@Build_CoStream _ (connection_readable first) (connection_write first) (connection_close first) _ _).
  - intros t c c' r [= <- <-]. by destruct first, c.
  - intros c. cbn. unfold connection_close. destruct first; apply string_close_ends.
Defined.

(** * What the streams promise *)

(** A read is defined exactly if the size asked for, or the whole string if that
    is less, fits behind the position: the first read always, a later one only
    if it asks for no more than is left. *)
Lemma string_read_defined size s : _read_pos s ≤ length (_read_str s) → 0 < length (_read_str s) →
  ((string_read size s).2 = Undef ↔ 0 < _read_pos s ∧ length (unread s) < size).
Proof.
  intros Hpos Hlen. unfold string_read, unread. rewrite length_drop. case_decide; cbn.
  - split; [done|lia].
  - split; [lia|done].
Qed.

Inductive pair_op : Set := PairWrite (first : bool) (data : str) | PairRead (first : bool) (size : nat).

(** Reads and writes at both ends, in any order, and what the reads gave. *)
Fixpoint run_pair (ops : list pair_op) (c : connection) : res (connection * list (bool * str)) :=
  match ops with
  | [] => Ok (c, [])
  | PairWrite first data :: ops => run_pair ops (connection_write first data c).1
  | PairRead first size :: ops =>
      match connection_read first size c with
      | (c, Ok d) => '(c, reads) ← run_pair ops c; Ok (c, (first, d) :: reads)
      | (_, Throw e) => Throw e
      | (_, Undef) => Undef
      end
  end.

(** What was written at an end, and what was read there. *)
Fixpoint written_at (first : bool) (ops : list pair_op) : str :=
  match ops with
  | PairWrite b data :: ops => (if Bool.eqb b first then data else []) ++ written_at first ops
  | _ :: ops => written_at first ops
  | [] => []
  end.
Fixpoint read_at (first : bool) (reads : list (bool * str)) : str :=
  match reads with
  | (b, d) :: reads => (if Bool.eqb b first then d else []) ++ read_at first reads
  | [] => []
  end.

Definition within (s : StringSource) : Prop := _read_pos s ≤ length (_read_str s).
Definition both_within (c : connection) : Prop := within (first_end c) ∧ within (second_end c).

Lemma unread_more s data : within s → drop (_read_pos s) (_read_str s ++ data) = unread s ++ data.
Proof. intros H. unfold unread, within in *. rewrite drop_app, (proj2 (Nat.sub_0_le _ _) H). done. Qed.
Lemma string_read_within n s s' d : string_read n s = (s', Ok d) → within s'.
Proof. unfold string_read, within. case_decide; intros [= <- <-]. done. Qed.

Lemma write_within b data c : both_within c → both_within (connection_write b data c).1.
Proof. unfold both_within, within. destruct b; cbn; rewrite length_app; lia. Qed.

(** The pair is two queues of bytes: what is read at an end, and what is left to be
    read there, is what has been written at the other. *)
Lemma pair_is_queues ops : ∀ c c' reads, both_within c → run_pair ops c = Ok (c', reads) →
  ∀ first, unread (end_of first c) ++ written_at (negb first) ops = read_at first reads ++ unread (end_of first c').
Proof.
  induction ops as [|[b data|b size] ops IH]; intros c c' reads [H1 H2] H first.
  - injection H as <- <-. by rewrite app_nil_r.
  - cbn in H. rewrite <- (IH _ _ _ (write_within b data c (conj H1 H2)) H first). cbn [written_at].
    destruct b, first; cbn; [done| | |done].
    + rewrite unread_more by done. by rewrite <- app_assoc.
    + rewrite unread_more by done. by rewrite <- app_assoc.
  - cbn in H. unfold connection_read in H. destruct (string_read size (end_of b c)) as [x [d|e|]] eqn:E; [|done..].
    destruct (run_pair ops (on_end b (λ _, x) c)) as [[c2 reads']|e|] eqn:Er; [|done..]. injection H as <- <-.
    pose proof (string_read_within _ _ _ _ E) as Hx. apply string_read_next in E as [_ E].
    assert (both_within (on_end b (λ _, x) c)) as Hw by by destruct b.
    pose proof (IH _ _ _ Hw Er first) as Hq. cbn [written_at read_at].
    destruct b, first; cbn in *; rewrite ?E, <- ?app_assoc; [by rewrite Hq|done|done|by rewrite Hq].
Qed.

(** * The tests *)

Definition test_flags : reader_flags := ReaderFlags 64 1024 256.

(** co_test.cpp: reading by size, up to a character, up to a string. *)
Definition foobar : CoReader (S := StringReadable) := make_reader test_flags (MkStringReadable 0 (B "foobar")).
Lemma reader_tests :
  good foobar = true ∧
  good (make_reader test_flags (MkStringReadable 0 [])) = false ∧ eof (make_reader test_flags (MkStringReadable 0 [])) = true ∧
  (let '(r, d) := read test_flags 3 foobar in let '(r', d') := read test_flags 100 r in
   d = Ok (B "foo") ∧ good r = true ∧ d' = Ok (B "bar") ∧ good r' = false ∧ eof r' = true) ∧
  (let '(r, d) := read_until_char test_flags "b" 0 foobar in d = Ok (B "foob") ∧ good r = true ∧ eof r = false) ∧
  (let '(r, d) := read_until_str test_flags (B "bar") 0 foobar in d = Ok (B "foobar") ∧ good r = false ∧ eof r = true).
Proof. by vm_compute. Qed.

(** [StringReader], a reader that has its source as a member, and
    http_request_test.cpp: the header of a request, and its body. *)
Definition StringReader : Type := CoReader (S := StringReadable).
Definition new_string_reader (text : str) : StringReader := make_reader test_flags (MkStringReadable 0 text).
#[local] Instance string_reader : BaseCoReader StringReader := CoReader_BaseCoReader test_flags.

Definition lines (l : list str) : str := concat ((λ line, line ++ CRLF) <$> l).
(** The request that is read from a text, and its body. *)
Definition read_request (text : str) : HttpRequest * res () := let '(p, r) := read_header (make_request, new_string_reader text) in (p.1, r).
Definition read_body (text : str) : res str := (body (read_header (make_request, new_string_reader text)).1).2.

Lemma request_header_tests :
  let req := read_request (lines [B "GET /foo/bar HTTP/1.1"; B "Host: test.com"; B "Content-Length: 42"; []]) in
  req.2 = Ok () ∧ _method req.1 = B "GET" ∧ _path req.1 = B "/foo/bar" ∧ _http_version req.1 = B "HTTP/1.1" ∧
  header req.1 (B "Content-Length") = Ok (B "42") ∧ content_length req.1 = 42%Z ∧
  has_header req.1 (B "this-header-is-not-provided") = false ∧
  Forall (λ name, has_header req.1 name = true ∧ header req.1 name = Ok (B "test.com")) [B "Host"; B "host"; B "hoST"; B "HOST"].
Proof. split_and!; [by vm_compute..|]. repeat constructor; by vm_compute. Qed.

Lemma request_empty_header_tests :
  let req := read_request (lines [B "GET /foo/bar HTTP/1.1"; B "Host: test.com"; B "A-Header:"; B "Spacey-Header: " ++ ["009"%char]; []]) in
  req.2 = Ok () ∧ header req.1 (B "A-Header") = Ok [] ∧ header req.1 (B "Spacey-Header") = Ok [].
Proof. by vm_compute. Qed.

Lemma request_query_tests :
  let req := read_request (lines [B "GET /foo/bar?fizz=bang&&foo=&bar=42&life&another HTTP/1.1"; B "Host: test.com"; []]) in
  req.2 = Ok () ∧
  Forall (λ p, query_param req.1 p.1 = Ok p.2)
    [(B "fizz", B "bang"); (B "foo", []); (B "bar", B "42"); (B "life", []); (B "another", [])].
Proof. split; [by vm_compute|]. repeat constructor; by vm_compute. Qed.

Lemma request_body_tests :
  read_body (lines [B "POST /foo/bar HTTP/1.1"; B "Host: test.com"; B "Content-Length: 6"; []] ++ B "foobar") = Ok (B "foobar").
Proof. by vm_compute. Qed.

(** http_test.cpp: a registered handler, and a path without one. *)
#[local] Existing Instance literal_engine.
Definition answer_endpoint : method_body (S := CoStringStream) := λ req p,
  match route_param req (B "endpoint") with
  | Ok v => ((p.1, set_body v p.2), Ok ())
  | Throw e => (p, Throw e)
  | Undef => (p, Undef)
  end.
Definition TestHttpHandler : HttpHandlerFactory (S := CoStringStream) :=
  MkFactory (B "/test/:endpoint") (MkHandler _default_behavior answer_endpoint _default_behavior _default_behavior
    _default_behavior _default_behavior _default_behavior).
Definition test_request (target : str) : str :=
  B "GET " ++ target ++ B " HTTP/1.1" ++ CRLF ++ B "Host: localhost" ++ CRLF ++ CRLF.
Definition test_response (target : str) : option str :=
  (λ p, _write_str p.1.2) <$> run test_flags (λ _, 15) Nat.max (λ _, []) 3 (attach_routes [TestHttpHandler] make_router).1
    (new_string_stream (test_request target) []).

Lemma router_tests :
  test_response (B "/test/foobar") = Some (B "HTTP/1.1 200 OK" ++ CRLF ++ B "Content-Length: 6" ++ CRLF ++ CRLF ++ B "foobar") ∧
  test_response (B "/gibberish") = Some (B "HTTP/1.1 404 Not Found" ++ CRLF ++ B "Content-Type: text/plain" ++ CRLF ++
    B "Content-Length: 10" ++ CRLF ++ CRLF ++ B "Not Found.").
Proof. by vm_compute. Qed.

(** ** Behaviour a caller would not expect *)

(** Two requests that come in one string, the second read of which asks for a
    whole block again. *)
Lemma second_block_undefined :
  (λ p, p.2) <$> run test_flags (λ _, 15) Nat.max (λ _, []) 3 (attach_routes [TestHttpHandler] make_router).1
    (new_string_stream (request_text (B "GET") (B "/test/a") (B "HTTP/1.1") None [KEEP] ++ replicate 300 "x"%char) []) = Some Undef.
Proof. by vm_compute. Qed.

(** Closing an end only clears what it would read, and its position stays: when
    the other end writes more than that, the closed one is good again, and what
    it reads is not the beginning. *)
Lemma closed_end_reopens :
  let c := (connection_write false (B "hello") make_connection).1 in
  let c := connection_close true (connection_read true 5 c).1 in
  string_good (end_of true c) = false ∧
  let c := (connection_write false (B "again!") c).1 in
  string_good (end_of true c) = true ∧ (connection_read true 1 c).2 = Ok (B "!").
Proof. by vm_compute. Qed.
