(* ===== verification/FlagFormat.v ===== *)
(** lw/flags/format: the text of flag values and their parsers. *)
From Stdlib Require Import SpecFloat.
From S2P Require Import Prelude Cxx Floats.

(** * Booleans *)

Definition true_words : list str :=
  [B "y"; B "Y"; B "yes"; B "Yes"; B "t"; B "T"; B "true"; B "True"; B "1"].
Definition false_words : list str :=
  [B "n"; B "N"; B "no"; B "No"; B "f"; B "F"; B "false"; B "False"; B "0"].

Definition format_bool (value : bool) : str := if value then B "true" else B "false".

Definition parse_bool (value : str) : res bool :=
  if decide (value ∈ true_words) then Ok true
  else if decide (value ∈ false_words) then Ok false
  else throw InvalidArgument.

(** * Integers *)

Definition format_integer (value : Z) : str := show_Z value.

(** [parse<NUM>] for a type with values [lo..hi]; the stored value is only
    returned when there is one. *)
Definition parse_integer (lo hi : Z) (value : str) : res Z :=
  let '(used, err, out) := from_chars lo hi value in
  if bool_decide (used ≠ length value ∨ err = errc_invalid_argument) then throw InvalidArgument
  else if decide (err = errc_result_out_of_range) then throw InvalidArgument
  else match out with Some n => Ok n | None => Undef end.

(** * Floating point *)

Inductive float_type := TFloat | TDouble | TLongDouble.
(** The bits of the mantissa and the bound of the exponent; [long double] is
    that of x86. *)
Definition float_prec (t : float_type) : Z := match t with TFloat => 24 | TDouble => 53 | TLongDouble => 64 end.
Definition float_emax (t : float_type) : Z := match t with TFloat => 128 | TDouble => 1024 | TLongDouble => 16384 end.

Definition format_floating (value : spec_float) : str := to_string value.

(** [parse<float>], [parse<double>] and [parse<long double>]; [after] is what is
    in memory after the view, up to a null character. *)
Definition parse_floating (t : float_type) (after value : str) : res spec_float :=
  let '(out, n) := strtod (float_prec t) (float_emax t) (value ++ after) in
  if decide (n ≠ length value) then throw InvalidArgument
  else if decide (out = HUGE_VAL) then throw InvalidArgument
  else Ok out.

Definition parse_float := parse_floating TFloat.
Definition parse_double := parse_floating TDouble.
Definition parse_long_double := parse_floating TLongDouble.

(** * Strings *)

Fixpoint format_string (value : str) : str :=
  match value with
  | [] => []
  | c :: value =>
      (if bool_decide (c = "\"%char ∨ c = "034"%char) || isspace c then ["\"%char; c] else [c])
      ++ format_string value
  end.

Fixpoint unescape_loop (escaped : bool) (value : str) : str :=
  match value with
  | [] => []
  | c :: value =>
      if negb escaped && bool_decide (c = "\"%char) then unescape_loop true value
      else c :: unescape_loop false value
  end.
Definition parse_string (value : str) : res str := Ok (unescape_loop false value).

(** * Durations *)

(** The units, in nanoseconds. *)
Inductive time_unit := years | days | hours | minutes | seconds | milliseconds | microseconds | nanoseconds.
Definition unit_length (u : time_unit) : Z :=
  match u with
  | years => 31556952 * 10 ^ 9
  | days => 86400 * 10 ^ 9
  | hours => 3600 * 10 ^ 9
  | minutes => 60 * 10 ^ 9
  | seconds => 10 ^ 9
  | milliseconds => 10 ^ 6
  | microseconds => 10 ^ 3
  | nanoseconds => 1
  end.
Definition unit_suffix (u : time_unit) : str :=
  match u with
  | years => B "y" | days => B "d" | hours => B "h" | minutes => B "m" | seconds => B "s"
  | milliseconds => B "ms" | microseconds => B "us" | nanoseconds => B "ns"
  end.

(** [can_convert_duration<Unit>] of a number of nanoseconds: there and back. *)
Definition can_convert_duration (u : time_unit) (duration : Z) : bool :=
  (Z.quot duration (unit_length u) * unit_length u =? duration)%Z.

(** [format] of a [nanoseconds]. *)
Definition format_in (u : time_unit) (duration : Z) : str :=
  format_integer (Z.quot duration (unit_length u)) ++ unit_suffix u.
Definition format_duration (duration : Z) : str :=
  if can_convert_duration years duration then format_in years duration
  else if can_convert_duration days duration then format_in days duration
  else if can_convert_duration hours duration then format_in hours duration
  else if can_convert_duration minutes duration then format_in minutes duration
  else if can_convert_duration seconds duration then format_in seconds duration
  else if can_convert_duration milliseconds duration then format_in milliseconds duration
  else format_in nanoseconds duration.

(** The chain of comparisons on [units]. *)
Definition find_unit (units : str) : option time_unit :=
  if decide (units = B "y") then Some years
  else if decide (units = B "d") then Some days
  else if decide (units = B "h") then Some hours
  else if decide (units = B "m") then Some minutes
  else if decide (units = B "s") then Some seconds
  else if decide (units = B "ms") then Some milliseconds
  else if decide (units = B "us") then Some microseconds
  else if decide (units = B "ns") then Some nanoseconds
  else None.

(** A signed 64-bit result; overflow is undefined. *)
Definition int64 (z : Z) : res Z :=
  if decide (INT64_MIN ≤ z ≤ INT64_MAX)%Z then Ok z else Undef.

(** How many characters up to the next digit. *)
Fixpoint nondigits (s : str) : nat :=
  match s with c :: s => if isdigit c then 0 else S (nondigits s) | [] => 0 end.

(** The loop of [parse<nanoseconds>]; every round takes at least two characters,
    so the length of the text is enough fuel. *)
Fixpoint duration_loop (fuel : nat) (sum : Z) (v : str) : res Z :=
  match v, fuel with
  | [], _ => Ok sum
  | _, 0 => Undef
  | _, S fuel =>
      let '(num_end, ec, out) := from_chars INT64_MIN INT64_MAX v in
      if decide (num_end = length v) then throw InvalidArgument
      else if bool_decide (num_end = 0 ∨ ec = errc_invalid_argument) then throw InvalidArgument
      else if decide (ec = errc_result_out_of_range) then throw InvalidArgument
      else match out with
           | None => Undef
           | Some count =>
               let unit_size := 1 + nondigits (drop (num_end + 1) v) in
               match find_unit (slice v num_end (num_end + unit_size)) with
               | None => throw InvalidArgument
               | Some u =>
                   part ← int64 (count * unit_length u);
                   sum ← int64 (sum + part);
                   duration_loop fuel sum (drop (num_end + unit_size) v)
               end
           end
  end.
Definition parse_duration (value : str) : res Z := duration_loop (length value) 0 value.

(** * Outcomes *)

Lemma from_chars_cases lo hi s :
  match from_chars lo hi s with
  | (n, errc_ok, Some z) => (lo ≤ z ≤ hi)%Z ∧ n ≤ length s ∧ 0 < n
  | (n, errc_ok, None) => False
  | (n, _, _) => n ≤ length s
  end.
Proof.
  assert (∀ t, length (digit_run t) ≤ length t) as Hrun.
  { induction t as [|c t IH]; cbn; [done|]. destruct (isdigit c); cbn; lia. }
  unfold from_chars. set (neg := bool_decide (lo < 0)%Z && _).
  assert ((if neg then 1 else 0) + length (digit_run (if neg then tail s else s)) ≤ length s) as Hn.
  { destruct neg eqn:En; [|apply Hrun]. apply andb_true_iff in En as [_ Hh]. apply bool_decide_eq_true in Hh.
    destruct s as [|c s]; [done|]. specialize (Hrun s). cbn. lia. }
  clearbody neg. set (ds := digit_run _) in *.
  destruct (bool_decide (ds = [])) eqn:Eb; [lia|]. apply bool_decide_eq_false in Eb.
  destruct (_ && _) eqn:Er; [|done]. bool_hyps. split_and!; try lia. destruct ds; [done|cbn; lia].
Qed.

Lemma parse_integer_outcome lo hi value :
  (∃ n, parse_integer lo hi value = Ok n ∧ (lo ≤ n ≤ hi)%Z) ∨ parse_integer lo hi value = throw InvalidArgument.
Proof.
  unfold parse_integer. pose proof (from_chars_cases lo hi value) as H.
  destruct (from_chars lo hi value) as [[n [| |]] [z|]]; try done;
    (case_bool_decide as Hb; [by right|]); [left; exists z|exfalso; tauto..|by right|by right].
  split; [done|]. lia.
Qed.

Lemma format_bool_parse b : parse_bool (format_bool b) = Ok b.
Proof. by destruct b. Qed.

Lemma show_integer_parse lo hi n :
  (lo ≤ n ≤ hi)%Z → (n < 0 → lo < 0)%Z → parse_integer lo hi (format_integer n) = Ok n.
Proof.
  intros Hn Hlo. unfold parse_integer, format_integer.
  pose proof (from_chars_show lo hi n [] Hn Hlo) as H. rewrite app_nil_r in H. rewrite H by done.
  by rewrite bool_decide_false by (intros [?|?]; done).
Qed.

Lemma unescape_format s : unescape_loop false (format_string s) = s.
Proof.
  induction s as [|c s IH]; [done|]. cbn [format_string].
  destruct (bool_decide (c = "\"%char ∨ c = "034"%char) || isspace c) eqn:E; cbn [app unescape_loop].
  - cbn. by rewrite IH.
  - apply orb_false_iff in E as [E _]. apply bool_decide_eq_false in E.
    rewrite bool_decide_false by tauto. cbn. by rewrite IH.
Qed.

(** * Durations *)

(** A part of a duration: how many of which unit. *)
Definition part_text (p : Z * time_unit) : str := show_Z p.1 ++ unit_suffix p.2.
Definition part_value (p : Z * time_unit) : Z := (p.1 * unit_length p.2)%Z.

Lemma nondigits_stop a s :
  forallb (λ c, negb (isdigit c)) a = true → (∀ c, head s = Some c → isdigit c = true) →
  nondigits (a ++ s) = length a.
Proof.
  intros Ha Hs. induction a as [|c a IH]; cbn in *.
  - destruct s as [|c s]; [done|]. cbn. by rewrite (Hs c eq_refl).
  - apply andb_true_iff in Ha as [Hc%negb_true_iff Ha]. rewrite Hc. by rewrite IH.
Qed.

Lemma duration_step fuel sum p rest :
  (INT64_MIN ≤ p.1 ≤ INT64_MAX)%Z → (∀ c, head rest = Some c → isdigit c = true) →
  duration_loop (S fuel) sum (part_text p ++ rest)
  = (part ← int64 (part_value p); sum ← int64 (sum + part); duration_loop fuel sum rest).
Proof.
  destruct p as [n u]. cbn [fst snd]. intros Hn Hr. unfold part_text, part_value. cbn [fst snd].
  rewrite <- app_assoc. set (text := show_Z n ++ unit_suffix u ++ rest).
  assert (from_chars INT64_MIN INT64_MAX text = (length (show_Z n), errc_ok, Some n)) as Hf.
  { apply from_chars_show; [done|by unfold INT64_MIN; lia|]. by destruct u; intros c [= <-]. }
  pose proof (from_chars_cases INT64_MIN INT64_MAX text) as Hc. rewrite Hf in Hc. destruct Hc as (_ & _ & Hpos).
  assert (length (show_Z n) < length text) as Hlt by (unfold text; rewrite !length_app; destruct u; cbn; lia).
  assert (∃ c t, text = c :: t) as (c0 & t0 & Et) by (destruct text; [cbn in Hlt; lia|eauto]).
  cbn [duration_loop]. rewrite Et at 1. cbn [duration_loop]. rewrite Hf.
  rewrite decide_False by lia. rewrite bool_decide_false by (intros [?|?]; [lia|done]). cbn [decide].
  rewrite decide_False by done.
  assert (1 + nondigits (drop (length (show_Z n) + 1) text) = length (unit_suffix u)) as ->.
  { unfold text. rewrite <- drop_drop, drop_app_length.
    assert (nondigits (drop 1 (unit_suffix u ++ rest)) = length (drop 1 (unit_suffix u))) as ->; [|by destruct u].
    assert (drop 1 (unit_suffix u ++ rest) = drop 1 (unit_suffix u) ++ rest) as -> by by destruct u.
    apply nondigits_stop; [by destruct u|done]. }
  assert (slice text (length (show_Z n)) (length (show_Z n) + length (unit_suffix u)) = unit_suffix u) as ->.
  { unfold slice, text. rewrite drop_app_length. replace (_ - _) with (length (unit_suffix u)) by lia.
    apply take_app_length. }
  assert (drop (length (show_Z n) + length (unit_suffix u)) text = rest) as ->
    by (unfold text; by rewrite <- drop_drop, !drop_app_length).
  by destruct u.
Qed.

Definition duration_text (ps : list (Z * time_unit)) : str := concat (map part_text ps).

(** Adding up the parts, from left to right. *)
Fixpoint sum_parts (sum : Z) (ps : list (Z * time_unit)) : res Z :=
  match ps with
  | [] => Ok sum
  | p :: ps => part ← int64 (part_value p); sum ← int64 (sum + part); sum_parts sum ps
  end.

(** The first count may have a sign. *)
Definition wf_parts (ps : list (Z * time_unit)) : Prop :=
  Forall (λ p, INT64_MIN ≤ p.1 ≤ INT64_MAX)%Z ps ∧ Forall (λ p, 0 ≤ p.1)%Z (tail ps).

Lemma duration_text_head ps c :
  Forall (λ p, 0 ≤ p.1)%Z ps → head (duration_text ps) = Some c → isdigit c = true.
Proof.
  destruct ps as [|[n u] ps]; [done|]. intros [Hn _]%Forall_cons. cbn [fst] in Hn.
  unfold duration_text, part_text, show_Z. cbn [map concat fst].
  destruct (Z.ltb_spec n 0); [lia|]. rewrite <- app_assoc. intros Hc.
  destruct (show_digits_spec n Hn) as (_ & Hne & _).
  apply (show_digits_head_digit n c Hn). by destruct (show_digits n).
Qed.

Lemma duration_loop_parts ps sum fuel :
  wf_parts ps → length ps ≤ fuel → duration_loop fuel sum (duration_text ps) = sum_parts sum ps.
Proof.
  revert sum fuel. induction ps as [|p ps IH]; intros sum fuel [H1 H2] Hf.
  - by destruct fuel.
  - destruct fuel as [|fuel]; [cbn in Hf; lia|]. apply Forall_cons in H1 as [Hp H1]. cbn [tail] in H2.
    change (duration_text (p :: ps)) with (part_text p ++ duration_text ps).
    rewrite duration_step; [|done|intros c; by apply duration_text_head]. cbn [sum_parts length] in *.
    destruct (int64 (part_value p)) as [part| |]; [|done..]. cbn.
    destruct (int64 (sum + part)) as [sum'| |]; [|done..]. cbn. apply IH; [|lia].
    split; [done|]. by destruct ps; [|apply Forall_cons in H2 as [_ H2]].
Qed.

Lemma length_duration_text ps : length ps ≤ length (duration_text ps).
Proof.
  induction ps as [|[n u] ps IH]; [done|]. unfold duration_text in *. cbn [map concat length].
  rewrite length_app. assert (0 < length (part_text (n, u))); [|lia].
  unfold part_text. rewrite length_app. destruct u; cbn; lia.
Qed.

(** The unit [format] picks for a duration. *)
Lemma format_duration_part d :
  ∃ u n, format_duration d = part_text (n, u) ∧ (n * unit_length u = d)%Z ∧ (Z.abs n ≤ Z.abs d)%Z.
Proof.
  assert (∀ u, can_convert_duration u d = true →
    ∃ u' n, format_in u d = part_text (n, u') ∧ (n * unit_length u' = d)%Z ∧ (Z.abs n ≤ Z.abs d)%Z) as H.
  { intros u Hu%Z.eqb_eq. exists u, (Z.quot d (unit_length u)). split_and!; [done|done|].
    assert (1 ≤ unit_length u)%Z by (by destruct u). nia. }
  unfold format_duration. repeat match goal with |- context [if can_convert_duration ?u d then _ else _] =>
    destruct (can_convert_duration u d) eqn:?; [by apply H|] end.
  apply H. unfold can_convert_duration. cbn [unit_length]. apply Z.eqb_eq. rewrite Z.quot_1_r. lia.
Qed.

(** * Properties *)

(** Every flag value is read back from its text: booleans, integers of
    every width, and strings whatever characters they hold. *)
Theorem flag_values_roundtrip (b : bool) (s : str) (lo hi n : Z) :
  parse_bool (format_bool b) = Ok b ∧
  parse_string (format_string s) = Ok s ∧
  ((lo ≤ n ≤ hi)%Z → (n < 0 → lo < 0)%Z → parse_integer lo hi (format_integer n) = Ok n).
Proof.
  split_and!; [apply format_bool_parse|unfold parse_string; by rewrite unescape_format|apply show_integer_parse].
Qed.

(** A text given as an integer of any type is either a number of that type
    or rejected with [InvalidArgument]; the uninitialised result is never
    returned. *)
Theorem parse_integer_range (lo hi : Z) (value : str) :
  (∃ n, parse_integer lo hi value = Ok n ∧ (lo ≤ n ≤ hi)%Z) ∨
  parse_integer lo hi value = throw InvalidArgument.
Proof. apply parse_integer_outcome. Qed.

(** The text of any number of parts, of which the first may be negative,
    is read as their sum; the result is undefined exactly when a part or a
    partial sum overflows 64 bits. *)
Theorem parse_duration_parts (ps : list (Z * time_unit)) :
  wf_parts ps → parse_duration (duration_text ps) = sum_parts 0 ps.
Proof. intros H. apply duration_loop_parts; [done|apply length_duration_text]. Qed.

Lemma parse_duration_parts_witness :
  parse_duration (B "-1h30m5us") = Ok (- 3600 * 10 ^ 9 + 1800 * 10 ^ 9 + 5000)%Z.
Proof.
  etrans; [apply (parse_duration_parts [(-1, hours); (30, minutes); (5, microseconds)]%Z)|by vm_compute].
  split; repeat (apply Forall_cons; split; [cbn; unfold INT64_MIN, INT64_MAX; lia|]); done.
Defined.

(** Every number of nanoseconds of 64 bits is read back from its text. *)
Theorem duration_roundtrip (d : Z) :
  (INT64_MIN ≤ d ≤ INT64_MAX)%Z → parse_duration (format_duration d) = Ok d.
Proof.
  intros Hd. destruct (format_duration_part d) as (u & n & -> & Hn & Habs).
  assert (INT64_MIN ≤ n ≤ INT64_MAX)%Z.
  { assert (1 ≤ unit_length u)%Z by (by destruct u). clear Habs.
    assert (0 ≤ n → n ≤ d)%Z by nia. assert (n < 0 → d ≤ n)%Z by nia.
    unfold INT64_MIN, INT64_MAX in *. lia. }
  assert (part_text (n, u) = duration_text [(n, u)]) as -> by (unfold duration_text; cbn; by rewrite app_nil_r).
  unfold parse_duration. rewrite duration_loop_parts; [|by split; [apply Forall_singleton|]|apply length_duration_text].
  cbn. unfold part_value. cbn [fst snd]. rewrite Hn. unfold int64. rewrite decide_True by done.
  cbn. by rewrite decide_True by lia.
Qed.

Lemma duration_roundtrip_witness :
  format_duration (- 2 * 86400 * 10 ^ 9) = B "-2d" ∧ parse_duration (B "-2d") = Ok (- 2 * 86400 * 10 ^ 9)%Z.
Proof.
  split; [by vm_compute|]. apply (duration_roundtrip (- 2 * 86400 * 10 ^ 9)). by vm_compute.
Defined.

(** Six decimals are what is kept of a number: its text is read back as the
    number nearest to them.  Infinity is rejected, negative infinity is not. *)
Theorem float_roundtrip (t : float_type) (x : spec_float) :
  parse_floating t [] (format_floating x) =
    match x with
    | S754_finite s m e =>
        let out := nearest (float_prec t) (float_emax t) s (scaled m e 6) (-6) in
        if decide (out = HUGE_VAL) then throw InvalidArgument else Ok out
    | S754_infinity false => throw InvalidArgument
    | _ => Ok x
    end.
Proof.
  assert (∀ s r, (0 ≤ r)%Z → parse_floating t [] (plain_text s r 6) = let out := nearest (float_prec t) (float_emax t) s r (-6) in
    if decide (out = HUGE_VAL) then throw InvalidArgument else Ok out) as Hplain.
  { intros s r Hr. unfold parse_floating. rewrite strtod_plain by done. by rewrite decide_False by lia. }
  destruct x as [s|s| |s m e]; unfold format_floating; cbn [to_string].
  - rewrite Hplain by done. by rewrite decide_False.
  - destruct s; by vm_compute.
  - by vm_compute.
  - apply Hplain, scaled_nonneg.
Qed.

Definition tenth : spec_float := nearest 53 1024 false 1 (-1).
Lemma float_texts :
  parse_floating TDouble [] (format_floating tenth) = Ok tenth ∧
  format_floating (nearest 53 1024 false 1 (-7)) = B "0.000000" ∧
  parse_floating TFloat [] (B "1e39") = throw InvalidArgument ∧ parse_floating TDouble [] (B "0x1p-3") = parse_floating TDouble [] (B " +.125").
Proof. by vm_compute. Qed.

(** * Behaviour a caller would not expect *)

(** No text at all is zero, and only overflow of a positive number is rejected. *)
Lemma empty_float_is_zero t : parse_floating t [] [] = Ok (S754_zero false).
Proof. done. Qed.
Lemma negative_float_overflows : parse_floating TDouble [] (B "1e400") = throw InvalidArgument ∧
  parse_floating TDouble [] (B "-1e400") = Ok (S754_infinity true).
Proof. by vm_compute. Qed.
(** The view's end is not looked at. *)
Lemma float_reads_on : parse_floating TDouble (B "5") (B "1.") = throw InvalidArgument.
Proof. by vm_compute. Qed.

(** Only the counts are checked for overflow. *)
Lemma long_duration_overflows : parse_duration (B "300y") = Undef.
Proof. by vm_compute. Qed.
(** Zero is printed in the longest unit. *)
Lemma zero_duration : format_duration 0 = B "0y".
Proof. by vm_compute. Qed.
