(* ===== verification/Flags.v ===== *)
(** lw/flags/flags and lw/base/init: the registry of command line flags and the
    treatment of a program's arguments. *)
From stdpp Require Import gmap sorting.
From S2P Require Import Prelude Cxx.

Section flags.
(** The values of flags, and [std::hash] of a string. *)
Context {V : Type} (std_hash : str → Z).

(** * Flags *)

(** [Flag<T>] with the [FlagTraits] of its type. *)
Record Flag := MkFlag {
  type_name : str;
  name : str;
  description : str;
  format_method : V → str;
  parse_method : str → res V;
  _default : V;
  _value : option V;
}.

Definition flag_value (f : Flag) : V := default (_default f) (_value f).
Definition default_value_string (f : Flag) : str := format_method f (_default f).
Definition set_value (v : V) (f : Flag) : Flag :=
  MkFlag (type_name f) (name f) (description f) (format_method f) (parse_method f) (_default f) (Some v).
Definition parse_value (value_str : str) (f : Flag) : res Flag :=
  v ← parse_method f value_str; Ok (set_value v f).

(** * The registry *)

Definition FLAG_PRINT_WIDTH : nat := 80.
Definition MAX_FLAG_NAME : nat := 20.
Definition FLAG_PREFIX : str := B " --".
Definition BOOLEAN_TYPE_NAME : str := B "bool".

(** [get_flag_map()]. *)
Definition flag_map : Type := gmap Z Flag.

Definition alt_name (flag_name : str) : str :=
  map (λ c, if Ascii.eqb c "_" then "-"%char else c) flag_name.
Definition hash_flag_name (flag_name : str) : Z := std_hash (alt_name flag_name).

(** [flags_register], the body of the constructor of [FlagBase]. *)
Definition flags_register (flag : Flag) : ST flag_map () :=
  flags ← st_get;
  if decide (is_Some (flags !! hash_flag_name (name flag))) then st_throw AlreadyExists
  else st_put (<[hash_flag_name (name flag) := flag]> flags).

Definition flags_exists (flag_name : str) (flags : flag_map) : bool :=
  bool_decide (is_Some (flags !! hash_flag_name flag_name)).

(** The name tried when an unknown flag has no value: without its [no], or with
    [enable] for [disable]. *)
Definition alternate_flag_name (flag_name : str) : str :=
  if bool_decide (2 < length flag_name) && starts_with (B "no") flag_name then
    let flag_name := drop 2 flag_name in
    if bool_decide (1 < length flag_name)
       && bool_decide (head flag_name = Some "-"%char ∨ head flag_name = Some "_"%char)
    then drop 1 flag_name else flag_name
  else if bool_decide (7 < length flag_name) && starts_with (B "disable") flag_name then
    B "en" ++ drop 3 flag_name
  else flag_name.

(** [flag->parse_value(value)] on the flag under [key]. *)
Definition parse_into (key : Z) (flag : Flag) (value : str) : ST flag_map () :=
  flag ← st_res (parse_value value flag);
  st_modify (λ flags, <[key := flag]> flags).

(** [flags_cli_set(flag_name, value, rest_args, argc)]. *)
Definition flags_cli_set (flag_name : str) (value : option str) (rest_args : list str) (argc : nat) :
    ST flag_map bool :=
  flags ← st_get;
  let found := bool_decide (is_Some (flags !! hash_flag_name flag_name)) in
  let alternate := negb found && bool_decide (value = None) in
  let flag_name := if alternate then alternate_flag_name flag_name else flag_name in
  let value := if alternate then Some (B "no") else value in
  match flags !! hash_flag_name flag_name with
  | None => st_throw InvalidArgument
  | Some flag =>
      let value := if bool_decide (value = None) && bool_decide (type_name flag = BOOLEAN_TYPE_NAME)
                   then Some (B "yes") else value in
      match value with
      | Some v => parse_into (hash_flag_name flag_name) flag v ≫= λ _, mret false
      | None =>
          if decide (0 < argc) then
            match rest_args with
            | [] => st_res Undef
            | next_arg :: _ =>
                if starts_with (B "--") next_arg then st_throw InvalidArgument
                else parse_into (hash_flag_name flag_name) flag next_arg ≫= λ _, mret true
            end
          else st_throw InvalidArgument
      end
  end.

(** * The help text *)

Definition endl : str := ["010"%char].
Definition spaces (n : nat) : str := replicate n " "%char.

(** [std::lexicographical_compare] of the names, as an order. *)
Fixpoint name_le (a b : list Z) : bool :=
  match a, b with
  | [], _ => true
  | _ :: _, [] => false
  | x :: a, y :: b => (x <? y)%Z || ((x =? y)%Z && name_le a b)
  end.
Definition flag_le (a b : Flag) : Prop := name_le (map char_int (name a)) (map char_int (name b)) = true.
#[global] Instance flag_le_dec a b : Decision (flag_le a b).
Proof. unfold flag_le. apply _. Defined.

Definition print_flag (name_pad : nat) (f : Flag) : str :=
  let padding := spaces (name_pad + length FLAG_PREFIX) in
  (if decide (MAX_FLAG_NAME ≤ length (name f))
   then FLAG_PREFIX ++ name f ++ endl ++ padding
   else FLAG_PREFIX ++ name f ++ spaces (name_pad - length (name f)))
  ++ type_name f ++ B "; Default = " ++ default_value_string f ++ endl ++ padding ++ description f ++ endl ++ endl.

(** [print_flags], over the flags in the order the map has them in. *)
Definition print_flags (flags : list Flag) : str :=
  let name_pad := fold_left (λ n f, Nat.max n (length (name f))) flags 0 in
  let flags := merge_sort flag_le flags in
  let name_pad := Nat.min (name_pad + 1) MAX_FLAG_NAME in
  concat (map (print_flag name_pad) flags).

(** * Program arguments *)

(** [while (end < flag.size() && flag[end] != '=') ++end;] *)
Fixpoint find_equals (s : str) : nat :=
  match s with c :: s => if Ascii.eqb c "=" then 0 else S (find_equals s) | [] => 0 end.

(** [flag[i]], undefined out of range. *)
Definition index_at (s : str) (i : nat) : res ascii :=
  match s !! i with Some c => Ok c | None => Undef end.

(** [parse_flag(flag)]. *)
Definition parse_flag (flag : str) : res (option str * option str) :=
  if bool_decide (length flag < 3) || negb (starts_with (B "--") flag) then Ok (None, None)
  else
    let fin := 3 + find_equals (drop 3 flag) in
    let name := slice flag 2 fin in
    if decide (length flag - 1 ≤ fin) then
      if bool_decide (3 < length name) && starts_with (B "no-") name
      then Ok (Some (drop 3 name), Some (take 2 name))
      else Ok (Some name, None)
    else
      first ← index_at flag (fin + 1);
      if bool_decide (first = "034"%char ∨ first = "'"%char) then
        last ← index_at flag (length flag - 1);
        if decide (first ≠ last) then throw InvalidArgument
        else
          (* with the two ends crossed, the length wraps round to the maximum *)
          let n := if decide (length flag - 1 < fin + 2) then length flag
                   else length flag - 1 - (fin + 2) in
          v ← substr flag (fin + 2) n; Ok (Some name, Some v)
      else v ← substr flag (fin + 1) (length flag - (fin + 1)); Ok (Some name, Some v).

(** The flags, [*argc] and the array [argv]. *)
Record init_state := InitState { registry : flag_map; argc : nat; argv : list str }.

Definition on_registry {A} (m : ST flag_map A) : ST init_state A := λ s,
  let '(flags, r) := m (registry s) in (InitState flags (argc s) (argv s), r).
Definition drop_arguments (n : nat) : ST init_state () :=
  st_modify (λ s, InitState (registry s) (argc s - n) (argv s)).
Definition move_argument (back_fill : nat) (arg : str) : ST init_state () :=
  st_modify (λ s, InitState (registry s) (argc s) (<[back_fill := arg]> (argv s))).

(** The loop of [init] from argument [i]; [mvr] is [argv + i] throughout.  The
    number of arguments is enough fuel. *)
Fixpoint init_loop (fuel original_count i back_fill : nat) : ST init_state () :=
  if decide (original_count ≤ i) then mret ()
  else match fuel with
  | 0 => st_res Undef
  | S fuel =>
      s ← st_get;
      arg ← st_res (match argv s !! i with Some arg => Ok arg | None => Undef end);
      '(flag_name, opt_value) ← st_res (parse_flag arg);
      match flag_name with
      | Some n =>
          if flags_exists n (registry s) then
            used ← on_registry (flags_cli_set n opt_value (drop (i + 1) (argv s)) (original_count - i - 1));
            (if (used : bool) then drop_arguments 1 else mret ()) ≫= λ _,
            drop_arguments 1 ≫= λ _,
            init_loop fuel original_count (i + (if (used : bool) then 2 else 1)) back_fill
          else move_argument back_fill arg ≫= λ _, init_loop fuel original_count (i + 1) (back_fill + 1)
      | None => move_argument back_fill arg ≫= λ _, init_loop fuel original_count (i + 1) (back_fill + 1)
      end
  end.

(** [init(argc, argv)] for an array that holds [argc] arguments: whether to go
    on, and what is printed.  [help] reads the flag of that name. *)
Definition usage (program : str) (flags : flag_map) : str :=
  B "Usage: " ++ program ++ B " [options...]" ++ endl ++ B "Options:" ++ endl
  ++ print_flags (map snd (map_to_list flags)).
Definition init (help : flag_map → bool) : ST init_state (bool * str) :=
  s ← st_get;
  init_loop (argc s) (argc s) 1 1 ≫= λ _,
  s ← st_get;
  if help (registry s) then
    program ← st_res (match argv s !! 0 with Some p => Ok p | None => Undef end);
    mret (false, usage program (registry s))
  else mret (true, []).

(** * The specification of [init]: a recursion over the arguments *)

(** The arguments that are not flags, in order, while the flags among them are
    set from kept to right. *)
Fixpoint take_flags (args : list str) : ST flag_map (list str) :=
  match args with
  | [] => mret []
  | arg :: rest =>
      '(flag_name, opt_value) ← st_res (parse_flag arg);
      flags ← st_get;
      match flag_name with
      | Some n =>
          if flags_exists n flags then
            used ← flags_cli_set n opt_value rest (length rest);
            match (used : bool), rest with
            | true, _ :: rest => take_flags rest
            | _, _ => take_flags rest
            end
          else kept ← take_flags rest; mret (arg :: kept)
      | None => kept ← take_flags rest; mret (arg :: kept)
      end
  end.

Lemma cli_set_used n v rest k flags flags' :
  flags_cli_set n v rest k flags = (flags', Ok true) → 0 < k.
Proof.
  unfold flags_cli_set, mbind, ST_bind, st_get.
  destruct (flags !! _) as [flag|]; [|done].
  set (value := if _ && bool_decide (type_name flag = _) then _ else _).
  destruct value as [w|].
  - unfold parse_into, mbind, ST_bind, st_res, st_modify. by destruct (parse_value w flag).
  - by destruct (decide _).
Qed.

Lemma move_into_gap {A} (done gap rest : list A) x :
  ∃ gap', <[length done := x]> (done ++ gap ++ x :: rest) = (done ++ [x]) ++ gap' ++ rest ∧
    length gap' = length gap.
Proof.
  rewrite insert_app_r_alt, Nat.sub_diag by done. destruct gap as [|y gap].
  - exists []. by rewrite <- app_assoc.
  - exists (gap ++ [x]). cbn. rewrite <- !app_assoc. split; [done|]. rewrite length_app. cbn. lia.
Qed.

(** How the two outcomes correspond, from argument count [c]. *)
Definition loop_result (c : nat) (done rest : list str) (out : init_state * res ())
    (spec : flag_map * res (list str)) : Prop :=
  match spec with
  | (flags', Ok kept) =>
      ∃ gap, out = (InitState flags' (c - (length rest - length kept)) (done ++ kept ++ gap), Ok ()) ∧
        length kept ≤ length rest
  | (flags', Throw e) => registry out.1 = flags' ∧ out.2 = Throw e
  | (flags', Undef) => registry out.1 = flags' ∧ out.2 = Undef
  end.

Lemma loop_result_keep c done arg rest out flags r :
  loop_result c (done ++ [arg]) rest out (flags, r) →
  loop_result c done (arg :: rest) out ((kept ← st_res r; mret (arg :: kept)) flags).
Proof.
  destruct r as [kept| |]; [|done..]. intros (gap & -> & Hl). exists gap. cbn. split; [|lia].
  by rewrite <- app_assoc.
Qed.

Lemma loop_result_drop n c done dropped rest out spec :
  n = length dropped → length rest + n ≤ c →
  loop_result (c - n) done rest out spec → loop_result c done (dropped ++ rest) out spec.
Proof.
  intros -> Hc. destruct spec as [flags [kept| |]]; [|done..]. intros (gap & -> & Hl). exists gap.
  rewrite length_app. split; [|lia]. do 2 f_equal. lia.
Qed.

(** One step of both, with the bindings worked out. *)
Definition flag_of (r : option str * option str) (flags : flag_map) : option (str * option str) :=
  match r.1 with Some n => if flags_exists n flags then Some (n, r.2) else None | None => None end.

Lemma take_flags_step arg rest flags :
  take_flags (arg :: rest) flags =
  match parse_flag arg with
  | Ok r =>
      match flag_of r flags with
      | Some (n, v) =>
          match flags_cli_set n v rest (length rest) flags with
          | (flags, Ok true) => take_flags (tail rest) flags
          | (flags, Ok false) => take_flags rest flags
          | (flags, Throw e) => (flags, Throw e)
          | (flags, Undef) => (flags, Undef)
          end
      | None => (kept ← take_flags rest; mret (arg :: kept)) flags
      end
  | Throw e => (flags, Throw e)
  | Undef => (flags, Undef)
  end.
Proof.
  cbn [take_flags]. unfold flag_of, mbind at 1, ST_bind at 1, st_res at 1.
  destruct (parse_flag arg) as [[n v]|e|]; [|done..]. cbn [fst snd].
  unfold mbind at 1, ST_bind at 1, st_get. destruct n as [n|]; [|done].
  destruct (flags_exists n flags); [|done]. unfold mbind at 1, ST_bind at 1.
  destruct (flags_cli_set _ _ _ _ _) as [flags' [[|]|e|]]; by destruct rest.
Qed.

Lemma init_loop_step fuel original i back_fill s arg :
  i < original → argv s !! i = Some arg →
  init_loop (S fuel) original i back_fill s =
  match parse_flag arg with
  | Ok r =>
      match flag_of r (registry s) with
      | Some (n, v) =>
          match flags_cli_set n v (drop (i + 1) (argv s)) (original - i - 1) (registry s) with
          | (flags, Ok used) =>
              init_loop fuel original (i + (if (used : bool) then 2 else 1)) back_fill
                (InitState flags (argc s - (if used then 2 else 1)) (argv s))
          | (flags, Throw e) => (InitState flags (argc s) (argv s), Throw e)
          | (flags, Undef) => (InitState flags (argc s) (argv s), Undef)
          end
      | None =>
          init_loop fuel original (i + 1) (back_fill + 1)
            (InitState (registry s) (argc s) (<[back_fill := arg]> (argv s)))
      end
  | Throw e => (s, Throw e)
  | Undef => (s, Undef)
  end.
Proof.
  intros Hi Ha. cbn [init_loop]. rewrite decide_False by lia.
  unfold mbind at 1, ST_bind at 1, st_get. rewrite Ha. unfold mbind at 1, ST_bind at 1, st_res at 1.
  unfold flag_of, mbind at 1, ST_bind at 1, st_res at 1.
  destruct (parse_flag arg) as [[n v]|e|]; [|done..]. cbn [fst snd].
  destruct n as [n|]; [|done]. destruct (flags_exists n _); [|done].
  unfold mbind at 1, ST_bind at 1, on_registry.
  destruct (flags_cli_set _ _ _ _ _) as [flags' [[|]|e|]]; [|done..].
  unfold mbind, ST_bind, drop_arguments, st_modify. cbn [argc argv registry].
  by replace (argc s - 1 - 1) with (argc s - 2) by lia.
Qed.

Lemma init_loop_spec fuel : ∀ flags c done gap rest,
  length rest ≤ fuel → length done + length rest ≤ c →
  loop_result c done rest
    (init_loop fuel (length done + length gap + length rest) (length done + length gap) (length done)
       (InitState flags c (done ++ gap ++ rest)))
    (take_flags rest flags).
Proof.
  induction fuel as [|fuel IH]; intros flags c done gap [|arg rest] Hf Hc; cbn [length] in *; try lia.
  1-2: cbn [init_loop]; rewrite decide_True by lia; exists gap; cbn; by rewrite app_nil_r, Nat.sub_0_r.
  rewrite take_flags_step, (init_loop_step _ _ _ _ _ arg); [|lia|].
  2: { cbn [argv]. rewrite lookup_app_r, lookup_app_r by lia.
       by replace (length done + length gap - length done - length gap) with 0 by lia. }
  destruct (parse_flag arg) as [r|e|]; [|done..]. cbn [registry argc argv].
  destruct (flag_of r flags) as [[n v]|].
  - assert (drop (length done + length gap + 1) (done ++ gap ++ arg :: rest) = rest) as ->.
    { rewrite app_assoc, <- drop_drop, <- length_app. rewrite drop_app_length. done. }
    replace (length done + length gap + S (length rest) - (length done + length gap) - 1) with (length rest) by lia.
    destruct (flags_cli_set n v rest (length rest) flags) as [flags' [[|]|e|]] eqn:E; [| |done..].
    + apply cli_set_used in E. destruct rest as [|arg2 rest]; [cbn in E; lia|]. cbn [tail length] in *.
      apply (loop_result_drop 2 _ _ [arg; arg2]); [done|lia|].
      assert (length gap + 2 = length (gap ++ [arg; arg2])) as Hg by (rewrite length_app; done).
      specialize (IH flags' (c - 2) done (gap ++ [arg; arg2]) rest). rewrite <- Hg, <- app_assoc in IH.
      replace (length done + length gap + S (S (length rest))) with (length done + (length gap + 2) + length rest) by lia.
      replace (length done + length gap + 2) with (length done + (length gap + 2)) by lia. apply IH; lia.
    + apply (loop_result_drop 1 _ _ [arg]); [done|lia|].
      assert (length gap + 1 = length (gap ++ [arg])) as Hg by (rewrite length_app; done).
      specialize (IH flags' (c - 1) done (gap ++ [arg]) rest). rewrite <- Hg, <- app_assoc in IH.
      replace (length done + length gap + S (length rest)) with (length done + (length gap + 1) + length rest) by lia.
      replace (length done + length gap + 1) with (length done + (length gap + 1)) by lia. apply IH; lia.
  - destruct (move_into_gap done gap rest arg) as (gap' & -> & Hg).
    specialize (IH flags c (done ++ [arg]) gap' rest). rewrite length_app, Hg in IH. cbn [length] in IH.
    replace (length done + length gap + S (length rest)) with (length done + 1 + length gap + length rest) by lia.
    replace (length done + length gap + 1) with (length done + 1 + length gap) by lia.
    assert (loop_result c done (arg :: rest)
      (init_loop fuel (length done + 1 + length gap + length rest) (length done + 1 + length gap) (length done + 1)
         (InitState flags c ((done ++ [arg]) ++ gap' ++ rest)))
      ((kept ← st_res (take_flags rest flags).2; mret (arg :: kept)) (take_flags rest flags).1)) as H.
    { apply loop_result_keep. rewrite <- surjective_pairing. apply IH; lia. }
    unfold mbind, ST_bind, st_res in H |- *. by destruct (take_flags rest flags) as [? [| |]].
Qed.

Lemma init_eq help s :
  init help s =
  match init_loop (argc s) (argc s) 1 1 s with
  | (s, Ok _) =>
      (s, if help (registry s) then match argv s !! 0 with
                                    | Some program => Ok (false, usage program (registry s))
                                    | None => Undef
                                    end
          else Ok (true, []))
  | (s, Throw e) => (s, Throw e)
  | (s, Undef) => (s, Undef)
  end.
Proof.
  unfold init, mbind, ST_bind, st_get. destruct (init_loop _ _ _ _ s) as [s' [[]|e|]]; [|done..].
  destruct (help _); [|done]. by destruct (argv s' !! 0).
Qed.

(** * Registration *)

Definition flag_key (f : Flag) : Z := hash_flag_name (name f).

Lemma flags_register_eq f m :
  flags_register f m
  = if decide (is_Some (m !! flag_key f)) then (m, throw AlreadyExists) else (<[flag_key f := f]> m, Ok ()).
Proof. unfold flags_register, mbind, ST_bind, st_get. by destruct (decide _). Qed.

Lemma register_all_spec fs : ∀ m,
  match for_each flags_register fs m with
  | (m', Ok _) => NoDup (map flag_key fs) ∧ (∀ f, f ∈ fs → m !! flag_key f = None) ∧
      ∀ k f, m' !! k = Some f ↔ m !! k = Some f ∨ (f ∈ fs ∧ flag_key f = k)
  | (_, r) => r = throw AlreadyExists ∧ ¬ (NoDup (map flag_key fs) ∧ ∀ f, f ∈ fs → m !! flag_key f = None)
  end.
Proof.
  induction fs as [|f fs IH]; intros m; cbn [for_each map].
  - cbn. split_and!; [constructor|intros f; inversion 1|]. intros k f. split; [auto|]. by intros [|[?%elem_of_nil _]].
  - unfold mbind at 1, ST_bind at 1. rewrite flags_register_eq.
    destruct (decide (is_Some (m !! flag_key f))) as [[g Hg]|Hn].
    + cbn. split; [done|]. intros [_ H]. rewrite H in Hg; [done|by left].
    + apply eq_None_not_Some in Hn. cbn. specialize (IH (<[flag_key f := f]> m)).
      destruct (for_each flags_register fs (<[flag_key f:=f]> m)) as [m' [[]|e|]].
      * destruct IH as (H1 & H2 & H3). split_and!.
        -- apply NoDup_cons. split; [|done]. intros (g & Hk & Hg)%list_elem_of_fmap.
           pose proof (H2 g Hg) as H. rewrite <- Hk in H.
           by rewrite (lookup_insert_eq m (flag_key f)) in H.
        -- intros g [->|Hg]%elem_of_cons; [done|]. pose proof (H2 g Hg) as H.
           by apply (lookup_insert_None m) in H as [? _].
        -- intros k g. rewrite H3, elem_of_cons. destruct (decide (flag_key f = k)) as [<-|Hk].
           ++ rewrite (lookup_insert_eq m (flag_key f)), Hn. naive_solver.
           ++ rewrite (lookup_insert_ne m (flag_key f) k) by done. naive_solver.
      * destruct IH as [-> H]. split; [done|]. intros [[Hf Hd]%NoDup_cons Hm]. apply H. split; [done|].
        intros g Hg. rewrite (lookup_insert_ne m (flag_key f)); [apply Hm; by right|]. intros E. apply Hf. rewrite E.
        by apply list_elem_of_fmap_2.
      * destruct IH as [? _]. done.
Qed.

(** * The order of the help text *)

Lemma name_le_refl a : name_le a a = true.
Proof. induction a as [|x a IH]; [done|]. cbn. rewrite Z.eqb_refl, IH. apply orb_true_r. Qed.

Lemma name_le_total a b : name_le a b = true ∨ name_le b a = true.
Proof.
  revert b. induction a as [|x a IH]; intros [|y b]; cbn; auto.
  destruct (Z.ltb_spec x y), (Z.ltb_spec y x); auto. destruct (Z.eqb_spec x y) as [->|]; [|lia].
  rewrite Z.eqb_refl. cbn. apply IH.
Qed.

Lemma name_le_trans a b c : name_le a b = true → name_le b c = true → name_le a c = true.
Proof.
  revert b c. induction a as [|x a IH]; intros [|y b] [|z c]; cbn; try done.
  rewrite !orb_true_iff, !andb_true_iff, !Z.ltb_lt, !Z.eqb_eq.
  intros [?|[-> ?]] [?|[-> ?]]; [left; lia|by left|by left|right]. split; [done|]. by eapply IH.
Qed.

Lemma name_le_antisym a b : name_le a b = true → name_le b a = true → a = b.
Proof.
  revert b. induction a as [|x a IH]; intros [|y b]; cbn; try done.
  rewrite !orb_true_iff, !andb_true_iff, !Z.ltb_lt, !Z.eqb_eq.
  intros [?|[-> ?]] [?|[? ?]]; try lia. f_equal. by apply IH.
Qed.

#[global] Instance flag_le_total : Total flag_le.
Proof. intros a b. apply name_le_total. Qed.
#[global] Instance flag_le_transitive : Transitive flag_le.
Proof. intros a b c. apply name_le_trans. Qed.

Lemma flag_le_same_name a b : flag_le a b → flag_le b a → name a = name b.
Proof.
  intros H1 H2. pose proof (name_le_antisym _ _ H1 H2) as H. revert H. generalize (name a), (name b). clear.
  intros l k. revert k. induction l as [|c l IH]; intros [|d k]; try done. cbn. intros [= Hc Hl].
  f_equal; [by apply char_int_inj|by apply IH].
Qed.

Lemma same_name_same_flag (fs : list Flag) f g :
  NoDup (map name fs) → f ∈ fs → g ∈ fs → name f = name g → f = g.
Proof.
  intros Hd Hf Hg E. induction fs as [|h fs IH]; [by apply elem_of_nil in Hf|]. cbn in Hd.
  apply NoDup_cons in Hd as [Hh Hd]. apply elem_of_cons in Hf as [->|Hf], Hg as [->|Hg]; [done|..|by apply IH].
  - destruct Hh. rewrite E. by apply list_elem_of_fmap_2.
  - destruct Hh. rewrite <- E. by apply list_elem_of_fmap_2.
Qed.

Lemma max_name_perm fs gs n :
  fs ≡ₚ gs → fold_left (λ n f, Nat.max n (length (name f))) fs n
           = fold_left (λ n f, Nat.max n (length (name f))) gs n.
Proof.
  intros H. revert n. induction H as [|f fs gs _ IH|f g fs|fs gs hs _ IH1 _ IH2]; intros n; cbn; auto.
  - f_equal. lia.
  - by rewrite IH1.
Qed.
End flags.

(** * Reading one argument *)

Definition QUOTE : ascii := "034".
Definition is_quote (c : ascii) : Prop := c = QUOTE ∨ c = "'"%char.

(** A flag's name as an argument can spell it: an equals sign may only come
    first. *)
Definition wf_name (n : str) : Prop := n ≠ [] ∧ forallb (λ c, negb (Ascii.eqb c "=")) (drop 1 n) = true.

Lemma find_equals_stop a r :
  forallb (λ c, negb (Ascii.eqb c "=")) a = true →
  find_equals (a ++ "="%char :: r) = length a ∧ find_equals a = length a.
Proof.
  induction a as [|c a IH]; [done|]. cbn. intros [Hc%negb_true_iff Ha]%andb_true_iff. rewrite Hc.
  destruct (IH Ha) as [-> ->]. done.
Qed.

Definition dashes (n : str) : str := B "--" ++ n.

Lemma parse_flag_valued n v :
  wf_name n → v ≠ [] →
  parse_flag (dashes n ++ B "=" ++ v)
  = (first ← index_at (dashes n ++ B "=" ++ v) (3 + length n);
     if bool_decide (first = QUOTE ∨ first = "'"%char) then
       last ← index_at (dashes n ++ B "=" ++ v) (2 + length n + length v);
       if decide (first ≠ last) then throw InvalidArgument
       else
         v ← substr (dashes n ++ B "=" ++ v) (4 + length n)
               (if decide (2 + length n + length v < 4 + length n) then 3 + length n + length v
                else 2 + length n + length v - (4 + length n));
         Ok (Some n, Some v)
     else Ok (Some n, Some v)).
Proof.
  intros [Hne Hn] Hv. set (t := dashes n ++ B "=" ++ v).
  assert (length t = 3 + length n + length v) as Hl by (unfold t, dashes; rewrite !length_app; cbn; lia).
  destruct n as [|c n]; [done|]. destruct v as [|d v]; [done|]. cbn [drop length] in *.
  unfold parse_flag. rewrite bool_decide_false by lia.
  assert (starts_with (B "--") t = true) as -> by done.
  assert (drop 3 t = n ++ "="%char :: d :: v) as -> by done. cbn [orb negb].
  rewrite (proj1 (find_equals_stop n (d :: v) Hn)). rewrite decide_False by lia.
  assert (slice t 2 (3 + length n) = c :: n) as ->.
  { unfold slice, t, dashes. cbn [B list_ascii_of_string app drop].
    replace (3 + length n - 2) with (length (c :: n)) by (cbn; lia). apply (take_app_length (c :: n)). }
  assert (substr t (3 + length n + 1) (length t - (3 + length n + 1)) = Ok (d :: v)) as Hs.
  { replace (length t - (3 + length n + 1)) with (length (d :: v)) by (cbn [length]; lia).
    apply occurs_substr. exists (dashes (c :: n) ++ B "="), [].
    unfold t. rewrite app_nil_r, <- app_assoc. split; [done|]. unfold dashes. rewrite !length_app. cbn. lia. }
  rewrite Hs, Hl. replace (3 + length n + 1) with (3 + S (length n)) by lia.
  replace (3 + S (length n) + S (length v) - 1) with (2 + S (length n) + S (length v)) by lia.
  replace (3 + length n + 2) with (4 + S (length n)) by lia. cbn [mbind res_bind].
  destruct (index_at t (3 + S (length n))) as [f| |]; done.
Qed.

Lemma parse_flag_alone n :
  wf_name n →
  parse_flag (dashes n) = (if bool_decide (3 < length n) && starts_with (B "no-") n
                           then Ok (Some (drop 3 n), Some (take 2 n)) else Ok (Some n, None)).
Proof.
  intros [Hne Hn]. destruct n as [|c n]; [done|]. cbn [drop] in Hn. set (t := dashes (c :: n)).
  assert (length t = 3 + length n) as Hl by done.
  unfold parse_flag. rewrite bool_decide_false by lia.
  assert (starts_with (B "--") t = true) as -> by done.
  assert (drop 3 t = n) as -> by done. cbn [orb negb].
  rewrite (proj2 (find_equals_stop n [] Hn)), decide_True by lia.
  assert (slice t 2 (3 + length n) = c :: n) as ->; [|done].
  unfold slice, t, dashes. cbn [B list_ascii_of_string app drop]. apply take_ge. cbn. lia.
Qed.

(** * Properties *)

(** C39.  [init] treats the arguments as a left-to-right reading of them does:
    flags of the registry are set (taking the next argument as their value when
    they need one), everything else is kept in order behind the program's name,
    and [argc] counts what was kept; it never reads past the arguments.  When
    the help flag ends up set it prints the usage and says to stop.  An error in
    a flag ends it with the flags before it already set. *)
Theorem init_arguments {V} (std_hash : str → Z) (help : flag_map → bool)
    (flags : flag_map (V := V)) (program : str) (args : list str) :
  let out := init std_hash help (InitState flags (S (length args)) (program :: args)) in
  match take_flags std_hash args flags with
  | (flags', Ok kept) =>
      ∃ behind, out = (InitState flags' (S (length kept)) (program :: kept ++ behind),
        Ok (if help flags' then (false, usage program flags') else (true, [])))
  | (flags', Throw e) => registry out.1 = flags' ∧ out.2 = Throw e
  | (flags', Undef) => registry out.1 = flags' ∧ out.2 = Undef
  end.
Proof.
  cbn zeta. pose proof (init_loop_spec std_hash (S (length args)) flags (S (length args)) [program] [] args
    ltac:(lia) ltac:(cbn; lia)) as H. cbn [length app Nat.add] in H.
  rewrite init_eq. cbn [argc].
  destruct (take_flags std_hash args flags) as [flags' [kept|e|]]; cbn [loop_result] in H.
  - destruct H as (gap & -> & Hl). exists gap. cbn [registry argv lookup list_lookup app].
    replace (S (length args) - (length args - length kept)) with (S (length kept)) by lia.
    by destruct (help flags').
  - by destruct (init_loop _ _ _ _ _ _) as [s [[]| |]]; destruct H as [<- E]; cbn in E; simplify_eq.
  - by destruct (init_loop _ _ _ _ _ _) as [s [[]| |]]; destruct H as [<- E]; cbn in E; simplify_eq.
Qed.

(** Registering flags succeeds exactly when their names stay different with
    underscores read as hyphens (and hashes do not collide); every flag is then
    found under each spelling of its name, and nothing else is found. *)
Theorem registered_flags {V} (std_hash : str → Z) (fs : list (Flag (V := V))) :
  match for_each (flags_register std_hash) fs ∅ with
  | (flags, Ok _) => NoDup (map (flag_key std_hash) fs) ∧
      ∀ spelling f, flags !! hash_flag_name std_hash spelling = Some f ↔
        f ∈ fs ∧ flag_key std_hash f = hash_flag_name std_hash spelling
  | (_, r) => r = throw AlreadyExists ∧ ¬ NoDup (map (flag_key std_hash) fs)
  end.
Proof.
  pose proof (register_all_spec std_hash fs ∅) as H.
  assert (∀ k, (∅ : flag_map (V := V)) !! k = None) as He by (intros; apply (lookup_empty (M := gmap Z) (A := Flag))).
  destruct (for_each _ fs ∅) as [flags [[]|e|]].
  - destruct H as (H1 & _ & H3). split; [done|]. intros sp f. rewrite H3, He. naive_solver.
  - destruct H as [-> H]. split; [done|]. intros Hd. apply H. split; [done|]. intros. apply He.
  - by destruct H as [? _].
Qed.

(** The help text does not depend on the order of the hash table: flags
    with different names are printed in the order of their names. *)
Theorem print_flags_order {V} (fs gs : list (Flag (V := V))) :
  fs ≡ₚ gs → NoDup (map name fs) → print_flags fs = print_flags gs.
Proof.
  intros Hp Hd. unfold print_flags. rewrite (max_name_perm fs gs 0) by done. do 2 f_equal.
  apply (StronglySorted_unique_strong flag_le).
  - intros f g Hf Hg H1 H2. rewrite merge_sort_Permutation in Hf, Hg.
    rewrite <- Hp in Hg. apply flag_le_same_name in H1; [|done]. by apply (same_name_same_flag fs).
  - apply (StronglySorted_merge_sort flag_le); apply _.
  - apply (StronglySorted_merge_sort flag_le); apply _.
  - by rewrite !merge_sort_Permutation.
Qed.

(** The forms an argument can have: [--name=value] gives the name and the
    value, without the quotes when it is wrapped in two of the same kind; a name
    alone gives no value, with [no-] before it the name and the value no; a
    quote that is not closed is rejected; anything else is no flag. *)
Theorem parse_flag_forms (n v : str) :
  wf_name n →
  (∀ c, head v = Some c → ¬ is_quote c → parse_flag (dashes n ++ B "=" ++ v) = Ok (Some n, Some v)) ∧
  (∀ q, is_quote q → parse_flag (dashes n ++ B "=" ++ q :: v ++ [q]) = Ok (Some n, Some v)) ∧
  (∀ q c, is_quote q → c ≠ q →
     parse_flag (dashes n ++ B "=" ++ q :: v ++ [c]) = throw InvalidArgument) ∧
  (starts_with (B "no-") n = false → parse_flag (dashes n) = Ok (Some n, None)) ∧
  (no_char "="%char n = true → parse_flag (dashes (B "no-" ++ n)) = Ok (Some n, Some (B "no"))) ∧
  (starts_with (B "--") v = false → parse_flag v = Ok (None, None)).
Proof.
  intros Hwf. pose proof Hwf as [Hne Hn].
  assert (∀ w i, index_at (dashes n ++ B "=" ++ w) (3 + length n + i) = index_at w i) as Hidx.
  { intros w i. unfold index_at. assert (length (dashes n ++ B "=") = 3 + length n) as Hl
      by (unfold dashes; rewrite !length_app; cbn; lia).
    rewrite app_assoc, lookup_app_r by lia. by replace (3 + length n + i - _) with i by lia. }
  assert (∀ q w, is_quote q → w ≠ [] → parse_flag (dashes n ++ B "=" ++ q :: w)
    = (l ← index_at (q :: w) (length w);
       if decide (q ≠ l) then throw InvalidArgument else Ok (Some n, Some (take (length w - 1) w)))) as Hq.
  { intros q w Hq Hw. rewrite parse_flag_valued by done.
    pose proof (Hidx (q :: w) 0) as H0. rewrite Nat.add_0_r in H0. rewrite H0. cbn [index_at lookup list_lookup mbind res_bind].
    rewrite bool_decide_true by done. cbn [length].
    replace (2 + length n + S (length w)) with (3 + length n + length w) by lia. rewrite Hidx.
    destruct (index_at (q :: w) (length w)) as [l| |]; [|done..]. cbn [mbind res_bind].
    destruct (decide (q ≠ l)); [done|]. assert (0 < length w) by (destruct w; [done|cbn; lia]).
    rewrite decide_False by lia.
    replace (3 + length n + length w - (4 + length n)) with (length (take (length w - 1) w))
      by (rewrite length_take; lia).
    assert (substr (dashes n ++ B "=" ++ q :: w) (4 + length n) (length (take (length w - 1) w))
      = Ok (take (length w - 1) w)) as ->; [|done].
    apply occurs_substr. exists (dashes n ++ B "=" ++ [q]), (drop (length w - 1) w).
    rewrite take_drop, <- !app_assoc. split; [done|]. unfold dashes. rewrite !length_app. cbn. lia. }
  assert (∀ q c, index_at (q :: v ++ [c]) (length (v ++ [c])) = Ok c) as Hlast.
  { intros q c. unfold index_at. rewrite length_app. cbn [length]. rewrite Nat.add_1_r.
    assert ((q :: v ++ [c]) !! S (length v) = Some c) as ->; [|done].
    by apply (list_lookup_middle (q :: v) [] c). }
  split_and!.
  - intros c Hc Hnq. rewrite parse_flag_valued; [|done|by destruct v]. destruct v as [|d v]; [done|].
    pose proof (Hidx (d :: v) 0) as H0. rewrite Nat.add_0_r in H0. rewrite H0. cbn. simplify_eq/=.
    by rewrite bool_decide_false by done.
  - intros q Hqt. rewrite Hq by (done || by destruct v). rewrite Hlast. cbn [mbind res_bind].
    rewrite decide_False by naive_solver. rewrite length_app. cbn [length].
    replace (length v + 1 - 1) with (length v) by lia. by rewrite take_app_length.
  - intros q c Hqt Hc. rewrite Hq by (done || by destruct v). rewrite Hlast. cbn [mbind res_bind].
    by rewrite decide_True by congruence.
  - intros Hno. rewrite parse_flag_alone by done. by rewrite Hno, andb_false_r.
  - intros Hc. rewrite parse_flag_alone; [|split; [done|]].
    + rewrite starts_with_app. destruct n as [|c n]; [done|]. done.
    + cbn. exact Hc.
  - intros H. unfold parse_flag. by rewrite H, orb_true_r.
Qed.

Lemma parse_flag_forms_witness :
  parse_flag (B "--log-level=3") = Ok (Some (B "log-level"), Some (B "3")) ∧
  parse_flag (B "--name='a b'") = Ok (Some (B "name"), Some (B "a b")) ∧
  parse_flag (B "--name='a b" ++ [QUOTE]) = throw InvalidArgument ∧
  parse_flag (B "--no-color") = Ok (Some (B "color"), Some (B "no")).
Proof.
  destruct (parse_flag_forms (B "log-level") (B "3")) as (H1 & _); [done|].
  destruct (parse_flag_forms (B "name") (B "a b")) as (_ & H2 & H3 & _); [done|].
  destruct (parse_flag_forms (B "color") []) as (_ & _ & _ & _ & H5 & _); [done|].
  split_and!.
  - apply (H1 "3"%char); [done|]. by intros [?|?].
  - apply (H2 "'"%char). by right.
  - apply (H3 "'"%char QUOTE); [by right|done].
  - by apply H5.
Defined.

(** * Examples *)

(** Flags of type bool and std::string whose values are their texts. *)
Definition sample_flag (type name : str) : Flag (V := str) := MkFlag type name [] id Ok [] None.
Definition length_hash (s : str) : Z := fold_left (λ h c, (256 * h + char_int c)%Z) s 0%Z.
Definition sample_flags : flag_map (V := str) :=
  (for_each (flags_register length_hash)
    [sample_flag (B "bool") (B "enable_color"); sample_flag (B "std::string") (B "log_level")] ∅).1.
Definition sample_init (args : list str) : list str * res (list str) :=
  let '(flags, r) := take_flags length_hash args sample_flags in
  ([default [] (flag_value <$> flags !! hash_flag_name length_hash (B "enable-color"));
    default [] (flag_value <$> flags !! hash_flag_name length_hash (B "log-level"))], r).

Lemma sample_settings :
  sample_init [B "in"; B "--log-level"; B "3"; B "--enable-color"; B "--other=1"; B "out"]
  = ([B "yes"; B "3"], Ok [B "in"; B "--other=1"; B "out"]).
Proof. by vm_compute. Qed.

(** [flags_cli_set] turns a flag off under its disabled name, but [init] only
    calls it with names that exist, so the argument stays unknown. *)
Lemma disabled_name_unreachable :
  (flags_cli_set length_hash (B "disable-color") None [] 0 sample_flags).2 = Ok false ∧
  sample_init [B "--disable-color"] = ([[]; []], Ok [B "--disable-color"]).
Proof. split; by vm_compute. Qed.

Lemma print_flags_order_witness :
  print_flags [sample_flag (B "bool") (B "b"); sample_flag (B "bool") (B "a")]
  = print_flags [sample_flag (B "bool") (B "a"); sample_flag (B "bool") (B "b")].
Proof.
  apply print_flags_order; [apply perm_swap|]. apply (bool_decide_unpack _). by vm_compute.
Defined.
