(* ===== verification/Future.v ===== *)
(** lw/co/future: promises and futures over the state they share, and the race
    between setting a state and suspending on it. *)
From stdpp Require Import gmap.
From S2P Require Import Prelude.

(** * Shared states *)

Section future.
(** Values, and what moving out of one leaves behind. *)
Context {T : Type} (moved_from : T → T).

(** [SharedPromiseState<T>]; a scheduler is named by its thread, a coroutine by
    its handle. *)
Record SharedPromiseState := MkState {
  state_set : bool;
  future_suspended : bool;
  exception : option exn;
  scheduler : option nat;
  handle : option nat;
  value : option T;
  chain_state : option nat;
}.
Definition new_state : SharedPromiseState := MkState false false None None None None None.

(** A [Promise] and a [Future] hold a pointer to their state. *)
Record Promise := MkPromise { _future_obtained : bool; promise_state : nat }.
Record Future := MkFuture { future_state : nat }.

(** The store, and the coroutines handed to schedulers, latest last. *)
Record world := World { store : gmap nat SharedPromiseState; scheduled : list (nat * nat) }.

Definition read_state (l : nat) : ST world SharedPromiseState := λ w,
  (w, match store w !! l with Some s => Ok s | None => Undef end).
Definition write_state (l : nat) (s : SharedPromiseState) : ST world () :=
  st_modify (λ w, World (<[l := s]> (store w)) (scheduled w)).

(** [while (state->chain_state) state = state->chain_state;]; a chain visits
    every state at most once unless it is a cycle, on which the source hangs. *)
Fixpoint follow_chain (fuel : nat) (l : nat) : ST world nat :=
  match fuel with
  | 0 => st_res Undef
  | S fuel => s ← read_state l; match chain_state s with Some l' => follow_chain fuel l' | None => mret l end
  end.
Definition _get_state (l : nat) : ST world nat := λ w, follow_chain (S (size (store w))) l w.

(** * Promises *)

Definition make_promise : ST world Promise := λ w,
  let l := fresh (dom (store w)) in
  (World (<[l := new_state]> (store w)) (scheduled w), Ok (MkPromise false l)).

(** [get_future()]: the promise afterwards and the future. *)
Definition get_future (p : Promise) : res (Promise * Future) :=
  if _future_obtained p then throw FailedPrecondition
  else Ok (MkPromise true (promise_state p), MkFuture (promise_state p)).

Definition _claim_state_set (l : nat) : ST world () :=
  s ← read_state l;
  write_state l (MkState true (future_suspended s) (exception s) (scheduler s) (handle s) (value s) (chain_state s))
  ≫= λ _, if state_set s then st_throw FailedPrecondition else mret ().

Definition _schedule_task (l : nat) : ST world () :=
  s ← read_state l;
  if future_suspended s then
    match scheduler s, handle s with
    | Some t, Some h => st_modify (λ w, World (store w) (scheduled w ++ [(t, h)]))
    | _, _ => st_res Undef
    end
  else mret ().

Definition store_value (v : T) (l : nat) : ST world () :=
  s ← read_state l;
  write_state l (MkState (state_set s) (future_suspended s) (exception s) (scheduler s) (handle s) (Some v) (chain_state s)).
Definition store_exception (e : exn) (l : nat) : ST world () :=
  s ← read_state l;
  write_state l (MkState (state_set s) (future_suspended s) (Some e) (scheduler s) (handle s) (value s) (chain_state s)).

(** [set_value] and [set_exception]. *)
Definition set_value (p : Promise) (v : T) : ST world () :=
  l ← _get_state (promise_state p); _claim_state_set l ≫= λ _, store_value v l ≫= λ _, _schedule_task l.
Definition set_exception (p : Promise) (e : exn) : ST world () :=
  l ← _get_state (promise_state p); _claim_state_set l ≫= λ _, store_exception e l ≫= λ _, _schedule_task l.

(** [return_value(Future<T>&&)]. *)
Definition return_future (p : Promise) (f : Future) : ST world () :=
  s ← read_state (future_state f);
  if state_set s then
    match exception s, value s with
    | Some e, _ => set_exception p e
    | None, Some v => set_value p v ≫= λ _, store_value (moved_from v) (future_state f)
    | None, None => st_res Undef
    end
  else write_state (future_state f)
         (MkState (state_set s) (future_suspended s) (exception s) (scheduler s) (handle s) (value s)
            (Some (promise_state p))).

(** * Futures *)

Definition await_ready (f : Future) : ST world bool := s ← read_state (future_state f); mret (state_set s).

(** [await_suspend(handle)] on the thread [t]: whether the coroutine stays
    suspended. *)
Definition await_suspend (t h : nat) (f : Future) : ST world bool :=
  s ← read_state (future_state f);
  write_state (future_state f) (MkState (state_set s) (negb (state_set s)) (exception s) (Some t) (Some h) (value s) (chain_state s))
  ≫= λ _, mret (negb (state_set s)).

Definition await_resume (f : Future) : ST world T :=
  l ← _get_state (future_state f);
  s ← read_state l;
  if negb (state_set s) then st_throw FailedPrecondition
  else match exception s, value s with
       | Some e, _ => st_res (Throw e)
       | None, Some v =>
           write_state l (MkState (state_set s) (future_suspended s) None (scheduler s) (handle s)
             (Some (moved_from v)) (chain_state s)) ≫= λ _, mret v
       | None, None => st_res Undef
       end.

(** [make_resolved_future]. *)
Definition make_resolved_future (v : T) : ST world Future :=
  p ← make_promise; set_value p v ≫= λ _, '(_, f) ← st_res (get_future p); mret f.
Definition make_rejected_future (e : exn) : ST world Future :=
  p ← make_promise; set_exception p e ≫= λ _, '(_, f) ← st_res (get_future p); mret f.

(** * Chains *)

(** The state at the end of the chain from [l], [n] steps away. *)
Inductive chain (st : gmap nat SharedPromiseState) : nat → nat → nat → Prop :=
  | chain_end l s : st !! l = Some s → chain_state s = None → chain st l l 0
  | chain_next l s l' r n : st !! l = Some s → chain_state s = Some l' → chain st l' r n → chain st l r (S n).

Lemma chain_fun st l r r' n n' : chain st l r n → chain st l r' n' → r = r' ∧ n = n'.
Proof.
  intros H. revert r' n'. induction H as [l s H1 H2|l s l' r n H1 H2 _ IH]; inversion 1; subst; simplify_eq; [done|].
  by edestruct IH as [-> ->].
Qed.

(** The states on the way are different ones, so the store has more states than
    the chain has steps. *)
Lemma chain_path st l r n :
  chain st l r n → ∃ ls : list nat, length ls = S n ∧ (∀ x, x ∈ ls → x ∈ dom st ∧ ∃ k, k ≤ n ∧ chain st x r k) ∧ NoDup ls.
Proof.
  induction 1 as [l s H1 H2|l s l' r n H1 H2 H3 (ls & Hl & Hin & Hd)].
  - exists [l]. split_and!; [done| |apply NoDup_singleton]. intros x ->%list_elem_of_singleton.
    split; [by eapply elem_of_dom_2|]. exists 0. split; [done|by econstructor].
  - exists (l :: ls). assert (chain st l r (S n)) as Hc by by econstructor. split_and!.
    + cbn. by rewrite Hl.
    + intros x [->|Hx]%elem_of_cons; [split; [by eapply elem_of_dom_2|eauto]|].
      destruct (Hin x Hx) as (? & k & ? & ?). eauto.
    + apply NoDup_cons. split; [|done]. intros Hx. destruct (Hin l Hx) as (_ & k & Hk & Hck).
      destruct (chain_fun _ _ _ _ _ _ Hc Hck). lia.
Qed.

Lemma chain_short st l r n : chain st l r n → n < size st.
Proof.
  intros H. destruct (chain_path st l r n H) as (ls & Hl & Hin & Hd).
  assert (size (list_to_set (C := gset nat) ls) ≤ size (dom st)) as Hs.
  { apply subseteq_size. intros x Hx. by apply Hin, (elem_of_list_to_set (C := gset nat)). }
  rewrite size_list_to_set, size_dom, Hl in Hs by done. lia.
Qed.

Lemma follow_chain_spec fuel l r n w :
  chain (store w) l r n → n < fuel → follow_chain fuel l w = (w, Ok r).
Proof.
  intros H. revert fuel. induction H as [l s H1 H2|l s l' r n H1 H2 _ IH]; intros [|fuel] Hf; try lia;
    cbn [follow_chain]; unfold mbind, ST_bind, read_state; rewrite H1, H2; [done|]. apply IH. lia.
Qed.

Lemma get_state_spec l r n w : chain (store w) l r n → _get_state l w = (w, Ok r).
Proof. intros H. unfold _get_state. apply (follow_chain_spec _ _ _ n); [done|]. apply chain_short in H. lia. Qed.

(** Writing a state that leaves its chain pointer alone keeps every chain. *)
Lemma chain_update st k s s' l r n :
  st !! k = Some s → chain_state s' = chain_state s → chain st l r n → chain (<[k := s']> st) l r n.
Proof.
  intros Hk Hs H. induction H as [l t H1 H2|l t l' r n H1 H2 _ IH]; destruct (decide (k = l)) as [->|Hne].
  - apply (chain_end _ _ s'); [by rewrite lookup_insert_eq|congruence].
  - apply (chain_end _ _ t); [by rewrite lookup_insert_ne|done].
  - apply (chain_next _ _ s' l'); [by rewrite lookup_insert_eq|congruence|done].
  - apply (chain_next _ _ t l'); [by rewrite lookup_insert_ne|done..].
Qed.

(** * The specification: a cell that is set once *)

Inductive cell := Pending (waiter : option (nat * nat)) | Resolved (r : T + exn).

Inductive op :=
  | SetValue (promise : nat) (v : T)
  | SetException (promise : nat) (e : exn)
  | Ready
  | Suspend (thread coroutine : nat)
  | Resume.
Inductive answer := Done | Bool (b : bool) | Value (v : T) | Raised (e : exn).

Definition waiters (c : cell) : list (nat * nat) :=
  match c with Pending (Some w) => [w] | _ => [] end.

(** The cell afterwards, the answer, and the coroutines handed to a scheduler. *)
Definition spec_step (o : op) (c : cell) : cell * answer * list (nat * nat) :=
  match o, c with
  | SetValue _ v, Pending _ => (Resolved (inl v), Done, waiters c)
  | SetException _ e, Pending _ => (Resolved (inr e), Done, waiters c)
  | SetValue _ _, Resolved _ | SetException _ _, Resolved _ => (c, Raised (LwError FailedPrecondition), [])
  | Ready, Pending _ => (c, Bool false, [])
  | Ready, Resolved _ => (c, Bool true, [])
  | Suspend t h, Pending _ => (Pending (Some (t, h)), Bool true, [])
  | Suspend _ _, Resolved _ => (c, Bool false, [])
  | Resume, Pending _ => (c, Raised (LwError FailedPrecondition), [])
  | Resume, Resolved (inl v) => (Resolved (inl (moved_from v)), Value v, [])
  | Resume, Resolved (inr e) => (c, Raised e, [])
  end.

Definition answer_of {A} (f : A → answer) (r : res A) : option answer :=
  match r with Ok a => Some (f a) | Throw e => Some (Raised e) | Undef => None end.
Definition call {A} (f : A → answer) (m : ST world A) (w : world) : world * option answer :=
  let '(w, r) := m w in (w, answer_of f r).

(** A call through a promise or on the future with state [l]. *)
Definition impl_step (l : nat) (o : op) : world → world * option answer :=
  match o with
  | SetValue p v => call (λ _, Done) (set_value (MkPromise true p) v)
  | SetException p e => call (λ _, Done) (set_exception (MkPromise true p) e)
  | Ready => call Bool (await_ready (MkFuture l))
  | Suspend t h => call Bool (await_suspend t h (MkFuture l))
  | Resume => call Value (await_resume (MkFuture l))
  end.

(** How a state represents a cell. *)
Definition cell_repr (s : SharedPromiseState) (c : cell) : Prop :=
  chain_state s = None ∧
  match c with
  | Pending None => state_set s = false ∧ future_suspended s = false ∧ exception s = None
  | Pending (Some (t, h)) => state_set s = false ∧ future_suspended s = true ∧ exception s = None ∧
      scheduler s = Some t ∧ handle s = Some h
  | Resolved (inl v) => state_set s = true ∧ exception s = None ∧ value s = Some v
  | Resolved (inr e) => state_set s = true ∧ exception s = Some e
  end.

(** The promises that lead to [l]. *)
Definition leads_to (w : world) (l : nat) (o : op) : Prop :=
  match o with SetValue p _ | SetException p _ => ∃ n, chain (store w) p l n | _ => True end.

(** One call: the answer, what is scheduled, and what is kept. *)
Definition step_ok (l : nat) (w : world) (c : cell) (o : op) : Prop :=
  let '(c', a, woken) := spec_step o c in
  ∃ s', impl_step l o w = (World (<[l := s']> (store w)) (scheduled w ++ woken), Some a) ∧ cell_repr s' c'.

(** What the calls on a known state do. *)
Section known.
Context (l : nat) (s : SharedPromiseState) (w : world) (Hs : store w !! l = Some s).

Lemma read_state_eq : read_state l w = (w, Ok s).
Proof. unfold read_state. by rewrite Hs. Qed.

Lemma claim_eq :
  _claim_state_set l w
  = (World (<[l := MkState true (future_suspended s) (exception s) (scheduler s) (handle s) (value s) (chain_state s)]>
       (store w)) (scheduled w),
     if state_set s then throw FailedPrecondition else Ok ()).
Proof.
  unfold _claim_state_set, mbind, ST_bind. rewrite read_state_eq. by destruct (state_set s).
Qed.

Lemma store_value_eq v :
  store_value v l w
  = (World (<[l := MkState (state_set s) (future_suspended s) (exception s) (scheduler s) (handle s) (Some v) (chain_state s)]>
       (store w)) (scheduled w), Ok ()).
Proof. unfold store_value, mbind, ST_bind. by rewrite read_state_eq. Qed.

Lemma store_exception_eq e :
  store_exception e l w
  = (World (<[l := MkState (state_set s) (future_suspended s) (Some e) (scheduler s) (handle s) (value s) (chain_state s)]>
       (store w)) (scheduled w), Ok ()).
Proof. unfold store_exception, mbind, ST_bind. by rewrite read_state_eq. Qed.

Lemma schedule_eq c :
  future_suspended s = bool_decide (waiters c ≠ []) →
  (∀ t h, waiters c = [(t, h)] → scheduler s = Some t ∧ handle s = Some h) →
  _schedule_task l w = (World (store w) (scheduled w ++ waiters c), Ok ()).
Proof.
  intros Hf Hw. unfold _schedule_task, mbind, ST_bind. rewrite read_state_eq, Hf.
  destruct c as [[[t h]|]|r]; cbn in *; [by destruct (Hw t h eq_refl) as [-> ->]|by rewrite app_nil_r; destruct w..].
Qed.
End known.

Lemma repr_state_set s c : cell_repr s c → state_set s = match c with Pending _ => false | Resolved _ => true end.
Proof. intros [_ H]. destruct c as [[[]|]|[]]; naive_solver. Qed.

Lemma repr_waiters s q :
  cell_repr s (Pending q) →
  future_suspended s = bool_decide (waiters (Pending q) ≠ []) ∧
  ∀ t h, waiters (Pending q) = [(t, h)] → scheduler s = Some t ∧ handle s = Some h.
Proof. intros [_ H]. destruct q as [[t h]|]; cbn; naive_solver. Qed.

(** Claiming, storing and scheduling, on a pending state. *)
Lemma resolve_spec l w s q (m : nat → ST world ()) s2 c' :
  store w !! l = Some s → cell_repr s (Pending q) →
  (∀ w1, store w1 !! l = Some (MkState true (future_suspended s) (exception s) (scheduler s) (handle s) (value s) (chain_state s)) →
     m l w1 = (World (<[l := s2]> (store w1)) (scheduled w1), Ok ())) →
  future_suspended s2 = future_suspended s → scheduler s2 = scheduler s → handle s2 = handle s →
  cell_repr s2 c' →
  ∃ s', (_claim_state_set l ≫= λ _, m l ≫= λ _, _schedule_task l) w
    = (World (<[l := s']> (store w)) (scheduled w ++ waiters (Pending q)), Ok ()) ∧ cell_repr s' c'.
Proof.
  intros Hs Hr Hm Hf Hsch Hh Hc. exists s2. split; [|done]. unfold mbind, ST_bind.
  rewrite (claim_eq _ _ _ Hs), (repr_state_set _ _ Hr). rewrite Hm by apply lookup_insert_eq.
  destruct (repr_waiters s q Hr) as [H1 H2].
  assert (∀ w1, store w1 !! l = Some s2 →
    _schedule_task l w1 = (World (store w1) (scheduled w1 ++ waiters (Pending q)), Ok ())) as Hw.
  { intros w1 Hw1. apply (schedule_eq l s2 w1 Hw1 (Pending q)); [by rewrite Hf|by rewrite Hsch, Hh]. }
  rewrite Hw by apply lookup_insert_eq.
  cbn [store scheduled]. by rewrite insert_insert_eq.
Qed.

(** Claiming a state that is set. *)
Lemma claimed_spec l w s r (k : () → ST world ()) :
  store w !! l = Some s → cell_repr s (Resolved r) →
  ∃ s', (_claim_state_set l ≫= k) w = (World (<[l := s']> (store w)) (scheduled w ++ []), throw FailedPrecondition) ∧
    cell_repr s' (Resolved r).
Proof.
  intros Hs Hr. unfold mbind, ST_bind. rewrite (claim_eq _ _ _ Hs), (repr_state_set _ _ Hr), app_nil_r.
  eexists. split; [done|]. destruct Hr as [? H]. split; [done|]. destruct r; naive_solver.
Qed.

Lemma step_spec l w s c o :
  store w !! l = Some s → cell_repr s c → leads_to w l o → step_ok l w c o.
Proof.
  intros Hs Hr Ho. pose proof (repr_state_set _ _ Hr) as Hset. pose proof Hr as [Hch Hc]. unfold step_ok. assert (chain (store w) l l 0) as Hl by by econstructor.
  destruct o as [p v|p e| |t h|].
  - destruct Ho as [n Hn]. unfold impl_step, call, set_value. unfold mbind at 1, ST_bind at 1. cbn [promise_state].
    rewrite (get_state_spec _ _ _ _ Hn). destruct c as [q|r]; cbn [spec_step].
    + destruct (resolve_spec l w s q (store_value v) (MkState true (future_suspended s) (exception s) (scheduler s)
        (handle s) (Some v) (chain_state s)) (Resolved (inl v)) Hs Hr) as (s' & -> & Hr'); try done.
      * intros w1 H1. by rewrite (store_value_eq _ _ _ H1).
      * split; [done|]. destruct q as [[]|]; naive_solver.
      * by exists s'.
    + destruct (claimed_spec l w s r (λ _, store_value v l ≫= λ _, _schedule_task l) Hs Hr) as (s' & -> & Hr').
      by exists s'.
  - destruct Ho as [n Hn]. unfold impl_step, call, set_exception. unfold mbind at 1, ST_bind at 1. cbn [promise_state].
    rewrite (get_state_spec _ _ _ _ Hn). destruct c as [q|r]; cbn [spec_step].
    + destruct (resolve_spec l w s q (store_exception e) (MkState true (future_suspended s) (Some e) (scheduler s)
        (handle s) (value s) (chain_state s)) (Resolved (inr e)) Hs Hr) as (s' & -> & Hr'); try done.
      * intros w1 H1. by rewrite (store_exception_eq _ _ _ H1).
      * by exists s'.
    + destruct (claimed_spec l w s r (λ _, store_exception e l ≫= λ _, _schedule_task l) Hs Hr) as (s' & -> & Hr').
      by exists s'.
  - unfold impl_step, call, await_ready, mbind, ST_bind. cbn [future_state]. rewrite (read_state_eq _ _ _ Hs). cbn.
    destruct c as [q|r]; cbn; exists s; rewrite app_nil_r, insert_id by done.
    + rewrite Hset. by destruct w.
    + rewrite Hset. by destruct w.
  - unfold impl_step, call, await_suspend, mbind, ST_bind. cbn [future_state]. rewrite (read_state_eq _ _ _ Hs). cbn.
    destruct c as [q|r]; cbn; eexists; rewrite app_nil_r.
    + rewrite Hset. split; [done|]. destruct q as [[]|]; unfold cell_repr; cbn; tauto.
    + rewrite Hset. split; [done|]. destruct r; unfold cell_repr; cbn; tauto.
  - unfold impl_step, call, await_resume, mbind, ST_bind. cbn [future_state].
    rewrite (get_state_spec _ _ _ _ Hl), (read_state_eq _ _ _ Hs).
    destruct c as [q|[v|e]]; cbn [spec_step].
    + rewrite Hset. cbn. exists s. rewrite app_nil_r, insert_id by done.
      by destruct w.
    + destruct Hc as (H1 & H2 & H3). rewrite H1, H2, H3. cbn. eexists. rewrite app_nil_r. split; [done|]. by split.
    + destruct Hc as (H1 & H2). rewrite H1, H2. cbn. exists s. rewrite app_nil_r, insert_id by done. by destruct w.
Qed.

(** * Sequences of calls *)

Fixpoint impl_run (l : nat) (os : list op) (w : world) : world * list (option answer) :=
  match os with
  | [] => (w, [])
  | o :: os => let '(w, a) := impl_step l o w in let '(w, r) := impl_run l os w in (w, a :: r)
  end.
Fixpoint spec_run (os : list op) (c : cell) : cell * list answer * list (nat * nat) :=
  match os with
  | [] => (c, [], [])
  | o :: os =>
      let '(c, a, woken) := spec_step o c in
      let '(c, r, more) := spec_run os c in (c, a :: r, woken ++ more)
  end.

Lemma run_spec l os : ∀ w s c,
  store w !! l = Some s → cell_repr s c → Forall (leads_to w l) os →
  let '(c', answers, woken) := spec_run os c in
  ∃ s', impl_run l os w = (World (<[l := s']> (store w)) (scheduled w ++ woken), map Some answers) ∧ cell_repr s' c'.
Proof.
  induction os as [|o os IH]; intros w s c Hs Hr Hos; cbn [impl_run spec_run].
  - exists s. rewrite insert_id, app_nil_r by done. by destruct w.
  - apply Forall_cons in Hos as [Ho Hos]. pose proof (step_spec l w s c o Hs Hr Ho) as Hst. unfold step_ok in Hst.
    destruct (spec_step o c) as [[c1 a] woken]. destruct Hst as (s1 & -> & Hr1).
    specialize (IH (World (<[l := s1]> (store w)) (scheduled w ++ woken)) s1 c1).
    destruct (spec_run os c1) as [[c2 answers] more]. destruct IH as (s2 & -> & Hr2); [apply lookup_insert_eq|done| |].
    + eapply Forall_impl; [exact Hos|]. destruct Hr as [Hch _], Hr1 as [Hch1 _].
      intros [p v|p e| | |]; cbn [leads_to store]; [intros [n Hn]; exists n..|done|done|done];
        apply (chain_update _ _ s); congruence || done.
    + exists s2. cbn [store scheduled]. by rewrite insert_insert_eq, app_assoc.
Qed.

(** The last coroutine suspended by calls none of which sets the state. *)
Definition is_set (o : op) : bool := match o with SetValue _ _ | SetException _ _ => true | _ => false end.
Definition suspended (o : op) : option (nat * nat) := match o with Suspend t h => Some (t, h) | _ => None end.
Definition last_suspended (os : list op) (q : option (nat * nat)) : option (nat * nat) :=
  fold_left (λ q o, match suspended o with Some w => Some w | None => q end) os q.

Lemma spec_run_resolved os r : (spec_run os (Resolved r)).2 = [].
Proof.
  revert r. induction os as [|o os IH]; intros r; [done|]. cbn [spec_run].
  assert (∃ r' a, spec_step o (Resolved r) = (Resolved r', a, [])) as (r' & a & ->)
    by (destruct o, r; cbn; eauto).
  specialize (IH r'). by destruct (spec_run os (Resolved r')) as [[? ?] ?].
Qed.

Lemma spec_run_waiter pre o post q :
  forallb (λ o, negb (is_set o)) pre = true → is_set o = true →
  (spec_run (pre ++ o :: post) (Pending q)).2 = option_list (last_suspended pre q).
Proof.
  intros Hpre Ho. revert q. induction pre as [|x pre IH]; intros q; cbn [app spec_run].
  - assert (∃ r a, spec_step o (Pending q) = (Resolved r, a, option_list q)) as (r & a & ->)
      by (destruct o; try done; destruct q; cbn; eauto).
    pose proof (spec_run_resolved post r). destruct (spec_run post (Resolved r)) as [[? ?] ?]. cbn in *. subst.
    by rewrite app_nil_r.
  - apply andb_true_iff in Hpre as [Hx Hpre]. specialize (IH Hpre).
    assert (∃ a, spec_step x (Pending q) = (Pending (match suspended x with Some w => Some w | None => q end), a, [])) as [a ->]
      by (destruct x; try done; cbn; eauto).
    specialize (IH (match suspended x with Some w => Some w | None => q end)).
    destruct (spec_run (pre ++ o :: post) _) as [[? ?] ?]. done.
Qed.

(** A state no one has used yet. *)
Lemma new_state_repr : cell_repr new_state (Pending None).
Proof. done. Qed.
End future.

(** * Setting and suspending on two threads *)

(** The flags both sides touch, with how often the waiting coroutine was
    scheduled. *)
Record race := Race {
  r_set : bool; r_suspended : bool; r_value : bool; r_registered : bool; r_woken : nat;
}.

(** Where a thread in [_do_set_value] is, and one that awaits the future: each
    constructor stands for the access to the shared state it is about to make. *)
Inductive setter_at := Claim | Store | Check | Finished.
Inductive waiter_at :=
  | CheckReady | Register | ReadSet | WriteSuspended (seen : bool) | Asleep | Resuming
  | Resumed (has_value : bool).
Record threads := Threads { shared : race; setter : setter_at; waiter : waiter_at }.

Definition race_start : threads := Threads (Race false false false false 0) Claim CheckReady.

(** The next access of the setter. *)
Definition setter_step (c : threads) : option threads :=
  let r := shared c in
  match setter c with
  | Claim => Some (Threads (Race true (r_suspended r) (r_value r) (r_registered r) (r_woken r)) Store (waiter c))
  | Store => Some (Threads (Race (r_set r) (r_suspended r) true (r_registered r) (r_woken r)) Check (waiter c))
  | Check => Some (Threads (Race (r_set r) (r_suspended r) (r_value r) (r_registered r)
                    (if r_suspended r then S (r_woken r) else r_woken r)) Finished (waiter c))
  | Finished => None
  end.

(** The next access of the waiter: [await_ready], [await_suspend] (the handle,
    the read of [state_set] and the write of [future_suspended]), then
    [await_resume]. *)
Definition waiter_step (c : threads) : option threads :=
  let r := shared c in
  match waiter c with
  | CheckReady => Some (Threads r (setter c) (if r_set r then Resuming else Register))
  | Register => Some (Threads (Race (r_set r) (r_suspended r) (r_value r) true (r_woken r)) (setter c) ReadSet)
  | ReadSet => Some (Threads r (setter c) (WriteSuspended (r_set r)))
  | WriteSuspended seen =>
      Some (Threads (Race (r_set r) (negb seen) (r_value r) (r_registered r) (r_woken r)) (setter c)
              (if seen then Resuming else Asleep))
  | Asleep =>
      match r_woken r with
      | 0 => None
      | S n => Some (Threads (Race (r_set r) (r_suspended r) (r_value r) (r_registered r) n) (setter c) Resuming)
      end
  | Resuming => Some (Threads r (setter c) (Resumed (r_value r)))
  | Resumed _ => None
  end.

(** Any interleaving of single accesses. *)
Inductive interleaved : threads → Prop :=
  | interleaved_start : interleaved race_start
  | interleaved_setter c c' : interleaved c → setter_step c = Some c' → interleaved c'
  | interleaved_waiter c c' : interleaved c → waiter_step c = Some c' → interleaved c'.

(** A run by a schedule: [true] is an access of the setter. *)
Fixpoint run_schedule (l : list bool) (c : threads) : option threads :=
  match l with
  | [] => Some c
  | b :: l => c ← (if (b : bool) then setter_step c else waiter_step c); run_schedule l c
  end.

Lemma run_schedule_interleaved l : ∀ c c', interleaved c → run_schedule l c = Some c' → interleaved c'.
Proof.
  induction l as [|b l IH]; intros c c' Hc H; cbn in H; [by simplify_eq|].
  destruct (if b then setter_step c else waiter_step c) as [c1|] eqn:E; [|done]. apply (IH c1); [|done].
  destruct b; [by eapply interleaved_setter|by eapply interleaved_waiter].
Qed.

(** Both sides on one thread: the whole call of the setter happens between two
    suspension points of the waiter. *)
Definition set_at_once (c : threads) : option threads :=
  match setter c with Claim => c ← setter_step c; c ← setter_step c; setter_step c | _ => None end.
Definition await_at_once (c : threads) : option threads :=
  match waiter c with
  | CheckReady =>
      c ← waiter_step c;
      match waiter c with
      | Register => c ← waiter_step c; c ← waiter_step c; waiter_step c
      | _ => Some c
      end
  | _ => waiter_step c
  end.
Inductive one_thread : threads → Prop :=
  | one_thread_start : one_thread race_start
  | one_thread_setter c c' : one_thread c → set_at_once c = Some c' → one_thread c'
  | one_thread_waiter c c' : one_thread c → await_at_once c = Some c' → one_thread c'.

(** The states one thread can be in. *)
Definition sound_states : list threads :=
  let unset n w := Threads (Race false n false n 0) Claim w in
  [unset false CheckReady; unset true Asleep;
   Threads (Race true false true false 0) Finished CheckReady;
   Threads (Race true false true false 0) Finished Resuming;
   Threads (Race true false true false 0) Finished (Resumed true);
   Threads (Race true true true true 1) Finished Asleep;
   Threads (Race true true true true 0) Finished Resuming;
   Threads (Race true true true true 0) Finished (Resumed true)].

Lemma one_thread_sound c : one_thread c → c ∈ sound_states.
Proof.
  assert (∀ c c', c ∈ sound_states → set_at_once c = Some c' ∨ await_at_once c = Some c' → c' ∈ sound_states) as Hstep.
  { intros x y Hx. unfold sound_states in *.
    repeat (apply elem_of_cons in Hx as [->|Hx]; [cbn; intros [?|?]; simplify_eq; set_solver|]).
    by apply elem_of_nil in Hx. }
  induction 1; [by left|eauto..].
Qed.

(** * Properties *)

(** C13.  A promise and its future are a cell that is set once: calls made one
    after the other, through any promises chained to the future's state and on
    the future itself, answer as the cell does (a second set throws
    [FailedPrecondition], so does resuming too early; the value or the exception
    that was set is what resuming gives), and exactly the coroutine waiting when
    the state is set is handed to its scheduler. *)
Theorem promise_refines_cell {T} (moved_from : T → T) (w : world) (l : nat)
    (s : SharedPromiseState) (c : cell) (os : list op) :
  store w !! l = Some s → cell_repr s c → Forall (leads_to w l) os →
  let '(c', answers, woken) := spec_run moved_from os c in
  ∃ s', impl_run moved_from l os w
        = (World (<[l := s']> (store w)) (scheduled w ++ woken), map Some answers) ∧ cell_repr s' c'.
Proof. apply run_spec. Qed.

(** On a fresh promise and its future, whatever else is called before and
    after the first set, the coroutine that suspended last before it is
    scheduled, once, and no other. *)
Theorem waiter_resumed_once {T} (moved_from : T → T) (w : world) (l : nat)
    (pre post : list op) (o : op) :
  store w !! l = Some new_state → Forall (leads_to w l) (pre ++ o :: post) →
  forallb (λ o, negb (is_set o)) pre = true → is_set o = true →
  scheduled (impl_run moved_from l (pre ++ o :: post) w).1 = scheduled w ++ option_list (last_suspended pre None).
Proof.
  intros Hl Hos Hpre Ho. pose proof (run_spec moved_from l _ w new_state (Pending None) Hl new_state_repr Hos) as H.
  pose proof (spec_run_waiter moved_from pre o post None Hpre Ho) as Hw.
  destruct (spec_run moved_from (pre ++ o :: post) (Pending None)) as [[c' answers] woken]. cbn [snd] in Hw. subst woken.
  by destruct H as (s' & -> & _).
Qed.

(** A coroutine that returns a future passes its own promise on: when the
    returned future is already set, the promise is set the same way; otherwise
    setting the returned future's promise sets the state the outer promise leads
    to, and schedules the coroutine waiting there. *)
Theorem returned_future_forwards {T} (moved_from : T → T) (w : world) (p f : nat) (s sp : SharedPromiseState)
    (q : option (nat * nat)) (v : T) :
  p ≠ f → store w !! f = Some s → cell_repr s (Pending None) →
  store w !! p = Some sp → cell_repr sp (Pending q) →
  let '(w', r) := return_future moved_from (MkPromise true p) (MkFuture f) w in
  r = Ok () ∧ scheduled w' = scheduled w ∧
  ∃ sp', set_value (MkPromise true f) v w'
         = (World (<[p := sp']> (store w')) (scheduled w ++ waiters (Pending (T := T) q)), Ok ()) ∧
    cell_repr sp' (Resolved (inl v)).
Proof.
  intros Hne Hf Hrf Hp Hrp. unfold return_future, mbind, ST_bind. cbn [future_state promise_state].
  rewrite (read_state_eq f s w Hf), (repr_state_set _ _ Hrf).
  unfold write_state, st_modify. split; [done|]. split; [done|].
  set (s' := MkState false _ _ _ _ _ (Some p)).
  assert (chain (<[f := s']> (store w)) f p 1) as Hc.
  { apply (chain_next _ _ s' p); [by rewrite lookup_insert_eq|done|].
    apply (chain_end _ _ sp); [by rewrite lookup_insert_ne|by destruct Hrp]. }
  pose proof (step_spec moved_from p (World (<[f := s']> (store w)) (scheduled w)) sp (Pending q) (SetValue f v)) as H.
  unfold step_ok in H. cbn [spec_step] in H. destruct H as (sp' & Hi & Hr).
  - cbn [store]. by rewrite lookup_insert_ne.
  - done.
  - by exists 1.
  - exists sp'. split; [|done]. unfold impl_step, call in Hi.
    destruct (set_value (MkPromise true f) v _) as [w2 [[]|e|]]; cbn in Hi; by simplify_eq.
Qed.

(** When the promise is set on the thread that awaits its future, no wake-up
    is lost: a run that has come to its end has the waiter resumed with the value
    there, and the coroutine is scheduled at most once. *)
Theorem same_thread_resumes (c : threads) :
  one_thread c →
  r_woken (shared c) ≤ 1 ∧ (waiter c = Resumed false → False) ∧
  (set_at_once c = None → await_at_once c = None → setter c = Finished ∧ waiter c = Resumed true).
Proof.
  intros H%one_thread_sound. unfold sound_states in H.
  repeat (apply elem_of_cons in H as [->|H]; [cbn; split_and!; (lia || done)|]).
  by apply elem_of_nil in H.
Qed.

(** Across threads the wake-up can be lost and the value can be missed: the
    waiter may read [state_set] before and write [future_suspended] after the
    setter has gone through, and then sleeps for ever; or it may find the state
    set, and resume, before the value is stored. *)
Theorem other_thread_races :
  (∃ c, interleaved c ∧ setter c = Finished ∧ waiter c = Asleep ∧ setter_step c = None ∧ waiter_step c = None) ∧
  (∃ c, interleaved c ∧ waiter c = Resumed false).
Proof.
  split.
  - exists (Threads (Race true true true true 0) Finished Asleep). split; [|done].
    by apply (run_schedule_interleaved [false; false; false; true; true; true; false] race_start); [constructor|].
  - exists (Threads (Race true false false false 0) Store (Resumed false)). split; [|done].
    by apply (run_schedule_interleaved [true; false; false] race_start); [constructor|].
Qed.

(** * Examples *)

Definition two_promises : world (T := nat) := World {[0 := new_state; 1 := new_state]} [].

Lemma promise_refines_cell_witness :
  ∃ s', impl_run id 0 [Ready; Suspend 7 3; SetValue 0 42; SetValue 0 43; Resume] two_promises
    = (World (<[0 := s']> (store two_promises)) [(7, 3)],
       map Some [Bool false; Bool true; Done; Raised (LwError FailedPrecondition); Value 42]) ∧
    cell_repr s' (Resolved (inl 42)).
Proof.
  apply (promise_refines_cell id two_promises 0 new_state (Pending None)
    [Ready; Suspend 7 3; SetValue 0 42; SetValue 0 43; Resume]); [done|done|].
  repeat constructor; exists 0; by eapply chain_end.
Defined.

Lemma waiter_resumed_once_witness :
  scheduled (impl_run id 0 ([Suspend 7 3; Ready; Suspend 7 4] ++ SetValue 0 1 :: [Suspend 7 5]) two_promises).1 = [(7, 4)].
Proof.
  apply (waiter_resumed_once id two_promises 0 [Suspend 7 3; Ready; Suspend 7 4] [Suspend 7 5] (SetValue 0 1)); [done| |done..].
  repeat constructor; exists 0; by eapply chain_end.
Defined.

Lemma returned_future_forwards_witness :
  let '(w', r) := return_future id (MkPromise true 0) (MkFuture 1) two_promises in
  r = Ok () ∧ scheduled w' = [] ∧
  ∃ sp', set_value (MkPromise true 1) 5 w' = (World (<[0 := sp']> (store w')) [], Ok ()) ∧
    cell_repr sp' (Resolved (inl 5)).
Proof.
  apply (returned_future_forwards id two_promises 0 1 new_state new_state None 5); done.
Defined.

Lemma same_thread_resumes_witness :
  r_woken (shared (Threads (Race true true true true 0) Finished (Resumed true))) ≤ 1.
Proof.
  apply (same_thread_resumes (Threads (Race true true true true 0) Finished (Resumed true))).
  eapply one_thread_waiter; [eapply one_thread_waiter; [eapply one_thread_setter; [eapply one_thread_waiter;
    [constructor|reflexivity]|reflexivity]|reflexivity]|reflexivity].
Defined.
