(* ===== verification/FutureAll.v ===== *)
(** lw/co/future: awaiting several futures with [all], promises without a value,
    and what a coroutine does with its promise. *)
From stdpp Require Import gmap.
From S2P Require Import Prelude Future.

(** * Coroutines *)

Section coroutine.
Context {T : Type}.

(** [get_return_object], [return_value] and [unhandled_exception]: how the end
    of a coroutine's body sets its promise. *)
Definition return_value (p : Promise) (v : T) : ST (world (T := T)) () := set_value p v.
Definition promise_unhandled_exception (p : Promise) (e : exn) : ST (world (T := T)) () := set_exception p e.
Definition coroutine_ends (p : Promise) (r : T + exn) : ST (world (T := T)) () :=
  match r with inl v => return_value p v | inr e => promise_unhandled_exception p e end.
End coroutine.

(** * Awaiting all *)

Section all.
Context {T : Type} (moved_from : T → T).

(** Where the coroutine of [all] is: awaiting the first of the futures that are
    left, with the values so far, or at its end. *)
Inductive all_status := AllWaiting (futures : list nat) (values : list T) | AllDone (r : list T + exn).

(** The thread and the handle of the coroutine. *)
Context (thread coroutine : nat).

(** [await_resume] and what follows it. *)
Definition resume_with (f : nat) (k : T → ST (world (T := T)) all_status) : ST (world (T := T)) all_status := λ w,
  match await_resume moved_from (MkFuture f) w with
  | (w, Ok v) => k v w
  | (w, Throw e) => (w, Ok (AllDone (inr e)))
  | (w, Undef) => (w, Undef)
  end.
(** [(co_await futures)...] from some future on. *)
Fixpoint all_from (futures : list nat) (values : list T) : ST world all_status :=
  match futures with
  | [] => mret (AllDone (inl values))
  | f :: rest =>
      ready ← await_ready (MkFuture f);
      suspended ← (if ready : bool then mret false else await_suspend thread coroutine (MkFuture f));
      if suspended : bool then mret (AllWaiting (f :: rest) values)
      else resume_with f (λ v, all_from rest (values ++ [v]))
  end.
Definition all (futures : list nat) : ST world all_status := all_from futures [].
(** The coroutine is resumed. *)
Definition resume_all (st : all_status) : ST world all_status :=
  match st with
  | AllWaiting (f :: rest) values => resume_with f (λ v, all_from rest (values ++ [v]))
  | _ => st_res Undef
  end.

(** The promises are set, in any order and perhaps again, and the scheduler
    takes its turns, resuming what was handed to it. *)
Inductive all_event := SetAt (l : nat) (r : T + exn) | Turn.
Definition turn (st : all_status) : ST world all_status := λ w,
  foldl (λ p c, match p with
    | (w, Ok st) => if decide (c = (thread, coroutine)) then resume_all st w else (w, Ok st)
    | p => p
    end) (World (store w) [], Ok st) (scheduled w).
Definition all_step (e : all_event) (st : all_status) : ST world all_status := λ w,
  match e with
  | SetAt l r => ((coroutine_ends (MkPromise true l) r w).1, Ok st)
  | Turn => turn st w
  end.
Fixpoint run_all (es : list all_event) (st : all_status) : ST world all_status :=
  match es with [] => mret st | e :: es => st ← all_step e st; run_all es st end.

(** ** What is known of each future *)

(** The results of futures, the first that was set counts. *)
Definition set_result (ls : list nat) (e : all_event) (rs : list (option (T + exn))) : list (option (T + exn)) :=
  match e with
  | Turn => rs
  | SetAt l r => zip_with (λ l' r', match r' with Some _ => r' | None => if decide (l = l') then Some r else None end) ls rs
  end.
Definition results (ls : list nat) (es : list all_event) (rs : list (option (T + exn))) : list (option (T + exn)) :=
  foldl (λ rs e, set_result ls e rs) rs es.
(** The values if all are there, or the first exception in the order of the
    arguments, once everything before it is there. *)
Fixpoint collect (rs : list (option (T + exn))) : option (list T + exn) :=
  match rs with
  | [] => Some (inl [])
  | None :: _ => None
  | Some (inr e) :: _ => Some (inr e)
  | Some (inl v) :: rs => match collect rs with Some (inl vs) => Some (inl (v :: vs)) | o => o end
  end.

Definition cell_at (w : world (T := T)) (l : nat) (c : cell (T := T)) : Prop := ∃ s, store w !! l = Some s ∧ cell_repr s c.
Definition cell_of (r : option (T + exn)) : cell (T := T) := match r with None => Pending None | Some r => Resolved r end.

(** A call on the state [l]. *)
Definition at_state (l : nat) (w w' : world (T := T)) (c' : cell (T := T)) (woken : list (nat * nat)) : Prop :=
  cell_at w' l c' ∧ (∀ l' c2, l' ≠ l → cell_at w l' c2 → cell_at w' l' c2) ∧ scheduled w' = scheduled w ++ woken.

Lemma op_at l w c o : cell_at w l c → (match o with SetValue p _ | SetException p _ => p = l | _ => True end) →
  let '(c', a, woken) := spec_step moved_from o c in
  ∃ w', impl_step moved_from l o w = (w', Some a) ∧ at_state l w w' c' woken.
Proof.
  intros (s & Hs & Hr) Ho. assert (leads_to w l o) as Hl.
  { destruct o; try done; cbn in *; subst; exists 0; destruct Hr as [? _]; by eapply chain_end. }
  pose proof (step_spec moved_from l w s c o Hs Hr Hl) as H. unfold step_ok in H. destruct (spec_step moved_from o c) as [[c' a] woken].
  destruct H as (s' & Hi & Hr'). eexists. split; [exact Hi|]. split; [exists s'; cbn; by rewrite lookup_insert_eq|]. split; [|done].
  intros l' c2 Hne (s2 & Hs2 & ?). exists s2. cbn. by rewrite lookup_insert_ne.
Qed.
Lemma call_inv {A} (f : A → answer (T := T)) m w w' a : call f m w = (w', Some a) →
  ∃ r, m w = (w', r) ∧ match r with Ok x => a = f x | Throw e => a = Raised e | Undef => False end.
Proof. unfold call. destruct (m w) as [w1 [x|e|]]; cbn; intros [= <- <-]; by eexists. Qed.

Lemma ready_at l w c : cell_at w l c →
  ∃ w', await_ready (MkFuture l) w = (w', Ok (match c with Resolved _ => true | Pending _ => false end)) ∧ at_state l w w' c [].
Proof.
  intros Hc. pose proof (op_at l w c Ready Hc I) as H. destruct c as [q|r]; cbn [spec_step] in H; destruct H as (w' & Hi & Ha);
    destruct (call_inv _ _ _ _ _ Hi) as ([b|e|] & E & Hb); simplify_eq; by exists w'.
Qed.
Lemma suspend_at l w : cell_at w l (Pending None) →
  ∃ w', await_suspend thread coroutine (MkFuture l) w = (w', Ok true) ∧ at_state l w w' (Pending (Some (thread, coroutine))) [].
Proof.
  intros Hc. pose proof (op_at l w _ (Suspend thread coroutine) Hc I) as (w' & Hi & Ha).
  destruct (call_inv _ _ _ _ _ Hi) as ([b|e|] & E & Hb); simplify_eq; by exists w'.
Qed.
Lemma resume_at l w r k : cell_at w l (Resolved r) →
  ∃ w' r', at_state l w w' (Resolved r') [] ∧
    resume_with l k w = match r with inl v => k v w' | inr e => (w', Ok (AllDone (inr e))) end.
Proof.
  intros Hc. pose proof (op_at l w _ Resume Hc I) as H. unfold resume_with. destruct r as [v|e]; cbn [spec_step] in H; destruct H as (w' & Hi & Ha);
    destruct (call_inv _ _ _ _ _ Hi) as ([x|e'|] & E & Hx); try done; simplify_eq; rewrite E; exists w'; by eexists.
Qed.
Lemma set_at l w c r : cell_at w l c →
  at_state l w (coroutine_ends (MkPromise true l) r w).1 (match c with Pending _ => Resolved r | Resolved _ => c end) (waiters c).
Proof.
  intros Hc. destruct r as [v|e]; cbn [coroutine_ends]; unfold return_value, promise_unhandled_exception.
  - pose proof (op_at l w c (SetValue l v) Hc eq_refl) as H. destruct c as [q|r]; cbn [spec_step] in H; destruct H as (w' & Hi & Ha);
      destruct (call_inv _ _ _ _ _ Hi) as ([x|e'|] & E & Hx); simplify_eq; by rewrite E.
  - pose proof (op_at l w c (SetException l e) Hc eq_refl) as H. destruct c as [q|r]; cbn [spec_step] in H; destruct H as (w' & Hi & Ha);
      destruct (call_inv _ _ _ _ _ Hi) as ([x|e'|] & E & Hx); simplify_eq; by rewrite E.
Qed.
(** ** The invariant *)

(** What the coroutine has got, and what it waits for. *)
Definition all_inv (ls : list nat) (w : world) (st : all_status) (rs : list (option (T + exn))) : Prop :=
  match st with
  | AllWaiting futures values =>
      ∃ f rest r rs', futures = f :: rest ∧ drop (length values) ls = f :: rest ∧ rs = (Some ∘ inl <$> values) ++ r :: rs' ∧
        Forall (λ l, ∃ v, cell_at w l (Resolved v)) (take (length values) ls) ∧
        Forall2 (λ l r, cell_at w l (cell_of r)) rest rs' ∧
        match r with
        | None => scheduled w = [] ∧ cell_at w f (Pending (Some (thread, coroutine)))
        | Some x => scheduled w = [(thread, coroutine)] ∧ cell_at w f (Resolved x)
        end
  | AllDone r => collect rs = Some r ∧ scheduled w = [] ∧
      Forall2 (λ l r, match r with None => cell_at w l (Pending None) | Some _ => ∃ x, cell_at w l (Resolved x) end) ls rs
  end.

Lemma collect_values vs rs : collect ((Some ∘ inl <$> vs) ++ rs) =
  match collect rs with Some (inl vs') => Some (inl (vs ++ vs')) | o => o end.
Proof. induction vs as [|v vs IH]; cbn; [by destruct (collect rs) as [[]|]|]. rewrite IH. by destruct (collect rs) as [[]|]. Qed.

Lemma known_cells w ls rs : Forall2 (λ l r, cell_at w l (cell_of r)) ls rs →
  Forall2 (λ l (r : option (T + exn)), match r with None => cell_at w l (Pending None) | Some _ => ∃ x, cell_at w l (Resolved x) end) ls rs.
Proof. intros H. eapply Forall2_impl; [exact H|]. intros l [r|] Hc; [by exists r|done]. Qed.
Lemma got_cells w ls (vs : list T) : length vs = length ls → Forall (λ l, ∃ v, cell_at w l (Resolved v)) ls →
  Forall2 (λ l (r : option (T + exn)), match r with None => cell_at w l (Pending None) | Some _ => ∃ x, cell_at w l (Resolved x) end) ls (Some ∘ inl <$> vs).
Proof.
  intros Hl H. revert vs Hl. induction H as [|l ls Hc _ IH]; intros [|v vs] Hl; try done; constructor; [done|]. apply IH. by injection Hl.
Qed.

(** The cells of others stay. *)
Lemma others_stay l w w' c woken (ls : list nat) :
  at_state l w w' c woken → l ∉ ls →
  (Forall (λ l', ∃ v, cell_at w l' (Resolved v)) ls → Forall (λ l', ∃ v, cell_at w' l' (Resolved v)) ls) ∧
  (∀ rs, Forall2 (λ l' r, cell_at w l' (cell_of r)) ls rs → Forall2 (λ l' r, cell_at w' l' (cell_of r)) ls rs).
Proof.
  intros (_ & Ho & _) Hl. split.
  - intros H. rewrite Forall_forall in *. intros x Hx. destruct (H x Hx) as [v Hv]. exists v. apply Ho; [by intros ->|done].
  - intros rs H. induction H as [|x r ls rs Hx _ IH]; constructor.
    + apply Ho; [|done]. intros ->. apply Hl. by left.
    + apply IH. intros Hin. apply Hl. by right.
Qed.

(** The coroutine goes on with the futures that are left. *)
Definition goes_on (todo : list nat) : Prop := ∀ finished vs rs w,
  length vs = length finished → NoDup (finished ++ todo) → scheduled w = [] → Forall (λ l, ∃ v, cell_at w l (Resolved v)) finished →
  Forall2 (λ l r, cell_at w l (cell_of r)) todo rs →
  ∃ w' st, all_from todo vs w = (w', Ok st) ∧ all_inv (finished ++ todo) w' st ((Some ∘ inl <$> vs) ++ rs) ∧ scheduled w' = [].

Lemma resumed_inv finished f todo vs r rs w : goes_on todo →
  length vs = length finished → NoDup (finished ++ f :: todo) → scheduled w = [] → Forall (λ l, ∃ v, cell_at w l (Resolved v)) finished →
  cell_at w f (Resolved r) → Forall2 (λ l r, cell_at w l (cell_of r)) todo rs →
  ∃ w' st, resume_with f (λ v, all_from todo (vs ++ [v])) w = (w', Ok st) ∧ 
    all_inv (finished ++ f :: todo) w' st ((Some ∘ inl <$> vs) ++ Some r :: rs) ∧ scheduled w' = [].
Proof.
  intros Hgo Hl Hn Hs Hd Hf Ht. pose proof Hn as (_ & Hnd & [Hft _]%NoDup_cons)%NoDup_app.
  assert (f ∉ finished) as Hfd by (intros Hin; apply (Hnd f Hin); by left).
  destruct (resume_at f w r (λ v, all_from todo (vs ++ [v])) Hf) as (w2 & r' & H2 & ->).
  destruct (others_stay f w w2 _ _ finished H2 Hfd) as [Hd2 _]. destruct (others_stay f w w2 _ _ todo H2 Hft) as [_ Ht2].
  specialize (Hd2 Hd). specialize (Ht2 _ Ht). destruct H2 as (Hf2 & _ & Hs2). rewrite Hs, app_nil_r in Hs2. destruct r as [v|e].
  - destruct (Hgo (finished ++ [f]) (vs ++ [v]) rs w2) as (w' & st & E & Hi & Hq); [by rewrite !length_app, Hl|by rewrite <- app_assoc|done| |done|].
    { apply Forall_app. split; [done|]. apply Forall_singleton. by exists r'. }
    exists w', st. split_and!; [done| |done]. rewrite <- app_assoc in Hi. cbn in Hi. by rewrite fmap_app, <- app_assoc in Hi.
  - exists w2, (AllDone (inr e)). split_and!; [done| |done]. split_and!; [by rewrite collect_values|done|]. apply Forall2_app; [by apply got_cells|].
    constructor; [by exists r'|]. by apply known_cells.
Qed.

Lemma all_from_inv todo : goes_on todo.
Proof.
  induction todo as [|f todo IH]; intros finished vs rs w Hl Hn Hs Hd Ht; inversion Ht as [|f' r todo' rs' Hf Ht']; subst.
  - exists w, (AllDone (inl vs)). split_and!; [done| |done]. split_and!; [rewrite collect_values; cbn; by rewrite app_nil_r|done|].
    rewrite !app_nil_r. by apply got_cells.
  - cbn [all_from]. unfold mbind at 1, ST_bind at 1. destruct (ready_at f w _ Hf) as (w1 & -> & H1).
    pose proof Hn as (_ & Hnd & [Hft _]%NoDup_cons)%NoDup_app. assert (f ∉ finished) as Hfd by (intros Hin; apply (Hnd f Hin); by left).
    destruct (others_stay f w w1 _ _ finished H1 Hfd) as [Hd1 _]. destruct (others_stay f w w1 _ _ todo H1 Hft) as [_ Ht1].
    destruct H1 as (Hf1 & _ & Hs1). rewrite Hs, app_nil_r in Hs1. specialize (Hd1 Hd). specialize (Ht1 _ Ht'). destruct r as [r|]; cbn [cell_of] in *.
    + unfold mbind, ST_bind, mret, ST_ret. by apply resumed_inv.
    + unfold mbind, ST_bind. destruct (suspend_at f w1 Hf1) as (w2 & -> & H2). eexists _, _. split; [done|].
      assert (scheduled w2 = []) as Hs2 by (destruct H2 as (_ & _ & ->); by rewrite Hs1). split; [|done].
      destruct (others_stay f w1 w2 _ _ finished H2 Hfd) as [Hd2 _]. destruct (others_stay f w1 w2 _ _ todo H2 Hft) as [_ Ht2].
      destruct H2 as (Hf2 & _ & _). exists f, todo, None, rs'. rewrite Hl, drop_app_length, take_app_length.
      split_and!; try done; auto.
Qed.

(** A promise is set. *)
Lemma set_result_app l r ls1 ls2 rs1 rs2 : length rs1 = length ls1 →
  set_result (ls1 ++ ls2) (SetAt l r) (rs1 ++ rs2) = set_result ls1 (SetAt l r) rs1 ++ set_result ls2 (SetAt l r) rs2.
Proof. intros H. cbn. by rewrite zip_with_app. Qed.
Lemma set_result_values l r ls (vs : list T) : length vs = length ls → set_result ls (SetAt l r) (Some ∘ inl <$> vs) = Some ∘ inl <$> vs.
Proof. revert ls. induction vs as [|v vs IH]; intros [|l' ls] H; try done. cbn in *. f_equal. apply IH. by injection H. Qed.
Lemma set_result_other l r ls rs : length rs = length ls → l ∉ ls → set_result ls (SetAt l r) rs = rs.
Proof.
  revert rs. induction ls as [|l' ls IH]; intros [|x rs] H Hl; try done. apply not_elem_of_cons in Hl as [Hne Hl]. cbn in *.
  f_equal; [rewrite decide_False by done; by destruct x|]. apply IH; [by injection H|done].
Qed.

Lemma set_known l r ls rs w : NoDup ls → Forall2 (λ l r, cell_at w l (cell_of r)) ls rs →
  let w' := (coroutine_ends (MkPromise true l) r w).1 in
  l ∈ ls → Forall2 (λ l r, cell_at w' l (cell_of r)) ls (set_result ls (SetAt l r) rs) ∧ scheduled w' = scheduled w.
Proof.
  intros Hn H. cbn zeta. induction H as [|l' x ls rs Hx Hrest IH]; intros Hl; [by apply elem_of_nil in Hl|].
  apply NoDup_cons in Hn as [Hl' Hn]. destruct (decide (l = l')) as [<-|Hne].
  - pose proof (set_at l w _ r Hx) as Ha. destruct (others_stay l w _ _ _ ls Ha Hl') as [_ Hr]. destruct Ha as (Hc & _ & Hs). split.
    + change (set_result (l :: ls) (SetAt l r) (x :: rs)) with
        ((match x with Some _ => x | None => if decide (l = l) then Some r else None end) :: set_result ls (SetAt l r) rs).
      rewrite decide_True, set_result_other by (done || (symmetry; by eapply Forall2_length)). constructor; [|by apply Hr]. by destruct x.
    + rewrite Hs. destruct x; by rewrite app_nil_r.
  - apply elem_of_cons in Hl as [?|Hl]; [done|]. destruct (IH Hn Hl) as [IH1 IH2]. split; [|done].
    change (set_result (l' :: ls) (SetAt l r) (x :: rs)) with
        ((match x with Some _ => x | None => if decide (l = l') then Some r else None end) :: set_result ls (SetAt l r) rs).
    rewrite decide_False by done. constructor; [|done]. replace (match x with Some _ => x | None => None end) with x by by destruct x.
    apply list_elem_of_lookup_1 in Hl as [i Hi]. assert (is_Some (rs !! i)) as [y Hy] by (eapply Forall2_lookup_l in Hrest as (y & ? & ?); eauto).
    assert (cell_at w l (cell_of y)) as Hy' by (by eapply (Forall2_lookup_lr _ _ _ _ _ _ Hrest Hi Hy)).
    destruct (set_at l w _ r Hy') as (_ & Ho & _). by apply Ho.
Qed.
Lemma resolved_stays l r w l2 c : cell_at w l c → (∃ v, cell_at w l2 (Resolved v)) →
  ∃ v, cell_at (coroutine_ends (MkPromise true l) r w).1 l2 (Resolved v).
Proof.
  intros Hc [v Hv]. exists v. destruct (decide (l2 = l)) as [->|Hne]; [by destruct (set_at l w (Resolved v) r Hv) as (? & _ & _)|].
  destruct (set_at l w c r Hc) as (_ & Ho & _). by apply Ho.
Qed.
Lemma all_resolved_stay l r w ls c : cell_at w l c → Forall (λ l, ∃ v, cell_at w l (Resolved v)) ls →
  Forall (λ l', ∃ v, cell_at (coroutine_ends (MkPromise true l) r w).1 l' (Resolved v)) ls.
Proof. intros Hc H. eapply Forall_impl; [exact H|]. intros x Hx. by eapply resolved_stays. Qed.
Lemma set_resolved_quiet l r w v : cell_at w l (Resolved v) → scheduled (coroutine_ends (MkPromise true l) r w).1 = scheduled w.
Proof. intros Hc. destruct (set_at l w _ r Hc) as (_ & _ & ->). by rewrite app_nil_r. Qed.

Lemma set_result_cons l r l' ls x rs : set_result (l' :: ls) (SetAt l r) (x :: rs) =
  (match x with Some _ => x | None => if decide (l = l') then Some r else None end) :: set_result ls (SetAt l r) rs.
Proof. done. Qed.
Lemma collect_set l r ls rs x : length rs = length ls → collect rs = Some x → collect (set_result ls (SetAt l r) rs) = Some x.
Proof.
  revert ls x. induction rs as [|y rs IH]; intros [|l' ls] x Hl Hc; try done. rewrite set_result_cons. cbn in Hc. destruct y as [[v|e]|]; [|done|done].
  cbn [collect]. destruct (collect rs) as [z|] eqn:E; [|done]. rewrite (IH ls z); [done|by injection Hl|done].
Qed.

Lemma done_set l r ls rs w :
  NoDup ls → l ∈ ls →
  Forall2 (λ l r, match r with None => cell_at w l (Pending None) | Some _ => ∃ x, cell_at w l (Resolved x) end) ls rs →
  let w' := (coroutine_ends (MkPromise true l) r w).1 in
  Forall2 (λ l r, match r with None => cell_at w' l (Pending None) | Some _ => ∃ x, cell_at w' l (Resolved x) end) ls (set_result ls (SetAt l r) rs) ∧
  scheduled w' = scheduled w.
Proof.
  intros Hn Hl H. cbn zeta. assert (∃ c, cell_at w l c ∧ waiters c = []) as (c & Hc & Hw).
  { apply list_elem_of_lookup_1 in Hl as [i Hi]. destruct (Forall2_lookup_l _ _ _ _ _ H Hi) as ([y|] & _ & Hy); [destruct Hy as [y' Hy]|]; by eexists. }
  destruct (set_at l w c r Hc) as (Hnew & Ho & ->). rewrite Hw, app_nil_r. split; [|done]. clear Hn Hl.
  induction H as [|l' x ls rs Hx _ IH]; [done|]. rewrite set_result_cons. constructor; [|done]. destruct x as [x|]; [by eapply resolved_stays|].
  case_decide as Hd; [|by apply Ho]. subst l'. exists r. by destruct (set_at l w (Pending None) r Hx) as (? & _ & _).
Qed.

Lemma set_inv ls w st rs l r :
  NoDup ls → length rs = length ls → l ∈ ls → all_inv ls w st rs →
  all_inv ls (coroutine_ends (MkPromise true l) r w).1 st (set_result ls (SetAt l r) rs).
Proof.
  intros Hn Hlen Hl H. destruct st as [futures vs|x].
  2:{ destruct H as (Hc & Hs & Hf). destruct (done_set l r ls rs w Hn Hl Hf) as [Hf' Hs']. split_and!; [by apply collect_set|by rewrite Hs'|done]. }
  destruct H as (f & rest & y & rs' & -> & Hdrop & -> & Hd & Ht & Hcase).
  rewrite <- (take_drop (length vs) ls), Hdrop in Hl, Hn |- *. set (finished := take (length vs) ls) in *.
  assert (length vs = length finished) as Hfin.
  { unfold finished. rewrite length_take. apply (f_equal length) in Hdrop. rewrite length_drop in Hdrop. cbn in Hdrop. lia. }
  pose proof Hn as (_ & Hnd & [Hft Hnr]%NoDup_cons)%NoDup_app. rewrite set_result_app, set_result_values by (done || by rewrite length_fmap).
  rewrite set_result_cons. exists f, rest, (match y with Some _ => y | None => if decide (l = f) then Some r else None end), (set_result rest (SetAt l r) rs').
  rewrite Hfin, drop_app_length, take_app_length. split; [done|]. split; [done|]. split; [done|].
  set (w' := (coroutine_ends (MkPromise true l) r w).1). apply elem_of_app in Hl as [Hl|[->|Hl]%elem_of_cons].
  - destruct (proj1 (Forall_forall _ _) Hd l Hl) as [v Hv]. pose proof (set_at l w _ r Hv) as Ha.
    assert (l ≠ f ∧ l ∉ rest) as [Hne Hnot] by (split; [intros ->; apply (Hnd f Hl); by left|intros Hin; apply (Hnd l Hl); by right]).
    rewrite set_result_other by (done || (symmetry; by eapply Forall2_length)). destruct (others_stay l w _ _ _ rest Ha Hnot) as [_ Hr]. split_and!.
    + by eapply all_resolved_stay.
    + by apply Hr.
    + rewrite decide_False by done. unfold w'. rewrite (set_resolved_quiet l r w v Hv). destruct Ha as (_ & Ho & _).
      destruct y as [x|]; (split; [by apply Hcase|]); apply Ho; (done || by apply Hcase).
  - rewrite decide_True by done. assert (∃ c, cell_at w f c) as [c Hc] by (destruct y as [x|]; eexists; by apply Hcase).
    rewrite set_result_other by (done || (symmetry; by eapply Forall2_length)). pose proof (set_at f w _ r Hc) as Ha.
    destruct (others_stay f w _ _ _ rest Ha Hft) as [_ Hr]. split_and!; [by eapply all_resolved_stay|by apply Hr|]. destruct y as [x|]; destruct Hcase as [Hs Hcell].
    + unfold w'. rewrite (set_resolved_quiet f r w x Hcell). split; [done|]. by destruct (set_at f w (Resolved x) r Hcell) as (? & _ & _).
    + destruct (set_at f w _ r Hcell) as (Hnew & _ & Hsch). unfold w'. rewrite Hsch, Hs. by split.
  - assert (l ≠ f ∧ l ∉ finished) as [Hne Hnot] by (split; [by intros ->|intros Hin; apply (Hnd l Hin); by right]).
    destruct (set_known l r rest rs' w Hnr Ht Hl) as [Ht' Hs']. assert (∃ c, cell_at w l c) as [c Hc].
    { apply list_elem_of_lookup_1 in Hl as [i Hi]. destruct (Forall2_lookup_l _ _ _ _ _ Ht Hi) as (y' & _ & Hy). by eexists. }
    rewrite decide_False by done. destruct (set_at l w _ r Hc) as (_ & Ho & _). split_and!; [by eapply all_resolved_stay|done|].
    unfold w'. rewrite Hs'. destruct y as [x|]; (split; [by apply Hcase|]); apply Ho; (done || by apply Hcase).
Qed.

(** The scheduler's turn. *)
Lemma turn_inv ls w st rs :
  NoDup ls → length rs = length ls → all_inv ls w st rs →
  ∃ w' st', turn st w = (w', Ok st') ∧ all_inv ls w' st' rs ∧ scheduled w' = [].
Proof.
  intros Hn Hlen H. unfold turn. destruct st as [futures vs|x].
  2:{ destruct H as (Hc & Hs & Hf). rewrite Hs. cbn. by eexists _, _. }
  pose proof H as (f & rest & y & rs' & -> & Hdrop & -> & Hd & Ht & Hcase). destruct y as [x|]; destruct Hcase as [Hs Hf]; rewrite Hs; cbn [foldl].
  2:{ exists w, (AllWaiting (f :: rest) vs). rewrite <- Hs. by destruct w. }
  rewrite decide_True by done. cbn [resume_all].
  pose proof (take_drop (length vs) ls) as Hls. rewrite Hdrop in Hls.
  assert (length vs = length (take (length vs) ls)) as Hfin.
  { rewrite length_take. apply (f_equal length) in Hdrop. rewrite length_drop in Hdrop. cbn in Hdrop. lia. }
  destruct (resumed_inv (take (length vs) ls) f rest vs x rs' (World (store w) []) (all_from_inv rest)) as (w' & st' & E & Hi & Hq); try done; [by rewrite Hls|].
  exists w', st'. rewrite Hls in Hi. by rewrite E.
Qed.

Lemma run_all_app es1 es2 st w : run_all (es1 ++ es2) st w = (run_all es1 st ≫= run_all es2) w.
Proof.
  revert st w. induction es1 as [|e es1 IH]; intros st w; [done|]. cbn. unfold mbind, ST_bind in *.
  destruct (all_step e st w) as [w1 [st1|ex|]]; [apply IH|done..].
Qed.
Lemma run_inv ls es : ∀ w st rs, NoDup ls → length rs = length ls → all_inv ls w st rs → (∀ l r, SetAt l r ∈ es → l ∈ ls) →
  ∃ w' st', run_all es st w = (w', Ok st') ∧ all_inv ls w' st' (results ls es rs) ∧ length (results ls es rs) = length ls.
Proof.
  induction es as [|e es IH]; intros w st rs Hn Hl Hi Hes; [by exists w, st|]. cbn [run_all]. unfold mbind at 1, ST_bind at 1.
  assert (∀ l r, SetAt l r ∈ es → l ∈ ls) as Hes' by (intros l r Hin; apply (Hes l r); by right).
  assert (∃ w1 st1, all_step e st w = (w1, Ok st1) ∧ all_inv ls w1 st1 (set_result ls e rs)) as (w1 & st1 & -> & Hi1).
  { destruct e as [l r|]; cbn [all_step].
    - eexists _, _. split; [done|]. apply set_inv; try done. apply (Hes l r). by left.
    - destruct (turn_inv ls w st rs Hn Hl Hi) as (w1 & st1 & E & Hi1 & _). by exists w1, st1. }
  apply IH; try done. destruct e; [|done]. cbn. rewrite length_zip_with. lia.
Qed.

(** C15.  Awaiting [all] of several different futures: whatever the order in
    which their promises are set (also before the call, and set again, which
    changes nothing), after the scheduler's turn the coroutine has ended with
    all the values in the order of the arguments, or with the exception of the
    first of them that has one when everything before it has a value; and as
    long as that is not known the coroutine waits and nothing is scheduled. *)
Theorem all_collects (ls : list nat) (es : list all_event) (w : world) (rs : list (option (T + exn))) :
  NoDup ls → Forall2 (λ l r, cell_at w l (cell_of r)) ls rs → scheduled w = [] → (∀ l r, SetAt l r ∈ es → l ∈ ls) →
  ∃ w' st, (all ls ≫= run_all (es ++ [Turn])) w = (w', Ok st) ∧ scheduled w' = [] ∧
    match collect (results ls es rs) with
    | Some r => st = AllDone r
    | None => ∃ futures values, st = AllWaiting futures values
    end.
Proof.
  intros Hn Hc Hs Hes. assert (length rs = length ls) as Hl by (symmetry; by eapply Forall2_length).
  destruct (all_from_inv ls [] [] rs w) as (w0 & st0 & E0 & Hi0 & _); try done. cbn [app fmap list_fmap] in Hi0.
  unfold mbind, ST_bind, all. rewrite E0, run_all_app. unfold mbind, ST_bind.
  destruct (run_inv ls es w0 st0 rs) as (w1 & st1 & -> & Hi1 & Hl1); try done. cbn [run_all]. unfold mbind, ST_bind. change (all_step Turn st1 w1) with (turn st1 w1).
  destruct (turn_inv ls w1 st1 _ Hn Hl1 Hi1) as (w' & st & -> & Hi & Hq). exists w', st. split_and!; [done..|].
  destruct st as [futures vs|r]; [|by destruct Hi as [-> _]].
  destruct Hi as (f & rest & [x|] & rs' & _ & _ & -> & _ & _ & Hsch & _); [by rewrite Hq in Hsch|]. rewrite collect_values. cbn. eauto.
Qed.
End all.

(** * Promises without a value *)

(** [SharedPromiseState<void>]: no value and no chain. *)
Record VoidState := MkVoid {
  void_set : bool;
  void_suspended : bool;
  void_exception : option exn;
  void_scheduler : option nat;
  void_handle : option nat;
}.
Definition new_void_state : VoidState := MkVoid false false None None None.

Record void_world := VoidWorld { void_store : gmap nat VoidState; void_scheduled : list (nat * nat) }.

Definition read_void (l : nat) : ST void_world VoidState := λ w,
  (w, match void_store w !! l with Some s => Ok s | None => Undef end).
Definition write_void (l : nat) (s : VoidState) : ST void_world () :=
  st_modify (λ w, VoidWorld (<[l := s]> (void_store w)) (void_scheduled w)).

Definition make_void_promise : ST void_world Promise := λ w,
  let l := fresh (dom (void_store w)) in
  (VoidWorld (<[l := new_void_state]> (void_store w)) (void_scheduled w), Ok (MkPromise false l)).

(** [Promise<void>]. *)
Definition claim_void (l : nat) : ST void_world () :=
  s ← read_void l;
  write_void l (MkVoid true (void_suspended s) (void_exception s) (void_scheduler s) (void_handle s))
  ≫= λ _, if void_set s then st_throw FailedPrecondition else mret ().
Definition schedule_void (l : nat) : ST void_world () :=
  s ← read_void l;
  if void_suspended s then
    match void_scheduler s, void_handle s with
    | Some t, Some h => st_modify (λ w, VoidWorld (void_store w) (void_scheduled w ++ [(t, h)]))
    | _, _ => st_res Undef
    end
  else mret ().
Definition set_void (p : Promise) : ST void_world () :=
  claim_void (promise_state p) ≫= λ _, schedule_void (promise_state p).
Definition set_void_exception (p : Promise) (e : exn) : ST void_world () :=
  claim_void (promise_state p) ≫= λ _,
  s ← read_void (promise_state p);
  write_void (promise_state p) (MkVoid (void_set s) (void_suspended s) (Some e) (void_scheduler s) (void_handle s))
  ≫= λ _, schedule_void (promise_state p).
Definition void_return (p : Promise) : ST void_world () := set_void p.
Definition void_unhandled_exception (p : Promise) (e : exn) : ST void_world () := set_void_exception p e.

(** [FutureBase] on such a state, and [Future<void>]. *)
Definition void_ready (f : Future) : ST void_world bool := s ← read_void (future_state f); mret (void_set s).
Definition void_suspend (t h : nat) (f : Future) : ST void_world bool :=
  s ← read_void (future_state f);
  write_void (future_state f) (MkVoid (void_set s) (negb (void_set s)) (void_exception s) (Some t) (Some h))
  ≫= λ _, mret (negb (void_set s)).
Definition void_resume (f : Future) : ST void_world () :=
  s ← read_void (future_state f);
  if negb (void_set s) then st_throw FailedPrecondition
  else match void_exception s with Some e => st_res (Throw e) | None => mret () end.

Definition make_resolved_void : ST void_world Future :=
  p ← make_void_promise; set_void p ≫= λ _, '(_, f) ← st_res (get_future p); mret f.

(** ** They are the cell of [()] *)

Definition call_void {A} (f : A → answer (T := ())) (m : ST void_world A) (w : void_world) : void_world * option answer :=
  let '(w, r) := m w in (w, answer_of f r).
Definition void_step (l : nat) (o : op (T := ())) : void_world → void_world * option answer :=
  match o with
  | SetValue _ () => call_void (λ _, Done) (set_void (MkPromise true l))
  | SetException _ e => call_void (λ _, Done) (set_void_exception (MkPromise true l) e)
  | Ready => call_void Bool (void_ready (MkFuture l))
  | Suspend t h => call_void Bool (void_suspend t h (MkFuture l))
  | Resume => call_void Value (void_resume (MkFuture l))
  end.
Definition void_repr (s : VoidState) (c : cell (T := ())) : Prop :=
  match c with
  | Pending None => void_set s = false ∧ void_suspended s = false ∧ void_exception s = None
  | Pending (Some (t, h)) => s = MkVoid false true None (Some t) (Some h)
  | Resolved (inl ()) => void_set s = true ∧ void_exception s = None
  | Resolved (inr e) => void_set s = true ∧ void_exception s = Some e
  end.
Fixpoint void_run (l : nat) (os : list (op (T := ()))) (w : void_world) : void_world * list (option answer) :=
  match os with
  | [] => (w, [])
  | o :: os => let '(w, a) := void_step l o w in let '(w, r) := void_run l os w in (w, a :: r)
  end.

Lemma void_step_spec l w s c o : void_store w !! l = Some s → void_repr s c →
  let '(c', a, woken) := spec_step id o c in
  ∃ s', void_step l o w = (VoidWorld (<[l := s']> (void_store w)) (void_scheduled w ++ woken), Some a) ∧ void_repr s' c'.
Proof.
  intros Hs Hr. destruct w as [m q], s as [b1 b2 x t' h'].
  destruct o as [p []|p e| |t h|], c as [[[t0 h0]|]|[[]|e0]]; cbn in Hr;
    (destruct Hr as (-> & -> & ->) || destruct Hr as (-> & ->) || injection Hr as -> -> -> -> ->);
    cbn; unfold call_void, set_void, set_void_exception, claim_void, schedule_void, void_ready, void_suspend, void_resume,
      write_void, st_modify, read_void, mbind, ST_bind, mret, ST_ret; cbn in *; rewrite ?Hs; cbn; rewrite ?lookup_insert_eq; cbn;
    (eexists; split; [rewrite ?app_nil_r, ?insert_insert_eq; try (by rewrite insert_id); reflexivity|by cbn]).
Qed.

(** A promise of [void] and its future are the cell of the one value: calls
    answer as the cell does and schedule what it schedules. *)
Theorem void_refines_cell (l : nat) (os : list op) : ∀ (w : void_world) (s : VoidState) (c : cell),
  void_store w !! l = Some s → void_repr s c →
  let '(c', answers, woken) := spec_run id os c in
  ∃ s', void_run l os w = (VoidWorld (<[l := s']> (void_store w)) (void_scheduled w ++ woken), map Some answers) ∧ void_repr s' c'.
Proof.
  induction os as [|o os IH]; intros w s c Hs Hr; cbn [void_run spec_run].
  - exists s. rewrite insert_id, app_nil_r by done. by destruct w.
  - pose proof (void_step_spec l w s c o Hs Hr) as Hst. destruct (spec_step id o c) as [[c1 a] woken]. destruct Hst as (s1 & -> & Hr1).
    specialize (IH (VoidWorld (<[l := s1]> (void_store w)) (void_scheduled w ++ woken)) s1 c1 (lookup_insert_eq _ _ _) Hr1).
    destruct (spec_run id os c1) as [[c2 answers] more]. destruct IH as (s2 & -> & Hr2).
    exists s2. cbn [void_store void_scheduled]. by rewrite insert_insert_eq, app_assoc.
Qed.
(** [make_resolved_future()] is one that is set. *)
Lemma make_resolved_void_set w : let '(w', r) := make_resolved_void w in
  ∃ l, l ∉ dom (void_store w) ∧ r = Ok (MkFuture l) ∧ void_run l [Ready; Resume] w' = (w', [Some (Bool true); Some (Value ())]).
Proof.
  unfold make_resolved_void, make_void_promise, set_void, claim_void, schedule_void, write_void, st_modify, read_void, mbind, ST_bind, mret, ST_ret.
  cbn. rewrite !lookup_insert_eq. cbn. rewrite !lookup_insert_eq. cbn. exists (fresh (dom (void_store w))). split_and!; [apply is_fresh|done|].
  unfold call_void, void_ready, void_resume, read_void, mbind, ST_bind, mret, ST_ret. cbn. rewrite !lookup_insert_eq. cbn. by rewrite !lookup_insert_eq.
Qed.

(** * Examples *)

Definition three_futures : world (T := nat) := World {[0 := new_state; 1 := new_state; 2 := new_state]} [].

(** The last of three is set first, then then the first, twice, then the second. *)
Lemma all_collects_witness :
  ∃ w' st, (all id 7 9 [0; 1; 2] ≫= run_all id 7 9
      ([SetAt 2 (inl 30); Turn; SetAt 0 (inl 10); SetAt 0 (inl 11); Turn; SetAt 1 (inl 20)] ++ [Turn])) three_futures = (w', Ok st) ∧
    scheduled w' = [] ∧ st = AllDone (inl [10; 20; 30]).
Proof.
  apply (all_collects id 7 9 [0; 1; 2] [SetAt 2 (inl 30); Turn; SetAt 0 (inl 10); SetAt 0 (inl 11); Turn; SetAt 1 (inl 20)]
    three_futures [None; None; None]); [by apply (bool_decide_unpack _)| |done|].
  - repeat constructor; by eexists.
  - intros l r Hin. repeat (apply elem_of_cons in Hin as [?|Hin]; [simplify_eq; by apply (bool_decide_unpack _)|]). by apply elem_of_nil in Hin.
Defined.
(** An exception is met only after what comes before it. *)
Definition all_of_three (es : list all_event) : res all_status :=
  ((all id 7 9 [0; 1; 2] ≫= run_all id 7 9 es) three_futures).2.
Example all_throws_in_order :
  all_of_three [SetAt 1 (inr (LwError NotFound)); Turn] = Ok (AllWaiting [0; 1; 2] []) ∧
  all_of_three [SetAt 1 (inr (LwError NotFound)); SetAt 0 (inl 10); Turn] = Ok (AllDone (inr (LwError NotFound))) ∧
  all_of_three [SetAt 1 (inr (LwError NotFound)); SetAt 0 (inr (LwError Internal)); Turn] = Ok (AllDone (inr (LwError Internal))).
Proof. by vm_compute. Qed.
