(* ===== verification/Scheduler.v ===== *)
(** lw/co/events, lw/co/systems/epoll and lw/co/scheduler: event sets, the table
    of callbacks in front of epoll, and the event loop that resumes
    coroutines. *)
From stdpp Require Import gmap.
From S2P Require Import Prelude Errors CircularQueue.

(** * Events *)

Definition READABLE : Z := 1.
Definition WRITABLE : Z := 2.
Definition READ_CLOSED : Z := 4.
Definition PEER_CLOSED : Z := 8.
Definition POLLPRI : Z := 16.
Definition ERROR : Z := 32.
Definition EDGE_TRIGGER : Z := 64.
Definition ONE_SHOT : Z := 128.
Definition WAKE_UP : Z := 256.
Definition EXCLUSIVE : Z := 512.

(** The operators of [Event]; [operator+] is [operator|]. *)
Definition event_or (lhs rhs : Z) : Z := Z.lor (wrap_u 16 lhs) (wrap_u 16 rhs).
Definition event_minus (lhs rhs : Z) : Z := Z.land (wrap_u 16 lhs) (Z.lnot (wrap_u 16 rhs)).
Definition event_and (lhs rhs : Z) : bool := negb (Z.land (wrap_u 16 lhs) (wrap_u 16 rhs) =? 0)%Z.

(** * The operating system *)

(** What the scheduler asks of the kernel; a call gives its result, or -1 with
    an error number. *)
Class Kernel (K : Type) := {
  EPOLLIN : Z; EPOLLOUT : Z; EPOLLRDHUP : Z; EPOLLHUP : Z; EPOLLPRI : Z;
  EPOLLERR : Z; EPOLLET : Z; EPOLLONESHOT : Z; EPOLLWAKEUP : Z; EPOLLEXCLUSIVE : Z;
  sys_eventfd : K → K * (Z + Z);
  sys_read : Z → K → K * (Z + nat);
  sys_write : Z → K → K * (Z + nat);
  sys_epoll_add : Z → Z → K → K * (Z + ());
  sys_epoll_del : Z → K → K * (Z + ());
  sys_epoll_wait : nat → Z → K → K * (Z + list Z);
}.

Section scheduler.
Context {K : Type} `{!Kernel K} (lw_epoll_event_buffer_size : nat).

Definition co_event_to_epoll_event (events : Z) : Z :=
  let add (e bit ret : Z) : Z := if event_and events e then Z.lor ret bit else ret in
  add EXCLUSIVE EPOLLEXCLUSIVE (add WAKE_UP EPOLLWAKEUP (add ONE_SHOT EPOLLONESHOT
    (add EDGE_TRIGGER EPOLLET (add ERROR EPOLLERR (add POLLPRI EPOLLPRI (add PEER_CLOSED EPOLLHUP
    (add READ_CLOSED EPOLLRDHUP (add WRITABLE EPOLLOUT (add READABLE EPOLLIN 0%Z))))))))).

(** * The objects *)

(** A coroutine handle, and the two closures the scheduler registers. *)
Definition coro : Type := nat.
Inductive callback := ResumeCoro (c : coro) | DrainQueue.

(** What a coroutine does with the scheduler when it is resumed, up to the point
    where it suspends again. *)
Inductive action := Schedule (c : coro) | AwaitEvents (c : coro) (fd events : Z) | StopLoop.

(** What awaiting these leads to in coroutine [c]. *)
Definition next_tick (c : coro) : action := Schedule c.
Definition fd_readable (c : coro) (fd : Z) : action := AwaitEvents c fd (event_or READABLE ONE_SHOT).
Definition fd_writable (c : coro) (fd : Z) : action := AwaitEvents c fd (event_or WRITABLE ONE_SHOT).

(** The scheduler with its [EPoll], the kernel behind it and, for the record,
    the coroutines resumed so far. *)
Record Scheduler := MkScheduler {
  _continue_polling : bool;
  _callbacks : gmap Z (callback * bool);
  _coro_queue : CircularQueue coro;
  _queue_notification_fd : Z;
  kernel : K;
  resumed : list coro;
}.

Definition make_scheduler (lw_scheduler_queue_size : nat) (k : K) : Scheduler :=
  MkScheduler true ∅ (make_queue lw_scheduler_queue_size) 0 k [].

Definition set_polling (b : bool) : ST Scheduler () :=
  st_modify (λ s, MkScheduler b (_callbacks s) (_coro_queue s) (_queue_notification_fd s) (kernel s) (resumed s)).
Definition set_callbacks (m : gmap Z (callback * bool)) : ST Scheduler () :=
  st_modify (λ s, MkScheduler (_continue_polling s) m (_coro_queue s) (_queue_notification_fd s) (kernel s) (resumed s)).
Definition set_notification_fd (fd : Z) : ST Scheduler () :=
  st_modify (λ s, MkScheduler (_continue_polling s) (_callbacks s) (_coro_queue s) fd (kernel s) (resumed s)).
Definition record_resumed (c : coro) : ST Scheduler () :=
  st_modify (λ s, MkScheduler (_continue_polling s) (_callbacks s) (_coro_queue s) (_queue_notification_fd s) (kernel s)
                    (resumed s ++ [c])).

(** A system call; -1 makes [check_system_error] throw by the error number, and
    [Internal] when it does not. *)
Definition syscall {A} (f : K → K * (Z + A)) : ST Scheduler A := λ s,
  let '(k, r) := f (kernel s) in
  let s := MkScheduler (_continue_polling s) (_callbacks s) (_coro_queue s) (_queue_notification_fd s) k (resumed s) in
  match r with
  | inr a => (s, Ok a)
  | inl err => (s, match check_errno err with Throw e => Throw e | _ => throw Internal end)
  end.

(** A call on the queue. *)
Definition on_queue {A} (m : ST (CircularQueue coro) A) : ST Scheduler A := λ s,
  let '(q, r) := m (_coro_queue s) in
  (MkScheduler (_continue_polling s) (_callbacks s) q (_queue_notification_fd s) (kernel s) (resumed s), r).

(** * EPoll *)

(** [EPoll::add]. *)
Definition epoll_add (fd events : Z) (cb : callback) : ST Scheduler () :=
  s ← st_get;
  if decide (is_Some (_callbacks s !! fd)) then st_throw AlreadyExists
  else
    syscall (sys_epoll_add fd (co_event_to_epoll_event events)) ≫= λ _,
    set_callbacks (<[fd := (cb, event_and events ONE_SHOT)]> (_callbacks s)).

(** [EPoll::remove]. *)
Definition epoll_remove (fd : Z) : ST Scheduler () :=
  s ← st_get;
  if decide (is_Some (_callbacks s !! fd)) then
    set_callbacks (delete fd (_callbacks s)) ≫= λ _, syscall (sys_epoll_del fd)
  else st_throw FailedPrecondition.

Definition has_pending_items (s : Scheduler) : bool := negb (bool_decide (_callbacks s = ∅)).

(** * Scheduling *)

Definition create_eventfd : ST Scheduler Z :=
  fd ← syscall sys_eventfd; if decide (fd ≤ 0)%Z then st_throw Internal else mret fd.
Definition clear_eventfd (fd : Z) : ST Scheduler () :=
  n ← syscall (sys_read fd); if decide (n < 8) then st_throw Internal else mret ().
Definition ping_eventfd (fd : Z) : ST Scheduler () :=
  n ← syscall (sys_write fd); if decide (n < 8) then st_throw Internal else mret ().

(** [schedule(coro, handle, events)]. *)
Definition schedule_events (c : coro) (fd events : Z) : ST Scheduler () := epoll_add fd events (ResumeCoro c).

(** The [try] of [_schedule_queue_drain]. *)
Definition register_drain (fd : Z) : ST Scheduler () := λ s,
  match epoll_add fd (event_or READABLE ONE_SHOT) DrainQueue s with
  | (s, Throw e) => (s, if decide (e = LwError AlreadyExists) then Ok () else Throw e)
  | r => r
  end.

Definition _schedule_queue_drain : ST Scheduler () :=
  s ← st_get;
  (if decide (_queue_notification_fd s = 0)%Z then create_eventfd ≫= λ fd, set_notification_fd fd
   else mret ()) ≫= λ _,
  s ← st_get;
  register_drain (_queue_notification_fd s) ≫= λ _, ping_eventfd (_queue_notification_fd s).

Definition _add_to_queue (c : coro) : ST Scheduler () := on_queue (push_back c) ≫= λ _, _schedule_queue_drain.

Definition stop : ST Scheduler () := set_polling false ≫= λ _, _schedule_queue_drain.

(** * Running *)

(** The [n]-th time a coroutine is resumed it goes through these actions. *)
Context (program : coro → nat → list action).

Definition do_action (a : action) : ST Scheduler () :=
  match a with
  | Schedule c => _add_to_queue c
  | AwaitEvents c fd events => schedule_events c fd events
  | StopLoop => stop
  end.

(** [handle.resume()]: an exception inside ends up in the coroutine's promise. *)
Definition resume (c : coro) : ST Scheduler () := λ s,
  let n := length (filter (λ d, d = c) (resumed s)) in
  match (record_resumed c ≫= λ _, for_each do_action (program c n)) s with
  | (s, Undef) => (s, Undef)
  | (s, _) => (s, Ok ())
  end.

(** The closure of [_schedule_queue_drain]. *)
Fixpoint drain_loop (limit : nat) : ST Scheduler () :=
  match limit with
  | 0 => mret ()
  | S limit =>
      s ← st_get;
      if queue_empty (_coro_queue s) then mret ()
      else c ← on_queue pop_front; resume c ≫= λ _, drain_loop limit
  end.
Definition drain : ST Scheduler () :=
  s ← st_get;
  clear_eventfd (_queue_notification_fd s) ≫= λ _,
  s ← st_get;
  drain_loop (queue_size (_coro_queue s)).

Definition run_callback (cb : callback) : ST Scheduler () :=
  match cb with ResumeCoro c => resume c | DrainQueue => drain end.

(** One event of [EPoll::_wait]; what the callback throws becomes
    [Internal]. *)
Definition dispatch_event (fd : Z) : ST Scheduler () := λ s,
  match _callbacks s !! fd with
  | None => (s, throw Internal)
  | Some (cb, one_shot) =>
      match ((if (one_shot : bool) then epoll_remove fd else mret ()) ≫= λ _, run_callback cb) s with
      | (s, Throw _) => (s, throw Internal)
      | r => r
      end
  end.

(** [EPoll::_wait(timeout_ms)]. *)
Definition _wait (timeout_ms : Z) : ST Scheduler nat :=
  fds ← syscall (sys_epoll_wait lw_epoll_event_buffer_size timeout_ms);
  if decide (lw_epoll_event_buffer_size < length fds) then st_throw Internal
  else for_each dispatch_event fds ≫= λ _, mret (length fds).

Definition wait : ST Scheduler nat := _wait (-1).
Definition try_wait : ST Scheduler nat := _wait 0.

(** [wait_for] of a number of nanoseconds. *)
Definition wait_for (timeout : Z) : ST Scheduler nat :=
  let timeout_ms := Z.quot timeout (10 ^ 6) in
  if decide (timeout_ms ≤ 0)%Z then st_throw InvalidArgument
  else if decide (2 ^ 31 - 1 < timeout_ms)%Z then st_throw InvalidArgument
  else _wait timeout_ms.

(** [thread_schedulers]: the scheduler of each thread, by the order in which they
    were created.  A scheduler is only made by [this_thread], so the check of
    its constructor always passes. *)
Record registry := MkRegistry { thread_schedulers : gmap nat nat; created : nat }.

Definition this_thread (thread : nat) (r : registry) : registry * nat :=
  match thread_schedulers r !! thread with
  | Some id => (r, id)
  | None => (MkRegistry (<[thread := created r]> (thread_schedulers r)) (S (created r)), created r)
  end.
Definition for_thread (thread : nat) (r : registry) : res nat :=
  match thread_schedulers r !! thread with Some id => Ok id | None => throw NotFound end.

(** The loop of [run]; [None] when the fuel runs out. *)
Fixpoint run_loop (fuel : nat) (s : Scheduler) : option (Scheduler * res ()) :=
  if _continue_polling s && has_pending_items s then
    match fuel with
    | 0 => None
    | S fuel => match wait s with (s, Ok _) => run_loop fuel s | (s, Throw e) => Some (s, Throw e) | (s, Undef) => Some (s, Undef) end
    end
  else Some (s, Ok ()).

(** [run] of the scheduler [self], called on [thread]. *)
Definition run (r : registry) (thread self fuel : nat) (s : Scheduler) : option (Scheduler * res ()) :=
  let s := MkScheduler true (_callbacks s) (_coro_queue s) (_queue_notification_fd s) (kernel s) (resumed s) in
  if decide (thread_schedulers r !! thread = Some self) then run_loop fuel s
  else Some (s, throw FailedPrecondition).

(** * What a call leaves alone *)

(** The queue and the record of resumptions are kept, and nothing is
    undefined. *)
Definition keeps_queue {A} (m : ST Scheduler A) : Prop := ∀ s,
  _coro_queue (m s).1 = _coro_queue s ∧ resumed (m s).1 = resumed s ∧ (m s).2 ≠ Undef.

Lemma keeps_bind {A C} (m : ST Scheduler A) (k : A → ST Scheduler C) :
  keeps_queue m → (∀ a, keeps_queue (k a)) → keeps_queue (m ≫= k).
Proof.
  intros Hm Hk s. unfold mbind, ST_bind. destruct (Hm s) as (H1 & H2 & H3). destruct (m s) as [s1 [a|e|]]; [|done..].
  destruct (Hk a s1) as (H4 & H5 & H6). cbn in *. split_and!; congruence.
Qed.
Lemma keeps_ret {A} (a : A) : keeps_queue (mret a).
Proof. by intros s. Qed.
Lemma keeps_get : keeps_queue st_get.
Proof. by intros s. Qed.
Lemma keeps_throw {A} k : keeps_queue (A := A) (st_throw k).
Proof. by intros s. Qed.
Lemma keeps_syscall {A} (f : K → K * (Z + A)) : keeps_queue (syscall f).
Proof. intros s. unfold syscall. destruct (f (kernel s)) as [k [e|a]]; [|done]. by destruct (check_errno e). Qed.
Lemma keeps_set_callbacks m : keeps_queue (set_callbacks m).
Proof. by intros s. Qed.
Lemma keeps_set_notification fd : keeps_queue (set_notification_fd fd).
Proof. by intros s. Qed.
Lemma keeps_set_polling b : keeps_queue (set_polling b).
Proof. by intros s. Qed.
#[local] Hint Resolve keeps_bind keeps_ret keeps_get keeps_throw keeps_syscall keeps_set_callbacks
  keeps_set_notification keeps_set_polling : core.

Lemma keeps_epoll_add fd ev cb : keeps_queue (epoll_add fd ev cb).
Proof. unfold epoll_add. apply keeps_bind; [auto|]. intros s. destruct (decide _); auto. Qed.
Lemma keeps_epoll_remove fd : keeps_queue (epoll_remove fd).
Proof. unfold epoll_remove. apply keeps_bind; [auto|]. intros s. destruct (decide _); auto. Qed.
Lemma keeps_create_eventfd : keeps_queue create_eventfd.
Proof. unfold create_eventfd. apply keeps_bind; [auto|]. intros fd. destruct (decide _); auto. Qed.
Lemma keeps_clear_eventfd fd : keeps_queue (clear_eventfd fd).
Proof. unfold clear_eventfd. apply keeps_bind; [auto|]. intros n. destruct (decide _); auto. Qed.
Lemma keeps_ping_eventfd fd : keeps_queue (ping_eventfd fd).
Proof. unfold ping_eventfd. apply keeps_bind; [auto|]. intros n. destruct (decide _); auto. Qed.

Lemma keeps_register_drain fd : keeps_queue (register_drain fd).
Proof.
  intros s. unfold register_drain. pose proof (keeps_epoll_add fd (event_or READABLE ONE_SHOT) DrainQueue s) as H.
  destruct (epoll_add _ _ _ s) as [s3 [[]|e|]]; [done| |by destruct H as (_ & _ & ?)].
  by destruct H as (? & ? & _); destruct (decide _).
Qed.

Lemma keeps_drain_registration : keeps_queue _schedule_queue_drain.
Proof.
  unfold _schedule_queue_drain. apply keeps_bind; [auto|]. intros s. apply keeps_bind.
  { destruct (decide _); [|auto]. apply keeps_bind; [apply keeps_create_eventfd|auto]. }
  intros _. apply keeps_bind; [auto|]. intros s1.
  apply keeps_bind; [apply keeps_register_drain|intros _; apply keeps_ping_eventfd].
Qed.

(** * Resuming adds to the end of the queue *)

Definition appends_to_queue {A} (s : Scheduler) (out : Scheduler * res A) : Prop :=
  ∀ l, repr (_coro_queue s) l → out.2 ≠ Undef ∧ ∃ added, repr (_coro_queue out.1) (l ++ added).

Lemma keeps_appends {A} (m : ST Scheduler A) s : keeps_queue m → appends_to_queue s (m s).
Proof. intros Hm l Hl. destruct (Hm s) as (H & _ & H'). split; [done|]. exists []. by rewrite app_nil_r, H. Qed.

Lemma push_back_repr (x : coro) q l :
  repr q l → (push_back x q).2 = throw ResourceExhausted ∧ repr (push_back x q).1 l
    ∨ (push_back x q).2 = Ok () ∧ repr (push_back x q).1 (l ++ [x]).
Proof.
  intros Hr. pose proof (try_push_repr x q l Hr) as H. unfold push_back, mbind, ST_bind.
  destruct (decide _); [rewrite H; by left|destruct H as (q' & -> & Hr' & _); by right].
Qed.

Lemma do_action_appends a s :
  appends_to_queue s (do_action a s) ∧ resumed (do_action a s).1 = resumed s.
Proof.
  destruct a as [c|c fd ev|]; cbn [do_action].
  - unfold _add_to_queue, mbind, ST_bind, on_queue.
    assert (∀ l, repr (_coro_queue s) l → (push_back c (_coro_queue s)).2 ≠ Undef ∧
      ∃ a, repr (push_back c (_coro_queue s)).1 (l ++ a)) as Hp.
    { intros l Hl. destruct (push_back_repr c _ l Hl) as [[-> H]|[-> H]]; (split; [done|]);
        [exists []; by rewrite app_nil_r|by exists [c]]. }
    destruct (push_back c (_coro_queue s)) as [q [[]|e|]]; cbn in *; [|by split..].
    destruct (keeps_drain_registration (MkScheduler (_continue_polling s) (_callbacks s) q (_queue_notification_fd s) (kernel s) (resumed s)))
      as (H1 & H2 & H3). split; [|done]. intros l Hl. rewrite H1. split; [done|]. by apply Hp.
  - split; [apply keeps_appends, keeps_epoll_add|]. apply keeps_epoll_add.
  - assert (keeps_queue stop) as Hk by (unfold stop; apply keeps_bind; [auto|intros _; apply keeps_drain_registration]).
    split; [by apply keeps_appends|apply Hk].
Qed.

Lemma do_actions_append l s :
  appends_to_queue s (for_each do_action l s) ∧ resumed (for_each do_action l s).1 = resumed s.
Proof.
  revert s. induction l as [|a l IH]; intros s; [split; [apply (keeps_appends (mret ())); auto|done]|].
  cbn [for_each]. unfold mbind, ST_bind. destruct (do_action_appends a s) as [H1 H2].
  destruct (do_action a s) as [s1 [[]|e|]]; cbn [fst] in *; [|done..].
  destruct (IH s1) as [H3 H4]. split; [|congruence]. intros q Hq. destruct (H1 q Hq) as (_ & x & Hx).
  destruct (H3 _ Hx) as (H5 & y & Hy). split; [done|]. exists (x ++ y). by rewrite app_assoc.
Qed.

Lemma resume_appends c s :
  appends_to_queue s (resume c s) ∧ resumed (resume c s).1 = resumed s ++ [c] ∧
  (∀ l, repr (_coro_queue s) l → (resume c s).2 = Ok ()).
Proof.
  unfold resume, mbind, ST_bind, record_resumed, st_modify.
  set (s1 := MkScheduler _ _ _ _ _ _). set (acts := program _ _).
  destruct (do_actions_append acts s1) as [H1 H2].
  destruct (for_each do_action acts s1) as [s2 [[]|e|]]; split_and!; try done.
  - intros l Hl. destruct (H1 l Hl) as [_ H]. by split.
  - intros l Hl. by destruct (H1 l Hl) as [H _].
Qed.

(** The loop takes what was queued first, in order. *)
Lemma drain_loop_spec : ∀ now s later,
  repr (_coro_queue s) (now ++ later) →
  ∃ s', drain_loop (length now) s = (s', Ok ()) ∧ resumed s' = resumed s ++ now ∧
    ∃ added, repr (_coro_queue s') (later ++ added).
Proof.
  induction now as [|c now IH]; intros s later Hr; cbn [length drain_loop].
  - exists s. rewrite app_nil_r. split_and!; [done..|exists []; by rewrite app_nil_r].
  - unfold mbind at 1, ST_bind at 1, st_get. unfold queue_empty, queue_size. rewrite (repr_size _ _ Hr).
    rewrite bool_decide_false by done.
    pose proof (pop_repr _ _ Hr) as Hpop. cbn [app] in Hpop. destruct Hpop as (q & Hq & Hrq & _).
    unfold mbind at 1, ST_bind at 1, on_queue. rewrite Hq.
    set (s1 := MkScheduler _ _ q _ _ _). unfold mbind, ST_bind. destruct (resume_appends c s1) as (H1 & H2 & H3).
    specialize (H3 (now ++ later) Hrq). destruct (resume c s1) as [s2 r]. cbn [fst snd] in *. subst r.
    destruct (H1 (now ++ later) Hrq) as (_ & added & Ha). cbn [fst] in Ha. rewrite <- app_assoc in Ha.
    destruct (IH s2 (later ++ added) Ha) as (s' & -> & H4 & a2 & H5). exists s'. split; [done|].
    split; [rewrite H4, H2; by rewrite <- app_assoc|]. exists (added ++ a2). by rewrite app_assoc.
Qed.

(** * The queue is never forgotten *)

(** The descriptors of the scheduler's own eventfds: calls on them succeed, and
    coroutines do not await them. *)
Context (own : Z → Prop).
Hypothesis own_positive : ∀ fd, own fd → (0 < fd)%Z.
Hypothesis eventfd_ok : ∀ k, ∃ k' fd, sys_eventfd k = (k', inr fd) ∧ own fd.
Hypothesis read_ok : ∀ fd k, own fd → ∃ k' n, sys_read fd k = (k', inr n) ∧ 8 ≤ n.
Hypothesis write_ok : ∀ fd k, own fd → ∃ k' n, sys_write fd k = (k', inr n) ∧ 8 ≤ n.
Hypothesis add_ok : ∀ fd ev k, own fd → ∃ k', sys_epoll_add fd ev k = (k', inr ()).
Hypothesis del_ok : ∀ fd k, own fd → ∃ k', sys_epoll_del fd k = (k', inr ()).
Definition wf_action (a : action) : Prop :=
  match a with AwaitEvents _ fd _ => ¬ own fd | _ => True end.
Hypothesis program_wf : ∀ c n, Forall wf_action (program c n).

Definition registered (s : Scheduler) : Prop :=
  own (_queue_notification_fd s) ∧ _callbacks s !! _queue_notification_fd s = Some (DrainQueue, true).

(** The descriptor and the callbacks fit together, and all but the first [n]
    coroutines of the queue have a wake-up registered. *)
Definition wf_fds (s : Scheduler) : Prop :=
  (_queue_notification_fd s = 0%Z ∨ own (_queue_notification_fd s)) ∧
  (∀ fd x, own fd → _callbacks s !! fd = Some x → fd = _queue_notification_fd s ∧ x = (DrainQueue, true)) ∧
  (∀ fd b, _callbacks s !! fd = Some (DrainQueue, b) → own fd).
Definition inv (n : nat) (s : Scheduler) : Prop :=
  wf_fds s ∧ ∃ l, repr (_coro_queue s) l ∧ (n < length l → registered s).

Lemma registered_wf s : wf_fds s → own (_queue_notification_fd s) → is_Some (_callbacks s !! _queue_notification_fd s) →
  registered s.
Proof. intros (_ & H & _) Ho [x Hx]. split; [done|]. by destruct (H _ x Ho Hx) as [_ ->]. Qed.

(** Registering the wake-up succeeds. *)
Lemma register_drain_spec s fd :
  wf_fds s → own fd → _queue_notification_fd s = fd →
  ∃ s', register_drain fd s = (s', Ok ()) ∧ wf_fds s' ∧ registered s' ∧ _queue_notification_fd s' = fd.
Proof.
  intros Hwf Ho Hfd. unfold register_drain, epoll_add, mbind, ST_bind, st_get.
  destruct (decide _) as [Hin|Hno].
  - cbn. rewrite decide_True by done. exists s. split_and!; try done. apply registered_wf; by rewrite ?Hfd.
  - unfold syscall. destruct (add_ok fd (co_event_to_epoll_event (event_or READABLE ONE_SHOT)) (kernel s) Ho) as [k ->].
    eexists. split; [reflexivity|]. cbn. change (event_and (event_or READABLE ONE_SHOT) ONE_SHOT) with true.
    destruct Hwf as (H1 & H2 & H3). unfold wf_fds, registered. cbn. rewrite Hfd. split_and!.
    + by right.
    + intros fd' x Ho'. destruct (decide (fd = fd')) as [<-|Hne]; [rewrite lookup_insert_eq; by intros [= <-]|].
      rewrite lookup_insert_ne by done. intros Hx. destruct (H2 fd' x Ho' Hx). congruence.
    + intros fd' b. destruct (decide (fd = fd')) as [<-|Hne]; [done|]. rewrite lookup_insert_ne by done. apply H3.
    + done.
    + by rewrite lookup_insert_eq.
    + done.
Qed.

Lemma drain_registration_spec s :
  wf_fds s → ∃ s', _schedule_queue_drain s = (s', Ok ()) ∧ wf_fds s' ∧ registered s'.
Proof.
  intros Hwf. unfold _schedule_queue_drain. unfold mbind at 1, ST_bind at 1, st_get.
  assert (∃ s1, (if decide (_queue_notification_fd s = 0%Z) then create_eventfd ≫= λ fd, set_notification_fd fd
      else mret ()) s = (s1, Ok ()) ∧ wf_fds s1 ∧ own (_queue_notification_fd s1)) as (s1 & E1 & Hwf1 & Ho1).
  { destruct Hwf as ([H0|H0] & H2 & H3).
    - rewrite decide_True by done. unfold create_eventfd, mbind, ST_bind, syscall.
      destruct (eventfd_ok (kernel s)) as (k & fd & -> & Ho). pose proof (own_positive _ Ho).
      rewrite decide_False by lia. eexists. split; [reflexivity|]. unfold wf_fds. cbn. split_and!; auto.
      intros fd' x Ho' Hx. destruct (H2 fd' x Ho' Hx) as [-> _]. pose proof (own_positive _ Ho'). lia.
    - pose proof (own_positive _ H0). rewrite decide_False by lia. exists s. by split_and!; [|split; [right|]|]. }
  unfold mbind at 1, ST_bind at 1. rewrite E1. unfold mbind at 1, ST_bind at 1.
  destruct (register_drain_spec s1 _ Hwf1 Ho1 eq_refl) as (s2 & E2 & Hwf2 & Hr2 & Hfd).
  unfold mbind at 1, ST_bind at 1. rewrite E2. unfold ping_eventfd, mbind, ST_bind, syscall.
  destruct (write_ok (_queue_notification_fd s1) (kernel s2) Ho1) as (k & n & -> & Hn).
  rewrite decide_False by lia. eexists. split; [reflexivity|]. done.
Qed.

Lemma inv_weaken n m s : n ≤ m → inv n s → inv m s.
Proof. intros Hnm (H & l & Hl & Hr). split; [done|]. exists l. split; [done|]. intros. apply Hr. lia. Qed.

(** Two states that differ in what the invariant does not mention. *)
Lemma registered_inv n s s' :
  wf_fds s' → registered s' → _coro_queue s' = _coro_queue s → (∃ l, repr (_coro_queue s) l) → inv n s'.
Proof. intros H1 H2 H3 [l Hl]. split; [done|]. exists l. rewrite H3. auto. Qed.

Lemma add_to_queue_inv n c s : inv n s → inv n (_add_to_queue c s).1.
Proof.
  intros (Hwf & l & Hl & Hr). unfold _add_to_queue, mbind, ST_bind, on_queue.
  destruct (push_back_repr c _ l Hl) as [[E H]|[E H]]; destruct (push_back c (_coro_queue s)) as [q r];
    cbn [fst snd] in *; subst r.
  - split; [exact Hwf|]. by exists l.
  - set (s1 := MkScheduler _ _ q _ _ _). pose proof (keeps_drain_registration s1) as (Hq & _).
    destruct (drain_registration_spec s1 Hwf) as (s2 & E2 & Hwf2 & Hr2). rewrite E2 in Hq |- *.
    apply (registered_inv n s1); [done..|]. by eexists.
Qed.

Lemma other_callback_wf fd x s s' :
  ¬ own fd → (x = None ∨ ∃ c b, x = Some (ResumeCoro c, b)) →
  _callbacks s' = partial_alter (λ _, x) fd (_callbacks s) →
  _queue_notification_fd s' = _queue_notification_fd s → wf_fds s →
  wf_fds s' ∧ (registered s → registered s').
Proof.
  intros Ho Hx Hc Hq (H1 & H2 & H3). unfold wf_fds, registered. rewrite Hq, Hc. split.
  - split_and!; [done|..].
    + intros fd' y Ho'. rewrite lookup_partial_alter_ne by congruence. by apply H2.
    + intros fd' b. destruct (decide (fd = fd')) as [<-|Hne].
      * rewrite lookup_partial_alter_eq. destruct Hx as [->|(c & b' & ->)]; congruence.
      * rewrite lookup_partial_alter_ne by done. apply H3.
  - intros [Hr1 Hr2]. split; [done|]. by rewrite lookup_partial_alter_ne by congruence.
Qed.

Lemma schedule_events_inv n c fd ev s : ¬ own fd → inv n s → inv n (schedule_events c fd ev s).1.
Proof.
  intros Ho Hinv. pose proof Hinv as (Hwf & l & Hl & Hr). unfold schedule_events, epoll_add, mbind, ST_bind, st_get.
  destruct (decide _); [done|]. unfold syscall. destruct (sys_epoll_add _ _ _) as [k [e|[]]].
  - destruct (check_errno e); (split; [exact Hwf|by exists l]).
  - destruct (other_callback_wf fd (Some (ResumeCoro c, event_and ev ONE_SHOT)) s
      (MkScheduler (_continue_polling s) (<[fd := (ResumeCoro c, event_and ev ONE_SHOT)]> (_callbacks s)) (_coro_queue s)
         (_queue_notification_fd s) k (resumed s))) as [H1 H2]; eauto 10.
    split; [exact H1|]. exists l. split; [done|]. intros. by apply H2, Hr.
Qed.

Lemma do_action_inv n a s : wf_action a → inv n s → inv n (do_action a s).1.
Proof.
  intros Ha Hinv. destruct a as [c|c fd ev|]; cbn [do_action wf_action] in *.
  - by apply add_to_queue_inv.
  - by apply schedule_events_inv.
  - unfold stop, mbind, ST_bind, set_polling, st_modify. destruct Hinv as (Hwf & l & Hl & _).
    set (s1 := MkScheduler _ _ _ _ _ _). destruct (drain_registration_spec s1 Hwf) as (s2 & E & H1 & H2).
    pose proof (keeps_drain_registration s1) as (Hq & _). rewrite E in Hq |- *.
    apply (registered_inv n s1); [done..|]. by exists l.
Qed.

Lemma do_actions_inv n acts s : Forall wf_action acts → inv n s → inv n (for_each do_action acts s).1.
Proof.
  intros H. revert s. induction H as [|a acts Ha _ IH]; intros s Hs; [done|]. cbn [for_each]. unfold mbind, ST_bind.
  pose proof (do_action_inv n a s Ha Hs) as H1. destruct (do_action a s) as [s1 [[]|e|]]; cbn in *; auto.
Qed.

Lemma resume_inv n c s : inv n s → inv n (resume c s).1.
Proof.
  intros Hs. unfold resume, mbind, ST_bind, record_resumed, st_modify. set (s1 := MkScheduler _ _ _ _ _ _).
  assert (inv n s1) as H1 by exact Hs.
  pose proof (do_actions_inv n _ s1 (program_wf c (length (filter (λ d, d = c) (resumed s)))) H1) as H2.
  by destruct (for_each do_action _ s1) as [s2 [[]|e|]].
Qed.

Lemma drain_loop_inv limit s : inv limit s → inv 0 (drain_loop limit s).1.
Proof.
  revert s. induction limit as [|limit IH]; intros s Hs; [done|]. cbn [drain_loop].
  pose proof Hs as (Hwf & l & Hl & Hr).
  unfold mbind at 1, ST_bind at 1, st_get. unfold queue_empty, queue_size. rewrite (repr_size _ _ Hl).
  pose proof (pop_repr _ _ Hl) as Hpop. destruct l as [|x l].
  - cbn. split; [exact Hwf|]. exists []. split; [done|]. cbn. lia.
  - rewrite bool_decide_false by done. destruct Hpop as (q & Hq & Hrq & _).
    unfold mbind at 1, ST_bind at 1, on_queue. rewrite Hq. set (s1 := MkScheduler _ _ q _ _ _).
    assert (inv limit s1) as H1.
    { split; [exact Hwf|]. exists l. split; [done|]. cbn in Hr. intros. apply Hr. lia. }
    unfold mbind, ST_bind. pose proof (resume_inv limit x s1 H1) as H2.
    destruct (resume_appends x s1) as (_ & _ & Hok). specialize (Hok l Hrq).
    destruct (resume x s1) as [s2 r]. cbn in *. subst r. by apply IH.
Qed.

(** What the kernel is in does not matter, nor what is on the record. *)
Lemma inv_ext n s s' :
  _callbacks s' = _callbacks s → _coro_queue s' = _coro_queue s →
  _queue_notification_fd s' = _queue_notification_fd s → inv n s → inv n s'.
Proof. unfold inv, wf_fds, registered. by intros -> -> ->. Qed.

Lemma drain_inv s :
  wf_fds s → own (_queue_notification_fd s) → (∃ l, repr (_coro_queue s) l) → inv 0 (drain s).1.
Proof.
  intros Hwf Ho [l Hl]. unfold drain, clear_eventfd, mbind, ST_bind, st_get, syscall.
  destruct (read_ok _ (kernel s) Ho) as (k & n & -> & Hn). rewrite decide_False by lia. cbn.
  apply drain_loop_inv. split; [exact Hwf|]. exists l. split; [done|]. cbn. unfold queue_size.
  rewrite (repr_size _ _ Hl). lia.
Qed.

Lemma dispatch_event_inv fd s s' : inv 0 s → dispatch_event fd s = (s', Ok ()) → inv 0 s'.
Proof.
  intros Hs. pose proof Hs as (Hwf & l & Hl & Hr). unfold dispatch_event.
  destruct (_callbacks s !! fd) as [[[c|] b]|] eqn:Hcb; [| |done].
  - assert (¬ own fd) as Ho by (intros Ho; by destruct (proj1 (proj2 Hwf) fd _ Ho Hcb)).
    assert (∀ s1, inv 0 s1 → ∀ s2 r, resume c s1 = (s2, r) → inv 0 s2) as Hres.
    { intros s1 H1 s2 r E. pose proof (resume_inv 0 c s1 H1) as H. by rewrite E in H. }
    unfold mbind, ST_bind. destruct b.
    + unfold epoll_remove, mbind, ST_bind, st_get. rewrite decide_True by eauto.
      unfold set_callbacks, st_modify, syscall. destruct (sys_epoll_del fd _) as [k [e|[]]].
      * by destruct (check_errno e).
      * cbn [_continue_polling _callbacks _coro_queue _queue_notification_fd kernel resumed].
        set (s1 := MkScheduler (_continue_polling s) (delete fd (_callbacks s)) (_coro_queue s) (_queue_notification_fd s) k (resumed s)).
        destruct (other_callback_wf fd None s s1 Ho) as [H1 H2]; auto.
        assert (inv 0 s1) as Hi1 by (split; [exact H1|]; exists l; auto).
        cbn [run_callback]. destruct (resume c s1) as [s2 [[]|e|]] eqn:E; [|done..]. intros [= <-]. by eapply Hres.
    + cbn. destruct (resume c s) as [s2 [[]|e|]] eqn:E; [|done..]. intros [= <-]. by eapply Hres.
  - pose proof (proj2 (proj2 Hwf) fd b Hcb) as Ho. destruct (proj1 (proj2 Hwf) fd _ Ho Hcb) as [Hfd [= ->]].
    unfold mbind, ST_bind. unfold epoll_remove, mbind, ST_bind, st_get. rewrite decide_True by eauto.
    unfold set_callbacks, st_modify, syscall. cbn [kernel]. destruct (del_ok fd (kernel s) Ho) as [k ->].
    cbn [run_callback]. cbn [_continue_polling _callbacks _coro_queue _queue_notification_fd kernel resumed].
        set (s1 := MkScheduler (_continue_polling s) (delete fd (_callbacks s)) (_coro_queue s) (_queue_notification_fd s) k (resumed s)).
    assert (inv 0 (drain s1).1) as Hd.
    { apply drain_inv; [|cbn; congruence|by exists l]. destruct Hwf as (H1 & H2 & H3). unfold wf_fds. cbn. split_and!; [done|..].
      - intros fd' x Ho' [_ Hx]%lookup_delete_Some. by apply H2.
      - intros fd' b [_ Hx]%lookup_delete_Some. by eapply H3. }
    destruct (drain s1) as [s2 [[]|e|]]; [|done..]. by intros [= <-].
Qed.

Lemma wait_inv t s s' n : inv 0 s → _wait t s = (s', Ok n) → inv 0 s'.
Proof.
  intros Hs. unfold _wait, mbind, ST_bind, syscall. destruct (sys_epoll_wait _ _ _) as [k [e|fds]].
  - by destruct (check_errno e).
  - destruct (decide _); [done|].
    set (s1 := MkScheduler _ _ _ _ k _). assert (inv 0 s1) as H1 by exact Hs. clearbody s1. clear Hs s.
    intros H. assert (for_each dispatch_event fds s1 = (s', Ok ())) as Hf
      by (destruct (for_each dispatch_event fds s1) as [s2 [[]|e|]]; [injection H as -> _; reflexivity|discriminate H..]).
    clear H. revert s1 H1 Hf. generalize fds. clear fds n0. induction fds as [|fd fds IH]; intros s1 H1; [by intros [= <-]|].
    cbn [for_each]. unfold mbind, ST_bind. destruct (dispatch_event fd s1) as [s2 [[]|e|]] eqn:E; [|done..].
    apply IH. by eapply dispatch_event_inv.
Qed.

Lemma run_loop_inv fuel s s' :
  inv 0 s → run_loop fuel s = Some (s', Ok ()) → inv 0 s' ∧ (_continue_polling s' = false ∨ _callbacks s' = ∅).
Proof.
  revert s. induction fuel as [|fuel IH]; intros s Hs; cbn [run_loop];
    destruct (_continue_polling s && has_pending_items s) eqn:E; try done.
  2: { destruct (wait s) as [s1 [n|e|]] eqn:Ew; [|done..]. apply IH. by eapply wait_inv. }
  all: intros [= <-]; split; [done|]; apply andb_false_iff in E as [?|E]; [by left|right];
    unfold has_pending_items in E; by apply negb_false_iff, bool_decide_eq_true in E.
Qed.

(** The loop is left when it was stopped or nothing is queued. *)
Lemma run_loop_stops fuel s s' :
  inv 0 s → run_loop fuel s = Some (s', Ok ()) → _continue_polling s' = false ∨ queue_empty (_coro_queue s') = true.
Proof.
  intros Hs Hrun. apply run_loop_inv in Hrun as [(Hwf & l & Hl & Hr) [?|Hc]]; [by left|right|done].
  unfold queue_empty, CircularQueue.queue_size. rewrite (repr_size _ _ Hl). destruct l as [|x l]; [done|].
  destruct Hr as [_ Hr]; [cbn; lia|]. by rewrite Hc, lookup_empty in Hr.
Qed.

Lemma make_scheduler_inv size k : inv 0 (make_scheduler size k).
Proof.
  split; [|exists []; split; [apply repr_make|cbn; lia]]. unfold wf_fds. cbn. split_and!; [by left|..];
    intros fd x; by rewrite lookup_empty.
Qed.

(** * The loop ends when the coroutines do *)

(** An eventfd that was written to is reported until it is read, and with
    nothing else registered it is what [epoll_wait] reports. *)
Context (readable : Z → K → Prop).
Hypothesis write_readable : ∀ fd k k' n, own fd → sys_write fd k = (k', inr n) → readable fd k'.
Hypothesis wait_readable : ∀ fd t k, own fd → readable fd k → ∃ k', sys_epoll_wait lw_epoll_event_buffer_size t k = (k', inr [fd]).
Hypothesis buffer_positive : 0 < lw_epoll_event_buffer_size.

(** Only [coros] do anything, and each only in its first [steps] resumptions;
    nothing waits for descriptors. *)
Context (coros : list coro) (steps : nat).
Hypothesis program_ends : ∀ c n, c ∉ coros ∨ steps ≤ n → program c n = [].
Definition plain_action (a : action) : Prop := match a with AwaitEvents _ _ _ => False | _ => True end.
Hypothesis program_plain : ∀ c n, Forall plain_action (program c n).

Definition resumptions (c : coro) (h : list coro) : nat := length (filter (λ d, d = c) h).
Definition remaining (c : coro) (k : nat) : nat := sum_list ((λ n, length (program c n)) <$> seq k (steps - k)).

(** The actions still to come after the resumptions [h]. *)
Definition todo (h : list coro) : nat := sum_list ((λ c, remaining c (resumptions c h)) <$> coros).

Lemma sum_list_app (l1 l2 : list nat) : sum_list (l1 ++ l2) = sum_list l1 + sum_list l2.
Proof. induction l1; cbn; lia. Qed.

Lemma remaining_step c k : remaining c k = length (program c k) + remaining c (S k).
Proof.
  unfold remaining. destruct (decide (steps ≤ k)) as [Hk|Hk].
  - rewrite program_ends by auto. by replace (steps - S k) with (steps - k) by lia; replace (steps - k) with 0 by lia.
  - by replace (steps - k) with (S (steps - S k)) by lia.
Qed.

Lemma todo_step c h : todo (h ++ [c]) + length (program c (resumptions c h)) ≤ todo h.
Proof.
  assert (∀ d, remaining d (resumptions d (h ++ [c])) ≤ remaining d (resumptions d h) ∧
    remaining c (resumptions c (h ++ [c])) + length (program c (resumptions c h)) = remaining c (resumptions c h)) as Hd.
  { intros d. assert (resumptions c (h ++ [c]) = S (resumptions c h)) as Hc
      by (unfold resumptions; rewrite filter_app, length_app, filter_cons_True by done; cbn; lia).
    pose proof (remaining_step c (resumptions c h)). rewrite Hc. split; [|lia].
    destruct (decide (c = d)) as [<-|Hne]; [rewrite Hc; lia|]. unfold resumptions.
    by rewrite filter_app, filter_cons_False, app_nil_r. }
  assert (∀ l, sum_list ((λ d, remaining d (resumptions d (h ++ [c]))) <$> l) ≤
    sum_list ((λ d, remaining d (resumptions d h)) <$> l)) as Hl.
  { induction l as [|x l IH]; [done|]. cbn. destruct (Hd x). lia. }
  unfold todo. destruct (decide (c ∈ coros)) as [Hin|Hout].
  - apply list_elem_of_split in Hin as (l1 & l2 & ->). rewrite !fmap_app, !sum_list_app. cbn.
    destruct (Hd c). pose proof (Hl l1). pose proof (Hl l2). lia.
  - rewrite program_ends by auto. pose proof (Hl coros). cbn. lia.
Qed.

(** Nothing but the wake-up is registered, and then it was written to. *)
Definition plain (s : Scheduler) : Prop :=
  (_queue_notification_fd s = 0%Z ∨ own (_queue_notification_fd s)) ∧
  (_callbacks s = ∅ ∨ own (_queue_notification_fd s) ∧ readable (_queue_notification_fd s) (kernel s) ∧
     _callbacks s = {[_queue_notification_fd s := (DrainQueue, true)]}).

Lemma drain_registration_plain s : plain s → ∃ s', _schedule_queue_drain s = (s', Ok ()) ∧ plain s'.
Proof.
  intros [Hfd Hcb]. unfold _schedule_queue_drain. unfold mbind at 1, ST_bind at 1, st_get.
  assert (∃ s1, (if decide (_queue_notification_fd s = 0%Z) then create_eventfd ≫= λ fd, set_notification_fd fd
      else mret ()) s = (s1, Ok ()) ∧ own (_queue_notification_fd s1) ∧
      (_callbacks s1 = ∅ ∨ _callbacks s1 = {[_queue_notification_fd s1 := (DrainQueue, true)]})) as (s1 & E1 & Ho & Hc).
  { destruct Hfd as [H0|H0].
    - rewrite decide_True by done. unfold create_eventfd, mbind, ST_bind, syscall.
      destruct (eventfd_ok (kernel s)) as (k & fd & -> & Ho). pose proof (own_positive _ Ho).
      rewrite decide_False by lia. eexists. split; [reflexivity|]. cbn. split; [done|].
      destruct Hcb as [->|(Hf & _)]; [by left|]. rewrite H0 in Hf. by apply own_positive in Hf.
    - pose proof (own_positive _ H0). rewrite decide_False by lia. exists s. split_and!; [done..|]. destruct Hcb; naive_solver. }
  unfold mbind at 1, ST_bind at 1. rewrite E1. unfold mbind at 1, ST_bind at 1.
  assert (∃ s2, register_drain (_queue_notification_fd s1) s1 = (s2, Ok ()) ∧ _queue_notification_fd s2 = _queue_notification_fd s1 ∧
      _callbacks s2 = {[_queue_notification_fd s1 := (DrainQueue, true)]}) as (s2 & E2 & Hf2 & Hc2).
  { unfold register_drain, epoll_add, mbind, ST_bind, st_get. destruct Hc as [Hc|Hc]; rewrite Hc.
    - rewrite decide_False by (rewrite lookup_empty; by intros []). unfold syscall.
      destruct (add_ok (_queue_notification_fd s1) (co_event_to_epoll_event (event_or READABLE ONE_SHOT)) (kernel s1) Ho) as [k ->].
      eexists. split; [reflexivity|]. done.
    - rewrite decide_True by (rewrite lookup_singleton_eq; eauto). cbn. rewrite decide_True by done. by exists s1. }
  unfold mbind at 1, ST_bind at 1. rewrite E2. unfold ping_eventfd, mbind, ST_bind, syscall.
  destruct (write_ok (_queue_notification_fd s1) (kernel s2) Ho) as (k & n & E & Hn). rewrite E.
  rewrite decide_False by lia. eexists. split; [reflexivity|]. split; cbn; rewrite Hf2; [by right|right]. split_and!; [done|by eapply write_readable|done].
Qed.

(** Some actions done: at most [n] coroutines were added behind the queue, none
    was resumed, and the registration is still [plain]. *)
Definition plain_growth (n : nat) (s s' : Scheduler) : Prop :=
  plain s' ∧ resumed s' = resumed s ∧
  ∀ l, repr (_coro_queue s) l → ∃ added, repr (_coro_queue s') (l ++ added) ∧ length added ≤ n.

Lemma drain_registration_growth s :
  plain s → ∃ s', _schedule_queue_drain s = (s', Ok ()) ∧ plain s' ∧ resumed s' = resumed s ∧ _coro_queue s' = _coro_queue s.
Proof.
  intros Hs. destruct (drain_registration_plain s Hs) as (s' & E & Hs').
  pose proof (keeps_drain_registration s) as (Hq & Hr & _). rewrite E in Hq, Hr. by exists s'.
Qed.

Lemma do_action_plain a s : plain_action a → plain s → (∃ l, repr (_coro_queue s) l) → plain_growth 1 s (do_action a s).1.
Proof.
  intros Ha Hs [l Hl]. destruct a as [c|c fd ev|]; [| |]; cbn [do_action plain_action] in *; [|done|].
  - unfold _add_to_queue, mbind, ST_bind, on_queue. unfold plain_growth. destruct (push_back_repr c _ l Hl) as [[E H]|[E H]];
      destruct (push_back c (_coro_queue s)) as [q r]; cbn [fst snd] in *; subst r.
    + split_and!; [exact Hs|done|]. intros l' Hl'. exists []. cbn. rewrite app_nil_r. split; [|lia].
      by rewrite (repr_unique _ _ _ Hl' Hl).
    + destruct (drain_registration_growth (MkScheduler (_continue_polling s) (_callbacks s) q (_queue_notification_fd s) (kernel s) (resumed s)) Hs)
        as (s' & -> & Hp & Hr & Hq). split_and!; [done..|]. intros l' Hl'. exists [c]. cbn [fst]. rewrite Hq.
      rewrite (repr_unique _ _ _ Hl' Hl). by split.
  - unfold stop, mbind, ST_bind, set_polling, st_modify.
    destruct (drain_registration_growth (MkScheduler false (_callbacks s) (_coro_queue s) (_queue_notification_fd s) (kernel s) (resumed s)) Hs)
      as (s' & -> & Hp & Hr & Hq). split_and!; [done..|]. intros l' Hl'. exists []. cbn. rewrite Hq, app_nil_r. split; [done|lia].
Qed.

Lemma do_actions_plain acts s :
  Forall plain_action acts → plain s → (∃ l, repr (_coro_queue s) l) → plain_growth (length acts) s (for_each do_action acts s).1.
Proof.
  intros H. revert s. induction H as [|a acts Ha _ IH]; intros s Hs Hl.
  - split_and!; [done..|]. intros l Hl'. exists []. cbn. by rewrite app_nil_r.
  - cbn [for_each]. unfold mbind, ST_bind. destruct (do_action_plain a s Ha Hs Hl) as (H1 & H2 & H3).
    destruct Hl as [l Hl]. destruct (H3 l Hl) as (x & Hx & Hlen).
    destruct (do_action a s) as [s1 [[]|e|]]; cbn [fst] in *.
    + destruct (IH s1 H1) as (H4 & H5 & H6); [eauto|]. split_and!; [done|congruence|]. intros l' Hl'.
      rewrite (repr_unique _ _ _ Hl' Hl). destruct (H6 _ Hx) as (y & Hy & Hlen'). exists (x ++ y).
      rewrite app_assoc, length_app. cbn. split; [done|lia].
    + split_and!; [done..|]. intros l' Hl'. rewrite (repr_unique _ _ _ Hl' Hl). exists x. cbn. split; [done|lia].
    + split_and!; [done..|]. intros l' Hl'. rewrite (repr_unique _ _ _ Hl' Hl). exists x. cbn. split; [done|lia].
Qed.

(** How much there is left to resume at most. *)
Definition load (l : list coro) (s : Scheduler) : nat := length l + todo (resumed s).

(** Resuming a coroutine takes its place in the load, whatever it adds. *)
Lemma resume_plain c s l :
  plain s → repr (_coro_queue s) l →
  ∃ s' added, resume c s = (s', Ok ()) ∧ plain s' ∧ repr (_coro_queue s') (l ++ added) ∧ load (l ++ added) s' ≤ load l s.
Proof.
  intros Hs Hl. destruct (resume_appends c s) as (_ & Hr & Hok). specialize (Hok l Hl). unfold resume, mbind, ST_bind, record_resumed, st_modify in *.
  set (s1 := MkScheduler _ _ _ _ _ _) in *. set (acts := program _ _) in *.
  destruct (do_actions_plain acts s1 (program_plain _ _) Hs) as (H1 & H2 & H3); [by exists l|].
  destruct (H3 l Hl) as (x & Hx & Hlen). pose proof (todo_step c (resumed s)) as Ht.
  change (program c (resumptions c (resumed s))) with acts in Ht.
  destruct (for_each do_action acts s1) as [s2 r]; cbn [fst snd] in *. exists s2, x. split; [by destruct r|].
  split_and!; [done..|]. unfold load. rewrite H2. cbn. rewrite length_app. lia.
Qed.

Lemma drain_loop_plain : ∀ now later s,
  plain s → repr (_coro_queue s) (now ++ later) →
  ∃ s' added, drain_loop (length now) s = (s', Ok ()) ∧ plain s' ∧ repr (_coro_queue s') (later ++ added) ∧
    load (later ++ added) s' + length now ≤ load (now ++ later) s.
Proof.
  induction now as [|c now IH]; intros later s Hs Hr; cbn [length drain_loop].
  - exists s, []. rewrite app_nil_r. split_and!; [done..|rewrite app_nil_l; lia].
  - unfold mbind at 1, ST_bind at 1, st_get. unfold queue_empty, queue_size. rewrite (repr_size _ _ Hr).
    rewrite bool_decide_false by done.
    pose proof (pop_repr _ _ Hr) as Hpop. cbn [app] in Hpop. destruct Hpop as (q & Hq & Hrq & _).
    unfold mbind at 1, ST_bind at 1, on_queue. rewrite Hq.
    set (s1 := MkScheduler _ _ q _ _ _). unfold mbind, ST_bind.
    destruct (resume_plain c s1 (now ++ later) Hs Hrq) as (s2 & x & -> & H1 & H2 & H3). rewrite <- app_assoc in H2, H3.
    destruct (IH _ s2 H1 H2) as (s' & y & -> & H4 & H5 & H6). exists s', (x ++ y). rewrite app_assoc.
    split_and!; [done..|]. change (load (now ++ later) s1) with (load (now ++ later) s) in H3. unfold load in *. cbn [app length]. lia.
Qed.

(** One turn of the loop with a wake-up pending. *)
Lemma wait_plain s l :
  plain s → repr (_coro_queue s) l → _callbacks s ≠ ∅ →
  ∃ s' n l', wait s = (s', Ok n) ∧ plain s' ∧ repr (_coro_queue s') l' ∧ load l' s' + length l ≤ load l s ∧
    (l = [] → _callbacks s' = ∅).
Proof.
  intros [Hfd Hcb] Hl Hne. destruct Hcb as [?|(Ho & Hrd & Hcb)]; [done|]. unfold wait, _wait, mbind at 1, ST_bind at 1, syscall at 1.
  destruct (wait_readable _ (-1) (kernel s) Ho Hrd) as [k1 ->]. cbn [length].
  rewrite decide_False by lia. unfold mbind, ST_bind. cbn [for_each]. unfold mbind at 1, ST_bind at 1, dispatch_event.
  cbn [_callbacks]. rewrite Hcb, lookup_singleton_eq. unfold mbind at 1, ST_bind at 1, epoll_remove.
  unfold mbind at 1, ST_bind at 1, st_get. cbn [_callbacks]. rewrite decide_True by (rewrite ?Hcb, ?lookup_singleton_eq; eauto).
  unfold mbind at 1, ST_bind at 1, set_callbacks, st_modify, syscall at 1. cbn [kernel].
  destruct (del_ok _ k1 Ho) as [k2 ->]. cbn [run_callback]. unfold drain.
  unfold mbind at 1, ST_bind at 1, st_get. unfold mbind at 1, ST_bind at 1, clear_eventfd, mbind at 1, ST_bind at 1, syscall at 1.
  cbn [kernel _queue_notification_fd]. destruct (read_ok _ k2 Ho) as (k3 & n & -> & Hn). rewrite decide_False by lia.
  cbn [_continue_polling _callbacks _coro_queue _queue_notification_fd kernel resumed mret ST_ret].
  set (s1 := MkScheduler _ _ _ _ k3 _). unfold mbind at 1, ST_bind at 1. cbn. unfold queue_size. rewrite (repr_size _ _ Hl).
  assert (_callbacks s1 = ∅) as Hc1 by (cbn; by rewrite ?Hcb, delete_singleton_eq).
  destruct (drain_loop_plain l [] s1) as (s2 & x & E & H1 & H2 & H3).
  { split; [exact Hfd|by left]. }
  { by rewrite app_nil_r. }
  rewrite E. exists s2, 1, x. split_and!; try done.
  - rewrite app_nil_r in H3. done.
  - intros ->. cbn in E. by injection E as <-.
Qed.

Lemma run_loop_plain fuel s l :
  plain s → repr (_coro_queue s) l → load l s < fuel → ∃ s', run_loop fuel s = Some (s', Ok ()).
Proof.
  revert s l. induction fuel as [|fuel IH]; intros s l Hs Hl Hlt; [lia|]. cbn [run_loop].
  destruct (_continue_polling s && has_pending_items s) eqn:E; [|by eexists].
  apply andb_true_iff in E as [_ E]. unfold has_pending_items in E. apply negb_true_iff, bool_decide_eq_false in E.
  destruct (wait_plain s l Hs Hl E) as (s' & n & l' & -> & H1 & H2 & H3 & H4).
  destruct l as [|x l]; [|apply (IH s' l'); [done..|]; rewrite length_cons in H3; lia].
  specialize (H4 eq_refl). exists s'. destruct fuel; cbn [run_loop]; unfold has_pending_items;
    by rewrite H4, bool_decide_true, andb_false_r.
Qed.

Lemma start_plain setup size k :
  Forall plain_action setup →
  plain (for_each do_action setup (make_scheduler size k)).1 ∧
  ∃ l, repr (_coro_queue (for_each do_action setup (make_scheduler size k)).1) l ∧
    load l (for_each do_action setup (make_scheduler size k)).1 ≤ length setup + todo [].
Proof.
  intros Hs. destruct (do_actions_plain setup (make_scheduler size k) Hs) as (H1 & H2 & H3).
  { split; [by left|by left]. }
  { exists []. apply repr_make. }
  split; [done|]. destruct (H3 [] (repr_make size)) as (l & Hl & Hlen). exists l. split; [done|]. unfold load.
  rewrite H2. cbn. lia.
Qed.

End scheduler.

(** * Properties *)

(** A wake-up resumes exactly the coroutines that were in the queue when it
    began, each once and in the order they were scheduled; what they schedule
    themselves waits behind, in the queue. *)
Theorem drain_resumes_in_order {K} `{!Kernel K} (program : coro → nat → list action) (s : Scheduler (K := K)) (l : list coro) :
  repr (_coro_queue s) l → (clear_eventfd (_queue_notification_fd s) s).2 = Ok () →
  ∃ s', drain program s = (s', Ok ()) ∧ resumed s' = resumed s ++ l ∧ ∃ added, repr (_coro_queue s') added.
Proof.
  intros Hl Hc. unfold drain, mbind, ST_bind, st_get.
  pose proof (keeps_clear_eventfd (_queue_notification_fd s) s) as (H1 & H2 & _).
  destruct (clear_eventfd _ s) as [s1 r]. cbn in *. subst r. rewrite <- H1 in Hl. unfold queue_size.
  rewrite (repr_size _ _ Hl). destruct (drain_loop_spec program l s1 []) as (s' & E & Hr & added & Ha);
    [by rewrite app_nil_r|]. exists s'. split; [done|]. split; [by rewrite Hr, H2|by exists added].
Qed.

(** No coroutine is forgotten in the queue: from a new scheduler on which any
    coroutines were scheduled, and whatever these do, [run] only returns when it
    was told to stop or the queue is empty, provided calls on the scheduler's
    own eventfd succeed and coroutines do not await that descriptor. *)
Theorem run_empties_queue {K} `{!Kernel K} (buffer_size queue_size : nat) (program : coro → nat → list action)
    (own : Z → Prop) (k : K) (setup : list action) (r : registry) (thread self fuel : nat) (s' : Scheduler) :
  (∀ fd, own fd → (0 < fd)%Z) →
  (∀ k, ∃ k' fd, sys_eventfd k = (k', inr fd) ∧ own fd) →
  (∀ fd k, own fd → ∃ k' n, sys_read fd k = (k', inr n) ∧ 8 ≤ n) →
  (∀ fd k, own fd → ∃ k' n, sys_write fd k = (k', inr n) ∧ 8 ≤ n) →
  (∀ fd ev k, own fd → ∃ k', sys_epoll_add fd ev k = (k', inr ())) →
  (∀ fd k, own fd → ∃ k', sys_epoll_del fd k = (k', inr ())) →
  (∀ c n, Forall (wf_action own) (program c n)) → Forall (wf_action own) setup →
  run buffer_size program r thread self fuel (for_each do_action setup (make_scheduler queue_size k)).1 = Some (s', Ok ()) →
  _continue_polling s' = false ∨ queue_empty (_coro_queue s') = true.
Proof.
  intros H1 H2 H3 H4 H5 H6 H7 H8 Hrun. unfold run in Hrun. destruct (decide _); [|done].
  eapply (run_loop_stops buffer_size program own); try done. eapply inv_ext, do_actions_inv; try done. apply make_scheduler_inv.
Qed.


(** * Examples *)

(** A kernel with one eventfd, number 3, whose state is its counter; waiting
    reports it when it is readable. *)
#[export] Instance toy_kernel : Kernel nat := {|
  EPOLLIN := 1; EPOLLOUT := 4; EPOLLRDHUP := 8192; EPOLLHUP := 16; EPOLLPRI := 2;
  EPOLLERR := 8; EPOLLET := 2147483648; EPOLLONESHOT := 1073741824;
  EPOLLWAKEUP := 536870912; EPOLLEXCLUSIVE := 268435456;
  sys_eventfd := λ k, (0, inr 3%Z);
  sys_read := λ fd k, (0, inr 8);
  sys_write := λ fd k, (S k, inr 8);
  sys_epoll_add := λ fd ev k, (k, inr ());
  sys_epoll_del := λ fd k, (k, inr ());
  sys_epoll_wait := λ n t k, (k, inr (if decide (k = 0) then [] else [3%Z]))
|}.

(** Coroutine 1 schedules 5 when it first runs; the others do nothing. *)
Definition toy_program (c : coro) (n : nat) : list action :=
  match c, n with 1, 0 => [Schedule 5] | _, _ => [] end.
Definition toy_start : Scheduler (K := nat) :=
  (for_each do_action [Schedule 1; Schedule 2] (make_scheduler 10 0)).1.

Lemma drain_resumes_in_order_witness :
  ∃ s', drain toy_program toy_start = (s', Ok ()) ∧ resumed s' = [1; 2] ∧ ∃ added, repr (_coro_queue s') added.
Proof.
  apply (drain_resumes_in_order toy_program toy_start [1; 2]); [|by vm_compute].
  split; try (vm_compute; lia || done). intros [|[|i]] x; vm_compute; [by intros [= <-]|by intros [= <-]|done].
Defined.

Definition toy_registry : registry := (this_thread 7 (MkRegistry ∅ 0)).1.

Lemma run_empties_queue_witness :
  ∃ s', run 4 toy_program toy_registry 7 0 5 toy_start = Some (s', Ok ()) ∧ resumed s' = [1; 2; 5] ∧
    (_continue_polling s' = false ∨ queue_empty (_coro_queue s') = true).
Proof.
  destruct (run 4 toy_program toy_registry 7 0 5 toy_start) as [[s' r]|] eqn:E; [|by vm_compute in E].
  pose proof (run_empties_queue 4 10 toy_program (λ fd, fd = 3%Z) 0 [Schedule 1; Schedule 2] toy_registry 7 0 5 s') as H.
  assert (r = Ok () ∧ resumed s' = [1; 2; 5]) as [-> Hr] by (vm_compute in E; by injection E as <- <-).
  exists s'. split_and!; [done|exact Hr|]. apply H; [intros; lia|eauto..| | |exact E].
  - intros c n. unfold toy_program. destruct c as [|[|]]; [done| |done]. by destruct n; repeat constructor.
  - by repeat constructor.
Defined.

