(* ===== verification/Threads.v ===== *)
(** The schedulers of a program's threads as owners of descriptors: making and
    destroying [EPoll] and [Scheduler] (lw/co/systems/epoll, lw/co/scheduler), and
    the table of schedulers by thread. *)
From stdpp Require Import gmap.
From S2P Require Import Prelude Errors CircularQueue Scheduler.

(** * The kernel's descriptors *)

(** The two calls a scheduler's life begins and ends with, and the descriptors a
    process has open. *)
Class Descriptors (K : Type) := {
  sys_epoll_create : K → K * (Z + Z);
  sys_close : Z → K → K;
  open_fds : K → gset Z;
}.

(** epoll_create(2), eventfd(2) and close(2); the other calls open and close
    nothing. *)
Definition opens {K} `{!Descriptors K} (f : K → K * (Z + Z)) : Prop := ∀ k, let '(k', r) := f k in
  match r with
  | inl _ => open_fds k' = open_fds k
  | inr fd => (0 ≤ fd)%Z ∧ (fd ∉ open_fds k) ∧ open_fds k' = {[fd]} ∪ open_fds k
  end.
Class DescriptorLaws (K : Type) `{!Kernel K, !Descriptors K} := {
  epoll_create_opens : opens sys_epoll_create;
  eventfd_opens : opens sys_eventfd;
  close_closes fd k : open_fds (sys_close fd k) = open_fds k ∖ {[fd]};
  read_keeps fd k : open_fds (sys_read fd k).1 = open_fds k;
  write_keeps fd k : open_fds (sys_write fd k).1 = open_fds k;
  epoll_add_keeps fd ev k : open_fds (sys_epoll_add fd ev k).1 = open_fds k;
  epoll_del_keeps fd k : open_fds (sys_epoll_del fd k).1 = open_fds k;
  epoll_wait_keeps n t k : open_fds (sys_epoll_wait n t k).1 = open_fds k;
}.

Section threads.
Context {K : Type} `{!Kernel K, !Descriptors K} (buffer_size queue_size : nat).
Context (program : coro → nat → list action).

(** * The objects *)

(** [EPoll::EPoll()]: the descriptor, which is zero or less only by mistake. *)
Definition EPoll_create : ST K Z := λ k,
  match sys_epoll_create k with
  | (k, inl err) => (k, match check_errno err with Throw e => Throw e | _ => throw Internal end)
  | (k, inr fd) => (k, if decide (fd ≤ 0)%Z then throw Internal else Ok fd)
  end.
(** [~EPoll]. *)
Definition EPoll_destroy (fd : Z) (k : K) : K := if decide (0 < fd)%Z then sys_close fd k else k.

(** A scheduler and the descriptor of its [EPoll].  All use the same kernel,
    which is put into the scheduler a call is made on. *)
Record entry := MkEntry { _epoll_fd : Z; state : Scheduler (K := K) }.
Record Threads := MkThreads { thread_schedulers : gmap nat entry; os : K }.

Definition with_kernel (k : K) (s : Scheduler (K := K)) : Scheduler :=
  MkScheduler (_continue_polling s) (_callbacks s) (_coro_queue s) (_queue_notification_fd s) k (resumed s).

Definition on_os {A} (m : ST K A) : ST Threads A := λ w,
  let '(k, r) := m (os w) in (MkThreads (thread_schedulers w) k, r).

(** [Scheduler::Scheduler()] on [thread]; when it throws, its [EPoll] goes. *)
Definition Scheduler_create (thread : nat) : ST Threads entry :=
  fd ← on_os EPoll_create;
  w ← st_get;
  if decide (is_Some (thread_schedulers w !! thread)) then
    on_os (st_modify (EPoll_destroy fd)) ≫= λ _, st_throw FailedPrecondition
  else mret (MkEntry fd (make_scheduler queue_size (os w))).

(** [~Scheduler], and then its members. *)
Definition Scheduler_destroy (e : entry) (k : K) : K :=
  EPoll_destroy (_epoll_fd e)
    (if decide (_queue_notification_fd (state e) = 0)%Z then k
     else sys_close (_queue_notification_fd (state e)) k).

(** [Scheduler::this_thread()] on [thread]. *)
Definition this_thread (thread : nat) : ST Threads () :=
  w ← st_get;
  match thread_schedulers w !! thread with
  | Some _ => mret ()
  | None =>
      e ← Scheduler_create thread;
      st_modify (λ w, MkThreads (<[thread := e]> (thread_schedulers w)) (os w))
  end.
(** [Scheduler::for_thread(thread)], with a call on the scheduler it returns. *)
Definition for_thread {A} (thread : nat) (m : ST (Scheduler (K := K)) A) : ST Threads A := λ w,
  match thread_schedulers w !! thread with
  | None => (w, throw NotFound)
  | Some e =>
      let '(s, r) := m (with_kernel (os w) (state e)) in
      (MkThreads (<[thread := MkEntry (_epoll_fd e) s]> (thread_schedulers w)) (kernel s), r)
  end.

(** [testing::destroy_scheduler] and [testing::destroy_all_schedulers]. *)
Definition destroy_scheduler (thread : nat) (w : Threads) : Threads :=
  match thread_schedulers w !! thread with
  | None => w
  | Some e => MkThreads (delete thread (thread_schedulers w)) (Scheduler_destroy e (os w))
  end.
Definition destroy_all_schedulers (w : Threads) : Threads :=
  foldr destroy_scheduler w (map_to_list (thread_schedulers w)).*1.

(** What the threads of a program do: ask for their scheduler, perform actions
    on it, run its loop, and end.  What is thrown is dropped. *)
Inductive thread_op := Enter (thread : nat) | Perform (thread : nat) (l : list action) | Run (thread fuel : nat) | End (thread : nat).
Definition thread_step (o : thread_op) (w : Threads) : option Threads :=
  match o with
  | Enter t => Some (this_thread t w).1
  | Perform t l => Some (for_thread t (for_each do_action l) w).1
  | Run t fuel =>
      match thread_schedulers w !! t with
      | None => Some w
      | Some e =>
          '(s, _) ← Scheduler.run buffer_size program (MkRegistry {[t := 0]} 1) t 0 fuel (with_kernel (os w) (state e));
          Some (MkThreads (<[t := MkEntry (_epoll_fd e) s]> (thread_schedulers w)) (kernel s))
      end
  | End t => Some (destroy_scheduler t w)
  end.
Fixpoint run_threads (ops : list thread_op) (w : Threads) : option Threads :=
  match ops with [] => Some w | o :: ops => w ← thread_step o w; run_threads ops w end.

(** * What a call on a scheduler opens *)

Context `{!DescriptorLaws K}.
Implicit Types s : Scheduler (K := K).

(** Nothing, or the descriptor that wakes the scheduler up, once. *)
Definition took s s' : Prop :=
  (_queue_notification_fd s' = _queue_notification_fd s ∧ open_fds (kernel s') = open_fds (kernel s)) ∨
  (_queue_notification_fd s = 0%Z ∧ _queue_notification_fd s' ≠ 0%Z ∧
   (_queue_notification_fd s' ∉ open_fds (kernel s)) ∧
   open_fds (kernel s') = {[_queue_notification_fd s']} ∪ open_fds (kernel s)).

Lemma took_refl s : took s s.
Proof. by left. Qed.
Lemma took_trans s1 s2 s3 : took s1 s2 → took s2 s3 → took s1 s3.
Proof.
  intros [[H1 H2]|(H1 & H2 & H3 & H4)] [[H5 H6]|(H5 & H6 & H7 & H8)]; [left; split; congruence| | |congruence].
  - right. rewrite <- H1, <- H2. done.
  - right. rewrite H5, H6. done.
Qed.
Lemma took_zero s s' : took s s' → 0%Z ∈ open_fds (kernel s) → 0%Z ∈ open_fds (kernel s').
Proof. intros [[_ ->]|(_ & _ & _ & ->)]; [done|set_solver]. Qed.

(** Calls made while descriptor 0 is open. *)
Definition frugal {A} (m : ST (Scheduler (K := K)) A) : Prop := ∀ s, 0%Z ∈ open_fds (kernel s) → took s (m s).1.

Lemma frugal_bind {A C} (m : ST Scheduler A) (k : A → ST Scheduler C) :
  frugal m → (∀ a, frugal (k a)) → frugal (m ≫= k).
Proof.
  intros Hm Hk s Hs. unfold mbind, ST_bind. specialize (Hm s Hs). destruct (m s) as [s1 [a|e|]]; [|done..].
  eapply took_trans; [exact Hm|]. apply Hk. by eapply took_zero.
Qed.
Lemma frugal_ret {A} (a : A) : frugal (mret a).
Proof. intros s _. apply took_refl. Qed.
Lemma frugal_get : frugal st_get.
Proof. intros s _. apply took_refl. Qed.
Lemma frugal_throw {A} k : frugal (A := A) (st_throw k).
Proof. intros s _. apply took_refl. Qed.
Lemma frugal_set_callbacks m : frugal (set_callbacks m).
Proof. intros s _. by left. Qed.
Lemma frugal_set_polling b : frugal (set_polling b).
Proof. intros s _. by left. Qed.
Lemma frugal_record c : frugal (record_resumed c).
Proof. intros s _. by left. Qed.
Lemma frugal_queue {A} (m : ST (CircularQueue coro) A) : frugal (on_queue m).
Proof. intros s _. unfold on_queue. destruct (m _). by left. Qed.
Lemma frugal_syscall {A} (f : K → K * (Z + A)) :
  (∀ k, open_fds (f k).1 = open_fds k) → frugal (syscall f).
Proof.
  intros Hf s _. unfold syscall. specialize (Hf (kernel s)). destruct (f (kernel s)) as [k [e|a]]; by left.
Qed.
#[local] Hint Resolve frugal_bind frugal_ret frugal_get frugal_throw frugal_set_callbacks frugal_set_polling
  frugal_record frugal_queue frugal_syscall read_keeps write_keeps epoll_add_keeps epoll_del_keeps epoll_wait_keeps : core.

Lemma frugal_for_each {A} (f : A → ST Scheduler ()) l : (∀ x, frugal (f x)) → frugal (for_each f l).
Proof. intros Hf. induction l as [|x l IH]; cbn; auto. Qed.

Lemma frugal_add fd ev cb : frugal (epoll_add fd ev cb).
Proof. unfold epoll_add. apply frugal_bind; [auto|]. intros s. destruct (decide _); auto. Qed.
Lemma frugal_remove fd : frugal (epoll_remove fd).
Proof. unfold epoll_remove. apply frugal_bind; [auto|]. intros s. destruct (decide _); auto. Qed.
Lemma frugal_register fd : frugal (register_drain fd).
Proof.
  intros s Hs. unfold register_drain.
  pose proof (frugal_add fd (event_or READABLE ONE_SHOT) DrainQueue s Hs) as H.
  by destruct (epoll_add _ _ _ s) as [s3 [[]|e|]].
Qed.

(** The descriptor is made when there is none. *)
Lemma took_eventfd s :
  0%Z ∈ open_fds (kernel s) → _queue_notification_fd s = 0%Z →
  took s ((create_eventfd ≫= λ fd, set_notification_fd fd) s).1.
Proof.
  intros Hs H0. unfold create_eventfd, mbind, ST_bind, syscall, set_notification_fd, st_modify.
  pose proof (eventfd_opens (kernel s)) as H. destruct (sys_eventfd (kernel s)) as [k [e|fd]]; [by left; destruct (check_errno e)|].
  destruct H as (Hpos & Hnew & Ho). assert (fd ≠ 0%Z) by (intros ->; done).
  rewrite decide_False by lia. right. by split_and!.
Qed.

Lemma frugal_drain_registration : frugal _schedule_queue_drain.
Proof.
  unfold _schedule_queue_drain. intros s Hs. unfold mbind at 1, ST_bind at 1, st_get at 1.
  set (make := if decide (_queue_notification_fd s = 0%Z) then _ else _).
  assert (took s (make s).1) as Hm.
  { unfold make. destruct (decide _); [by apply took_eventfd|by apply frugal_ret]. }
  unfold mbind at 1, ST_bind at 1. destruct (make s) as [s1 [[]|e|]]; [|done..].
  eapply took_trans; [exact Hm|]. apply frugal_bind; [auto| |by eapply took_zero].
  intros s2. apply frugal_bind; [apply frugal_register|]. intros _. unfold ping_eventfd.
  apply frugal_bind; [auto|]. intros n. destruct (decide (n < 8)); auto.
Qed.

Lemma frugal_action a : frugal (do_action a).
Proof.
  destruct a as [c|c fd ev|]; cbn [do_action].
  - unfold _add_to_queue. apply frugal_bind; [auto|]. intros _. apply frugal_drain_registration.
  - apply frugal_add.
  - unfold stop. apply frugal_bind; [auto|]. intros _. apply frugal_drain_registration.
Qed.

Lemma frugal_resume c : frugal (resume program c).
Proof.
  intros s Hs. unfold resume.
  set (m := record_resumed c ≫= λ _, for_each do_action _).
  assert (took s (m s).1) as Hm.
  { apply frugal_bind; [auto| |done]. intros _. apply frugal_for_each, frugal_action. }
  by destruct (m s) as [s1 [[]|e|]].
Qed.

Lemma frugal_drain_loop limit : frugal (drain_loop program limit).
Proof.
  induction limit as [|limit IH]; cbn [drain_loop]; [auto|]. apply frugal_bind; [auto|]. intros s.
  destruct (queue_empty _); [auto|]. apply frugal_bind; [auto|]. intros c.
  apply frugal_bind; [apply frugal_resume|auto].
Qed.

Lemma frugal_callback cb : frugal (run_callback program cb).
Proof.
  destruct cb as [c|]; cbn [run_callback]; [apply frugal_resume|]. unfold drain.
  apply frugal_bind; [auto|]. intros s. apply frugal_bind.
  - unfold clear_eventfd. apply frugal_bind; [auto|]. intros n. destruct (decide _); auto.
  - intros _. apply frugal_bind; [auto|]. intros s1. apply frugal_drain_loop.
Qed.

Lemma frugal_dispatch fd : frugal (dispatch_event program fd).
Proof.
  intros s Hs. unfold dispatch_event. destruct (_callbacks s !! fd) as [[cb one_shot]|]; [|apply took_refl].
  set (m := _ ≫= λ _, run_callback program cb).
  assert (took s (m s).1) as Hm.
  { apply frugal_bind; [destruct one_shot; [apply frugal_remove|auto]| |done]. intros _. apply frugal_callback. }
  by destruct (m s) as [s1 [[]|e|]].
Qed.

Lemma frugal_wait : frugal (wait buffer_size program).
Proof.
  unfold wait, _wait. apply frugal_bind; [auto|]. intros fds. destruct (decide _); [auto|].
  apply frugal_bind; [apply frugal_for_each, frugal_dispatch|auto].
Qed.

Lemma run_loop_took fuel : ∀ s s' r,
  0%Z ∈ open_fds (kernel s) → run_loop buffer_size program fuel s = Some (s', r) → took s s'.
Proof.
  induction fuel as [|fuel IH]; intros s s' r Hs; cbn [run_loop];
    (destruct (_continue_polling s && has_pending_items s); [|intros [= <- <-]; apply took_refl]); [done|].
  pose proof (frugal_wait s Hs) as Hw. destruct (wait buffer_size program s) as [s1 [n|e|]]; [|by intros [= <- <-]..].
  intros H. eapply took_trans; [exact Hw|]. eapply IH; [|exact H]. by eapply took_zero.
Qed.

Lemma run_took reg thread self fuel s s' r :
  0%Z ∈ open_fds (kernel s) → Scheduler.run buffer_size program reg thread self fuel s = Some (s', r) → took s s'.
Proof.
  intros Hs. unfold Scheduler.run. destruct (decide _); [|intros [= <- <-]; by left].
  intros H. apply run_loop_took in H; [|done]. eapply took_trans; [|exact H]. by left.
Qed.

(** * Who owns the descriptors *)

Definition own (e : entry) : gset Z :=
  {[_epoll_fd e]} ∪
  (if decide (_queue_notification_fd (state e) = 0%Z) then ∅ else {[_queue_notification_fd (state e)]}).

(** Beyond the descriptors open in [k0], exactly those of the schedulers are
    open, and each belongs to one. *)
Record owns (k0 : K) (w : Threads) : Prop := {
  owns_open x : x ∈ open_fds (os w) ↔ x ∈ open_fds k0 ∨ ∃ t e, thread_schedulers w !! t = Some e ∧ x ∈ own e;
  owns_new t e : thread_schedulers w !! t = Some e → own e ## open_fds k0;
  owns_apart t1 t2 e1 e2 : thread_schedulers w !! t1 = Some e1 → thread_schedulers w !! t2 = Some e2 →
    t1 ≠ t2 → own e1 ## own e2;
  owns_epoll t e : thread_schedulers w !! t = Some e →
    (0 < _epoll_fd e)%Z ∧ _epoll_fd e ≠ _queue_notification_fd (state e);
}.

Lemma owns_zero k0 w : owns k0 w → 0%Z ∈ open_fds k0 → 0%Z ∈ open_fds (os w).
Proof. intros H H0. apply (owns_open _ _ H). by left. Qed.

Lemma owned_open k0 w t e : owns k0 w → thread_schedulers w !! t = Some e → own e ⊆ open_fds (os w).
Proof. intros H He x Hx. apply (owns_open _ _ H). right. eauto. Qed.

(** An entry whose new descriptors were opened for it. *)
Lemma owns_insert k0 w t e k :
  owns k0 w → (0 < _epoll_fd e)%Z → _epoll_fd e ≠ _queue_notification_fd (state e) →
  (∀ e0, thread_schedulers w !! t = Some e0 → own e0 ⊆ own e) →
  (∀ x, x ∈ own e → x ∉ open_fds (os w) ∨ ∃ e0, thread_schedulers w !! t = Some e0 ∧ x ∈ own e0) →
  open_fds k = own e ∪ open_fds (os w) →
  owns k0 (MkThreads (<[t := e]> (thread_schedulers w)) k).
Proof.
  intros H Hpos Hne Hold Hnew Hk. pose proof (owns_open _ _ H) as Ho.
  assert (∀ t' e' x, t' ≠ t → thread_schedulers w !! t' = Some e' → x ∈ own e' → x ∉ own e) as Hap.
  { intros t' e' x Ht He' Hx Hxe. destruct (Hnew x Hxe) as [Hno|(e0 & He0 & Hx0)].
    - apply Hno. apply Ho. right. eauto.
    - by apply (owns_apart _ _ H t' t e' e0 He' He0 Ht x). }
  split; cbn [thread_schedulers os].
  - intros x. rewrite Hk, elem_of_union, Ho. split.
    + intros [Hx|[Hx|(t' & e' & He' & Hx)]]; [right; exists t, e; by rewrite lookup_insert_eq|by left|right].
      destruct (decide (t' = t)) as [->|Ht].
      * exists t, e. rewrite lookup_insert_eq. split; [done|]. by eapply Hold.
      * exists t', e'. by rewrite lookup_insert_ne.
    + intros [Hx|(t' & e' & He' & Hx)]; [auto|]. destruct (decide (t' = t)) as [->|Ht].
      * rewrite lookup_insert_eq in He'. injection He' as <-. by left.
      * rewrite lookup_insert_ne in He' by done. right. right. eauto.
  - intros t' e'. destruct (decide (t' = t)) as [->|Ht].
    + rewrite lookup_insert_eq. intros [= <-] x Hx H0. destruct (Hnew x Hx) as [Hno|(e0 & He0 & Hx0)].
      * apply Hno, Ho. by left.
      * by apply (owns_new _ _ H t e0 He0 x).
    + rewrite lookup_insert_ne by done. apply (owns_new _ _ H).
  - intros t1 t2 e1 e2. destruct (decide (t1 = t)) as [->|H1], (decide (t2 = t)) as [->|H2];
      rewrite ?lookup_insert_eq, ?lookup_insert_ne by done; [done| | |apply (owns_apart _ _ H)].
    + intros [= <-] He2 _ x Hx Hx2. by apply (Hap t2 e2 x).
    + intros He1 [= <-] _ x Hx1 Hx. by apply (Hap t1 e1 x).
  - intros t' e'. destruct (decide (t' = t)) as [->|Ht].
    + rewrite lookup_insert_eq. by intros [= <-].
    + rewrite lookup_insert_ne by done. apply (owns_epoll _ _ H).
Qed.

(** A call on the scheduler of a thread. *)
Lemma owns_took k0 w t e s :
  owns k0 w → thread_schedulers w !! t = Some e → took (with_kernel (os w) (state e)) s →
  owns k0 (MkThreads (<[t := MkEntry (_epoll_fd e) s]> (thread_schedulers w)) (kernel s)).
Proof.
  intros H He Ht. destruct (owns_epoll _ _ H t e He) as [Hpos Hne]. pose proof (owned_open _ _ _ _ H He) as Hsub.
  destruct Ht as [[Hn Hk]|(H0 & Hn & Hnew & Hk)]; cbn [with_kernel _queue_notification_fd kernel] in *.
  - assert (own (MkEntry (_epoll_fd e) s) = own e) as Hown by (unfold own; cbn; by rewrite Hn).
    apply owns_insert; [done|done|cbn; congruence|..].
    + intros e0 He0. rewrite He0 in He. injection He as ->. by rewrite Hown.
    + intros x Hx. rewrite Hown in Hx. right. eauto.
    + rewrite Hown, Hk. set_solver.
  - assert (own (MkEntry (_epoll_fd e) s) = {[_queue_notification_fd s]} ∪ own e) as Hown.
    { unfold own. cbn. rewrite H0, decide_False, decide_True by done. set_solver. }
    assert (_epoll_fd e ∈ own e) by (unfold own; set_solver).
    apply owns_insert; [done|done| |..].
    + cbn. intros E. apply Hnew. rewrite <- E. by apply Hsub.
    + intros e0 He0. rewrite He0 in He. injection He as ->. rewrite Hown. set_solver.
    + intros x Hx. rewrite Hown in Hx. apply elem_of_union in Hx as [Hx|Hx]; [left|right; eauto].
      apply elem_of_singleton in Hx as ->. done.
    + rewrite Hown, Hk. set_solver.
Qed.

Lemma owns_same k0 w k : owns k0 w → open_fds k = open_fds (os w) → owns k0 (MkThreads (thread_schedulers w) k).
Proof. intros [H1 H2 H3 H4] Hk. split; [|done..]. intros x. cbn [os thread_schedulers]. by rewrite Hk. Qed.

Lemma this_thread_owns k0 t w :
  owns k0 w → 0%Z ∈ open_fds k0 → owns k0 (this_thread t w).1.
Proof.
  intros H H0. unfold this_thread, Scheduler_create, EPoll_create, on_os, mbind, ST_bind, st_get, st_modify.
  destruct (thread_schedulers w !! t) as [e|] eqn:Ht; [done|].
  pose proof (epoll_create_opens (os w)) as Hc. pose proof (owns_zero _ _ H H0) as Hz.
  destruct (sys_epoll_create (os w)) as [k [err|fd]].
  - destruct (check_errno err); by apply owns_same.
  - destruct Hc as (Hpos & Hnew & Ho). assert (fd ≠ 0%Z) by (intros ->; done).
    rewrite decide_False by lia. cbn [thread_schedulers fst snd]. rewrite Ht.
    rewrite decide_False by (intros [? [=]]). unfold mret, ST_ret. cbn [fst thread_schedulers os].
    assert (own (MkEntry fd (make_scheduler queue_size k)) = {[fd]}) as Hown by (unfold own; cbn; set_solver).
    apply owns_insert; [done|cbn; lia|done|..].
    + intros e0. by rewrite Ht.
    + rewrite Hown. intros x ->%elem_of_singleton. by left.
    + by rewrite Hown.
Qed.

Lemma destroy_closes k0 w t e k :
  owns k0 w → thread_schedulers w !! t = Some e → open_fds (Scheduler_destroy e k) = open_fds k ∖ own e.
Proof.
  intros H He. destruct (owns_epoll _ _ H t e He) as [Hpos _].
  unfold Scheduler_destroy, EPoll_destroy, own. rewrite decide_True by done. rewrite close_closes.
  destruct (decide _); rewrite ?close_closes; set_solver.
Qed.

Lemma destroy_owns k0 t w : owns k0 w → owns k0 (destroy_scheduler t w).
Proof.
  intros H. unfold destroy_scheduler. destruct (thread_schedulers w !! t) as [e|] eqn:He; [|done].
  pose proof (destroy_closes k0 w t e (os w) H He) as Hd. split; cbn [thread_schedulers os].
  - intros x. rewrite Hd, elem_of_difference, (owns_open _ _ H). split.
    + intros [[Hx|(t' & e' & He' & Hx)] Hno]; [by left|right]. exists t', e'. split; [|done].
      rewrite lookup_delete_ne; [done|]. intros ->. rewrite He in He'. by injection He' as <-.
    + intros [Hx|(t' & e' & He' & Hx)].
      * split; [by left|]. intros Hxe. by apply (owns_new _ _ H t e He x).
      * apply lookup_delete_Some in He' as [Hne He']. split; [right; eauto|].
        intros Hxe. by apply (owns_apart _ _ H t t' e e' He He' Hne x).
  - intros t' e' He'. apply lookup_delete_Some in He' as [_ He']. by apply (owns_new _ _ H t').
  - intros t1 t2 e1 e2 H1 H2. apply lookup_delete_Some in H1 as [_ H1], H2 as [_ H2]. by apply (owns_apart _ _ H).
  - intros t' e' He'. apply lookup_delete_Some in He' as [_ He']. by apply (owns_epoll _ _ H t').
Qed.

Lemma step_owns k0 o w w' :
  owns k0 w → 0%Z ∈ open_fds k0 → thread_step o w = Some w' → owns k0 w'.
Proof.
  intros H H0. pose proof (owns_zero _ _ H H0) as Hz. destruct o as [t|t l|t fuel|t]; cbn [thread_step].
  - intros [= <-]. by apply this_thread_owns.
  - intros [= <-]. unfold for_thread. destruct (thread_schedulers w !! t) as [e|] eqn:He; [|done].
    pose proof (frugal_for_each do_action l frugal_action (with_kernel (os w) (state e)) Hz) as Ht.
    destruct (for_each _ _ _) as [s r]. by apply owns_took.
  - destruct (thread_schedulers w !! t) as [e|] eqn:He; [|by intros [= <-]].
    destruct (Scheduler.run _ _ _ _ _ _ _) as [[s r]|] eqn:Er; [|done]. cbn. intros [= <-].
    apply run_took in Er; [|done]. by apply owns_took.
  - intros [= <-]. by apply destroy_owns.
Qed.

Lemma run_threads_owns k0 ops : ∀ w w',
  owns k0 w → 0%Z ∈ open_fds k0 → run_threads ops w = Some w' → owns k0 w'.
Proof.
  induction ops as [|o ops IH]; intros w w' H H0; [by intros [= <-]|]. cbn [run_threads].
  destruct (thread_step o w) as [w1|] eqn:E; [|done]. cbn. apply IH; [|done]. by eapply step_owns.
Qed.

Lemma no_threads_own k0 w : thread_schedulers w = ∅ → open_fds (os w) = open_fds k0 → owns k0 w.
Proof.
  intros He Hk. split; rewrite ?He.
  - intros x. rewrite Hk. split; [by left|]. intros [?|(t & e & Ht & _)]; [done|by rewrite lookup_empty in Ht].
  - intros t e. by rewrite lookup_empty.
  - intros t1 t2 e1 e2. by rewrite lookup_empty.
  - intros t e. by rewrite lookup_empty.
Qed.

Lemma destroyed_lookup t t' w :
  thread_schedulers (destroy_scheduler t w) !! t' =
    if decide (t' = t) then None else thread_schedulers w !! t'.
Proof.
  unfold destroy_scheduler. destruct (thread_schedulers w !! t) as [e|] eqn:He; cbn [thread_schedulers].
  - destruct (decide (t' = t)) as [->|]; [by rewrite lookup_delete_eq|by rewrite lookup_delete_ne].
  - by destruct (decide (t' = t)) as [->|].
Qed.

(** Destroying goes through the whole table. *)
Lemma destroy_list_lookup l w t :
  thread_schedulers (foldr destroy_scheduler w l) !! t =
    if decide (t ∈ l) then None else thread_schedulers w !! t.
Proof.
  induction l as [|t' l IH]; cbn [foldr].
  - by rewrite decide_False by apply not_elem_of_nil.
  - rewrite destroyed_lookup, IH. repeat destruct (decide _); set_solver.
Qed.
Lemma destroy_list_owns k0 l w : owns k0 w → owns k0 (foldr destroy_scheduler w l).
Proof. intros H. induction l as [|t l IH]; [done|]. by apply destroy_owns. Qed.

Lemma destroy_all_closes k0 w : owns k0 w → open_fds (os (destroy_all_schedulers w)) = open_fds k0.
Proof.
  intros H. unfold destroy_all_schedulers. set (l := (map_to_list (thread_schedulers w)).*1).
  pose proof (destroy_list_owns k0 l w H) as Ho. apply set_eq. intros x. rewrite (owns_open _ _ Ho).
  split; [|by left]. intros [?|(t & e & He & _)]; [done|exfalso].
  rewrite destroy_list_lookup in He. destruct (decide (t ∈ l)) as [|Hno]; [done|]. apply Hno.
  apply list_elem_of_fmap. exists (t, e). split; [done|]. by apply elem_of_map_to_list.
Qed.
End threads.

(** * Properties *)


(** * A kernel *)

(** A process: its descriptors, and whether its eventfd was written to. *)
Definition process : Type := gset Z * list Z.
Definition next_fd (fds : gset Z) : Z := foldr (λ fd n, Z.max (fd + 1) n) 0%Z (elements fds).
Definition open_one (k : process) : process * (Z + Z) := (({[next_fd k.1]} ∪ k.1, k.2), inr (next_fd k.1)).

Lemma next_fd_new fds : (0 ≤ next_fd fds)%Z ∧ next_fd fds ∉ fds.
Proof.
  unfold next_fd. set (top := foldr (λ fd n, Z.max (fd + 1) n) 0%Z).
  assert (∀ l, (0 ≤ top l)%Z ∧ ∀ x, x ∈ l → (x < top l)%Z) as H.
  { induction l as [|y l [IH1 IH2]]; cbn; [split; [lia|by intros x ?%not_elem_of_nil]|].
    split; [lia|]. intros x [->|Hx]%elem_of_cons; [lia|]. specialize (IH2 x Hx). lia. }
  destruct (H (elements fds)) as [H1 H2]. split; [lia|]. intros Hx%elem_of_elements%H2. lia.
Qed.

#[local] Instance process_kernel : Kernel process := {|
  EPOLLIN := 1; EPOLLOUT := 4; EPOLLRDHUP := 8192; EPOLLHUP := 16; EPOLLPRI := 2;
  EPOLLERR := 8; EPOLLET := 2147483648; EPOLLONESHOT := 1073741824;
  EPOLLWAKEUP := 536870912; EPOLLEXCLUSIVE := 268435456;
  sys_eventfd := open_one;
  sys_read := λ fd k, ((k.1, List.filter (λ x, negb (x =? fd)%Z) k.2), inr 8);
  sys_write := λ fd k, ((k.1, fd :: k.2), inr 8);
  sys_epoll_add := λ fd ev k, (k, inr ());
  sys_epoll_del := λ fd k, (k, inr ());
  sys_epoll_wait := λ n t k, (k, inr (take n k.2))
|}.
#[local] Instance process_descriptors : Descriptors process := {|
  sys_epoll_create := open_one;
  sys_close := λ fd k, (k.1 ∖ {[fd]}, k.2);
  open_fds := fst
|}.
#[local] Instance process_laws : DescriptorLaws process.
Proof. split; try done; intros k; cbn; destruct (next_fd_new k.1); by split_and!. Qed.

(** Two threads, of which the first runs its loop and ends. *)
Definition two_threads : list thread_op :=
  [Enter 1; Enter 2; Perform 1 [Schedule 1]; Run 1 5; Perform 2 [Schedule 7]; End 1; Enter 1].


(** * Behaviour a caller would not expect *)

(** In a process that closed its standard input, the descriptor 0 it is given is
    taken for a failure and stays open. *)
Lemma descriptor_zero_leaks :
  (this_thread (K := process) 10 1 (MkThreads ∅ (∅, []))).2 = throw Internal ∧
  0%Z ∈ open_fds (os (destroy_all_schedulers (this_thread (K := process) 10 1 (MkThreads ∅ (∅, []))).1)).
Proof. split; [by vm_compute|]. vm_compute. reflexivity. Qed.
