(* ===== verification/Timers.v ===== *)
(** lw/co/time: awaiting a duration, with a timer of the kernel and the scheduler
    of lw/co/scheduler. *)
From stdpp Require Import gmap.
From S2P Require Import Prelude Cxx Errors CircularQueue Scheduler.

(** * The kernel's timers *)

(** The calls on timers, and when a timer expires next, if it is armed, counted
    from when it was set. *)
Class Timers (K : Type) := {
  sys_timerfd_create : bool → K → K * (Z + Z);
  sys_timerfd_settime : Z → Z → Z → K → K * (Z + ());
  sys_close_timer : Z → K → K;
  expiry : K → Z → option Z;
}.

Definition NANO : Z := 10 ^ 9.

(** timerfd_settime(2): times out of range are refused, and a zero time
    disarms. *)
Class TimerLaws (K : Type) `{!Timers K} := {
  settime_sets fd s n k : (0 ≤ s)%Z → (0 ≤ n < NANO)%Z →
    ∃ k', sys_timerfd_settime fd s n k = (k', inr ()) ∧
      expiry k' fd = if decide (s = 0 ∧ n = 0)%Z then None else Some (s * NANO + n)%Z;
  settime_refuses fd s n k : ¬ ((0 ≤ s)%Z ∧ (0 ≤ n < NANO)%Z) →
    ∃ k', sys_timerfd_settime fd s n k = (k', inl (errno_num EINVAL)) ∧ expiry k' fd = expiry k fd;
}.

(** * Awaiting *)

Inductive ClockType := STEADY | SYSTEM.

Section timers.
Context {K : Type} `{!Kernel K, !Timers K}.
Implicit Types s : Scheduler (K := K).

(** [create_timerfd(type, duration)] of nanoseconds; [duration_cast] rounds
    towards zero. *)
Definition create_timerfd (type : ClockType) (duration : Z) : ST (Scheduler (K := K)) Z :=
  timer ← syscall (sys_timerfd_create (match type with STEADY => true | SYSTEM => false end));
  if decide (timer ≤ 0)%Z then st_throw Internal
  else
    let seconds := Z.quot duration NANO in
    syscall (sys_timerfd_settime timer seconds (duration - seconds * NANO)) ≫= λ _, mret timer.
Definition close_timerfd (timer : Z) : ST (Scheduler (K := K)) () := syscall (λ k, (sys_close_timer timer k, inr ())).

(** [SuspendFor<Clock, Duration>]: a count of ticks of so many nanoseconds. *)
Record SuspendFor := MkSuspendFor { clock : ClockType; _duration : Z; tick : Z; _timer : Z }.
Definition sleep_for (count tick : Z) : SuspendFor := MkSuspendFor STEADY count tick 0.
(** [sleep_until(time_point)] when its clock shows [now]. *)
Definition sleep_until (type : ClockType) (time_point now tick : Z) : SuspendFor := MkSuspendFor type (time_point - now) tick 0.

(** The conversion of the duration to 64-bit nanoseconds. *)
Definition to_nanoseconds (a : SuspendFor) : res Z :=
  let n := (_duration a * tick a)%Z in if decide (INT64_MIN ≤ n ≤ INT64_MAX)%Z then Ok n else Undef.

(** [await_suspend] of coroutine [c]; [await_ready] is false. *)
Definition suspend_for (c : coro) (a : SuspendFor) : ST (Scheduler (K := K)) SuspendFor :=
  timer ← (if decide (_timer a = 0)%Z then st_res (to_nanoseconds a) ≫= λ d, create_timerfd (clock a) d else mret (_timer a));
  schedule_events c timer (event_or READABLE ONE_SHOT) ≫= λ _, mret (MkSuspendFor (clock a) (_duration a) (tick a) timer).
Definition resume_from (a : SuspendFor) : ST (Scheduler (K := K)) () := close_timerfd (_timer a).

(** A scheduler over another kernel. *)
Definition with_kernel (k : K) s : Scheduler (K := K) :=
  MkScheduler (_continue_polling s) (_callbacks s) (_coro_queue s) (_queue_notification_fd s) k (resumed s).
Lemma syscall_run {A} (f : K → K * (Z + A)) s k a : f (kernel s) = (k, inr a) → syscall f s = (with_kernel k s, Ok a).
Proof. unfold syscall. by intros ->. Qed.

Context `{!TimerLaws K}.

Lemma split_duration d : (0 ≤ d)%Z →
  let q := Z.quot d NANO in
  (0 ≤ q)%Z ∧ (0 ≤ d - q * NANO < NANO)%Z ∧ (q * NANO + (d - q * NANO) = d)%Z ∧ (q = 0 ∧ d - q * NANO = 0 ↔ d = 0)%Z.
Proof. intros Hd. cbn zeta. unfold NANO. change (10 ^ 9)%Z with 1000000000%Z. Z.to_euclidean_division_equations; lia. Qed.
Lemma split_negative d : (d < 0)%Z → ¬ ((0 ≤ Z.quot d NANO)%Z ∧ (0 ≤ d - Z.quot d NANO * NANO < NANO)%Z).
Proof. intros Hd. unfold NANO. change (10 ^ 9)%Z with 1000000000%Z. Z.to_euclidean_division_equations; lia. Qed.

Lemma create_timerfd_run type d timer k s :
  sys_timerfd_create (match type with STEADY => true | SYSTEM => false end) (kernel s) = (k, inr timer) → (0 < timer)%Z →
  (0 ≤ d)%Z ∧ (∃ k', create_timerfd type d s = (with_kernel k' s, Ok timer) ∧ expiry k' timer = if decide (d = 0)%Z then None else Some d) ∨
  (d < 0)%Z ∧ ∃ k', create_timerfd type d s = (with_kernel k' s, throw InvalidArgument).
Proof.
  intros Hc Ht. unfold create_timerfd, mbind, ST_bind. rewrite (syscall_run _ s k timer Hc), decide_False by lia.
  destruct (decide (0 ≤ d)%Z) as [Hd|Hd]; [left|right]; (split; [lia|]).
  - destruct (split_duration d Hd) as (H1 & H2 & H3 & H4). destruct (settime_sets timer _ _ k H1 H2) as (k' & E & Hx).
    exists k'. rewrite (syscall_run _ (with_kernel k s) k' () E). split; [done|]. rewrite Hx, H3. do 2 case_decide; tauto.
  - destruct (settime_refuses timer _ _ k (split_negative d ltac:(lia))) as (k' & E & _). exists k'.
    unfold syscall. cbn [kernel with_kernel]. by rewrite E.
Qed.
End timers.

(** * Properties *)

(** A coroutine that awaits a positive duration arms a timer for exactly
    that many nanoseconds and is registered to be resumed, once, when it
    expires.  For the duration zero it is registered although the timer is
    disarmed; for a negative one, as for a point in time that has passed, the
    wait throws and the coroutine is not registered. *)
Theorem sleep_outcome {K} `{!Kernel K, !Timers K, !TimerLaws K} (c : coro) (a : SuspendFor) (s : Scheduler (K := K)) (k : K) (timer d : Z)
    (unset : _timer a = 0%Z) (duration : to_nanoseconds a = Ok d)
    (created : sys_timerfd_create (match clock a with STEADY => true | SYSTEM => false end) (kernel s) = (k, inr timer)) (positive : (0 < timer)%Z)
    (unwatched : _callbacks s !! timer = None)
    (watched : ∀ ev k, ∃ k', sys_epoll_add timer ev k = (k', inr ()) ∧ expiry k' timer = expiry k timer) :
  ∃ s' r, suspend_for c a s = (s', r) ∧
    ((0 ≤ d)%Z → _callbacks s' = <[timer := (ResumeCoro c, true)]> (_callbacks s) ∧
      expiry (kernel s') timer = (if decide (d = 0)%Z then None else Some d) ∧
      ∃ a', r = Ok a' ∧ _timer a' = timer) ∧
    ((d < 0)%Z → r = throw InvalidArgument ∧ _callbacks s' = _callbacks s).
Proof.
  unfold suspend_for, mbind at 1, ST_bind at 1. rewrite decide_True by done. rewrite duration. unfold st_res, mbind at 1, ST_bind at 1.
  destruct (create_timerfd_run (clock a) d timer k s created positive) as [(Hd & k1 & -> & Hx)|(Hd & k1 & ->)].
  - destruct (watched (co_event_to_epoll_event (event_or READABLE ONE_SHOT)) k1) as (k2 & E & Hk).
    unfold schedule_events, epoll_add, mbind, ST_bind, st_get. cbn -[event_or co_event_to_epoll_event lookup].
    rewrite decide_False by (rewrite unwatched; by intros []). unfold syscall. cbn -[event_or co_event_to_epoll_event lookup insert].
    rewrite E. cbn -[lookup insert]. eexists _, _. split; [done|]. cbn -[lookup insert]. split; [|lia]. intros _.
    rewrite Hk, Hx. split_and!; [done|done|]. by eexists.
  - eexists _, _. split; [done|]. split; [lia|]. done.
Qed.

(** * Witnesses *)

(** A kernel with one timer, numbered 5. *)
Record clockwork := MkClockwork { armed : option Z }.
#[export] Instance clockwork_kernel : Kernel clockwork := {|
  EPOLLIN := 1; EPOLLOUT := 4; EPOLLRDHUP := 8192; EPOLLHUP := 16; EPOLLPRI := 2; EPOLLERR := 8; EPOLLET := 2147483648;
  EPOLLONESHOT := 1073741824; EPOLLWAKEUP := 536870912; EPOLLEXCLUSIVE := 268435456;
  sys_eventfd k := (k, inr 3%Z);
  sys_read _ k := (k, inr 8);
  sys_write _ k := (k, inr 8);
  sys_epoll_add _ _ k := (k, inr ());
  sys_epoll_del _ k := (k, inr ());
  sys_epoll_wait _ _ k := (k, inr []);
|}.
#[export] Instance clockwork_timers : Timers clockwork := {|
  sys_timerfd_create _ k := (k, inr 5%Z);
  sys_timerfd_settime _ s n k :=
    if decide ((0 ≤ s)%Z ∧ (0 ≤ n < NANO)%Z) then
      (MkClockwork (if decide (s = 0 ∧ n = 0)%Z then None else Some (s * NANO + n)%Z), inr ())
    else (k, inl (errno_num EINVAL));
  sys_close_timer _ k := MkClockwork None;
  expiry k _ := armed k;
|}.
#[export] Instance clockwork_laws : TimerLaws clockwork.
Proof.
  split; intros fd s n k.
  - intros Hs Hn. eexists. cbn. by rewrite decide_True.
  - intros H. eexists. cbn. by rewrite decide_False.
Qed.

Definition idle_scheduler : Scheduler (K := clockwork) := make_scheduler 8 (MkClockwork None).

(** 1500 milliseconds. *)
Lemma sleep_outcome_witness :
  ∃ s' r, suspend_for 1 (sleep_for 1500 (10 ^ 6)) idle_scheduler = (s', r) ∧
    _callbacks s' = {[5%Z := (ResumeCoro 1, true)]} ∧ expiry (kernel s') 5 = Some (1500 * 10 ^ 6)%Z.
Proof.
  destruct (sleep_outcome 1 (sleep_for 1500 (10 ^ 6)) idle_scheduler (MkClockwork None) 5 (1500 * 10 ^ 6)) as (s' & r & E & H & _);
    [done|done|done|done|done|by intros ev k; exists k|]. exists s', r. split; [done|]. destruct H as (H1 & H2 & _); [done|]. by split.
Defined.

(** Waiting for no time at all waits for ever. *)
Lemma sleep_for_zero_disarmed : let s := (suspend_for 1 (sleep_for 0 1) idle_scheduler).1 in
  _callbacks s !! 5%Z = Some (ResumeCoro 1, true) ∧ expiry (kernel s) 5 = None.
Proof. done. Qed.
