(* ===== verification/Generators.v ===== *)
(** lw/co/generator, lw/co/sequences, lw/co/task and lw/co/await: coroutines that
    yield values, the ranges made with them, and tasks with their callbacks. *)
From S2P Require Import Prelude.

(** * Generators *)

Section generator.
(** The body of a coroutine: what its frame does when it is resumed, up to the
    next [co_yield] or its end.  [std::terminate], which an exception in a
    generator leads to, is [Undef]. *)
Context {T F : Type} (body : F → res (option (T * F))).

Record Generator := MkGenerator { frame : F; done : bool; _current_value : option T }.
(** The coroutine is suspended before its body. *)
Definition make_generator (f : F) : Generator := MkGenerator f false None.

(** [Generator::next]; resuming a coroutine that is done is undefined. *)
Definition gen_next : ST Generator bool := λ g,
  if done g then (g, Undef)
  else match body (frame g) with
       | Ok (Some (v, f)) => (MkGenerator f false (Some v), Ok true)
       | Ok None => (MkGenerator (frame g) true (_current_value g), Ok false)
       | _ => (g, Undef)
       end.
Definition gen_value : ST Generator T := λ g, (g, match _current_value g with Some v => Ok v | None => Undef end).

(** An iterator points to its generator or is null, as [end()] is. *)
Definition gen_begin : ST Generator bool :=
  g ← st_get;
  match _current_value g with Some _ => mret false | None => gen_next end ≫= λ _, g ← st_get; mret (negb (done g)).
Definition gen_incr (it : bool) : ST Generator bool := if it then gen_next else mret false.

(** [for (auto& v : generator)]; [None] when the fuel runs out. *)
Fixpoint gen_loop (fuel : nat) (it : bool) (g : Generator) : option (Generator * res (list T)) :=
  match fuel with
  | 0 => None
  | S fuel =>
      if it then
        match gen_value g with
        | (g, Ok v) =>
            match gen_incr it g with
            | (g, Ok it) => '(g, r) ← gen_loop fuel it g; Some (g, l ← r; Ok (v :: l))
            | (g, Throw e) => Some (g, Throw e)
            | (g, Undef) => Some (g, Undef)
            end
        | (g, Throw e) => Some (g, Throw e)
        | (g, Undef) => Some (g, Undef)
        end
      else Some (g, Ok [])
  end.
Definition range_for (fuel : nat) (g : Generator) : option (Generator * res (list T)) :=
  match gen_begin g with
  | (g, Ok it) => gen_loop fuel it g
  | (g, Throw e) => Some (g, Throw e)
  | (g, Undef) => Some (g, Undef)
  end.

(** What a body yields from a frame on. *)
Inductive produces : F → list T → Prop :=
  | produces_end f : body f = Ok None → produces f []
  | produces_yield f v f' l : body f = Ok (Some (v, f')) → produces f' l → produces f (v :: l).

Lemma gen_begin_fresh f :
  gen_begin (make_generator f) =
  match body f with
  | Ok (Some (v, f')) => (MkGenerator f' false (Some v), Ok true)
  | Ok None => (MkGenerator f true None, Ok false)
  | _ => (make_generator f, Undef)
  end.
Proof.
  unfold gen_begin, gen_next, make_generator, mbind, ST_bind, st_get, mret, ST_ret. cbn.
  by destruct (body f) as [[[v f']|]|e|].
Qed.
Lemma gen_begin_later f d v : gen_begin (MkGenerator f d (Some v)) = (MkGenerator f d (Some v), Ok (negb d)).
Proof. done. Qed.
Lemma gen_begin_ended f : gen_begin (MkGenerator f true None) = (MkGenerator f true None, Undef).
Proof. done. Qed.

Lemma gen_loop_yields fuel f v l :
  produces f l → length l < fuel →
  ∃ g, gen_loop (S fuel) true (MkGenerator f false (Some v)) = Some (g, Ok (v :: l)) ∧ done g = true ∧ is_Some (_current_value g).
Proof.
  intros H. revert v fuel. induction H as [f E|f w f' l E _ IH]; intros v fuel Hf; cbn; unfold gen_next; cbn; rewrite E.
  - destruct fuel; [cbn in Hf; lia|]. cbn. by eexists.
  - destruct fuel as [|fuel]; [lia|]. destruct (IH w fuel) as (g & -> & ? & ?); [cbn in Hf; lia|]. cbn. by exists g.
Qed.

Lemma range_for_run f l fuel : produces f l → length l < fuel → ∃ g, range_for fuel (make_generator f) = Some (g, Ok l).
Proof.
  intros Hl Hf. unfold range_for. rewrite gen_begin_fresh. destruct Hl as [f E|f v f' l E Hl]; rewrite E.
  - destruct fuel; [lia|]. by eexists.
  - destruct fuel as [|fuel]; [lia|]. destruct (gen_loop_yields fuel f' v l Hl) as (g & Hg & _); [cbn in Hf; lia|]. by exists g.
Qed.
End generator.
Arguments Generator : clear implicits.

(** * Integer types *)

(** The type of a range's values: narrower than [int], or as wide or wider, and
    signed or not. *)
Record int_type := IntType { is_signed : bool; bits : Z }.
Definition int_min (t : int_type) : Z := if is_signed t then - 2 ^ (bits t - 1) else 0.
Definition int_max (t : int_type) : Z := if is_signed t then 2 ^ (bits t - 1) - 1 else 2 ^ bits t - 1.
Definition in_type (t : int_type) (z : Z) : Prop := (int_min t ≤ z ≤ int_max t)%Z.
#[export] Instance in_type_dec t z : Decision (in_type t z).
Proof. unfold in_type. apply _. Defined.
(** Storing the result of [i += x], [++i] and the like: signed types overflow
    from the width of [int] on, the others wrap. *)
Definition store (t : int_type) (z : Z) : res Z :=
  if decide (in_type t z) then Ok z
  else if is_signed t then if (bits t <? 32)%Z then Ok (wrap_s (bits t) z) else Undef
  else Ok (wrap_u (bits t) z).

Lemma store_in t z : in_type t z → store t z = Ok z.
Proof. intros H. unfold store. by rewrite decide_True. Qed.

(** * Ranges *)

(** The frame of [range]: at its start, or at the [co_yield] of one of its loops. *)
Inductive range_frame := RangeStart | RangeDown (i : Z) | RangeUp (i : Z).

Section ranges.
Context (t : int_type).

(** [range(begin, end)]. *)
Definition down_test (e i : Z) : option (Z * range_frame) := if (i =? e)%Z then None else Some (i, RangeDown i).
Definition up_test (e i : Z) : option (Z * range_frame) := if (i =? e)%Z then None else Some (i, RangeUp i).
Definition range_body (b e : Z) (f : range_frame) : res (option (Z * range_frame)) :=
  match f with
  | RangeStart => Ok (if (e <? b)%Z then down_test e b else up_test e b)
  | RangeDown i => down_test e <$> store t (i - 1)
  | RangeUp i => up_test e <$> store t (i + 1)
  end.

(** [range(begin, end, increment)]. *)
Definition down_test_by (e i : Z) : option (Z * range_frame) := if (e <? i)%Z then Some (i, RangeDown i) else None.
Definition up_test_by (e i : Z) : option (Z * range_frame) := if (i <? e)%Z then Some (i, RangeUp i) else None.
Definition range_by_body (b e increment : Z) (f : range_frame) : res (option (Z * range_frame)) :=
  match f with
  | RangeStart => Ok (if (e <? b)%Z then down_test_by e b else up_test_by e b)
  | RangeDown i => down_test_by e <$> store t (i - increment)
  | RangeUp i => up_test_by e <$> store t (i + increment)
  end.
End ranges.

(** [n] numbers from [b] on, by steps. *)
Definition steps (b step : Z) (n : nat) : list Z := (λ k, (b + Z.of_nat k * step)%Z) <$> seq 0 n.
Lemma steps_S b step n : steps b step (S n) = b :: steps (b + step) step n.
Proof.
  unfold steps. cbn. f_equal; [lia|]. rewrite <- fmap_S_seq, <- list_fmap_compose. apply list_fmap_ext. intros i k _. cbn. lia.
Qed.

Lemma range_up_produces t b e i n :
  in_type t i → in_type t e → (i + 1 + Z.of_nat n = e)%Z → produces (range_body t b e) (RangeUp i) (steps (i + 1) 1 n).
Proof.
  revert i. induction n as [|n IH]; intros i Hi He Hn.
  - apply produces_end. cbn. rewrite store_in by (unfold in_type in *; lia). cbn. unfold up_test. by rewrite (proj2 (Z.eqb_eq _ _)) by lia.
  - rewrite steps_S. eapply produces_yield.
    + cbn. rewrite store_in by (unfold in_type in *; lia). cbn. unfold up_test. by rewrite (proj2 (Z.eqb_neq _ _)) by lia.
    + apply IH; [unfold in_type in *; lia|done|lia].
Qed.
Lemma range_down_produces t b e i n :
  in_type t i → in_type t e → (i - 1 - Z.of_nat n = e)%Z → produces (range_body t b e) (RangeDown i) (steps (i - 1) (-1) n).
Proof.
  revert i. induction n as [|n IH]; intros i Hi He Hn.
  - apply produces_end. cbn. rewrite store_in by (unfold in_type in *; lia). cbn. unfold down_test. by rewrite (proj2 (Z.eqb_eq _ _)) by lia.
  - rewrite steps_S. eapply produces_yield.
    + cbn. rewrite store_in by (unfold in_type in *; lia). cbn. unfold down_test. by rewrite (proj2 (Z.eqb_neq _ _)) by lia.
    + apply IH; [unfold in_type in *; lia|done|lia].
Qed.
Lemma range_produces t b e :
  in_type t b → in_type t e →
  produces (range_body t b e) RangeStart (steps b (if (e <? b)%Z then -1 else 1) (Z.to_nat (Z.abs (e - b)))).
Proof.
  intros Hb He. destruct (Z.ltb_spec e b) as [Hlt|Hge].
  - replace (Z.to_nat (Z.abs (e - b))) with (S (Z.to_nat (b - e - 1))) by lia. rewrite steps_S. eapply produces_yield.
    + cbn. rewrite (proj2 (Z.ltb_lt _ _)) by lia. unfold down_test. by rewrite (proj2 (Z.eqb_neq _ _)) by lia.
    + apply range_down_produces; [done|done|lia].
  - destruct (decide (b = e)) as [->|Hne].
    + rewrite Z.sub_diag. apply produces_end. cbn. rewrite Z.ltb_irrefl. unfold up_test. by rewrite Z.eqb_refl.
    + replace (Z.to_nat (Z.abs (e - b))) with (S (Z.to_nat (e - b - 1))) by lia. rewrite steps_S. eapply produces_yield.
      * cbn. rewrite (proj2 (Z.ltb_ge _ _)) by lia. unfold up_test. by rewrite (proj2 (Z.eqb_neq _ _)) by lia.
      * apply range_up_produces; [done|done|lia].
Qed.

(** How many values a range by steps has. *)
Definition step_count (b e increment : Z) : nat := Z.to_nat ((Z.abs (e - b) + increment - 1) `div` increment).

Lemma step_count_S b e b' increment :
  (0 < increment)%Z → (Z.abs (e - b) = Z.abs (e - b') + increment)%Z → step_count b e increment = S (step_count b' e increment).
Proof.
  intros Hi Habs. unfold step_count. rewrite Habs.
  replace (Z.abs (e - b') + increment + increment - 1)%Z with (Z.abs (e - b') + increment - 1 + 1 * increment)%Z by lia.
  rewrite Z.div_add by lia. assert (0 ≤ (Z.abs (e - b') + increment - 1) `div` increment)%Z by (apply Z.div_pos; lia). lia.
Qed.
Lemma step_count_last b e increment : (0 < increment)%Z → (0 < Z.abs (e - b) ≤ increment)%Z → step_count b e increment = 1.
Proof.
  intros Hi Habs. unfold step_count. replace ((Z.abs (e - b) + increment - 1) `div` increment)%Z with 1%Z; [done|].
  apply (Z.div_unique _ _ _ (Z.abs (e - b) - 1)); lia.
Qed.

(** One step nearer the end. *)
Lemma step_count_cases b e increment n :
  (0 < increment)%Z → (b ≠ e)%Z → step_count b e increment = S n →
  n = 0 ∧ (Z.abs (e - b) ≤ increment)%Z ∨
  (increment < Z.abs (e - b))%Z ∧ step_count (if (e <? b)%Z then b - increment else b + increment) e increment = n.
Proof.
  intros Hi Hne Hn. destruct (decide (Z.abs (e - b) ≤ increment)%Z) as [Hle|Hgt]; [left|right].
  - rewrite step_count_last in Hn by lia. split; [lia|done].
  - split; [lia|]. apply (inj S). rewrite <- Hn. symmetry. apply step_count_S; [done|]. destruct (Z.ltb_spec e b); lia.
Qed.

Lemma range_by_up_produces t b e increment i n :
  (0 < increment)%Z → in_type t i → in_type t e → (i < e)%Z → (e - 1 + increment ≤ int_max t)%Z → step_count i e increment = S n →
  produces (range_by_body t b e increment) (RangeUp i) (steps (i + increment) increment n).
Proof.
  intros Hinc. revert i. induction n as [|n IH]; intros i Hi He Hlt Hmax Hn;
    destruct (step_count_cases i e increment _ Hinc ltac:(lia) Hn) as [[? Hle]|[Hgt Hn']]; try done; rewrite ?(proj2 (Z.ltb_ge e i)) in * by lia.
  - apply produces_end. cbn. rewrite store_in by (unfold in_type in *; lia). cbn. unfold up_test_by. by rewrite (proj2 (Z.ltb_ge _ _)) by lia.
  - exfalso. unfold step_count in Hn'. assert (1 ≤ (Z.abs (e - (i + increment)) + increment - 1) `div` increment)%Z; [|lia].
    apply Z.div_le_lower_bound; lia.
  - rewrite steps_S. eapply produces_yield.
    + cbn. rewrite store_in by (unfold in_type in *; lia). cbn. unfold up_test_by. by rewrite (proj2 (Z.ltb_lt _ _)) by lia.
    + apply IH; [unfold in_type in *; lia|done|lia|done|done].
Qed.
Lemma range_by_down_produces t b e increment i n :
  (0 < increment)%Z → in_type t i → in_type t e → (e < i)%Z → (int_min t ≤ e + 1 - increment)%Z → step_count i e increment = S n →
  produces (range_by_body t b e increment) (RangeDown i) (steps (i - increment) (- increment) n).
Proof.
  intros Hinc. revert i. induction n as [|n IH]; intros i Hi He Hlt Hmin Hn;
    destruct (step_count_cases i e increment _ Hinc ltac:(lia) Hn) as [[? Hle]|[Hgt Hn']]; try done; rewrite ?(proj2 (Z.ltb_lt e i)) in * by lia.
  - apply produces_end. cbn. rewrite store_in by (unfold in_type in *; lia). cbn. unfold down_test_by. by rewrite (proj2 (Z.ltb_ge _ _)) by lia.
  - exfalso. unfold step_count in Hn'. assert (1 ≤ (Z.abs (e - (i - increment)) + increment - 1) `div` increment)%Z; [|lia].
    apply Z.div_le_lower_bound; lia.
  - rewrite steps_S. eapply produces_yield.
    + cbn. rewrite store_in by (unfold in_type in *; lia). cbn. unfold down_test_by. by rewrite (proj2 (Z.ltb_lt _ _)) by lia.
    + apply IH; [unfold in_type in *; lia|done|lia|done|done].
Qed.
Lemma range_by_produces t b e increment :
  (0 < increment)%Z → in_type t b → in_type t e → (b < e → e - 1 + increment ≤ int_max t)%Z → (e < b → int_min t ≤ e + 1 - increment)%Z →
  produces (range_by_body t b e increment) RangeStart
    (steps b (if (e <? b)%Z then - increment else increment) (step_count b e increment)).
Proof.
  intros Hinc Hb He Hup Hdown. destruct (decide (b = e)) as [->|Hne].
  { assert (step_count e e increment = 0) as -> by (unfold step_count; rewrite Z.sub_diag, Z.div_small; lia).
    apply produces_end. cbn. rewrite Z.ltb_irrefl. unfold up_test_by. by rewrite Z.ltb_irrefl. }
  assert (∃ n, step_count b e increment = S n) as [n Hn].
  { exists (pred (step_count b e increment)). assert (1 ≤ (Z.abs (e - b) + increment - 1) `div` increment)%Z by (apply Z.div_le_lower_bound; lia).
    unfold step_count. lia. }
  rewrite Hn. destruct (Z.ltb_spec e b) as [Hlt|Hge]; rewrite steps_S.
  - eapply produces_yield; [|apply (range_by_down_produces t b e increment b n); auto; lia]. cbn. rewrite (proj2 (Z.ltb_lt _ _)) by lia.
    unfold down_test_by. by rewrite (proj2 (Z.ltb_lt _ _)) by lia.
  - eapply produces_yield; [|apply (range_by_up_produces t b e increment b n); auto; lia]. cbn. rewrite (proj2 (Z.ltb_ge _ _)) by lia.
    unfold up_test_by. by rewrite (proj2 (Z.ltb_lt _ _)) by lia.
Qed.

(** * Tasks *)

(** What a task's coroutine does when it is resumed. *)
Inductive task_outcome {F : Type} := TaskSuspends (f : F) | TaskReturns | TaskThrows (e : exn).
Arguments task_outcome : clear implicits.

Section task.
Context {F : Type} (task_body : F → task_outcome F).

(** The frame of the coroutine with the state the task shares with its promise;
    a callback is named by a number, and recorded when it is called. *)
Record Task := MkTask {
  task_frame : F; task_done : bool; error : option exn; callback : option nat; finished : bool; called : list nat;
}.
Definition make_task (f : F) : Task := MkTask f false None None false [].
Definition task_valid (k : Task) : bool := bool_decide (is_Some (error k)) || finished k.

(** [Task::then]. *)
Definition then_call (n : nat) : ST Task () :=
  st_modify (λ k, MkTask (task_frame k) (task_done k) (error k) (Some n) (finished k) (called k)).
(** [TaskPromise::return_void] and [unhandled_exception], and the final suspension. *)
Definition return_void (k : Task) : Task :=
  MkTask (task_frame k) true (error k) (callback k) true (called k ++ option_list (callback k)).
Definition unhandled_exception (e : exn) (k : Task) : Task :=
  MkTask (task_frame k) true (Some e) (callback k) (finished k) (called k).
(** [Task::resume]. *)
Definition task_resume : ST Task bool := λ k,
  if task_done k then (k, Undef)
  else match task_body (task_frame k) with
       | TaskSuspends f => (MkTask f false (error k) (callback k) (finished k) (called k), Ok true)
       | TaskReturns => (return_void k, Ok false)
       | TaskThrows e => (unhandled_exception e k, Ok false)
       end.
(** [Task::get]. *)
Definition task_get : ST Task () :=
  k ← st_get;
  if task_valid k then match error k with Some e => st_res (Throw e) | None => mret () end
  else st_throw FailedPrecondition.
(** [~Task]: an exception thrown by a destructor terminates the program. *)
Definition destroy_task (k : Task) : res () := match error k with Some _ => Undef | None => Ok () end.

(** [co_await task_completion(task)] in coroutine [n]: the task is queued, and
    its callback schedules the coroutine. *)
Definition await_task (n : nat) : ST Task () :=
  k ← st_get; if task_done k then mret () else then_call n.

(** The scheduler resumes the task each time it is queued. *)
Fixpoint resume_times (n : nat) (k : Task) : Task :=
  match n with 0 => k | S n => if task_done k then k else resume_times n (task_resume k).1 end.

(** How the coroutine ends, and after how many resumptions. *)
Inductive ends : F → nat → option exn → Prop :=
  | ends_return f : task_body f = TaskReturns → ends f 1 None
  | ends_throw f e : task_body f = TaskThrows e → ends f 1 (Some e)
  | ends_later f f' n o : task_body f = TaskSuspends f' → ends f' n o → ends f (S n) o.

Lemma resume_ends f n o c m :
  ends f n o → n ≤ m →
  resume_times m (MkTask f false None c false []) =
    match o with
    | None => return_void (MkTask (task_frame (resume_times m (MkTask f false None c false []))) false None c false [])
    | Some e => unhandled_exception e (MkTask (task_frame (resume_times m (MkTask f false None c false []))) false None c false [])
    end.
Proof.
  intros H. revert m. induction H as [f E|f e E|f f' n o E _ IH]; intros m Hm; (destruct m as [|m]; [lia|]);
    cbn [resume_times task_done]; unfold task_resume; cbn; rewrite E; cbn [fst].
  - by destruct m.
  - by destruct m.
  - apply IH. lia.
Qed.
End task.
Arguments Task : clear implicits.

(** * Asynchronous generators *)

(** What the body of an [AsyncGenerator] does in turn, and where it stands:
    about to go on, suspended by [co_yield] of a value, awaiting a future that
    it yields, ended, or ended by an exception nobody handles. *)
Inductive yield (T : Type) := YieldValue (v : T) | YieldFuture (v : T) | AwaitOther.
Arguments YieldValue {_} _. Arguments YieldFuture {_} _. Arguments AwaitOther {_}.
Inductive async_status (T : Type) := AtYield (rest : list (yield T)) | AwaitingYield (v : T) (rest : list (yield T))
  | AwaitingOther (rest : list (yield T)) | Ended | Escaped (e : exn).
Arguments AtYield {_} _. Arguments AwaitingYield {_} _ _. Arguments AwaitingOther {_} _. Arguments Ended {_}. Arguments Escaped {_} _.

Section async.
Context {T : Type}.

(** The shared state, with every promise that was [next] in its time. *)
Record AsyncGenerator := MkAsync {
  async_done : bool; next_promise : nat; current_value : option T; promises : list (option (res bool)); status : async_status T;
}.
Definition set_status (s : async_status T) (a : AsyncGenerator) : AsyncGenerator :=
  MkAsync (async_done a) (next_promise a) (current_value a) (promises a) s.

(** [_state->next.set_value(b)]: a promise is set once. *)
Definition set_next (r : res bool) : ST AsyncGenerator () := λ a,
  match promises a !! next_promise a with
  | Some None => (MkAsync (async_done a) (next_promise a) (current_value a) (<[next_promise a := Some r]> (promises a)) (status a), Ok ())
  | _ => (a, throw FailedPrecondition)
  end.
(** [unhandled_exception]; what it throws leaves the coroutine. *)
Definition async_unhandled (e : exn) (a : AsyncGenerator) : AsyncGenerator :=
  match set_next (Throw e) a with (a, Ok _) => set_status Ended a | (a, Throw e) => set_status (Escaped e) a | (a, Undef) => a end.
(** [_state->current_value = ...; _state->next.set_value(true)]. *)
Definition put_value (v : T) : ST AsyncGenerator () := λ a,
  set_next (Ok true) (MkAsync (async_done a) (next_promise a) (Some v) (promises a) (status a)).

(** The body goes on to where it suspends. *)
Definition go_on (rest : list (yield T)) (a : AsyncGenerator) : AsyncGenerator :=
  match rest with
  | [] =>
      match set_next (Ok false) (MkAsync true (next_promise a) (current_value a) (promises a) (status a)) with
      | (a, Ok _) => set_status Ended a
      | (a, Throw e) => async_unhandled e a
      | (a, Undef) => a
      end
  | YieldValue v :: rest =>
      match put_value v a with
      | (a, Ok _) => set_status (AtYield rest) a
      | (a, Throw e) => async_unhandled e a
      | (a, Undef) => a
      end
  | YieldFuture v :: rest => set_status (AwaitingYield v rest) a
  | AwaitOther :: rest => set_status (AwaitingOther rest) a
  end.

(** Calling the coroutine: it is not suspended initially. *)
Definition call_async (b : list (yield T)) : AsyncGenerator := go_on b (MkAsync false 0 None [None] Ended).
(** [AsyncGenerator::next]: the promise whose future it returns. *)
Definition async_next (a : AsyncGenerator) : AsyncGenerator * nat :=
  if async_done a then
    (MkAsync (async_done a) (next_promise a) (current_value a) (promises a ++ [Some (Ok false)]) (status a), length (promises a))
  else (MkAsync (async_done a) (length (promises a)) (current_value a) (promises a ++ [None]) (status a), length (promises a)).
(** What the body awaits is set. *)
Definition awaited (a : AsyncGenerator) : AsyncGenerator :=
  match status a with
  | AwaitingYield v rest =>
      match put_value v a with
      | (a, Ok _) => go_on rest a
      | (a, Throw e) => async_unhandled e a
      | (a, Undef) => a
      end
  | AwaitingOther rest => go_on rest a
  | _ => a
  end.

(** What happens to a generator: [next] is called, or what it awaits is set. *)
Inductive async_event := CallNext | Awaited.
Definition async_step (e : async_event) (a : AsyncGenerator) : AsyncGenerator :=
  match e with CallNext => (async_next a).1 | Awaited => awaited a end.
Definition run_async (es : list async_event) (a : AsyncGenerator) : AsyncGenerator := foldl (λ a e, async_step e a) a es.

Lemma stopped_stays es a rest :
  status a = AtYield rest → async_done a = false →
  status (run_async es a) = AtYield rest ∧ async_done (run_async es a) = false ∧ current_value (run_async es a) = current_value a ∧
  ∃ k, promises (run_async es a) = promises a ++ replicate k None.
Proof.
  revert a. induction es as [|e es IH]; intros a Hs Hd; cbn; [split_and!; [done..|exists 0; by rewrite app_nil_r]|].
  destruct e; cbn [async_step].
  - unfold async_next. rewrite Hd. cbn [fst].
    destruct (IH (MkAsync false (length (promises a)) (current_value a) (promises a ++ [None]) (status a))) as (? & ? & ? & k & Hk); [done..|].
    split_and!; [done..|]. exists (S k). etrans; [exact Hk|]. cbn. by rewrite <- app_assoc.
  - unfold awaited. rewrite Hs. by apply IH.
Qed.
End async.
Arguments AsyncGenerator : clear implicits.

(** * Properties *)

(** A loop over a generator visits what its body yields, once and in order,
    and ends; over a generator that was advanced before it starts with the
    current value; a second loop over one that yielded something is empty,
    and over one that did not it is undefined. *)
Theorem range_for_visits {T F} (body : F → res (option (T * F))) (f : F) (l : list T) (fuel : nat)
    (yields : produces body f l) (enough : length l < fuel) :
  ∃ g, range_for body fuel (make_generator f) = Some (g, Ok l) ∧
    (∀ v r, l = v :: r → range_for body fuel (gen_next body (make_generator f)).1 = Some (g, Ok l) ∧
      range_for body fuel g = Some (g, Ok [])) ∧
    (l = [] → range_for body fuel g = Some (g, Undef)).
Proof.
  unfold range_for. rewrite gen_begin_fresh. destruct yields as [f E|f v f' l E Hl]; rewrite E.
  - exists (MkGenerator f true None). by destruct fuel; [cbn in enough; lia|].
  - destruct fuel as [|fuel]; [lia|]. destruct (gen_loop_yields body fuel f' v l Hl) as ([fg dg vg] & Hg & Hdone & Hv); [cbn in enough; lia|].
    exists (MkGenerator fg dg vg). split; [done|]. split; [intros w r [= <- <-]; split|done].
    + unfold gen_next, make_generator. cbn [done frame]. rewrite E. cbn [fst]. by rewrite gen_begin_later.
    + destruct Hv as [x Hx]. cbn in Hx, Hdone. subst dg vg. by rewrite gen_begin_later.
Qed.

(** C32.  [range(begin, end)] of an integer type goes through the numbers from
    [begin] to before [end], upwards or downwards, without overflow; with a
    positive increment it takes every so many of them, provided the number
    after the last one is still in the type. *)
Theorem range_exact (t : int_type) (b e increment : Z) (fuel : nat)
    (begin_in : in_type t b) (end_in : in_type t e) (enough : Z.to_nat (Z.abs (e - b)) < fuel) :
  (∃ g, range_for (range_body t b e) fuel (make_generator RangeStart) =
    Some (g, Ok (steps b (if (e <? b)%Z then -1 else 1) (Z.to_nat (Z.abs (e - b)))))) ∧
  ((0 < increment)%Z → (b < e → e - 1 + increment ≤ int_max t)%Z → (e < b → int_min t ≤ e + 1 - increment)%Z →
    ∃ g, range_for (range_by_body t b e increment) fuel (make_generator RangeStart) =
      Some (g, Ok (steps b (if (e <? b)%Z then - increment else increment) (step_count b e increment)))).
Proof.
  split; [|intros Hi Hup Hdown].
  - apply range_for_run; [by apply range_produces|]. unfold steps. by rewrite length_fmap, length_seq.
  - apply range_for_run; [by apply range_by_produces|]. unfold steps. rewrite length_fmap, length_seq.
    assert (step_count b e increment ≤ Z.to_nat (Z.abs (e - b))); [|lia]. unfold step_count.
    destruct (decide (b = e)) as [->|Hne]; [rewrite Z.sub_diag, Z.div_small; lia|].
    apply Z2Nat.inj_le; [apply Z.div_pos; lia|lia|]. apply Z.div_le_upper_bound; [lia|nia].
Qed.

(** C33.  A task is resumed until its coroutine returns or throws.  Then [get]
    gives the exception; the coroutine that awaits the task is scheduled once
    if the task returned, and never if it threw, which also makes its
    destruction terminate the program. *)
Theorem task_completes {F} (task_body : F → task_outcome F) (f : F) (n m waiter : nat) (o : option exn)
    (ending : ends task_body f n o) (enough : n ≤ m) :
  let k := resume_times task_body m (await_task waiter (make_task f)).1 in
  task_done k = true ∧ (task_get k).2 = match o with None => Ok () | Some e => Throw e end ∧
  called k = match o with None => [waiter] | Some _ => [] end ∧
  destroy_task k = match o with None => Ok () | Some _ => Undef end.
Proof.
  cbn zeta. change (await_task waiter (make_task f)).1 with (MkTask f false None (Some waiter) false []).
  rewrite (resume_ends task_body f n o (Some waiter) m ending enough). by destruct o.
Qed.

(** An [AsyncGenerator] that yields a plain value is never resumed: whatever
    it had left to yield, the futures that [next] returns from then on are
    never set, and the value stays the same. *)
Theorem async_value_stops {T} (before : list async_event) (b : list (yield T)) (rest : list (yield T)) (es : list async_event)
    (stopped : status (run_async before (call_async b)) = AtYield rest)
    (running : async_done (run_async before (call_async b)) = false) :
  let a := run_async before (call_async b) in
  let a' := run_async es a in
  ∀ n, let '(c, p) := async_next a' in promises (run_async (replicate n CallNext) c) !! p = Some None ∧ current_value c = current_value a.
Proof.
  cbn zeta. intros n. set (a := run_async before (call_async b)) in *.
  destruct (stopped_stays es a rest stopped running) as (Hs & Hd & Hv & _). unfold async_next. rewrite Hd. split; [|done].
  set (c := MkAsync _ _ _ _ _). destruct (stopped_stays (replicate n CallNext) c rest) as (_ & _ & _ & k & ->); [done..|].
  unfold c. cbn. by rewrite <- app_assoc, lookup_app_r, Nat.sub_diag.
Qed.

(** * Witnesses *)

Definition int32 : int_type := IntType true 32.
Definition uint8 : int_type := IntType false 8.

Lemma range_for_visits_witness :
  produces (range_body int32 3 0) RangeStart [3; 2; 1]%Z ∧
  ∃ g, range_for (range_body int32 3 0) 10 (make_generator RangeStart) = Some (g, Ok [3; 2; 1]%Z) ∧
    range_for (range_body int32 3 0) 10 g = Some (g, Ok []).
Proof.
  assert (produces (range_body int32 3 0) RangeStart [3; 2; 1]%Z) as H by (do 3 (eapply produces_yield; [done|]); by apply produces_end).
  split; [done|]. destruct (range_for_visits (range_body int32 3 0) RangeStart [3; 2; 1]%Z 10 H) as (g & Hg & H2 & _); [cbn; lia|].
  exists g. split; [done|]. by apply (H2 3%Z [2; 1]%Z).
Defined.

Lemma range_exact_witness :
  (∃ g, range_for (range_by_body uint8 250 4 3) 300 (make_generator RangeStart) = Some (g, Ok (steps 250 (-3) 82))) ∧
  int_min uint8 = 0%Z.
Proof.
  split; [|done]. apply (range_exact uint8 250 4 3 300); [by apply (bool_decide_unpack _)..|lia|lia|lia|change (int_min uint8) with 0%Z; lia].
Defined.

Lemma task_completes_witness :
  let k := resume_times (λ n, match n with 0 => TaskThrows StdOutOfRange | S n => TaskSuspends n end) 5 (await_task 7 (make_task 2)).1 in
  called k = [] ∧ (task_get k).2 = Throw StdOutOfRange.
Proof.
  set (body := λ n, match n with 0 => TaskThrows StdOutOfRange | S n => TaskSuspends n end).
  assert (ends body 2 3 (Some StdOutOfRange)) as H by (do 2 (eapply ends_later; [done|]); by apply ends_throw).
  destruct (task_completes body 2 3 5 7 (Some StdOutOfRange) H) as (_ & Hg & Hc & _); [lia|]. by split.
Defined.

(** The body of the test of the library: its second value is never seen. *)
Lemma async_value_stops_witness :
  let a := run_async [CallNext; Awaited] (call_async [AwaitOther; YieldValue 1; YieldFuture 2]) in
  promises a = [None; Some (Ok true)] ∧ current_value a = Some 1 ∧
  let '(c, p) := async_next a in promises (run_async (replicate 3 CallNext) c) !! p = Some None ∧ current_value c = current_value a.
Proof.
  split; [done|]. split; [done|].
  by apply (async_value_stops [CallNext; Awaited] [AwaitOther; YieldValue 1; YieldFuture 2] [YieldFuture 2] []).
Defined.

(** Downwards by steps that do not meet 0, an unsigned type wraps and goes round
    again before the loop ends. *)
Lemma unsigned_range_wraps :
  ∃ g l, range_for (range_by_body uint8 10 0 3) 300 (make_generator RangeStart) = Some (g, Ok l) ∧
    take 6 l = [10; 7; 4; 1; 254; 251]%Z ∧ length l = 174.
Proof. eexists _, _. by vm_compute. Qed.

(** A value that is ready before the last one was asked for ends the coroutine
    with an exception that nobody handles. *)
Lemma early_value_escapes :
  status (run_async [CallNext; Awaited; Awaited] (call_async [YieldFuture 1; YieldFuture 2])) = Escaped (LwError FailedPrecondition).
Proof. done. Qed.
