(* ===== verification/Buffer.v ===== *)
(** lw/memory/buffer and lw/memory/buffer_view: buffers over a memory of
    blocks, some allocated with [new[]], with the ownership that moves between
    them. *)
From S2P Require Import Prelude.

(** * Memory *)

(** A pointer into a block; null is [None]. *)
Definition ptr : Type := nat * nat.
Definition advance (p : ptr) (n : nat) : ptr := (p.1, p.2 + n).

(** A block of bytes; [dynamic] ones were made by [new[]]. *)
Record block := Block { dynamic : bool; bytes : list Z }.

Record Buffer := MkBuffer { _capacity : nat; _data : option ptr; _own_data : bool }.

(** The blocks, and the buffer objects by name. *)
Record memory := Memory { blocks : gmap nat block; next_block : nat; buffers : gmap nat Buffer }.

Definition set_block (i : nat) (b : block) : ST memory () :=
  st_modify (λ m, Memory (<[i := b]> (blocks m)) (next_block m) (buffers m)).
Definition set_buffer (id : nat) (b : Buffer) : ST memory () :=
  st_modify (λ m, Memory (blocks m) (next_block m) (<[id := b]> (buffers m))).

(** Naming an object that does not live is undefined. *)
Definition get_buffer (id : nat) : ST memory Buffer := λ m,
  match buffers m !! id with Some b => (m, Ok b) | None => (m, Undef) end.
Definition construct (id : nat) (b : Buffer) : ST memory () := λ m,
  match buffers m !! id with Some _ => (m, Undef) | None => set_buffer id b m end.

Definition load (p : ptr) : ST memory Z := λ m,
  match blocks m !! p.1 with
  | Some b => match bytes b !! p.2 with Some v => (m, Ok v) | None => (m, Undef) end
  | None => (m, Undef)
  end.
Definition store (p : ptr) (v : Z) : ST memory () := λ m,
  match blocks m !! p.1 with
  | Some b => if decide (p.2 < length (bytes b)) then set_block p.1 (Block (dynamic b) (<[p.2 := wrap_u 8 v]> (bytes b))) m
              else (m, Undef)
  | None => (m, Undef)
  end.
Definition delete_array (p : ptr) : ST memory () := λ m,
  match blocks m !! p.1 with
  | Some (Block true _) =>
      if decide (p.2 = 0) then (Memory (delete p.1 (blocks m)) (next_block m) (buffers m), Ok ()) else (m, Undef)
  | _ => (m, Undef)
  end.

(** [n] bytes from [p] on, one after the other. *)
Fixpoint load_range (p : ptr) (n : nat) : ST memory (list Z) :=
  match n with
  | 0 => mret []
  | S n => v ← load p; l ← load_range (advance p 1) n; mret (v :: l)
  end.
Fixpoint store_range (p : ptr) (l : list Z) : ST memory () :=
  match l with [] => mret () | v :: l => store p v ≫= λ _, store_range (advance p 1) l end.

(** What a standard algorithm does with a pointer; null must not be used. *)
Definition deref {A} (d : option ptr) (k : ptr → ST memory A) : ST memory A :=
  match d with Some p => k p | None => st_res Undef end.

Section buffer.
(** The bytes a fresh block happens to hold. *)
Context (garbage : nat → nat → Z).

Definition new_array (l : nat → list Z) : ST memory ptr := λ m,
  (Memory (<[next_block m := Block true (l (next_block m))]> (blocks m)) (S (next_block m)) (buffers m),
   Ok (next_block m, 0)).

(** * Construction and destruction *)

Definition Buffer_default (id : nat) : ST memory () := construct id (MkBuffer 0 None false).
Definition Buffer_wrap (id : nat) (buffer : option ptr) (capacity : nat) (own_data : bool) : ST memory () :=
  construct id (MkBuffer capacity buffer own_data).
Definition Buffer_alloc (id size : nat) : ST memory () :=
  p ← new_array (λ i, garbage i <$> seq 0 size); construct id (MkBuffer size (Some p) true).
Definition Buffer_copy (id : nat) (source : list Z) : ST memory () :=
  p ← new_array (λ i, garbage i <$> seq 0 (length source));
  construct id (MkBuffer (length source) (Some p) true) ≫= λ _, store_range p source.

Definition disown (id : nat) : ST memory () :=
  b ← get_buffer id; set_buffer id (MkBuffer (_capacity b) (_data b) false).
Definition Buffer_move (id other : nat) : ST memory () :=
  o ← get_buffer other; construct id o ≫= λ _, disown other.

Definition delete_data (b : Buffer) : ST memory () :=
  match _data b with Some p => if _own_data b then delete_array p else mret () | None => mret () end.
Definition destroy (id : nat) : ST memory () :=
  b ← get_buffer id;
  delete_data b ≫= λ _, st_modify (λ m, Memory (blocks m) (next_block m) (delete id (buffers m))).

(** [operator=]; [other] may be the same object. *)
Definition move_assign (id other : nat) : ST memory () :=
  b ← get_buffer id;
  delete_data b ≫= λ _, o ← get_buffer other; set_buffer id o ≫= λ _, disown other.

(** * Access *)

Definition capacity (b : Buffer) : nat := _capacity b.
Definition size (b : Buffer) : nat := capacity b.
Definition empty (b : Buffer) : bool := bool_decide (_capacity b = 0).
Definition at_index (b : Buffer) (i : nat) : option ptr := (λ p, advance p i) <$> _data b.
Definition front (b : Buffer) : res ptr :=
  match _data b with None => throw InvalidArgument | Some p => Ok p end.
Definition back (b : Buffer) : res ptr :=
  match _data b with
  | None => throw InvalidArgument
  | Some p => Ok (if decide (_capacity b = 0) then p else advance p (_capacity b - 1))
  end.

Definition trim_prefix (b : Buffer) (n : nat) : res Buffer :=
  if decide (_capacity b < n) then throw InvalidArgument
  else match _data b with
       | Some p => Ok (MkBuffer (_capacity b - n) (Some (advance p n)) false)
       | None => if decide (n = 0) then Ok (MkBuffer (_capacity b) None false) else Undef
       end.
Definition trim_suffix (b : Buffer) (n : nat) : res Buffer :=
  if decide (_capacity b < n) then throw InvalidArgument else Ok (MkBuffer (_capacity b - n) (_data b) false).

(** The bytes of the [string_view] a buffer converts to. *)
Definition view_bytes (b : Buffer) : ST memory (list Z) :=
  if decide (size b = 0) then mret [] else deref (_data b) (λ p, load_range p (size b)).

(** * Contents *)

Definition set_memory (b : Buffer) (val : Z) : ST memory () :=
  deref (_data b) (λ p, store_range p (replicate (_capacity b) val)).

(** [copy(begin, end)] of the elements [source]. *)
Fixpoint copy_loop (b : Buffer) (i fuel : nat) (source : list Z) : ST memory () :=
  match fuel, source with
  | S fuel, v :: source => deref (at_index b i) (λ p, store p v) ≫= λ _, copy_loop b (i + 1) fuel source
  | _, _ => mret ()
  end.
Definition copy_range (b : Buffer) (source : list Z) : ST memory () := copy_loop b 0 (size b) source.

(** [copy(begin, count)]; there must be that many elements. *)
Definition copy_n (b : Buffer) (source : list Z) (count : nat) : ST memory () :=
  let n := Nat.min count (size b) in
  if decide (length source < n) then st_res Undef
  else if decide (n = 0) then mret () else deref (_data b) (λ p, store_range p (take n source)).

Definition buffer_eq (b other : Buffer) : ST memory bool :=
  if decide (size b ≠ size other) then mret false
  else if decide (_data b = _data other) then mret true
  else deref (_data b) (λ p, deref (_data other) (λ q,
    l ← load_range p (size b); r ← load_range q (size b); mret (bool_decide (l = r)))).

Fixpoint xor_loop (lhs rhs out : Buffer) (i n : nat) : ST memory () :=
  match n with
  | 0 => mret ()
  | S n =>
      l ← deref (at_index lhs i) load; r ← deref (at_index rhs i) load;
      deref (at_index out i) (λ p, store p (Z.lxor l r)) ≫= λ _, xor_loop lhs rhs out (i + 1) n
  end.
Definition _xor (lhs rhs : Buffer) (out : option Buffer) : ST memory () :=
  match out with None => st_throw InvalidArgument | Some out => xor_loop lhs rhs out 0 (size out) end.
Definition buffer_xor (b other : Buffer) : ST memory () :=
  let tmp := MkBuffer (Nat.min (size b) (size other)) (_data b) false in _xor b other (Some tmp).

(** * Views *)

(** [BufferView(buffer)]: its buffer never owns anything. *)
Definition view_of (b : Buffer) : Buffer := MkBuffer (size b) (_data b) false.
Definition view_eq (v w : Buffer) : bool := bool_decide (_data v = _data w ∧ size v = size w).
Definition view_trim_prefix (v : Buffer) (n : nat) : res Buffer := view_of <$> trim_prefix v n.
Definition view_trim_suffix (v : Buffer) (n : nat) : res Buffer := view_of <$> trim_suffix v n.
End buffer.

(** * Ownership *)

(** Every owning buffer points to the start of a live dynamic block of its
    capacity, no two own the same block, and every dynamic block has an
    owner. *)
Record owned_once (m : memory) : Prop := {
  owner_block : ∀ id b, buffers m !! id = Some b → _own_data b = true →
    ∃ i l, _data b = Some (i, 0) ∧ blocks m !! i = Some (Block true l) ∧ length l = _capacity b;
  owner_unique : ∀ id id' b b', buffers m !! id = Some b → buffers m !! id' = Some b' →
    _own_data b = true → _own_data b' = true → _data b = _data b' → id = id';
  block_owned : ∀ i l, blocks m !! i = Some (Block true l) →
    ∃ id b, buffers m !! id = Some b ∧ _own_data b = true ∧ _data b = Some (i, 0);
  blocks_below : ∀ i, next_block m ≤ i → blocks m !! i = None;
}.

(** What may be done to buffers between their construction and destruction;
    data that is wrapped stays with the caller. *)
Inductive buffer_op :=
  | OpDefault (id : nat) | OpWrap (id : nat) (p : option ptr) (cap : nat) | OpAlloc (id n : nat)
  | OpCopy (id : nat) (l : list Z) | OpMove (id other : nat) | OpAssign (id other : nat) | OpDestroy (id : nat)
  | OpSet (id : nat) (v : Z) | OpCopyInto (id : nat) (l : list Z) | OpXor (id other : nat).

Definition buffer_step (garbage : nat → nat → Z) (o : buffer_op) : ST memory () :=
  match o with
  | OpDefault id => Buffer_default id
  | OpWrap id p cap => Buffer_wrap id p cap false
  | OpAlloc id n => Buffer_alloc garbage id n
  | OpCopy id l => Buffer_copy garbage id l
  | OpMove id other => Buffer_move id other
  | OpAssign id other => move_assign id other
  | OpDestroy id => destroy id
  | OpSet id v => b ← get_buffer id; set_memory b v
  | OpCopyInto id l => b ← get_buffer id; copy_range b l
  | OpXor id other => b ← get_buffer id; o ← get_buffer other; buffer_xor b o
  end.

(** A call that only writes bytes: the objects and the shape of the blocks
    stay. *)
Definition same_shape (m m' : memory) : Prop :=
  buffers m' = buffers m ∧ next_block m' = next_block m ∧
  ∀ i, (λ b, (dynamic b, length (bytes b))) <$> blocks m' !! i = (λ b, (dynamic b, length (bytes b))) <$> blocks m !! i.
Definition writes_only {A} (c : ST memory A) : Prop := ∀ m, same_shape m (c m).1.

#[export] Instance same_shape_preorder : PreOrder same_shape.
Proof.
  split; [by intros m|]. intros m1 m2 m3 (H1 & H2 & H3) (H4 & H5 & H6). split_and!; [congruence..|].
  intros i. by rewrite H6.
Qed.

Lemma writes_bind {A C} (c : ST memory A) (k : A → ST memory C) :
  writes_only c → (∀ a, writes_only (k a)) → writes_only (c ≫= k).
Proof.
  intros Hc Hk m. unfold mbind, ST_bind. specialize (Hc m). destruct (c m) as [m' [a|e|]]; [|done..].
  etrans; [exact Hc|apply Hk].
Qed.
Lemma writes_pure {A} (r : res A) : writes_only (st_res r).
Proof. by intros m. Qed.
Lemma writes_ret {A} (a : A) : writes_only (mret a).
Proof. by intros m. Qed.
Lemma writes_load p : writes_only (load p).
Proof. intros m. unfold load. repeat case_match; done. Qed.
Lemma writes_store p v : writes_only (store p v).
Proof.
  intros m. unfold store. destruct (blocks m !! p.1) as [b|] eqn:E; [|done]. case_decide; [|done].
  split_and!; [done..|]. intros i. cbn. destruct (decide (p.1 = i)) as [<-|Hi].
  - rewrite lookup_insert_eq, E. cbn. by rewrite length_insert.
  - by rewrite lookup_insert_ne.
Qed.
Lemma writes_deref {A} d (k : ptr → ST memory A) : (∀ p, writes_only (k p)) → writes_only (deref d k).
Proof. intros Hk. destruct d; [apply Hk|apply writes_pure]. Qed.
Lemma writes_get id : writes_only (get_buffer id).
Proof. intros m. unfold get_buffer. by case_match. Qed.
#[export] Hint Resolve writes_bind writes_pure writes_ret writes_load writes_store writes_deref writes_get : lw.

Lemma writes_store_range p l : writes_only (store_range p l).
Proof. revert p. induction l; cbn; auto with lw. Qed.
Lemma writes_copy_loop b i n l : writes_only (copy_loop b i n l).
Proof. revert i l. induction n; intros i [|v l]; cbn; auto 6 with lw. Qed.
Lemma writes_xor_loop a b c i n : writes_only (xor_loop a b c i n).
Proof. revert i. induction n; intros i; cbn; auto 8 with lw. Qed.
#[export] Hint Resolve writes_store_range writes_copy_loop writes_xor_loop : lw.

Lemma same_shape_owned m m' : same_shape m m' → owned_once m → owned_once m'.
Proof.
  intros (Hb & Hn & Hs) [H1 H2 H3 H4]. split; rewrite ?Hb, ?Hn; [|done|..].
  - intros id b Hid Ho. destruct (H1 id b Hid Ho) as (i & l & Hd & Hi & Hl). specialize (Hs i). rewrite Hi in Hs. cbn in Hs.
    destruct (blocks m' !! i) as [[d l']|] eqn:E; [|done]. injection Hs as -> Hlen. exists i, l'. split_and!; [done..|congruence].
  - intros i l Hi. specialize (Hs i). rewrite Hi in Hs. cbn in Hs.
    destruct (blocks m !! i) as [[d l']|] eqn:E; [|done]. injection Hs as <- _. by eapply H3.
  - intros i Hi. specialize (Hs i). rewrite (H4 i Hi) in Hs. by destruct (blocks m' !! i).
Qed.

(** Objects that own nothing come and go freely. *)
Lemma owned_add_free bl n bs id b :
  bs !! id = None ∨ (∃ b0, bs !! id = Some b0 ∧ _own_data b0 = false) → _own_data b = false →
  owned_once (Memory bl n bs) → owned_once (Memory bl n (<[id := b]> bs)).
Proof.
  intros Hid Hb [H1 H2 H3 H4]. cbn in *. split; cbn; [..|done].
  - intros id' b' [[<- <-]|[_ H]]%lookup_insert_Some Ho; [congruence|by eapply H1].
  - intros i j x y [[<- <-]|[_ Hx]]%lookup_insert_Some [[<- <-]|[_ Hy]]%lookup_insert_Some Hox Hoy; try congruence.
    by eapply H2.
  - intros i l Hi. destruct (H3 i l Hi) as (j & x & Hx & Ho & Hd). exists j, x. split; [|done].
    rewrite lookup_insert_ne; [done|]. intros ->. destruct Hid as [?|(b0 & ? & ?)]; congruence.
Qed.

(** Handing what [other] owns to a new object. *)
Lemma owned_transfer bl n bs id other o :
  bs !! id = None → bs !! other = Some o → owned_once (Memory bl n bs) →
  owned_once (Memory bl n (<[other := MkBuffer (_capacity o) (_data o) false]> (<[id := o]> bs))).
Proof.
  intros Hid Ho [H1 H2 H3 H4]. assert (id ≠ other) as Hne by congruence. cbn in *.
  assert (∀ j x, <[other := MkBuffer (_capacity o) (_data o) false]> (<[id := o]> bs) !! j = Some x → _own_data x = true →
    ∃ j', bs !! j' = Some x ∧ (j = id ∧ j' = other ∨ j = j' ∧ j ≠ id ∧ j ≠ other)) as Hback.
  { intros j x [[<- <-]|[Hj [[<- <-]|[Hj' Hx]]%lookup_insert_Some]]%lookup_insert_Some Hox; [done|by exists other; auto|].
    exists j. split; [done|]. by right. }
  split; cbn; [..|done].
  - intros j x Hx Hox. destruct (Hback j x Hx Hox) as (j' & Hj' & _). by eapply H1.
  - intros j k x y Hx Hy Hox Hoy Hd. destruct (Hback j x Hx Hox) as (j' & Hj' & Hj), (Hback k y Hy Hoy) as (k' & Hk' & Hk).
    pose proof (H2 j' k' x y Hj' Hk' Hox Hoy Hd). naive_solver.
  - intros i l Hi. destruct (H3 i l Hi) as (j & x & Hx & Hox & Hd). destruct (decide (j = other)) as [->|Hj].
    + exists id, o. rewrite lookup_insert_ne, lookup_insert_eq by done. assert (x = o) as -> by congruence. done.
    + exists j, x. rewrite !lookup_insert_ne by congruence. done.
Qed.

(** Deleting what an object owns, with the object. *)
Lemma delete_data_owned id b m :
  owned_once m → buffers m !! id = Some b →
  ∃ bl, delete_data b m = (Memory bl (next_block m) (buffers m), Ok ()) ∧
    owned_once (Memory bl (next_block m) (delete id (buffers m))).
Proof.
  intros [H1 H2 H3 H4] Hid. unfold delete_data.
  destruct (_own_data b) eqn:Ho.
  - destruct (H1 id b Hid Ho) as (i & l & Hd & Hi & Hl). rewrite Hd. unfold delete_array. cbn. rewrite Hi. eexists. split; [done|].
    split; cbn.
    + intros j x [Hj Hx]%lookup_delete_Some Hox. destruct (H1 j x Hx Hox) as (i' & l' & Hd' & Hi' & Hl').
      exists i', l'. rewrite lookup_delete_ne; [done|]. intros <-. apply Hj. eapply (H2 id j); try done. congruence.
    + intros j k x y [_ Hx]%lookup_delete_Some [_ Hy]%lookup_delete_Some. by eapply H2.
    + intros i' l' [Hne Hi']%lookup_delete_Some. destruct (H3 i' l' Hi') as (j & x & Hx & Hox & Hdx). exists j, x.
      rewrite lookup_delete_ne; [done|]. intros <-. congruence.
    + intros i' Hi'. rewrite lookup_delete_None. right. by apply H4.
  - exists (blocks m). split; [destruct m, (_data b); done|]. split; cbn; [..|done].
    + intros j x [_ Hx]%lookup_delete_Some. by eapply H1.
    + intros j k x y [_ Hx]%lookup_delete_Some [_ Hy]%lookup_delete_Some. by eapply H2.
    + intros i l Hi. destruct (H3 i l Hi) as (j & x & Hx & Hox & Hd). exists j, x. rewrite lookup_delete_ne; [done|]. intros <-. congruence.
Qed.

Lemma owned_alloc m id n l :
  owned_once m → buffers m !! id = None → length l = n →
  owned_once (Memory (<[next_block m := Block true l]> (blocks m)) (S (next_block m))
                (<[id := MkBuffer n (Some (next_block m, 0)) true]> (buffers m))).
Proof.
  intros [H1 H2 H3 H4] Hid Hl. assert (blocks m !! next_block m = None) as Hnb by (apply H4; lia).
  assert (∀ i l, blocks m !! i = Some l → next_block m ≠ i) as Hfresh by congruence.
  split; cbn.
  - intros j x [[<- <-]|[_ Hx]]%lookup_insert_Some Hox; cbn.
    + exists (next_block m), l. by rewrite lookup_insert_eq.
    + destruct (H1 j x Hx Hox) as (i & l' & Hd & Hi & Hl'). exists i, l'. rewrite lookup_insert_ne by (by eapply Hfresh). done.
  - intros j k x y [[<- <-]|[Hj Hx]]%lookup_insert_Some [[<- <-]|[Hk Hy]]%lookup_insert_Some Hox Hoy Hd; cbn in *; [done|..].
    + destruct (H1 k y Hy Hoy) as (i & l' & Hd' & Hi & _). specialize (Hfresh i _ Hi). congruence.
    + destruct (H1 j x Hx Hox) as (i & l' & Hd' & Hi & _). specialize (Hfresh i _ Hi). congruence.
    + by eapply H2.
  - intros i l' [[<- [= <-]]|[Hne Hi]]%lookup_insert_Some.
    + exists id. eexists. by rewrite lookup_insert_eq.
    + destruct (H3 i l' Hi) as (j & x & Hx & Hox & Hd). exists j, x. rewrite lookup_insert_ne; [done|congruence].
  - intros i Hi. rewrite lookup_insert_ne by lia. apply H4. lia.
Qed.

Lemma construct_Ok id b m m' : construct id b m = (m', Ok ()) →
  buffers m !! id = None ∧ m' = Memory (blocks m) (next_block m) (<[id := b]> (buffers m)).
Proof. unfold construct. destruct (buffers m !! id) eqn:E; [done|]. by intros [= <-]. Qed.
Lemma get_buffer_Ok id b m m' : get_buffer id m = (m', Ok b) → buffers m !! id = Some b ∧ m' = m.
Proof. unfold get_buffer. destruct (buffers m !! id) eqn:E; [|done]. by intros [= <- <-]. Qed.

(** Assignment from another object and from itself. *)
Lemma move_assign_owned id other m b o :
  owned_once m → buffers m !! id = Some b → buffers m !! other = Some o →
  ∃ m', move_assign id other m = (m', Ok ()) ∧ owned_once m'.
Proof.
  intros Hm Hid Hother. destruct (delete_data_owned id b m Hm Hid) as (bl & Hd & Hbl).
  unfold move_assign, mbind, ST_bind. unfold get_buffer at 1. rewrite Hid, Hd.
  unfold get_buffer at 1. cbn [buffers]. rewrite Hother. unfold set_buffer at 1, st_modify, disown, mbind, ST_bind, get_buffer.
  cbn [buffers blocks next_block]. destruct (decide (id = other)) as [<-|Hne].
  - rewrite lookup_insert_eq. unfold set_buffer, st_modify. cbn [buffers blocks next_block]. eexists. split; [done|].
    rewrite insert_insert_eq, <- insert_delete_eq. apply owned_add_free; [left; by rewrite lookup_delete_eq|done|done].
  - rewrite lookup_insert_ne, Hother by done. unfold set_buffer, st_modify. cbn [buffers blocks next_block]. eexists. split; [done|].
    rewrite <- (insert_delete_eq (buffers m) id). apply owned_transfer; [by rewrite lookup_delete_eq|by rewrite lookup_delete_ne|done].
Qed.
Lemma destroy_owned id m b :
  owned_once m → buffers m !! id = Some b → ∃ m', destroy id m = (m', Ok ()) ∧ owned_once m'.
Proof.
  intros Hm Hid. destruct (delete_data_owned id b m Hm Hid) as (bl & Hd & Hbl).
  unfold destroy, mbind, ST_bind. unfold get_buffer at 1. rewrite Hid, Hd. by eexists.
Qed.

Lemma buffer_step_owned garbage o m m' :
  owned_once m → buffer_step garbage o m = (m', Ok ()) → owned_once m'.
Proof.
  intros Hm. assert (∀ c, writes_only c → c m = (m', Ok ()) → owned_once m') as Hw.
  { intros c Hc E. specialize (Hc m). rewrite E in Hc. by eapply same_shape_owned. }
  destruct o as [id|id p cap|id n|id l|id other|id other|id|id v|id l|id other]; cbn [buffer_step].
  - intros [Hid ->]%construct_Ok. destruct m. by apply owned_add_free; [left|..].
  - intros [Hid ->]%construct_Ok. destruct m. by apply owned_add_free; [left|..].
  - unfold Buffer_alloc, mbind, ST_bind, new_array. intros [Hid ->]%construct_Ok. cbn in *. apply owned_alloc; [done..|].
    by rewrite length_fmap, length_seq.
  - unfold Buffer_copy, mbind, ST_bind, new_array. destruct (construct _ _ _) as [m1 [[]|e|]] eqn:E; [|done..].
    apply construct_Ok in E as [Hid ->]. cbn [buffers blocks next_block] in *. intros E.
    eapply same_shape_owned; [|apply owned_alloc; [exact Hm|exact Hid|]].
    + match type of E with store_range ?p ?l ?m0 = _ => pose proof (writes_store_range p l m0) as H end.
      rewrite E in H. exact H.
    + by rewrite length_fmap, length_seq.
  - unfold Buffer_move, mbind, ST_bind. destruct (get_buffer other m) as [m1 [o|e|]] eqn:E; [|done..].
    apply get_buffer_Ok in E as [Ho ->]. destruct (construct id o m) as [m1 [[]|e|]] eqn:E; [|done..].
    apply construct_Ok in E as [Hid ->]. unfold disown, mbind, ST_bind, get_buffer. cbn [buffers].
    rewrite lookup_insert_ne, Ho by congruence. unfold set_buffer, st_modify. intros [= <-]. destruct m. by apply owned_transfer.
  - intros E. destruct (buffers m !! id) as [b|] eqn:Hid; [|by unfold move_assign, mbind, ST_bind, get_buffer in E; rewrite Hid in E].
    destruct (buffers m !! other) as [b'|] eqn:Ho.
    + destruct (move_assign_owned id other m b b' Hm Hid Ho) as (m2 & E2 & H2). rewrite E2 in E. by injection E as <-.
    + destruct (delete_data_owned id b m Hm Hid) as (bl & Hd & Hbl).
      unfold move_assign, mbind, ST_bind in E. unfold get_buffer at 1 in E. rewrite Hid, Hd in E.
      unfold get_buffer at 1 in E. cbn [buffers] in E. by rewrite Ho in E.
  - intros E. destruct (buffers m !! id) as [b|] eqn:Hid; [|by unfold destroy, mbind, ST_bind, get_buffer in E; rewrite Hid in E].
    destruct (destroy_owned id m b Hm Hid) as (m2 & E2 & H2). rewrite E2 in E. by injection E as <-.
  - apply Hw. unfold set_memory. auto 6 with lw.
  - apply Hw. unfold copy_range. auto 6 with lw.
  - apply Hw. unfold buffer_xor, _xor. auto 8 with lw.
Qed.

(** * Contents *)

(** [l] are the bytes the buffer shows. *)
Definition shows (m : memory) (b : Buffer) (l : list Z) : Prop :=
  ∃ p bl, _data b = Some p ∧ blocks m !! p.1 = Some bl ∧ p.2 + _capacity b ≤ length (bytes bl) ∧
    l = take (_capacity b) (drop p.2 (bytes bl)).

(** A list with the elements from [o] on replaced by [l]. *)
Definition splice (o : nat) (l x : list Z) : list Z := take o x ++ l ++ drop (o + length l) x.
#[global] Arguments splice : simpl never.

(** Memory with the bytes from [p] on replaced by [l]. *)
Definition write_at (p : ptr) (l : list Z) (m : memory) : memory :=
  Memory (alter (λ bl, Block (dynamic bl) (splice p.2 l (bytes bl))) p.1 (blocks m)) (next_block m) (buffers m).

Definition is_byte (v : Z) : Prop := (0 ≤ v < 2 ^ 8)%Z.

Lemma shows_length m b l : shows m b l → length l = _capacity b.
Proof. intros (p & bl & _ & _ & Hle & ->). rewrite length_take, length_drop. lia. Qed.

Lemma load_byte_spec m p bl v : blocks m !! p.1 = Some bl → bytes bl !! p.2 = Some v → load p m = (m, Ok v).
Proof. intros H1 H2. unfold load. by rewrite H1, H2. Qed.

Lemma load_range_spec m p bl n :
  blocks m !! p.1 = Some bl → p.2 + n ≤ length (bytes bl) →
  load_range p n m = (m, Ok (take n (drop p.2 (bytes bl)))).
Proof.
  revert p. induction n as [|n IH]; intros [i o] Hb Hle; [done|]. cbn [fst snd] in *.
  destruct (lookup_lt_is_Some_2 (bytes bl) o) as [v Hv]; [lia|].
  cbn [load_range]. unfold mbind, ST_bind. rewrite (load_byte_spec m (i, o) bl v) by done.
  rewrite IH by (cbn; try done; lia). cbn. by rewrite (drop_S _ _ _ Hv), Nat.add_1_r.
Qed.

Lemma splice_nil o (x : list Z) : splice o [] x = x.
Proof. unfold splice. cbn. by rewrite Nat.add_0_r, take_drop. Qed.
Lemma splice_app (x1 y x2 l : list Z) : length y = length l → splice (length x1) l (x1 ++ y ++ x2) = x1 ++ l ++ x2.
Proof.
  intros Hl. unfold splice. rewrite take_app_length, <- drop_drop, drop_app_length, <- Hl. by rewrite drop_app_length.
Qed.
Lemma splice_at o (l x : list Z) : o + length l ≤ length x → ∃ x1 y x2, x = x1 ++ y ++ x2 ∧ length x1 = o ∧ length y = length l.
Proof.
  intros H. exists (take o x), (take (length l) (drop o x)), (drop (length l) (drop o x)). rewrite !take_drop.
  rewrite !length_take, length_drop. split_and!; [done|lia..].
Qed.
Lemma splice_cons o v l x : o + S (length l) ≤ length x → splice (o + 1) l (splice o [v] x) = splice o (v :: l) x.
Proof.
  intros H. destruct (splice_at o (v :: l) x H) as (x1 & [|a y] & x2 & -> & <- & Hl); [done|].
  rewrite (splice_app x1 (a :: y) x2 (v :: l)) by done. injection Hl as Hl.
  change (x1 ++ (a :: y) ++ x2) with (x1 ++ [a] ++ (y ++ x2)). rewrite (splice_app x1 [a]) by done.
  rewrite app_assoc. replace (length x1 + 1) with (length (x1 ++ [v])) by (rewrite length_app; done).
  rewrite splice_app by done. by rewrite <- app_assoc.
Qed.
Lemma splice_insert o v (x : list Z) : o < length x → splice o [v] x = <[o := v]> x.
Proof. intros H. unfold splice. cbn. rewrite Nat.add_1_r. symmetry. by apply insert_take_drop. Qed.
Lemma length_splice o (l x : list Z) : o + length l ≤ length x → length (splice o l x) = length x.
Proof. intros H. destruct (splice_at o l x H) as (x1 & y & x2 & -> & <- & Hl). rewrite splice_app by done. rewrite !length_app. lia. Qed.

Lemma write_at_nil p m : write_at p [] m = m.
Proof.
  unfold write_at. destruct m as [bl n bs]. cbn. f_equal. apply map_eq. intros i. rewrite lookup_alter.
  case_decide; [subst|done]. destruct (bl !! p.1) as [[d l]|]; [|done]. cbn. by rewrite splice_nil.
Qed.

Lemma write_at_block p l m bl :
  blocks m !! p.1 = Some bl → blocks (write_at p l m) !! p.1 = Some (Block (dynamic bl) (splice p.2 l (bytes bl))).
Proof. intros H. unfold write_at. cbn. by rewrite lookup_alter_eq, H. Qed.

Lemma write_at_cons p v l m bl :
  blocks m !! p.1 = Some bl → p.2 + S (length l) ≤ length (bytes bl) →
  write_at (advance p 1) l (write_at p [v] m) = write_at p (v :: l) m.
Proof.
  intros Hb Hp. unfold write_at. cbn. f_equal. apply map_eq. intros i. rewrite !lookup_alter. case_decide; [subst i|done].
  rewrite Hb, decide_True by done. cbn. by rewrite splice_cons.
Qed.

Lemma store_spec m p v bl :
  blocks m !! p.1 = Some bl → p.2 < length (bytes bl) → is_byte v → store p v m = (write_at p [v] m, Ok ()).
Proof.
  intros Hb Hp Hv. unfold store. rewrite Hb, decide_True by done. rewrite wrap_u_small by done.
  unfold set_block, st_modify, write_at. do 2 f_equal. apply map_eq. intros i. rewrite lookup_alter. case_decide as Hi.
  - subst i. rewrite lookup_insert_eq, Hb. cbn. by rewrite splice_insert.
  - by rewrite lookup_insert_ne.
Qed.

Lemma store_range_spec m p l bl :
  blocks m !! p.1 = Some bl → p.2 + length l ≤ length (bytes bl) → Forall is_byte l →
  store_range p l m = (write_at p l m, Ok ()).
Proof.
  intros Hb Hle Hl. revert p m bl Hb Hle. induction Hl as [|v l Hv Hl IH]; intros p m bl Hb Hle.
  - cbn. by rewrite write_at_nil.
  - cbn [store_range length] in *. unfold mbind, ST_bind. rewrite (store_spec m p v bl) by (try done; lia).
    rewrite (IH _ _ (Block (dynamic bl) (splice p.2 [v] (bytes bl)))).
    + by rewrite (write_at_cons p v l m bl).
    + by apply (write_at_block p).
    + cbn. rewrite length_splice by (cbn; lia). lia.
Qed.

Lemma splice_twice o (l l' x : list Z) : length l = length l' → o + length l ≤ length x → splice o l' (splice o l x) = splice o l' x.
Proof.
  intros Hl H. destruct (splice_at o l x H) as (x1 & y & x2 & -> & <- & Hy). rewrite (splice_app x1 y), !splice_app by congruence. done.
Qed.
Lemma splice_self o n (x : list Z) : o + n ≤ length x → splice o (take n (drop o x)) x = x.
Proof.
  intros H. unfold splice. rewrite length_take_le by (rewrite length_drop; lia). rewrite <- drop_drop, take_drop. apply take_drop.
Qed.
Lemma splice_shows o (l x : list Z) : o + length l ≤ length x → take (length l) (drop o (splice o l x)) = l.
Proof.
  intros H. destruct (splice_at o l x H) as (x1 & y & x2 & -> & <- & Hy). rewrite splice_app by done.
  by rewrite drop_app_length, take_app_length.
Qed.

Lemma write_at_twice p (l l' : list Z) m bl :
  blocks m !! p.1 = Some bl → length l = length l' → p.2 + length l ≤ length (bytes bl) →
  write_at p l' (write_at p l m) = write_at p l' m.
Proof.
  intros Hb Hl H. unfold write_at. cbn. f_equal. apply map_eq. intros i. rewrite !lookup_alter. case_decide; [subst i|done].
  rewrite Hb, decide_True by done. cbn. by rewrite splice_twice.
Qed.
Lemma write_at_self p n m bl :
  blocks m !! p.1 = Some bl → p.2 + n ≤ length (bytes bl) → write_at p (take n (drop p.2 (bytes bl))) m = m.
Proof.
  intros Hb H. unfold write_at. destruct m as [bls nx bs]. cbn in *. f_equal. apply map_eq. intros i. rewrite lookup_alter.
  case_decide; [subst i|done]. rewrite Hb. cbn. rewrite splice_self by done. by destruct bl.
Qed.

Lemma is_byte_lxor a b : is_byte a → is_byte b → is_byte (Z.lxor a b).
Proof.
  unfold is_byte. intros Ha Hb. split; [apply Z.lxor_nonneg; lia|].
  destruct (decide (Z.lxor a b = 0)%Z) as [->|Hn]; [done|].
  assert (0 ≤ Z.lxor a b)%Z by (apply Z.lxor_nonneg; lia).
  apply Z.log2_lt_pow2; [lia|]. pose proof (Z.log2_lxor a b ltac:(lia) ltac:(lia)).
  assert (∀ z, 0 ≤ z < 2 ^ 8 → Z.log2 z < 8)%Z as Hlog.
  { intros z Hz. destruct (decide (z = 0)%Z) as [->|]; [done|]. apply Z.log2_lt_pow2; lia. }
  pose proof (Hlog a Ha). pose proof (Hlog b Hb). lia.
Qed.

Lemma xor_loop_spec lhs rhs out i n p q m bp bq :
  _data lhs = Some p → _data rhs = Some q → _data out = Some p → p.1 ≠ q.1 →
  blocks m !! p.1 = Some bp → blocks m !! q.1 = Some bq →
  p.2 + i + n ≤ length (bytes bp) → q.2 + i + n ≤ length (bytes bq) →
  Forall is_byte (bytes bp) → Forall is_byte (bytes bq) →
  xor_loop lhs rhs out i n m =
    (write_at (advance p i) (zip_with Z.lxor (take n (drop (p.2 + i) (bytes bp))) (take n (drop (q.2 + i) (bytes bq)))) m, Ok ()).
Proof.
  intros H1 H2 H3 Hne Hp Hq Hlp Hlq Hbp Hbq. revert i m bp Hp Hq Hlp Hlq Hbp.
  induction n as [|n IH]; intros i m bp Hp Hq Hlp Hlq Hbp.
  - cbn. by rewrite write_at_nil.
  - destruct (lookup_lt_is_Some_2 (bytes bp) (p.2 + i)) as [a Ha]; [lia|].
    destruct (lookup_lt_is_Some_2 (bytes bq) (q.2 + i)) as [b Hb]; [lia|].
    pose proof (Forall_lookup_1 _ _ _ _ Hbp Ha) as Hab. pose proof (Forall_lookup_1 _ _ _ _ Hbq Hb) as Hbb.
    cbn [xor_loop]. unfold at_index. rewrite H1, H2, H3. cbn [fmap option_fmap option_map deref]. unfold mbind, ST_bind.
    rewrite (load_byte_spec m (advance p i) bp a), (load_byte_spec m (advance q i) bq b) by done.
    rewrite (store_spec m (advance p i) _ bp) by (solve [done|cbn; lia|by apply is_byte_lxor]).
    rewrite (IH _ _ (Block (dynamic bp) (splice (p.2 + i) [Z.lxor a b] (bytes bp)))).
    + rewrite (drop_S _ _ _ Ha), (drop_S _ _ _ Hb). cbn [take zip_with bytes].
      rewrite <- (write_at_cons (advance p i) _ (zip_with Z.lxor (take n (drop (S (p.2 + i)) (bytes bp)))
        (take n (drop (S (q.2 + i)) (bytes bq)))) m bp); [|done|].
      * unfold advance. cbn [fst snd]. rewrite splice_insert by lia. rewrite drop_insert_lt by lia.
        by rewrite !Nat.add_assoc, !Nat.add_1_r.
      * cbn. rewrite length_zip_with, !length_take, !length_drop. lia.
    + by apply (write_at_block (advance p i)).
    + unfold write_at. cbn. by rewrite lookup_alter_ne.
    + cbn. rewrite length_splice by (cbn; lia). lia.
    + lia.
    + cbn. rewrite splice_insert by lia. by apply Forall_insert; [|apply is_byte_lxor].
Qed.

(** Blocks hold bytes. *)
Definition byte_memory (m : memory) : Prop := ∀ i bl, blocks m !! i = Some bl → Forall is_byte (bytes bl).

(** The window of a buffer after a write to its first bytes. *)
Lemma shows_write m b p bl l x :
  _data b = Some p → blocks m !! p.1 = Some bl → p.2 + _capacity b ≤ length (bytes bl) → length x ≤ _capacity b →
  l = take (_capacity b) (drop p.2 (bytes bl)) → shows (write_at p x m) b (x ++ drop (length x) l).
Proof.
  intros Hd Hb Hle Hx ->. exists p, (Block (dynamic bl) (splice p.2 x (bytes bl))). split; [done|].
  split; [by apply (write_at_block p)|]. cbn. rewrite length_splice by lia. split; [done|].
  destruct (splice_at p.2 (take (_capacity b) (drop p.2 (bytes bl))) (bytes bl)) as (x1 & y & x2 & E & Hx1 & Hy).
  { rewrite length_take_le; [done|]. rewrite length_drop. lia. }
  rewrite length_take_le in Hy by (rewrite length_drop; lia). rewrite E, <- Hx1, drop_app_length, <- Hy, take_app_length.
  destruct (splice_at 0 x y) as (y0 & y1 & y2 & -> & Hy0 & Hy1); [lia|]. destruct y0; [|done]. cbn.
  rewrite <- Hy1, drop_app_length, <- app_assoc. rewrite splice_app by done. rewrite drop_app_length.
  rewrite app_assoc, take_app_length'; [done|]. rewrite !length_app. lia.
Qed.

Lemma copy_loop_spec b p i n src m bl :
  _data b = Some p → blocks m !! p.1 = Some bl → p.2 + i + n ≤ length (bytes bl) → Forall is_byte src →
  copy_loop b i n src m = (write_at (advance p i) (take n src) m, Ok ()).
Proof.
  intros Hd Hb Hle Hs. revert i n m bl Hb Hle. induction Hs as [|v src Hv Hs IH]; intros i n m bl Hb Hle.
  - rewrite take_nil, write_at_nil. by destruct n.
  - destruct n as [|n]; [cbn; by rewrite write_at_nil|]. cbn [copy_loop take]. unfold at_index. rewrite Hd. cbn [fmap option_fmap option_map deref].
    unfold mbind, ST_bind. rewrite (store_spec m (advance p i) v bl) by (solve [done|cbn; lia]).
    rewrite (IH _ _ _ (Block (dynamic bl) (splice (p.2 + i) [v] (bytes bl)))); cbn [bytes].
    + rewrite <- (write_at_cons (advance p i) v (take n src) m bl); [|done|rewrite length_take; cbn; lia].
      unfold advance. cbn. by rewrite Nat.add_assoc.
    + by apply (write_at_block (advance p i)).
    + rewrite length_splice by (cbn; lia). lia.
Qed.

Lemma bytes_lxor l r : Forall is_byte l → Forall is_byte r → Forall is_byte (zip_with Z.lxor l r).
Proof. intros Hl. revert r. induction Hl; intros ? []; cbn; constructor; [by apply is_byte_lxor|auto]. Qed.

(** Reading a byte that is shown, and cutting bytes off the front. *)
Lemma shows_load m b l i x : shows m b l → l !! i = Some x → deref (at_index b i) load m = (m, Ok x).
Proof.
  intros (p & bp & Hdp & Hbp & Hlp & ->). rewrite lookup_take_Some, lookup_drop. intros [Hx Hi].
  unfold at_index. rewrite Hdp. by apply (load_byte_spec m (advance p i) bp).
Qed.
Lemma trim_prefix_shows m b l n : shows m b l → n ≤ length l →
  ∃ t, trim_prefix b n = Ok t ∧ shows m t (drop n l) ∧ _own_data t = false ∧ _capacity t = length l - n.
Proof.
  intros Hs Hn. pose proof (shows_length _ _ _ Hs) as Hlen. destruct Hs as (p & bp & Hdp & Hbp & Hlp & El).
  unfold trim_prefix. rewrite Hdp, decide_False by lia. eexists. split; [done|]. cbn. split_and!; [|done|lia].
  exists (advance p n), bp. cbn. split_and!; try done; [lia|]. by rewrite El, skipn_firstn_comm, drop_drop.
Qed.

Lemma zip_lxor_twice l r : length l ≤ length r → zip_with Z.lxor (zip_with Z.lxor l r) r = l.
Proof.
  revert r. induction l as [|a l IH]; intros [|b r] Hle; [done..|cbn in Hle; lia|]. cbn in *. rewrite IH by lia.
  by rewrite Z.lxor_assoc, Z.lxor_nilpotent, Z.lxor_0_r.
Qed.

(** * Properties *)

(** C19.  Whatever is done to buffers, each block made by [new[]] is owned by
    exactly one of them, from its start and with its size: destroying or
    assigning a buffer is never undefined, so no block is deleted twice, and
    when all buffers are gone no block is left. *)
Theorem buffer_ownership (garbage : nat → nat → Z) (static : gmap nat block) (n : nat) (ops : list buffer_op) (m : memory) :
  (∀ i b, static !! i = Some b → dynamic b = false ∧ i < n) →
  for_each (buffer_step garbage) ops (Memory static n ∅) = (m, Ok ()) →
  owned_once m ∧
  (∀ id, is_Some (buffers m !! id) → ∃ m', destroy id m = (m', Ok ())) ∧
  (∀ id other, is_Some (buffers m !! id) → is_Some (buffers m !! other) → ∃ m', move_assign id other m = (m', Ok ())) ∧
  (buffers m = ∅ → ∀ i b, blocks m !! i = Some b → dynamic b = false).
Proof.
  intros Hs E. assert (owned_once m) as Hm.
  { assert (owned_once (Memory static n ∅)) as H0.
    { split; cbn; [done..| |].
      - intros i l Hi. by destruct (Hs i _ Hi).
      - intros i Hi. destruct (static !! i) as [b|] eqn:Hb; [|done]. destruct (Hs i b Hb). lia. }
    revert E H0. generalize (Memory static n ∅). induction ops as [|o ops IH]; intros m0; cbn; [by intros [= <-]|].
    unfold mbind, ST_bind. destruct (buffer_step garbage o m0) as [m1 [[]|e|]] eqn:Eo; [|done..].
    intros E H0. eapply IH; [exact E|]. by eapply buffer_step_owned. }
  split; [done|]. split_and!.
  - intros id [b Hb]. destruct (destroy_owned id m b Hm Hb) as (m' & H & _). by exists m'.
  - intros id other [b Hb] [o Ho]. destruct (move_assign_owned id other m b o Hm Hb Ho) as (m' & H & _). by exists m'.
  - intros Hnil i [[] l] Hi; [|done]. destruct (block_owned m Hm i l Hi) as (id & b & Hb & _). by rewrite Hnil, lookup_empty in Hb.
Qed.

(** [^=] combines the common prefix byte by byte, leaves the rest of the
    buffer and the whole other buffer alone, and doing it again restores the
    memory. *)
Theorem xor_combines (m : memory) (b o : Buffer) (l r : list Z) :
  byte_memory m → shows m b l → shows m o r → fst <$> _data b ≠ fst <$> _data o →
  ∃ m', buffer_xor b o m = (m', Ok ()) ∧
    shows m' b (zip_with Z.lxor l r ++ drop (length r) l) ∧ shows m' o r ∧ buffer_xor b o m' = (m, Ok ()).
Proof.
  intros Hm (p & bp & Hdp & Hbp & Hlp & ->) (q & bq & Hdq & Hbq & Hlq & ->) Hne. rewrite Hdp, Hdq in Hne.
  assert (p.1 ≠ q.1) as Hpq by (cbn in Hne; congruence). set (n := Nat.min (_capacity b) (_capacity o)).
  set (x := take n (drop p.2 (bytes bp))). set (y := take n (drop q.2 (bytes bq))).
  assert (length x = n ∧ length y = n) as [Hx Hy] by (unfold x, y; rewrite !length_take, !length_drop; lia).
  assert (∀ m bp, blocks m !! p.1 = Some bp → blocks m !! q.1 = Some bq → p.2 + _capacity b ≤ length (bytes bp) → Forall is_byte (bytes bp) →
    buffer_xor b o m = (write_at p (zip_with Z.lxor (take n (drop p.2 (bytes bp))) y) m, Ok ())) as Hrun.
  { clear x Hx. intros m0 b0 H1 H2 H3 H4. unfold buffer_xor, _xor, size, capacity. cbn [_capacity]. fold n.
    rewrite (xor_loop_spec b o _ 0 n p q m0 b0 bq); try done; try lia; [|by eapply Hm].
    unfold y. rewrite !Nat.add_0_r. unfold advance. rewrite Nat.add_0_r. by destruct p. }
  set (z := zip_with Z.lxor x y). assert (length z = n) as Hz by (unfold z; rewrite length_zip_with; lia).
  exists (write_at p z m). split; [by eapply Hrun, Hm|].
  assert (zip_with Z.lxor (take (_capacity b) (drop p.2 (bytes bp))) (take (_capacity o) (drop q.2 (bytes bq))) = z) as Hzz.
  { unfold z, x, y. rewrite <- zip_with_take_both. rewrite !length_take, !length_drop, !take_take. do 2 f_equal; lia. }
  split_and!.
  - rewrite Hzz. replace (drop (length (take (_capacity o) (drop q.2 (bytes bq)))) (take (_capacity b) (drop p.2 (bytes bp))))
      with (drop (length z) (take (_capacity b) (drop p.2 (bytes bp)))).
    + by apply (shows_write m b p bp); try done; lia.
    + rewrite Hz, length_take, length_drop. destruct (decide (_capacity o ≤ _capacity b)); [f_equal; lia|].
      rewrite !drop_ge; [done|rewrite length_take; lia..].
  - exists q, bq. split_and!; try done. unfold write_at. cbn. by rewrite lookup_alter_ne.
  - rewrite (Hrun _ (Block (dynamic bp) (splice p.2 z (bytes bp)))).
    + cbn [bytes]. replace (take n (drop p.2 (splice p.2 z (bytes bp)))) with z by (rewrite <- Hz; symmetry; apply splice_shows; lia).
      unfold z. rewrite zip_lxor_twice by lia. rewrite (write_at_twice p _ x m bp); [|done|unfold z in Hz; lia|fold z; lia].
      unfold x. by rewrite (write_at_self p n m bp) by (try done; lia).
    + by apply (write_at_block p).
    + unfold write_at. cbn. by rewrite lookup_alter_ne.
    + cbn. rewrite length_splice by lia. done.
    + cbn. unfold splice. rewrite !Forall_app. split_and!; [by apply Forall_take, (Hm _ _ Hbp)| |by apply Forall_drop, (Hm _ _ Hbp)].
      apply bytes_lxor; apply Forall_take, Forall_drop; by eapply Hm.
Qed.

(** What a buffer shows: copying replaces the first bytes and stops at its
    size, trimming throws exactly when more is cut off than there is and
    otherwise shows the rest without owning it, equality compares sizes and
    bytes while views compare addresses, and [front] and [back] are the first
    and the last byte. *)
Theorem buffer_contents (m : memory) (b o : Buffer) (l r src : list Z) (n : nat) :
  shows m b l → shows m o r → Forall is_byte src →
  view_bytes b m = (m, Ok l) ∧
  (∃ m', copy_range b src m = (m', Ok ()) ∧ shows m' b (take (length l) src ++ drop (length src) l)) ∧
  (if decide (n ≤ length l)
   then ∃ t u, trim_prefix b n = Ok t ∧ shows m t (drop n l) ∧ _own_data t = false ∧
     trim_suffix b n = Ok u ∧ shows m u (take (length l - n) l) ∧ _own_data u = false
   else trim_prefix b n = throw InvalidArgument ∧ trim_suffix b n = throw InvalidArgument) ∧
  buffer_eq b o m = (m, Ok (bool_decide (l = r))) ∧
  (view_eq (view_of b) (view_of o) = true → l = r) ∧
  (∀ x l', l = x :: l' → ∃ p, front b = Ok p ∧ load p m = (m, Ok x)) ∧
  (∀ x l', l = l' ++ [x] → ∃ q, back b = Ok q ∧ load q m = (m, Ok x)).
Proof.
  intros Hb Ho Hsrc. pose proof (shows_length _ _ _ Hb) as Hlen. pose proof (shows_length _ _ _ Ho) as Hlen'.
  pose proof Hb as (p & bp & Hdp & Hbp & Hlp & El). pose proof Ho as (q & bq & Hdq & Hbq & Hlq & Er).
  assert (∀ i x, l !! i = Some x → load (advance p i) m = (m, Ok x)) as Hload.
  { intros i x Hi. pose proof (shows_load m b l i x Hb Hi) as H. unfold at_index in H. by rewrite Hdp in H. }
  split_and!.
  - unfold view_bytes, size, capacity. case_decide as H0; [by destruct l; [|cbn in Hlen; lia]|].
    rewrite Hdp. cbn. by rewrite (load_range_spec m p bp), El.
  - exists (write_at p (take (size b) src) m). split.
    + unfold copy_range. rewrite (copy_loop_spec b p 0 _ src m bp) by (try done; unfold size, capacity; lia).
      unfold advance. rewrite Nat.add_0_r. by destruct p.
    + unfold size, capacity. rewrite Hlen. pose proof (shows_write m b p bp l (take (_capacity b) src) Hdp Hbp Hlp) as H.
      rewrite length_take in H. destruct (decide (_capacity b ≤ length src)) as [Hle|Hle].
      * rewrite (drop_ge l (length src)) by lia. rewrite (drop_ge l) in H by lia. apply H; [lia|done].
      * replace (_capacity b `min` length src) with (length src) in H by lia. apply H; [lia|done].
  - unfold trim_suffix. case_decide as Hn.
    + destruct (trim_prefix_shows m b l n Hb Hn) as (t & -> & Ht & Hot & _). exists t. rewrite decide_False by lia.
      eexists. split_and!; [done|done|done|done| |done]. exists p, bp. cbn. split_and!; try done; [lia|].
      rewrite Hlen, El, take_take. f_equal. lia.
    + unfold trim_prefix. by rewrite !decide_True by lia.
  - unfold buffer_eq, size, capacity. rewrite Hdp, Hdq. case_decide as Hc.
    + rewrite bool_decide_false; [done|]. intros ->. lia.
    + case_decide as Hp.
      * injection Hp as ->. rewrite bool_decide_true; [done|]. congruence.
      * cbn [deref]. unfold mbind, ST_bind. rewrite (load_range_spec m p bp) by done. rewrite Hc, (load_range_spec m q bq) by done.
        by rewrite <- Er, <- Hc, <- El.
  - unfold view_eq, view_of. intros [H1 H2]%bool_decide_eq_true. cbn in *. unfold size, capacity in H2. cbn in H2. congruence.
  - intros x l' E. exists p. unfold front. rewrite Hdp. split; [done|].
    specialize (Hload 0 x). rewrite E in Hload. unfold advance in Hload. rewrite Nat.add_0_r in Hload. destruct p. by apply Hload.
  - intros x l' E. exists (advance p (_capacity b - 1)). unfold back. rewrite Hdp. rewrite E, length_app in Hlen. cbn in Hlen.
    rewrite decide_False by lia. split; [done|]. apply Hload. rewrite E, <- Hlen. replace (length l' + 1 - 1) with (length l') by lia.
    by apply list_lookup_middle.
Qed.

(** * Examples *)

(** Two buffers of their own, one that took over from a third, and one around
    a block of the caller. *)
Definition sample_static : gmap nat block := {[0 := Block false [7; 7; 7; 7]%Z]}.
Definition sample_ops : list buffer_op :=
  [OpCopy 0 [1; 2; 3]%Z; OpCopy 1 [255; 254]%Z; OpMove 2 0; OpWrap 3 (Some (0, 1)) 2; OpAssign 0 1; OpAssign 0 0].
Definition sample_memory : memory := (for_each (buffer_step (λ _ _, 0%Z)) sample_ops (Memory sample_static 1 ∅)).1.
Definition sample_a : Buffer := MkBuffer 3 (Some (1, 0)) true.
Definition sample_b : Buffer := MkBuffer 2 (Some (0, 1)) false.

Lemma sample_shows : shows sample_memory sample_a [1; 2; 3]%Z ∧ shows sample_memory sample_b [7; 7]%Z.
Proof. split; eexists _, _; split_and!; try (by vm_compute); cbn; lia. Qed.

Lemma buffer_ownership_witness : owned_once sample_memory ∧ ∃ m', destroy 2 sample_memory = (m', Ok ()).
Proof.
  destruct (buffer_ownership (λ _ _, 0%Z) sample_static 1 sample_ops sample_memory) as (H1 & H2 & _).
  - intros i b. unfold sample_static. intros [<- <-]%lookup_singleton_Some. by split; [|lia].
  - by vm_compute.
  - split; [exact H1|]. apply H2. vm_compute. by eexists.
Defined.

Lemma xor_combines_witness :
  ∃ m', buffer_xor sample_a sample_b sample_memory = (m', Ok ()) ∧ shows m' sample_a [6; 5; 3]%Z ∧
    buffer_xor sample_a sample_b m' = (sample_memory, Ok ()).
Proof.
  destruct (xor_combines sample_memory sample_a sample_b [1; 2; 3]%Z [7; 7]%Z) as (m' & H1 & H2 & _ & H3);
    [|apply sample_shows..|done|by exists m'].
  apply map_Forall_to_list. vm_compute. by repeat constructor.
Defined.

Lemma buffer_contents_witness :
  view_bytes sample_a sample_memory = (sample_memory, Ok [1; 2; 3]%Z) ∧
  ∃ m', copy_range sample_a [9; 8]%Z sample_memory = (m', Ok ()) ∧ shows m' sample_a [9; 8; 3]%Z.
Proof.
  destruct (buffer_contents sample_memory sample_a sample_b [1; 2; 3]%Z [7; 7]%Z [9; 8]%Z 1) as (H1 & H2 & _);
    [apply sample_shows..|by repeat constructor|]. by split.
Defined.

(** Assigning a buffer to itself deletes its data and leaves it pointing to what
    was deleted. *)
Lemma self_assign_dangles :
  ∃ m, for_each (buffer_step (λ _ _, 0%Z)) [OpCopy 0 [1; 2]%Z; OpAssign 0 0] (Memory ∅ 0 ∅) = (m, Ok ()) ∧
    buffers m !! 0 = Some (MkBuffer 2 (Some (0, 0)) false) ∧ load (0, 0) m = (m, Undef).
Proof. eexists. split; [by vm_compute|]. by split. Qed.

(** Setting the memory of a default buffer passes null to [memset]. *)
Lemma set_null_undefined m : set_memory (MkBuffer 0 None false) 0 m = (m, Undef).
Proof. done. Qed.
