(* ===== verification/Blobs.v ===== *)
(** lw/format/blobs: views of a buffer as hexadecimal and base64 text, read
    through iterators. *)
From S2P Require Import Prelude Cxx Buffer.

(** * Iterators *)

(** What [BlobView] needs of the iterator it is a template over. *)
Class BlobIterator (I : Type) := {
  it_begin : Buffer → ST memory I;
  it_end : Buffer → Z → I;
  it_next : I → ST memory I;
  it_prev : I → ST memory I;
  it_deref : I → res ascii;
  it_eq : I → I → bool;
  it_size : Z → Z;
  it_position : I → Z;
}.

Definition chr (n : Z) : ascii := ascii_of_nat (Z.to_nat n).
Definition NUL : ascii := chr 0.

(** Reading [buffer[i]]. *)
Definition byte_at (b : Buffer) (i : Z) : ST memory Z := deref (at_index b (Z.to_nat i)) load.
Definition length_of (b : Buffer) : Z := Z.of_nat (size b).

(** * Hexadecimal *)

(** A fresh array holds no characters yet. *)
Record HexIterator := MkHex { hex_buffer : Buffer; _hex : str; hex_index : Z; hex_char_index : nat }.

Definition to_hex_char (n : Z) : ascii := if (n <? 10)%Z then chr (48 + n) else chr (97 + n - 10).

Definition hex_load_chars (it : HexIterator) : ST memory HexIterator :=
  if decide (hex_index it < length_of (hex_buffer it))%Z then
    hi ← byte_at (hex_buffer it) (hex_index it);
    lo ← byte_at (hex_buffer it) (hex_index it);
    mret (MkHex (hex_buffer it) [to_hex_char (Z.land (Z.shiftr hi 4) 15); to_hex_char (Z.land lo 15)]
            (hex_index it) (hex_char_index it))
  else mret (MkHex (hex_buffer it) [NUL; NUL] (hex_index it) (hex_char_index it)).

Definition hex_begin (b : Buffer) : ST memory HexIterator := hex_load_chars (MkHex b [] 0 0).
Definition hex_end (b : Buffer) (start : Z) : HexIterator := MkHex b [] start 0.
Definition hex_size (s : Z) : Z := wrap_u 64 (s * 2).
Definition hex_deref (it : HexIterator) : res ascii :=
  match _hex it !! hex_char_index it with Some c => Ok c | None => Undef end.
Definition hex_next (it : HexIterator) : ST memory HexIterator :=
  if decide (hex_char_index it = 1)
  then hex_load_chars (MkHex (hex_buffer it) (_hex it) (wrap_u 64 (hex_index it + 1)) 0)
  else mret (MkHex (hex_buffer it) (_hex it) (hex_index it) 1).
Definition hex_prev (it : HexIterator) : ST memory HexIterator :=
  if decide (hex_char_index it = 0)
  then hex_load_chars (MkHex (hex_buffer it) (_hex it) (wrap_u 64 (hex_index it - 1)) 1)
  else mret (MkHex (hex_buffer it) (_hex it) (hex_index it) 0).
Definition hex_eq (it other : HexIterator) : bool :=
  view_eq (hex_buffer it) (hex_buffer other) && (hex_index it =? hex_index other)%Z &&
  (hex_char_index it =? hex_char_index other).
Definition hex_position (it : HexIterator) : Z := wrap_u 64 (hex_size (hex_index it) + Z.of_nat (hex_char_index it)).

#[export] Instance hex_iterator : BlobIterator HexIterator :=
  {| it_begin := hex_begin; it_end := hex_end; it_next := hex_next; it_prev := hex_prev; it_deref := hex_deref;
     it_eq := hex_eq; it_size := hex_size; it_position := hex_position |}.

(** * Base64 *)

Record Base64Iterator := MkBase64 { b64_buffer : Buffer; _block : str; b64_index : Z; b64_char_index : nat }.

Definition B64_BLOCK_SIZE : nat := 4.
Definition b64_table : str := B "ABCDEFGHIJKLMNOPQRSTUVWXYZabcdefghijklmnopqrstuvwxyz0123456789+/".
Definition b64_char (n : Z) : ascii := default NUL (b64_table !! Z.to_nat n).

(** [out[outpos++] = c]. *)
Definition put_out (c : ascii) (out : str) (outpos : nat) : res (str * nat) :=
  if decide (outpos < B64_BLOCK_SIZE) then Ok (take outpos out ++ c :: drop (outpos + 1) out, outpos + 1) else Undef.

(** The inner [while]; six bits are taken each time. *)
Fixpoint emit_bits (fuel : nat) (bits acc : Z) (out : str) (outpos : nat) : res (str * nat * Z) :=
  match fuel with
  | 0 => Ok (out, outpos, bits)
  | S fuel =>
      if (6 <=? bits)%Z then
        let bits := (bits - 6)%Z in
        '(out, outpos) ← put_out (b64_char (Z.land (Z.shiftr acc bits) 63)) out outpos;
        emit_bits fuel bits acc out outpos
      else Ok (out, outpos, bits)
  end.

Fixpoint b64_loop (fuel : nat) (b : Buffer) (i bits acc : Z) (out : str) (outpos : nat) :
    ST memory (str * nat * Z * Z) :=
  match fuel with
  | 0 => mret (out, outpos, bits, acc)
  | S fuel =>
      if decide (outpos < B64_BLOCK_SIZE ∧ (i < length_of b)%Z) then
        v ← byte_at b i;
        let acc := wrap_u 32 (Z.lor (Z.shiftl acc 8) (Z.land v 255)) in
        '(out, outpos, bits) ← st_res (emit_bits 3 (bits + 8) acc out outpos);
        b64_loop fuel b (i + 1)%Z bits acc out outpos
      else mret (out, outpos, bits, acc)
  end.

Fixpoint pad_out (fuel : nat) (out : str) (outpos : nat) : res str :=
  match fuel with
  | 0 => Ok out
  | S fuel => if decide (outpos < B64_BLOCK_SIZE)
              then '(out, outpos) ← put_out "="%char out outpos; pad_out fuel out outpos else Ok out
  end.

Definition to_base_64 (out : str) (b : Buffer) : ST memory str :=
  '(out, outpos, bits, acc) ← b64_loop 5 b 0 0 0 out 0;
  '(out, outpos) ← st_res (
    if (0 <? bits)%Z
    then put_out (b64_char (Z.land (wrap_u 32 (Z.shiftl acc (6 - bits))) 63)) out outpos else Ok (out, outpos));
  st_res (pad_out 5 out outpos).

Definition b64_load_chars (it : Base64Iterator) : ST memory Base64Iterator :=
  if decide (length_of (b64_buffer it) < b64_index it)%Z
  then mret (MkBase64 (b64_buffer it) (replicate 4 NUL) (b64_index it) (b64_char_index it))
  else
    rest ← st_res (view_trim_prefix (b64_buffer it) (Z.to_nat (b64_index it)));
    block ← to_base_64 (_block it) rest;
    mret (MkBase64 (b64_buffer it) block (b64_index it) (b64_char_index it)).

Definition b64_begin (b : Buffer) : ST memory Base64Iterator := b64_load_chars (MkBase64 b [] 0 0).
Definition b64_end (b : Buffer) (start : Z) : Base64Iterator := MkBase64 b [] start 0.
Definition b64_size (s : Z) : Z := wrap_u 64 (wrap_u 64 (s + 2) / 3 * 4).
Definition b64_deref (it : Base64Iterator) : res ascii :=
  match _block it !! b64_char_index it with Some c => Ok c | None => Undef end.
Definition b64_next (it : Base64Iterator) : ST memory Base64Iterator :=
  if decide (b64_char_index it = 3)
  then b64_load_chars (MkBase64 (b64_buffer it) (_block it)
         (Z.min (wrap_u 64 (b64_index it + 3)) (length_of (b64_buffer it))) 0)
  else mret (MkBase64 (b64_buffer it) (_block it) (b64_index it) (b64_char_index it + 1)).
Definition b64_prev (it : Base64Iterator) : ST memory Base64Iterator :=
  if decide (b64_char_index it = 0)
  then b64_load_chars (MkBase64 (b64_buffer it) (_block it) (wrap_u 64 (b64_index it - 3)) 3)
  else mret (MkBase64 (b64_buffer it) (_block it) (b64_index it) (b64_char_index it - 1)).
Definition b64_eq (it other : Base64Iterator) : bool :=
  view_eq (b64_buffer it) (b64_buffer other) && (b64_index it =? b64_index other)%Z &&
  (b64_char_index it =? b64_char_index other).
Definition b64_position (it : Base64Iterator) : Z := wrap_u 64 (b64_size (b64_index it) + Z.of_nat (b64_char_index it)).

#[export] Instance base64_iterator : BlobIterator Base64Iterator :=
  {| it_begin := b64_begin; it_end := b64_end; it_next := b64_next; it_prev := b64_prev; it_deref := b64_deref;
     it_eq := b64_eq; it_size := b64_size; it_position := b64_position |}.

(** * Views *)

Section view.
Context {I : Type} `{!BlobIterator I}.

(** [BlobView<Iterator>] of a view of a buffer. *)
Definition blob_begin (b : Buffer) : ST memory I := it_begin (view_of b).
Definition blob_end (b : Buffer) : I := it_end (view_of b) (length_of b).
Definition blob_size (b : Buffer) : Z := it_size (length_of b).

(** [a - b] of iterators, as an [int64_t]. *)
Definition it_distance (a b : I) : Z := wrap_s 64 (it_position a - it_position b).

(** [for (char c : view) out << c;], [None] when the fuel runs out. *)
Fixpoint stream_loop (fuel : nat) (it fin : I) (out : str) (m : memory) : option (memory * res str) :=
  if it_eq it fin then Some (m, Ok out)
  else match fuel with
       | 0 => None
       | S fuel =>
           match it_deref it with
           | Ok c => match it_next it m with
                     | (m, Ok it) => stream_loop fuel it fin (out ++ [c]) m
                     | (m, Throw e) => Some (m, Throw e)
                     | (m, Undef) => Some (m, Undef)
                     end
           | Throw e => Some (m, Throw e)
           | Undef => Some (m, Undef)
           end
       end.
Definition stream_blob (fuel : nat) (b : Buffer) (m : memory) : option (memory * res str) :=
  match blob_begin b m with
  | (m, Ok it) => stream_loop fuel it (blob_end b) [] m
  | (m, Throw e) => Some (m, Throw e)
  | (m, Undef) => Some (m, Undef)
  end.
End view.

Example hex_abc : stream_blob (I := HexIterator) 9 sample_a sample_memory = Some (sample_memory, Ok (B "010203")).
Proof. by vm_compute. Qed.
Example b64_abc : stream_blob (I := Base64Iterator) 9 sample_a sample_memory = Some (sample_memory, Ok (B "AQID")).
Proof. by vm_compute. Qed.
Example b64_pad : stream_blob (I := Base64Iterator) 9 sample_b sample_memory = Some (sample_memory, Ok (B "Bwc=")).
Proof. by vm_compute. Qed.

(** * The text of a buffer *)

Definition hex_text (l : list Z) : str := l ≫= λ v, [to_hex_char (v / 16); to_hex_char (v `mod` 16)].

(** RFC 4648: three bytes give four characters, the last group is padded. *)
Definition b64_group (l : list Z) : str :=
  match l with
  | [] => B "===="
  | [a] => [b64_char (a / 4); b64_char (a `mod` 4 * 16); "="%char; "="%char]
  | [a; b] => [b64_char (a / 4); b64_char (a `mod` 4 * 16 + b / 16); b64_char (b `mod` 16 * 4); "="%char]
  | a :: b :: c :: _ =>
      [b64_char (a / 4); b64_char (a `mod` 4 * 16 + b / 16); b64_char (b `mod` 16 * 4 + c / 64); b64_char (c `mod` 64)]
  end.
Fixpoint b64_text (l : list Z) : str :=
  match l with
  | [] => []
  | a :: b :: c :: r => b64_group [a; b; c] ++ b64_text r
  | _ => b64_group l
  end.

(** * Bits *)

Lemma land_ones_mod x k : (0 ≤ k → Z.land x (Z.ones k) = x `mod` 2 ^ k)%Z.
Proof. intros. by apply Z.land_ones. Qed.

Lemma acc_step acc v : (0 ≤ acc < 2 ^ 24)%Z → is_byte v →
  wrap_u 32 (Z.lor (Z.shiftl acc 8) (Z.land v 255)) = (acc * 256 + v)%Z.
Proof.
  intros Ha Hv. change 255%Z with (Z.ones 8). rewrite Z.land_ones by lia. unfold is_byte in Hv. rewrite Z.mod_small by done.
  rewrite Z.shiftl_mul_pow2 by lia. pose proof (Z.add_lor_land (acc * 2 ^ 8) v) as Hor.
  assert (Z.land (acc * 2 ^ 8) v = 0)%Z as H0.
  { apply Z.bits_inj'. intros n Hn. rewrite Z.land_spec, Z.bits_0. destruct (decide (n < 8)%Z).
    - by rewrite Z.mul_pow2_bits_low.
    - rewrite (Z.bits_above_log2 v n); [by rewrite andb_false_r|lia|].
      destruct (decide (v = 0)%Z) as [->|]; [cbn; lia|]. assert (Z.log2 v < 8)%Z by (apply Z.log2_lt_pow2; lia). lia. }
  replace (Z.lor (acc * 2 ^ 8) v) with (acc * 256 + v)%Z by lia. apply wrap_u_small. lia.
Qed.

Lemma sextet acc k : (0 ≤ k)%Z → Z.land (Z.shiftr acc k) 63 = ((acc / 2 ^ k) `mod` 64)%Z.
Proof. intros Hk. change 63%Z with (Z.ones 6). by rewrite Z.land_ones, Z.shiftr_div_pow2 by lia. Qed.
Lemma sextet_left acc k : (0 ≤ k ≤ 6 → 0 ≤ acc < 2 ^ 24 → Z.land (wrap_u 32 (Z.shiftl acc k)) 63 = (acc * 2 ^ k) `mod` 64)%Z.
Proof.
  intros Hk Ha. change 63%Z with (Z.ones 6). rewrite Z.land_ones, Z.shiftl_mul_pow2 by lia. rewrite wrap_u_small; [done|].
  assert (2 ^ k ≤ 2 ^ 6)%Z by (apply Z.pow_le_mono_r; lia). assert (0 < 2 ^ k)%Z by (apply Z.pow_pos_nonneg; lia). nia.
Qed.

(** * One block *)

Lemma byte_at_shows m b l i x : shows m b l → l !! i = Some x → byte_at b (Z.of_nat i) m = (m, Ok x).
Proof. intros Hs Hi. unfold byte_at. rewrite Nat2Z.id. by eapply shows_load. Qed.

Lemma b64_loop_step fuel b i bits acc out outpos m v :
  outpos < 4 → (i < length_of b)%Z → byte_at b i m = (m, Ok v) → is_byte v → (0 ≤ acc < 2 ^ 24)%Z →
  b64_loop (S fuel) b i bits acc out outpos m =
    ('(out, outpos, bits) ← st_res (emit_bits 3 (bits + 8) (acc * 256 + v) out outpos);
     b64_loop fuel b (i + 1)%Z bits (acc * 256 + v)%Z out outpos) m.
Proof.
  intros Ho Hi Hb Hv Ha. cbn [b64_loop]. rewrite decide_True by done. unfold mbind at 1, ST_bind at 1. rewrite Hb.
  by rewrite acc_step.
Qed.
Lemma b64_loop_stop fuel b i bits acc out outpos m :
  ¬ (outpos < 4 ∧ (i < length_of b)%Z) → b64_loop fuel b i bits acc out outpos m = (m, Ok (out, outpos, bits, acc)).
Proof. intros H. destruct fuel; [done|]. cbn [b64_loop]. by rewrite decide_False. Qed.

Lemma put_out_spec c pre rest : length pre < 4 → put_out c (pre ++ rest) (length pre) = Ok (pre ++ c :: tail rest, length pre + 1).
Proof.
  intros H. unfold put_out. rewrite decide_True by done. rewrite take_app_length, <- drop_drop, drop_app_length.
  by destruct rest.
Qed.
Lemma put_0 c out : put_out c out 0 = Ok (c :: tail out, 1).
Proof. by apply (put_out_spec c [] out); cbn; lia. Qed.
Lemma put_1 c x out : put_out c (x :: out) 1 = Ok (x :: c :: tail out, 2).
Proof. by apply (put_out_spec c [x] out); cbn; lia. Qed.
Lemma put_2 c x y out : put_out c (x :: y :: out) 2 = Ok (x :: y :: c :: tail out, 3).
Proof. by apply (put_out_spec c [x; y] out); cbn; lia. Qed.
Lemma put_3 c x y z out : put_out c (x :: y :: z :: out) 3 = Ok (x :: y :: z :: c :: tail out, 4).
Proof. by apply (put_out_spec c [x; y; z] out); cbn; lia. Qed.

(** The six-bit groups that are complete after one, two and three bytes. *)
Lemma emit_8 acc out o : emit_bits 3 8 acc out o =
  ('(out, o) ← put_out (b64_char ((acc / 4) `mod` 64)) out o; Ok (out, o, 2%Z)).
Proof. cbn [emit_bits]. change (6 <=? 8)%Z with true. cbv iota. by rewrite (sextet acc (8 - 6)) by lia. Qed.
Lemma emit_10 acc out o : emit_bits 3 10 acc out o =
  ('(out, o) ← put_out (b64_char ((acc / 16) `mod` 64)) out o; Ok (out, o, 4%Z)).
Proof. cbn [emit_bits]. change (6 <=? 10)%Z with true. cbv iota. by rewrite (sextet acc (10 - 6)) by lia. Qed.
Lemma emit_12 acc out o : emit_bits 3 12 acc out o =
  ('(out, o) ← put_out (b64_char ((acc / 64) `mod` 64)) out o;
   '(out, o) ← put_out (b64_char (acc `mod` 64)) out o; Ok (out, o, 0%Z)).
Proof.
  cbn [emit_bits]. change (6 <=? 12)%Z with true. cbv iota. change (12 - 6)%Z with 6%Z.
  change (6 <=? 6)%Z with true. cbv iota. change (6 - 6)%Z with 0%Z. rewrite (sextet acc 6), (sextet acc 0) by lia.
  change (2 ^ 0)%Z with 1%Z. by rewrite Z.div_1_r.
Qed.

Lemma tail_4 (out : str) : out = [] ∨ length out = 4 → tail (tail (tail (tail out))) = [].
Proof. intros [->|H]; [done|]. by destruct out as [|? [|? [|? [|? [|]]]]]. Qed.

Lemma pad_1 x y z out : pad_out 5 (x :: y :: z :: out) 3 = Ok (x :: y :: z :: "="%char :: tail out).
Proof. cbn [pad_out]. rewrite (decide_True (P := 3 < B64_BLOCK_SIZE)) by (unfold B64_BLOCK_SIZE; lia). by rewrite put_3. Qed.
Lemma pad_2 x y out : pad_out 5 (x :: y :: out) 2 = Ok (x :: y :: "="%char :: "="%char :: tail (tail out)).
Proof.
  cbn [pad_out]. rewrite (decide_True (P := 2 < B64_BLOCK_SIZE)) by (unfold B64_BLOCK_SIZE; lia). rewrite put_2.
  cbn [mbind res_bind]. rewrite (decide_True (P := 3 < B64_BLOCK_SIZE)) by (unfold B64_BLOCK_SIZE; lia). by rewrite put_3.
Qed.

(** The loop over the bytes, by how many there are. *)
Lemma b64_loop_spec m b l out :
  shows m b l → Forall is_byte l →
  b64_loop 5 b 0 0 0 out 0 m = (m, Ok
    match l with
    | [] => (out, 0, 0%Z, 0%Z)
    | [x] => (b64_char (x / 4) :: tail out, 1, 2%Z, x)
    | [x; y] => (b64_char (x / 4) :: b64_char (x `mod` 4 * 16 + y / 16) :: tail (tail out), 2, 4%Z, (x * 256 + y)%Z)
    | x :: y :: z :: _ => (b64_group l ++ tail (tail (tail (tail out))), 4, 0%Z, ((x * 256 + y) * 256 + z)%Z)
    end).
Proof.
  intros Hs Hl. pose proof (shows_length _ _ _ Hs) as Hlen.
  assert (length_of b = Z.of_nat (length l)) as Hn by (unfold length_of, size, capacity; by rewrite Hlen).
  pose proof (λ i x, byte_at_shows m b l i x Hs) as Hb.
  destruct l as [|x l]; [by rewrite b64_loop_stop by (rewrite Hn; cbn; lia)|].
  apply Forall_cons in Hl as [Hx Hl]. pose proof Hx as Hx'. unfold is_byte in Hx'. change (2 ^ 8)%Z with 256%Z in Hx'.
  rewrite (b64_loop_step 4 b 0 0 0 out 0 m x) by (solve [done|lia|rewrite Hn; cbn; lia|by apply (Hb 0)]).
  rewrite emit_8, put_0. replace (((0 * 256 + x) / 4) `mod` 64)%Z with (x / 4)%Z by (Z.to_euclidean_division_equations; lia).
  unfold mbind at 1, ST_bind at 1. cbn [st_res mbind res_bind].
  destruct l as [|y l]; [by rewrite b64_loop_stop by (rewrite Hn; cbn; lia)|].
  apply Forall_cons in Hl as [Hy Hl]. pose proof Hy as Hy'. unfold is_byte in Hy'. change (2 ^ 8)%Z with 256%Z in Hy'.
  rewrite (b64_loop_step 3 b (0 + 1) _ _ _ _ m y) by (solve [done|lia|rewrite Hn; cbn; lia|by apply (Hb 1)]).
  change (2 + 8)%Z with 10%Z. rewrite emit_10, put_1.
  replace ((((0 * 256 + x) * 256 + y) / 16) `mod` 64)%Z with (x `mod` 4 * 16 + y / 16)%Z by (Z.to_euclidean_division_equations; lia).
  unfold mbind at 1, ST_bind at 1. cbn [st_res mbind res_bind].
  destruct l as [|z l]; [by rewrite b64_loop_stop by (rewrite Hn; cbn; lia)|].
  apply Forall_cons in Hl as [Hz Hl]. pose proof Hz as Hz'. unfold is_byte in Hz'. change (2 ^ 8)%Z with 256%Z in Hz'.
  rewrite (b64_loop_step 2 b (0 + 1 + 1) _ _ _ _ m z) by (solve [done|lia|rewrite Hn; cbn; lia|by apply (Hb 2)]).
  change (4 + 8)%Z with 12%Z. rewrite emit_12, put_2. cbn [mbind res_bind]. rewrite put_3.
  replace (((((0 * 256 + x) * 256 + y) * 256 + z) / 64) `mod` 64)%Z with (y `mod` 16 * 4 + z / 64)%Z by (Z.to_euclidean_division_equations; lia).
  replace ((((0 * 256 + x) * 256 + y) * 256 + z) `mod` 64)%Z with (z `mod` 64)%Z by (Z.to_euclidean_division_equations; lia).
  unfold mbind at 1, ST_bind at 1. cbn [st_res mbind res_bind]. by rewrite b64_loop_stop by lia.
Qed.

Lemma to_base_64_spec m b l out :
  shows m b l → Forall is_byte l → out = [] ∨ length out = 4 → to_base_64 out b m = (m, Ok (b64_group l)).
Proof.
  intros Hs Hl Hout. unfold to_base_64, mbind at 1, ST_bind at 1. rewrite (b64_loop_spec m b l out Hs Hl).
  destruct l as [|x [|y [|z l]]].
  - destruct Hout as [->|Hout]; [done|]. by destruct out as [|o0 [|o1 [|o2 [|o3 [|]]]]].
  - apply tail_4 in Hout. apply Forall_cons in Hl as [Hx _]. unfold is_byte in Hx. change (2 ^ 8)%Z with 256%Z in Hx.
    change (0 <? 2)%Z with true. cbv iota. change (6 - 2)%Z with 4%Z. rewrite sextet_left, put_1 by lia.
    unfold mbind, ST_bind, st_res. rewrite pad_2, Hout. unfold b64_group. do 5 f_equal. f_equal.
    change (2 ^ 4)%Z with 16%Z. Z.to_euclidean_division_equations; lia.
  - apply tail_4 in Hout. apply Forall_cons in Hl as [Hx [Hy _]%Forall_cons]. unfold is_byte in Hx, Hy.
    change (2 ^ 8)%Z with 256%Z in Hx, Hy.
    change (0 <? 4)%Z with true. cbv iota. change (6 - 4)%Z with 2%Z. rewrite sextet_left, put_2 by lia.
    unfold mbind, ST_bind, st_res. rewrite pad_1, Hout. unfold b64_group. do 6 f_equal. f_equal.
    change (2 ^ 2)%Z with 4%Z. Z.to_euclidean_division_equations; lia.
  - apply tail_4 in Hout. rewrite Hout, app_nil_r. by unfold mbind, ST_bind, st_res.
Qed.

(** * Iterating *)

Lemma stream_step {I} `{!BlobIterator I} fuel (it it' fin : I) out c m :
  it_eq it fin = false → it_deref it = Ok c → it_next it m = (m, Ok it') →
  stream_loop (S fuel) it fin out m = stream_loop fuel it' fin (out ++ [c]) m.
Proof. intros H1 H2 H3. cbn [stream_loop]. by rewrite H1, H2, H3. Qed.
Lemma stream_stop {I} `{!BlobIterator I} fuel (it fin : I) out m :
  it_eq it fin = true → stream_loop fuel it fin out m = Some (m, Ok out).
Proof. intros H. destruct fuel; cbn [stream_loop]; by rewrite H. Qed.

Lemma view_eq_refl v : view_eq v v = true.
Proof. unfold view_eq. by rewrite bool_decide_true. Qed.

Section iterate.
Context (m : memory) (v : Buffer) (l : list Z).
Hypothesis Hs : shows m v l.
Hypothesis Hl : Forall is_byte l.
Hypothesis Hlen : (Z.of_nat (length l) < 2 ^ 62)%Z.

Lemma length_of_shows : length_of v = Z.of_nat (length l).
Proof. unfold length_of, size, capacity. by rewrite (shows_length _ _ _ Hs). Qed.

(** The iterators at byte [i], character [c]. *)
Definition hex_chars (i : nat) : str :=
  match l !! i with Some x => [to_hex_char (x / 16); to_hex_char (x `mod` 16)] | None => [NUL; NUL] end.
Definition hex_at (i c : nat) : HexIterator := MkHex v (hex_chars i) (Z.of_nat i) c.
Definition b64_at (i c : nat) : Base64Iterator := MkBase64 v (b64_group (drop i l)) (Z.of_nat i) c.

Lemma hex_load i c h : hex_load_chars (MkHex v h (Z.of_nat i) c) m = (m, Ok (hex_at i c)).
Proof.
  unfold hex_load_chars, hex_at, hex_chars. cbn. rewrite length_of_shows. case_decide as Hi.
  - destruct (lookup_lt_is_Some_2 l i) as [x Hx]; [lia|]. unfold mbind, ST_bind. rewrite (byte_at_shows m v l i x Hs Hx).
    rewrite (byte_at_shows m v l i x Hs Hx), Hx.
    pose proof (Forall_lookup_1 _ _ _ _ Hl Hx) as Hb. unfold is_byte in Hb. change (2 ^ 8)%Z with 256%Z in Hb.
    do 3 f_equal. change 15%Z with (Z.ones 4). rewrite !Z.land_ones, Z.shiftr_div_pow2 by lia.
    change (2 ^ 4)%Z with 16%Z. rewrite (Z.mod_small (x / 16)) by (Z.to_euclidean_division_equations; lia). done.
  - by rewrite lookup_ge_None_2 by lia.
Qed.
Lemma hex_step_0 i : hex_next (hex_at i 0) m = (m, Ok (hex_at i 1)).
Proof. done. Qed.
Lemma hex_step_1 i : i < length l → hex_next (hex_at i 1) m = (m, Ok (hex_at (S i) 0)).
Proof.
  intros Hi. unfold hex_next, hex_at. cbn [hex_char_index hex_buffer hex_index _hex]. rewrite decide_True by done.
  rewrite wrap_u_small by lia. replace (Z.of_nat i + 1)%Z with (Z.of_nat (S i)) by lia. by rewrite hex_load.
Qed.
Lemma hex_eq_at i c j d : hex_eq (hex_at i c) (hex_at j d) = bool_decide (i = j ∧ c = d).
Proof.
  unfold hex_eq. cbn. rewrite view_eq_refl. cbn.
  destruct (Z.eqb_spec (Z.of_nat i) (Z.of_nat j)), (Nat.eqb_spec c d); symmetry; cbn; (apply bool_decide_true || apply bool_decide_false); lia.
Qed.

Lemma hex_stream i fuel out : i ≤ length l → length (hex_text (drop i l)) ≤ fuel →
  stream_loop fuel (hex_at i 0) (hex_end v (length_of v)) out m = Some (m, Ok (out ++ hex_text (drop i l))).
Proof.
  rewrite length_of_shows. assert (∀ it, hex_eq it (hex_end v (Z.of_nat (length l))) = hex_eq it (hex_at (length l) 0)) as Hend by done.
  intros Hi. remember (length l - i) as n eqn:Hn. revert i fuel out Hi Hn. induction n as [|n IH]; intros i fuel out Hi Hn Hf.
  - rewrite drop_ge by lia. rewrite app_nil_r. apply stream_stop. cbn. rewrite Hend, hex_eq_at. apply bool_decide_true. lia.
  - destruct (lookup_lt_is_Some_2 l i) as [x Hx]; [lia|]. rewrite (drop_S _ _ _ Hx) in Hf |- *. cbn in Hf. fold (hex_text (drop (S i) l)) in Hf.
    destruct fuel as [|[|fuel]]; [lia..|].
    rewrite (stream_step _ _ (hex_at i 1) _ _ (to_hex_char (x / 16))), (stream_step _ _ (hex_at (S i) 0) _ _ (to_hex_char (x `mod` 16))).
    + rewrite IH by lia. cbn. by rewrite <- !app_assoc.
    + cbn. rewrite Hend, hex_eq_at. apply bool_decide_false. lia.
    + cbn. unfold hex_deref, hex_at, hex_chars. cbn. by rewrite Hx.
    + apply hex_step_1. lia.
    + cbn. rewrite Hend, hex_eq_at. apply bool_decide_false. lia.
    + cbn. unfold hex_deref, hex_at, hex_chars. cbn. by rewrite Hx.
    + apply hex_step_0.
Qed.

Lemma b64_load i c blk : i ≤ length l → blk = [] ∨ length blk = 4 →
  b64_load_chars (MkBase64 v blk (Z.of_nat i) c) m = (m, Ok (b64_at i c)).
Proof.
  intros Hi Hblk. unfold b64_load_chars. cbn [b64_buffer b64_index _block b64_char_index]. rewrite length_of_shows, decide_False by lia.
  rewrite Nat2Z.id. unfold view_trim_prefix. destruct (trim_prefix_shows m v l i Hs Hi) as (t & -> & Ht & _).
  unfold mbind, ST_bind, st_res. cbn [fmap res_fmap]. rewrite (to_base_64_spec m (view_of t) (drop i l)); [done|exact Ht| |done].
  by apply Forall_drop.
Qed.
Lemma length_b64_group r : length (b64_group r) = 4.
Proof. by destruct r as [|? [|? [|? ?]]]. Qed.
Lemma b64_step i c : c < 3 → b64_next (b64_at i c) m = (m, Ok (b64_at i (S c))).
Proof. intros Hc. unfold b64_next. cbn. rewrite decide_False by lia. by rewrite Nat.add_1_r. Qed.
Lemma b64_step_3 i : i ≤ length l → b64_next (b64_at i 3) m = (m, Ok (b64_at (Nat.min (i + 3) (length l)) 0)).
Proof.
  intros Hi. unfold b64_next, b64_at. cbn [b64_char_index b64_buffer b64_index _block]. rewrite decide_True by done.
  rewrite length_of_shows, wrap_u_small by lia.
  replace (Z.min (Z.of_nat i + 3) (Z.of_nat (length l))) with (Z.of_nat (Nat.min (i + 3) (length l))) by lia.
  apply b64_load; [lia|]. right. apply length_b64_group.
Qed.
Lemma b64_eq_at i c j d : b64_eq (b64_at i c) (b64_at j d) = bool_decide (i = j ∧ c = d).
Proof.
  unfold b64_eq. cbn. rewrite view_eq_refl. cbn.
  destruct (Z.eqb_spec (Z.of_nat i) (Z.of_nat j)), (Nat.eqb_spec c d); symmetry; cbn; (apply bool_decide_true || apply bool_decide_false); lia.
Qed.
Lemma b64_text_step r : r ≠ [] → b64_text r = b64_group r ++ b64_text (drop 3 r).
Proof. by destruct r as [|a [|b [|c r]]]. Qed.

Lemma b64_stream i fuel out : i ≤ length l → length (b64_text (drop i l)) ≤ fuel →
  stream_loop fuel (b64_at i 0) (b64_end v (length_of v)) out m = Some (m, Ok (out ++ b64_text (drop i l))).
Proof.
  rewrite length_of_shows. assert (∀ it, b64_eq it (b64_end v (Z.of_nat (length l))) = b64_eq it (b64_at (length l) 0)) as Hend by done.
  intros Hi. remember (length l - i) as n eqn:Hn. revert i fuel out Hi Hn. induction (lt_wf n) as [n _ IH]; intros i fuel out Hi Hn Hf.
  destruct (decide (i = length l)) as [->|Hne].
  - rewrite drop_all, app_nil_r. apply stream_stop. cbn. rewrite Hend, b64_eq_at. by apply bool_decide_true.
  - assert (drop i l ≠ []) as Hd by (intros E; apply (f_equal length) in E; rewrite length_drop in E; cbn in E; lia).
    rewrite (b64_text_step _ Hd) in Hf |- *. rewrite length_app, length_b64_group in Hf.
    destruct (b64_group (drop i l)) as [|c0 [|c1 [|c2 [|c3 [|]]]]] eqn:Hg; try (pose proof (length_b64_group (drop i l)); by rewrite Hg in *).
    destruct fuel as [|[|[|[|fuel]]]]; [lia..|].
    assert (∀ c x, [c0; c1; c2; c3] !! c = Some x → b64_deref (b64_at i c) = Ok x) as Hc.
    { intros c x Hx. unfold b64_deref, b64_at. cbn. by rewrite Hg, Hx. }
    assert (∀ c, b64_eq (b64_at i c) (b64_end v (Z.of_nat (length l))) = false) as Hfalse.
    { intros c. rewrite Hend, b64_eq_at. apply bool_decide_false. lia. }
    rewrite (stream_step _ _ (b64_at i 1) _ _ c0) by (solve [apply Hfalse|by apply Hc|by apply b64_step; lia]).
    rewrite (stream_step _ _ (b64_at i 2) _ _ c1) by (solve [apply Hfalse|by apply Hc|by apply b64_step; lia]).
    rewrite (stream_step _ _ (b64_at i 3) _ _ c2) by (solve [apply Hfalse|by apply Hc|by apply b64_step; lia]).
    rewrite (stream_step _ _ (b64_at (Nat.min (i + 3) (length l)) 0) _ _ c3) by (solve [apply Hfalse|by apply Hc|by apply b64_step_3]).
    assert (drop (Nat.min (i + 3) (length l)) l = drop 3 (drop i l)) as Hdrop.
    { rewrite drop_drop. destruct (decide (i + 3 ≤ length l)); [f_equal; lia|]. rewrite !drop_ge by lia. done. }
    rewrite <- Hdrop in Hf |- *. rewrite (IH (length l - Nat.min (i + 3) (length l))); [|lia|lia|done|lia].
    by rewrite <- !app_assoc.
Qed.
End iterate.

(** * Reading the text back *)

(** The position of a character in an alphabet. *)
Fixpoint char_index (c : ascii) (s : str) : option Z :=
  match s with
  | [] => None
  | d :: s => if decide (c = d) then Some 0%Z else Z.succ <$> char_index c s
  end.
Definition hex_digits : str := B "0123456789abcdef".

Fixpoint hex_decode (s : str) : option (list Z) :=
  match s with
  | [] => Some []
  | [_] => None
  | c :: d :: s =>
      x ← char_index c hex_digits; y ← char_index d hex_digits; l ← hex_decode s; Some (16 * x + y :: l)%Z
  end.

(** Four characters are three bytes; the last four may end in one or two [=]
    for one or two bytes less. *)
Fixpoint b64_decode (s : str) : option (list Z) :=
  match s with
  | [] => Some []
  | c :: d :: e :: f :: s =>
      x ← char_index c b64_table; y ← char_index d b64_table;
      let first := (x * 4 + y / 16)%Z in
      if decide (e = "="%char) then if decide (f = "="%char ∧ s = []) then Some [first] else None
      else
        z ← char_index e b64_table;
        let second := (y `mod` 16 * 16 + z / 4)%Z in
        if decide (f = "="%char) then if decide (s = []) then Some [first; second] else None
        else w ← char_index f b64_table; l ← b64_decode s; Some (first :: second :: (z `mod` 4 * 64 + w)%Z :: l)
  | _ => None
  end.

(** A property of the first [n] numbers, checked one by one. *)
Lemma below_all (P : Z → Prop) `{∀ x, Decision (P x)} n x :
  forallb (λ i, bool_decide (P (Z.of_nat i))) (seq 0 n) = true → (0 ≤ x < Z.of_nat n)%Z → P x.
Proof.
  intros Hall Hx. rewrite forallb_forall in Hall. specialize (Hall (Z.to_nat x)). rewrite Z2Nat.id in Hall by lia.
  eapply bool_decide_eq_true_1, Hall, in_seq. lia.
Qed.

Lemma hex_index_char x : (0 ≤ x < 16)%Z → char_index (to_hex_char x) hex_digits = Some x.
Proof. apply (below_all (λ x, char_index (to_hex_char x) hex_digits = Some x) 16). by vm_compute. Qed.
Lemma b64_index_char x : (0 ≤ x < 64)%Z → char_index (b64_char x) b64_table = Some x.
Proof. apply (below_all (λ x, char_index (b64_char x) b64_table = Some x) 64). by vm_compute. Qed.
Lemma b64_char_no_pad x : (0 ≤ x < 64)%Z → b64_char x ≠ "="%char.
Proof. apply (below_all (λ x, b64_char x ≠ "="%char) 64). by vm_compute. Qed.

Lemma hex_decode_text l : Forall is_byte l → hex_decode (hex_text l) = Some l.
Proof.
  induction 1 as [|x l Hx Hl IH]; [done|]. unfold is_byte in Hx. change (2 ^ 8)%Z with 256%Z in Hx.
  cbn [hex_text mbind list_bind app hex_decode]. fold (hex_text l).
  rewrite !hex_index_char by (Z.to_euclidean_division_equations; lia). cbn [mbind option_bind].
  change (list_bind _ _ _ l) with (hex_text l). rewrite IH. cbn. do 2 f_equal. rewrite <- Z.div_mod by lia. done.
Qed.

Lemma b64_decode_text l : Forall is_byte l → b64_decode (b64_text l) = Some l.
Proof.
  remember (length l) as n eqn:Hn. revert l Hn. induction (lt_wf n) as [n _ IH]. intros l Hn Hl.
  assert (∀ x, is_byte x → 0 ≤ x < 256)%Z as Hb by done.
  destruct l as [|x [|y [|z l]]]; [done|..].
  - apply Forall_cons in Hl as [Hx%Hb _]. cbn [b64_text b64_group b64_decode].
    rewrite !b64_index_char by (Z.to_euclidean_division_equations; lia). cbn [mbind option_bind].
    rewrite !decide_True by done. do 2 f_equal. Z.to_euclidean_division_equations; lia.
  - apply Forall_cons in Hl as [Hx%Hb [Hy%Hb _]%Forall_cons]. cbn [b64_text b64_group b64_decode].
    rewrite !b64_index_char by (Z.to_euclidean_division_equations; lia). cbn [mbind option_bind].
    rewrite decide_False by (apply b64_char_no_pad; Z.to_euclidean_division_equations; lia).
    cbn [mbind option_bind].
    rewrite !decide_True by done. do 2 f_equal; [|f_equal]; Z.to_euclidean_division_equations; lia.
  - apply Forall_cons in Hl as [Hx%Hb [Hy%Hb [Hz%Hb Hl]%Forall_cons]%Forall_cons]. cbn [b64_text b64_group app b64_decode].
    rewrite !b64_index_char by (Z.to_euclidean_division_equations; lia). cbn [mbind option_bind].
    rewrite decide_False by (apply b64_char_no_pad; Z.to_euclidean_division_equations; lia).
    cbn [mbind option_bind].
    rewrite decide_False by (apply b64_char_no_pad; Z.to_euclidean_division_equations; lia).
    cbn [mbind option_bind].
    rewrite (IH (length l)) by (done || (subst n; cbn; lia)). cbn [mbind option_bind].
    do 2 f_equal; [|f_equal; [|f_equal]]; Z.to_euclidean_division_equations; lia.
Qed.

Lemma length_hex_text l : length (hex_text l) = 2 * length l.
Proof. induction l as [|x l IH]; [done|]. cbn. fold (hex_text l). change (list_bind _ _ _ l) with (hex_text l). lia. Qed.
Lemma length_b64_text l : length (b64_text l) = (length l + 2) `div` 3 * 4.
Proof.
  remember (length l) as n eqn:Hn. revert l Hn. induction (lt_wf n) as [n _ IH]. intros l ->.
  destruct l as [|x [|y [|z l]]]; [done..|]. cbn [b64_text b64_group length app].
  rewrite (IH (length l)) by (done || (cbn; lia)). replace (S (S (S (length l))) + 2) with (length l + 2 + 1 * 3) by lia.
  rewrite Nat.div_add by lia. lia.
Qed.

Lemma shows_view m b l : shows m b l → shows m (view_of b) l.
Proof. done. Qed.

(** * Properties *)

(** A view of a buffer as hexadecimal text has two digits for each byte, which
    read back as the bytes; [size] and the distance from [begin] to [end] are
    its length, and stepping back undoes a step. *)
Theorem hex_view (m : memory) (b : Buffer) (l : list Z) :
  shows m b l → Forall is_byte l → (Z.of_nat (length l) < 2 ^ 62)%Z →
  stream_blob (I := HexIterator) (2 * length l) b m = Some (m, Ok (hex_text l)) ∧
  hex_decode (hex_text l) = Some l ∧
  blob_size (I := HexIterator) b = Z.of_nat (length (hex_text l)) ∧
  (∃ it : HexIterator, blob_begin b m = (m, Ok it) ∧ it_distance (blob_end b) it = Z.of_nat (length (hex_text l))) ∧
  (∀ i c it, i < length l → c < 2 → it = hex_at (view_of b) l i c →
    ∃ it', hex_next it m = (m, Ok it') ∧ hex_prev it' m = (m, Ok it)).
Proof.
  intros Hs Hl Hlen. pose proof (shows_view _ _ _ Hs) as Hv. rewrite length_hex_text.
  pose proof (length_of_shows m b l Hs) as Hn. pose proof (length_of_shows m _ l Hv) as Hn'.
  assert (blob_begin (I := HexIterator) b m = (m, Ok (hex_at (view_of b) l 0 0))) as Hb by apply (hex_load m (view_of b) l Hv Hl 0 0 []).
  split_and!.
  - unfold stream_blob. rewrite Hb. pose proof (hex_stream m (view_of b) l Hv Hl Hlen 0 (2 * length l) []) as H.
    rewrite drop_0, length_hex_text in H. apply H; lia.
  - by apply hex_decode_text.
  - unfold blob_size. cbn. rewrite Hn. unfold hex_size. rewrite wrap_u_small; lia.
  - eexists. split; [exact Hb|]. unfold it_distance, blob_end, hex_at. cbn. rewrite Hn.
    unfold hex_position, hex_size. cbn. rewrite !(wrap_u_small 64 (Z.of_nat (length l) * 2)) by lia.
    rewrite (wrap_u_small 64 (_ * 2 + _)) by lia. change (wrap_u 64 (wrap_u 64 (Z.of_nat 0 * 2) + Z.of_nat 0)) with 0%Z.
    rewrite wrap_s_small; lia.
  - intros i c it Hi Hc ->. destruct c as [|[|]]; [| |lia].
    + eexists. by split; [apply hex_step_0|].
    + eexists. split; [by apply hex_step_1|]. unfold hex_prev, hex_at. cbn [hex_char_index hex_buffer hex_index _hex].
      rewrite decide_True by done. rewrite wrap_u_small by lia. replace (Z.of_nat (S i) - 1)%Z with (Z.of_nat i) by lia.
      by apply hex_load.
Qed.

(** C18.  A view of a buffer as base64 text is the encoding of RFC 4648 with padding,
    which reads back as the bytes; [size] and the distance from [begin] to
    [end] are its length, and stepping back undoes a step that does not reach
    the end of an incomplete group. *)
Theorem base64_view (m : memory) (b : Buffer) (l : list Z) :
  shows m b l → Forall is_byte l → (Z.of_nat (length l) < 2 ^ 62)%Z →
  stream_blob (I := Base64Iterator) (length (b64_text l)) b m = Some (m, Ok (b64_text l)) ∧
  b64_decode (b64_text l) = Some l ∧
  blob_size (I := Base64Iterator) b = Z.of_nat (length (b64_text l)) ∧
  (∃ it : Base64Iterator, blob_begin b m = (m, Ok it) ∧ it_distance (blob_end b) it = Z.of_nat (length (b64_text l))) ∧
  (∀ i c it, i < length l → c < 4 → c < 3 ∨ i + 3 ≤ length l → it = b64_at (view_of b) l i c →
    ∃ it', b64_next it m = (m, Ok it') ∧ b64_prev it' m = (m, Ok it)).
Proof.
  intros Hs Hl Hlen. pose proof (shows_view _ _ _ Hs) as Hv.
  pose proof (length_of_shows m b l Hs) as Hn. pose proof (length_of_shows m _ l Hv) as Hn'.
  assert (blob_begin (I := Base64Iterator) b m = (m, Ok (b64_at (view_of b) l 0 0))) as Hb
    by (apply (b64_load m (view_of b) l Hv Hl 0 0 []); [lia|by left]).
  assert (b64_size (Z.of_nat (length l)) = Z.of_nat (length (b64_text l))) as Hsize.
  { rewrite length_b64_text. unfold b64_size. rewrite (wrap_u_small 64 (_ + 2)) by lia. rewrite Nat2Z.inj_mul, Nat2Z.inj_div, Nat2Z.inj_add.
    apply wrap_u_small. Z.to_euclidean_division_equations; lia. }
  assert (Z.of_nat (length (b64_text l)) < 2 ^ 63)%Z as Hmax.
  { rewrite length_b64_text, Nat2Z.inj_mul, Nat2Z.inj_div, Nat2Z.inj_add. Z.to_euclidean_division_equations; lia. }
  split_and!.
  - unfold stream_blob. rewrite Hb. pose proof (b64_stream m (view_of b) l Hv Hl Hlen 0 (length (b64_text l)) []) as H.
    rewrite drop_0 in H. apply H; lia.
  - by apply b64_decode_text.
  - unfold blob_size. cbn. by rewrite Hn, Hsize.
  - eexists. split; [exact Hb|]. unfold it_distance, blob_end, b64_at. cbn. rewrite Hn. unfold b64_position. cbn. rewrite Hsize.
    rewrite (wrap_u_small 64 (_ + Z.of_nat 0)) by lia.
    change (wrap_u 64 (b64_size (Z.of_nat 0) + Z.of_nat 0)) with 0%Z. rewrite wrap_s_small; lia.
  - intros i c it Hi Hc Hend ->. destruct (decide (c = 3)) as [->|Hc3].
    + eexists. split; [by apply (b64_step_3 m (view_of b) l Hv Hl); try lia|]. replace (Nat.min (i + 3) (length l)) with (i + 3) by lia.
      unfold b64_prev, b64_at. cbn [b64_char_index b64_buffer b64_index _block]. rewrite decide_True by done.
      rewrite wrap_u_small by lia. replace (Z.of_nat (i + 3) - 3)%Z with (Z.of_nat i) by lia.
      apply (b64_load m (view_of b) l Hv Hl); [lia|right; apply length_b64_group].
    + eexists. split; [apply (b64_step m (view_of b) l); lia|]. unfold b64_prev, b64_at. cbn [b64_char_index b64_buffer b64_index _block].
      rewrite decide_False by lia. by replace (S c - 1) with c by lia.
Qed.

(** * Examples *)

Lemma hex_view_witness :
  stream_blob (I := HexIterator) 6 sample_a sample_memory = Some (sample_memory, Ok (B "010203")) ∧
  hex_decode (B "010203") = Some [1; 2; 3]%Z.
Proof.
  destruct (hex_view sample_memory sample_a [1; 2; 3]%Z) as (H1 & H2 & _); [apply sample_shows|by repeat constructor|done|].
  split; [exact H1|exact H2].
Defined.
Lemma base64_view_witness :
  stream_blob (I := Base64Iterator) 4 sample_b sample_memory = Some (sample_memory, Ok (B "Bwc=")) ∧
  b64_decode (B "Bwc=") = Some [7; 7]%Z.
Proof.
  destruct (base64_view sample_memory sample_b [7; 7]%Z) as (H1 & H2 & _); [apply sample_shows|by repeat constructor|done|].
  split; [exact H1|exact H2].
Defined.

(** Stepping back from the end of an incomplete group wraps the index around and
    shows a NUL instead of the padding. *)
Lemma base64_end_steps_back_wrongly :
  ∃ it, b64_prev (blob_end (I := Base64Iterator) sample_b) sample_memory = (sample_memory, Ok it) ∧
    b64_deref it = Ok NUL ∧ b64_index it = (2 ^ 64 - 1)%Z.
Proof. eexists. split; [by vm_compute|]. by split; vm_compute. Qed.
