(* ===== verification/TlsClient.v ===== *)
(** lw/net/internal: the wrappers around OpenSSL's contexts and connections, and
    the errors they throw. *)
From S2P Require Import Prelude Cxx Errors.

(** * OpenSSL *)

(** The calls that the wrappers make.  Contexts, connections and memory buffers
    ([SSL_CTX], [SSL] and [BIO]) are handles; [int] arguments and results are
    [Z]. *)
Class OpenSSL (K : Type) := {
  SSL_ERROR_NONE : Z;
  SSL_ERROR_WANT_READ : Z;
  SSL_ERROR_WANT_WRITE : Z;
  TLS1_2_VERSION : Z;
  SSL_FILETYPE_PEM : Z;
  ssl_errno : K → Z;
  ERR_get_error : K → K * Z;
  SSL_CTX_new : bool → K → K * option nat;
  SSL_CTX_set_min_proto_version : nat → Z → K → K * Z;
  SSL_CTX_use_certificate_file : nat → str → Z → K → K * Z;
  SSL_CTX_use_PrivateKey_file : nat → str → Z → K → K * Z;
  SSL_CTX_check_private_key : nat → K → K * Z;
  SSL_CTX_free : nat → K → K;
  BIO_new : K → K * option nat;
  BIO_free : nat → K → K;
  SSL_new : nat → K → K * option nat;
  SSL_free : nat → K → K;
  SSL_set_accept_state : nat → K → K;
  SSL_set_connect_state : nat → K → K;
  SSL_set_bio : nat → nat → nat → K → K;
  SSL_is_init_finished : nat → K → bool;
  SSL_do_handshake : nat → K → K * Z;
  SSL_get_error : nat → Z → K → Z;
  SSL_read : nat → Z → K → K * (Z * str);
  SSL_write : nat → str → Z → K → K * Z;
  BIO_write_all : nat → str → K → K * bool;
  BIO_read : nat → Z → K → K * (Z * str);
  BIO_should_retry : nat → K → bool;
  (* The handles that the program has to free. *)
  live : K → gset nat;
}.

(** A call that gives a handle gives a new one. *)
Definition allocates {K} `{!OpenSSL K} (k k' : K) (o : option nat) : Prop :=
  match o with Some h => (h ∉ live k) ∧ live k' = {[h]} ∪ live k | None => live k' = live k end.

(** Who frees what: a connection frees the buffers that were set for it. *)
Class OpenSSLHandles (K : Type) `{!OpenSSL K} := {
  get_error_keeps k k' e : ERR_get_error k = (k', e) → live k' = live k;
  ctx_new_allocates m k k' o : SSL_CTX_new m k = (k', o) → allocates k k' o;
  min_proto_keeps c v k k' r : SSL_CTX_set_min_proto_version c v k = (k', r) → live k' = live k;
  certificate_keeps c p t k k' r : SSL_CTX_use_certificate_file c p t k = (k', r) → live k' = live k;
  private_key_keeps c p t k k' r : SSL_CTX_use_PrivateKey_file c p t k = (k', r) → live k' = live k;
  check_key_keeps c k k' r : SSL_CTX_check_private_key c k = (k', r) → live k' = live k;
  ctx_free_frees c k : live (SSL_CTX_free c k) = live k ∖ {[c]};
  bio_new_allocates k k' o : BIO_new k = (k', o) → allocates k k' o;
  bio_free_frees b k : live (BIO_free b k) = live k ∖ {[b]};
  ssl_new_allocates c k k' o : SSL_new c k = (k', o) → allocates k k' o;
  ssl_free_frees s k : live (SSL_free s k) = live k ∖ {[s]};
  accept_state_keeps s k : live (SSL_set_accept_state s k) = live k;
  connect_state_keeps s k : live (SSL_set_connect_state s k) = live k;
  set_bio_takes s e p k : live (SSL_set_bio s e p k) = live k ∖ {[e; p]};
}.

Section wrappers.
Context {K : Type} `{!OpenSSL K}.

Definition lib {A} (f : K → K * A) : ST K A := λ k, let '(k, a) := f k in (k, Ok a).

(** * Errors *)

Definition check_openssl_error (err_code : Z) : ST K () := if (err_code =? 0)%Z then mret () else st_throw Internal.
Definition check_openssl_errors : ST K () := err_code ← lib ERR_get_error; check_openssl_error err_code.
(** It always throws. *)
Definition check_all_errors {A} : ST K A :=
  check_openssl_errors ≫= λ _, k ← st_get; st_res (check_errno (ssl_errno k)) ≫= λ _, st_throw Internal.

Lemma lib_bind {A C} (f : K → K * A) (m : A → ST K C) k k' a : f k = (k', a) → (lib f ≫= m) k = m a k'.
Proof. intros E. unfold mbind, ST_bind, lib. by rewrite E. Qed.

Lemma check_all_fails {A} k : ∃ x, check_all_errors (A := A) k = ((ERR_get_error k).1, throw x).
Proof.
  unfold check_all_errors, check_openssl_errors, lib, mbind, ST_bind, st_get, st_res, st_throw.
  destruct (ERR_get_error k) as [k1 c]. unfold check_openssl_error. destruct (c =? 0)%Z; [|by exists Internal]. cbn. unfold check_errno.
  destruct (check_cases (ssl_errno k1)) as [[_ ->]|[(e & _ & ->)|(_ & _ & ->)]]; by eexists.
Qed.

(** * Contexts *)

Inductive ConnectionMode := CONNECT | ACCEPT.
Record TLSOptions := MkTLSOptions { private_key : str; certificate : str; connection_mode : ConnectionMode }.

Record TLSContextImpl := MkTLSContext { _connection_mode : ConnectionMode; _context : nat }.
Record TLSClientImpl := MkTLSClient { _client : nat; _encrypted : nat; _plaintext : nat }.

Definition context_setup_error {A} (context : nat) : ST K A := st_modify (SSL_CTX_free context) ≫= λ _, check_all_errors.

Definition from_options (options : TLSOptions) : ST K TLSContextImpl :=
  o ← lib (SSL_CTX_new (match connection_mode options with ACCEPT => true | CONNECT => false end));
  match o with
  | None => check_all_errors
  | Some context =>
      r ← lib (SSL_CTX_set_min_proto_version context TLS1_2_VERSION);
      if (r =? 0)%Z then context_setup_error context
      else
        r ← lib (SSL_CTX_use_certificate_file context (certificate options) SSL_FILETYPE_PEM);
        if negb (r =? 1)%Z then context_setup_error context
        else
          r ← lib (SSL_CTX_use_PrivateKey_file context (private_key options) SSL_FILETYPE_PEM);
          if negb (r =? 1)%Z then context_setup_error context
          else
            r ← lib (SSL_CTX_check_private_key context);
            if negb (r =? 1)%Z then context_setup_error context
            else mret (MkTLSContext (connection_mode options) context)
  end.

Definition make_client (c : TLSContextImpl) : ST K TLSClientImpl :=
  o ← lib BIO_new;
  match o with
  | None => check_all_errors
  | Some encrypted =>
      o ← lib BIO_new;
      match o with
      | None => st_modify (BIO_free encrypted) ≫= λ _, check_all_errors
      | Some plaintext =>
          o ← lib (SSL_new (_context c));
          match o with
          | None => st_modify (BIO_free encrypted) ≫= λ _, st_modify (BIO_free plaintext) ≫= λ _, check_all_errors
          | Some client =>
              st_modify (match _connection_mode c with ACCEPT => SSL_set_accept_state client | CONNECT => SSL_set_connect_state client end)
              ≫= λ _, st_modify (SSL_set_bio client encrypted plaintext)
              ≫= λ _, mret (MkTLSClient client encrypted plaintext)
          end
      end
  end.

(** The destructors. *)
Definition destroy_context (c : TLSContextImpl) : ST K () := st_modify (SSL_CTX_free (_context c)).
Definition destroy_client (c : TLSClientImpl) : ST K () := st_modify (SSL_free (_client c)).

(** * Connections *)

Inductive TLSResult := NEED_TO_READ | NEED_TO_WRITE | AGAIN | COMPLETED.
Record TLSIOResult := MkIOResult { result : TLSResult; bytes : nat }.
Definition completed (r : TLSIOResult) : bool := match result r with COMPLETED => true | _ => false end.

Definition handshake (c : TLSClientImpl) : ST K TLSResult :=
  k ← st_get;
  if SSL_is_init_finished (_client c) k then mret COMPLETED
  else
    ret ← lib (SSL_do_handshake (_client c));
    k ← st_get;
    let err := SSL_get_error (_client c) ret k in
    if (err =? SSL_ERROR_NONE)%Z then mret AGAIN
    else if (err =? SSL_ERROR_WANT_READ)%Z then mret NEED_TO_READ
    else if (err =? SSL_ERROR_WANT_WRITE)%Z then mret NEED_TO_WRITE
    else check_openssl_error err ≫= λ _, st_throw Internal.

Definition buffer_encrypted_data (c : TLSClientImpl) (data : str) : ST K TLSIOResult :=
  ok ← lib (BIO_write_all (_encrypted c) data);
  if (ok : bool) then mret (MkIOResult COMPLETED (length data)) else check_all_errors.

(** The reading calls give the bytes that they put into a buffer of [size]. *)
Definition read_decrypted_data (c : TLSClientImpl) (size : nat) : ST K (TLSIOResult * str) :=
  '(bytes_read, data) ← lib (SSL_read (_client c) (wrap_s 32 (Z.of_nat size)));
  if (bytes_read <=? 0)%Z then check_all_errors else mret (MkIOResult COMPLETED (Z.to_nat bytes_read), data).

Definition buffer_plaintext_data (c : TLSClientImpl) (data : str) : ST K TLSIOResult :=
  bytes_written ← lib (SSL_write (_client c) data (wrap_s 32 (Z.of_nat (length data))));
  if (bytes_written <=? 0)%Z then
    k ← st_get;
    let err := SSL_get_error (_client c) bytes_written k in
    if (err =? SSL_ERROR_WANT_READ)%Z then mret (MkIOResult NEED_TO_READ 0)
    else if (err =? SSL_ERROR_WANT_WRITE)%Z then mret (MkIOResult NEED_TO_WRITE 0)
    else check_all_errors
  else mret (MkIOResult COMPLETED (Z.to_nat bytes_written)).

Definition read_encrypted_data (c : TLSClientImpl) (size : nat) : ST K (TLSIOResult * str) :=
  '(bytes_read, data) ← lib (BIO_read (_plaintext c) (wrap_s 32 (Z.of_nat size)));
  if (bytes_read <? 0)%Z then
    k ← st_get;
    if BIO_should_retry (_plaintext c) k then mret (MkIOResult AGAIN 0, []) else check_all_errors
  else mret (MkIOResult COMPLETED (Z.to_nat bytes_read), data).

(** * Who owns what *)

(** A program with contexts and the connections made from them. *)
Record Tls := MkTls { contexts : list TLSContextImpl; clients : list TLSClientImpl; library : K }.

Inductive tls_op := NewContext (options : TLSOptions) | NewClient (i : nat) | DropContext (i : nat) | DropClient (i : nat).

Definition tls_step (op : tls_op) (t : Tls) : Tls :=
  let k := library t in
  match op with
  | NewContext options =>
      match from_options options k with
      | (k, Ok c) => MkTls (c :: contexts t) (clients t) k
      | (k, _) => MkTls (contexts t) (clients t) k
      end
  | NewClient i =>
      match contexts t !! i with
      | None => t
      | Some ctx =>
          match make_client ctx k with
          | (k, Ok c) => MkTls (contexts t) (c :: clients t) k
          | (k, _) => MkTls (contexts t) (clients t) k
          end
      end
  | DropContext i =>
      match contexts t !! i with
      | None => t
      | Some c => MkTls (delete i (contexts t)) (clients t) (destroy_context c k).1
      end
  | DropClient i =>
      match clients t !! i with
      | None => t
      | Some c => MkTls (contexts t) (delete i (clients t)) (destroy_client c k).1
      end
  end.
Definition run_tls (ops : list tls_op) (t : Tls) : Tls := foldl (λ t op, tls_step op t) t ops.

(** The handles of a program, of which it frees each once. *)
Definition handles (t : Tls) : list nat := (_context <$> contexts t) ++ (_client <$> clients t).

Context `{!OpenSSLHandles K}.

(** A call that hands over a new handle or throws and keeps none. *)
Definition hands_over {A} (handle : A → nat) (k : K) (p : K * res A) : Prop :=
  match p with
  | (k', Ok a) => (handle a ∉ live k) ∧ live k' = {[handle a]} ∪ live k
  | (k', Throw _) => live k' = live k
  | (_, Undef) => False
  end.

Lemma check_all_throws {A} k : ∃ k' e, check_all_errors (A := A) k = (k', Throw e) ∧ live k' = live k.
Proof.
  destruct (check_all_fails (A := A) k) as [x ->]. eexists _, _. split; [done|].
  destruct (ERR_get_error k) as [k1 c] eqn:E. by apply get_error_keeps in E.
Qed.
Lemma setup_error_throws {A} c k k' :
  c ∉ live k → live k' = {[c]} ∪ live k → ∃ k2 e, context_setup_error (A := A) c k' = (k2, Throw e) ∧ live k2 = live k.
Proof.
  intros Hc Hk. unfold context_setup_error, mbind at 1, ST_bind at 1, st_modify.
  destruct (check_all_throws (A := A) (SSL_CTX_free c k')) as (k2 & e & E & Hl). rewrite E. exists k2, e. split; [done|].
  rewrite Hl, ctx_free_frees, Hk. set_solver.
Qed.
(** The next call of the library, by what it gives. *)
Ltac lib_step p E := match goal with |- context [(lib ?f ≫= ?m) ?k] => destruct (f k) as p eqn:E; rewrite (lib_bind f m k _ _ E) end.
Ltac throws := match goal with |- context [check_all_errors (A := ?A) ?k] =>
  let Hk := fresh in destruct (check_all_throws (A := A) k) as (? & ? & -> & Hk); cbn in *; rewrite Hk end.

Lemma from_options_hands_over o k : hands_over _context k (from_options o k).
Proof.
  unfold from_options. lib_step ipattern:([k1 [c|]]) E1; apply ctx_new_allocates in E1; [|by throws].
  destruct E1 as [Hc H1].
  assert (∀ k', live k' = {[c]} ∪ live k → hands_over _context k (context_setup_error c k')) as Hfail.
  { intros k' Hk. by destruct (setup_error_throws (A := TLSContextImpl) c k k' Hc Hk) as (k2 & e & -> & ?). }
  lib_step ipattern:([k2 r2]) E2. apply min_proto_keeps in E2. destruct (r2 =? 0)%Z; [apply Hfail; congruence|].
  lib_step ipattern:([k3 r3]) E3. apply certificate_keeps in E3. destruct (negb (r3 =? 1)%Z); [apply Hfail; congruence|].
  lib_step ipattern:([k4 r4]) E4. apply private_key_keeps in E4. destruct (negb (r4 =? 1)%Z); [apply Hfail; congruence|].
  lib_step ipattern:([k5 r5]) E5. apply check_key_keeps in E5. destruct (negb (r5 =? 1)%Z); [apply Hfail; congruence|].
  split; [done|]. cbn. congruence.
Qed.

Lemma make_client_hands_over c k : hands_over _client k (make_client c k).
Proof.
  unfold make_client. lib_step ipattern:([k1 [e|]]) E1; apply bio_new_allocates in E1; [|by throws].
  destruct E1 as [He H1]. lib_step ipattern:([k2 [p|]]) E2; apply bio_new_allocates in E2.
  2:{ unfold mbind, ST_bind, st_modify. throws. rewrite bio_free_frees, E2, H1. set_solver. }
  destruct E2 as [Hp H2]. lib_step ipattern:([k3 [s|]]) E3; apply ssl_new_allocates in E3.
  2:{ unfold mbind, ST_bind, st_modify. throws. rewrite !bio_free_frees, E3, H2, H1. set_solver. }
  destruct E3 as [Hs H3]. unfold mbind, ST_bind, st_modify, mret, ST_ret. cbn. rewrite set_bio_takes.
  destruct (_connection_mode c); rewrite ?accept_state_keeps, ?connect_state_keeps, H3, H2, H1 in *; set_solver.
Qed.
(** What a program has is what the library has handed over since [base]. *)
Definition owned (base : gset nat) (t : Tls) : Prop :=
  NoDup (handles t) ∧ live (library t) = base ∪ list_to_set (handles t) ∧ ∀ h, h ∈ handles t → h ∉ base.

Lemma owned_more base cs ss k h (t : Tls) :
  owned base t → h ∉ live (library t) → live k = {[h]} ∪ live (library t) → handles (MkTls cs ss k) ≡ₚ h :: handles t →
  owned base (MkTls cs ss k).
Proof.
  intros (Hn & Hl & Hb) Hh Hk Hp. unfold owned. rewrite Hp. cbn [library]. rewrite Hk, Hl in *. split_and!.
  - apply NoDup_cons. split; [|done]. intros Hin. apply Hh. set_solver.
  - rewrite list_to_set_cons. set_solver.
  - intros x Hx. rewrite Hp in Hx. apply elem_of_cons in Hx as [->|Hx]; [set_solver|auto].
Qed.
Lemma owned_less base cs ss k h (t : Tls) :
  owned base t → live k = live (library t) ∖ {[h]} → handles t ≡ₚ h :: handles (MkTls cs ss k) → owned base (MkTls cs ss k).
Proof.
  unfold owned. intros (Hn & Hl & Hb) Hk Hp. rewrite Hp in *. apply NoDup_cons in Hn as [Hh Hn]. cbn [library]. rewrite Hk, Hl. split_and!; [done| |].
  - rewrite list_to_set_cons. assert (h ∉ base) as Hb' by (apply Hb; rewrite Hp; by left).
    apply (not_elem_of_list_to_set (C := gset nat)) in Hh. revert Hh Hb'. clear. generalize (list_to_set (C := gset nat) (handles (MkTls cs ss k))).
    intros X Hh Hb. set_solver.
  - intros x Hx. apply Hb. rewrite Hp. by right.
Qed.
Lemma owned_same base k (t : Tls) : owned base t → live k = live (library t) → owned base (MkTls (contexts t) (clients t) k).
Proof. intros (Hn & Hl & Hb) Hk. split_and!; [done| |done]. cbn [library]. by rewrite Hk. Qed.

Lemma tls_step_owned base op t : owned base t → owned base (tls_step op t).
Proof.
  intros H. destruct op as [o|i|i|i]; cbn [tls_step].
  - pose proof (from_options_hands_over o (library t)) as Ho. destruct (from_options o (library t)) as [k [c|e|]]; [|by apply owned_same|done].
    destruct Ho as [H1 H2]. by eapply owned_more.
  - destruct (contexts t !! i) as [ctx|]; [|done]. pose proof (make_client_hands_over ctx (library t)) as Ho.
    destruct (make_client ctx (library t)) as [k [c|e|]]; [|by apply owned_same|done].
    destruct Ho as [H1 H2]. eapply owned_more; [done..|]. unfold handles. cbn. by rewrite Permutation_middle.
  - destruct (contexts t !! i) as [c|] eqn:Hc; [|done]. eapply owned_less; [done|apply ctx_free_frees|].
    unfold handles. cbn. apply delete_Permutation in Hc. by rewrite Hc at 1.
  - destruct (clients t !! i) as [c|] eqn:Hc; [|done]. eapply owned_less; [done|apply ssl_free_frees|].
    unfold handles. cbn. apply delete_Permutation in Hc. rewrite Hc at 1. cbn. by rewrite <- Permutation_middle.
Qed.
End wrappers.

(** * A library *)

(** A library with one connection at a time, whose handshake is the letter H and
    whose records put a D in front of each byte. *)
Record mock := MkMock {
  mock_next : nat; mock_live : gset nat; mock_conn : option (nat * nat * nat); mock_in : str; mock_out : str; mock_total : str;
  mock_said : bool; mock_met : bool;
}.
Definition mock_alloc (k : mock) : mock * option nat :=
  if decide (mock_next k ∈ mock_live k ∨ 100 ≤ mock_next k) then (k, None)
  else (MkMock (S (mock_next k)) ({[mock_next k]} ∪ mock_live k) (mock_conn k) (mock_in k) (mock_out k) (mock_total k) (mock_said k) (mock_met k),
        Some (mock_next k)).
Definition mock_free (hs : gset nat) (k : mock) : mock :=
  MkMock (mock_next k) (mock_live k ∖ hs) (mock_conn k) (mock_in k) (mock_out k) (mock_total k) (mock_said k) (mock_met k).
Definition with_in (i : str) (k : mock) : mock :=
  MkMock (mock_next k) (mock_live k) (mock_conn k) i (mock_out k) (mock_total k) (mock_said k) (mock_met k).
Definition with_out (o t : str) (k : mock) : mock :=
  MkMock (mock_next k) (mock_live k) (mock_conn k) (mock_in k) o t (mock_said k) (mock_met k).
Definition with_state (s m : bool) (k : mock) : mock :=
  MkMock (mock_next k) (mock_live k) (mock_conn k) (mock_in k) (mock_out k) (mock_total k) s m.
Definition say (t : str) (k : mock) : mock := with_out (mock_out k ++ t) (mock_total k ++ t) k.

Definition mock_encode (d : str) : str := d ≫= λ c, ["D"%char; c].
Fixpoint mock_decode (t : str) : str := match t with _ :: c :: t => c :: mock_decode t | _ => [] end.

Definition is_ssl (s : nat) (k : mock) : bool := match mock_conn k with Some (s', _, _) => bool_decide (s = s') | None => false end.
Definition is_in (e : nat) (k : mock) : bool := match mock_conn k with Some (_, e', _) => bool_decide (e = e') | None => false end.
Definition is_out (p : nat) (k : mock) : bool := match mock_conn k with Some (_, _, p') => bool_decide (p = p') | None => false end.

Definition mock_handshake (s : nat) (k : mock) : mock * Z :=
  if negb (is_ssl s k) then (k, -1)%Z
  else if mock_met k then (k, 1%Z)
  else
    let k := if mock_said k then k else with_state true (mock_met k) (say (B "H") k) in
    match mock_in k with [] => (k, -1)%Z | _ :: i => (with_state (mock_said k) true (with_in i k), 1%Z) end.
Definition mock_ssl_read (s : nat) (num : Z) (k : mock) : mock * (Z * str) :=
  let d := mock_decode (mock_in k) in
  let n := Nat.min (Z.to_nat num) (length d) in
  if is_ssl s k && mock_met k && (0 <? n) then (with_in (drop (2 * n) (mock_in k)) k, (Z.of_nat n, take n d)) else (k, (-1, []))%Z.
Definition mock_bio_read (p : nat) (num : Z) (k : mock) : mock * (Z * str) :=
  if is_out p k && negb (bool_decide (mock_out k = [])) then
    let d := take (Z.to_nat num) (mock_out k) in (with_out (drop (Z.to_nat num) (mock_out k)) (mock_total k) k, (Z.of_nat (length d), d))
  else (k, (-1, []))%Z.

#[export] Instance mock_calls : OpenSSL mock := {|
  SSL_ERROR_NONE := 0; SSL_ERROR_WANT_READ := 2; SSL_ERROR_WANT_WRITE := 3; TLS1_2_VERSION := 771; SSL_FILETYPE_PEM := 1;
  ssl_errno _ := 0%Z;
  ERR_get_error k := (k, 0%Z);
  SSL_CTX_new _ k := mock_alloc k;
  SSL_CTX_set_min_proto_version _ _ k := (k, 1%Z);
  SSL_CTX_use_certificate_file _ p _ k := (k, if decide (p = []) then 0%Z else 1%Z);
  SSL_CTX_use_PrivateKey_file _ p _ k := (k, if decide (p = []) then 0%Z else 1%Z);
  SSL_CTX_check_private_key _ k := (k, 1%Z);
  SSL_CTX_free c k := mock_free {[c]} k;
  BIO_new k := mock_alloc k;
  BIO_free b k := mock_free {[b]} k;
  SSL_new _ k := mock_alloc k;
  SSL_free s k := mock_free {[s]} k;
  SSL_set_accept_state _ k := k;
  SSL_set_connect_state _ k := k;
  SSL_set_bio s e p k := MkMock (mock_next k) (mock_live k ∖ {[e; p]}) (Some (s, e, p)) [] [] [] false false;
  SSL_is_init_finished s k := is_ssl s k && mock_met k;
  SSL_do_handshake := mock_handshake;
  SSL_get_error _ r _ := if (r =? 1)%Z then 0%Z else 2%Z;
  SSL_read := mock_ssl_read;
  SSL_write s d _ k := if is_ssl s k && mock_met k then (say (mock_encode d) k, Z.of_nat (length d)) else (k, -1)%Z;
  BIO_write_all e d k := if is_in e k then (with_in (mock_in k ++ d) k, true) else (k, true);
  BIO_read := mock_bio_read;
  BIO_should_retry _ _ := true;
  live := mock_live;
|}.

Lemma mock_allocates k k' o : mock_alloc k = (k', o) → allocates k k' o.
Proof. unfold mock_alloc. case_decide as H; intros [= <- <-]; [done|]. apply Decidable.not_or in H as [H _]. by split. Qed.
#[export] Instance mock_handles : OpenSSLHandles mock.
Proof. split; cbn; intros; simplify_eq; try done; by apply mock_allocates. Qed.

(** * Properties *)

(** C27.  In whatever order contexts and connections are made and destroyed, and
    whichever calls of the library fail, the handles that the program has to
    free are those of the contexts and connections it has: none is freed
    twice, and none is left over when making one fails. *)
Theorem handles_owned {K} `{!OpenSSL K, !OpenSSLHandles K} (ops : list tls_op) (k : K) :
  let t := run_tls ops (MkTls [] [] k) in
  NoDup (handles t) ∧ live (library t) = live k ∪ list_to_set (handles t) ∧ (∀ h, h ∈ handles t → h ∉ live k).
Proof.
  cbn zeta. assert (owned (live k) (MkTls [] [] k)) as H.
  { split_and!; [apply NoDup_nil_2| |by intros h ?%elem_of_nil]. cbn. set_solver. }
  change (owned (live k) (run_tls ops (MkTls [] [] k))). revert H. generalize (MkTls [] [] k).
  induction ops as [|op ops IH]; intros t H; cbn; [done|]. by apply IH, tls_step_owned.
Qed.

(** * Witnesses *)

Definition new_mock : mock := MkMock 1 {[0]} None [] [] [] false false.

(** The second context has no certificate, and the first is dropped while it has
    a connection. *)
Lemma handles_owned_witness :
  let good := MkTLSOptions (B "key.pem") (B "cert.pem") ACCEPT in
  let t := run_tls [NewContext good; NewContext (MkTLSOptions (B "key.pem") [] CONNECT); NewClient 0; DropContext 0] (MkTls [] [] new_mock) in
  handles t = [5] ∧ NoDup (handles t) ∧ live (library t) = {[0]} ∪ {[5]}.
Proof.
  cbn zeta. match goal with |- context [run_tls ?ops (MkTls [] [] new_mock)] => pose proof (handles_owned ops new_mock) as (H1 & H2 & _) end.
  split; [by vm_compute|]. split; [done|]. by vm_compute.
Defined.
