(* ===== verification/TlsStream.v ===== *)
(** lw/net/tls and lw/net/tls_router: streams that encrypt what is written to
    another stream and decrypt what is read from it, and the router that serves
    another router's connections through them. *)
From S2P Require Import Prelude Cxx Errors MountPath EndpointTrie CoReader Http TlsClient.

(** * Connections of OpenSSL *)

(** What a connection made by [make_client] holds: the encrypted bytes that are
    still to be fetched, all that there ever were, whether its handshake waits
    for bytes from its peer, and the text that these and further bytes from the
    peer decrypt to. *)
Class OpenSSLData (K : Type) `{!OpenSSL K} := {
  connected : TLSClientImpl → K → Prop;
  #[global] connected_dec c k :: Decision (connected c k);
  outgoing : TLSClientImpl → K → str;
  produced : TLSClientImpl → K → str;
  starved : TLSClientImpl → K → Prop;
  plaintext : TLSClientImpl → K → str → str;

  result_codes : SSL_ERROR_NONE ≠ SSL_ERROR_WANT_READ ∧ SSL_ERROR_NONE ≠ SSL_ERROR_WANT_WRITE ∧ SSL_ERROR_WANT_READ ≠ SSL_ERROR_WANT_WRITE;
  make_client_connects ctx k k' c : make_client ctx k = (k', Ok c) → connected c k';

  (* SSL_do_handshake(3): what it has to say goes to the memory buffer, which
     takes it all; without new bytes it waits for the same bytes again. *)
  do_handshake_law c k k' n : connected c k → SSL_do_handshake (_client c) k = (k', n) →
    connected c k' ∧ (∀ rest, plaintext c k' rest = plaintext c k rest) ∧
    (∃ out, outgoing c k' = outgoing c k ++ out ∧ produced c k' = produced c k ++ out) ∧
    let err := SSL_get_error (_client c) n k' in
    err ≠ SSL_ERROR_WANT_WRITE ∧
    (err = SSL_ERROR_NONE → SSL_is_init_finished (_client c) k' = true) ∧
    (err = SSL_ERROR_WANT_READ → SSL_is_init_finished (_client c) k' = false ∧ starved c k') ∧
    (starved c k → SSL_is_init_finished (_client c) k = false → err = SSL_ERROR_WANT_READ ∧ outgoing c k' = outgoing c k);

  (* BIO_s_mem(3): a memory buffer takes all bytes, gives them in order, and
     asks to try again when it is empty. *)
  write_all_law c d k k' b : connected c k → BIO_write_all (_encrypted c) d k = (k', b) →
    b = true ∧ connected c k' ∧ outgoing c k' = outgoing c k ∧ produced c k' = produced c k ∧
    (∀ rest, plaintext c k' rest = plaintext c k (d ++ rest)) ∧
    SSL_is_init_finished (_client c) k' = SSL_is_init_finished (_client c) k;
  bio_read_law c num k k' n d : connected c k → BIO_read (_plaintext c) num k = (k', (n, d)) →
    connected c k' ∧ produced c k' = produced c k ∧ (∀ rest, plaintext c k' rest = plaintext c k rest) ∧
    SSL_is_init_finished (_client c) k' = SSL_is_init_finished (_client c) k ∧ (starved c k → starved c k') ∧
    ((0 < num)%Z →
      if decide (outgoing c k = []) then (n < 0)%Z ∧ BIO_should_retry (_plaintext c) k' = true ∧ outgoing c k' = []
      else d = take (Z.to_nat num) (outgoing c k) ∧ n = Z.of_nat (length d) ∧ outgoing c k' = drop (Z.to_nat num) (outgoing c k));

  (* SSL_read(3) and SSL_write(3), which writes all or nothing. *)
  ssl_read_law c num k k' n d : connected c k → SSL_read (_client c) num k = (k', (n, d)) →
    connected c k' ∧
    ((0 < n)%Z → n = Z.of_nat (length d) ∧ (n ≤ num)%Z ∧ ∀ rest, plaintext c k rest = d ++ plaintext c k' rest) ∧
    ((n ≤ 0)%Z → ∀ rest, plaintext c k' rest = plaintext c k rest);
  ssl_write_law c d num k k' n : connected c k → SSL_write (_client c) d num k = (k', n) →
    connected c k' ∧ (∀ rest, plaintext c k' rest = plaintext c k rest) ∧
    ((0 < n)%Z → num = Z.of_nat (length d) → n = num ∧
      ∃ out, length d ≤ length out ∧ outgoing c k' = outgoing c k ++ out ∧ produced c k' = produced c k ++ out);
  error_queue_law c k k' e : connected c k → ERR_get_error k = (k', e) →
    connected c k' ∧ outgoing c k' = outgoing c k ∧ produced c k' = produced c k ∧ (∀ rest, plaintext c k' rest = plaintext c k rest);
}.

Section tls.
Context (tls_buffer_size : nat) {K : Type} `{!OpenSSL K} {S : Type} `{CS : CoStream S}.

(** * Streams *)

(** A stream, with the library its connection is of; the write buffer only holds
    what was just fetched from the connection. *)
Record TLSStream := MkTLSStream { tls_client : TLSClientImpl; _raw_stream : S; tls_lib : K }.

Definition on_client {A} (m : TLSClientImpl → ST K A) : ST TLSStream A := λ t,
  let '(k, r) := m (tls_client t) (tls_lib t) in (MkTLSStream (tls_client t) (_raw_stream t) k, r).
Definition on_raw {A} (m : ST S A) : ST TLSStream A := λ t,
  let '(c, r) := m (_raw_stream t) in (MkTLSStream (tls_client t) c (tls_lib t), r).

Definition tls_eof (t : TLSStream) : bool := source_eof (_raw_stream t).
Definition tls_good (t : TLSStream) : bool := source_good (_raw_stream t).
Definition tls_close (t : TLSStream) : TLSStream := MkTLSStream (tls_client t) (stream_close (_raw_stream t)) (tls_lib t).

(** One round of the loop of [TLSStream::handshake]. *)
Definition handshake_round : ST TLSStream bool :=
  '(res, out) ← on_client (λ c, read_encrypted_data c tls_buffer_size);
  (if completed res && (0 <? bytes res) then on_raw (stream_write out) ≫= λ _, mret () else mret ()) ≫= λ _,
  h ← on_client TlsClient.handshake;
  (match h with
   | NEED_TO_READ => data ← on_raw (source_read tls_buffer_size); on_client (λ c, buffer_encrypted_data c data) ≫= λ _, mret ()
   | _ => mret ()
   end) ≫= λ _,
  h ← on_client TlsClient.handshake;
  mret (match h with COMPLETED => false | _ => true end).
(** [None] when the fuel runs out. *)
Fixpoint handshake_loop (fuel : nat) (t : TLSStream) : option (TLSStream * res ()) :=
  match fuel with
  | 0 => None
  | Datatypes.S fuel =>
      match handshake_round t with
      | (t, Ok true) => handshake_loop fuel t
      | (t, Ok false) => Some (t, Ok ())
      | (t, Throw e) => Some (t, Throw e)
      | (t, Undef) => Some (t, Undef)
      end
  end.
Definition handshake (fuel : nat) (t : TLSStream) : option (TLSStream * res ()) :=
  match on_client TlsClient.handshake t with
  | (t, Ok _) => handshake_loop fuel t
  | (t, Throw e) => Some (t, Throw e)
  | (t, Undef) => Some (t, Undef)
  end.

(** [TLSStream::read] into a buffer of [size]. *)
Definition read (size : nat) : ST TLSStream str :=
  data ← on_raw (source_read size);
  res ← on_client (λ c, buffer_encrypted_data c data);
  if completed res then
    if negb (bytes res =? length data) then st_throw Internal
    else
      '(res, text) ← on_client (λ c, read_decrypted_data c size);
      if completed res then mret text else st_throw Internal
  else match result res with AGAIN => mret [] | _ => st_throw Internal end.

(** The loop of [TLSStream::write], which does not end when the write buffer has
    no room. *)
Fixpoint transfer_loop (fuel size bytes_transferred : nat) : ST TLSStream nat :=
  if bytes_transferred <? size then
    match fuel with
    | 0 => st_res Undef
    | Datatypes.S fuel =>
        '(res, out) ← on_client (λ c, read_encrypted_data c tls_buffer_size);
        if completed res then on_raw (stream_write out) ≫= λ _, transfer_loop fuel size (bytes_transferred + bytes res)
        else mret bytes_transferred
    end
  else mret bytes_transferred.
Definition write (data : str) : ST TLSStream nat :=
  res ← on_client (λ c, buffer_plaintext_data c data);
  if negb (completed res) || negb (bytes res =? length data) then st_throw Internal
  else transfer_loop (length data) (length data) 0.

(** * The router *)

(** [TLSStreamFactory::wrap_stream]. *)
Definition wrap_stream (context : TLSContextImpl) (raw : S) (k : K) : res TLSStream :=
  match make_client context k with
  | (k, Ok c) => Ok (MkTLSStream c raw k)
  | (_, Throw e) => Throw e
  | (_, Undef) => Undef
  end.

(** [tls_wrap_connection]: the handler of errors uses the stream, which is null
    when it could not be made; it is never null when it is returned. *)
Definition tls_wrap_connection (fuel : nat) (context : TLSContextImpl) (conn : S) (k : K) : option (res TLSStream) :=
  match wrap_stream context conn k with
  | Ok t =>
      match handshake fuel t with
      | None => None
      | Some (t, Ok _) => Some (Ok t)
      | Some (t, Throw (LwError _)) => Some (Ok (if tls_good t then tls_close t else t))
      | Some (_, Throw e) => Some (Throw e)
      | Some (_, Undef) => Some Undef
      end
  | Throw (LwError _) => Some Undef
  | Throw e => Some (Throw e)
  | Undef => Some Undef
  end.

(** [TLSRouter::run] over a router whose [run] is a parameter. *)
Definition tls_router_run {A} (base_run : TLSStream → option A) (fuel : nat) (context : TLSContextImpl) (conn : S) (k : K) : option (res A) :=
  match tls_wrap_connection fuel context conn k with
  | None => None
  | Some (Ok t) => a ← base_run t; Some (Ok a)
  | Some (Throw e) => Some (Throw e)
  | Some Undef => Some Undef
  end.
End tls.
Arguments TLSStream _ _ : clear implicits.

(** * What calls keep *)

Section keeps.
Context {K : Type} `{!OpenSSL K, !OpenSSLData K}.

(** A call on a connection that leaves its text alone, however it ends. *)
Definition keeps_text {A} (c : TLSClientImpl) (m : ST K A) : Prop :=
  ∀ k k' r, connected c k → m k = (k', r) → connected c k' ∧ ∀ rest, plaintext c k' rest = plaintext c k rest.

Lemma keeps_text_pure {A} c (r : res A) : keeps_text c (λ k, (k, r)).
Proof. by intros k k' x Hc [= <- <-]. Qed.
Lemma keeps_text_bind {A C} c (m : ST K A) (f : A → ST K C) :
  keeps_text c m → (∀ a, keeps_text c (f a)) → keeps_text c (m ≫= f).
Proof.
  intros Hm Hf k k' r Hc. unfold mbind, ST_bind. destruct (m k) as [k1 [a|e|]] eqn:E; destruct (Hm _ _ _ Hc E) as [Hc1 Ht].
  - intros E2. destruct (Hf a _ _ _ Hc1 E2) as [Hc2 Ht2]. split; [done|]. intros rest. by rewrite Ht2.
  - by intros [= <- <-].
  - by intros [= <- <-].
Qed.
Lemma keeps_text_lib {A} c (f : K → K * A) :
  (∀ k k' a, connected c k → f k = (k', a) → connected c k' ∧ ∀ rest, plaintext c k' rest = plaintext c k rest) → keeps_text c (lib f).
Proof. intros Hf k k' r Hc. unfold lib. destruct (f k) as [k1 a] eqn:E. intros [= <- <-]. by eapply Hf. Qed.
Lemma keeps_text_get {A} c (f : K → ST K A) : (∀ k, keeps_text c (f k)) → keeps_text c (st_get ≫= f).
Proof. intros Hf. apply keeps_text_bind; [|done]. by intros k k' r Hc [= <- <-]. Qed.

Lemma check_all_keeps {A} c : keeps_text c (check_all_errors (A := A)).
Proof.
  unfold check_all_errors, check_openssl_errors. apply keeps_text_bind; [apply keeps_text_bind; [apply keeps_text_lib|]|].
  - intros k k' e Hc E. by destruct (error_queue_law c k k' e Hc E) as (? & _ & _ & ?).
  - intros e. unfold check_openssl_error. destruct (e =? 0)%Z; apply keeps_text_pure.
  - intros []. apply keeps_text_get. intros k. apply keeps_text_bind; [|intros []]; apply keeps_text_pure.
Qed.

Lemma handshake_keeps c : keeps_text c (TlsClient.handshake c).
Proof.
  unfold TlsClient.handshake. apply keeps_text_get. intros k0. destruct (SSL_is_init_finished _ _); [apply keeps_text_pure|].
  apply keeps_text_bind; [apply keeps_text_lib|].
  - intros k k' n Hc E. by destruct (do_handshake_law c k k' n Hc E) as (? & ? & _).
  - intros n. apply keeps_text_get. intros k. repeat case_match; try apply keeps_text_pure.
    apply keeps_text_bind; [|intros []; apply keeps_text_pure]. unfold check_openssl_error. case_match; apply keeps_text_pure.
Qed.
Lemma read_encrypted_keeps c size : keeps_text c (read_encrypted_data c size).
Proof.
  unfold read_encrypted_data. apply keeps_text_bind; [apply keeps_text_lib|].
  - intros k k' [n d] Hc E. by destruct (bio_read_law c _ k k' n d Hc E) as (? & _ & ? & _).
  - intros [n d]. case_match; [|apply keeps_text_pure]. apply keeps_text_get. intros k. case_match; [apply keeps_text_pure|apply check_all_keeps].
Qed.
Lemma buffer_plaintext_keeps c d : keeps_text c (buffer_plaintext_data c d).
Proof.
  unfold buffer_plaintext_data. apply keeps_text_bind; [apply keeps_text_lib|].
  - intros k k' n Hc E. by destruct (ssl_write_law c d _ k k' n Hc E) as (? & ? & _).
  - intros n. case_match; [|apply keeps_text_pure]. apply keeps_text_get. intros k. repeat case_match; try apply keeps_text_pure.
    apply check_all_keeps.
Qed.

Lemma buffer_encrypted_spec c d k : connected c k →
  ∃ k', buffer_encrypted_data c d k = (k', Ok (MkIOResult COMPLETED (length d))) ∧ connected c k' ∧
    outgoing c k' = outgoing c k ∧ produced c k' = produced c k ∧ (∀ rest, plaintext c k' rest = plaintext c k (d ++ rest)) ∧
    SSL_is_init_finished (_client c) k' = SSL_is_init_finished (_client c) k.
Proof.
  intros Hc. unfold buffer_encrypted_data. destruct (BIO_write_all (_encrypted c) d k) as [k1 b] eqn:E.
  rewrite (lib_bind _ _ _ _ _ E). destruct (write_all_law c d k k1 b Hc E) as (-> & H). by exists k1.
Qed.

Context {S : Type} `{CS : CoStream S}.

(** The connection of a stream is one, and what the stream still has to say. *)
Definition secure (t : TLSStream K S) : Prop := connected (tls_client t) (tls_lib t).
Definition tls_text (t : TLSStream K S) : str := plaintext (tls_client t) (tls_lib t) (stream (_raw_stream t)).

Definition keeps_stream {A} (m : ST (TLSStream K S) A) : Prop :=
  ∀ t t' r, secure t → m t = (t', r) → secure t' ∧ tls_text t' = tls_text t.

Lemma keeps_stream_pure {A} (r : res A) : keeps_stream (λ t, (t, r)).
Proof. by intros t t' x Hc [= <- <-]. Qed.
Lemma keeps_stream_bind {A C} (m : ST (TLSStream K S) A) (f : A → ST (TLSStream K S) C) :
  keeps_stream m → (∀ a, keeps_stream (f a)) → keeps_stream (m ≫= f).
Proof.
  intros Hm Hf t t' r Hc. unfold mbind, ST_bind. destruct (m t) as [t1 [a|e|]] eqn:E; destruct (Hm _ _ _ Hc E) as [Hc1 Ht].
  - intros E2. destruct (Hf a _ _ _ Hc1 E2) as [Hc2 Ht2]. split; [done|]. by rewrite Ht2.
  - by intros [= <- <-].
  - by intros [= <- <-].
Qed.
Lemma on_client_keeps {A} (m : TLSClientImpl → ST K A) : (∀ c, keeps_text c (m c)) → keeps_stream (on_client m).
Proof.
  intros Hm t t' r Hc. unfold on_client. destruct (m (tls_client t) (tls_lib t)) as [k x] eqn:E. intros [= <- <-].
  destruct (Hm _ _ _ _ Hc E) as [Hc' Ht]. split; [done|]. unfold tls_text. cbn. by rewrite Ht.
Qed.
Lemma raw_write_keeps d : keeps_stream (on_raw (stream_write d)).
Proof.
  intros t t' r Hc. unfold on_raw. destruct (stream_write d (_raw_stream t)) as [c x] eqn:E. intros [= <- <-].
  split; [done|]. unfold tls_text. cbn. by rewrite (stream_write_keeps _ _ _ _ E).
Qed.
Lemma transfer_keeps buffer fuel size n : keeps_stream (transfer_loop buffer fuel size n).
Proof.
  revert n. induction fuel as [|fuel IH]; intros n; cbn [transfer_loop]; (destruct (n <? size); [|apply keeps_stream_pure]); [apply keeps_stream_pure|].
  apply keeps_stream_bind; [apply on_client_keeps; intros c; apply read_encrypted_keeps|]. intros [res out].
  destruct (completed res); [|apply keeps_stream_pure]. apply keeps_stream_bind; [apply raw_write_keeps|]. intros _. apply IH.
Qed.
Lemma write_keeps buffer d : keeps_stream (write buffer d).
Proof.
  unfold write. apply keeps_stream_bind; [apply on_client_keeps; intros c; apply buffer_plaintext_keeps|]. intros res.
  case_match; [apply keeps_stream_pure|apply transfer_keeps].
Qed.

(** A read hands out what the stream has to say next, or fails and keeps it. *)
Lemma read_spec size t t' r : secure t → read size t = (t', r) →
  secure t' ∧ match r with Ok d => length d ≤ size ∧ tls_text t = d ++ tls_text t' | _ => tls_text t' = tls_text t end.
Proof.
  intros Hc. unfold read, mbind at 1, ST_bind at 1, on_raw. destruct (source_read size (_raw_stream t)) as [c [d|e|]] eqn:E.
  2,3: intros [= <- <-]; split; [done|]; unfold tls_text; cbn; by rewrite (source_read_failed _ _ _ _ E).
  destruct (source_read_next _ _ _ _ E) as [_ Hs]. unfold mbind at 1, ST_bind at 1, on_client at 1. cbn [tls_client tls_lib _raw_stream].
  destruct (buffer_encrypted_spec (tls_client t) d (tls_lib t) Hc) as (k1 & -> & Hc1 & _ & _ & Ht & _). cbn [completed result bytes].
  rewrite Nat.eqb_refl. cbn [negb]. unfold mbind at 1, ST_bind at 1, on_client. cbn [tls_client tls_lib _raw_stream]. unfold read_decrypted_data.
  destruct (SSL_read (_client (tls_client t)) (wrap_s 32 (Z.of_nat size)) k1) as [k2 [n text]] eqn:E2. rewrite (lib_bind _ _ _ _ _ E2).
  destruct (ssl_read_law _ _ _ _ _ _ Hc1 E2) as (Hc2 & Hpos & Hneg). destruct (Z.leb_spec n 0) as [Hn|Hn].
  - pose proof (check_all_keeps (A := TLSIOResult * str) (tls_client t) k2) as Hall.
    destruct (check_all_fails (A := TLSIOResult * str) k2) as [x E3]. rewrite E3. intros [= <- <-]. destruct (Hall _ _ Hc2 E3) as [Hc3 Ht3].
    split; [done|]. unfold tls_text. cbn. by rewrite Ht3, Hneg, Ht, Hs.
  - destruct (Hpos Hn) as (Hl & Hle & Htext). cbn [completed result]. intros [= <- <-]. split; [done|]. split.
    + assert (wrap_s 32 (Z.of_nat size) ≤ Z.of_nat size)%Z; [|lia]. unfold wrap_s.
      assert ((Z.of_nat size + 2 ^ (32 - 1)) `mod` 2 ^ 32 ≤ Z.of_nat size + 2 ^ (32 - 1))%Z; [apply Z.mod_le; lia|lia].
    + unfold tls_text. cbn. by rewrite Hs, <- Ht, Htext.
Qed.
End keeps.

(** * Handshakes *)

(** A stream under TLS: it writes what it is given, whole, and a read that
    delivers nothing ends it, after which reads fail. *)
Class Transport (S : Type) `{CS : CoStream S} := {
  wire_out : S → str;
  write_whole t c c' n : stream_write t c = (c', Ok n) → wire_out c' = wire_out c ++ t;
  write_ended t c c' r : stream_write t c = (c', r) → source_good c = false → source_good c' = false;
  read_quiet n c c' r : source_read n c = (c', r) → wire_out c' = wire_out c;
  read_nothing n c c' : 0 < n → source_read n c = (c', Ok []) → source_good c' = false;
  read_ended n c c' r : source_good c = false → source_read n c = (c', r) → ∀ d, r ≠ Ok d;
  read_defined n c : (source_read n c).2 ≠ Undef;
  write_defined t c : (stream_write t c).2 ≠ Undef;
}.

Section handshakes.
Context {K : Type} `{!OpenSSL K, !OpenSSLData K} {S : Type} `{T : Transport S}.
Implicit Types t : TLSStream K S.

Lemma handshake_spec c k : connected c k →
  ∃ k' r out, TlsClient.handshake c k = (k', r) ∧ connected c k' ∧ outgoing c k' = outgoing c k ++ out ∧ produced c k' = produced c k ++ out ∧
    (∀ rest, plaintext c k' rest = plaintext c k rest) ∧
    (match r with
     | Ok COMPLETED => k' = k ∧ SSL_is_init_finished (_client c) k = true
     | Ok AGAIN => SSL_is_init_finished (_client c) k' = true
     | Ok NEED_TO_READ => SSL_is_init_finished (_client c) k' = false ∧ starved c k'
     | Ok NEED_TO_WRITE => False
     | r => r = throw Internal
     end) ∧
    (if SSL_is_init_finished (_client c) k then r = Ok COMPLETED else
      r ≠ Ok COMPLETED ∧ (starved c k → r = Ok NEED_TO_READ ∧ out = []) ∧
      ∀ n, (∀ k k' m, connected c k → SSL_do_handshake (_client c) k = (k', m) → length (outgoing c k') ≤ length (outgoing c k) + n) → length out ≤ n).
Proof.
  intros Hc. unfold TlsClient.handshake. unfold mbind at 1, ST_bind at 1, st_get at 1. destruct (SSL_is_init_finished _ k) eqn:Hf.
  { exists k, (Ok COMPLETED), []. by rewrite !app_nil_r. }
  destruct (SSL_do_handshake (_client c) k) as [k1 n] eqn:E. rewrite (lib_bind _ _ _ _ _ E).
  destruct (do_handshake_law c k k1 n Hc E) as (Hc1 & Ht & (out & Ho & Hp) & Hw & Hnone & Hread & Hstarved).
  assert (∀ m, (∀ k k' n, connected c k → SSL_do_handshake (_client c) k = (k', n) → length (outgoing c k') ≤ length (outgoing c k) + m) →
    length out ≤ m) as Hfit by (intros m Hm; specialize (Hm _ _ _ Hc E); rewrite Ho, length_app in Hm; lia).
  destruct result_codes as (Hd1 & Hd2 & Hd3). unfold mbind at 1, ST_bind at 1, st_get at 1. set (err := SSL_get_error (_client c) n k1) in *.
  assert (starved c k → err = SSL_ERROR_WANT_READ ∧ out = []) as Hst.
  { intros Hs. destruct (Hstarved Hs Hf) as [? Ho']. split; [done|]. rewrite Ho' in Ho. by apply (app_inv_head (outgoing c k)); rewrite app_nil_r. }
  destruct (Z.eqb_spec err SSL_ERROR_NONE) as [He|He].
  { exists k1, (Ok AGAIN), out. split_and!; try done; [by apply Hnone|]. intros Hs. destruct (Hst Hs). congruence. }
  destruct (Z.eqb_spec err SSL_ERROR_WANT_READ) as [He'|He'].
  { exists k1, (Ok NEED_TO_READ), out. split_and!; try done; [by apply Hread..|]. intros Hs. by destruct (Hst Hs). }
  destruct (Z.eqb_spec err SSL_ERROR_WANT_WRITE) as [He2|He2]; [done|]. exists k1, (throw Internal), out. split_and!; try done.
  - unfold check_openssl_error. by destruct (err =? 0)%Z.
  - intros Hs. by destruct (Hst Hs).
Qed.

Lemma read_encrypted_spec c size k : connected c k → 0 < size → (Z.of_nat size < 2 ^ 31)%Z →
  ∃ k', read_encrypted_data c size k =
      (k', Ok (MkIOResult (if decide (outgoing c k = []) then AGAIN else COMPLETED) (length (take size (outgoing c k))),
               take size (outgoing c k))) ∧
    connected c k' ∧ outgoing c k' = drop size (outgoing c k) ∧ produced c k' = produced c k ∧
    (∀ rest, plaintext c k' rest = plaintext c k rest) ∧
    SSL_is_init_finished (_client c) k' = SSL_is_init_finished (_client c) k ∧ (starved c k → starved c k').
Proof.
  intros Hc H0 H31. unfold read_encrypted_data. rewrite wrap_s_small by lia.
  destruct (BIO_read (_plaintext c) (Z.of_nat size) k) as [k1 [n d]] eqn:E. rewrite (lib_bind _ _ _ _ _ E).
  destruct (bio_read_law c _ k k1 n d Hc E) as (Hc1 & Hp & Ht & Hf & Hs & Hdata). specialize (Hdata ltac:(lia)). exists k1.
  case_decide as Ho.
  - destruct Hdata as (Hn & Hr & Ho1). rewrite (proj2 (Z.ltb_lt _ _)) by done. unfold mbind, ST_bind, st_get. rewrite Hr, Ho1, Ho, drop_nil, take_nil.
    by split_and!.
  - destruct Hdata as (Hd & Hn & Ho1). rewrite Nat2Z.id in *. rewrite (proj2 (Z.ltb_ge _ _)) by lia. rewrite Hn, Nat2Z.id, <- Hd.
    by split_and!.
Qed.

Lemma on_client_run {A} (m : TLSClientImpl → ST K A) c (raw : S) k k' r :
  m c k = (k', r) → on_client m (MkTLSStream c raw k) = (MkTLSStream c raw k', r).
Proof. intros E. unfold on_client. cbn. by rewrite E. Qed.
Lemma on_client_bind {A C} (m : TLSClientImpl → ST K A) (f : A → ST (TLSStream K S) C) c raw k k' a :
  m c k = (k', Ok a) → (on_client m ≫= f) (MkTLSStream c raw k) = f a (MkTLSStream c raw k').
Proof. intros E. unfold mbind, ST_bind. by rewrite (on_client_run _ _ _ _ _ _ E). Qed.
(** The bytes of the connection go to the wire in order, and those that have not
    yet are still there; its text stays the same. *)
Record passes t t' : Prop := {
  passes_secure : secure t';
  passes_client : tls_client t' = tls_client t;
  passes_text : tls_text t' = tls_text t;
  passes_out : ∃ sent new, wire_out (_raw_stream t') = wire_out (_raw_stream t) ++ sent ∧
    produced (tls_client t') (tls_lib t') = produced (tls_client t) (tls_lib t) ++ new ∧
    outgoing (tls_client t) (tls_lib t) ++ new = sent ++ outgoing (tls_client t') (tls_lib t');
}.
Lemma passes_trans t1 t2 t3 : passes t1 t2 → passes t2 t3 → passes t1 t3.
Proof.
  intros [_ C1 T1 (s1 & n1 & W1 & P1 & O1)] [S2 C2 T2 (s2 & n2 & W2 & P2 & O2)].
  split; [done|congruence|congruence|]. exists (s1 ++ s2), (n1 ++ n2). rewrite W2, P2, W1, P1, <- !app_assoc. split_and!; [done..|].
  by rewrite app_assoc, O1, <- app_assoc, O2.
Qed.

(** The rounds that the raw stream still has for a handshake. *)
Definition rounds (raw : S) : nat := 2 * length (stream raw) + (if source_good raw then 1 else 0).
Definition met t : bool := SSL_is_init_finished (_client (tls_client t)) (tls_lib t).
Definition at_head t : Prop := met t = true ∨ met t = false ∧ starved (tls_client t) (tls_lib t).
(** What the handshake says at a time fits in [n] bytes. *)
Definition flights_fit (c : TLSClientImpl) (n : nat) : Prop :=
  ∀ k k' m, connected c k → SSL_do_handshake (_client c) k = (k', m) → length (outgoing c k') ≤ length (outgoing c k) + n.

Lemma read_rounds size raw raw' d : 0 < size → source_read size raw = (raw', Ok d) →
  rounds raw' < rounds raw ∧ stream raw = d ++ stream raw' ∧ wire_out raw' = wire_out raw.
Proof.
  intros H0 E. destruct (source_read_next _ _ _ _ E) as [_ Hs]. split_and!; [|done|by eapply read_quiet]. unfold rounds. rewrite Hs, length_app.
  destruct d as [|x d]; [|cbn; repeat case_match; lia]. rewrite (read_nothing _ _ _ H0 E).
  destruct (source_good raw) eqn:Hg; [cbn; lia|]. by destruct (read_ended _ _ _ _ Hg E []).
Qed.

(** What was fetched is written. *)
Lemma send_out out c raw k (w : bool) : w = negb (bool_decide (out = [])) →
  ∃ raw' r, (if w then on_raw (stream_write out) ≫= λ _, mret () else mret ()) (MkTLSStream c raw k) = (MkTLSStream (K := K) c raw' k, r) ∧
    r ≠ Undef ∧ (r = Ok () → wire_out raw' = wire_out raw ++ out ∧ stream raw' = stream raw ∧ rounds raw' ≤ rounds raw).
Proof.
  intros ->. case_bool_decide as Ho; cbn [negb].
  - subst out. exists raw, (Ok ()). rewrite app_nil_r. by split_and!.
  - unfold mbind, ST_bind, on_raw. cbn [_raw_stream tls_client tls_lib].
    destruct (stream_write out raw) as [raw' [n|e|]] eqn:E; eexists raw', _; (split; [done|]);
      [split; [done|]; intros _|by split|by pose proof (write_defined out raw) as Hd; rewrite E in Hd].
    pose proof (stream_write_keeps _ _ _ _ E) as Hs. split_and!; [by eapply write_whole|done|]. unfold rounds. rewrite Hs.
    destruct (source_good raw') eqn:Hg; [|lia]. destruct (source_good raw) eqn:Hg'; [lia|].
    by rewrite (write_ended _ _ _ _ E Hg') in Hg.
Qed.

Lemma handshake_round_spec size t : 0 < size → (Z.of_nat size < 2 ^ 31)%Z → secure t → at_head t →
  ∃ t' r, handshake_round size t = (t', r) ∧
    match r with
    | Ok false => met t' = true ∧ passes t t' ∧ outgoing (tls_client t') (tls_lib t') = drop size (outgoing (tls_client t) (tls_lib t))
    | Ok true => at_head t' ∧ passes t t' ∧ rounds (_raw_stream t') < rounds (_raw_stream t) ∧
        ∀ n, flights_fit (tls_client t) n → length (outgoing (tls_client t') (tls_lib t')) ≤
          length (drop size (outgoing (tls_client t) (tls_lib t))) + n
    | Throw _ => True
    | Undef => False
    end.
Proof.
  intros H0 H31 Hc Hh. destruct t as [c raw k]. unfold secure, at_head, met in *. cbn [tls_client tls_lib _raw_stream] in *. unfold handshake_round.
  destruct (read_encrypted_spec c size k Hc H0 H31) as (k1 & E1 & Hc1 & Ho1 & Hp1 & Ht1 & Hf1 & Hs1).
  rewrite (on_client_bind _ _ _ _ _ _ _ E1). set (out := take size (outgoing c k)).
  destruct (send_out out c raw k1 (completed (MkIOResult (if decide (outgoing c k = []) then AGAIN else COMPLETED) (length out)) && (0 <? length out)))
    as (raw1 & w & E2 & Hdef & Hw).
  { unfold out. case_decide as Ho; cbn; [by rewrite Ho, take_nil|]. rewrite length_take. destruct (outgoing c k) as [|x l]; [done|].
    destruct size; [lia|]. by rewrite bool_decide_false. }
  cbn [bytes]. unfold mbind at 1, ST_bind at 1. rewrite E2. destruct w as [[]|e|]; [|by eexists _, _|done]. destruct (Hw eq_refl) as (W1 & Hst1 & Hr1).
  destruct (handshake_spec c k1 Hc1) as (k2 & r2 & o2 & E3 & Hc2 & Ho2 & Hp2 & Ht2 & Hcase & Hfin). rewrite Hf1 in Hfin.
  destruct Hh as [Hmet|[Hmet Hst]]; rewrite Hmet in Hfin.
  - subst r2. destruct Hcase as [-> Hf2]. rewrite (on_client_bind _ _ _ _ _ _ _ E3). unfold mbind at 1, ST_bind at 1, mret at 1, ST_ret at 1.
    rewrite (on_client_bind _ _ _ _ _ _ _ E3).
    eexists _, _. split; [done|]. cbn [tls_client tls_lib]. split_and!; [done| |done].
    split; [done|done|unfold tls_text; cbn; by rewrite Ht1, Hst1|]. exists out, []. rewrite app_nil_r, !app_nil_r. split_and!; [done..|].
    cbn. unfold out. by rewrite Ho1, take_drop.
  - destruct Hfin as (_ & Hstuck & _). destruct (Hstuck (Hs1 Hst)) as [-> ->]. rewrite (on_client_bind _ _ _ _ _ _ _ E3).
    rewrite app_nil_r in Ho2, Hp2. unfold mbind at 1, ST_bind at 1, mbind at 1, ST_bind at 1, on_raw. cbn [_raw_stream tls_client tls_lib].
    destruct (source_read size raw1) as [raw2 [d|e|]] eqn:E4; [|by eexists _, _|by pose proof (read_defined size raw1) as Hd; rewrite E4 in Hd].
    destruct (read_rounds _ _ _ _ H0 E4) as (Hr2 & Hd & W2).
    destruct (buffer_encrypted_spec c d k2 Hc2) as (k3 & E5 & Hc3 & Ho3 & Hp3 & Ht3 & Hf3). rewrite (on_client_bind _ _ _ _ _ _ _ E5).
    destruct (handshake_spec c k3 Hc3) as (k4 & r4 & o4 & E6 & Hc4 & Ho4 & Hp4 & Ht4 & Hcase4 & Hfin4).
    destruct Hcase as [Hf2 _]. rewrite Hf3, Hf2 in Hfin4. destruct Hfin4 as (Hno & _ & Hfit).
    unfold mbind, ST_bind, mret, ST_ret. rewrite (on_client_run _ _ _ _ _ _ E6).
    assert (passes (MkTLSStream c raw k) (MkTLSStream c raw2 k4)) as Hpass.
    { split; [done|done|unfold tls_text; cbn; by rewrite Ht4, Ht3, <- Hd, Ht2, Ht1, Hst1|]. exists out, o4. cbn.
      rewrite W2, W1, Hp4, Hp3, Hp2, Hp1, Ho4, Ho3, Ho2, Ho1. split_and!; [done..|]. unfold out. by rewrite app_assoc, take_drop. }
    destruct r4 as [[]| |]; try done; eexists _, _; (split; [done|]); try exact I; cbn [tls_client tls_lib _raw_stream].
    all: split_and!; [first [by left|by right]|done|lia|intros n Hn; rewrite Ho4, Ho3, Ho2, Ho1, length_app; specialize (Hfit n Hn); lia].
Qed.
Lemma handshake_loop_spec size fuel t :
  0 < size → (Z.of_nat size < 2 ^ 31)%Z → secure t → at_head t → rounds (_raw_stream t) < fuel →
  ∃ t' r, handshake_loop size fuel t = Some (t', r) ∧ r ≠ Undef ∧
    (r = Ok () → met t' = true ∧ passes t t' ∧
      (flights_fit (tls_client t) size → length (outgoing (tls_client t) (tls_lib t)) ≤ size → outgoing (tls_client t') (tls_lib t') = [])).
Proof.
  intros H0 H31. revert t. induction fuel as [|fuel IH]; intros t Hc Hh Hfuel; [lia|]. cbn [handshake_loop].
  destruct (handshake_round_spec size t H0 H31 Hc Hh) as (t1 & r & -> & Hr). destruct r as [[]|e|]; [| |by eexists _, _|done].
  - destruct Hr as (Hh1 & Hp & Hlt & Hfit). destruct (IH t1 (passes_secure _ _ Hp) Hh1) as (t2 & r2 & -> & Hd & Hr2); [lia|].
    eexists _, _. do 2 (split; [done|]). intros E. destruct (Hr2 E) as (Hm & Hp2 & Hout). split_and!; [done|by eapply passes_trans|].
    intros Hf Hle. apply Hout; [by rewrite (passes_client _ _ Hp)|]. rewrite (Hfit _ Hf), length_drop. lia.
  - destruct Hr as (Hm & Hp & Ho). eexists _, _. do 2 (split; [done|]). intros _. split_and!; [done..|]. intros _ Hle. rewrite Ho. by apply drop_ge.
Qed.

(** The rounds that write what was encrypted: whole buffers until there are
    enough bytes, or all of it. *)
Definition transferred (size need s : nat) t t' : Prop :=
  let out := outgoing (tls_client t) (tls_lib t) in
  secure t' ∧ s ≤ length out ∧ s < need + size ∧ (need = 0 → s = 0) ∧ (s = length out ∨ (∃ q, s = q * size) ∧ need ≤ s) ∧
  wire_out (_raw_stream t') = wire_out (_raw_stream t) ++ take s out ∧ outgoing (tls_client t') (tls_lib t') = drop s out ∧
  tls_client t' = tls_client t ∧ produced (tls_client t') (tls_lib t') = produced (tls_client t) (tls_lib t).

Lemma transferred_none size need t t' :
  0 < size → secure t' → _raw_stream t' = _raw_stream t → outgoing (tls_client t') (tls_lib t') = outgoing (tls_client t) (tls_lib t) →
  tls_client t' = tls_client t → produced (tls_client t') (tls_lib t') = produced (tls_client t) (tls_lib t) →
  need = 0 ∨ outgoing (tls_client t) (tls_lib t) = [] → transferred size need 0 t t'.
Proof.
  intros H0 Hc Hr Ho Hk Hp Hn. unfold transferred. rewrite take_0, drop_0, app_nil_r, Hr. split_and!; [done|lia|lia|done| |done..].
  destruct Hn as [Hn|Hn]; [right|left; by rewrite Hn]. split; [by exists 0|lia].
Qed.

Lemma transfer_spec size fuel total n t : 0 < size → (Z.of_nat size < 2 ^ 31)%Z → secure t → total ≤ n + fuel →
  ∃ t' r, transfer_loop size fuel total n t = (t', r) ∧ r ≠ Undef ∧ ∀ m, r = Ok m → ∃ s, m = n + s ∧ transferred size (total - n) s t t'.
Proof.
  intros H0 H31. revert n t. induction fuel as [|fuel IH]; intros n t Hc Hfuel; cbn [transfer_loop].
  all: destruct (Nat.ltb_spec n total) as [Hlt|Hge]; [try lia|exists t, (Ok n); do 2 (split; [done|]); intros m [= <-]; exists 0;
    split; [lia|]; by apply transferred_none; [..|left; lia]].
  destruct t as [c raw k]. unfold secure in Hc. cbn [tls_client tls_lib _raw_stream] in *.
  destruct (read_encrypted_spec c size k Hc H0 H31) as (k1 & E1 & Hc1 & Ho1 & Hp1 & _).
  rewrite (on_client_bind _ _ _ _ _ _ _ E1). unfold completed. cbn [result bytes]. destruct (decide (outgoing c k = [])) as [Hnil|Hnil].
  - eexists _, (Ok n). do 2 (split; [done|]). intros m [= <-]. exists 0. split; [lia|]. apply transferred_none; try done; [|by right].
    cbn. by rewrite Ho1, Hnil, drop_nil.
  - set (d := take size (outgoing c k)). unfold mbind at 1, ST_bind at 1, on_raw. cbn [_raw_stream tls_client tls_lib].
    destruct (stream_write d raw) as [raw1 [x|e|]] eqn:E2;
      [|by eexists _, _|by pose proof (write_defined d raw) as Hdef; rewrite E2 in Hdef].
    assert (length d = size `min` length (outgoing c k)) as Hd by apply length_take.
    assert (0 < length (outgoing c k)) as Hpos by (destruct (outgoing c k); [done|cbn; lia]).
    destruct (IH (n + length d) (MkTLSStream c raw1 k1) Hc1) as (t' & r & E & Hdef & Hr); [lia|].
    exists t', r. do 2 (split; [done|]). intros m Hm. destruct (Hr m Hm) as (s & -> & Hc2 & Hs & Hlt2 & Hz & Hend & Hw & Ho & Hk & Hp).
    cbn [tls_client tls_lib _raw_stream] in *. rewrite Ho1, ?length_drop in *. exists (length d + s). split; [lia|].
    unfold transferred. cbn [tls_client tls_lib _raw_stream]. split_and!; [done|lia|lia|lia| | | |done|by rewrite Hp].
    + destruct Hend as [Hend|[[q Hq] Hend]]; [left; lia|]. destruct (decide (size ≤ length (outgoing c k))); [right|left; lia].
      split; [exists (1 + q); lia|lia].
    + rewrite Hw, (write_whole _ _ _ _ E2), <- app_assoc. f_equal. unfold d at 1.
      destruct (decide (size ≤ length (outgoing c k))); [replace (length d) with size by lia; by rewrite take_take_drop|].
      rewrite (drop_ge _ size), take_nil, app_nil_r, !take_ge by lia. done.
    + rewrite Ho, drop_drop. destruct (decide (size ≤ length (outgoing c k))); [f_equal; lia|]. by rewrite !drop_ge by lia.
Qed.
End handshakes.

(** * Streams as sources *)

(** The stream that a reader and a router see: using a connection that is none
    is undefined. *)
Section source.
Context (tls_buffer_size : nat) {K : Type} `{!OpenSSL K, !OpenSSLData K} {S : Type} `{CS : CoStream S}.

Definition guarded {A} (m : ST (TLSStream K S) A) : ST (TLSStream K S) A := λ t, if decide (secure t) then m t else (t, Undef).
Definition shown (t : TLSStream K S) : str := if decide (secure t) then tls_text t else [].

#[export] Instance tls_readable : CoReadable (TLSStream K S).
Proof.
  refine {| source_eof := tls_eof; source_good := tls_good; source_read := λ n, guarded (read n); stream := shown |}.
  - intros n t t' d. unfold guarded, shown. destruct (decide (secure t)) as [Hc|Hc]; [|done]. intros E.
    destruct (read_spec n t t' (Ok d) Hc E) as (Hc' & Hl & Ht). by rewrite decide_True.
  - intros n t t' r. unfold guarded, shown. destruct (decide (secure t)) as [Hc|Hc]; intros E Hr.
    + destruct (read_spec n t t' r Hc E) as (Hc' & Ht). rewrite decide_True by done. destruct r as [d|e|]; [by destruct (Hr d)|done..].
    + injection E as <- <-. by rewrite decide_False.
Defined.

Definition tls_stream : CoStream (TLSStream K S).
Proof.
  refine {| stream_write := λ d, guarded (write tls_buffer_size d); stream_close := tls_close |}.
  - intros d t t' r. cbn. unfold guarded, shown. destruct (decide (secure t)) as [Hc|Hc]; intros E.
    + destruct (write_keeps _ _ _ _ _ Hc E) as [Hc' Ht]. by rewrite decide_True.
    + injection E as <- <-. by rewrite decide_False.
  - intros t. apply stream_close_ends.
Defined.
End source.

(** * Properties *)





(** * A library and a pipe *)

Lemma mock_decode_app n t rest : n ≤ length (mock_decode t) →
  mock_decode (t ++ rest) = take n (mock_decode t) ++ mock_decode (drop (2 * n) t ++ rest).
Proof.
  revert t. induction n as [|n IH]; intros t Hn; [by rewrite take_0, drop_0|].
  destruct t as [|x [|c t]]; [cbn in Hn; lia..|]. cbn in Hn. replace (2 * S n) with (S (S (2 * n))) by lia. cbn. f_equal. apply IH. lia.
Qed.
Lemma length_mock_encode d : length (mock_encode d) = 2 * length d.
Proof. induction d as [|x d IH]; [done|]. cbn in *. unfold mock_encode in IH. rewrite IH. lia. Qed.

(** What the bytes from the peer decrypt to, after the letter of the handshake. *)
Definition mock_text (k : mock) (rest : str) : str :=
  mock_decode (if mock_met k then mock_in k ++ rest else drop 1 (mock_in k ++ rest)).
Definition mock_connected (c : TLSClientImpl) (k : mock) : Prop := mock_conn k = Some (_client c, _encrypted c, _plaintext c).
#[export] Instance mock_connected_dec c k : Decision (mock_connected c k).
Proof. unfold mock_connected. apply _. Defined.

Lemma mock_ids c k : mock_connected c k → is_ssl (_client c) k = true ∧ is_in (_encrypted c) k = true ∧ is_out (_plaintext c) k = true.
Proof. intros H. unfold is_ssl, is_in, is_out. rewrite H. by rewrite !bool_decide_true. Qed.

Lemma mock_make_client_connects ctx k k' c : make_client ctx k = (k', Ok c) → mock_connected c k'.
Proof.
  unfold make_client, lib, mbind, ST_bind, st_modify. cbn.
  destruct (mock_alloc k) as [k1 [e|]]; [|by destruct (check_all_fails (A := TLSClientImpl) k1) as [x ->]].
  destruct (mock_alloc k1) as [k2 [p|]]; [|by destruct (check_all_fails (A := TLSClientImpl) (mock_free {[e]} k2)) as [x ->]].
  destruct (mock_alloc k2) as [k3 [s|]]; [|by destruct (check_all_fails (A := TLSClientImpl) (mock_free {[p]} (mock_free {[e]} k3))) as [x ->]].
  by destruct (_connection_mode ctx); intros [= <- <-].
Qed.

Lemma mock_handshake_law c k k' n : mock_connected c k → mock_handshake (_client c) k = (k', n) →
  mock_connected c k' ∧ (∀ rest, mock_text k' rest = mock_text k rest) ∧
  (∃ out, mock_out k' = mock_out k ++ out ∧ mock_total k' = mock_total k ++ out ∧ (mock_said k = true → out = [])) ∧
  (n = 1%Z ∧ mock_met k' = true ∨ n = (-1)%Z ∧ mock_met k' = false ∧ mock_said k' = true ∧ mock_in k' = [] ∧ mock_in k = []).
Proof.
  intros Hc. destruct (mock_ids c k Hc) as (Hs & _). unfold mock_handshake. rewrite Hs. cbn [negb].
  destruct (mock_met k) eqn:Hm; [intros [= <- <-]; split_and!; [done|done|exists []; by rewrite !app_nil_r|by left]|].
  unfold mock_text, mock_connected in *. destruct (mock_said k) eqn:Hsaid; cbn; rewrite ?Hm; (destruct (mock_in k) as [|x i] eqn:Hi; intros [= <- <-]; cbn;
    rewrite ?Hm, ?Hi; (split_and!; [done|done| |first [by left|by right]])).
  1,2: exists []; by rewrite !app_nil_r.
  all: by exists (B "H").
Qed.

#[export] Instance mock_data : OpenSSLData mock.
Proof.
  refine {| connected := mock_connected; outgoing _ := mock_out; produced _ := mock_total;
    starved _ k := mock_said k = true ∧ mock_in k = []; plaintext _ := mock_text |}.
  - done.
  - apply mock_make_client_connects.
  - intros c k k' n Hc E. destruct (mock_handshake_law c k k' n Hc E) as (Hc' & Ht & (out & Ho & Hp & Hsaid) & Hn). cbn zeta. cbn.
    destruct (mock_ids c k Hc) as (Hs & _). destruct (mock_ids c k' Hc') as (Hs' & _). rewrite Hs, Hs'. cbn.
    split; [done|]. split; [done|]. split; [by exists out|]. destruct Hn as [[-> Hm]|(-> & Hm & Hsd & Hi & _)]; cbn; rewrite Hm.
    + split_and!; [done..|]. intros [Hsd Hi] Hm0. exfalso. cbn in E. unfold mock_handshake in E. rewrite Hs, Hm0, Hsd in E. cbn in E. rewrite Hi in E. done.
    + split_and!; [done..|]. intros [Hsd0 _] _. by rewrite Ho, (Hsaid Hsd0), app_nil_r.
  - intros c d k k' b Hc E. destruct (mock_ids c k Hc) as (Hs & Hi & _). cbn in E. rewrite Hi in E. injection E as <- <-. cbn. split_and!; try done.
    intros rest. unfold mock_text. cbn. by rewrite <- app_assoc.
  - intros c num k k' n d Hc E. destruct (mock_ids c k Hc) as (Hs & _ & Ho). cbn in E. unfold mock_bio_read in E. rewrite Ho in E. cbn in E.
    cbn. destruct (decide (mock_out k = [])) as [Hnil|Hnil].
    + rewrite bool_decide_true in E by done. injection E as <- <- <-. by split_and!.
    + rewrite bool_decide_false in E by done. injection E as <- <- <-. by split_and!.
  - intros c num k k' n d Hc E. destruct (mock_ids c k Hc) as (Hs & _). cbn in E. unfold mock_ssl_read in E. rewrite Hs in E.
    destruct (mock_met k) eqn:Hm; [|injection E as <- <- <-; by split_and!]. cbn [andb] in E.
    set (m := Z.to_nat num `min` length (mock_decode (mock_in k))) in *. destruct (Nat.ltb_spec 0 m) as [Hpos|Hz]; injection E as <- <- <-; [|by split_and!].
    split; [done|]. split; [|lia]. intros _. rewrite length_take. split_and!; [lia|lia|]. intros rest. cbn. unfold mock_text. cbn. rewrite Hm.
    apply mock_decode_app. lia.
  - intros c d num k k' n Hc E. destruct (mock_ids c k Hc) as (Hs & _). cbn in E. rewrite Hs in E. cbn [andb] in E.
    destruct (mock_met k) eqn:Hm; injection E as <- <-; [|by split_and!]. split; [done|]. split; [done|]. intros _ ->. split; [done|].
    exists (mock_encode d). rewrite length_mock_encode. split_and!; [lia|done..].
  - intros c k k' e Hc [= <- <-]. by split_and!.
Defined.

(** A stream that delivers at most so many bytes at once, and ends when there are
    no more. *)
Record Pipe := MkPipe { arriving : str; burst : nat; piped : str; pipe_open : bool }.
Definition pipe_read (n : nat) : ST Pipe str := λ p,
  if negb (pipe_open p) then (p, throw FailedPrecondition)
  else if decide (arriving p = []) then (MkPipe [] (burst p) (piped p) false, Ok [])
  else let m := n `min` S (burst p) in (MkPipe (drop m (arriving p)) (burst p) (piped p) true, Ok (take m (arriving p))).

#[export] Instance pipe_readable : CoReadable Pipe.
Proof.
  refine {| source_eof p := bool_decide (arriving p = []); source_good := pipe_open; source_read := pipe_read; stream := arriving |}.
  - intros n p p' d. unfold pipe_read. destruct (pipe_open p); [|done]. cbn [negb]. case_decide as Ha; intros [= <- <-]; cbn.
    + split; [lia|done].
    + rewrite length_take, take_drop. split; [lia|done].
  - intros n p p' r. unfold pipe_read. destruct (pipe_open p); cbn [negb]; [|by intros [= <- <-]].
    case_decide; intros [= <- <-] Hr; by edestruct Hr.
Defined.
#[export] Instance pipe_stream : CoStream Pipe.
Proof.
  refine {| stream_write d p := (MkPipe (arriving p) (burst p) (piped p ++ d) (pipe_open p), Ok (length d));
    stream_close p := MkPipe (arriving p) (burst p) (piped p) false |}; [|done].
  by intros d p p' r [= <- <-].
Defined.
#[export] Instance pipe_transport : Transport Pipe.
Proof.
  refine {| wire_out := piped |}; cbn.
  - by intros d p p' n [= <- <-].
  - by intros d p p' r [= <- <-].
  - intros n p p' r. unfold pipe_read. destruct (pipe_open p); cbn [negb]; [case_decide|]; by intros [= <- <-].
  - intros n p p' Hn. unfold pipe_read. destruct (pipe_open p); cbn [negb]; [|done]. case_decide as Ha; [by intros [= <-]|].
    destruct (arriving p), n; try done; lia.
  - intros n p p' r Hp. unfold pipe_read. rewrite Hp. by intros [= <- <-].
  - intros n p. unfold pipe_read. destruct (pipe_open p); cbn [negb]; [case_decide|]; done.
  - done.
Defined.

(** * Witnesses *)

Definition mock_context : TLSContextImpl := MkTLSContext ACCEPT 0.
Definition fresh_tls (arriving : str) (burst : nat) : TLSStream mock Pipe :=
  match wrap_stream mock_context (MkPipe arriving burst [] true) new_mock with
  | Ok t => t
  | _ => MkTLSStream (MkTLSClient 0 0 0) (MkPipe [] 0 [] false) new_mock
  end.


(** A handshake, and what is written after it. *)
Definition met_tls (arriving : str) (burst : nat) : TLSStream mock Pipe :=
  match handshake 16 100 (fresh_tls arriving burst) with Some (t, _) => t | None => fresh_tls arriving burst end.


(** The HTTPS router without routes. *)
Definition no_router : HttpRouter (S := TLSStream mock Pipe) := make_router (RE := literal_engine).
Definition serve_https (n : nat) (conn : Pipe) :=
  tls_router_run 1024 (Http.run (CS := tls_stream 1024) (RE := literal_engine) wire_flags (λ _, 15) Nat.max (λ _, B "malformed") n no_router) 1000
    mock_context conn new_mock.
Definition https_request : Pipe := MkPipe (B "H" ++ mock_encode (get_request (B "/hi") (B "close"))) 1000 [] true.


(** The answer, decrypted. *)
Lemma https_answer :
  option_map (λ r, match r with Ok (_, t, r') => Some (r', mock_decode (drop 1 (piped (_raw_stream t))), pipe_open (_raw_stream t)) | _ => None end)
    (serve_https 3 https_request) =
  Some (Some (Ok (), B "HTTP/1.1 404 Not Found" ++ HttpRequest.CRLF ++ B "Content-Type: text/plain" ++ HttpRequest.CRLF ++ B "Content-Length: 10" ++
    HttpRequest.CRLF ++ HttpRequest.CRLF ++ B "Not Found.", false)).
Proof. by vm_compute. Qed.

(** Writing stops as soon as there were as many encrypted bytes as there were to
    encrypt, so with a full write buffer the end of the last record stays
    behind. *)
Lemma write_leaves_tail :
  let '(t, r) := write 4 (B "abcd") (met_tls (B "H") 0) in
  r = Ok 4 ∧ piped (_raw_stream t) = B "HDaDb" ∧ outgoing (tls_client t) (tls_lib t) = B "DcDd".
Proof. by vm_compute. Qed.

(** A read that ends within a record throws, although nothing is wrong. *)
Lemma partial_record_throws :
  let '(t, r) := read 1 (met_tls (B "HDa") 0) in r = throw Internal ∧ (read 1 t).2 = Ok (B "a").
Proof. by vm_compute. Qed.

(** What is decrypted already is not handed out once the stream under it has
    ended. *)
Lemma decrypted_bytes_stay :
  let '(t, r) := read 1 (met_tls (B "HDaDbDc") 7) in
  r = Ok (B "a") ∧ tls_text t = B "bc" ∧ tls_good t = false ∧ (read 1 t).2 = throw FailedPrecondition.
Proof. by vm_compute. Qed.

(** Without a connection there is no stream to close. *)
Lemma failed_connection_dereferences_null :
  tls_wrap_connection 1024 1000 mock_context https_request (MkMock 100 {[0]} None [] [] [] false false) = Some Undef.
Proof. by vm_compute. Qed.
(** After a failed handshake the stream is handed on, closed. *)
Lemma failed_handshake_returns :
  ∃ t, tls_wrap_connection 1024 1000 mock_context (MkPipe [] 0 [] true) new_mock = Some (Ok t) ∧ tls_good t = false ∧ met t = false.
Proof. eexists. by vm_compute. Qed.
