(* ===== verification/Tuples.v ===== *)
(** lw/base/tuple: the computations on [std::tuple] types, as functions on the
    types. *)
From S2P Require Import Prelude.

(** * Types *)

(** A type is named, a [std::tuple], or another type made const, volatile or a
    reference. *)
Inductive qualifier := Const | Volatile | LvalueRef | RvalueRef.
Inductive type := Named (n : nat) | Tuple (members : list type) | Qualified (q : qualifier) (t : type).

#[export] Instance qualifier_eq_dec : EqDecision qualifier.
Proof. solve_decision. Defined.
#[export] Instance type_eq_dec : EqDecision type.
Proof.
  refine (fix go (t u : type) : Decision (t = u) :=
    let _ : EqDecision type := @go in
    match t, u with
    | Named n, Named m => cast_if (decide (n = m))
    | Tuple l, Tuple k => cast_if (decide (l = k))
    | Qualified p t, Qualified q u => cast_if_and (decide (p = q)) (decide (t = u))
    | _, _ => right _
    end); abstract congruence.
Defined.

(** Induction through the members of tuples. *)
Lemma type_induction (P : type → Prop) :
  (∀ n, P (Named n)) → (∀ l, Forall P l → P (Tuple l)) → (∀ q t, P t → P (Qualified q t)) → ∀ t, P t.
Proof.
  intros H1 H2 H3. fix go 1. intros [n|l|q t]; [apply H1| |apply H3, go]. apply H2. induction l; constructor; [apply go|done].
Qed.

(** * The computations *)

(** [TupleMemberIndex<idx, T, Tuple>::value]. *)
Fixpoint TupleMemberIndex (idx : Z) (t : type) (members : list type) : Z :=
  match members with
  | [] => -1
  | u :: rest => if decide (t = u) then idx else TupleMemberIndex (idx + 1) t rest
  end.
Definition IsTupleMember (t : type) (members : list type) : bool := negb (TupleMemberIndex 0 t members =? -1)%Z.

(** [TupleFlatten<Input, std::tuple<Results...>>::type]. *)
Fixpoint TupleFlatten (input : type) (results : list type) : list type :=
  match input with
  | Tuple members =>
      (fix go (members : list type) (results : list type) : list type :=
         match members with [] => results | t :: rest => go rest (TupleFlatten t results) end) members results
  | t => results ++ [t]
  end.
Definition flat_tuple (members : list type) : list type := TupleFlatten (Tuple members) [].

(** [DedupTuple<Input, std::tuple<Results...>>::type]. *)
Fixpoint DedupTuple (input results : list type) : list type :=
  match input with
  | [] => results
  | t :: rest => if (TupleMemberIndex 0 t results =? -1)%Z then DedupTuple rest (results ++ [t]) else DedupTuple rest results
  end.
Definition deduplicate_tuple (members : list type) : list type := DedupTuple members [].

Definition apply_type_modification (f : type → type) (members : list type) : list type := f <$> members.

(** [std::remove_cvref]: the outermost qualifiers. *)
Fixpoint remove_cvref (t : type) : type := match t with Qualified _ t => remove_cvref t | t => t end.

Definition sanitize_tuple (members : list type) : list type :=
  deduplicate_tuple (apply_type_modification remove_cvref (flat_tuple members)).

(** * What they compute *)

(** The members of a tuple and of the tuples among them, in order. *)
Fixpoint leaves (t : type) : list type :=
  match t with
  | Tuple members => (fix go l := match l with [] => [] | t :: l => leaves t ++ go l end) members
  | t => [t]
  end.

Lemma leaves_tuple l : leaves (Tuple l) = l ≫= leaves.
Proof. induction l as [|t l IH]; [done|]. cbn. by f_equal. Qed.

Lemma flatten_leaves t results : TupleFlatten t results = results ++ leaves t.
Proof.
  revert results. induction t as [n|l IH|q t IH] using type_induction; intros results; [done| |done].
  cbn [TupleFlatten]. rewrite leaves_tuple. revert results. induction IH as [|t l Ht _ IH]; intros results; cbn; [by rewrite app_nil_r|].
  by rewrite Ht, IH, <- app_assoc.
Qed.

Lemma member_index_cases idx t l :
  (0 ≤ idx)%Z →
  TupleMemberIndex idx t l = match list_find (t =.) l with Some (i, _) => (idx + Z.of_nat i)%Z | None => (-1)%Z end.
Proof.
  revert idx. induction l as [|u l IH]; intros idx Hidx; [done|]. cbn. destruct (decide (t = u)) as [->|Hne]; [cbn; lia|].
  rewrite IH by lia. destruct (list_find (t =.) l) as [[i x]|]; cbn; lia.
Qed.
Lemma member_index_In t l : TupleMemberIndex 0 t l = (-1)%Z ↔ t ∉ l.
Proof.
  rewrite member_index_cases by lia. destruct (list_find (t =.) l) as [[i x]|] eqn:E.
  - apply list_find_Some in E as (Hx & -> & _). split; [lia|]. intros H. destruct H. by eapply list_elem_of_lookup_2.
  - apply list_find_None in E. rewrite Forall_forall in E. split; [|done]. intros _ Hin. by apply (E t).
Qed.

(** [t] comes before [u], going by first occurrences. *)
Definition occurs_before (l : list type) (t u : type) : Prop := ∃ l1 l2, l = l1 ++ t :: l2 ∧ (t ∉ l1) ∧ (u ∉ l1) ∧ (u ∈ l2) ∧ u ≠ t.

Lemma dedup_spec input results : NoDup results →
  ∃ added, DedupTuple input results = results ++ added ∧ NoDup (results ++ added) ∧
    (∀ t, t ∈ added ↔ t ∈ input ∧ t ∉ results) ∧ added `sublist_of` input ∧
    (∀ t u, occurs_before input t u → t ∉ results → u ∉ results → occurs_before added t u).
Proof.
  revert results. induction input as [|x input IH]; intros results Hd; cbn [DedupTuple].
  - exists []. rewrite app_nil_r. split_and!; [done|done|set_solver|done|]. intros t u (l1 & l2 & H & _). by destruct l1.
  - destruct (Z.eqb_spec (TupleMemberIndex 0 x results) (-1)) as [E|E]; rewrite member_index_In in E.
    + destruct (IH (results ++ [x])) as (added & -> & Hnd & Hin & Hsub & Hord).
      { apply NoDup_app. split_and!; [done|set_solver|apply NoDup_singleton]. }
      assert (∀ t, t ∈ results ++ [x] ↔ t ∈ results ∨ t = x) as Happ
        by (intros t; by rewrite elem_of_app, list_elem_of_singleton).
      rewrite <- app_assoc in Hnd |- *. exists (x :: added). split_and!; [done..| | |].
      * intros t. rewrite !elem_of_cons, Hin, Happ. destruct (decide (t = x)) as [->|]; tauto.
      * by constructor.
      * intros t u (l1 & l2 & H & Ht & Hu & Hl & Hne) Htr Hur. destruct l1 as [|y l1]; injection H as <- ->.
        -- exists [], added. split_and!; [done|apply not_elem_of_nil..| |done]. apply Hin. rewrite Happ. tauto.
        -- rewrite not_elem_of_cons in Ht, Hu. destruct (Hord t u) as (k1 & k2 & -> & H1 & H2 & H3 & H4).
           { exists l1, l2. tauto. }
           { rewrite Happ. tauto. }
           { rewrite Happ. tauto. }
           exists (x :: k1), k2. rewrite !not_elem_of_cons. tauto.
    + apply dec_stable in E. destruct (IH results Hd) as (added & -> & Hnd & Hin & Hsub & Hord).
      exists added. split_and!; [done..| | |].
      * intros t. rewrite elem_of_cons, Hin. split; [tauto|]. intros [[->|] ?]; tauto.
      * by constructor.
      * intros t u (l1 & l2 & H & Ht & Hu & Hl & Hne) Htr Hur. destruct l1 as [|y l1]; injection H as <- ->; [done|].
        rewrite not_elem_of_cons in Ht, Hu. apply Hord; [|done..]. exists l1, l2. tauto.
Qed.

(** * Properties *)

(** The dependencies of a resource are sanitized to the members of its tuple
    and of the tuples in it, unqualified, each once and in the order in which
    they first occur; a member is recognised exactly when it is there. *)
Theorem sanitized_members (members : list type) :
  let all := remove_cvref <$> leaves (Tuple members) in
  let result := sanitize_tuple members in
  NoDup result ∧ (∀ t, t ∈ result ↔ t ∈ all) ∧ result `sublist_of` all ∧
  (∀ t u, occurs_before all t u → occurs_before result t u) ∧
  (∀ t, IsTupleMember t result = true ↔ t ∈ result) ∧
  (∀ t i, TupleMemberIndex 0 t result = Z.of_nat i ↔ result !! i = Some t).
Proof.
  cbn zeta. unfold sanitize_tuple, deduplicate_tuple, apply_type_modification, flat_tuple. rewrite flatten_leaves. cbn [app].
  destruct (dedup_spec (remove_cvref <$> leaves (Tuple members)) []) as (added & -> & Hnd & Hin & Hsub & Hord); [constructor|].
  cbn [app] in *. split_and!; [done| |done| | |].
  - intros t. rewrite Hin. pose proof (not_elem_of_nil t). tauto.
  - intros t u H. apply Hord; [done|apply not_elem_of_nil..].
  - intros t. unfold IsTupleMember. rewrite negb_true_iff, Z.eqb_neq, member_index_In. split; [apply dec_stable|tauto].
  - intros t i. rewrite member_index_cases by lia. destruct (list_find (t =.) added) as [[j x]|] eqn:E.
    + apply list_find_Some in E as (Hx & <- & _). split; [intros; by replace i with j by lia|].
      intros Hi. pose proof (NoDup_lookup added i j t Hnd Hi Hx). lia.
    + apply list_find_None in E. split; [lia|]. intros Hi. rewrite Forall_forall in E.
      by destruct (E t); [eapply list_elem_of_lookup_2|].
Qed.

(** A tuple behind a reference is not flattened, but loses the reference. *)
Lemma qualified_tuple_stays : sanitize_tuple [Named 0; Qualified LvalueRef (Tuple [Named 1; Named 0])] = [Named 0; Tuple [Named 1; Named 0]].
Proof. done. Qed.
