(* ===== verification/Sockets.v ===== *)
(** lw/net/socket: sockets over the system calls they make, the descriptors they
    own and the bytes they send. *)
From stdpp Require Import gmap.
From S2P Require Import Prelude Cxx Errors.

(** * The operating system *)

(** Addresses are opaque. *)
Definition address : Type := nat.

(** The system calls, with what a C program sees of them: the value returned,
    the output arguments, and [errno] afterwards.  [fd_ready] is the scheduler's:
    it gives the system in which the awaiting coroutine is resumed, if it is. *)
Class SocketCalls (K : Type) := {
  errno_value : K → Z;
  sys_getaddrinfo : bool → option str → str → K → K * (Z * list address);
  sys_socket : address → K → K * Z;
  sys_reuse : Z → K → K * Z;
  sys_bind : Z → address → K → K * Z;
  sys_listen : Z → Z → K → K * Z;
  sys_connect : Z → address → K → K * Z;
  sys_sockerr : Z → K → K * (Z * Z);
  sys_accept : Z → K → K * Z;
  sys_getfl : Z → K → K * Z;
  sys_setfl : Z → Z → K → K * Z;
  sys_send : Z → str → Z → K → K * Z;
  sys_recv : Z → nat → K → K * (Z * str);
  sys_close : Z → K → K;
  fd_ready : bool → Z → K → option K;
  (* What the calls do to the process's descriptors and to the wire. *)
  open_fds : K → gset Z;
  wire : Z → K → str;
}.

(** A call that gives a descriptor gives one that was not open. *)
Definition opens {K} `{!SocketCalls K} (k k' : K) (fd : Z) : Prop :=
  if decide (0 ≤ fd)%Z then (fd ∉ open_fds k) ∧ open_fds k' = {[fd]} ∪ open_fds k else open_fds k' = open_fds k.

(** What POSIX says of them. *)
Class SocketLaws (K : Type) `{!SocketCalls K} := {
  getaddrinfo_keeps p h n k k' r : sys_getaddrinfo p h n k = (k', r) → open_fds k' = open_fds k;
  socket_opens a k k' fd : sys_socket a k = (k', fd) → opens k k' fd;
  reuse_keeps fd k k' r : sys_reuse fd k = (k', r) → open_fds k' = open_fds k;
  bind_keeps fd a k k' r : sys_bind fd a k = (k', r) → open_fds k' = open_fds k;
  listen_keeps fd n k k' r : sys_listen fd n k = (k', r) → open_fds k' = open_fds k;
  connect_keeps fd a k k' r : sys_connect fd a k = (k', r) → open_fds k' = open_fds k;
  sockerr_keeps fd k k' r : sys_sockerr fd k = (k', r) → open_fds k' = open_fds k;
  accept_opens fd k k' r : sys_accept fd k = (k', r) → opens k k' r;
  getfl_keeps fd k k' r : sys_getfl fd k = (k', r) → open_fds k' = open_fds k;
  setfl_keeps fd n k k' r : sys_setfl fd n k = (k', r) → open_fds k' = open_fds k;
  send_keeps fd d n k k' r : sys_send fd d n k = (k', r) → open_fds k' = open_fds k;
  recv_keeps fd n k k' r : sys_recv fd n k = (k', r) → open_fds k' = open_fds k;
  close_closes fd k : open_fds (sys_close fd k) = open_fds k ∖ {[fd]};
  ready_keeps w fd k k' : fd_ready w fd k = Some k' → open_fds k' = open_fds k;
  send_sends fd d n k k' r : sys_send fd d n k = (k', r) →
    (-1 ≤ r ≤ Z.of_nat (length d))%Z ∧ wire fd k' = wire fd k ++ take (Z.to_nat r) d;
  ready_wire w fd g k k' : fd_ready w fd k = Some k' → wire g k' = wire g k;
}.

(** The failures of [getaddrinfo] and their numbers on Linux (<netdb.h>). *)
Inductive gai_error :=
  | EAI_BADFLAGS | EAI_NONAME | EAI_AGAIN | EAI_FAIL | EAI_NODATA | EAI_FAMILY | EAI_SOCKTYPE | EAI_SERVICE
  | EAI_ADDRFAMILY | EAI_MEMORY | EAI_SYSTEM.
Definition gai_num (e : gai_error) : Z :=
  match e with
  | EAI_BADFLAGS => -1 | EAI_NONAME => -2 | EAI_AGAIN => -3 | EAI_FAIL => -4 | EAI_NODATA => -5 | EAI_FAMILY => -6
  | EAI_SOCKTYPE => -7 | EAI_SERVICE => -8 | EAI_ADDRFAMILY => -9 | EAI_MEMORY => -10 | EAI_SYSTEM => -11
  end.
Definition gai_errors : list gai_error :=
  [EAI_BADFLAGS; EAI_NONAME; EAI_AGAIN; EAI_FAIL; EAI_NODATA; EAI_FAMILY; EAI_SOCKTYPE; EAI_SERVICE; EAI_ADDRFAMILY;
   EAI_MEMORY; EAI_SYSTEM].
Definition O_NONBLOCK : Z := 2048.

Section sockets.
Context {K : Type} `{!SocketCalls K} (connection_backlog_limit : Z).

(** * Sockets *)

(** A socket and the system its descriptor is of. *)
Record Socket := MkSocket { _socket_fd : Z; os : K }.
Definition set_fd (fd : Z) : CO Socket () := co_modify (λ s, MkSocket fd (os s)).
Definition call {A} (f : K → K * A) : CO Socket A := λ s,
  let '(k, a) := f (os s) in (MkSocket (_socket_fd s) k, Some (Ok a)).
Definition sys_do (f : K → K) : CO Socket () := call (λ k, (f k, ())).
Definition get_errno : CO Socket Z := call (λ k, (k, errno_value k)).
Definition await_fd (writable : bool) (fd : Z) : CO Socket () := λ s,
  match fd_ready writable fd (os s) with Some k => (MkSocket (_socket_fd s) k, Some (Ok ())) | None => (s, None) end.

(** [check_system_error(); throw Internal();] *)
Definition fail_errno {A} : CO Socket A :=
  e ← get_errno; co_res (check_errno e) ≫= λ _, co_throw Internal.

Definition check_gai_error (err : Z) : CO Socket () :=
  if (err =? 0)%Z then mret ()
  else match List.find (λ e, gai_num e =? err)%Z gai_errors with
       | Some (EAI_BADFLAGS | EAI_MEMORY) => co_throw Internal
       | Some (EAI_NONAME | EAI_SOCKTYPE) => co_throw InvalidArgument
       | Some (EAI_ADDRFAMILY | EAI_NODATA | EAI_SERVICE) => co_throw NotFound
       | Some (EAI_AGAIN | EAI_FAIL) => co_throw Unavailable
       | Some EAI_FAMILY => co_throw Unimplemented
       | Some EAI_SYSTEM => fail_errno
       | None => co_throw Internal
       end.

Definition enable_socket_reuse (sock : Z) : CO Socket () :=
  r ← call (sys_reuse sock); if (r =? -1)%Z then fail_errno else mret ().

Definition should_wait (err : Z) : bool := (err =? errno_num EAGAIN)%Z.

Definition is_open (s : Socket) : bool := (0 <? _socket_fd s)%Z.

(** [Socket::close]. *)
Definition close : CO Socket () :=
  s ← co_get;
  if (_socket_fd s =? 0)%Z then co_throw FailedPrecondition
  else sys_do (sys_close (_socket_fd s)) ≫= λ _, set_fd 0.

(** ** Opening *)

(** The addresses of [connect], tried in turn. *)
Fixpoint connect_loop (addresses : list address) : CO Socket () :=
  match addresses with
  | [] => mret ()
  | mvr :: next =>
      sock ← call (sys_socket mvr);
      if (sock <=? 0)%Z then connect_loop next
      else
        conn_result ← call (sys_connect sock mvr);
        if (conn_result =? -1)%Z then
          e ← get_errno;
          if (e =? errno_num EINPROGRESS)%Z then
            await_fd true sock ≫= λ _,
            '(r, err) ← call (sys_sockerr sock);
            if negb (r =? 0)%Z then fail_errno
            else if negb (err =? 0)%Z then sys_do (sys_close sock) ≫= λ _, connect_loop next
            else set_fd sock
          else sys_do (sys_close sock) ≫= λ _, connect_loop next
        else set_fd sock
  end.

Definition connect (hostname service : str) : CO Socket () :=
  s ← co_get;
  if is_open s then co_throw FailedPrecondition
  else
    '(err, addresses) ← call (sys_getaddrinfo false (Some hostname) service);
    check_gai_error err ≫= λ _,
    connect_loop addresses ≫= λ _,
    s ← co_get;
    if (_socket_fd s =? 0)%Z then co_throw Internal else mret ().

(** The addresses of [listen], tried in turn. *)
Fixpoint bind_loop (addresses : list address) : CO Socket () :=
  match addresses with
  | [] => mret ()
  | mvr :: next =>
      sock ← call (sys_socket mvr);
      if (sock <=? 0)%Z then bind_loop next
      else
        enable_socket_reuse sock ≫= λ _,
        r ← call (sys_bind sock mvr);
        if (r =? -1)%Z then sys_do (sys_close sock) ≫= λ _, bind_loop next
        else set_fd sock
  end.

Definition listen (hostname service : str) : CO Socket () :=
  s ← co_get;
  if is_open s then co_throw FailedPrecondition
  else
    '(err, addresses) ← call (sys_getaddrinfo true (if decide (hostname = []) then None else Some hostname) service);
    check_gai_error err ≫= λ _,
    bind_loop addresses ≫= λ _,
    s ← co_get;
    if is_open s then
      r ← call (sys_listen (_socket_fd s) connection_backlog_limit);
      if (r =? -1)%Z then fail_errno else mret ()
    else co_throw Unavailable.

(** [_do_accept]; the descriptor is that of the new socket. *)
Fixpoint _do_accept (fuel : nat) : CO Socket Z :=
  match fuel with
  | 0 => suspended
  | S fuel =>
      s ← co_get;
      new_sock ← call (sys_accept (_socket_fd s));
      if (0 <? new_sock)%Z then
        flags ← call (sys_getfl new_sock);
        if (flags =? -1)%Z then fail_errno
        else
          r ← call (sys_setfl new_sock (Z.lor flags O_NONBLOCK));
          if (r =? -1)%Z then fail_errno else mret new_sock
      else
        e ← get_errno;
        if should_wait e then await_fd false (_socket_fd s) ≫= λ _, _do_accept fuel
        else fail_errno
  end.
Definition accept (fuel : nat) : CO Socket Z :=
  s ← co_get; if is_open s then _do_accept fuel else co_throw FailedPrecondition.

(** ** Sending and receiving *)

(** [_do_send]; the views that [trim_suffix] and [trim_prefix] give are the first
    and the second half of the data.  The result of [::send] is stored in an
    [int]. *)
Fixpoint _do_send (fuel : nat) (data : str) (flags : Z) : CO Socket nat :=
  match fuel with
  | 0 => suspended
  | S fuel =>
      s ← co_get;
      n ← call (sys_send (_socket_fd s) data flags);
      let bytes_sent := wrap_s 32 n in
      if (0 <? bytes_sent)%Z then mret (Z.to_nat bytes_sent)
      else
        e ← get_errno;
        if should_wait e then await_fd true (_socket_fd s) ≫= λ _, _do_send fuel data flags
        else if (e =? errno_num EMSGSIZE)%Z then
          if decide (length data < 2) then co_throw ResourceExhausted
          else
            let half_size := length data `div` 2 in
            first_send ← _do_send fuel (take half_size data) flags;
            second_send ← _do_send fuel (drop half_size data) flags;
            mret (first_send + second_send)
        else fail_errno
  end.
Definition send (fuel : nat) (data : str) : CO Socket nat :=
  s ← co_get;
  if negb (is_open s) then co_throw FailedPrecondition
  else if decide (data = []) then co_throw InvalidArgument
  else _do_send fuel data 0.

(** [_do_recv] into [size] bytes: the count and the bytes. *)
Fixpoint _do_recv (fuel size : nat) : CO Socket (nat * str) :=
  match fuel with
  | 0 => suspended
  | S fuel =>
      s ← co_get;
      '(n, bytes) ← call (sys_recv (_socket_fd s) size);
      let bytes_received := wrap_s 32 n in
      if (0 <? bytes_received)%Z then mret (Z.to_nat bytes_received, bytes)
      else if (bytes_received =? 0)%Z then close ≫= λ _, mret (0, bytes)
      else
        e ← get_errno;
        if should_wait e then await_fd false (_socket_fd s) ≫= λ _, _do_recv fuel size
        else fail_errno
  end.
Definition receive (fuel size : nat) : CO Socket (nat * str) :=
  s ← co_get;
  if negb (is_open s) then co_throw FailedPrecondition
  else if decide (size = 0) then co_throw InvalidArgument
  else _do_recv fuel size.

(** * Several sockets *)

(** The sockets of a program, by name, over one system. *)
Record Net := MkNet { sockets : gmap nat Z; net_os : K }.

(** A call on socket [i]. *)
Definition on_socket {A} (i : nat) (m : CO Socket A) : CO Net A := λ w,
  match sockets w !! i with
  | None => (w, Some Undef)
  | Some fd =>
      let '(s, r) := m (MkSocket fd (net_os w)) in
      (MkNet (<[i := _socket_fd s]> (sockets w)) (os s), r)
  end.
Definition set_socket (i : nat) (fd : Z) : CO Net () := co_modify (λ w, MkNet (<[i := fd]> (sockets w)) (net_os w)).
(** A socket is constructed in fresh storage. *)
Definition construct (i : nat) (fd : Z) : CO Net () :=
  w ← co_get; if decide (is_Some (sockets w !! i)) then co_res Undef else set_socket i fd.

Definition Socket_default (i : nat) : CO Net () := construct i 0.
(** [other._socket_fd = 0] after reading it. *)
Definition take_fd (i : nat) : CO Net Z := on_socket i (s ← co_get; set_fd 0 ≫= λ _, mret (_socket_fd s)).
Definition Socket_move (i other : nat) : CO Net () := fd ← take_fd other; construct i fd.
Definition move_assign (i other : nat) : CO Net () :=
  on_socket i (s ← co_get; if is_open s then close else mret ()) ≫= λ _,
  fd ← on_socket other (s ← co_get; mret (_socket_fd s));
  set_socket i fd ≫= λ _, set_socket other 0.
Definition destroy (i : nat) : CO Net () :=
  on_socket i (s ← co_get; if (_socket_fd s =? 0)%Z then mret () else close) ≫= λ _,
  co_modify (λ w, MkNet (delete i (sockets w)) (net_os w)).

(** What a program does with its sockets. *)
Inductive socket_op :=
  | New (i : nat) | Move (i other : nat) | Assign (i other : nat) | Destroy (i : nat) | Close (i : nat)
  | Connect (i : nat) (hostname service : str) | Listen (i : nat) (hostname service : str) | Accept (i j : nat)
  | Send (i : nat) (data : str) | Receive (i size : nat).
Definition run_op (fuel : nat) (o : socket_op) : CO Net () :=
  match o with
  | New i => Socket_default i
  | Move i other => w ← co_get; if decide (is_Some (sockets w !! i)) then co_res Undef else Socket_move i other
  | Assign i other => move_assign i other
  | Destroy i => destroy i
  | Close i => on_socket i close
  | Connect i h n => on_socket i (connect h n)
  | Listen i h n => on_socket i (listen h n)
  | Accept i j =>
      w ← co_get;
      if decide (is_Some (sockets w !! j)) then co_res Undef
      else fd ← on_socket i (accept fuel); construct j fd
  | Send i d => on_socket i (send fuel d) ≫= λ _, mret ()
  | Receive i n => on_socket i (receive fuel n) ≫= λ _, mret ()
  end.
(** One after the other, whatever comes of them. *)
Definition run_ops (fuel : nat) (l : list socket_op) (w : Net) : Net := foldl (λ w o, (run_op fuel o w).1) w l.
End sockets.
Arguments Socket : clear implicits.
Arguments Net : clear implicits.

(** * Ownership of descriptors *)

Section ownership.
Context {K : Type} `{!SocketCalls K, !SocketLaws K}.
Implicit Types s : Socket K.

Definition own (fd : Z) : gset Z := if decide (fd = 0)%Z then ∅ else {[fd]}.
(** A socket is closed or has an open descriptor; the others are not its own. *)
Definition valid (s : Socket K) : Prop := _socket_fd s = 0%Z ∨ (0 < _socket_fd s)%Z ∧ _socket_fd s ∈ open_fds (os s).
Definition rest (s : Socket K) : gset Z := open_fds (os s) ∖ own (_socket_fd s).

(** From [s] to [s'], no descriptor was closed that was not the socket's, and,
    when the call returned, none is left over but those in [extra]. *)
Definition careful {A} (extra : A → gset Z) (s s' : Socket K) (r : option (res A)) : Prop :=
  valid s' ∧ rest s ⊆ rest s' ∧ ∀ a, r = Some (Ok a) → rest s' ⊆ rest s ∪ extra a.
(** Descriptor 0, which the code takes for a failure. *)
Definition zero {A} (_ : A) : gset Z := {[0%Z]}.

(** What each call did to the descriptors. *)
Ltac learn_calls :=
  repeat match goal with
  | H : sys_getaddrinfo _ _ _ _ = _ |- _ => apply getaddrinfo_keeps in H
  | H : sys_socket _ _ = _ |- _ => apply socket_opens in H; unfold opens in H
  | H : sys_reuse _ _ = _ |- _ => apply reuse_keeps in H
  | H : sys_bind _ _ _ = _ |- _ => apply bind_keeps in H
  | H : sys_listen _ _ _ = _ |- _ => apply listen_keeps in H
  | H : sys_connect _ _ _ = _ |- _ => apply connect_keeps in H
  | H : sys_sockerr _ _ = _ |- _ => apply sockerr_keeps in H
  | H : sys_accept _ _ = _ |- _ => apply accept_opens in H; unfold opens in H
  | H : sys_getfl _ _ = _ |- _ => apply getfl_keeps in H
  | H : sys_setfl _ _ _ = _ |- _ => apply setfl_keeps in H
  | H : sys_send _ _ _ _ = _ |- _ => apply send_keeps in H
  | H : sys_recv _ _ _ = _ |- _ => apply recv_keeps in H
  | H : fd_ready _ _ _ = Some _ |- _ => apply ready_keeps in H
  end.

(** Run a call to the next branch. *)
Ltac run_calls :=
  repeat first
    [ progress unfold call, sys_do, set_fd, get_errno, await_fd, co_modify, co_get, co_throw, co_res, mret, CO_ret,
        mbind, CO_bind, throw in *
    | progress cbn [os _socket_fd fst snd] in *
    | case_match; simplify_eq ].

(** Say what the calls did to the descriptors, and nothing else. *)
Ltac only_sets :=
  learn_calls; bool_hyps; cbn [os _socket_fd] in *;
  repeat match goal with
  | H : context [decide (0 ≤ ?x)%Z] |- _ => destruct (decide (0 ≤ x)%Z); destruct_and?; try (exfalso; lia)
  end;
  repeat match goal with H1 : (0 ≤ ?x)%Z, H2 : (?x ≤ 0)%Z |- _ => assert (x = 0%Z) as -> by lia; clear H1 H2 end;
  rewrite ?close_closes;
  repeat match goal with H : open_fds _ = _ |- _ => rewrite ?H; try (rewrite H in * |-); clear H end;
  repeat match goal with
  | H : @eq _ _ _ |- _ => clear H
  | H : not (@eq _ _ _) |- _ => clear H
  | H : (_ < _)%Z |- _ => clear H
  | H : (_ ≤ _)%Z |- _ => clear H
  | H : ∀ _, _ |- _ => clear H
  end.

(** A socket that was closed. *)
Lemma careful_closed {A} s s' (r : option (res A)) :
  _socket_fd s = 0%Z →
  _socket_fd s' = 0%Z ∨ (0 < _socket_fd s')%Z ∧ (_socket_fd s' ∉ open_fds (os s)) ∧ _socket_fd s' ∈ open_fds (os s') →
  open_fds (os s) ⊆ open_fds (os s') →
  (∀ a, r = Some (Ok a) → open_fds (os s') ⊆ open_fds (os s) ∪ own (_socket_fd s') ∪ {[0%Z]}) →
  careful zero s s' r.
Proof.
  unfold careful, valid, rest, own, zero. intros -> H1 H2 H3. destruct H1 as [E|(H4 & H5 & H6)].
  - rewrite E in *. cbn in *. split_and!; [by left|set_solver|]. intros a Ha. specialize (H3 a Ha). set_solver.
  - destruct (decide (_socket_fd s' = 0%Z)); [lia|]. cbn. split_and!; [by right|set_solver|].
    intros a Ha. specialize (H3 a Ha). set_solver.
Qed.

(** The outcome is not a value. *)
Ltac no_value :=
  first [ by intros ? [=]
        | match goal with H : ∀ a, ?r ≠ Some (Ok a) |- ∀ a, ?r = Some (Ok a) → _ => intros ? ?%H; contradiction end ].

(** Settle a branch from what its calls did. *)
Ltac settle :=
  first
    [ apply careful_closed;
      [ done
      | first [left; cbn [_socket_fd]; congruence | right; split_and!; [bool_hyps; cbn; lia|..]; only_sets; set_solver]
      | only_sets; set_solver
      | first [no_value | intros ? _; unfold own; cbn [_socket_fd]; case_decide; only_sets; set_solver] ] ].

Lemma careful_trans {A C} (ex : A → gset Z) s s1 s' (a : C) (r : option (res A)) :
  careful zero s s1 (Some (Ok a)) → careful ex s1 s' r → (∀ a, {[0%Z]} ⊆ ex a) → careful ex s s' r.
Proof.
  intros (H1 & H2 & H3) (H4 & H5 & H6) Hex. specialize (H3 a eq_refl). split_and!; [done|set_solver|].
  intros x Hx. specialize (H6 x Hx). specialize (Hex x). unfold zero in H3. set_solver.
Qed.

(** Calls that leave the descriptors alone. *)
Definition keeps_fds (s s' : Socket K) : Prop := _socket_fd s' = _socket_fd s ∧ open_fds (os s') = open_fds (os s).
Lemma keeps_careful {A} (ex : A → gset Z) s s' r : valid s → keeps_fds s s' → careful ex s s' r.
Proof. unfold keeps_fds, careful, valid, rest. intros Hv [-> ->]. split_and!; [done..|set_solver]. Qed.

Lemma fail_errno_keeps {A} s s' (r : option (res A)) : fail_errno s = (s', r) → keeps_fds s s' ∧ ∀ a, r ≠ Some (Ok a).
Proof. unfold fail_errno. intros H. run_calls; split; done. Qed.
Lemma check_gai_keeps err s s' r : check_gai_error err s = (s', r) → keeps_fds s s'.
Proof.
  unfold check_gai_error, co_throw, co_res, throw. destruct (err =? 0)%Z; [by intros [= <- <-]|].
  destruct (List.find _ _) as [[]|]; try (by intros [= <- <-]). by intros [? _]%fail_errno_keeps.
Qed.

Ltac learn_failure :=
  repeat match goal with
  | H : fail_errno _ = (_, _) |- _ =>
      let H1 := fresh in let H2 := fresh in let H3 := fresh in
      apply fail_errno_keeps in H as [[H1 H2] H3]; cbn [os _socket_fd] in H1, H2; try (by destruct (H3 _ eq_refl))
  end.

Lemma close_careful s s' r : valid s → close s = (s', r) → careful zero s s' r ∧ (∀ a, r = Some (Ok a) → _socket_fd s' = 0%Z).
Proof.
  intros Hv H. unfold close in H. run_calls; (split; [|done]); [by apply keeps_careful|].
  unfold careful, valid, rest, own, zero. cbn. rewrite close_closes, decide_False by (bool_hyps; done).
  split_and!; [by left|set_solver|]. intros _ _. set_solver.
Qed.

(** Run a loop to the next address, or to the end. *)
Ltac run_loop s IH Hs :=
  run_calls; try (eapply (careful_trans zero s _ _ ()); [|eapply IH; [|eassumption]; exact Hs|done]); learn_failure; settle.

Lemma connect_loop_careful l s s' r : _socket_fd s = 0%Z → connect_loop l s = (s', r) → careful zero s s' r.
Proof.
  revert s s' r. induction l as [|mvr next IH]; intros s s' r Hs H; cbn [connect_loop] in H.
  - injection H as <- <-. apply keeps_careful; [by left|done].
  - run_loop s IH Hs.
Qed.
Lemma bind_loop_careful l s s' r : _socket_fd s = 0%Z → bind_loop l s = (s', r) → careful zero s s' r.
Proof.
  revert s s' r. induction l as [|mvr next IH]; intros s s' r Hs H; cbn [bind_loop] in H.
  - injection H as <- <-. apply keeps_careful; [by left|done].
  - unfold enable_socket_reuse in H. run_loop s IH Hs.
Qed.

Lemma keeps_step {A} (ex : A → gset Z) s s1 s' r : keeps_fds s s1 → careful ex s1 s' r → careful ex s s' r.
Proof. unfold keeps_fds, careful, rest. by intros [-> ->]. Qed.
Lemma keeps_fds_bind {A C} (ex : C → gset Z) (m : CO (Socket K) A) (k : A → CO (Socket K) C) s s' r :
  valid s → (m ≫= k) s = (s', r) → (∀ s1 x, m s = (s1, x) → keeps_fds s s1) →
  (∀ a s1, keeps_fds s s1 → k a s1 = (s', r) → careful ex s1 s' r) → careful ex s s' r.
Proof.
  intros Hv H Hm Hk. apply co_bind_inv in H as [(a & s1 & E & H)|(x & E & _)].
  - eapply keeps_step; [by eapply Hm|]. by apply (Hk a); [eapply Hm|].
  - apply keeps_careful; [done|]. by eapply Hm.
Qed.
Lemma careful_bind {A C} (ex : C → gset Z) (m : CO (Socket K) A) (k : A → CO (Socket K) C) s s' r :
  (m ≫= k) s = (s', r) → (∀ s1 x, m s = (s1, x) → careful zero s s1 x) →
  (∀ a s1, careful zero s s1 (Some (Ok a)) → k a s1 = (s', r) → careful ex s1 s' r) → (∀ c, {[0%Z]} ⊆ ex c) →
  careful ex s s' r.
Proof.
  intros H Hm Hk Hex. apply co_bind_inv in H as [(a & s1 & E & H)|(x & E & _ & Hr)].
  - eapply careful_trans; [by apply Hm|eapply Hk; [by apply Hm|done]|done].
  - destruct (Hm _ _ E) as (? & ? & _). split_and!; [done..|]. by intros a Ha%Hr.
Qed.
Lemma call_keeps {A} (f : K → K * A) s s1 x :
  (∀ k a, f (os s) = (k, a) → open_fds k = open_fds (os s)) → call f s = (s1, x) → keeps_fds s s1.
Proof. unfold call. intros Hf. destruct (f (os s)) as [k a] eqn:E. intros [= <- <-]. split; [done|]. by eapply Hf. Qed.

Lemma closed_fd s : valid s → is_open s = false → _socket_fd s = 0%Z.
Proof. unfold is_open. intros [?|[? _]] ?; bool_hyps; lia. Qed.
Lemma keeps_fd s s1 fd : keeps_fds s s1 → _socket_fd s = fd → _socket_fd s1 = fd.
Proof. by intros [-> _]. Qed.

(** The ends of [connect] and [listen], and their common course. *)
Lemma open_careful (p : bool) h n (loop : list address → CO (Socket K) ()) (tail : CO (Socket K) ()) s s' r :
  valid s → is_open s = false →
  (∀ l s s' r, _socket_fd s = 0%Z → loop l s = (s', r) → careful zero s s' r) →
  (∀ s s' r, tail s = (s', r) → keeps_fds s s') →
  (call (sys_getaddrinfo p h n) ≫= λ '(err, addresses), check_gai_error err ≫= λ _, loop addresses ≫= λ _, tail) s = (s', r) →
  careful zero s s' r.
Proof.
  intros Hv Ho Hl Ht H. eapply (keeps_fds_bind zero _ _ s s' r Hv H).
  { intros s1 x. apply call_keeps. intros k a. apply getaddrinfo_keeps. }
  intros [err l] s1 H1 E. assert (valid s1) as Hv1 by (unfold valid; by destruct H1 as [-> ->]).
  eapply (keeps_fds_bind zero _ _ s1 s' r Hv1 E); [by intros ?? ?%check_gai_keeps|].
  intros [] s2 H2 E2. eapply (careful_bind zero _ _ s2 s' r E2); [|intros [] s3 (Hv3 & _) E3|done].
  - intros s3 x. apply Hl. eapply keeps_fd; [done|]. eapply keeps_fd; [done|]. by apply closed_fd.
  - apply keeps_careful; [done|]. by eapply Ht.
Qed.

Lemma connect_careful h n s s' r : valid s → connect h n s = (s', r) → careful zero s s' r.
Proof.
  intros Hv H. unfold connect in H. rewrite co_get_bind in H. destruct (is_open s) eqn:Ho; [injection H as <- <-; by apply keeps_careful|].
  refine (open_careful _ _ _ _ _ s s' r Hv Ho connect_loop_careful _ H). clear. intros s s' r H. run_calls; done.
Qed.
Lemma listen_careful backlog h n s s' r : valid s → listen backlog h n s = (s', r) → careful zero s s' r.
Proof.
  intros Hv H. unfold listen in H. rewrite co_get_bind in H. destruct (is_open s) eqn:Ho; [injection H as <- <-; by apply keeps_careful|].
  refine (open_careful _ _ _ _ _ s s' r Hv Ho bind_loop_careful _ H). clear -SocketLaws0. intros s s' r H.
  run_calls; try done; learn_failure; learn_calls; unfold keeps_fds in *; cbn [os _socket_fd] in *; (done || split; congruence).
Qed.

(** An accepted descriptor is new. *)
Lemma do_accept_ok fuel s s' r :
  _do_accept fuel s = (s', r) →
  _socket_fd s' = _socket_fd s ∧ open_fds (os s) ⊆ open_fds (os s') ∧
  ∀ a, r = Some (Ok a) → (0 < a)%Z ∧ (a ∉ open_fds (os s)) ∧ a ∈ open_fds (os s') ∧ open_fds (os s') ⊆ open_fds (os s) ∪ {[a; 0%Z]}.
Proof.
  revert s s' r. induction fuel as [|fuel IH]; intros s s' r H; cbn [_do_accept] in H; [by injection H as <- <-|].
  run_calls; try (apply IH in H; cbn [os _socket_fd] in H; destruct H as (Hfd & Hsub & Hok)); learn_failure; cbn [os _socket_fd] in *.
  all: split; [congruence|split; [only_sets; set_solver|]].
  all: try no_value.
  - intros x [= <-]. bool_hyps. split; [done|]. split_and!; only_sets; set_solver.
  - intros x Hx. destruct (Hok x Hx) as (? & ? & ? & ?). split; [done|]. split_and!; only_sets; set_solver.
Qed.

(** Sending keeps the descriptors. *)
Lemma do_send_keeps fuel d flags s s' r : _do_send fuel d flags s = (s', r) → keeps_fds s s'.
Proof.
  revert d s s' r. induction fuel as [|fuel IH]; intros d s s' r H; cbn [_do_send] in H; [by injection H as <- <-|].
  run_calls; repeat match goal with H : _do_send _ _ _ _ = _ |- _ => apply IH in H as [? ?] end; learn_failure; learn_calls;
    split; cbn [os _socket_fd] in *; congruence.
Qed.
Lemma do_recv_careful fuel n s s' r : valid s → _do_recv fuel n s = (s', r) → careful zero s s' r.
Proof.
  revert s s' r. induction fuel as [|fuel IH]; intros s s' r Hv H; cbn [_do_recv] in H; [injection H as <- <-; by apply keeps_careful|].
  rewrite co_get_bind in H. eapply (keeps_fds_bind zero _ _ s s' r Hv H); [intros s1 x; apply call_keeps; intros k a; apply recv_keeps|].
  intros [m bytes] s1 Hk E. assert (valid s1) as Hv1 by (unfold valid; by destruct Hk as [-> ->]).
  destruct (0 <? wrap_s 32 m)%Z; [injection E as <- <-; by apply keeps_careful|].
  destruct (wrap_s 32 m =? 0)%Z.
  { eapply (careful_bind _ _ _ s1 s' r E); [intros; by apply close_careful|intros [] s2 (Hv2 & _) [= <- <-]; by apply keeps_careful|done]. }
  eapply (keeps_fds_bind zero _ _ s1 s' r Hv1 E); [by intros s2 x [= <- <-]|]. intros e s2 Hk2 E2.
  assert (valid s2) as Hv2 by (unfold valid; by destruct Hk2 as [-> ->]).
  destruct (should_wait e); [|apply keeps_careful; [done|]; by apply fail_errno_keeps in E2 as [? _]].
  eapply (keeps_fds_bind zero _ _ s2 s' r Hv2 E2).
  { unfold await_fd. intros s3 x E3. destruct (fd_ready _ _ _) eqn:Er; injection E3 as <- <-; [|done]. split; [done|]. by eapply ready_keeps. }
  intros [] s3 Hk3 E3. apply IH; [|done]. unfold valid. by destruct Hk3 as [-> ->].
Qed.
End ownership.

(** ** Among several sockets *)

Section net.
Context {K : Type} `{!SocketCalls K, !SocketLaws K} (backlog : Z).
Implicit Types w : Net K.

(** Every socket is closed or has an open descriptor of its own. *)
Record net_ok w : Prop := {
  net_valid : ∀ i fd, sockets w !! i = Some fd → fd = 0%Z ∨ (0 < fd)%Z ∧ fd ∈ open_fds (net_os w);
  net_distinct : ∀ i j fd, sockets w !! i = Some fd → sockets w !! j = Some fd → fd ≠ 0%Z → i = j;
}.
(** An open descriptor that is no socket's. *)
Definition unowned w (fd : Z) : Prop := fd ∈ open_fds (net_os w) ∧ ∀ i, sockets w !! i = Some fd → fd = 0%Z.

Definition net_careful {A} w w' (r : option (res A)) : Prop :=
  net_ok w' ∧ (∀ fd, unowned w fd → unowned w' fd) ∧
  (∀ a, r = Some (Ok a) → ∀ fd, unowned w' fd → unowned w fd ∨ fd = 0%Z).

Lemma net_careful_trans {A C} w w1 w' (a : A) (r : option (res C)) :
  net_careful w w1 (Some (Ok a)) → net_careful w1 w' r → net_careful w w' r.
Proof.
  intros (_ & H1 & H2) (H3 & H4 & H5). split_and!; [done|auto|]. intros c Hc fd [H|H]%(H5 c Hc); [|by right]. by eapply H2.
Qed.
Lemma net_careful_failed {A C} w w' (x : option (res A)) (r : option (res C)) :
  net_careful w w' x → (∀ c, r ≠ Some (Ok c)) → net_careful w w' r.
Proof. intros (H1 & H2 & _) Hr. split_and!; [done..|]. by intros c Hc%Hr. Qed.
Lemma net_careful_refl {A} w (r : option (res A)) : net_ok w → net_careful w w r.
Proof. intros H. split_and!; [done|auto|]. intros _ _ fd ?. by left. Qed.
Lemma net_bind {A C} (m : CO (Net K) A) (k : A → CO (Net K) C) w w' r :
  (m ≫= k) w = (w', r) → (∀ w1 x, m w = (w1, x) → net_careful w w1 x) →
  (∀ a w1, m w = (w1, Some (Ok a)) → net_ok w1 → k a w1 = (w', r) → net_careful w1 w' r) → net_careful w w' r.
Proof.
  intros H Hm Hk. apply co_bind_inv in H as [(a & w1 & E & H)|(x & E & _ & Hr)].
  - eapply net_careful_trans; [by apply Hm|]. eapply Hk; [done| |done]. by destruct (Hm _ _ E).
  - eapply net_careful_failed; [by apply Hm|done].
Qed.

Lemma own_spec fd x : x ∈ own fd ↔ x = fd ∧ fd ≠ 0%Z.
Proof. unfold own. case_decide; set_solver. Qed.
Lemma rest_spec (s : Socket K) x : x ∈ rest s ↔ x ∈ open_fds (os s) ∧ (x = _socket_fd s → x = 0%Z).
Proof. unfold rest. rewrite elem_of_difference, own_spec. destruct (decide (x = 0%Z)); naive_solver. Qed.

(** What one socket does is careful of the others. *)
Lemma on_socket_careful {A} i (m : CO (Socket K) A) w w' r :
  net_ok w → on_socket i m w = (w', r) → (∀ s s' x, valid s → m s = (s', x) → careful zero s s' x) → net_careful w w' r.
Proof.
  intros [Hv Hd] H Hm. unfold on_socket in H. destruct (sockets w !! i) as [fd|] eqn:Hi;
    [|injection H as <- <-; by apply net_careful_refl].
  destruct (m (MkSocket fd (net_os w))) as [s' x] eqn:E. injection H as <- <-.
  destruct (Hm (MkSocket fd (net_os w)) s' x (Hv i fd Hi) E) as (Hv' & Hsub & Hok).
  assert (∀ j y, i ≠ j → sockets w !! j = Some y → y ≠ 0%Z → y ∈ open_fds (os s') ∧ y ≠ _socket_fd s') as Hother.
  { intros j y Hne Hj Hy. assert (y ∈ rest s') as [? Hy']%rest_spec; [|by auto]. apply Hsub, rest_spec. cbn.
    destruct (Hv j y Hj) as [|[_ ?]]; [done|]. split; [done|]. intros ->. by destruct Hne, (Hd i j fd). }
  split_and!; [split|..]; cbn.
  - intros j y. rewrite lookup_insert_Some. intros [[<- <-]|[Hne Hj]]; [done|].
    destruct (decide (y = 0%Z)); [by left|right]. split; [by destruct (Hv j y Hj) as [|[? _]]|by eapply Hother].
  - intros j j' y. rewrite !lookup_insert_Some. intros [[<- <-]|[Hne Hj]] [[<- E']|[Hne' Hj']] Hy; [done|..|by eapply Hd].
    + by destruct (Hother j' _ Hne' Hj' Hy).
    + subst y. by destruct (Hother j _ Hne Hj Hy).
  - intros y [Hy Hun]. assert (y ∈ rest s') as [Ho Hs]%rest_spec.
    { apply Hsub, rest_spec. split; [done|]. cbn. intros ->. by eapply Hun. }
    split; [done|]. intros j. cbn. rewrite lookup_insert_Some. intros [[<- <-]|[Hne Hj]]; [auto|by eapply Hun].
  - intros a Ha y [Hy Hun]. cbn in *. assert (y ∈ rest s') as Hy'.
    { apply rest_spec. split; [done|]. intros ->. apply (Hun i). by rewrite lookup_insert_eq. }
    apply (Hok a Ha), elem_of_union in Hy' as [[Ho Hs]%rest_spec|?]; [left|right; set_solver].
    split; [done|]. intros j Hj. destruct (decide (i = j)) as [<-|Hne]; [apply Hs; cbn; congruence|].
    apply (Hun j). by rewrite lookup_insert_ne.
Qed.

(** A descriptor is passed on to a socket that has none. *)
Lemma transfer_careful {A} w i other fd (r : option (res A)) :
  net_ok w → sockets w !! other = Some fd → (∀ y, sockets w !! i = Some y → y = 0%Z) →
  net_careful w (MkNet (<[other := 0%Z]> (<[i := fd]> (sockets w))) (net_os w)) r.
Proof.
  intros [Hv Hd] Ho Hi. split_and!; [split|..]; cbn.
  - intros j y. rewrite !lookup_insert_Some. intros [[<- <-]|[Hne [[<- <-]|[Hne' Hj]]]]; [by left|by apply (Hv other)|by apply (Hv j)].
  - intros j j' y. rewrite !lookup_insert_Some. intros [[<- <-]|[Hne [[<- <-]|[Hne' Hj]]]] [[<- E]|[Hn [[<- E]|[Hn' Hj']]]] Hy; try done.
    + by destruct Hn, (Hd other j' fd).
    + subst y. by destruct Hne, (Hd other j fd).
    + by eapply Hd.
  - intros y [Hy Hun]. split; [done|]. intros j. cbn. rewrite !lookup_insert_Some.
    intros [[_ <-]|[Hne [[<- <-]|[Hne' Hj]]]]; [done|by eapply Hun|by eapply Hun].
  - intros a _ y [Hy Hun]. cbn in *. left. split; [done|]. intros j Hj. destruct (decide (y = 0%Z)); [done|].
    destruct (decide (j = other)) as [->|Hne].
    + assert (y = fd) as -> by congruence. destruct (decide (i = other)) as [->|Hne]; [by apply Hi|].
      apply (Hun i). by rewrite lookup_insert_ne, lookup_insert_eq.
    + destruct (decide (j = i)) as [->|Hne']; [by apply Hi|]. apply (Hun j). by rewrite !lookup_insert_ne.
Qed.
(** A socket without a descriptor comes or goes. *)
Lemma closed_insert_careful {A} w i (r : option (res A)) :
  net_ok w → (∀ y, sockets w !! i = Some y → y = 0%Z) → net_careful w (MkNet (<[i := 0%Z]> (sockets w)) (net_os w)) r.
Proof.
  intros [Hv Hd] Hi. split_and!; [split|..]; cbn.
  - intros j y. rewrite lookup_insert_Some. intros [[<- <-]|[Hne Hj]]; [by left|by apply (Hv j)].
  - intros j j' y. rewrite !lookup_insert_Some. intros [[<- <-]|[Hne Hj]] [[<- E]|[Hn Hj']] Hy; try done. by eapply Hd.
  - intros y [Hy Hun]. split; [done|]. intros j. cbn. rewrite lookup_insert_Some. intros [[_ <-]|[_ Hj]]; [done|by eapply Hun].
  - intros a _ y [Hy Hun]. left. split; [done|]. intros j Hj. destruct (decide (i = j)) as [<-|Hne]; [by apply Hi|].
    apply (Hun j). cbn. by rewrite lookup_insert_ne.
Qed.
Lemma closed_delete_careful {A} w i (r : option (res A)) :
  net_ok w → (∀ y, sockets w !! i = Some y → y = 0%Z) → net_careful w (MkNet (delete i (sockets w)) (net_os w)) r.
Proof.
  intros [Hv Hd] Hi. split_and!; [split|..]; cbn.
  - intros j y [Hne Hj]%lookup_delete_Some. by apply (Hv j).
  - intros j j' y [Hne Hj]%lookup_delete_Some [Hne' Hj']%lookup_delete_Some. by eapply Hd.
  - intros y [Hy Hun]. split; [done|]. intros j. cbn. intros [_ Hj]%lookup_delete_Some. by eapply Hun.
  - intros a _ y [Hy Hun]. left. split; [done|]. intros j Hj. destruct (decide (i = j)) as [<-|Hne]; [by apply Hi|].
    apply (Hun j). cbn. by rewrite lookup_delete_ne.
Qed.

Lemma construct_closed_careful i w w' r :
  net_ok w → construct i 0 w = (w', r) → net_careful w w' r.
Proof.
  intros Hw H. unfold construct in H. rewrite co_get_bind in H. case_decide as Hi; injection H as <- <-; [by apply net_careful_refl|].
  apply closed_insert_careful; [done|]. intros y Hy. by destruct Hi.
Qed.

Lemma take_fd_run other w w1 x :
  take_fd other w = (w1, x) →
  (sockets w !! other = None ∧ w1 = w ∧ x = Some Undef) ∨
  (∃ fd, sockets w !! other = Some fd ∧ w1 = MkNet (<[other := 0%Z]> (sockets w)) (net_os w) ∧ x = Some (Ok fd)).
Proof.
  unfold take_fd, on_socket. destruct (sockets w !! other) as [fd|]; cbn; intros [= <- <-]; [right; eauto|by left].
Qed.

Lemma move_careful i other w w' r :
  net_ok w → sockets w !! i = None → Socket_move i other w = (w', r) → net_careful w w' r.
Proof.
  intros Hw Hi H. unfold Socket_move in H. apply co_bind_inv in H as [(fd & w1 & E & H)|(x & E & Hx & _)];
    apply take_fd_run in E as [(? & -> & ?)|(fd' & Ho & -> & ?)]; simplify_eq.
  - unfold construct in H. rewrite co_get_bind in H. assert (other ≠ i) as Hne by congruence. cbn in H.
    rewrite lookup_insert_ne, Hi in H by done. case_decide as Hs; [by destruct Hs|]. injection H as <- <-. cbn.
    rewrite insert_insert_ne by done. apply transfer_careful; [done..|]. congruence.
  - by apply net_careful_refl.
  - by destruct (Hx fd').
Qed.

Lemma close_if_careful (b : Socket K → bool) i w w' r :
  net_ok w → on_socket i (s ← co_get; if b s then close else mret ()) w = (w', r) →
  (∀ s, valid s → b s = false → _socket_fd s = 0%Z) →
  net_careful w w' r ∧ ∀ a, r = Some (Ok a) → sockets w' !! i = Some 0%Z.
Proof.
  intros Hw H Hb. split.
  - eapply on_socket_careful; [done|exact H|]. intros s s' x Hs E. rewrite co_get_bind in E.
    destruct (b s); [by apply close_careful|]. injection E as <- <-. by apply keeps_careful.
  - intros a ->. unfold on_socket in H. destruct (sockets w !! i) as [fd|] eqn:Hi; [|done].
    assert (valid (MkSocket fd (net_os w))) as Hv by by apply (net_valid w Hw i).
    destruct ((co_get ≫= λ s, if b s then close else mret ()) (MkSocket fd (net_os w))) as [s' x] eqn:E. injection H as <- ->. cbn. rewrite lookup_insert_eq. f_equal.
    rewrite co_get_bind in E. destruct (b _) eqn:Eb; [by eapply close_careful; [exact Hv|exact E|]|].
    injection E as <-. by apply Hb.
Qed.

Lemma move_assign_careful i other w w' r : net_ok w → move_assign i other w = (w', r) → net_careful w w' r.
Proof.
  intros Hw H. unfold move_assign in H. apply co_bind_inv in H as [([] & w1 & E & H)|(x & E & _ & Hr)].
  - apply close_if_careful in E as [Hc Hz]; [|done|by intros; apply closed_fd]. specialize (Hz () eq_refl).
    eapply net_careful_trans; [exact Hc|]. destruct Hc as (Hw1 & _).
    unfold on_socket in H. unfold mbind, CO_bind in H. cbn in H. destruct (sockets w1 !! other) as [fd|] eqn:Ho; cbn in H.
    + injection H as <- <-. rewrite (insert_id (sockets w1)) by done. apply transfer_careful; [done..|]. congruence.
    + injection H as <- <-. by apply net_careful_refl.
  - apply close_if_careful in E as [Hc _]; [|done|by intros; apply closed_fd]. by eapply net_careful_failed.
Qed.

Lemma destroy_careful i w w' r : net_ok w → destroy i w = (w', r) → net_careful w w' r.
Proof.
  intros Hw H. unfold destroy in H. assert (∀ w1 x, on_socket i (s ← co_get; if (_socket_fd s =? 0)%Z then mret () else close) w = (w1, x) →
    net_careful w w1 x ∧ ∀ a, x = Some (Ok a) → sockets w1 !! i = Some 0%Z) as Hclose.
  { intros w1 x E. apply (close_if_careful (λ s, negb (_socket_fd s =? 0)%Z)); [done| |intros s _ ?; by bool_hyps].
    rewrite <- E. unfold on_socket. destruct (sockets w !! i); [|done]. rewrite !co_get_bind. by destruct (_ =? 0)%Z. }
  apply co_bind_inv in H as [([] & w1 & E & H)|(x & E & _ & Hr)].
  - apply Hclose in E as [Hc Hz]. specialize (Hz () eq_refl). eapply net_careful_trans; [exact Hc|]. destruct Hc as (Hw1 & _).
    injection H as <- <-. apply closed_delete_careful; [done|]. congruence.
  - apply Hclose in E as [Hc _]. by eapply net_careful_failed.
Qed.

(** An accepted connection becomes a socket of its own. *)
Lemma accept_careful fuel i j w w' r :
  net_ok w → sockets w !! j = None → (on_socket i (accept fuel) ≫= λ fd, construct j fd) w = (w', r) → net_careful w w' r.
Proof.
  intros [Hv Hd] Hj H.
  assert (∀ w1 x, on_socket i (accept fuel) w = (w1, x) →
    sockets w1 = sockets w ∧ open_fds (net_os w) ⊆ open_fds (net_os w1) ∧
    ∀ a, x = Some (Ok a) → (0 < a)%Z ∧ (a ∉ open_fds (net_os w)) ∧ a ∈ open_fds (net_os w1) ∧
      open_fds (net_os w1) ⊆ open_fds (net_os w) ∪ {[a; 0%Z]}) as Hacc.
  { intros w1 x E. unfold on_socket in E. destruct (sockets w !! i) as [fd|] eqn:Hi; [|by injection E as <- <-].
    unfold accept in E. rewrite co_get_bind in E. destruct (is_open (MkSocket fd (net_os w))); cbn in E.
    - destruct (_do_accept fuel _) as [s' y] eqn:Ea in E. injection E as <- <-. apply do_accept_ok in Ea as (Hfd & Hsub & Hok).
      cbn in *. rewrite Hfd, insert_id by done. by split_and!.
    - injection E as <- <-. cbn. by rewrite insert_id. }
  apply co_bind_inv in H as [(fd & w1 & E & H)|(x & E & _ & Hr)]; destruct (Hacc _ _ E) as (Hs & Hsub & Hok).
  - destruct (Hok fd eq_refl) as (Hpos & Hnew & Hin & Hsup). unfold construct in H. rewrite co_get_bind, Hs, Hj in H.
    case_decide as Hc; [by destruct Hc|]. injection H as <- <-. rewrite Hs. split_and!; [split|..]; cbn.
    + intros k y. rewrite lookup_insert_Some. intros [[<- <-]|[_ Hk]]; [by right|].
      destruct (Hv k y Hk) as [|[? ?]]; [by left|right; set_solver].
    + intros k k' y. rewrite !lookup_insert_Some. intros [[<- <-]|[Hne Hk]] [[<- E']|[Hne' Hk']] Hy; [done|..|by eapply Hd].
      * destruct (Hv k' _ Hk') as [|[_ ?]]; [done|contradiction].
      * subst y. destruct (Hv k _ Hk) as [|[_ ?]]; [done|contradiction].
    + intros y [Hy Hun]. split; [set_solver|]. intros k. cbn. rewrite lookup_insert_Some. intros [[_ <-]|[_ Hk]]; [contradiction|by eapply Hun].
    + intros a _ y [Hy Hun]. cbn in *. destruct (decide (y = 0%Z)) as [|Hy0]; [by right|left].
      assert (y ≠ fd) as Hne by (intros ->; apply Hy0, (Hun j); by rewrite lookup_insert_eq).
      split; [set_solver|]. intros k Hk. apply (Hun k). rewrite lookup_insert_ne; [done|congruence].
  - apply (net_careful_failed (A := Z) w w' None); [|done]. split_and!; [split|..|done].
    + intros k y. rewrite Hs. intros Hk. destruct (Hv k y Hk) as [|[? ?]]; [by left|right; set_solver].
    + intros k k' y. rewrite Hs. apply Hd.
    + intros y [Hy Hun]. split; [set_solver|]. intros k. rewrite Hs. apply Hun.
Qed.

Lemma run_op_careful fuel o w w' r : net_ok w → run_op backlog fuel o w = (w', r) → net_careful w w' r.
Proof.
  intros Hw H. destruct o as [i|i other|i other|i|i|i h n|i h n|i j|i d|i n]; cbn [run_op] in H.
  - by eapply construct_closed_careful.
  - rewrite co_get_bind in H. case_decide as Hi; [injection H as <- <-; by apply net_careful_refl|].
    eapply move_careful; [done| |done]. by apply eq_None_not_Some.
  - by eapply move_assign_careful.
  - by eapply destroy_careful.
  - eapply on_socket_careful; [done|done|]. intros s s' x Hs E. by apply close_careful.
  - eapply on_socket_careful; [done|done|]. intros s s' x. apply connect_careful.
  - eapply on_socket_careful; [done|done|]. intros s s' x. apply listen_careful.
  - rewrite co_get_bind in H. case_decide as Hj; [injection H as <- <-; by apply net_careful_refl|].
    eapply accept_careful; [done| |exact H]. by apply eq_None_not_Some.
  - eapply net_bind; [exact H| |intros a w1 _ Hw1 [= <- <-]; by apply net_careful_refl].
    intros w1 x E. eapply on_socket_careful; [done|exact E|]. intros s s' y Hs Es. apply keeps_careful; [done|].
    unfold send in Es. rewrite co_get_bind in Es. destruct (is_open s); cbn in Es; [|by injection Es as <- <-].
    case_decide; [by injection Es as <- <-|by eapply do_send_keeps].
  - eapply net_bind; [exact H| |intros a w1 _ Hw1 [= <- <-]; by apply net_careful_refl].
    intros w1 x E. eapply on_socket_careful; [done|exact E|]. intros s s' y Hs Es.
    unfold receive in Es. rewrite co_get_bind in Es. destruct (is_open s); cbn in Es; [|injection Es as <- <-; by apply keeps_careful].
    case_decide; [injection Es as <- <-; by apply keeps_careful|by eapply do_recv_careful].
Qed.

Lemma run_ops_careful fuel l w :
  net_ok w → net_ok (run_ops backlog fuel l w) ∧ ∀ fd, unowned w fd → unowned (run_ops backlog fuel l w) fd.
Proof.
  revert w. induction l as [|o l IH]; intros w Hw; [done|]. cbn. destruct (run_op backlog fuel o w) as [w1 r] eqn:E.
  destruct (run_op_careful fuel o w w1 r Hw E) as (Hw1 & H1 & _). destruct (IH w1 Hw1) as [H2 H3]. split; [done|auto].
Qed.
End net.

(** * What is sent *)

(** The bytes that go out for some data when [_do_send] returns: a prefix, or,
    when it was too large for one message, what goes out for each half. *)
Inductive parts : str → str → Prop :=
  | parts_prefix d n : 0 < n ≤ length d → parts d (take n d)
  | parts_split d b1 b2 : 2 ≤ length d → parts (take (length d `div` 2) d) b1 → parts (drop (length d `div` 2) d) b2 →
      parts d (b1 ++ b2).

Lemma parts_sublist d b : parts d b → b `sublist_of` d ∧ 0 < length b.
Proof.
  induction 1 as [d n Hn|d b1 b2 Hd _ [IH1 ?] _ [IH2 ?]].
  - split; [apply sublist_take|rewrite length_take; lia].
  - split; [|rewrite length_app; lia]. rewrite <- (take_drop (length d `div` 2) d). by apply sublist_app.
Qed.
(** When the count is that of the data, it went out as it is. *)
Lemma parts_whole d b : parts d b → length b = length d → b = d.
Proof.
  induction 1 as [d n Hn|d b1 b2 Hd Hp1 IH1 Hp2 IH2]; intros Hlen.
  - rewrite length_take in Hlen. apply take_ge. lia.
  - pose proof (sublist_length _ _ (proj1 (parts_sublist _ _ Hp1))) as H1.
    pose proof (sublist_length _ _ (proj1 (parts_sublist _ _ Hp2))) as H2.
    rewrite length_app in Hlen. rewrite length_take in H1. rewrite length_drop in H2.
    rewrite IH1, IH2 by (rewrite ?length_take, ?length_drop; lia). apply take_drop.
Qed.

Section sending.
Context {K : Type} `{!SocketCalls K, !SocketLaws K}.
Implicit Types s : Socket K.

Lemma sent_result fd d flags k k' n :
  sys_send fd d flags k = (k', n) → (Z.of_nat (length d) < 2 ^ 31)%Z →
  wrap_s 32 n = n ∧ (-1 ≤ n ≤ Z.of_nat (length d))%Z ∧ wire fd k' = wire fd k ++ take (Z.to_nat n) d.
Proof. intros [[H0 H1] H2]%send_sends Hd. split_and!; [|done..]. apply wrap_s_small; lia. Qed.

Lemma fail_errno_os {A} s s' (r : option (res A)) : fail_errno s = (s', r) → s' = s ∧ r ≠ None ∧ ∀ a, r ≠ Some (Ok a).
Proof.
  destruct s as [fd k]. unfold fail_errno, mbind, CO_bind, get_errno, call, co_res. cbn [os _socket_fd].
  destruct (check_errno (errno_value k)); intros [= <- <-]; done.
Qed.

(** One attempt to send: the whole answer of the system. *)
Definition attempt (fuel : nat) (d : str) (flags : Z) (s : Socket K) (k : K) (n : Z) : Socket K * option (res nat) :=
  (if (0 <? n)%Z then mret (Z.to_nat n)
   else
     e ← get_errno;
     if should_wait e then await_fd true (_socket_fd s) ≫= λ _, _do_send fuel d flags
     else if (e =? errno_num EMSGSIZE)%Z then
       if decide (length d < 2) then co_throw ResourceExhausted
       else
         first_send ← _do_send fuel (take (length d `div` 2) d) flags;
         second_send ← _do_send fuel (drop (length d `div` 2) d) flags;
         mret (first_send + second_send)
     else fail_errno) (MkSocket (_socket_fd s) k).
Lemma do_send_attempt fuel d flags s k n :
  sys_send (_socket_fd s) d flags (os s) = (k, n) → (Z.of_nat (length d) < 2 ^ 31)%Z →
  _do_send (S fuel) d flags s = attempt fuel d flags s k n.
Proof.
  intros E Hd. cbn [_do_send]. rewrite co_get_bind. unfold call at 1, mbind at 1, CO_bind at 1. rewrite E. cbn zeta.
  by destruct (sent_result _ _ _ _ _ _ E Hd) as [-> _].
Qed.

Lemma do_send_wire fuel d flags s s' r :
  _do_send fuel d flags s = (s', r) → (Z.of_nat (length d) < 2 ^ 31)%Z →
  ∃ b, wire (_socket_fd s) (os s') = wire (_socket_fd s) (os s) ++ b ∧ b `sublist_of` d ∧
    ∀ n, r = Some (Ok n) → parts d b ∧ n = length b.
Proof.
  revert d s s' r. induction fuel as [|fuel IH]; intros d s s' r H Hd.
  { injection H as <- <-. exists []. rewrite app_nil_r. split_and!; [done|apply sublist_nil_l|done]. }
  destruct (sys_send (_socket_fd s) d flags (os s)) as [k n] eqn:E. rewrite (do_send_attempt fuel d flags s k n E Hd) in H.
  destruct (sent_result _ _ _ _ _ _ E Hd) as (_ & Hn & Hw). unfold attempt in H. destruct (Z.ltb_spec 0 n) as [Hp|Hp].
  { injection H as <- <-. exists (take (Z.to_nat n) d). split_and!; [done|apply sublist_take|].
    intros m [= <-]. split; [apply parts_prefix; lia|]. rewrite length_take. lia. }
  replace (Z.to_nat n) with 0 in Hw by lia. rewrite take_0, app_nil_r in Hw.
  apply co_bind_inv in H as [(e & s1 & [= <- <-] & H)|(x & [= _ <-] & Hx & _)]; [|by destruct (Hx _ eq_refl)].
  destruct (should_wait _).
  - unfold mbind, CO_bind, await_fd in H. cbn in H. destruct (fd_ready true _ k) as [k2|] eqn:Er.
    + apply IH in H as (b & Hb & ?); [|done]. cbn in Hb. exists b. by rewrite (ready_wire _ _ _ _ _ Er), Hw in Hb.
    + injection H as <- <-. exists []. rewrite app_nil_r. split_and!; [done|apply sublist_nil_l|done].
  - destruct (_ =? _)%Z; [|apply fail_errno_os in H as (-> & _ & Hr); exists []; rewrite app_nil_r;
      split_and!; [done|apply sublist_nil_l|by intros m ?%Hr]].
    case_decide as Hl; [injection H as <- <-; exists []; rewrite app_nil_r; split_and!; [done|apply sublist_nil_l|done]|].
    set (half := length d `div` 2) in *. assert (half < length d) as Hhalf by (apply Nat.div_lt; lia).
    rewrite <- (take_drop half d). apply co_bind_inv in H as [(n1 & s1 & E1 & H)|(x & E1 & Hx & Hr)].
    + pose proof (do_send_keeps _ _ _ _ _ _ E1) as [Hfd1 _]. cbn in Hfd1.
      apply IH in E1 as (b1 & Hb1 & Hs1 & Hp1); [|rewrite length_take; lia]. destruct (Hp1 n1 eq_refl) as [Hq1 ->].
      cbn [_socket_fd os] in Hb1. rewrite Hw in Hb1.
      apply co_bind_inv in H as [(n2 & s2 & E2 & H)|(x & E2 & Hx & Hr)]; apply IH in E2 as (b2 & Hb2 & Hs2 & Hp2);
        [|rewrite length_drop; lia|..|rewrite length_drop; lia]; rewrite Hfd1, Hb1, <- app_assoc in Hb2;
        exists (b1 ++ b2); (split; [|split; [by apply sublist_app|]]).
      * by injection H as <- _.
      * intros n3 ->. destruct (Hp2 n2 eq_refl) as [Hq2 ->]. injection H as _ <-. split; [|by rewrite length_app].
        rewrite take_drop. apply parts_split; [lia|done..].
      * done.
      * by intros n3 ?%Hr.
    + apply IH in E1 as (b1 & Hb1 & Hs1 & _); [|rewrite length_take; lia]. cbn [_socket_fd os] in Hb1. rewrite Hw in Hb1.
      exists b1. split_and!; [done| |by intros n3 ?%Hr]. rewrite <- (app_nil_r b1). apply sublist_app; [done|apply sublist_nil_l].
Qed.

(** Without [EMSGSIZE] what goes out is a prefix. *)
Definition never_splits (s : Socket K) : Prop := ∀ d flags k k' n,
  sys_send (_socket_fd s) d flags k = (k', n) → (n ≤ 0)%Z → errno_value k' ≠ errno_num EMSGSIZE.
Lemma do_send_prefix fuel d flags s s' n :
  _do_send fuel d flags s = (s', Some (Ok n)) → (Z.of_nat (length d) < 2 ^ 31)%Z → never_splits s →
  wire (_socket_fd s) (os s') = wire (_socket_fd s) (os s) ++ take n d ∧ n ≤ length d.
Proof.
  revert s. induction fuel as [|fuel IH]; intros s H Hd Hs; [done|].
  destruct (sys_send (_socket_fd s) d flags (os s)) as [k r] eqn:E. rewrite (do_send_attempt fuel d flags s k r E Hd) in H.
  destruct (sent_result _ _ _ _ _ _ E Hd) as (_ & Hn & Hw). unfold attempt in H. destruct (Z.ltb_spec 0 r) as [Hp|Hp].
  { injection H as <- <-. split; [done|lia]. }
  replace (Z.to_nat r) with 0 in Hw by lia. rewrite take_0, app_nil_r in Hw.
  apply co_bind_inv in H as [(e & s1 & [= <- <-] & H)|(x & [= _ <-] & Hx & _)]; [|by destruct (Hx _ eq_refl)]. cbn [os _socket_fd] in H.
  destruct (should_wait _).
  - apply co_bind_inv in H as [([] & s2 & E2 & H)|(x & E2 & _ & Hr)]; [|by destruct (Hr n)]. unfold await_fd in E2. cbn in E2.
    destruct (fd_ready true _ k) as [k2|] eqn:Er; [|done]. injection E2 as <-.
    apply IH in H; [|done|exact Hs]. cbn in H. by rewrite (ready_wire _ _ _ _ _ Er), Hw in H.
  - destruct (Z.eqb_spec (errno_value k) (errno_num EMSGSIZE)) as [He|_]; [by destruct (Hs d flags (os s) k r E Hp)|].
    apply fail_errno_os in H as (_ & _ & Hr). by destruct (Hr n).
Qed.

(** ** The attempts end *)

(** The system makes a sender wait finitely often. *)
Record makes_progress (delays : K → nat) : Prop := {
  send_delays fd d flags k k' n : sys_send fd d flags k = (k', n) → delays k' ≤ delays k;
  ready_soon fd d flags k k' n : sys_send fd d flags k = (k', n) → (n ≤ 0)%Z → should_wait (errno_value k') = true →
    ∃ k'', fd_ready true fd k' = Some k'' ∧ delays k'' < delays k;
}.
Lemma do_send_finishes delays fuel d flags s :
  makes_progress delays → delays (os s) + length d < fuel → (Z.of_nat (length d) < 2 ^ 31)%Z →
  ∃ s' r, _do_send fuel d flags s = (s', Some r) ∧ delays (os s') ≤ delays (os s).
Proof.
  intros Hm. revert d s. induction fuel as [|fuel IH]; intros d s Hf Hd; [lia|].
  destruct (sys_send (_socket_fd s) d flags (os s)) as [k n] eqn:E. rewrite (do_send_attempt fuel d flags s k n E Hd).
  pose proof (send_delays _ Hm _ _ _ _ _ _ E) as Hk. unfold attempt. destruct (Z.ltb_spec 0 n) as [Hp|Hp]; [by eexists _, _|].
  unfold mbind at 1, CO_bind at 1, get_errno, call. cbn [os _socket_fd]. destruct (should_wait _) eqn:Hw.
  - destruct (ready_soon _ Hm _ _ _ _ _ _ E Hp Hw) as (k2 & Hr & Hlt). unfold mbind, CO_bind, await_fd. cbn. rewrite Hr.
    destruct (IH d (MkSocket (_socket_fd s) k2)) as (s' & r & -> & Hle); [cbn; lia|done|]. cbn in Hle. exists s', r. split; [done|lia].
  - destruct (_ =? _)%Z.
    + case_decide as Hl; [by eexists _, _|]. set (half := length d `div` 2).
      assert (half < length d) as Hhalf by (apply Nat.div_lt; lia).
      assert (0 < half) as Hhalf' by (apply Nat.div_str_pos; lia).
      destruct (IH (take half d) (MkSocket (_socket_fd s) k)) as (s1 & r1 & E1 & Hle1); [cbn [os]; rewrite length_take; lia|rewrite length_take; lia|].
      unfold mbind, CO_bind. rewrite E1. cbn in Hle1. destruct r1 as [n1|e|]; [|exists s1; eexists; split; [done|lia]..].
      destruct (IH (drop half d) s1) as (s2 & r2 & -> & Hle2); [rewrite length_drop; lia..|].
      destruct r2; exists s2; eexists; (split; [done|lia]).
    + destruct (fail_errno (MkSocket (_socket_fd s) k)) as [s' [r|]] eqn:Ef; apply fail_errno_os in Ef as (-> & Hn & _); [by eexists _, _|done].
Qed.
End sending.

(** * Properties *)

(** C20.  Whatever a program does with sockets, in any order and with any answers
    of the system: every socket is closed or has an open descriptor that no
    other socket has; a descriptor that is not a socket's is never closed; and
    a call that returns leaves no descriptor behind, unless it is 0. *)
Theorem socket_ownership {K} `{!SocketCalls K, !SocketLaws K} (backlog : Z) (fuel : nat) (ops : list socket_op) (k : K) :
  let w := run_ops backlog fuel ops (MkNet ∅ k) in
  (∀ i fd, sockets w !! i = Some fd → fd ≠ 0%Z → (0 < fd)%Z ∧ fd ∈ open_fds (net_os w)) ∧
  (∀ i j fd, sockets w !! i = Some fd → sockets w !! j = Some fd → fd ≠ 0%Z → i = j) ∧
  open_fds k ⊆ open_fds (net_os w) ∧
  (∀ i fd, sockets w !! i = Some fd → fd ≠ 0%Z → fd ∉ open_fds k) ∧
  ∀ o w', run_op backlog fuel o w = (w', Some (Ok ())) →
    ∀ fd, unowned w' fd → unowned w fd ∨ fd = 0%Z.
Proof.
  cbn zeta. assert (net_ok (MkNet ∅ k)) as H0 by (split; [intros i fd|intros i j fd]; cbn; by rewrite lookup_empty).
  destruct (run_ops_careful backlog fuel ops _ H0) as [H1 H2]. set (w := run_ops backlog fuel ops (MkNet ∅ k)) in *.
  assert (∀ fd, fd ∈ open_fds k → unowned w fd) as H3.
  { intros fd Hfd. apply H2. split; [done|]. intros i. cbn. by rewrite lookup_empty. }
  split_and!.
  - intros i fd Hi Hfd. by destruct (net_valid w H1 i fd Hi).
  - apply (net_distinct w H1).
  - by intros fd [? _]%H3.
  - intros i fd Hi Hfd [_ Hun]%H3. by apply Hfd, (Hun i).
  - intros o w' E. destruct (run_op_careful backlog fuel o w w' _ H1 E) as (_ & _ & Hok). by apply (Hok ()).
Qed.

(** C21.  Sending data of less than 2^31 bytes on an open socket, over a system
    that makes it wait finitely often, ends.  When it returns a count, that
    many bytes went out, in order, and all of the data if the count says so;
    if the system never finds a message too large they are the first bytes. *)
Theorem send_outcome {K} `{!SocketCalls K, !SocketLaws K} (delays : K → nat) (fuel : nat) (data : str) (s : Socket K)
    (progress : makes_progress delays) (is_open_s : is_open s = true)
    (data_size : 0 < length data ∧ (Z.of_nat (length data) < 2 ^ 31)%Z) (enough : delays (os s) + length data < fuel) :
  ∃ s' r sent,
    send fuel data s = (s', Some r) ∧ _socket_fd s' = _socket_fd s ∧ open_fds (os s') = open_fds (os s) ∧
    wire (_socket_fd s) (os s') = wire (_socket_fd s) (os s) ++ sent ∧ sent `sublist_of` data ∧
    ∀ n, r = Ok n →
      n = length sent ∧ 0 < n ≤ length data ∧ (n = length data → sent = data) ∧ (never_splits s → sent = take n data).
Proof.
  destruct data_size as [Hne Hd]. destruct (do_send_finishes delays fuel data 0 s progress enough Hd) as (s' & r & E & _).
  destruct (do_send_keeps _ _ _ _ _ _ E) as [Hfd Ho]. destruct (do_send_wire _ _ _ _ _ _ E Hd) as (sent & Hw & Hsub & Hok).
  exists s', r, sent. split_and!; [|done..|].
  - unfold send. rewrite co_get_bind, is_open_s. cbn. rewrite decide_False; [done|]. intros ->. cbn in Hne. lia.
  - intros n ->. destruct (Hok n eq_refl) as [Hp ->]. destruct (parts_sublist _ _ Hp) as [Hs Hpos].
    split_and!; [done|done|by apply sublist_length|by apply parts_whole|].
    intros Hnever. destruct (do_send_prefix _ _ _ _ _ _ E Hd Hnever) as [Hw' _]. rewrite Hw in Hw'. by apply (inj _) in Hw'.
Qed.

(** * A system *)

(** Addresses are numbers, of which 0 is in use and 1 cannot be reused; sending
    gives scripted counts or, when negative, errors. *)
Record fake := MkFake {
  fake_errno : Z; fake_open : gset Z; fake_wire : list (Z * str); fake_sends : list Z; fake_next : Z; fake_addresses : list address;
}.
Definition fake_set_errno (e : Z) (k : fake) : fake :=
  MkFake e (fake_open k) (fake_wire k) (fake_sends k) (fake_next k) (fake_addresses k).
Definition fake_fd (k : fake) : fake * Z :=
  if decide (fake_next k < 0 ∨ fake_next k ∈ fake_open k)%Z then (fake_set_errno (errno_num EMFILE) k, (-1)%Z)
  else (MkFake 0 ({[fake_next k]} ∪ fake_open k) (fake_wire k) (fake_sends k) (fake_next k + 1) (fake_addresses k), fake_next k).
Definition fake_send (fd : Z) (d : str) (k : fake) : fake * Z :=
  let a := default (Z.of_nat (length d)) (head (fake_sends k)) in
  let n := Z.min a (Z.of_nat (length d)) in
  if (a <? 0)%Z then (MkFake (- a) (fake_open k) (fake_wire k) (tail (fake_sends k)) (fake_next k) (fake_addresses k), (-1)%Z)
  else (MkFake 0 (fake_open k) (fake_wire k ++ [(fd, take (Z.to_nat n) d)]) (tail (fake_sends k)) (fake_next k) (fake_addresses k), n).
Definition wire_of (fd : Z) (l : list (Z * str)) : str := l ≫= λ '(g, d), if decide (g = fd) then d else [].

#[export] Instance fake_calls : SocketCalls fake := {|
  errno_value := fake_errno;
  sys_getaddrinfo _ _ _ k := (k, (0%Z, fake_addresses k));
  sys_socket _ k := fake_fd k;
  sys_reuse fd k := (k, 0%Z);
  sys_bind _ a k := if decide (a = 0) then (fake_set_errno (errno_num EADDRINUSE) k, (-1)%Z) else (k, 0%Z);
  sys_listen _ n k := if decide (n < 0)%Z then (fake_set_errno (errno_num EADDRINUSE) k, (-1)%Z) else (k, 0%Z);
  sys_connect _ a k := if decide (a = 0) then (fake_set_errno (errno_num ECONNREFUSED) k, (-1)%Z) else (k, 0%Z);
  sys_sockerr _ k := (k, (0%Z, 0%Z));
  sys_accept _ k := fake_fd k;
  sys_getfl _ k := (k, 0%Z);
  sys_setfl _ _ k := if decide (default 0 (head (fake_sends k)) < 0)%Z then (fake_set_errno (errno_num EBADF) k, (-1)%Z) else (k, 0%Z);
  sys_send fd d _ k := fake_send fd d k;
  sys_recv _ _ k := (k, (0%Z, []));
  sys_close fd k := MkFake (fake_errno k) (fake_open k ∖ {[fd]}) (fake_wire k) (fake_sends k) (fake_next k) (fake_addresses k);
  fd_ready _ _ k := Some k;
  open_fds := fake_open;
  wire fd k := wire_of fd (fake_wire k);
|}.

Lemma fake_fd_opens k k' fd : fake_fd k = (k', fd) → opens k k' fd.
Proof.
  unfold fake_fd, opens. case_decide as H; intros [= <- <-]; [done|]. cbn. apply Decidable.not_or in H as [H1 H2].
  by rewrite decide_True by lia.
Qed.
Lemma fake_send_ok fd d k k' n :
  fake_send fd d k = (k', n) →
  (-1 ≤ n ≤ Z.of_nat (length d))%Z ∧ wire_of fd (fake_wire k') = wire_of fd (fake_wire k) ++ take (Z.to_nat n) d ∧
  fake_open k' = fake_open k.
Proof.
  unfold fake_send. destruct (Z.ltb_spec (default (Z.of_nat (length d)) (head (fake_sends k))) 0); intros [= <- <-]; cbn [fake_wire fake_open].
  - split_and!; [lia..| |done]. by rewrite app_nil_r.
  - split_and!; [lia..| |done]. unfold wire_of. rewrite bind_app. cbn. by rewrite decide_True, app_nil_r.
Qed.
#[export] Instance fake_laws : SocketLaws fake.
Proof.
  split; cbn; intros; repeat case_decide; simplify_eq; try done; try (by apply fake_fd_opens);
    by match goal with H : fake_send _ _ _ = _ |- _ => apply fake_send_ok in H as (? & ? & ?) end.
Qed.

Definition fresh_fake (sends : list Z) (addresses : list address) : fake := MkFake 0 {[1; 2]}%Z [] sends 3 addresses.

(** * Witnesses *)

(** Two sockets are opened, the second on the second address; the first is moved
    over the second, which closes the descriptor it had. *)
Definition sample_ops : list socket_op :=
  [New 0; New 1; Listen 0 (B "localhost") (B "80"); Connect 1 (B "localhost") (B "80"); Assign 1 0; Destroy 0].

Lemma socket_ownership_witness :
  let w := run_ops 10 5 sample_ops (MkNet ∅ (fresh_fake [] [0; 2])) in
  map_to_list (sockets w) = [(1, 4%Z)] ∧ fake_open (net_os w) = {[1; 2; 4]}%Z ∧
  (∀ i fd, sockets w !! i = Some fd → fd ≠ 0%Z → (0 < fd)%Z ∧ fd ∈ open_fds (net_os w)).
Proof.
  split; [by vm_compute|]. split; [apply (bool_decide_unpack _); by vm_compute|].
  apply (socket_ownership 10 5 sample_ops (fresh_fake [] [0; 2])).
Defined.

Lemma fake_progress : makes_progress (K := fake) (λ k, length (fake_sends k)).
Proof.
  split; cbn; intros fd d _ k k' n; unfold fake_send; case_match eqn:E; intros [= <- <-]; cbn.
  1, 2: by destruct (fake_sends k); cbn; lia.
  - intros _ _. eexists. split; [done|]. cbn. destruct (fake_sends k); cbn in *; bool_hyps; lia.
  - done.
Qed.

(** The system takes three bytes, after making the sender wait. *)
Lemma send_outcome_witness :
  let s := MkSocket 3 (fresh_fake [-11; 3] [])%Z in
  ∃ s' r sent, send 20 (B "hello") s = (s', Some r) ∧ _socket_fd s' = _socket_fd s ∧ open_fds (os s') = open_fds (os s) ∧
    wire (_socket_fd s) (os s') = wire (_socket_fd s) (os s) ++ sent ∧ sent `sublist_of` B "hello" ∧
    ∀ n, r = Ok n →
      n = length sent ∧ 0 < n ≤ length (B "hello") ∧ (n = length (B "hello") → sent = B "hello") ∧
      (never_splits s → sent = take n (B "hello")).
Proof.
  apply (send_outcome (λ k, length (fake_sends k))); [exact fake_progress|done|cbn; lia|cbn; lia].
Defined.

(** When the first half of a message that was too large is sent in part, the
    second half still follows it. *)
Lemma split_skips_bytes :
  let r := send 20 (B "abcdefgh") (MkSocket 3 (fresh_fake [-90; 2] []))%Z in
  r.2 = Some (Ok 6) ∧ wire 3 (os r.1) = B "abefgh".
Proof. by vm_compute. Qed.

(** A socket whose [::listen] fails stays open, and cannot be used to listen. *)
Lemma failed_listen_stays_open :
  let s := (listen (-1) (B "localhost") (B "80") (MkSocket 0 (fresh_fake [] [2]))) in
  s.2 = Some (throw FailedPrecondition) ∧ _socket_fd s.1 = 3%Z ∧
  (listen 10 (B "localhost") (B "80") s.1).2 = Some (throw FailedPrecondition).
Proof. by vm_compute. Qed.

(** A descriptor that was accepted is left open when its flags cannot be set. *)
Lemma failed_accept_leaks :
  let w := MkNet {[0 := 3%Z]} (MkFake 0 {[3]} [] [-9] 4 [])%Z in
  let r := run_op 10 5 (Accept 0 1) w in
  r.2 = Some (throw InvalidArgument) ∧ sockets r.1 !! 1 = None ∧ fake_open (net_os r.1) = {[3; 4]}%Z.
Proof. split; [done|]. split; [done|]. apply (bool_decide_unpack _). by vm_compute. Qed.
