(* ===== verification/SocketStream.v ===== *)
(** lw/net/socket as a connection: a [Socket] implements [io::CoStream], so that
    the reader and the HTTP router run over the system calls, and what then
    goes to the wire. *)
From S2P Require Import Prelude Cxx Errors MountPath EndpointTrie HttpRequest CoReader HttpResponse Http Sessions Sockets.

(** * What arrives *)

(** The bytes of a peer that [recv] is yet to deliver on a descriptor: it takes
    them in order, gives 0 only when there are no more, and no other call takes
    any. *)
Class SocketData (K : Type) `{!SocketCalls K} := {
  arriving : Z → K → str;
  recv_delivers fd n k k' r d : sys_recv fd n k = (k', (r, d)) →
    (-1 ≤ r ≤ Z.of_nat n)%Z ∧ length d = Z.to_nat r ∧ arriving fd k = d ++ arriving fd k' ∧ (r = 0%Z → 0 < n → arriving fd k = []);
  send_arriving fd d flags k k' n : sys_send fd d flags k = (k', n) → arriving fd k' = arriving fd k;
  ready_arriving w fd k k' : fd_ready w fd k = Some k' → arriving fd k' = arriving fd k;
  recv_wire fd g n k k' r : sys_recv fd n k = (k', r) → wire g k' = wire g k;
  close_wire fd g k : wire g (sys_close fd k) = wire g k;
}.

Section stream.
Context {K : Type} `{!SocketCalls K, !SocketLaws K, !SocketData K} (fuel : nat).
Implicit Types s : Socket K.

(** What is still to be read from a socket. *)
Definition incoming_on s : str := if is_open s then arriving (_socket_fd s) (os s) else [].

(** A call on a socket as one on a connection: a coroutine that is never resumed
    has no outcome. *)
Definition awaited {A} (m : CO (Socket K) A) : ST (Socket K) A := λ s,
  let '(s', r) := m s in (s', default Undef r).

(** [Socket::read]: what was put into a buffer of [size], whose count is an
    [int]. *)
Definition socket_read (size : nat) : ST (Socket K) str :=
  if decide (Z.of_nat size < 2 ^ 31)%Z then '(_, d) ← awaited (receive fuel size); mret d else st_res Undef.
(** [Socket::write]. *)
Definition socket_write (data : str) : ST (Socket K) nat := awaited (send fuel data).
(** [Socket::eof]. *)
Definition socket_eof s : bool := is_open s.

Lemma fail_errno_keeps_os {A} s s' (r : option (res A)) : fail_errno s = (s', r) → s' = s ∧ ∀ a, r ≠ Some (Ok a).
Proof. intros H. by apply fail_errno_os in H as (-> & _ & ?). Qed.

(** What one call of [recv] gives, and then [_do_recv]. *)
Lemma do_recv_spec n f s s' r : _do_recv f n s = (s', r) → is_open s = true → (Z.of_nat n < 2 ^ 31)%Z → 0 < n →
  (∀ g, wire g (os s') = wire g (os s)) ∧ (is_open s' = true → _socket_fd s' = _socket_fd s) ∧
  match r with
  | Some (Ok (_, d)) => length d ≤ n ∧ incoming_on s = d ++ incoming_on s'
  | _ => incoming_on s' = incoming_on s
  end.
Proof.
  intros H Ho Hn Hpos. revert s H Ho. induction f as [|f IH]; intros s H Ho; [by injection H as <- <-|]. cbn [_do_recv] in H.
  rewrite co_get_bind in H. unfold mbind at 1, CO_bind at 1, call in H.
  destruct (sys_recv (_socket_fd s) n (os s)) as [k [m d]] eqn:E.
  destruct (recv_delivers _ _ _ _ _ _ E) as (Hm & Hd & Ha & Hz). rewrite wrap_s_small in H by lia.
  assert (incoming_on s = arriving (_socket_fd s) (os s)) as Hin by (unfold incoming_on; by rewrite Ho).
  destruct (Z.ltb_spec 0 m) as [Hm0|Hm0].
  { injection H as <- <-. unfold incoming_on at 2, is_open. cbn [_socket_fd os]. unfold is_open in Ho. rewrite Ho, Hin, Ha.
    split_and!; [intros g; by eapply recv_wire|done|lia|done]. }
  destruct d as [|c d]; [|cbn in Hd; lia]. destruct (Z.eqb_spec m 0) as [->|Hm1].
  - unfold mbind, CO_bind, close in H. rewrite co_get_bind in H. cbn [_socket_fd] in H. unfold is_open in Ho.
    rewrite (proj2 (Z.eqb_neq (_socket_fd s) 0)) in H by lia. injection H as <- <-. cbn. rewrite Hin, Hz by done. cbn.
    split_and!; [|done|lia|done]. intros g. rewrite close_wire. by eapply recv_wire.
  - cbn [app] in Ha. unfold mbind at 1, CO_bind at 1, get_errno, call in H. cbn [os _socket_fd] in H. destruct (should_wait _).
    + unfold mbind, CO_bind, await_fd in H. cbn [os _socket_fd] in H. destruct (fd_ready false (_socket_fd s) k) as [k2|] eqn:Er.
      * apply IH in H; [|done]. cbn [_socket_fd os] in H. destruct H as (Hw & Hf & Hr).
        assert (incoming_on (MkSocket (_socket_fd s) k2) = incoming_on s) as E2.
        { unfold incoming_on, is_open in *. cbn. rewrite Ho. by rewrite (ready_arriving _ _ _ _ Er), <- Ha. }
        rewrite E2 in Hr. split_and!; [|done|done]. intros g. rewrite Hw, (ready_wire _ _ _ _ _ Er). by eapply recv_wire.
      * injection H as <- <-. split_and!; [intros g; by eapply recv_wire|done|]. unfold incoming_on, is_open in *. cbn. by rewrite Ho, <- Ha.
    + apply fail_errno_keeps_os in H as [-> Hr]. split_and!; [intros g; by eapply recv_wire|done|].
      assert (incoming_on (MkSocket (_socket_fd s) k) = incoming_on s) as E2 by (unfold incoming_on, is_open in *; cbn; by rewrite Ho, <- Ha).
      destruct r as [[[]|e|]|]; [by edestruct Hr|done..].
Qed.

Lemma socket_read_spec n s s' r : socket_read n s = (s', r) →
  (∀ g, wire g (os s') = wire g (os s)) ∧ (is_open s' = true → _socket_fd s' = _socket_fd s) ∧
  match r with Ok d => length d ≤ n ∧ incoming_on s = d ++ incoming_on s' | _ => incoming_on s' = incoming_on s end.
Proof.
  unfold socket_read. case_decide as Hn; [|by intros [= <- <-]]. unfold mbind, ST_bind, awaited, receive. rewrite co_get_bind.
  destruct (is_open s) eqn:Ho; cbn [negb]; [|by intros [= <- <-]]. case_decide as Hz; [by intros [= <- <-]|].
  destruct (_do_recv fuel n s) as [s1 x] eqn:E. apply do_recv_spec in E as (Hw & Hf & Hr); [|done|done|lia].
  by destruct x as [[[m d]|e|]|]; intros [= <- <-].
Qed.

(** [_do_send] and what is to be read. *)
Lemma do_send_incoming f d flags s s' r : _do_send f d flags s = (s', r) → _socket_fd s' = _socket_fd s ∧ incoming_on s' = incoming_on s.
Proof.
  revert d s s' r. induction f as [|f IH]; intros d s s' r H; [by injection H as <- <-|]. cbn [_do_send] in H. rewrite co_get_bind in H.
  unfold mbind at 1, CO_bind at 1, call in H. destruct (sys_send (_socket_fd s) d flags (os s)) as [k n] eqn:E.
  assert (incoming_on (MkSocket (_socket_fd s) k) = incoming_on s) as Hk by (unfold incoming_on, is_open; cbn; by rewrite (send_arriving _ _ _ _ _ _ E)).
  destruct (0 <? _)%Z; [by injection H as <- <-|]. unfold mbind at 1, CO_bind at 1, get_errno, call in H. cbn [os _socket_fd] in H.
  destruct (should_wait _); [|destruct (_ =? _)%Z].
  - unfold mbind, CO_bind, await_fd in H. cbn [os _socket_fd] in H. destruct (fd_ready true (_socket_fd s) k) as [k2|] eqn:Er; [|by injection H as <- <-].
    apply IH in H as [-> ->]. split; [done|]. rewrite <- Hk. unfold incoming_on, is_open. cbn. by rewrite (ready_arriving _ _ _ _ Er).
  - case_decide; [by injection H as <- <-|]. unfold mbind at 1, CO_bind at 1 in H.
    destruct (_do_send f (take _ d) flags _) as [s1 x] eqn:E1. apply IH in E1 as [Hf1 Hi1]. cbn [_socket_fd] in Hf1. rewrite Hk in Hi1.
    destruct x as [[n1|e|]|]; [|by injection H as <- <-..]. unfold mbind, CO_bind in H.
    destruct (_do_send f (drop _ d) flags s1) as [s2 y] eqn:E2. apply IH in E2 as [Hf2 Hi2]. rewrite Hf1 in Hf2. rewrite Hi1 in Hi2.
    by destruct y as [[n2|e|]|]; injection H as <- <-.
  - by apply fail_errno_keeps_os in H as [-> _].
Qed.

Lemma socket_write_incoming d s s' r : socket_write d s = (s', r) → incoming_on s' = incoming_on s.
Proof.
  unfold socket_write, awaited, send. rewrite co_get_bind. destruct (is_open s); cbn [negb]; [|by intros [= <- <-]].
  case_decide; [by intros [= <- <-]|]. destruct (_do_send fuel d 0 s) as [s1 x] eqn:E. intros [= <- _]. by apply do_send_incoming in E as [_ ?].
Qed.

(** ** The interfaces *)

#[export] Instance socket_readable : CoReadable (Socket K).
Proof.
  refine {| source_eof := socket_eof; source_good := is_open; source_read := socket_read; stream := incoming_on |}.
  - intros n s s' d H. by apply socket_read_spec in H as (_ & _ & H).
  - intros n s s' r H Hr. apply socket_read_spec in H as (_ & _ & H). destruct r; [by edestruct Hr|done..].
Defined.

(** [Socket::close] of an open socket; a connection that is closed is not closed
    again. *)
Definition socket_close s : Socket K := (close s).1.

#[export] Instance socket_stream : CoStream (Socket K).
Proof.
  refine {| stream_write := socket_write; stream_close := socket_close |}.
  - intros d s s' r. apply socket_write_incoming.
  - intros s. cbn. unfold socket_close, close. rewrite co_get_bind. destruct (Z.eqb_spec (_socket_fd s) 0) as [E|E]; [|done].
    cbn. unfold is_open. by rewrite E.
Defined.

(** ** What goes to the wire *)

(** When the system never finds a message too large, the count that writing
    returns is one that the system gave. *)
Lemma do_send_counts f d flags s s' n :
  _do_send f d flags s = (s', Some (Ok n)) → (Z.of_nat (length d) < 2 ^ 31)%Z → never_splits s →
  ∃ k k', sys_send (_socket_fd s) d flags k = (k', Z.of_nat n) ∧ 0 < n.
Proof.
  revert s. induction f as [|f IH]; intros s H Hd Hs; [done|]. cbn [_do_send] in H. rewrite co_get_bind in H.
  unfold mbind at 1, CO_bind at 1, call in H. destruct (sys_send (_socket_fd s) d flags (os s)) as [k m] eqn:E.
  destruct (send_sends _ _ _ _ _ _ E) as [Hm _]. rewrite wrap_s_small in H by lia. destruct (Z.ltb_spec 0 m) as [Hpos|Hneg].
  { injection H as <- <-. exists (os s), k. rewrite Z2Nat.id by lia. split; [done|lia]. }
  unfold mbind at 1, CO_bind at 1, get_errno, call in H. cbn [os _socket_fd] in H. destruct (should_wait _).
  - unfold mbind, CO_bind, await_fd in H. cbn [os _socket_fd] in H. destruct (fd_ready true (_socket_fd s) k) as [k2|]; [|done].
    by apply IH in H.
  - destruct (Z.eqb_spec (errno_value k) (errno_num EMSGSIZE)) as [He|_]; [by destruct (Hs d flags (os s) k m E Hneg)|].
    apply fail_errno_keeps_os in H as [_ Hr]. by destruct (Hr n).
Qed.

Lemma socket_write_wire d s s' n : socket_write d s = (s', Ok n) → (Z.of_nat (length d) < 2 ^ 31)%Z → never_splits s →
  is_open s = true ∧ _socket_fd s' = _socket_fd s ∧ 0 < n ≤ length d ∧
  wire (_socket_fd s) (os s') = wire (_socket_fd s) (os s) ++ take n d ∧ ∃ k k', sys_send (_socket_fd s) d 0 k = (k', Z.of_nat n).
Proof.
  unfold socket_write, awaited, send. rewrite co_get_bind. destruct (is_open s) eqn:Ho; cbn [negb]; [|done]. case_decide as Hd0; [done|].
  destruct (_do_send fuel d 0 s) as [s1 x] eqn:E. intros [= <- Hx] Hd Hs. destruct x as [r|]; [|done]. cbn in Hx. subst r.
  destruct (do_send_prefix _ _ _ _ _ _ E Hd Hs) as [Hw Hn]. destruct (do_send_counts _ _ _ _ _ _ E Hd Hs) as (k & k' & Ek & Hpos).
  destruct (do_send_incoming _ _ _ _ _ _ E) as [Hf _]. split_and!; [done..|]. by exists k, k'.
Qed.
End stream.

(** * Sessions over a socket *)

Section sessions.
Context {K : Type} `{!SocketCalls K, !SocketLaws K, !SocketData K} (fuel : nat).
#[local] Instance read_socket : CoReadable (Socket K) := socket_readable fuel.
#[local] Instance on_socket_stream : CoStream (Socket K) := socket_stream fuel.
Implicit Types s : Socket K.

(** Reading from a socket writes nothing. *)
Lemma arrives_wire s' n m s text : arrives s' n m s text →
  (∀ g, wire g (os s') = wire g (os s)) ∧ (is_open s' = true → _socket_fd s' = _socket_fd s).
Proof.
  induction 1 as [n m|n m s d rest s1 _ _ Hr _ _ [Hw Hf]]; [done|]. apply socket_read_spec in Hr as (Hw1 & Hf1 & _). split.
  - intros g. by rewrite Hw.
  - intros Ho. rewrite (Hf Ho). apply Hf1. unfold is_open in *. by rewrite <- (Hf Ho).
Qed.
Lemma close_wire_fd s g : wire g (os (socket_close s)) = wire g (os s).
Proof.
  unfold socket_close, close. rewrite co_get_bind. destruct (_socket_fd s =? 0)%Z; [done|]. cbn. apply close_wire.
Qed.

Context (flags : reader_flags) `{RE : RegexEngine} (what : HttpRequest → str).
Context (registered : list (HttpHandlerFactory (S := Socket K))) (router : HttpRouter (S := Socket K)).

(** How much of each response went out: a count the system gave. *)
Definition sent_of (fd : Z) (n : nat) (turn : str * str) : Prop :=
  0 < n ≤ length turn.2 ∧ ∃ k k', sys_send fd turn.2 0 k = (k', Z.of_nat n).

(** A closed socket has no more of a session. *)
Lemma session_closed s turns s' : session flags what registered router s turns s' → is_open s = false → turns = [] ∧ s' = s.
Proof.
  intros [s1 _|s1 raw body s2 req res message s3 n turns' s4 _ Hs Ha _ _ _] Ho; [done|]. apply answered_nonempty in Ha.
  destruct raw as [|c raw]; [done|]. inversion Hs as [|? ? ? ? ? ? _ Hg]. cbn in Hg. congruence.
Qed.

Lemma session_wire s turns s' : session flags what registered router s turns s' →
  never_splits s → Forall (λ t, (Z.of_nat (length t.2) < 2 ^ 31)%Z) turns →
  ∃ ns, Forall2 (sent_of (_socket_fd s)) ns turns ∧
    wire (_socket_fd s) (os s') = wire (_socket_fd s) (os s) ++ concat (zip_with take ns (snd <$> turns)).
Proof.
  induction 1 as [s Hg|s raw body s1 req res message s2 n turns s' Hlen Hs Ha Hm Hw Hnext IH]; intros Hns Hshort.
  { exists []. by rewrite app_nil_r. }
  apply Forall_cons in Hshort as [Hd Hshort]. cbn [snd] in Hd. apply arrives_wire in Hs as [Hw1 Hf1].
  change (socket_write fuel (response_text message res) s1 = (s2, Ok n)) in Hw.
  assert (never_splits s1) as Hns1.
  { destruct (is_open s1) eqn:Ho; [unfold never_splits; by rewrite (Hf1 eq_refl)|].
    exfalso. unfold socket_write, awaited, send in Hw. rewrite co_get_bind, Ho in Hw. done. }
  destruct (socket_write_wire fuel _ _ _ _ Hw Hd Hns1) as (Ho & Hf2 & Hn & Hw2 & Hk). rewrite (Hf1 Ho) in *.
  assert (∃ ns, Forall2 (sent_of (_socket_fd s)) ns turns ∧
    wire (_socket_fd s) (os s') = wire (_socket_fd s) (os s2) ++ concat (zip_with take ns (snd <$> turns))) as (ns & Hns2 & Hw3).
  { unfold finished in *. destruct (keep_alive req).
    - rewrite Hf2 in IH. apply IH; [|done]. intros d fl k k' m. rewrite Hf2. apply Hns.
    - apply session_closed in Hnext as [-> ->]; [|apply (stream_close_ends (CoStream := on_socket_stream))].
      exists []. split; [constructor|]. cbn [stream_close on_socket_stream socket_stream]. by rewrite close_wire_fd, app_nil_r. }
  exists (n :: ns). split; [by constructor|]. rewrite Hw3, Hw2, Hw1, <- !app_assoc. reflexivity.
Qed.
End sessions.

(** * Properties *)

(** Sending takes all of what it is given, or fails. *)
Definition sends_whole {K} `{!SocketCalls K} (fd : Z) : Prop := ∀ d flags k k' n,
  sys_send fd d flags k = (k', n) → (0 < n)%Z → n = Z.of_nat (length d).

(** C5.  The HTTP server over system calls.  When a client holds a session on a
    socket whose system never finds a message too large, [HttpRouter::run] serves
    it to its end, and what goes to the wire is, for each response in turn, as
    many of its first bytes as the one call of [send] took; the whole of every
    response if [send] takes all it is given. *)
Theorem socket_session_on_wire {K} `{!SocketCalls K, !SocketLaws K, !SocketData K} (fuel : nat) (flags : reader_flags) `{RE : RegexEngine}
    (initial_capacity : nat → nat) (grow : nat → nat → nat) (what : HttpRequest → str)
    (registered : list (HttpHandlerFactory (S := Socket K))) (router : HttpRouter) (conn conn' : Socket K) (turns : list (str * str)) :
  wf_flags flags → attach_routes registered make_router = (router, Ok ()) →
  session (CS := socket_stream fuel) flags what registered router conn turns conn' →
  never_splits conn → Forall (λ t, (Z.of_nat (length t.2) < 2 ^ 31)%Z) turns →
  run (CS := socket_stream fuel) flags initial_capacity grow what (length turns) router conn = Some (router, conn', Ok ()) ∧
  ∃ ns, Forall2 (sent_of (_socket_fd conn)) ns turns ∧
    wire (_socket_fd conn) (os conn') = wire (_socket_fd conn) (os conn) ++ concat (zip_with take ns (snd <$> turns)) ∧
    (sends_whole (K := K) (_socket_fd conn) →
      wire (_socket_fd conn) (os conn') = wire (_socket_fd conn) (os conn) ++ concat (snd <$> turns)).
Proof.
  intros Hfl Ha Hs Hns Hshort. split.
  - pose proof (session_serves (CS := socket_stream fuel) flags initial_capacity grow what registered router conn turns conn' Hfl Ha Hs) as E.
    apply attach_routes_keeps in Ha as [Hc _]. rewrite (run_served (CS := socket_stream fuel) _ _ _ _ _ _ _ _ _ ltac:(rewrite Hc; cbn; lia) E). by rewrite decide_True.
  - destruct (session_wire fuel flags what registered router conn turns conn' Hs Hns Hshort) as (ns & Hn & Hw). exists ns. split_and!; [done|done|].
    intros Hwhole. rewrite Hw. f_equal. f_equal. clear -Hn Hwhole. induction Hn as [|n t ns turns [Hn (k & k' & E)] _ IH]; [done|].
    cbn. rewrite IH. f_equal. apply take_ge. apply Hwhole in E; lia.
Qed.

(** * A system with one connection *)

(** The connection has descriptor 3: what its peer sends arrives in pieces, and
    [send] takes so many bytes at a time. *)
Record tcp := MkTcp { tcp_open : gset Z; tcp_in : str; tcp_piece : nat; tcp_out : str; tcp_room : nat }.
Definition tcp_recv (fd : Z) (n : nat) (k : tcp) : tcp * (Z * str) :=
  if decide (fd = 3%Z)
  then let m := n `min` S (tcp_piece k) in
       (MkTcp (tcp_open k) (drop m (tcp_in k)) (tcp_piece k) (tcp_out k) (tcp_room k),
        (Z.of_nat (length (take m (tcp_in k))), take m (tcp_in k)))
  else (k, (-1, [])%Z).
Definition tcp_send (fd : Z) (d : str) (k : tcp) : tcp * Z :=
  if decide (fd = 3%Z)
  then let n := length d `min` tcp_room k in
       (MkTcp (tcp_open k) (tcp_in k) (tcp_piece k) (tcp_out k ++ take n d) (tcp_room k), Z.of_nat n)
  else (k, -1)%Z.

#[export] Instance tcp_calls : SocketCalls tcp := {|
  errno_value _ := 0%Z;
  sys_getaddrinfo _ _ _ k := (k, (-1, [])%Z);
  sys_socket _ k := (k, -1)%Z;
  sys_reuse _ k := (k, -1)%Z;
  sys_bind _ _ k := (k, -1)%Z;
  sys_listen _ _ k := (k, -1)%Z;
  sys_connect _ _ k := (k, -1)%Z;
  sys_sockerr _ k := (k, (-1, 0))%Z;
  sys_accept _ k := (k, -1)%Z;
  sys_getfl _ k := (k, -1)%Z;
  sys_setfl _ _ k := (k, -1)%Z;
  sys_send fd d _ := tcp_send fd d;
  sys_recv := tcp_recv;
  sys_close fd k := MkTcp (tcp_open k ∖ {[fd]}) (tcp_in k) (tcp_piece k) (tcp_out k) (tcp_room k);
  fd_ready _ _ _ := None;
  open_fds := tcp_open;
  wire fd k := if decide (fd = 3%Z) then tcp_out k else [];
|}.

Lemma tcp_send_ok fd d k k' n : tcp_send fd d k = (k', n) →
  tcp_open k' = tcp_open k ∧ tcp_in k' = tcp_in k ∧ (-1 ≤ n ≤ Z.of_nat (length d))%Z ∧
  wire fd k' = wire fd k ++ take (Z.to_nat n) d.
Proof.
  unfold tcp_send. case_decide as Hfd; intros [= <- <-]; cbn; [rewrite !decide_True, Nat2Z.id by done|rewrite decide_False, app_nil_r by done]; split_and!; try done; lia.
Qed.
#[export] Instance tcp_laws : SocketLaws tcp.
Proof.
  split; cbn; intros; simplify_eq; try done;
    try (match goal with H : tcp_send _ _ _ = _ |- _ => by apply tcp_send_ok in H as (? & ? & ? & ?) end).
  unfold tcp_recv in *. case_decide; by simplify_eq.
Qed.
#[export] Instance tcp_data : SocketData tcp.
Proof.
  refine {| arriving fd k := if decide (fd = 3%Z) then tcp_in k else [] |}; cbn; try done.
  - unfold tcp_recv. intros fd n k k' r d. case_decide as Hfd; intros [= <- <- <-]; [|by split_and!; try lia].
    cbn. rewrite length_take, Nat2Z.id, take_drop. split_and!; [lia|lia|lia|done|].
    intros Hz Hn. destruct (tcp_in k); [done|]. cbn in Hz. lia.
  - intros fd d flags k k' n H. apply tcp_send_ok in H as (_ & -> & _). done.
  - unfold tcp_recv. intros fd g n k k' r. by case_decide; intros [= <- _].
Defined.

(** ** A session *)

#[local] Existing Instance literal_engine.
#[local] Instance tcp_read : CoReadable (Socket tcp) := socket_readable 4.
#[local] Instance tcp_stream : CoStream (Socket tcp) := socket_stream 4.

(** Two requests of a client that come byte by byte: for a path without a route,
    and for nothing that is a request. *)
Definition tcp_conn (room : nat) : Socket tcp := MkSocket 3 (MkTcp {[3%Z]} (lost_request ++ junk) 0 [] room).
Definition plain_router : HttpRouter (S := Socket tcp) := make_router.
Definition lost_text : str := response_text (B "Not Found") (respond_failure 404 (B "Not Found.") make_response).
Definition junk_text : str := response_text (B "Bad Request") (respond_failure 400 (B "malformed") make_response).
Definition tcp_talk : list (str * str) := [(lost_request, lost_text); (junk, junk_text)].

(** The connection when a text of a length has come, and when one was written. *)
Definition after_text (n : nat) (s : Socket tcp) : Socket tcp :=
  match gather 100 (read_block_size wire_flags) n s with Some (s, _) => s | None => s end.
Definition after_write (text : str) (s : Socket tcp) : Socket tcp := (stream_write text s).1.
Definition tcp_between (room : nat) : Socket tcp := after_write lost_text (after_text (length lost_request) (tcp_conn room)).
Definition tcp_end (room : nat) : Socket tcp :=
  stream_close (after_write junk_text (after_text (length junk) (tcp_between room))).

Lemma tcp_lost_answered c1 :
  ∃ req, answered (λ _, B "malformed") [] plain_router c1 lost_request [] req (respond_failure 404 (B "Not Found.") make_response) ∧
    keep_alive req = true.
Proof.
  eexists. split.
  - eapply (answered_not_found _ _ _ _ (B "GET") (B "/none") (B "HTTP/1.1") None [KEEP] 0);
      [done|apply wf_kept|by vm_compute|reflexivity|reflexivity].
  - by vm_compute.
Qed.
Lemma tcp_junk_answered c1 :
  ∃ req, answered (λ _, B "malformed") [] plain_router c1 junk [] req (respond_failure 400 (B "malformed") make_response) ∧
    keep_alive req = false.
Proof. eexists. split; [by apply answered_malformed; vm_compute|by vm_compute]. Qed.

Lemma tcp_session room : room = 1000 ∨ room = 20 →
  session wire_flags (λ _, B "malformed") [] plain_router (tcp_conn room) tcp_talk (tcp_end room).
Proof.
  intros Hroom. destruct (tcp_lost_answered (after_text (length lost_request) (tcp_conn room))) as (r1 & A1 & K1).
  unfold tcp_talk. rewrite <- (app_nil_r lost_request) at 1.
  eapply session_turn with (c2 := tcp_between room) (n := length lost_text `min` room);
    [|rewrite app_nil_r; apply (gather_arrives 100)|exact A1|reflexivity| |].
  - by apply Nat.leb_le; vm_compute.
  - by destruct Hroom as [-> | ->]; vm_compute.
  - by destruct Hroom as [-> | ->]; vm_compute.
  - unfold finished. rewrite K1.
    destruct (tcp_junk_answered (after_text (length junk) (tcp_between room))) as (r2 & A2 & K2).
    rewrite <- (app_nil_r junk) at 1.
    eapply session_turn with (c2 := after_write junk_text (after_text (length junk) (tcp_between room))) (n := length junk_text `min` room);
      [|rewrite app_nil_r; apply (gather_arrives 100)|exact A2|reflexivity| |].
    + by apply Nat.leb_le; vm_compute.
    + by destruct Hroom as [-> | ->]; vm_compute.
    + by destruct Hroom as [-> | ->]; vm_compute.
    + unfold finished. rewrite K2. unfold tcp_end. apply session_end. by destruct Hroom as [-> | ->]; vm_compute.
Qed.

Lemma tcp_never_splits room : never_splits (tcp_conn room).
Proof. intros d flags k k' n _ _. by vm_compute. Qed.

Lemma socket_session_on_wire_witness :
  run wire_flags (λ _, 15) Nat.max (λ _, B "malformed") 2 plain_router (tcp_conn 1000) = Some (plain_router, tcp_end 1000, Ok ()) ∧
  ∃ ns, Forall2 (sent_of 3) ns tcp_talk ∧
    wire (_socket_fd (tcp_conn 1000)) (os (tcp_end 1000)) = [] ++ concat (zip_with take ns [lost_text; junk_text]).
Proof.
  destruct (socket_session_on_wire 4 wire_flags (λ _, 15) Nat.max (λ _, B "malformed") [] plain_router (tcp_conn 1000) (tcp_end 1000) tcp_talk)
    as (Hr & ns & Hn & Hw & _).
  - exact wire_flags_wf.
  - reflexivity.
  - by apply tcp_session; left.
  - apply tcp_never_splits.
  - repeat constructor; by vm_compute.
  - split; [exact Hr|]. exists ns. split; [exact Hn|exact Hw].
Defined.

(** ** Behaviour a caller would not expect *)

(** The count that writing a response returns is ignored: where [send] takes 20
    bytes at a time the client gets the first 20 of each response, and [run]
    ends as if it had been served. *)
Lemma response_cut_short :
  run wire_flags (λ _, 15) Nat.max (λ _, B "malformed") 2 plain_router (tcp_conn 20) = Some (plain_router, tcp_end 20, Ok ()) ∧
  wire 3 (os (tcp_end 20)) = take 20 lost_text ++ take 20 junk_text ∧ 20 < length lost_text.
Proof.
  split; [|split; [by vm_compute|by apply Nat.leb_le; vm_compute]].
  by apply (session_served wire_flags (λ _, 15) Nat.max (λ _, B "malformed") [] plain_router (tcp_conn 20) (tcp_end 20) tcp_talk wire_flags_wf eq_refl), tcp_session; right.
Qed.

(** For the same reason TLS over a socket may lose encrypted bytes: a [Socket] is
    not a [Transport], whose writes take all they are given. *)
Lemma socket_writes_in_part :
  ∃ data, 0 < length data ∧ (stream_write data (tcp_conn 20)).2 = Ok 20 ∧ 20 < length data.
Proof. exists lost_text. split_and!; [by apply Nat.leb_le; vm_compute|by vm_compute|by apply Nat.leb_le; vm_compute]. Qed.
