(* ===== verification/Server.v ===== *)
(** lw/net/server and lw/net/router: the life cycle of a server over the sockets
    of lw/net/socket, and the registry of routes. *)
From stdpp Require Import gmap.
From S2P Require Import Prelude Cxx Errors Sockets.

(** * Routes *)

(** [get_router_routes]: the routes registered for each router type. *)
Definition router_map : Type := gmap Z (gset nat).
Definition get_router_routes (router_id : Z) (m : router_map) : gset nat := default ∅ (m !! router_id).
(** [register_route]; a null route is rejected. *)
Definition register_route (router_id : Z) (route : option nat) : ST router_map () :=
  match route with
  | None => st_throw InvalidArgument
  | Some r => st_modify (λ m, <[router_id := {[r]} ∪ get_router_routes router_id m]> m)
  end.

Section server.
Context {K : Type} `{!SocketCalls K} (connection_backlog_limit : Z) (fuel : nat).

(** * The server *)

(** Routers are opaque; a socket is a heap object of the [Net], by its address. *)
Record RouterSocket := MkRouterSocket { router : nat; socket : option nat }.

(** The server, the program's sockets, and what it has asked for: accept loops
    that were scheduled (router and socket), connections handed to routers, and
    whether the scheduler was told to stop.  The entries of [_port_map] are in
    the order in which it is traversed. *)
Record Server := MkServer {
  _listening : bool;
  _running : bool;
  _port_map : list (Z * RouterSocket);
  net : Net K;
  next_address : nat;
  accept_loops : list (nat * nat);
  handed_over : list (nat * nat);
  stop_requested : bool;
}.
Definition new_server (k : K) : Server := MkServer false false [] (MkNet ∅ k) 0 [] [] false.

Definition set_listening (b : bool) : CO Server () := co_modify (λ s,
  MkServer b (_running s) (_port_map s) (net s) (next_address s) (accept_loops s) (handed_over s) (stop_requested s)).
Definition set_running (b : bool) : CO Server () := co_modify (λ s,
  MkServer (_listening s) b (_port_map s) (net s) (next_address s) (accept_loops s) (handed_over s) (stop_requested s)).
Definition set_port_map (m : list (Z * RouterSocket)) : CO Server () := co_modify (λ s,
  MkServer (_listening s) (_running s) m (net s) (next_address s) (accept_loops s) (handed_over s) (stop_requested s)).
Definition on_net {A} (m : CO (Net K) A) : CO Server A := λ s,
  let '(w, r) := m (net s) in
  (MkServer (_listening s) (_running s) (_port_map s) w (next_address s) (accept_loops s) (handed_over s) (stop_requested s), r).
Definition schedule_loop (l : nat * nat) : CO Server () := co_modify (λ s,
  MkServer (_listening s) (_running s) (_port_map s) (net s) (next_address s) (accept_loops s ++ [l]) (handed_over s) (stop_requested s)).
Definition hand_over (c : nat * nat) : CO Server () := co_modify (λ s,
  MkServer (_listening s) (_running s) (_port_map s) (net s) (next_address s) (accept_loops s) (handed_over s ++ [c]) (stop_requested s)).
Definition stop_scheduler : CO Server () := co_modify (λ s,
  MkServer (_listening s) (_running s) (_port_map s) (net s) (next_address s) (accept_loops s) (handed_over s) true).

(** [std::make_unique<Socket>()]. *)
Definition allocate (fd : Z) : CO Server nat := λ s,
  (MkServer (_listening s) (_running s) (_port_map s) (MkNet (<[next_address s := fd]> (sockets (net s))) (net_os (net s)))
     (S (next_address s)) (accept_loops s) (handed_over s) (stop_requested s), Some (Ok (next_address s))).

(** [for (auto& entry : _port_map)], by index. *)
Definition each_entry (f : nat → Z → RouterSocket → CO Server ()) : CO Server () :=
  s ← co_get;
  co_for_each (λ i, s ← co_get; match _port_map s !! i with Some (port, e) => f i port e | None => co_res Undef end)
    (seq 0 (length (_port_map s))).
(** [router_sock.socket = ...] for the entry at [i]. *)
Definition set_socket_at (i : nat) (port : Z) (e : RouterSocket) (a : option nat) : CO Server () :=
  s ← co_get; set_port_map (<[i := (port, MkRouterSocket (router e) a)]> (_port_map s)).
Definition open_at (a : nat) : CO Server bool := on_net (on_socket a (s ← co_get; mret (is_open s))).
(** A [unique_ptr] to a socket is reset. *)
Definition reset (a : nat) : CO Server () := on_net (destroy a).

(** ** Operations *)

(** [attach_router]; [attach_routes] is what the router's own does. *)
Definition attach_router (attach_routes : nat → res ()) (port : Z) (router : option nat) : CO Server () :=
  match router with
  | None => co_throw InvalidArgument
  | Some r =>
      s ← co_get;
      if _listening s then co_throw FailedPrecondition
      else if decide (port ∈ (_port_map s).*1) then co_throw AlreadyExists
      else set_port_map (_port_map s ++ [(port, MkRouterSocket r None)]) ≫= λ _, co_res (attach_routes r)
  end.

Definition listen_entry (i : nat) (port : Z) (e : RouterSocket) : CO Server () :=
  a ← match socket e with
      | Some a => mret a
      | None => a ← allocate 0; set_socket_at i port e (Some a) ≫= λ _, mret a
      end;
  o ← open_at a;
  if (o : bool) then mret () else on_net (on_socket a (listen connection_backlog_limit (B "localhost") (show_Z port))).
(** The handler of [listen]. *)
Definition release_entry (i : nat) (port : Z) (e : RouterSocket) : CO Server () :=
  match socket e with Some a => reset a ≫= λ _, set_socket_at i port e None | None => mret () end.
Definition server_listen : CO Server () :=
  s ← co_get;
  if _listening s then co_throw FailedPrecondition
  else
    set_listening true ≫= λ _,
    co_catch (each_entry listen_entry)
      (λ e, each_entry release_entry ≫= λ _, set_listening false ≫= λ _, co_res (Throw e)).

Definition close_entry (i : nat) (port : Z) (e : RouterSocket) : CO Server () :=
  match socket e with
  | None => mret ()
  | Some a =>
      o ← open_at a;
      if (o : bool) then on_net (on_socket a close) ≫= λ _, reset a ≫= λ _, set_socket_at i port e None else mret ()
  end.
Definition force_close : CO Server () :=
  s ← co_get;
  if _running s then
    set_running false ≫= λ _, set_listening false ≫= λ _, each_entry close_entry ≫= λ _, stop_scheduler
  else mret ().
(** [try_close]; [connection_count] is what the routers' own say. *)
Definition try_close (connection_count : nat → nat) : CO Server bool :=
  s ← co_get;
  if forallb (λ '(_, e), bool_decide (connection_count (router e) = 0)) (_port_map s)
  then force_close ≫= λ _, mret true else mret false.

(** [_schedule_accept_loops]: with the address of each socket. *)
Definition schedule_entry (i : nat) (port : Z) (e : RouterSocket) : CO Server () :=
  match socket e with Some a => schedule_loop (router e, a) | None => co_res Undef end.
(** [run] up to the loop of the scheduler, and after it. *)
Definition run_begin : CO Server () :=
  s ← co_get;
  if negb (_listening s) then co_throw FailedPrecondition
  else if _running s then co_throw FailedPrecondition
  else set_running true ≫= λ _, each_entry schedule_entry.
Definition run_end (o : res ()) : CO Server () := set_running false ≫= λ _, co_res o.

(** One round of [accept_loop]; false at its end. *)
Definition accept_round (r a : nat) : CO Server bool :=
  s ← co_get;
  if _running s then
    fd ← on_net (on_socket a (accept fuel));
    client ← allocate fd;
    hand_over (r, client) ≫= λ _, mret true
  else mret false.

(** [~Server]: the members go after the body. *)
Definition destroy_server (connection_count : nat → nat) : CO Server () :=
  closed ← try_close connection_count;
  (if (closed : bool) then mret () else force_close) ≫= λ _, each_entry release_entry.

(** What is done with a server; an accept loop is resumed by its number, and a
    router drops a connection by its number. *)
Inductive server_op :=
  | Attach (attach_routes : nat → res ()) (port : Z) (router : option nat)
  | ServerListen | TryClose (connection_count : nat → nat) | ForceClose | RunBegin | RunEnd (o : res ())
  | AcceptRound (n : nat).
Definition server_step (o : server_op) : CO Server () :=
  match o with
  | Attach f port r => attach_router f port r
  | ServerListen => server_listen
  | TryClose f => try_close f ≫= λ _, mret ()
  | ForceClose => force_close
  | RunBegin => run_begin
  | RunEnd o => run_end o
  | AcceptRound n =>
      s ← co_get; match accept_loops s !! n with Some (r, a) => accept_round r a ≫= λ _, mret () | None => mret () end
  end.
Definition run_server (l : list server_op) (s : Server) : Server := foldl (λ s o, (server_step o s).1) s l.
End server.

(** * [Socket::listen] returns or throws *)

Section listening.
Context {K : Type} `{!SocketCalls K, !SocketLaws K} (backlog : Z).

(** A call that returns or throws. *)
Definition prompt {A} (m : CO (Socket K) A) : Prop := ∀ s s' x, m s = (s', x) → ∃ y, x = Some y ∧ y ≠ Undef.
Lemma prompt_bind {A C} (m : CO (Socket K) A) (k : A → CO (Socket K) C) : prompt m → (∀ a, prompt (k a)) → prompt (m ≫= k).
Proof.
  intros Hm Hk s s' x H. unfold mbind, CO_bind in H. destruct (m s) as [s1 y] eqn:E.
  destruct (Hm s s1 y E) as ([a|e|] & -> & ?); [by eapply Hk|injection H as <- <-; by eexists|done].
Qed.
Lemma prompt_call {A} (f : K → K * A) : prompt (call f).
Proof. intros s s' x H. unfold call in H. destruct (f (os s)). injection H as <- <-. by eexists. Qed.
Lemma prompt_res {A} (r : res A) : r ≠ Undef → prompt (co_res r).
Proof. intros Hr s s' x [= <- <-]. by eexists. Qed.
Lemma prompt_get : prompt co_get.
Proof. intros s s' x [= <- <-]. by eexists. Qed.
Lemma prompt_set fd : prompt (set_fd fd).
Proof. intros s s' x [= <- <-]. by eexists. Qed.
Lemma check_errno_total e : check_errno e ≠ Undef.
Proof. unfold check_errno. by destruct (check_cases e) as [[_ ->]|[(? & _ & ->)|(_ & _ & ->)]]. Qed.
Lemma prompt_fail {A} : prompt (fail_errno (A := A)).
Proof.
  apply prompt_bind; [apply prompt_call|intros e]. apply prompt_bind; [apply prompt_res, check_errno_total|intros []]. by apply prompt_res.
Qed.

Ltac prompts :=
  repeat first
    [ apply prompt_bind; [|intros ?] | apply prompt_call | apply prompt_get | apply prompt_set | apply prompt_fail
    | apply prompt_res, check_errno_total | by apply prompt_res | by (intros ??? [= <- <-]; eexists) | done | match goal with H : ∀ l, prompt _ |- _ => apply H end | case_match ].

Lemma listen_prompt h n : prompt (listen backlog h n).
Proof.
  assert (∀ l, prompt (bind_loop l)) as Hloop.
  { induction l as [|a l IH]; cbn [bind_loop]; [by intros ??? [= <- <-]; eexists|]. unfold enable_socket_reuse, sys_do. by prompts. }
  unfold listen, check_gai_error. by prompts.
Qed.

(** A socket that listens is open. *)
Lemma listen_opens h n s s' : listen backlog h n s = (s', Some (Ok ())) → (0 < _socket_fd s')%Z.
Proof.
  unfold listen. rewrite co_get_bind. destruct (is_open s); [done|]. intros H.
  apply co_bind_inv in H as [([err l] & s1 & _ & H)|(x & _ & _ & Hr)]; [|by destruct (Hr ())].
  apply co_bind_inv in H as [([] & s2 & _ & H)|(x & _ & _ & Hr)]; [|by destruct (Hr ())].
  apply co_bind_inv in H as [([] & s3 & _ & H)|(x & _ & _ & Hr)]; [|by destruct (Hr ())].
  rewrite co_get_bind in H. destruct (is_open s3) eqn:Ho; [|done].
  unfold call, mbind, CO_bind in H. destruct (sys_listen _ _ _) as [k r]. destruct (r =? -1)%Z.
  - by apply fail_errno_os in H as (_ & _ & Hr); destruct (Hr ()).
  - injection H as <-. unfold is_open in Ho. by bool_hyps.
Qed.
End listening.

(** * The invariant *)

Section invariant.
Context {K : Type} `{!SocketCalls K, !SocketLaws K} (backlog : Z) (fuel : nat).
Implicit Types s : Server (K := K).

(** The entry at [j] has the socket at [a]. *)
Definition owner s (a j : nat) : Prop := ∃ port e, _port_map s !! j = Some (port, e) ∧ socket e = Some a.

(** Ports are distinct, and their sockets are live and nobody else's. *)
Record srv_base s : Prop := {
  base_net : net_ok (net s);
  base_fresh : ∀ a, is_Some (sockets (net s) !! a) → a < next_address s;
  base_ports : NoDup (_port_map s).*1;
  base_live : ∀ a j, owner s a j → is_Some (sockets (net s) !! a);
  base_distinct : ∀ a i j, owner s a i → owner s a j → i = j;
  base_handed : ∀ r c j, (r, c) ∈ handed_over s → ¬ owner s c j;
  base_handed_old : ∀ r c, (r, c) ∈ handed_over s → c < next_address s;
}.
(** The port at [j] has a socket that is bound. *)
Definition bound s (j : nat) : Prop := ∃ a fd, owner s a j ∧ sockets (net s) !! a = Some fd ∧ fd ≠ 0%Z.
Record srv_ok s : Prop := {
  ok_base : srv_base s;
  ok_running : _running s = true → _listening s = true;
  ok_listening : _listening s = true → ∀ j, j < length (_port_map s) → bound s j;
}.

(** ** The loops over the ports *)

Lemma entries_rule (f : nat → Z → RouterSocket → CO Server ()) (n i m : nat) (P : nat → Server → Prop)
    (Q : option (res ()) → Server → Prop) s s' r :
  (∀ i s, P i s → length (_port_map s) = n) → i + m = n →
  (∀ i port e s s1 x, P i s → _port_map s !! i = Some (port, e) → f i port e s = (s1, x) →
    (x = Some (Ok ()) → P (S i) s1) ∧ (x ≠ Some (Ok ()) → Q x s1)) →
  P i s →
  co_for_each (λ i, s ← co_get; match _port_map s !! i with Some (port, e) => f i port e | None => co_res Undef end) (seq i m) s = (s', r) →
  (r = Some (Ok ()) ∧ P n s') ∨ (r ≠ Some (Ok ()) ∧ Q r s').
Proof.
  intros Hlen Hn Hf. revert i s Hn. induction m as [|m IH]; intros i s Hn HP; cbn [seq co_for_each].
  { intros [= <- <-]. left. by replace n with i by lia. }
  intros H. unfold mbind at 1, CO_bind at 1 in H. rewrite co_get_bind in H.
  destruct (_port_map s !! i) as [[port e]|] eqn:Hi; [|apply lookup_ge_None in Hi; rewrite (Hlen i s HP) in Hi; lia].
  destruct (f i port e s) as [s1 x] eqn:E. destruct (Hf i port e s s1 x HP Hi E) as [H1 H2].
  destruct x as [[[]|e'|]|]; [|injection H as <- <-; right; split; [done|by apply H2]..].
  apply (IH (S i) s1); [lia|by apply H1|done].
Qed.
Lemma each_entry_rule (f : nat → Z → RouterSocket → CO Server ()) (P : nat → Server → Prop) (Q : option (res ()) → Server → Prop) s s' r :
  (∀ i s1, P i s1 → length (_port_map s1) = length (_port_map s)) →
  (∀ i port e s s1 x, P i s → _port_map s !! i = Some (port, e) → f i port e s = (s1, x) →
    (x = Some (Ok ()) → P (S i) s1) ∧ (x ≠ Some (Ok ()) → Q x s1)) →
  P 0 s → each_entry f s = (s', r) →
  (r = Some (Ok ()) ∧ P (length (_port_map s)) s') ∨ (r ≠ Some (Ok ()) ∧ Q r s').
Proof. intros Hlen Hf HP H. unfold each_entry in H. rewrite co_get_bind in H. by eapply (entries_rule f _ 0 (length (_port_map s))). Qed.

(** ** Dropping sockets *)

Lemma destroy_run a fd (w : Net K) :
  sockets w !! a = Some fd →
  destroy a w = (MkNet (delete a (sockets w)) (if decide (fd = 0)%Z then net_os w else sys_close fd (net_os w)), Some (Ok ())).
Proof.
  intros Ha. unfold destroy, mbind, CO_bind, on_socket, co_get, co_modify. rewrite Ha. cbn -[delete insert lookup].
  destruct (Z.eqb_spec fd 0) as [->|Hne]; cbn -[delete insert lookup]; [by rewrite delete_insert_eq|].
  unfold close. rewrite co_get_bind. cbn -[delete insert lookup]. rewrite (proj2 (Z.eqb_neq fd 0) Hne).
  unfold sys_do, call, set_fd, co_modify, mbind, CO_bind. cbn -[delete insert lookup]. by rewrite decide_False, delete_insert_eq.
Qed.

(** An entry loses its socket. *)
Definition drop_entry (i : nat) (port : Z) (e : RouterSocket) s : Server :=
  match socket e with
  | None => s
  | Some a =>
      MkServer (_listening s) (_running s) (<[i := (port, MkRouterSocket (router e) None)]> (_port_map s)) (destroy a (net s)).1
        (next_address s) (accept_loops s) (handed_over s) (stop_requested s)
  end.

(** The first [n] entries of [s] lost their sockets, whose descriptors were
    closed, and nothing else happened. *)
Record dropped (n : nat) s s1 : Prop := {
  dropped_base : srv_base s1;
  dropped_flags : _listening s1 = _listening s ∧ _running s1 = _running s ∧ accept_loops s1 = accept_loops s ∧
    handed_over s1 = handed_over s ∧ stop_requested s1 = stop_requested s;
  dropped_map : ∀ j, _port_map s1 !! j =
    (λ '(port, e), (port, if decide (j < n) then MkRouterSocket (router e) None else e)) <$> _port_map s !! j;
  dropped_sockets : ∀ a, (∃ j, j < n ∧ owner s a j) ∧ sockets (net s1) !! a = None ∨
    (¬ ∃ j, j < n ∧ owner s a j) ∧ sockets (net s1) !! a = sockets (net s) !! a;
  dropped_fds : ∀ fd, fd ∈ open_fds (net_os (net s1)) ↔
    fd ∈ open_fds (net_os (net s)) ∧ (∀ j a, j < n → owner s a j → sockets (net s) !! a = Some fd → fd = 0%Z);
}.

Lemma dropped_refl s : srv_base s → dropped 0 s s.
Proof.
  intros Hs. split; [done|done|..].
  - intros j. destruct (_port_map s !! j) as [[port e]|]; [|done]. cbn. by rewrite decide_False by lia.
  - intros a. right. split; [|done]. intros (j & Hj & _). lia.
  - intros fd. split; [intros ?; split; [done|lia]|by intros [? _]].
Qed.

Lemma drop_dropped n s s1 port e :
  srv_base s → dropped n s s1 → _port_map s1 !! n = Some (port, e) → dropped (S n) s (drop_entry n port e s1).
Proof.
  intros Hs [Hb Hfl Hm Hso Hfd] Hn. pose proof (Hm n) as Hmn. rewrite Hn in Hmn.
  destruct (_port_map s !! n) as [[port' e']|] eqn:Hn'; [|done]. cbn in Hmn. rewrite decide_False in Hmn by lia.
  injection Hmn as <- <-. unfold drop_entry. destruct (socket e) as [a|] eqn:He.
  - assert (owner s a n) as Hown by by exists port, e.
    assert (owner s1 a n) as Hown1 by by exists port, e.
    assert (¬ ∃ j, j < n ∧ owner s a j) as Hnew.
    { intros (j & Hj & Ho). pose proof (base_distinct s Hs a j n Ho Hown). lia. }
    destruct (base_live s1 Hb a n Hown1) as [fd Ha]. destruct (Hso a) as [[? _]|[_ Hsa]]; [done|].
    pose proof (destroy_run a fd (net s1) Ha) as Ed. rewrite Ed. cbn [fst].
    assert (∀ b j, owner (MkServer (_listening s1) (_running s1) (<[n:=(port, MkRouterSocket (router e) None)]> (_port_map s1))
      (MkNet (delete a (sockets (net s1))) (if decide (fd = 0)%Z then net_os (net s1) else sys_close fd (net_os (net s1))))
      (next_address s1) (accept_loops s1) (handed_over s1) (stop_requested s1)) b j → owner s1 b j ∧ j ≠ n) as Hback.
    { intros b j (p & x & Hj & Hx). cbn in Hj. apply list_lookup_insert_Some in Hj as [(-> & [= <- <-] & _)|[Hne Hj]]; [done|].
      split; [by exists p, x|done]. }
    split; [split|..]; cbn.
    + eapply (destroy_careful a (net s1) _ _ (base_net s1 Hb)). exact Ed.
    + intros b. rewrite lookup_delete_is_Some. intros [_ ?]. by apply (base_fresh s1 Hb).
    + rewrite list_fmap_insert. cbn. rewrite list_insert_id; [apply (base_ports s1 Hb)|]. by rewrite list_lookup_fmap, Hn.
    + intros b j [Hb1 Hne]%Hback. rewrite lookup_delete_is_Some. split; [|by eapply base_live].
      intros ->. by apply Hne, (base_distinct s1 Hb b).
    + intros b i j [Hi _]%Hback [Hj _]%Hback. by eapply base_distinct.
    + intros r c j Hc [Hj _]%Hback. by eapply base_handed.
    + apply (base_handed_old s1 Hb).
    + done.
    + intros j. destruct (decide (j = n)) as [->|Hne].
      * rewrite list_lookup_insert_eq by (by eapply lookup_lt_Some). rewrite Hn'. cbn. by rewrite decide_True by lia.
      * rewrite list_lookup_insert_ne, Hm by done. destruct (_port_map s !! j) as [[q x]|]; [|done]. cbn.
        destruct (decide (j < n)), (decide (j < S n)); (done || lia).
    + intros b. destruct (decide (b = a)) as [->|Hne].
      * left. split; [exists n; split; [lia|done]|]. by rewrite lookup_delete_eq.
      * rewrite lookup_delete_ne by done. destruct (Hso b) as [[(j & ? & ?) ?]|[Hno ?]]; [left|right].
        -- split; [exists j; split; [lia|done]|done].
        -- split; [|done]. intros (j & Hj & Ho). destruct (decide (j = n)) as [->|]; [|apply Hno; exists j; split; [lia|done]].
           destruct Ho as (q & x & Hq & Hx). rewrite Hn' in Hq. injection Hq as <- <-. congruence.
    + intros g. assert (∀ j b, j < S n → owner s b j → j < n ∨ j = n ∧ b = a) as Hsplit.
      { intros j b Hj (q & x & Hq & Hx). destruct (decide (j = n)) as [->|]; [right|left; lia].
        split; [done|]. rewrite Hn' in Hq. injection Hq as <- <-. congruence. }
      rewrite Hsa in Ha. case_decide as Hz.
      * rewrite Hfd. subst fd. split; intros [Hg Hj]; (split; [done|]); intros j b Hlt Ho Hb'.
        -- destruct (Hsplit j b Hlt Ho) as [?|[-> ->]]; [by eapply Hj|congruence].
        -- apply (Hj j b); [lia|done..].
      * rewrite close_closes, elem_of_difference, Hfd, elem_of_singleton. split.
        -- intros [[Hg Hj] Hgf]. split; [done|]. intros j b Hlt Ho Hb'.
           destruct (Hsplit j b Hlt Ho) as [?|[-> ->]]; [by eapply Hj|congruence].
        -- intros [Hg Hj]. split; [split; [done|]|].
           ++ intros j b Hlt. apply Hj. lia.
           ++ intros ->. apply Hz. by apply (Hj n a); [lia|..].
  - split; [done..| | |].
    + intros j. rewrite Hm. destruct (_port_map s !! j) as [[q x]|] eqn:Hj; [|done]. cbn. do 2 f_equal.
      destruct (decide (j < n)), (decide (j < S n)); try (done || lia).
      assert (j = n) as -> by lia. rewrite Hn' in Hj. injection Hj as <- <-. destruct e. cbn in He. by rewrite He.
    + assert (∀ b j, j < S n → owner s b j → j < n) as Hlt.
      { intros b j Hj (q & x & Hq & Hx). destruct (decide (j = n)) as [->|]; [|lia]. congruence. }
      intros b. destruct (Hso b) as [[(j & ? & ?) ?]|[Hno ?]]; [left|right].
      * split; [exists j; split; [lia|done]|done].
      * split; [|done]. intros (j & Hj & Ho). apply Hno. exists j. split; [by eapply Hlt|done].
    + intros g. rewrite Hfd. split; intros [Hg Hj]; (split; [done|]); intros j b Hlt Ho; [|apply (Hj j b); [lia|done]].
      apply (Hj j b); [|done]. destruct (decide (j = n)) as [->|]; [|lia]. destruct Ho as (q & x & Hq & Hx). congruence.
Qed.

Lemma release_entry_run i port e s :
  srv_base s → _port_map s !! i = Some (port, e) → release_entry i port e s = (drop_entry i port e s, Some (Ok ())).
Proof.
  intros Hs Hi. unfold release_entry, drop_entry. destruct (socket e) as [a|] eqn:He; [|done].
  destruct (base_live s Hs a i) as [fd Ha]; [by exists port, e|].
  unfold reset, on_net, mbind, CO_bind. by rewrite (destroy_run a fd (net s) Ha).
Qed.
Lemma close_entry_run i port e s :
  srv_base s → _port_map s !! i = Some (port, e) → (is_Some (socket e) → bound s i) →
  close_entry i port e s = (drop_entry i port e s, Some (Ok ())).
Proof.
  intros Hs Hi Hb. unfold close_entry, drop_entry. destruct (socket e) as [a|] eqn:He; [|done].
  destruct Hb as (a' & fd & (p & x & Hp & Hx) & Ha & Hfd); [done|]. rewrite Hi in Hp. injection Hp as <- <-.
  rewrite He in Hx. injection Hx as <-. rewrite (destroy_run a fd (net s) Ha), decide_False by done.
  assert (0 < fd)%Z as Hpos by (by destruct (net_valid _ (base_net s Hs) a fd Ha) as [?|[? _]]).
  unfold open_at, close, sys_do, call, set_fd, reset, set_socket_at, set_port_map, on_net, on_socket, is_open, co_get, co_modify, mret, CO_ret,
    mbind, CO_bind.
  cbn -[insert lookup delete destroy]. rewrite Ha. cbn -[insert lookup delete destroy]. rewrite (proj2 (Z.ltb_lt 0 fd) Hpos).
  repeat (rewrite ?lookup_insert_eq, ?(proj2 (Z.eqb_neq fd 0) Hfd); cbn -[insert lookup delete destroy]).
  rewrite (destroy_run a 0) by (cbn; by rewrite lookup_insert_eq). cbn -[insert lookup delete]. by rewrite !delete_insert_eq.
Qed.

Lemma dropped_length n s s1 : dropped n s s1 → length (_port_map s1) = length (_port_map s).
Proof.
  intros [_ _ Hm _ _]. assert (∀ j, j < length (_port_map s1) ↔ j < length (_port_map s)) as Hj.
  { intros j. rewrite <- !lookup_lt_is_Some, Hm. apply fmap_is_Some. }
  pose proof (Hj (length (_port_map s1))). pose proof (Hj (length (_port_map s))). lia.
Qed.

Lemma drop_all (f : nat → Z → RouterSocket → CO Server ()) s s' r :
  srv_base s →
  (∀ i port e s1, dropped i s s1 → _port_map s1 !! i = Some (port, e) → f i port e s1 = (drop_entry i port e s1, Some (Ok ()))) →
  each_entry f s = (s', r) → r = Some (Ok ()) ∧ dropped (length (_port_map s)) s s'.
Proof.
  intros Hs Hf H. destruct (each_entry_rule f (λ i s1, dropped i s s1) (λ _ _, False) s s' r) as [?|[_ []]]; try done.
  - intros i s1. by eapply dropped_length.
  - intros i port e s1 s2 x Hd Hi E. rewrite (Hf i port e s1 Hd Hi) in E. injection E as <- <-. split; [|done].
    intros _. by apply drop_dropped.
  - by apply dropped_refl.
Qed.

(** ** Listening *)

(** From [s] to [s1] only the entries before [n] changed, in their sockets. *)
Record listened (n : nat) s s1 : Prop := {
  listened_base : srv_base s1;
  listened_flags : _listening s1 = _listening s ∧ _running s1 = _running s ∧ accept_loops s1 = accept_loops s ∧
    handed_over s1 = handed_over s ∧ stop_requested s1 = stop_requested s;
  listened_names : (λ '(port, e), (port, router e)) <$> _port_map s1 = (λ '(port, e), (port, router e)) <$> _port_map s;
  listened_later : ∀ j, n ≤ j → _port_map s1 !! j = _port_map s !! j;
  listened_others : ∀ a, is_Some (sockets (net s) !! a) → (∀ j, j < n → ¬ owner s a j) →
    sockets (net s1) !! a = sockets (net s) !! a;
  listened_kept : ∀ a j, owner s a j → owner s1 a j;
  listened_new : ∀ a j, owner s1 a j → owner s a j ∨ sockets (net s) !! a = None;
  listened_unowned : ∀ fd, unowned (net s) fd → unowned (net s1) fd;
  listened_live : ∀ a, is_Some (sockets (net s) !! a) → is_Some (sockets (net s1) !! a);
}.
Lemma listened_refl n s : srv_base s → listened n s s.
Proof. split; auto. Qed.
Lemma listened_mono n s s1 : listened n s s1 → listened (S n) s s1.
Proof. intros [H1 H2 H3 H4 H5 H6 H9 H7 H8]. split; try done; [intros j Hj; apply H4; lia|]. intros a Ha Hj. apply H5; [done|]. intros k Hk. apply Hj. lia. Qed.

(** What [listen_entry] does once the entry has a socket. *)
Definition listen_at (port : Z) (a : nat) : CO (Server (K := K)) () :=
  o ← open_at a;
  if (o : bool) then mret () else on_net (on_socket a (listen backlog (B "localhost") (show_Z port))).

Lemma listen_at_ok port a i s s1 x :
  srv_base s → owner s a i → listen_at port a s = (s1, x) →
  srv_base s1 ∧ (∃ y, x = Some y ∧ y ≠ Undef) ∧ (x = Some (Ok ()) → bound s1 i) ∧
  (∃ w, s1 = MkServer (_listening s) (_running s) (_port_map s) w (next_address s) (accept_loops s) (handed_over s) (stop_requested s)) ∧
  (∀ b, b ≠ a → sockets (net s1) !! b = sockets (net s) !! b) ∧ is_Some (sockets (net s1) !! a) ∧
  (∀ fd, unowned (net s) fd → unowned (net s1) fd).
Proof.
  intros Hs Ho H. destruct (base_live s Hs a i Ho) as [fd Ha]. destruct s as [li ru pm w nx al ho sr]. cbn in Ha.
  assert (open_at a (MkServer li ru pm w nx al ho sr) =
    (MkServer li ru pm w nx al ho sr, Some (Ok (0 <? fd)%Z))) as Eo.
  { unfold open_at, on_net, on_socket, mbind, CO_bind, co_get, mret, CO_ret. cbn -[insert lookup]. rewrite Ha. cbn -[insert lookup]. rewrite insert_id by done. by destruct w. }
  unfold listen_at in H. set (host := B "localhost") in H. clearbody host.
  unfold mbind at 1, CO_bind at 1 in H. rewrite Eo in H. destruct (Z.ltb_spec 0 fd) as [Hpos|Hpos].
  - injection H as <- <-. split_and!; [done|by eexists| |by eexists|done|by eexists|done].
    intros _. exists a, fd. split_and!; [done..|lia].
  - cbn -[on_net on_socket] in H. unfold on_net in H. cbn -[on_socket] in H. destruct (on_socket a (listen backlog host (show_Z port)) w) as [w' r] eqn:El.
    injection H as <- <-. destruct (on_socket_careful a _ w w' r (base_net _ Hs) El) as (Hw' & Hun & _).
    { intros s s' y. apply listen_careful. }
    unfold on_socket in El. rewrite Ha in El. destruct (listen _ _ _ _) as [t y] eqn:Et. injection El as <- <-. cbn -[insert lookup listen bound] in *.
    split_and!.
    + destruct Hs as [B1 B2 B3 B4 B5 B6 B7]. split; cbn in *; try done.
      * intros b. rewrite lookup_insert_is_Some'. intros [<-|?]; [apply B2; by eexists|auto].
      * intros b j Hj. rewrite lookup_insert_is_Some'. right. by eapply B4.
    + by eapply listen_prompt.
    + intros ->. exists a, (_socket_fd t). split_and!; [done|cbn -[insert lookup]; by rewrite lookup_insert_eq|]. apply listen_opens in Et. lia.
    + by eexists.
    + intros b Hne. by rewrite lookup_insert_ne.
    + by rewrite lookup_insert_eq.
    + done.
Qed.

Lemma listen_at_listened port a i s0 s s1 x :
  listened (S i) s0 s → (∀ j, j < i → bound s j) → owner s a i → (is_Some (sockets (net s0) !! a) → owner s0 a i) →
  listen_at port a s = (s1, x) →
  listened (S i) s0 s1 ∧ (∃ y, x = Some y ∧ y ≠ Undef) ∧ (x = Some (Ok ()) → ∀ j, j < S i → bound s1 j).
Proof.
  intros [H1 H2 H3 H4 H5 H6 H9 H7 H8] Hb Ho Ha0 H. destruct (listen_at_ok port a i s s1 x H1 Ho H) as (B1 & Hx & Hbi & [w ->] & Hso & Hla & Hun).
  split_and!; [split; cbn -[lookup] in *; auto|done|].
  - intros b Hbl Hno. rewrite Hso; [by apply H5|]. intros ->. apply (Hno i); [lia|auto].
  - intros b Hbl. destruct (decide (b = a)) as [->|Hne]; [done|]. rewrite Hso by done. auto.
  - intros -> j Hj. destruct (decide (j = i)) as [->|Hne]; [by apply Hbi|]. destruct (Hb j) as (b & fd & Hob & Hfd & ?); [lia|].
    exists b, fd. split_and!; [done| |done]. cbn -[lookup] in *. rewrite Hso; [done|]. intros ->.
    by apply Hne, (base_distinct s H1 a).
Qed.

(** The state in which an entry without a socket goes on to listen. *)
Definition with_socket (i : nat) (port : Z) (e : RouterSocket) s : Server (K := K) :=
  MkServer (_listening s) (_running s) (<[i := (port, MkRouterSocket (router e) (Some (next_address s)))]> (_port_map s))
    (MkNet (<[next_address s := 0%Z]> (sockets (net s))) (net_os (net s))) (S (next_address s)) (accept_loops s) (handed_over s) (stop_requested s).
Lemma listen_entry_cases i port e s :
  listen_entry backlog i port e s =
  match socket e with Some a => listen_at port a s | None => listen_at port (next_address s) (with_socket i port e s) end.
Proof. unfold listen_entry. by destruct (socket e). Qed.

Lemma fresh_none s a : srv_base s → next_address s ≤ a → sockets (net s) !! a = None.
Proof. intros Hs Ha. apply eq_None_not_Some. intros ?%(base_fresh s Hs). lia. Qed.

Lemma with_socket_listened i port e s0 s :
  srv_base s0 → listened i s0 s → _port_map s !! i = Some (port, e) → socket e = None → listened (S i) s0 (with_socket i port e s).
Proof.
  intros Hs0 [H1 H2 H3 H4 H5 H6 H9 H7 H8] Hi He. pose proof (fresh_none s (next_address s) H1 (le_n _)) as Hfr.
  destruct (closed_insert_careful (A := ()) (net s) (next_address s) None (base_net s H1)) as (Hn & Hun & _); [congruence|].
  assert (∀ b j, owner (with_socket i port e s) b j → j = i ∧ b = next_address s ∨ j ≠ i ∧ owner s b j) as Hback.
  { intros b j (p & x & Hj & Hx). cbn -[lookup insert] in Hj. apply list_lookup_insert_Some in Hj as [(-> & [= <- <-] & _)|[Hne Hj]].
    - left. cbn in Hx. by injection Hx as <-.
    - right. split; [done|]. by exists p, x. }
  assert (∀ b j, owner s b j → b < next_address s) as Hold by (intros b j Hj; eapply base_fresh, base_live; done).
  split; [split|..]; cbn -[lookup insert]; try done.
  - intros b. rewrite lookup_insert_is_Some'. intros [<-|Hb]; [lia|]. pose proof (base_fresh s H1 b Hb). lia.
  - rewrite list_fmap_insert. cbn. rewrite list_insert_id; [apply (base_ports s H1)|]. by rewrite list_lookup_fmap, Hi.
  - intros b j [[-> ->]|[_ Hj]]%Hback; rewrite lookup_insert_is_Some'; [by left|right]. by eapply base_live.
  - intros b j k [[-> ->]|[Hne Hj]]%Hback [[-> ?]|[Hne' Hk]]%Hback; [done|..|by eapply base_distinct].
    + pose proof (Hold _ _ Hk). lia.
    + subst. pose proof (Hold _ _ Hj). lia.
  - intros r c j Hc [[-> ->]|[_ Hj]]%Hback; [pose proof (base_handed_old s H1 _ _ Hc); lia|by eapply base_handed].
  - intros r c Hc. pose proof (base_handed_old s H1 _ _ Hc). lia.
  - rewrite <- H3, list_fmap_insert. cbn. apply list_insert_id. by rewrite list_lookup_fmap, Hi.
  - intros j Hj. rewrite list_lookup_insert_ne by lia. apply H4. lia.
  - intros b Hb Hno. rewrite lookup_insert_ne; [apply H5; [done|]; intros j Hj; apply Hno; lia|].
    intros <-. apply H8 in Hb. by rewrite Hfr in Hb; destruct Hb.
  - intros b j (p & x & Hj & Hx)%H6. exists p, x. split; [|done]. cbn -[lookup insert]. rewrite list_lookup_insert_ne; [done|].
    intros ->. rewrite Hi in Hj. injection Hj as <- <-. congruence.
  - intros b j [[-> ->]|[_ Hj]]%Hback; [right|by apply H9].
    apply eq_None_not_Some. intros Hb%H8. by rewrite Hfr in Hb; destruct Hb.
  - intros fd Hfd. by apply Hun, H7.
  - intros b Hb. rewrite lookup_insert_is_Some'. right. auto.
Qed.

Lemma listen_entry_ok i port e s0 s s1 x :
  srv_base s0 → listened i s0 s → (∀ j, j < i → bound s j) → _port_map s !! i = Some (port, e) →
  listen_entry backlog i port e s = (s1, x) →
  listened (S i) s0 s1 ∧ (∃ y, x = Some y ∧ y ≠ Undef) ∧ (x = Some (Ok ()) → ∀ j, j < S i → bound s1 j).
Proof.
  intros Hs0 Hl Hb Hi H. rewrite listen_entry_cases in H. destruct (socket e) as [a|] eqn:He.
  - apply (listen_at_listened port a i s0 s s1 x (listened_mono _ _ _ Hl) Hb); [by exists port, e| |done].
    intros _. exists port, e. split; [|done]. by rewrite <- (listened_later _ _ _ Hl i).
  - pose proof (fresh_none s (next_address s) (listened_base _ _ _ Hl) (le_n _)) as Hfr.
    apply (listen_at_listened port (next_address s) i s0 (with_socket i port e s) s1 x); [by apply with_socket_listened| | | |done].
    + intros j Hj. destruct (Hb j Hj) as (b & fd & (p & y & Hp & Hy) & Hfd & Hne). exists b, fd. split_and!; [|cbn -[lookup insert]|done].
      * exists p, y. split; [|done]. cbn -[lookup insert]. by rewrite list_lookup_insert_ne by lia.
      * rewrite lookup_insert_ne; [done|]. congruence.
    + exists port, (MkRouterSocket (router e) (Some (next_address s))). split; [|done]. cbn -[lookup insert].
      rewrite list_lookup_insert_eq; [done|]. by eapply lookup_lt_Some.
    + intros Hsome%(listened_live _ _ _ Hl). by rewrite Hfr in Hsome; destruct Hsome.
Qed.

Lemma listened_length n s s1 : listened n s s1 → length (_port_map s1) = length (_port_map s).
Proof. intros H%listened_names. apply (f_equal length) in H. by rewrite !length_fmap in H. Qed.

(** ** The operations *)

(** A server whose flags and lists differ only where [srv_base] does not look. *)
Lemma base_flags li ru al sr s :
  srv_base s → srv_base (MkServer li ru (_port_map s) (net s) (next_address s) al (handed_over s) sr).
Proof. by intros [B1 B2 B3 B4 B5 B6 B7]. Qed.
(** An operation of the sockets that leaves the objects in place. *)
Lemma base_net_only w s :
  srv_base s → net_ok w → sockets w = sockets (net s) →
  srv_base (MkServer (_listening s) (_running s) (_port_map s) w (next_address s) (accept_loops s) (handed_over s) (stop_requested s)).
Proof. intros [B1 B2 B3 B4 B5 B6 B7] Hw He. split; cbn -[lookup]; rewrite ?He; done. Qed.

Definition cleared s : Prop := ∀ a j, ¬ owner s a j.

Lemma dropped_cleared s s1 : dropped (length (_port_map s)) s s1 → cleared s1.
Proof.
  intros Hd a j (p & e & Hj & He). rewrite (dropped_map _ _ _ Hd) in Hj. destruct (_port_map s !! j) as [[q x]|] eqn:Hx; [|done].
  cbn in Hj. rewrite decide_True in Hj by (by eapply lookup_lt_Some). by injection Hj as <- <-.
Qed.
Lemma dropped_names n s s1 : dropped n s s1 →
  (λ '(port, e), (port, router e)) <$> _port_map s1 = (λ '(port, e), (port, router e)) <$> _port_map s.
Proof.
  intros Hd. apply list_eq. intros j. rewrite !list_lookup_fmap, (dropped_map _ _ _ Hd).
  destruct (_port_map s !! j) as [[q x]|]; [|done]. cbn. by case_decide.
Qed.
Lemma dropped_unowned n s s1 fd : dropped n s s1 → unowned (net s) fd → unowned (net s1) fd.
Proof.
  intros Hd [Hfd Hun]. split.
  - apply (dropped_fds _ _ _ Hd). split; [done|]. intros j a _ _ Ha. by eapply Hun.
  - intros a Ha. destruct (dropped_sockets _ _ _ Hd a) as [[_ ?]|[_ E]]; [congruence|]. rewrite E in Ha. by eapply Hun.
Qed.

(** What [listen] makes of a server that does not listen. *)
Record listen_result s (y : res ()) s' : Prop := {
  lr_ok : srv_ok s';
  lr_outcome : y = Ok () ∧ _listening s' = true ∨ (∃ e, y = Throw e) ∧ _listening s' = false ∧ cleared s';
  lr_same : _running s' = false ∧ accept_loops s' = accept_loops s ∧ handed_over s' = handed_over s ∧ stop_requested s' = stop_requested s;
  lr_names : (λ '(port, e), (port, router e)) <$> _port_map s' = (λ '(port, e), (port, router e)) <$> _port_map s;
  lr_others : ∀ a, is_Some (sockets (net s) !! a) → (∀ j, ¬ owner s a j) → sockets (net s') !! a = sockets (net s) !! a;
  lr_unowned : ∀ fd, unowned (net s) fd → unowned (net s') fd;
}.

Lemma not_listening_idle s : srv_ok s → _listening s = false → _running s = false.
Proof. intros Hs Hl. destruct (_running s) eqn:Hr; [|done]. apply (ok_running s Hs) in Hr. congruence. Qed.

Lemma server_listen_run s :
  srv_ok s → _listening s = false → ∃ s' y, server_listen backlog s = (s', Some y) ∧ listen_result s y s'.
Proof.
  intros Hs Hl. pose proof (not_listening_idle s Hs Hl) as Hr. unfold server_listen. rewrite co_get_bind, Hl.
  set (s0 := MkServer true (_running s) (_port_map s) (net s) (next_address s) (accept_loops s) (handed_over s) (stop_requested s)).
  change ((set_listening true ≫= λ _, ?k) s) with (k s0). assert (srv_base s0) as Hs0 by apply base_flags, (ok_base s Hs).
  unfold co_catch. destruct (each_entry (listen_entry backlog) s0) as [s1 x] eqn:E1.
  set (n := length (_port_map s)).
  destruct (each_entry_rule (listen_entry backlog) (λ i s1, listened i s0 s1 ∧ ∀ j, j < i → bound s1 j)
    (λ x s1, (∃ i, listened i s0 s1) ∧ ∃ y, x = Some y ∧ y ≠ Undef) s0 s1 x) as [[-> [Hli Hb]]|(Hx & [i Hli] & y & -> & Hy)]; [..|exact E1| |].
  { intros i s2 [Hli _]. by eapply listened_length. }
  { intros i port e s2 s3 y [Hli Hb] Hi E. destruct (listen_entry_ok i port e s0 s2 s3 y Hs0 Hli Hb Hi E) as (Hli' & Hy & Hb').
    split; [intros ->; split; auto|]. intros _. split; [by eexists|done]. }
  { split; [by apply listened_refl|lia]. }
  - destruct (listened_flags _ _ _ Hli) as (F1 & F2 & F3 & F4 & F5). cbn in F1, F2, F3, F4, F5. exists s1, (Ok ()). split; [done|]. split.
    + split; [by eapply listened_base|congruence|]. intros _ j Hj. apply Hb. by rewrite <- (listened_length _ _ _ Hli).
    + by left.
    + split_and!; congruence.
    + by apply (listened_names _ _ _ Hli).
    + intros a Ha Hno. apply (listened_others _ _ _ Hli); [done|]. intros j _. apply Hno.
    + apply (listened_unowned _ _ _ Hli).
  - destruct y as [[]|e|]; [by destruct Hx| |done]. destruct (listened_flags _ _ _ Hli) as (F1 & F2 & F3 & F4 & F5). cbn in F1, F2, F3, F4, F5.
    destruct (each_entry release_entry s1) as [s2 z] eqn:E2.
    destruct (drop_all release_entry s1 s2 z (listened_base _ _ _ Hli)) as [-> Hd]; [|exact E2|].
    { intros j port d s3 Hd Hj. apply release_entry_run; [by eapply dropped_base|done]. }
    destruct (dropped_flags _ _ _ Hd) as (G1 & G2 & G3 & G4 & G5).
    exists (MkServer false (_running s2) (_port_map s2) (net s2) (next_address s2) (accept_loops s2) (handed_over s2) (stop_requested s2)), (Throw e).
    split; [unfold mbind, CO_bind; by rewrite E2|]. split.
    + split; [by apply base_flags; eapply dropped_base|cbn; congruence|done].
    + right. split_and!; [by eexists|done|]. exact (dropped_cleared _ _ Hd).
    + cbn. split_and!; congruence.
    + cbn. rewrite (dropped_names _ _ _ Hd). by apply (listened_names _ _ _ Hli).
    + intros a Ha Hno. cbn. destruct (dropped_sockets _ _ _ Hd a) as [[(j & _ & Ho) _]|[_ ->]].
      * destruct (listened_new _ _ _ Hli a j Ho) as [?|E]; [by destruct (Hno j)|]. cbn in E. rewrite E in Ha. by destruct Ha.
      * apply (listened_others _ _ _ Hli); [done|]. intros j _. apply Hno.
    + intros fd Hfd. apply (dropped_unowned _ _ _ fd Hd). by apply (listened_unowned _ _ _ Hli).
Qed.

(** What [force_close] makes of a running server. *)
Record close_result s s' : Prop := {
  cr_ok : srv_ok s';
  cr_flags : _listening s' = false ∧ _running s' = false ∧ stop_requested s' = true ∧
    accept_loops s' = accept_loops s ∧ handed_over s' = handed_over s;
  cr_cleared : cleared s';
  cr_names : (λ '(port, e), (port, router e)) <$> _port_map s' = (λ '(port, e), (port, router e)) <$> _port_map s;
  cr_sockets : ∀ a, (∃ j, owner s a j) ∧ sockets (net s') !! a = None ∨ (¬ ∃ j, owner s a j) ∧ sockets (net s') !! a = sockets (net s) !! a;
  cr_fds : ∀ fd, fd ∈ open_fds (net_os (net s')) ↔
    fd ∈ open_fds (net_os (net s)) ∧ ¬ ∃ a j, owner s a j ∧ sockets (net s) !! a = Some fd;
}.

Lemma force_close_run s : srv_ok s → _running s = true → ∃ s', force_close s = (s', Some (Ok ())) ∧ close_result s s'.
Proof.
  intros Hs Hr. pose proof (ok_running s Hs Hr) as Hl. unfold force_close. rewrite co_get_bind, Hr.
  set (s0 := MkServer false false (_port_map s) (net s) (next_address s) (accept_loops s) (handed_over s) (stop_requested s)).
  change ((set_running false ≫= λ _, set_listening false ≫= λ _, ?k) s) with (k s0).
  assert (srv_base s0) as Hs0 by apply base_flags, (ok_base s Hs).
  destruct (each_entry close_entry s0) as [s1 x] eqn:E1. destruct (drop_all close_entry s0 s1 x Hs0) as [-> Hd]; [|exact E1|].
  { intros i port e s2 Hd Hi. apply close_entry_run; [by eapply dropped_base|done|]. intros _.
    pose proof (dropped_map _ _ _ Hd i) as Hm. rewrite Hi in Hm.
    destruct (ok_listening s Hs Hl i) as (a & fd & (p & y & Hp & Hy) & Ha & Hfd).
    { apply lookup_lt_Some in Hi. by rewrite (dropped_length _ _ _ Hd) in Hi. }
    cbn -[lookup] in Hm. rewrite Hp in Hm. cbn in Hm. rewrite decide_False in Hm by lia. injection Hm as -> ->.
    exists a, fd. split_and!; [by exists p, y| |done].
    destruct (dropped_sockets _ _ _ Hd a) as [[(j & Hj & Ho) _]|[_ ->]]; [|done].
    assert (j = i) as -> by (apply (base_distinct s0 Hs0 a j i Ho); by exists p, y). lia. }
  destruct (dropped_flags _ _ _ Hd) as (F1 & F2 & F3 & F4 & F5). cbn in F1, F2, F3, F4, F5.
  exists (MkServer (_listening s1) (_running s1) (_port_map s1) (net s1) (next_address s1) (accept_loops s1) (handed_over s1) true).
  split; [unfold mbind, CO_bind; by rewrite E1|]. assert (∀ a j, owner s a j → j < length (_port_map s)) as Hlt.
  { intros a j (p & y & Hp & _). by eapply lookup_lt_Some. }
  split; cbn -[lookup].
  - split; cbn; [by apply base_flags; eapply dropped_base|congruence|congruence].
  - by split_and!.
  - exact (dropped_cleared _ _ Hd).
  - by rewrite (dropped_names _ _ _ Hd).
  - intros a. destruct (dropped_sockets _ _ _ Hd a) as [[(j & _ & Ho) ?]|[Hno ?]]; [left; eauto|right].
    split; [|done]. intros (j & Ho). apply Hno. exists j. split; [by eapply Hlt|done].
  - intros fd. rewrite (dropped_fds _ _ _ Hd). cbn -[lookup]. split; intros [Hfd Hno]; (split; [done|]).
    + intros (a & j & Ho & Ha). assert (fd = 0%Z) as -> by (by eapply Hno; [eapply Hlt| |]).
      destruct (ok_listening s Hs Hl j) as (b & g & Hob & Hb & Hg); [by eapply Hlt|].
      destruct Ho as (p & y & Hp & Hy), Hob as (q & z & Hq & Hz). rewrite Hp in Hq. injection Hq as <- <-. congruence.
    + intros j a _ Ho Ha. destruct Hno. by exists a, j.
Qed.

Lemma flags_ok li ru al sr s :
  srv_base s → (ru = true → li = true) → (li = true → ∀ j, j < length (_port_map s) → bound s j) →
  srv_ok (MkServer li ru (_port_map s) (net s) (next_address s) al (handed_over s) sr).
Proof. intros Hb Hr Hl. split; [by apply base_flags|done|done]. Qed.

Lemma attach_ok f port r s s' x : srv_ok s → attach_router f port r s = (s', x) → srv_ok s'.
Proof.
  intros Hs H. unfold attach_router in H. destruct r as [r|]; [|by injection H as <- <-]. rewrite co_get_bind in H.
  destruct (_listening s) eqn:Hl; [by injection H as <- <-|]. case_decide as Hp; [by injection H as <- <-|].
  injection H as <- <-. destruct (ok_base s Hs) as [B1 B2 B3 B4 B5 B6 B7].
  assert (∀ a j, owner (MkServer (_listening s) (_running s) (_port_map s ++ [(port, MkRouterSocket r None)]) (net s) (next_address s)
    (accept_loops s) (handed_over s) (stop_requested s)) a j → owner s a j) as Hback.
  { intros a j (p & e & Hj & He). cbn in Hj. apply lookup_app_Some in Hj as [Hj|[_ Hj]]; [by exists p, e|].
    apply list_lookup_singleton_Some in Hj as [_ [= <- <-]]. done. }
  split; [split|..]; cbn.
  - done.
  - done.
  - rewrite fmap_app. apply NoDup_app. split_and!; [done| |apply NoDup_singleton]. by intros q Hq ->%list_elem_of_singleton.
  - intros a j Hj%Hback. by eapply B4.
  - intros a i j Hi%Hback Hj%Hback. by eapply B5.
  - intros q c j Hq Hj%Hback. by eapply B6.
  - done.
  - by rewrite (not_listening_idle s Hs Hl).
  - by rewrite Hl.
Qed.

Lemma schedule_loops_run s :
  srv_ok s → _listening s = true →
  ∃ loops, each_entry schedule_entry s =
    (MkServer (_listening s) (_running s) (_port_map s) (net s) (next_address s) loops (handed_over s) (stop_requested s), Some (Ok ())).
Proof.
  intros Hs Hl. destruct (each_entry schedule_entry s) as [s1 x] eqn:E.
  set (P := λ t : Server (K := K), ∃ loops,
    t = MkServer (_listening s) (_running s) (_port_map s) (net s) (next_address s) loops (handed_over s) (stop_requested s)).
  destruct (each_entry_rule schedule_entry (λ _ t, P t) (λ _ _, False) s s1 x) as [[-> [l ->]]|[_ []]]; [| | |exact E|by exists l].
  - by intros i t [l ->].
  - intros i port e t t1 y [l ->] Hi Ey. destruct (ok_listening s Hs Hl i) as (a & fd & (p & z & Hp & Hz) & _ & _).
    { by eapply lookup_lt_Some. }
    cbn -[lookup] in Hi. rewrite Hp in Hi. injection Hi as -> ->. unfold schedule_entry in Ey. rewrite Hz in Ey.
    injection Ey as <- <-. split; [|done]. intros _. by eexists.
  - exists (accept_loops s). by destruct s.
Qed.

Lemma run_begin_ok s s' x : srv_ok s → run_begin s = (s', x) → srv_ok s'.
Proof.
  intros Hs H. unfold run_begin in H. rewrite co_get_bind in H. destruct (_listening s) eqn:Hl; cbn in H; [|by injection H as <- <-].
  destruct (_running s) eqn:Hr; [by injection H as <- <-|].
  change ((set_running true ≫= λ _, ?k) s) with
    (k (MkServer (_listening s) true (_port_map s) (net s) (next_address s) (accept_loops s) (handed_over s) (stop_requested s))) in H.
  assert (srv_ok (MkServer (_listening s) true (_port_map s) (net s) (next_address s) (accept_loops s) (handed_over s) (stop_requested s))) as Hs1
    by (apply flags_ok; [apply (ok_base s Hs)|by rewrite Hl|apply (ok_listening s Hs)]).
  destruct (schedule_loops_run _ Hs1 Hl) as [l E]. rewrite E in H. injection H as <- _. cbn.
  apply flags_ok; [apply (ok_base s Hs)|by rewrite Hl|apply (ok_listening s Hs)].
Qed.

(** [accept] leaves the objects in place. *)
Lemma on_accept_sockets a (w w1 : Net K) x : net_ok w → on_socket a (accept fuel) w = (w1, x) → sockets w1 = sockets w.
Proof.
  intros Hw E. unfold on_socket in E. destruct (sockets w !! a) as [fd|] eqn:Ha; [|by injection E as <- <-].
  unfold accept in E. rewrite co_get_bind in E. destruct (is_open (MkSocket fd (net_os w))); cbn -[insert] in E.
  - destruct (_do_accept fuel _) as [t y] eqn:Ea in E. injection E as <- <-. apply do_accept_ok in Ea as (Hfd & _). cbn -[insert] in *.
    by rewrite Hfd, insert_id.
  - injection E as <- <-. cbn. by rewrite insert_id.
Qed.
Lemma accept_round_base r a s s' x : srv_base s → accept_round fuel r a s = (s', x) →
  srv_base s' ∧ _listening s' = _listening s ∧ _running s' = _running s ∧ _port_map s' = _port_map s ∧
  (∀ b, is_Some (sockets (net s) !! b) → sockets (net s') !! b = sockets (net s) !! b).
Proof.
  intros Hs H. unfold accept_round in H. rewrite co_get_bind in H. destruct (_running s) eqn:Hr; [|by injection H as <- <-].
  pose proof (fresh_none s (next_address s) Hs (le_n _)) as Hfr. unfold on_net, mbind at 1, CO_bind at 1 in H.
  destruct (on_socket a (accept fuel) (net s)) as [w y] eqn:E. pose proof (on_accept_sockets a _ _ _ (base_net s Hs) E) as Hsw.
  destruct ((on_socket a (accept fuel) ≫= λ fd, construct (next_address s) fd) (net s)) as [w' z] eqn:E'.
  destruct (accept_careful fuel a (next_address s) (net s) w' z (base_net s Hs) Hfr E') as (Hw' & _).
  unfold mbind, CO_bind in E'. rewrite E in E'.
  destruct y as [[fd|e|]|]; [|injection E' as <- _; injection H as <- _; split_and!; [by apply base_net_only|done|done|done|intros b _; cbn -[lookup]; by rewrite Hsw]..].
  unfold construct in E'. rewrite co_get_bind, Hsw, Hfr in E'. case_decide as Hc; [by destruct Hc|]. injection E' as <- _.
  injection H as <- _. rewrite Hsw in *. split_and!; [|done|done|done|].
  - destruct Hs as [B1 B2 B3 B4 B5 B6 B7]. split; cbn -[lookup insert] in *; rewrite ?Hsw in *; try done.
    + intros b. rewrite lookup_insert_is_Some'. intros [<-|Hb]; [lia|]. specialize (B2 b Hb). lia.
    + intros b j Hj. rewrite lookup_insert_is_Some'. right. by eapply B4.
    + intros q c j [Hq|Hq%list_elem_of_singleton]%elem_of_app Ho; [by eapply B6|]. injection Hq as -> ->.
      specialize (B2 _ (B4 _ _ Ho)). lia.
    + intros q c [Hq|Hq%list_elem_of_singleton]%elem_of_app; [specialize (B7 q c Hq); lia|]. injection Hq as -> ->. lia.
  - intros b Hb. cbn -[lookup insert]. rewrite ?Hsw, lookup_insert_ne; [done|]. intros <-. rewrite Hfr in Hb. by destruct Hb.
Qed.
Lemma accept_round_ok r a s s' x : srv_ok s → accept_round fuel r a s = (s', x) → srv_ok s'.
Proof.
  intros Hs H. destruct (accept_round_base r a s s' x (ok_base s Hs) H) as (Hb & Hl & Hr & Hm & Hso). split; [done|..].
  - rewrite Hl, Hr. apply (ok_running s Hs).
  - rewrite Hl, Hm. intros Hl' j Hj. destruct (ok_listening s Hs Hl' j Hj) as (b & fd & (p & e & Hp & He) & Hfd & Hne).
    exists b, fd. split_and!; [exists p, e; by rewrite Hm|rewrite Hso; [done|by eexists]|done].
Qed.

Lemma force_close_ok s s' x : srv_ok s → force_close s = (s', x) → srv_ok s'.
Proof.
  intros Hs H. destruct (_running s) eqn:Hr.
  - destruct (force_close_run s Hs Hr) as (s1 & E & Hc). rewrite E in H. injection H as <- _. apply Hc.
  - unfold force_close in H. rewrite co_get_bind, Hr in H. by injection H as <- _.
Qed.

Lemma server_step_ok o s s' x : srv_ok s → server_step backlog fuel o s = (s', x) → srv_ok s'.
Proof.
  intros Hs H. destruct o as [f port r| |f| | |o|n]; cbn [server_step] in H.
  - by eapply attach_ok.
  - destruct (_listening s) eqn:Hl.
    + unfold server_listen in H. rewrite co_get_bind, Hl in H. by injection H as <- _.
    + destruct (server_listen_run s Hs Hl) as (s1 & y & E & Hlr). rewrite E in H. injection H as <- _. apply Hlr.
  - unfold try_close in H. apply co_bind_inv in H as [(b & s1 & E & H)|(y & E & _)].
    + injection H as <- _. rewrite co_get_bind in E. case_match; [|by injection E as <- _].
      apply co_bind_inv in E as [([] & s2 & E & H')|(z & E & _ & Hr)]; [|by destruct (Hr b)]. injection H' as <- _. by eapply force_close_ok.
    + rewrite co_get_bind in E. case_match; [|by injection E as <- _].
      apply co_bind_inv in E as [([] & s2 & E & H')|(z & E & _)]; [injection H' as <- _|]; by eapply force_close_ok.
  - by eapply force_close_ok.
  - by eapply run_begin_ok.
  - injection H as <- _. apply flags_ok; [apply (ok_base s Hs)|done|apply (ok_listening s Hs)].
  - rewrite co_get_bind in H. destruct (accept_loops s !! n) as [[r a]|]; [|by injection H as <- _].
    apply co_bind_inv in H as [(b & s1 & E & H)|(y & E & _)]; [injection H as <- _|]; by eapply accept_round_ok.
Qed.
Lemma run_server_ok l s : srv_ok s → srv_ok (run_server backlog fuel l s).
Proof.
  revert s. induction l as [|o l IH]; intros s Hs; [done|]. cbn. destruct (server_step backlog fuel o s) as [s1 x] eqn:E.
  apply IH. by eapply server_step_ok.
Qed.
Lemma new_server_ok k : srv_ok (new_server k).
Proof.
  split; [split|done|done]; cbn.
  - split; [intros i fd|intros i j fd]; cbn; by rewrite lookup_empty.
  - intros a. rewrite lookup_empty. by intros [].
  - constructor.
  - by intros a j (? & ? & ? & _).
  - by intros a i j (? & ? & ? & _).
  - set_solver.
  - set_solver.
Qed.
End invariant.

(** * Properties *)

(** C22.  In whatever order a server is used: it runs only while it listens; while
    it listens every port has an open socket of its own; ports are distinct;
    and [run] then starts its accept loops, on live sockets. *)
Theorem server_lifecycle {K} `{!SocketCalls K, !SocketLaws K} (backlog : Z) (fuel : nat) (ops : list server_op) (k : K) :
  let s := run_server backlog fuel ops (new_server k) in
  (_running s = true → _listening s = true) ∧ NoDup (_port_map s).*1 ∧
  (_listening s = true → ∀ j, j < length (_port_map s) →
    ∃ a fd, owner s a j ∧ sockets (net s) !! a = Some fd ∧ (0 < fd)%Z ∧ fd ∈ open_fds (net_os (net s))) ∧
  (∀ a i j, owner s a i → owner s a j → i = j) ∧
  (_listening s = true → _running s = false → ∃ s', run_begin s = (s', Some (Ok ())) ∧ _running s' = true ∧ net s' = net s).
Proof.
  cbn zeta. pose proof (run_server_ok backlog fuel ops _ (new_server_ok k)) as Hs.
  set (s := run_server backlog fuel ops (new_server k)) in *. split_and!.
  - apply (ok_running s Hs).
  - apply (base_ports s (ok_base s Hs)).
  - intros Hl j Hj. destruct (ok_listening s Hs Hl j Hj) as (a & fd & Ho & Ha & Hfd). exists a, fd.
    by destruct (net_valid _ (base_net s (ok_base s Hs)) a fd Ha).
  - apply (base_distinct s (ok_base s Hs)).
  - intros Hl Hr. unfold run_begin. rewrite co_get_bind, Hl, Hr. cbn [negb].
    set (s0 := MkServer (_listening s) true (_port_map s) (net s) (next_address s) (accept_loops s) (handed_over s) (stop_requested s)).
    change ((set_running true ≫= λ _, ?k) s) with (k s0).
    assert (srv_ok s0) as Hs0 by (apply flags_ok; [apply (ok_base s Hs)|done|apply (ok_listening s Hs)]).
    destruct (schedule_loops_run s0 Hs0 Hl) as [l E]. eexists. by rewrite E.
Qed.

(** C23.  Listening is all or nothing: either it returns and every port is bound,
    or it throws and no port has a socket.  The ports and their routers, the
    other sockets and the descriptors of others are as before. *)
Theorem listen_all_or_nothing {K} `{!SocketCalls K, !SocketLaws K} (backlog : Z) (fuel : nat) (ops : list server_op) (k : K)
    (idle : _listening (run_server backlog fuel ops (new_server k)) = false) :
  let s := run_server backlog fuel ops (new_server k) in
  ∃ s' y, server_listen backlog s = (s', Some y) ∧
    (y = Ok () ∧ _listening s' = true ∧ (∀ j, j < length (_port_map s) → bound s' j) ∨
     (∃ e, y = Throw e) ∧ _listening s' = false ∧ cleared s') ∧
    (λ '(port, e), (port, router e)) <$> _port_map s' = (λ '(port, e), (port, router e)) <$> _port_map s ∧
    (∀ a, is_Some (sockets (net s) !! a) → (∀ j, ¬ owner s a j) → sockets (net s') !! a = sockets (net s) !! a) ∧
    (∀ fd, unowned (net s) fd → unowned (net s') fd).
Proof.
  cbn zeta. pose proof (run_server_ok backlog fuel ops _ (new_server_ok k)) as Hs.
  set (s := run_server backlog fuel ops (new_server k)) in *.
  destruct (server_listen_run backlog s Hs idle) as (s' & y & E & [Hok Hout _ Hn Hso Hun]). exists s', y. split_and!; [done| |done..].
  destruct Hout as [[-> Hl]|(He & Hl & Hc)]; [left|by right]. split_and!; [done..|].
  intros j Hj. apply (ok_listening s' Hok Hl). apply (f_equal length) in Hn. rewrite !length_fmap in Hn. lia.
Qed.

Definition starts_running (o : server_op) : bool := match o with RunBegin => true | _ => false end.

(** [force_close] on a running server closes exactly the descriptors of its
    ports and leaves it ready to listen again.  On a server that listens but
    does not run it does nothing, [try_close] claims to have closed the
    sockets that are still bound, and only [run] has any effect. *)
Theorem server_closing {K} `{!SocketCalls K, !SocketLaws K} (backlog : Z) (fuel : nat) (ops : list server_op) (k : K) :
  let s := run_server backlog fuel ops (new_server k) in
  (_running s = true →
    ∃ s', force_close s = (s', Some (Ok ())) ∧ _listening s' = false ∧ _running s' = false ∧ stop_requested s' = true ∧ cleared s' ∧
      (∀ fd, fd ∈ open_fds (net_os (net s')) ↔
        fd ∈ open_fds (net_os (net s)) ∧ ¬ ∃ a j, owner s a j ∧ sockets (net s) !! a = Some fd) ∧
      (∀ a, (∀ j, ¬ owner s a j) → sockets (net s') !! a = sockets (net s) !! a)) ∧
  (_running s = false →
    force_close s = (s, Some (Ok ())) ∧
    (∀ count, (∀ r, count r = 0) → try_close count s = (s, Some (Ok true))) ∧
    (_listening s = true → ∀ later, forallb (λ o, negb (starts_running o)) later = true → run_server backlog fuel later s = s)).
Proof.
  cbn zeta. pose proof (run_server_ok backlog fuel ops _ (new_server_ok k)) as Hs.
  set (s := run_server backlog fuel ops (new_server k)) in *. clearbody s. split.
  - intros Hr. destruct (force_close_run s Hs Hr) as (s' & E & [_ (? & ? & ? & _) Hc _ Hso Hfd]). exists s'. split_and!; [done..|].
    intros a Hno. destruct (Hso a) as [[[j Ho] _]|[_ ?]]; [by destruct (Hno j)|done].
  - intros Hr. assert (force_close s = (s, Some (Ok ()))) as Hf by (unfold force_close; by rewrite co_get_bind, Hr). split_and!; [done|..].
    + intros count Hcount. unfold try_close. rewrite co_get_bind. replace (forallb _ (_port_map s)) with true.
      * unfold mbind, CO_bind. by rewrite Hf.
      * symmetry. apply forallb_forall. intros [p e] _. by rewrite bool_decide_true.
    + intros Hl later Hlater. induction later as [|o later IH]; [done|]. cbn [run_server foldl forallb] in *. bool_hyps.
      unfold run_server in *. cbn [foldl]. replace (server_step backlog fuel o s).1 with s; [by apply IH|]. symmetry.
      destruct o as [f port [r|]| |f| | |o|n]; cbn [server_step]; try done.
      * unfold attach_router. by rewrite co_get_bind, Hl.
      * unfold server_listen. by rewrite co_get_bind, Hl.
      * unfold try_close. unfold mbind at 1, CO_bind at 1. rewrite co_get_bind.
        destruct (forallb _ (_port_map s)); [|done]. unfold mbind, CO_bind. by rewrite Hf.
      * by rewrite Hf.
      * unfold run_end. cbn. by destruct s; cbn in *; subst.
      * rewrite co_get_bind. destruct (accept_loops s !! n) as [[r a]|]; [|done]. unfold accept_round. 
        unfold mbind at 1, CO_bind at 1. by rewrite co_get_bind, Hr.
Qed.

(** * Witnesses *)

Definition attach_ports (ports : list Z) : list server_op :=
  (λ p, Attach (λ _, Ok ()) p (Some 7)) <$> ports.

Lemma server_lifecycle_witness :
  let s := run_server 10 5 (attach_ports [80; 443]%Z ++ [ServerListen; RunBegin; AcceptRound 0]) (new_server (fresh_fake [] [2])) in
  _running s = true ∧ accept_loops s = [(7, 0); (7, 1)] ∧ (_running s = true → _listening s = true).
Proof.
  split; [by vm_compute|]. split; [by vm_compute|].
  apply (server_lifecycle 10 5 (attach_ports [80; 443]%Z ++ [ServerListen; RunBegin; AcceptRound 0]) (fresh_fake [] [2])).
Defined.

(** No address can be bound. *)
Lemma listen_all_or_nothing_witness :
  let s := run_server 10 5 (attach_ports [80; 443]%Z) (new_server (fresh_fake [] [0])) in
  (server_listen 10 s).2 = Some (throw Unavailable) ∧
  ∃ s' y, server_listen 10 s = (s', Some y) ∧
    (y = Ok () ∧ _listening s' = true ∧ (∀ j, j < length (_port_map s) → bound s' j) ∨
     (∃ e, y = Throw e) ∧ _listening s' = false ∧ cleared s').
Proof.
  split; [by vm_compute|].
  destruct (listen_all_or_nothing 10 5 (attach_ports [80; 443]%Z) (fresh_fake [] [0])) as (s' & y & E & H & _); [done|].
  exists s', y. exact (conj E H).
Defined.

(** The loop of the scheduler ended by itself: the server cannot be closed. *)
Lemma server_closing_witness :
  let s := run_server 10 5 (attach_ports [80]%Z ++ [ServerListen; RunBegin; RunEnd (Ok ())]) (new_server (fresh_fake [] [2])) in
  _listening s = true ∧ fake_open (net_os (net s)) = {[1; 2; 3]}%Z ∧ try_close (λ _, 0) s = (s, Some (Ok true)).
Proof.
  split; [by vm_compute|]. split; [apply (bool_decide_unpack _); by vm_compute|].
  by apply (server_closing 10 5 (attach_ports [80]%Z ++ [ServerListen; RunBegin; RunEnd (Ok ())]) (fresh_fake [] [2])).
Defined.
