(* ===== verification/Serving.v ===== *)
(** The parts of a server together: net/server over the interface of net/router,
    the two routers that implement it, and what becomes of the connections
    while the scheduler interleaves their coroutines. *)
From stdpp Require Import gmap.
From S2P Require Import Prelude Cxx Errors MountPath EndpointTrie HttpRequest CoReader HttpResponse Http Sessions TlsClient TlsStream Sockets Server.

(** * Routers *)

(** lw/net/router.h, [Router], as the server uses it.  [run] makes a coroutine
    that begins when it is first resumed; [resume] runs it on to where it lets
    others run, and [result_of] is what has come of it.  [counted] coroutines are
    those that the router's [connection_count] has in it. *)
Class Router (R Conn Task : Type) := {
  attach_routes : ST R ();
  connection_count : R → Z;
  run : Conn → Task;
  resume : Task → R → R * Task;
  counted : Task → bool;
  result_of : Task → option (res ());
  same_routes : R → R → Prop;
}.

(** What the server relies on: a coroutine is counted from its beginning on, and
    the only trace it leaves in the router is in the count. *)
Class RouterLaws (R Conn Task : Type) `{!Router R Conn Task} := {
  same_routes_equivalence :: Equivalence same_routes;
  run_uncounted c : counted (run c) = false;
  attach_counts x : connection_count (attach_routes x).1 = connection_count x;
  resume_counts t x : (0 ≤ connection_count x < 2 ^ 64)%Z →
    connection_count (resume t x).1 =
    wrap_u 64 (connection_count x + Z.b2z (counted (resume t x).2) - Z.b2z (counted t));
  resume_routes t x : same_routes x (resume t x).1;
  resume_proper t :: Proper (same_routes ==> eq) (λ x, (resume t x).2);
}.

(** ** The HTTP router *)

(** The coroutine of [HttpRouter::run]: before it begins, before a test of the
    loop, and at its end. *)
Inductive http_task {S : Type} :=
  | HttpCreated (conn : S)
  | HttpServing (conn : S)
  | HttpEnded (conn : S) (r : res ()).
Arguments http_task : clear implicits.

Section http_router.
Context (flags : reader_flags) `{RE : RegexEngine} {S : Type} `{CS : CoStream S}.
Context (initial_capacity : nat → nat) (grow : nat → nat → nat) (what : HttpRequest → str).
Context (registered : list (HttpHandlerFactory (S := S))).
Abbreviation HttpRouter := (HttpRouter (S := S)).

Definition count_by (d : Z) (router : HttpRouter) : HttpRouter :=
  MkRouter (_trie router) (wrap_u 64 (_connection_counter router + d)).

(** A task goes on by one round of the loop at a time: what is awaited within a
    round is of this connection only. *)
Definition http_resume (t : http_task S) (router : HttpRouter) : HttpRouter * http_task S :=
  match t with
  | HttpCreated conn => (count_by 1 router, HttpServing conn)
  | HttpServing conn =>
      if source_good conn then
        (router, match run_request flags initial_capacity grow what (_trie router) conn with
                 | (conn, Ok _) => HttpServing conn
                 | (conn, Throw (LwError _)) => HttpServing (if source_good conn then stream_close conn else conn)
                 | (conn, r) => HttpEnded conn r
                 end)
      else (count_by (-1) router, HttpEnded conn (Ok ()))
  | HttpEnded _ _ => (router, t)
  end.

Definition http_result (t : http_task S) : option (res ()) := if t is HttpEnded _ r then Some r else None.
Definition http_counted (t : http_task S) : bool :=
  match t with HttpCreated _ | HttpEnded _ (Ok _) => false | _ => true end.

#[export] Instance http_router : Router HttpRouter S (http_task S) := {|
  attach_routes := Http.attach_routes registered;
  connection_count := _connection_counter;
  run := HttpCreated;
  resume := http_resume;
  counted := http_counted;
  result_of := http_result;
  same_routes x y := _trie x = _trie y;
|}.

Lemma attach_routes_counter l : ∀ (router router' : HttpRouter) r,
  Http.attach_routes l router = (router', r) → _connection_counter router' = _connection_counter router.
Proof.
  induction l as [|f l IH]; intros router router' r; [by intros [= <- <-]|].
  unfold Http.attach_routes, for_each. cbn [foldr]. fold (for_each attach_route l). unfold mbind, ST_bind at 1.
  destruct (attach_route f router) as [router1 r1] eqn:E.
  assert (_connection_counter router1 = _connection_counter router) as Hc.
  { revert E. unfold attach_route, mbind, ST_bind, st_res, trie_insert. destruct (parse_endpoint _) as [ms|e|]; [|by intros [= <- <-]..].
    destruct (EndpointTrie.insert _ _ _ _) as [t r']. by intros [= <- <-]. }
  rewrite <- Hc. destruct r1 as [[]|e|]; [apply IH|by intros [= <- <-]..].
Qed.

#[export] Instance http_router_laws : RouterLaws HttpRouter S (http_task S).
Proof.
  split; cbn.
  - split; [done|by intros x y|by intros x y z -> ].
  - done.
  - intros x. destruct (Http.attach_routes registered x) as [x' r] eqn:E. by apply attach_routes_counter in E.
  - intros [c|c|c r] x Hx; cbn.
    + f_equal. lia.
    + destruct (source_good c); cbn.
      * destruct (run_request _ _ _ _ _ c) as [c' [[]|[]|]]; cbn; by rewrite wrap_u_small; lia.
      * f_equal. lia.
    + rewrite wrap_u_small; lia.
  - intros [c|c|c r] x; cbn; [done| |done]. by destruct (source_good c).
  - intros [c|c|c r] x y Hxy; cbn; [done| |done]. rewrite Hxy. by destruct (source_good c).
Qed.
End http_router.

(** ** The TLS router *)

(** lw/net/tls_router.h, [TLSRouter]: another router, and what makes TLS
    connections. *)
Record TLSRouter (R : Type) := MkTLSRouter { base_router : R; _tls_factory : TLSContextImpl }.
Arguments MkTLSRouter {R}.
Arguments base_router {R}.
Arguments _tls_factory {R}.

(** Its coroutine: before the handshake has ended, in the other router, and after
    an exception of the wrapping. *)
Inductive tls_task {C T : Type} :=
  | TlsWrapping (conn : C)
  | TlsRouted (task : T)
  | TlsEnded (r : res ()).
Arguments tls_task : clear implicits.

Section tls_router.
Context {K : Type} `{!OpenSSL K} {S : Type} `{CS : CoStream S} (size fuel : nat).
Context {R Task : Type} `{RM : Router R (TLSStream K S) Task}.
Abbreviation task := (tls_task (S * K) Task).

Definition on_base {A} (x : TLSRouter R) (p : R * A) : TLSRouter R * A := (MkTLSRouter p.1 (_tls_factory x), p.2).

Definition tls_resume (t : task) (x : TLSRouter R) : TLSRouter R * task :=
  match t with
  | TlsWrapping (conn, k) =>
      (x, match tls_wrap_connection size fuel (_tls_factory x) conn k with
          | None => t
          | Some (Ok conn) => TlsRouted (run conn)
          | Some (Throw e) => TlsEnded (Throw e)
          | Some Undef => TlsEnded Undef
          end)
  | TlsRouted t => let '(x', t') := resume t (base_router x) in (MkTLSRouter x' (_tls_factory x), TlsRouted t')
  | TlsEnded _ => (x, t)
  end.

Definition tls_attach_routes : ST (TLSRouter R) () := λ x, on_base x (attach_routes (base_router x)).
Definition tls_connection_count (x : TLSRouter R) : Z := connection_count (base_router x).
Definition tls_result (t : task) : option (res ()) :=
  match t with TlsWrapping _ => None | TlsRouted t => result_of t | TlsEnded r => Some r end.

#[export] Instance tls_router : Router (TLSRouter R) (S * K) task := {|
  attach_routes := tls_attach_routes;
  connection_count := tls_connection_count;
  run := TlsWrapping;
  resume := tls_resume;
  counted t := if t is TlsRouted t then counted t else false;
  result_of := tls_result;
  same_routes x y := same_routes (base_router x) (base_router y) ∧ _tls_factory x = _tls_factory y;
|}.

#[export] Instance tls_router_laws `{!RouterLaws R (TLSStream K S) Task} : RouterLaws (TLSRouter R) (S * K) task.
Proof.
  split; cbn.
  - split; [by intros x|by intros x y [-> ->]|]. intros x y z [-> ->] [-> ->]. done.
  - done.
  - intros x. apply attach_counts.
  - unfold tls_connection_count. intros [[c k]|t|r] x Hx; cbn.
    + destruct (tls_wrap_connection _ _ _ _ _) as [[c'|e|]|]; cbn; rewrite ?run_uncounted; by rewrite wrap_u_small; cbn; lia.
    + pose proof (resume_counts t (base_router x) Hx) as H. destruct (resume t (base_router x)) as [x' t']. exact H.
    + rewrite wrap_u_small; lia.
  - intros [[c k]|t|r] x; cbn; [done| |done]. pose proof (resume_routes t (base_router x)) as H.
    by destruct (resume t (base_router x)) as [x' t'].
  - intros [[c k]|t|r] x y [H E]; cbn; [by rewrite E| |done]. pose proof (resume_proper t _ _ H) as Hp. cbn in Hp.
    destruct (resume t (base_router x)) as [x' t'], (resume t (base_router y)) as [y' t'']. cbn in *. by rewrite Hp.
Qed.
End tls_router.

(** * The server and its connections *)

Section system.
Context {K : Type} `{!SocketCalls K} (backlog : Z) (fuel : nat).
Context {R Conn Task : Type} `{RM : Router R Conn Task}.
(** The connection on the socket at an address. *)
Context (peer : nat → Conn).

(** The server, the routers by their numbers, and the coroutines that were
    scheduled for the connections, each with the number of its router; they are
    as many as the server's [handed_over], in its order. *)
Record System := MkSystem { server : Server (K := K); routers : list R; tasks : list (nat * Task) }.

(** What happens: the server is used, it accepts, or a coroutine is resumed. *)
Inductive system_op : Set :=
  | SysAttach (port : Z) (router : nat)
  | SysListen | SysTryClose | SysForceClose | SysRunBegin | SysRunEnd (o : res ())
  | SysAccept (n : nat)
  | SysResume (i : nat).

(** What [connection_count] of a router says. *)
Definition count_at (y : System) (r : nat) : nat :=
  match routers y !! r with Some x => Z.to_nat (connection_count x) | None => 0 end.

(** An operation of the server; the connections it hands over are scheduled. *)
Definition on_server (o : server_op) (y : System) : System :=
  let s := (server_step backlog fuel o (server y)).1 in
  MkSystem s (routers y) (tasks y ++ ((λ '(r, c), (r, run (peer c))) <$> drop (length (handed_over (server y))) (handed_over s))).

(** A router's routes are attached when it got its port. *)
Definition attach_to (port : Z) (r : nat) (y : System) : System :=
  match routers y !! r with
  | None => y
  | Some x =>
      let y' := on_server (Attach (λ _, (attach_routes x).2) port (Some r)) y in
      if decide (length (_port_map (server y')) = length (_port_map (server y))) then y'
      else MkSystem (server y') (<[r := (attach_routes x).1]> (routers y')) (tasks y')
  end.

Definition resume_at (i : nat) (y : System) : System :=
  match tasks y !! i with
  | Some (r, t) =>
      match routers y !! r with
      | Some x => let '(x', t') := resume t x in MkSystem (server y) (<[r := x']> (routers y)) (<[i := (r, t')]> (tasks y))
      | None => y
      end
  | None => y
  end.

Definition system_step (y : System) (o : system_op) : System :=
  match o with
  | SysAttach port r => attach_to port r y
  | SysListen => on_server ServerListen y
  | SysTryClose => on_server (TryClose (count_at y)) y
  | SysForceClose => on_server ForceClose y
  | SysRunBegin => on_server RunBegin y
  | SysRunEnd o => on_server (RunEnd o) y
  | SysAccept n => on_server (AcceptRound n) y
  | SysResume i => resume_at i y
  end.
Definition run_system (l : list system_op) (y : System) : System := foldl system_step y l.

(** A server without ports, and routers that have been made. *)
Definition new_system (k : K) (xs : list R) : System := MkSystem (new_server k) xs [].
End system.
Arguments System : clear implicits.

(** ** Connections are handed over one after the other *)

Section handing.
Context {K : Type} `{!SocketCalls K} (backlog : Z) (fuel : nat).

(** A call after which what was handed over before still comes first. *)
Definition hands {A} (m : CO (Server (K := K)) A) : Prop := ∀ s s' x, m s = (s', x) → ∃ l, handed_over s' = handed_over s ++ l.

Lemma hands_bind {A C} (m : CO (Server (K := K)) A) (f : A → CO Server C) : hands m → (∀ a, hands (f a)) → hands (m ≫= f).
Proof.
  intros Hm Hf s s' x H. unfold mbind, CO_bind in H. destruct (m s) as [s1 y] eqn:E. destruct (Hm s s1 y E) as [l Hl].
  destruct y as [[a|e|]|]; [|injection H as <- <-; by exists l..]. destruct (Hf a s1 s' x H) as [l' Hl'].
  exists (l ++ l'). by rewrite Hl', Hl, app_assoc.
Qed.
Lemma hands_catch {A} (m : CO (Server (K := K)) A) h : hands m → (∀ e, hands (h e)) → hands (co_catch m h).
Proof.
  intros Hm Hh s s' x H. unfold co_catch in H. destruct (m s) as [s1 y] eqn:E. destruct (Hm s s1 y E) as [l Hl].
  destruct y as [[a|e|]|]; [by injection H as <- <-; exists l| |by injection H as <- <-; exists l..].
  destruct (Hh e s1 s' x H) as [l' Hl']. exists (l ++ l'). by rewrite Hl', Hl, app_assoc.
Qed.
Lemma hands_each f : (∀ i port e, hands (f i port e)) → hands (each_entry f).
Proof.
  intros Hf. apply hands_bind; [by intros s s' x [= <- <-]; exists []; rewrite app_nil_r|]. intros s.
  generalize (seq 0 (length (_port_map s))). intros l.
  induction l as [|i l IH]; cbn [co_for_each]; [by intros ??? [= <- <-]; exists []; rewrite app_nil_r|]. apply hands_bind; [|intros []; apply IH].
  apply hands_bind; [by intros ??? [= <- <-]; exists []; rewrite app_nil_r|]. intros s1.
  destruct (_port_map s1 !! i) as [[port e]|]; [apply Hf|by intros ??? [= <- <-]; exists []; rewrite app_nil_r].
Qed.
Lemma hands_net {A} (m : CO (Net K) A) : hands (on_net m).
Proof. intros s s' x. unfold on_net. destruct (m (net s)) as [w r]. intros [= <- <-]. exists []. by rewrite app_nil_r. Qed.
(** A step that is one update of the server's record. *)
Lemma hands_over c : hands (hand_over c).
Proof. intros s s' x [= <- <-]. by exists [c]. Qed.

Ltac keeps_hand := by intros ??? [= <- <-]; exists []; rewrite app_nil_r.
Ltac hand := repeat match goal with
  | |- hands (co_catch _ _) => apply hands_catch; [|intros ?]
  | |- hands (each_entry _) => apply hands_each; intros ???
  | |- hands (hand_over _) => apply hands_over
  | |- hands (on_net _) => apply hands_net
  | |- hands (_ ≫= _) => apply hands_bind; [|intros ?]
  | |- hands (match ?x with _ => _ end) => destruct x
  | _ => first [done | keeps_hand]
  end.

Lemma force_close_hands : hands (force_close (K := K)).
Proof. unfold force_close, close_entry, set_socket_at, open_at, reset. hand. Qed.

Lemma server_step_hands (o : server_op) s : ∃ l, handed_over (server_step (K := K) backlog fuel o s).1 = handed_over s ++ l.
Proof.
  assert (hands (server_step (K := K) backlog fuel o)) as H.
  { pose proof force_close_hands. destruct o; cbn [server_step].
    - unfold attach_router. hand.
    - unfold server_listen, listen_entry, release_entry, set_socket_at, open_at, reset. hand.
    - unfold try_close. hand.
    - done.
    - unfold run_begin, schedule_entry. hand.
    - unfold run_end. hand.
    - unfold accept_round. hand. }
  destruct (server_step backlog fuel o s) as [s' x] eqn:E. by apply H in E.
Qed.
End handing.

(** ** What the routers count *)

Section counting.
Context {K : Type} `{!SocketCalls K, !SocketLaws K} (backlog : Z) (fuel : nat).
Context {R Conn Task : Type} `{RL : RouterLaws R Conn Task} (peer : nat → Conn).
Implicit Types (y : System K R Task) (ts : list (nat * Task)).

(** The connections a router is handling. *)
Definition active (r : nat) ts : nat := length (filter (λ p, p.1 = r ∧ counted p.2 = true) ts).

Lemma active_app r ts ts' : active r (ts ++ ts') = active r ts + active r ts'.
Proof. unfold active. by rewrite filter_app, length_app. Qed.
Lemma active_cons r q t ts : active r ((q, t) :: ts) = (if decide (q = r) then Nat.b2n (counted t) else 0) + active r ts.
Proof.
  unfold active. rewrite filter_cons. cbn [fst snd]. destruct (decide (q = r)) as [->|Hq]; [destruct (counted t) eqn:E|].
  - by rewrite decide_True.
  - rewrite decide_False by (intros [_ ?]; congruence). done.
  - rewrite decide_False by (intros [? _]; congruence). done.
Qed.
Lemma active_new r (l : list (nat * nat)) : active r ((λ '(q, c), (q, run (peer c))) <$> l) = 0.
Proof. induction l as [|[q c] l IH]; [done|]. rewrite fmap_cons, active_cons, IH, run_uncounted. by case_decide. Qed.
Lemma active_insert r q ts i t t' : ts !! i = Some (q, t) →
  active r (<[i := (q, t')]> ts) + (if decide (q = r) then Nat.b2n (counted t) else 0) =
  active r ts + (if decide (q = r) then Nat.b2n (counted t') else 0).
Proof.
  intros Hi. rewrite insert_take_drop by (by eapply lookup_lt_Some). rewrite <- (take_drop_middle _ _ _ Hi) at 3.
  rewrite !active_app, !active_cons. lia.
Qed.

Record system_ok y : Prop := {
  sys_server : srv_ok (server y);
  sys_handed : (tasks y).*1 = (handed_over (server y)).*1;
  sys_counts r : match routers y !! r with
                 | Some x => connection_count x = wrap_u 64 (Z.of_nat (active r (tasks y)))
                 | None => active r (tasks y) = 0
                 end;
}.

Lemma on_server_ok o y : system_ok y → system_ok (on_server backlog fuel peer o y).
Proof.
  intros [Hs Hh Hc]. unfold on_server. destruct (server_step_hands backlog fuel o (server y)) as [l Hl].
  destruct (server_step backlog fuel o (server y)) as [s' x] eqn:E. cbn [fst] in *. rewrite Hl, drop_app_length. split; cbn [server routers tasks].
  - by eapply server_step_ok.
  - rewrite Hl, !fmap_app, Hh. f_equal. rewrite <- list_fmap_compose. apply list_fmap_ext. by intros i [q c].
  - intros r. rewrite active_app, active_new, Nat.add_0_r. apply Hc.
Qed.

Lemma routers_same y xs : system_ok y → (∀ r, connection_count <$> xs !! r = connection_count <$> routers y !! r) →
  system_ok (MkSystem (server y) xs (tasks y)).
Proof.
  intros [Hs Hh Hc] Hx. split; [done..|]. cbn [server routers tasks]. intros r. specialize (Hc r). specialize (Hx r).
  destruct (xs !! r), (routers y !! r); naive_solver congruence.
Qed.

Lemma resume_ok i y : system_ok y → system_ok (resume_at i y).
Proof.
  intros Hy. pose proof Hy as [Hs Hh Hc]. unfold resume_at. destruct (tasks y !! i) as [[q t]|] eqn:Hi; [|done].
  destruct (routers y !! q) as [x|] eqn:Hq; [|done]. pose proof (Hc q) as Hcq. rewrite Hq in Hcq.
  pose proof (resume_counts t x) as Hr. destruct (resume t x) as [x' t']. cbn [fst snd] in Hr. split; cbn [server routers tasks].
  - done.
  - rewrite <- Hh, list_fmap_insert. apply list_insert_id. by rewrite list_lookup_fmap, Hi.
  - intros r. pose proof (active_insert r q (tasks y) i t t' Hi) as Ha. destruct (decide (q = r)) as [->|Hne].
    + rewrite list_lookup_insert_eq by (by eapply lookup_lt_Some). rewrite Hr; [|rewrite Hcq; by apply wrap_u_range].
      rewrite Hcq. unfold wrap_u. rewrite <- Zminus_mod_idemp_l, Zplus_mod_idemp_l, Zminus_mod_idemp_l. f_equal.
      destruct (counted t), (counted t'); cbn in *; lia.
    + rewrite list_lookup_insert_ne by done. rewrite !Nat.add_0_r in Ha. rewrite Ha. apply Hc.
Qed.

Lemma attach_to_ok port r y : system_ok y → system_ok (attach_to backlog fuel peer port r y).
Proof.
  intros Hy. unfold attach_to. destruct (routers y !! r) as [x|] eqn:Hr; [|done].
  pose proof (on_server_ok (Attach (λ _, (attach_routes x).2) port (Some r)) y Hy) as Hy'. case_decide; [done|].
  change (routers y) with (routers (on_server backlog fuel peer (Attach (λ _, (attach_routes x).2) port (Some r)) y)) in Hr.
  revert Hy' Hr. generalize (on_server backlog fuel peer (Attach (λ _, (attach_routes x).2) port (Some r)) y). intros y' Hy' Hr.
  apply routers_same; [done|]. intros q. destruct (decide (q = r)) as [->|Hne]; [|by rewrite list_lookup_insert_ne].
  rewrite list_lookup_insert_eq by (by eapply lookup_lt_Some). rewrite Hr. cbn. f_equal. apply attach_counts.
Qed.

Lemma run_system_ok ops y : system_ok y → system_ok (run_system backlog fuel peer ops y).
Proof.
  revert y. induction ops as [|o ops IH]; intros y Hy; [done|]. apply IH.
  destruct o; cbn [system_step]; by (apply on_server_ok || apply attach_to_ok || apply resume_ok).
Qed.
Lemma new_system_ok k xs : Forall (λ x, connection_count x = 0%Z) xs → system_ok (new_system k xs).
Proof.
  intros Hx. split; [apply new_server_ok|done|]. cbn. intros r. destruct (xs !! r) as [x|] eqn:E; [|done].
  eapply Forall_lookup_1 in E; [|done]. by rewrite E.
Qed.

(** What is counted is right as long as it fits the counter. *)
Lemma count_active y : system_ok y → (Z.of_nat (length (tasks y)) < 2 ^ 64)%Z → ∀ r, count_at y r = active r (tasks y).
Proof.
  intros [_ _ Hc] Hl r. unfold count_at. specialize (Hc r). destruct (routers y !! r); [|done]. rewrite Hc.
  rewrite wrap_u_small; [lia|]. unfold active. pose proof (length_filter (λ p, p.1 = r ∧ counted p.2 = true) (tasks y)). lia.
Qed.
End counting.

(** ** Connections do not disturb each other *)

Section interleaving.
Context {K : Type} `{!SocketCalls K} (backlog : Z) (fuel : nat).
Context {R Conn Task : Type} `{RL : RouterLaws R Conn Task} (peer : nat → Conn).
Implicit Types (y : System K R Task) (ops : list system_op).

(** A coroutine resumed so many times, with nothing else going on. *)
Definition alone (x : R) (n : nat) (t : Task) : Task := Nat.iter n (λ t, (resume t x).2) t.
Fixpoint resumes (i : nat) ops : nat :=
  match ops with
  | [] => 0
  | SysResume j :: ops => (if decide (j = i) then 1 else 0) + resumes i ops
  | _ :: ops => resumes i ops
  end.
(** No routes are attached any more. *)
Definition steady ops : bool := forallb (λ o, if o is SysAttach _ _ then false else true) ops.

Lemma alone_next x n t : alone x n (resume t x).2 = alone x (S n) t.
Proof. unfold alone. by rewrite Nat.iter_succ_r. Qed.

Lemma on_server_task o y i p : tasks y !! i = Some p → tasks (on_server backlog fuel peer o y) !! i = Some p.
Proof. intros H. unfold on_server. cbn [tasks]. by apply lookup_app_l_Some. Qed.

(** One step leaves each router with its routes, and the coroutine that is
    resumed goes on as it would alone. *)
Lemma step_alone o y i r t x x0 :
  steady [o] = true → tasks y !! i = Some (r, t) → routers y !! r = Some x0 → same_routes x x0 →
  tasks (system_step backlog fuel peer y o) !! i = Some (r, alone x (resumes i [o]) t) ∧
  ∃ x1, routers (system_step backlog fuel peer y o) !! r = Some x1 ∧ same_routes x x1.
Proof.
  intros Ho Hi Hr Hx. destruct o as [port q| | | | | |n|j]; [done|..].
  1-6: cbn [system_step resumes]; split; [by apply on_server_task|by exists x0].
  cbn [system_step resumes]. rewrite Nat.add_0_r. unfold resume_at.
  destruct (decide (j = i)) as [->|Hne].
  - rewrite Hi, Hr. pose proof (resume_routes t x0) as Hs. pose proof (resume_proper t x x0 Hx) as Hp. cbn [alone Nat.iter] in *.
    unfold alone. cbn. cbn in Hp. rewrite Hp. destruct (resume t x0) as [x1 t1]. cbn [tasks routers snd fst] in *. split.
    + by rewrite list_lookup_insert_eq by (by eapply lookup_lt_Some).
    + exists x1. rewrite list_lookup_insert_eq by (by eapply lookup_lt_Some). split; [done|]. by rewrite Hx.
  - destruct (tasks y !! j) as [[q u]|] eqn:Hj; [|by eauto]. destruct (routers y !! q) as [z|] eqn:Hq; [|by eauto].
    pose proof (resume_routes u z) as Hs. destruct (resume u z) as [z1 u1]. cbn [tasks routers fst] in *. split.
    + by rewrite list_lookup_insert_ne.
    + destruct (decide (q = r)) as [->|Hqr].
      * exists z1. rewrite list_lookup_insert_eq by (by eapply lookup_lt_Some). split; [done|]. rewrite Hq in Hr. injection Hr as ->. by rewrite Hx.
      * exists x0. by rewrite list_lookup_insert_ne.
Qed.

Lemma runs_alone ops : ∀ y i r t x x0,
  steady ops = true → tasks y !! i = Some (r, t) → routers y !! r = Some x0 → same_routes x x0 →
  tasks (run_system backlog fuel peer ops y) !! i = Some (r, alone x (resumes i ops) t).
Proof.
  induction ops as [|o ops IH]; intros y i r t x x0 Ho Hi Hr Hx; [done|].
  change (o :: ops) with ([o] ++ ops) in Ho. unfold steady in Ho. rewrite forallb_app in Ho. apply andb_prop in Ho as [Ho Hops].
  destruct (step_alone o y i r t x x0 Ho Hi Hr Hx) as (Ht & x1 & Hr1 & Hx1).
  change (run_system backlog fuel peer (o :: ops) y) with (run_system backlog fuel peer ops (system_step backlog fuel peer y o)).
  rewrite (IH _ _ _ _ _ _ Hops Ht Hr1 Hx1). f_equal. f_equal. unfold alone. rewrite <- Nat.iter_add. f_equal.
  destruct o; cbn [resumes]; lia.
Qed.
End interleaving.

(** ** Sessions among others *)

Section http_alone.
Context (flags : reader_flags) `{RE : RegexEngine} {S : Type} `{CS : CoStream S}.
Context (initial_capacity : nat → nat) (grow : nat → nat → nat) (what : HttpRequest → str).
Context (registered : list (HttpHandlerFactory (S := S))).
#[local] Instance the_router : Router HttpRouter S (http_task S) := http_router flags initial_capacity grow what registered.
Implicit Types x : HttpRouter (S := S).

Lemma ended_alone x n c r : alone x n (HttpEnded c r) = HttpEnded c r.
Proof. induction n as [|n IH]; [done|]. by rewrite <- alone_next. Qed.

(** The coroutine does what [serve] does. *)
Lemma serve_alone x n : ∀ conn conn' r m,
  serve flags initial_capacity grow what n (_trie x) conn = Some (conn', r) → n < m →
  alone x m (HttpServing conn) = HttpEnded conn' r.
Proof.
  induction n as [|n IH]; intros conn conn' r m E Hm; (destruct m as [|m]; [lia|]); cbn [serve] in E; rewrite <- alone_next; cbn;
    (destruct (source_good conn) eqn:Hg; [|injection E as <- <-; apply ended_alone]); [done|].
  destruct (run_request flags initial_capacity grow what (_trie x) conn) as [c [[]|[]|]]; cbn;
    first [by apply IH; [|lia]|injection E as <- <-; apply ended_alone].
Qed.
Lemma created_alone x n conn conn' r m :
  serve flags initial_capacity grow what n (_trie x) conn = Some (conn', r) → n + 1 < m →
  alone x m (HttpCreated conn) = HttpEnded conn' r.
Proof. intros E Hm. destruct m as [|m]; [lia|]. rewrite <- alone_next. cbn. apply (serve_alone x n); [done|lia]. Qed.

(** What has escaped from the loop stays counted. *)
Lemma escaped_counts x n c e : counted (alone x n (HttpEnded c (Throw e))) = true.
Proof. by rewrite ended_alone. Qed.
End http_alone.

Section tls_alone.
Context {K : Type} `{!OpenSSL K} {S : Type} `{CS : CoStream S} (size fuel : nat).
Context {R Task : Type} `{RM : Router R (TLSStream K S) Task}.
#[local] Instance the_tls_router : Router (TLSRouter R) (S * K) (tls_task (S * K) Task) := tls_router size fuel.

Lemma routed_alone (x : TLSRouter R) n t : alone x n (TlsRouted t) = TlsRouted (alone (base_router x) n t).
Proof.
  revert t. induction n as [|n IH]; intros t; [done|]. rewrite <- !alone_next. cbn.
  destruct (resume t (base_router x)) as [x' t'] eqn:E. cbn. by rewrite IH.
Qed.
Lemma wrapped_alone (x : TLSRouter R) n conn k t :
  tls_wrap_connection size fuel (_tls_factory x) conn k = Some (Ok t) →
  alone x (Datatypes.S n) (TlsWrapping (conn, k)) = TlsRouted (alone (base_router x) n (run t)).
Proof. intros E. rewrite <- alone_next. cbn. by rewrite E, routed_alone. Qed.
End tls_alone.

(** * Properties *)




(** * A server with two connections *)

#[local] Existing Instance literal_engine.
Definition demo_router : Router (HttpRouter (S := Wire)) Wire (http_task Wire) :=
  http_router wire_flags (λ _, 15) Nat.max (λ _, B "malformed") both_routes.
#[local] Existing Instance demo_router.
Definition demo_laws : RouterLaws (HttpRouter (S := Wire)) Wire (http_task Wire) :=
  http_router_laws wire_flags (λ _, 15) Nat.max (λ _, B "malformed") both_routes.
#[local] Existing Instance demo_laws.
Definition demo_peer (_ : nat) : Wire := MkWire (concat pieces) [] true.
Definition DemoSystem : Type := System fake (HttpRouter (S := Wire)) (http_task Wire).
Definition run_demo : list system_op → DemoSystem → DemoSystem :=
  run_system 10 5 demo_peer.
Definition demo_start : DemoSystem := new_system (fresh_fake [] [2]) [make_router].
(** Two clients have connected. *)
Definition demo_setup : list system_op := [SysAttach 80 0; SysListen; SysRunBegin; SysAccept 0; SysAccept 0].
Definition by_turns : list system_op := concat (replicate 6 [SysResume 1; SysResume 0; SysTryClose]).


(** Only attaching changes the routers. *)
Lemma demo_ready :
  tasks (run_demo demo_setup demo_start) !! 1 = Some (0, HttpCreated (MkWire (concat pieces) [] true)) ∧
  routers (run_demo demo_setup demo_start) !! 0 = Some both.
Proof.
  split; [vm_compute; reflexivity|]. unfold run_demo, run_system, demo_setup. cbn [foldl system_step on_server routers].
  unfold attach_to. change (routers demo_start !! 0) with (Some (make_router (S := Wire))). cbv iota beta.
  rewrite decide_False by (vm_compute; discriminate). cbn [on_server routers demo_start new_system].
  rewrite list_lookup_insert_eq by (cbn; lia). unfold both, attach_routes, demo_router, http_router. done.
Qed.


(** ** Behaviour a caller would not expect *)

(** A connection that was accepted and whose coroutine has not begun is not
    counted: the server is closed, and its scheduler stopped, although two clients
    wait for it. *)
Lemma waiting_clients_abandoned :
  let y := run_demo (demo_setup ++ [SysTryClose]) demo_start in
  length (tasks y) = 2 ∧ _running (server y) = false ∧ stop_requested (server y) = true.
Proof. by vm_compute. Qed.

(** A router on two ports: its routes are attached twice, which throws, and by
    then the second port is in the map. *)
Lemma second_port_throws :
  let y := run_demo [SysAttach 80 0] demo_start in
  match routers y !! 0 with
  | Some x => let '(s, r) := attach_router (λ _, (attach_routes x).2) 443 (Some 0) (server y) in
      (_port_map s).*1 = [80; 443]%Z ∧ r = Some (throw AlreadyExists)
  | None => False
  end.
Proof. by vm_compute. Qed.

(** Closing leaves the connections alone: their coroutines are neither ended nor
    is anything done to what they serve. *)
Lemma force_close_keeps_connections {K} `{!SocketCalls K, !SocketLaws K} backlog fuel {R Conn Task} `{!Router R Conn Task} (peer : nat → Conn)
    (y : System K R Task) : srv_ok (server y) → tasks (system_step backlog fuel peer y SysForceClose) = tasks y.
Proof.
  intros Hs. cbn [system_step on_server tasks server_step]. destruct (_running (server y)) eqn:Hr.
  - destruct (force_close_run (server y) Hs Hr) as (s' & -> & Hc). destruct (cr_flags _ _ Hc) as (_ & _ & _ & _ & Hh). cbn [fst].
    by rewrite Hh, drop_ge, app_nil_r.
  - unfold force_close. rewrite co_get_bind, Hr. cbn [fst mret CO_ret]. by rewrite drop_ge, app_nil_r.
Qed.

(** * A server with a TLS router *)

Definition tls_hello : str := get_request (B "/hi") (B "close").
Definition tls_client_side : Pipe := MkPipe (B "H" ++ mock_encode tls_hello) 1 [] true.
Definition tls_wrapped : TLSStream mock Pipe :=
  match tls_wrap_connection 1024 1000 mock_context tls_client_side new_mock with Some (Ok t) => t | _ => fresh_tls [] 0 end.

Definition tls_demo_router : Router (TLSRouter (HttpRouter (S := TLSStream mock Pipe))) (Pipe * mock)
    (tls_task (Pipe * mock) (http_task (TLSStream mock Pipe))) :=
  tls_router 1024 1000 (RM := http_router (CS := tls_stream 1024) wire_flags (λ _, 15) Nat.max (λ _, B "malformed") []).
#[local] Existing Instance tls_demo_router.
Definition TlsDemo : Type :=
  System fake (TLSRouter (HttpRouter (S := TLSStream mock Pipe))) (tls_task (Pipe * mock) (http_task (TLSStream mock Pipe))).
Definition run_tls_demo : list system_op → TlsDemo → TlsDemo := run_system 10 5 (λ _, (tls_client_side, new_mock)).
Definition tls_demo : TlsDemo :=
  run_tls_demo [SysAttach 443 0; SysListen; SysRunBegin; SysAccept 0; SysAccept 0]
    (new_system (fresh_fake [] [2]) [MkTLSRouter no_router mock_context]).
Definition CLOSE : str * str := (B "Connection", B "close").
Definition not_found_text : str := response_text (B "Not Found") (respond_failure 404 (B "Not Found.") make_response).
(** The connection when the request has arrived, and after the response. *)
Definition tls_arrived : TLSStream mock Pipe :=
  match gather 100 (read_block_size wire_flags) (length tls_hello) tls_wrapped with Some (t, _) => t | None => tls_wrapped end.
Definition tls_written : TLSStream mock Pipe := (stream_write (CoStream := tls_stream 1024) not_found_text tls_arrived).1.

Lemma tls_hello_answered :
  ∃ req, answered (λ _, B "malformed") [] no_router tls_arrived tls_hello [] req
    (respond_failure 404 (B "Not Found.") make_response) ∧ keep_alive req = false.
Proof.
  eexists. split.
  - assert (tls_hello = request_text (B "GET") (B "/hi") (B "HTTP/1.1") None [CLOSE]) as -> by by vm_compute.
    eapply (answered_not_found _ _ _ _ (B "GET") (B "/hi") (B "HTTP/1.1") None [CLOSE] 0);
      [done| |by vm_compute|reflexivity|reflexivity].
    apply Forall_singleton. split_and!; [done|done|by intros c [= <-]].
  - by vm_compute.
Qed.

Lemma tls_session :
  session (CS := tls_stream 1024) wire_flags (λ _, B "malformed") [] no_router tls_wrapped [(tls_hello, not_found_text)] (tls_close tls_written).
Proof.
  destruct tls_hello_answered as (req & Ha & Hk). rewrite <- (app_nil_r tls_hello) at 1.
  eapply session_turn; [|rewrite app_nil_r; apply (gather_arrives 100)|exact Ha|reflexivity| |].
  - apply Nat.leb_le. by vm_compute.
  - by vm_compute.
  - by vm_compute.
  - unfold finished. rewrite Hk. by constructor.
Qed.

