(* ===== verification/EchoServer.v ===== *)
(** examples/echo_server.cpp: the program around the handler of [Sessions], from
    the flags to the exit code, over lw/base/init, the TLS contexts and
    lw/net/server. *)
From stdpp Require Import gmap.
From S2P Require Import Prelude Cxx Errors Flags MountPath EndpointTrie HttpRequest CoReader HttpResponse Http Sessions TlsClient Sockets Server.

(** * Stopping a server *)

Section destroying.
Context {K : Type} `{!SocketCalls K, !SocketLaws K}.
Implicit Types s : Server (K := K).

(** The sockets of the ports are gone and their descriptors closed; no other
    descriptor is. *)
Record released s s' : Prop := {
  rel_cleared : cleared s';
  rel_fds fd : fd ≠ 0%Z → fd ∈ open_fds (net_os (net s')) ↔
    fd ∈ open_fds (net_os (net s)) ∧ ¬ ∃ a j, owner s a j ∧ sockets (net s) !! a = Some fd;
}.

Lemma release_all_run s : srv_ok s → ∃ s', each_entry release_entry s = (s', Some (Ok ())) ∧ released s s'.
Proof.
  intros Hs. destruct (each_entry release_entry s) as [s' x] eqn:E.
  destruct (drop_all release_entry s s' x (ok_base s Hs)) as [-> Hd]; [|exact E|].
  { intros i port e s1 Hd Hi. apply release_entry_run; [by eapply dropped_base|done]. }
  exists s'. split; [done|]. split; [by eapply dropped_cleared|]. intros fd Hfd. rewrite (dropped_fds _ _ _ Hd). split; intros [Hin H]; (split; [done|]).
  - intros (a & j & Ho & Ha). apply Hfd. eapply H; [|exact Ho|exact Ha]. destruct Ho as (port & e & Hj & _). by eapply lookup_lt_Some.
  - intros j a _ Ho Ha. destruct H. by exists a, j.
Qed.

Lemma destroy_server_closed count s s1 : force_close s = (s1, Some (Ok ())) → destroy_server count s = each_entry release_entry s1.
Proof.
  intros E. unfold destroy_server, try_close, mbind, CO_bind, co_get.
  destruct (forallb _ (_port_map s)); cbn -[each_entry force_close release_entry]; by rewrite E.
Qed.

Lemma destroy_server_run count s : srv_ok s → ∃ s', destroy_server count s = (s', Some (Ok ())) ∧ released s s'.
Proof.
  intros Hs. destruct (_running s) eqn:Hr.
  - destruct (force_close_run s Hs Hr) as (s1 & E & Hc). destruct (release_all_run s1 (cr_ok _ _ Hc)) as (s' & E' & Hrel).
    rewrite (destroy_server_closed count s s1 E), E'. exists s'. split; [done|]. split; [apply (rel_cleared _ _ Hrel)|].
    intros fd Hfd. rewrite (rel_fds _ _ Hrel fd Hfd), (cr_fds _ _ Hc). split; [tauto|].
    intros [Hin Hno]. split; [done|]. intros (a & j & Ho & _). by destruct (cr_cleared _ _ Hc a j).
  - rewrite (destroy_server_closed count s s) by (unfold force_close; by rewrite co_get_bind, Hr). by apply release_all_run.
Qed.
End destroying.

(** * The program *)

Section program.
Context {V : Type} (std_hash : str → Z) {K : Type} `{!SocketCalls K} (backlog : Z) (fuel : nat) {L : Type} `{!OpenSSL L}.
(** The flags [--help], [--port], [--tls-cert-path] and [--tls-key-path]. *)
Context (help : flag_map (V := V) → bool) (port : flag_map (V := V) → Z) (tls_cert_path tls_key_path : flag_map (V := V) → str).
(** The connections of the two routers, and what they count. *)
Context (reading : reader_flags) `{RE : RegexEngine} {C : Type} `{CS : CoStream C} {D : Type} `{DS : CoStream D} (connection_count : nat → nat).
(** What happens while the scheduler runs, in the server and in the library, and
    how it ends, if it does. *)
Context (events : list server_op) (library_use : L → L) (ends : option (res ())).

(** [Server::run]. *)
Definition server_run : CO (Server (K := K)) () :=
  run_begin ≫= λ _, (λ s, (run_server backlog fuel events s, Some (Ok ()))) ≫= λ _,
  match ends with None => suspended | Some r => run_end r end.

(** The router: that of HTTPS has a context. *)
Definition choose_router (flags : flag_map (V := V)) : ST L (option TLSContextImpl) :=
  if decide (tls_cert_path flags ≠ [] ∧ tls_key_path flags ≠ [])
  then c ← from_options (MkTLSOptions (tls_key_path flags) (tls_cert_path flags) ACCEPT); mret (Some c)
  else mret None.

(** [attach_routes] of either: the one route that is registered. *)
Definition echo_attach_routes (router : option TLSContextImpl) : res () :=
  match router with
  | None => (attach_routes [echo_factory reading] (make_router (S := C))).2
  | Some _ => (attach_routes [echo_factory reading] (make_router (S := D))).2
  end.

(** The part of [main] that uses the server; the router is number 0. *)
Definition serve_port (flags : flag_map (V := V)) (router : option TLSContextImpl) : CO (Server (K := K)) () :=
  attach_router (λ _, echo_attach_routes router) (port flags) (Some 0) ≫= λ _, server_listen backlog ≫= λ _, server_run.

(** [catch (const std::runtime_error&)]. *)
Definition is_runtime_error (e : exn) : bool := match e with LwError _ | StdRegexError => true | _ => false end.
Definition exit_code (r : res Z) : res Z :=
  match r with Throw e => if is_runtime_error e then Ok (-1)%Z else Throw e | r => r end.

(** The program's state: the arguments, OpenSSL, and the server. *)
Record Program := MkProgram { arguments : init_state (V := V); openssl : L; served : Server (K := K) }.

(** The server is destroyed when the [try] is left and the router after it; both stay when an
    exception goes on to [std::terminate]. *)
Definition leave (p : Program) (router : option TLSContextImpl) (r : res Z) : Program * option (res Z) :=
  match exit_code r with
  | Ok code =>
      let l := match router with Some c => (destroy_context c (openssl p)).1 | None => openssl p end in
      match destroy_server connection_count (served p) with
      | (s, Some (Ok _)) => (MkProgram (arguments p) l s, Some (Ok code))
      | (s, Some (Throw e)) => (MkProgram (arguments p) l s, Some (Throw e))
      | (s, Some Undef) => (MkProgram (arguments p) l s, Some Undef)
      | (s, None) => (MkProgram (arguments p) l s, None)
      end
  | r => (p, Some r)
  end.

Definition main (args : init_state (V := V)) (l : L) (k : K) : Program * option (res Z) :=
  match init std_hash help args with
  | (args, Ok (false, _)) => (MkProgram args l (new_server k), Some (Ok 0%Z))
  | (args, Throw e) => (MkProgram args l (new_server k), Some (exit_code (Throw e)))
  | (args, Undef) => (MkProgram args l (new_server k), Some Undef)
  | (args, Ok (true, _)) =>
      match choose_router (registry args) l with
      | (l, Throw e) => leave (MkProgram args l (new_server k)) None (Throw e)
      | (l, Undef) => (MkProgram args l (new_server k), Some Undef)
      | (l, Ok router) =>
          match serve_port (registry args) router (new_server k) with
          | (s, Some (Ok _)) => leave (MkProgram args (library_use l) s) router (Ok 0%Z)
          | (s, Some (Throw e)) => leave (MkProgram args (library_use l) s) router (Throw e)
          | (s, Some Undef) => (MkProgram args (library_use l) s, Some Undef)
          | (s, None) => (MkProgram args (library_use l) s, None)
          end
      end
  end.
End program.

(** * How it ends *)

Lemma echo_attaches (reading : reader_flags) `{RE : RegexEngine} {C : Type} `{CS : CoStream C} :
  (attach_routes [echo_factory reading] (make_router (S := C))).2 = Ok ().
Proof. reflexivity. Qed.

Section outcome.
Context {K : Type} `{!SocketCalls K, !SocketLaws K} (backlog : Z) (fuel : nat).
Implicit Types s : Server (K := K).

(** The server with its one port. *)
Definition one_port (port : Z) (k : K) : Server (K := K) :=
  MkServer false false [(port, MkRouterSocket 0 None)] (MkNet ∅ k) 0 [] [] false.

Lemma one_port_ok port k : srv_ok (one_port port k).
Proof.
  destruct (attach_router (λ _, Ok ()) port (Some 0) (new_server k)) as [s x] eqn:E.
  pose proof (attach_ok _ _ _ _ _ _ (new_server_ok k) E) as H. unfold attach_router in E. rewrite co_get_bind in E. cbn in E.
  by injection E as <- _.
Qed.

Lemma run_begin_run s : srv_ok s → _listening s = true → _running s = false →
  ∃ loops, run_begin s =
    (MkServer true true (_port_map s) (net s) (next_address s) loops (handed_over s) (stop_requested s), Some (Ok ())).
Proof.
  intros Hs Hl Hr. unfold run_begin. rewrite co_get_bind, Hl, Hr. cbn [negb].
  set (s0 := MkServer true true (_port_map s) (net s) (next_address s) (accept_loops s) (handed_over s) (stop_requested s)).
  change ((set_running true ≫= λ _, ?k) s) with (k (MkServer (_listening s) true (_port_map s) (net s) (next_address s) (accept_loops s) (handed_over s) (stop_requested s))).
  rewrite Hl. fold s0. destruct (schedule_loops_run s0) as [l E]; [|done|exists l; by rewrite E].
  apply flags_ok; [apply (ok_base s Hs)|done|]. intros _. by apply (ok_listening s Hs).
Qed.

(** Descriptors that are no socket's: no operation of the server closes them. *)
Definition foreign s (fd : Z) : Prop := fd ≠ 0%Z ∧ unowned (net s) fd.

Lemma force_close_foreign s s' x fd : srv_ok s → force_close s = (s', x) → foreign s fd → foreign s' fd.
Proof.
  intros Hs H [Hz [Hin Hun]]. destruct (_running s) eqn:Hr.
  - destruct (force_close_run s Hs Hr) as (s1 & E & Hc). rewrite E in H. injection H as <- _. split; [done|]. split.
    + apply (cr_fds _ _ Hc). split; [done|]. intros (a & j & _ & Ha). by apply Hz, (Hun a).
    + intros a Ha. destruct (cr_sockets _ _ Hc a) as [[_ ?]|[_ E2]]; [congruence|]. rewrite E2 in Ha. by apply (Hun a).
  - unfold force_close in H. rewrite co_get_bind, Hr in H. by injection H as <- _.
Qed.

Lemma accept_round_net r a s s' x : srv_ok s → accept_round fuel r a s = (s', x) →
  s' = s ∨ ∃ z, (on_socket a (accept fuel) ≫= λ fd, construct (next_address s) fd) (net s) = (net s', z).
Proof.
  intros Hs H. unfold accept_round in H. rewrite co_get_bind in H. destruct (_running s); [right|left; by injection H as <- _].
  unfold on_net, mbind at 1, CO_bind at 1 in H. unfold mbind, CO_bind. destruct (on_socket a (accept fuel) (net s)) as [w y] eqn:E.
  pose proof (on_accept_sockets fuel a _ _ _ (base_net s (ok_base s Hs)) E) as Hw.
  destruct y as [[fd|e|]|]; [|injection H as <- _; by eexists..].
  unfold construct. rewrite co_get_bind, Hw, (fresh_none s _ (ok_base s Hs) (le_n _)). rewrite decide_False by (by intros []).
  injection H as <- _. by eexists.
Qed.

Lemma server_step_foreign o s s' x fd : srv_ok s → server_step backlog fuel o s = (s', x) → foreign s fd → foreign s' fd.
Proof.
  intros Hs H Hf. destruct o as [f port [r|]| |f| | |o|n]; cbn [server_step] in H.
  - unfold attach_router in H. rewrite co_get_bind in H. destruct (_listening s); [by injection H as <- _|].
    case_decide; by injection H as <- _.
  - by injection H as <- _.
  - destruct (_listening s) eqn:Hl.
    + unfold server_listen in H. rewrite co_get_bind, Hl in H. by injection H as <- _.
    + destruct (server_listen_run backlog s Hs Hl) as (s1 & y & E & Hlr). rewrite E in H. injection H as <- _.
      destruct Hf. split; [done|]. by apply (lr_unowned _ _ _ Hlr).
  - unfold try_close, mbind at 1, CO_bind at 1 in H. rewrite co_get_bind in H. destruct (forallb _ _); [|by injection H as <- _].
    unfold mbind, CO_bind in H. destruct (force_close s) as [s1 y] eqn:E. pose proof (force_close_foreign s s1 y fd Hs E Hf).
    by destruct y as [[[]|e|]|]; injection H as <- _.
  - by eapply force_close_foreign.
  - destruct (_listening s) eqn:Hl; [|unfold run_begin in H; rewrite co_get_bind, Hl in H; by injection H as <- _].
    destruct (_running s) eqn:Hr; [unfold run_begin in H; rewrite co_get_bind, Hl, Hr in H; by injection H as <- _|].
    destruct (run_begin_run s Hs Hl Hr) as [l E]. rewrite E in H. by injection H as <- _.
  - by injection H as <- _.
  - rewrite co_get_bind in H. destruct (accept_loops s !! n) as [[r a]|]; [|by injection H as <- _].
    unfold mbind, CO_bind in H. destruct (accept_round fuel r a s) as [s1 y] eqn:E.
    assert (foreign s1 fd) as Hf1.
    { destruct (accept_round_net r a s s1 y Hs E) as [->|[z Ez]]; [done|]. destruct Hf as [Hz Hun]. split; [done|].
      apply (accept_careful fuel a _ _ _ _ (base_net s (ok_base s Hs)) (fresh_none s _ (ok_base s Hs) (le_n _)) Ez). done. }
    by destruct y as [[[]|e|]|]; injection H as <- _.
Qed.
Lemma run_server_foreign l s fd : srv_ok s → foreign s fd → foreign (run_server backlog fuel l s) fd.
Proof.
  revert s. induction l as [|o l IH]; intros s Hs Hf; [done|]. cbn. destruct (server_step backlog fuel o s) as [s1 x] eqn:E.
  apply IH; [by eapply server_step_ok|by eapply server_step_foreign].
Qed.

Lemma foreign_initial port k fd : fd ≠ 0%Z → fd ∈ open_fds k → foreign (one_port port k) fd.
Proof. intros Hz Hfd. split; [done|]. split; [done|]. intros a. cbn. by rewrite lookup_empty. Qed.

(** Destroying the server after any use of it. *)
Lemma released_foreign s s' fd : released s s' → foreign s fd → fd ∈ open_fds (net_os (net s')).
Proof.
  intros Hrel [Hz [Hin Hun]]. apply (rel_fds _ _ Hrel fd Hz). split; [done|]. intros (a & j & _ & Ha). by apply Hz, (Hun a).
Qed.

(** [Server::run] on a server that listens: it runs until the scheduler stops. *)
Lemma server_run_listening events ends s : srv_ok s → _listening s = true → _running s = false →
  let s' := (server_run backlog fuel events ends s).1 in
  (server_run backlog fuel events ends s).2 = ends ∧ srv_ok s' ∧ (∀ fd, foreign s fd → foreign s' fd) ∧
  ∃ s2, run_begin s = (s2, Some (Ok ())) ∧ _running s2 = true ∧ net s2 = net s ∧ (ends = None → s' = run_server backlog fuel events s2).
Proof.
  intros Hs Hl Hr. destruct (run_begin_run s Hs Hl Hr) as [l E]. set (s2 := MkServer true true _ _ _ l _ _) in E.
  pose proof (run_begin_ok s _ _ Hs E) as Hs2. pose proof (run_server_ok backlog fuel events s2 Hs2) as Hs3.
  assert (∀ fd, foreign s fd → foreign (run_server backlog fuel events s2) fd) as Hf by (intros fd ?; by apply run_server_foreign).
  assert (server_run backlog fuel events ends s =
    match ends with None => (run_server backlog fuel events s2, None) | Some r => run_end r (run_server backlog fuel events s2) end) as ->.
  { unfold server_run, mbind, CO_bind. rewrite E. by destruct ends. }
  destruct ends as [r|]; cbn [fst snd].
  - destruct (run_end r _) as [s4 x] eqn:E4. unfold run_end in E4. pose proof E4 as E5. injection E5 as <- <-. split_and!; [done| | |].
    + by apply (server_step_ok backlog fuel (RunEnd r) _ _ _ Hs3 E4).
    + intros fd H. by apply (server_step_foreign (RunEnd r) _ _ _ fd Hs3 E4), Hf.
    + by exists s2.
  - split_and!; [done..|]. by exists s2.
Qed.
End outcome.

Section program_parts.
Context {V : Type} {K : Type} `{!SocketCalls K, !SocketLaws K} (backlog : Z) (fuel : nat) {L : Type} `{!OpenSSL L, !OpenSSLHandles L}.
Context (port : flag_map (V := V) → Z) (tls_cert_path tls_key_path : flag_map (V := V) → str).

Lemma leave_result count (p : Program) router r : srv_ok (served p) →
  let '(p', x) := leave (V := V) (K := K) (L := L) count p router r in
  x = Some (exit_code r) ∧
  ∀ code, x = Some (Ok code) → released (served p) (served p') ∧
    openssl p' = match router with Some c => SSL_CTX_free (_context c) (openssl p) | None => openssl p end.
Proof.
  intros Hs. unfold leave. destruct (exit_code r) as [code|e|]; [|by split..].
  destruct (destroy_server_run count (served p) Hs) as (s' & -> & Hrel). split; [done|]. intros c _. split; [done|]. by destruct router.
Qed.

Lemma choose_router_live flags l :
  match choose_router (V := V) tls_cert_path tls_key_path flags l with
  | (l', Ok (Some c)) => (_context c ∉ live l) ∧ live l' = {[_context c]} ∪ live l
  | (l', Ok None) => l' = l
  | (l', Throw _) => live l' = live l
  | (_, Undef) => False
  end.
Proof.
  unfold choose_router. case_decide; [|done].
  pose proof (from_options_hands_over (MkTLSOptions (tls_key_path flags) (tls_cert_path flags) ACCEPT) l) as Ho.
  unfold mbind, ST_bind. by destruct (from_options _ l) as [l' [c|e|]].
Qed.

Lemma serve_port_run reading `{RE : RegexEngine} {C} `{CS : CoStream C} {D} `{DS : CoStream D} events ends flags router (k : K) :
  serve_port backlog fuel port reading (C := C) (D := D) events ends flags router (new_server k) =
  (server_listen backlog ≫= λ _, server_run backlog fuel events ends) (one_port (port flags) k).
Proof.
  unfold serve_port. assert (echo_attach_routes (C := C) (D := D) reading router = Ok ()) as -> by (by destruct router; apply echo_attaches).
  reflexivity.
Qed.

(** Serving the one port, from its beginning. *)
Lemma serving_result events ends port0 (k : K) :
  let '(s, x) := (server_listen backlog ≫= λ _, server_run backlog fuel events ends) (one_port port0 k) in
  let s0 := one_port port0 k in
  srv_ok s ∧ (∀ fd, foreign s0 fd → foreign s fd) ∧
  x = match (server_listen backlog s0).2 with Some (Ok _) => ends | r => r end ∧
  (x = None → ∃ s1 s2, server_listen backlog s0 = (s1, Some (Ok ())) ∧ bound s1 0 ∧
    run_begin s1 = (s2, Some (Ok ())) ∧ _running s2 = true ∧ net s2 = net s1 ∧ s = run_server backlog fuel events s2).
Proof.
  set (s0 := one_port port0 k). pose proof (one_port_ok port0 k) as Hs. destruct (server_listen_run backlog s0 Hs eq_refl) as (s1 & y & E & Hlr).
  unfold mbind, CO_bind. rewrite E. destruct Hlr as [Hs1 Hout (Hr & _) Hn _ Hun].
  assert (∀ fd, foreign s0 fd → foreign s1 fd) as Hf by (intros fd [Hz H]; split; [done|]; by apply Hun).
  destruct Hout as [[-> Hl]|[[e ->] _]]; [|by split_and!].
  destruct (server_run_listening backlog fuel events ends s1 Hs1 Hl Hr) as (Hx & Hs2 & Hf2 & s2 & Eb & Hr2 & Hn2 & Hend).
  destruct (server_run backlog fuel events ends s1) as [s x]. cbn [fst snd] in *. split_and!; [done|auto|by rewrite Hx|].
  intros ->. exists s1, s2. split_and!; try done; [|by apply Hend].
  apply (ok_listening s1 Hs1 Hl). apply (f_equal length) in Hn. rewrite !length_fmap in Hn. cbn in Hn. lia.
Qed.

(** What is left when the program returns. *)
Definition tidy (l : L) (k : K) (library_use : L → L) (p : Program (V := V) (K := K) (L := L)) : Prop :=
  cleared (served p) ∧
  (∀ fd, fd ≠ 0%Z → fd ∈ open_fds k → fd ∈ open_fds (net_os (net (served p)))) ∧
  ((∀ l, live (library_use l) = live l) → live (openssl p) = live l).

Definition holds_context (l : L) (router : option TLSContextImpl) (l1 : L) : Prop :=
  match router with Some c => (_context c ∉ live l) ∧ live l1 = {[_context c]} ∪ live l | None => live l1 = live l end.

Lemma leave_tidy count args l l1 k library_use s router r port0 :
  srv_ok s → (∀ fd, foreign (one_port port0 k) fd → foreign s fd) →
  ((∀ l, live (library_use l) = live l) → holds_context l router l1) →
  let '(p, x) := leave (V := V) count (MkProgram args l1 s) router r in
  x = Some (exit_code r) ∧ ∀ code, x = Some (Ok code) → tidy l k library_use p.
Proof.
  intros Hs Hf Hl. pose proof (leave_result count (MkProgram args l1 s) router r Hs) as H.
  destruct (leave _ _ _ _) as [p x]. destruct H as [-> H]. split; [done|]. intros code Hcode. destruct (H code Hcode) as [Hrel Hlib]. split_and!.
  - apply (rel_cleared _ _ Hrel).
  - intros fd Hz Hfd. apply (released_foreign _ _ fd Hrel), Hf. by apply foreign_initial.
  - intros Huse. specialize (Hl Huse). cbn [openssl] in Hlib. rewrite Hlib. destruct router as [c|]; [|done]. destruct Hl as [Hc Hl].
    rewrite ctx_free_frees, Hl. set_solver.
Qed.
Lemma tidy_initial args l k library_use : tidy l k library_use (MkProgram args l (new_server k)).
Proof. split_and!; [by intros a j (? & ? & ? & _)|done|done]. Qed.
End program_parts.

(** What the program ends with, by what [init], the context and [Server::listen]
    give and how the scheduler ends. *)
Definition main_result {A} (ends : option (res ())) (init : res (bool * str)) (router : res A) (listening : option (res ())) : option (res Z) :=
  match init with
  | Ok (false, _) => Some (Ok 0%Z)
  | Ok (true, _) =>
      match router with
      | Ok _ =>
          match listening with
          | Some (Ok _) => (λ r, exit_code (_ ← r; Ok 0%Z)) <$> ends
          | Some (Throw e) => Some (exit_code (Throw e))
          | Some Undef => Some Undef
          | None => None
          end
      | Throw e => Some (exit_code (Throw e))
      | Undef => Some Undef
      end
  | Throw e => Some (exit_code (Throw e))
  | Undef => Some Undef
  end.


(** * A run of the program *)

(** HTTPS on port 443: a client connects, and the server is closed. *)
Definition echo_run (events : list server_op) (ends : option (res ())) (addresses : list address) :=
  main (V := str) length_hash 10 5 (λ _, false) (λ _, 443%Z) (λ _, B "cert.pem") (λ _, B "key.pem") wire_flags (RE := literal_engine)
    (C := Wire) (D := Wire) (λ _, 0) events id ends (InitState ∅ 1 [B "echo"]) new_mock (fresh_fake [] addresses).


(** A port that cannot be bound is an exit with -1. *)
Lemma echo_port_taken : (echo_run [] None [0]).2 = Some (Ok (-1)%Z).
Proof. by vm_compute. Qed.

(** Nothing in the program stops its server, and nothing else does: without it the program does not
    end. *)
Lemma echo_serves_on : (echo_run [AcceptRound 0; AcceptRound 0] None [2]).2 = None ∧
  _running (served (echo_run [AcceptRound 0; AcceptRound 0] None [2]).1) = true.
Proof. by vm_compute. Qed.
