(* ===== verification/ServerResources.v ===== *)
(** lw/net/server_resource: the context that constructs the resources of a
    request, each with the resources it depends on. *)
From S2P Require Import Prelude.

(** * Factories *)

(** Resource types are named by their [std::type_index], resources by their
    address.  A factory gives its result at once, as a value or an exception,
    or a future that is set later. *)
Inductive outcome := Sync (r : res nat) | Async.

(** [get_server_resources()]: the dependencies of each registered factory, a
    sanitized tuple. *)
Abbreviation resource_map := (gmap nat (list nat)).

(** [register_server_resource]; the map's [insert] keeps what is there. *)
Definition register_server_resource (t : nat) (dependencies : list nat) (m : resource_map) : resource_map :=
  match m !! t with Some _ => m | None => <[t := dependencies]> m end.

Section context.
Context (server_resources : resource_map).
(** The [n]-th invocation of a factory, on the resources of its dependencies. *)
Context (factory : nat → nat → list nat → outcome).

(** * Coroutines *)

(** Where a call of [create_and_get<T>] is: about to fetch the dependencies it
    has just tagged its type for, awaiting the calls that fetch them, awaiting
    the factory's future, awaiting the construction by another call, told that
    it is done, or finished. *)
Inductive task :=
  | Starting (t : nat)
  | Fetching (t : nat) (children : list nat)
  | Making (t : nat)
  | Awaiting (t : nat)
  | Notified (t : nat)
  | Finished (t : nat) (r : res nat).

(** The context, the calls so far, and the factories that were invoked. *)
Record ServerResourceContext := MkContext {
  _dependencies : gmap nat nat;
  _construction : gmap nat nat;
  tasks : list task;
  invoked : list (nat * list nat);
}.
Definition new_context : ServerResourceContext := MkContext ∅ ∅ [] [].

Definition push_task (k : task) (c : ServerResourceContext) : ServerResourceContext :=
  MkContext (_dependencies c) (_construction c) (tasks c ++ [k]) (invoked c).
Definition set_task (i : nat) (k : task) (c : ServerResourceContext) : ServerResourceContext :=
  MkContext (_dependencies c) (_construction c) (<[i := k]> (tasks c)) (invoked c).
(** [_construction.emplace(idx, ...)]; how many entries a type has. *)
Definition tag (t : nat) (c : ServerResourceContext) : ServerResourceContext :=
  MkContext (_dependencies c) (<[t := S (default 0 (_construction c !! t))]> (_construction c)) (tasks c) (invoked c).

(** [unsafe_get<T>()]. *)
Definition unsafe_get (t : nat) (c : ServerResourceContext) : res nat :=
  match _dependencies c !! t with Some r => Ok r | None => Throw StdOutOfRange end.

(** [co_await co::all(...)]: the futures in turn; [None] while one is not set. *)
Fixpoint await_all (ts : list task) (children : list nat) : option (res (list nat)) :=
  match children with
  | [] => Some (Ok [])
  | i :: children =>
      match ts !! i with
      | Some (Finished _ (Ok r)) =>
          match await_all ts children with Some (Ok rs) => Some (Ok (r :: rs)) | o => o end
      | Some (Finished _ (Throw e)) => Some (Throw e)
      | Some (Finished _ Undef) => Some Undef
      | _ => None
      end
  end.

(** Setting the promises of everyone who waits for a type. *)
Definition notify (t : nat) (k : task) : task :=
  match k with Awaiting u => if decide (u = t) then Notified u else k | _ => k end.

(** The rest of [create_and_get] once the resource is constructed, or its
    construction threw. *)
Definition finish_construction (i t : nat) (o : res nat) (c : ServerResourceContext) : ServerResourceContext :=
  match o with
  | Ok r =>
      MkContext (<[t := r]> (_dependencies c)) (delete t (_construction c))
        (<[i := Finished t (Ok r)]> (notify t <$> tasks c)) (invoked c)
  | _ => set_task i (Finished t o) c
  end.

(** [FetchDependenciesAndInvoke::invoke] when the dependencies are there. *)
Definition invoke_factory (i t : nat) (args : list nat) (c : ServerResourceContext) : ServerResourceContext :=
  let c' := set_task i (Making t) (MkContext (_dependencies c) (_construction c) (tasks c) (invoked c ++ [(t, args)])) in
  match factory (length (invoked c)) t args with
  | Sync o => finish_construction i t o c'
  | Async => c'
  end.

(** What call [i] does when it is resumed. *)
Definition advance (i : nat) (c : ServerResourceContext) : ServerResourceContext :=
  match tasks c !! i with
  | Some (Fetching t children) =>
      match await_all (tasks c) children with
      | None => c
      | Some (Ok args) => invoke_factory i t args c
      | Some (Throw e) => finish_construction i t (Throw e) c
      | Some Undef => finish_construction i t Undef c
      end
  | Some (Notified t) => set_task i (Finished t (unsafe_get t c)) c
  | _ => c
  end.

(** Starting calls for a list of types, in order. *)
Fixpoint start_all (start : nat → ServerResourceContext → option (ServerResourceContext * nat)) (ds : list nat)
    (c : ServerResourceContext) : option (ServerResourceContext * list nat) :=
  match ds with
  | [] => Some (c, [])
  | d :: ds =>
      '(c, i) ← start d c; '(c, js) ← start_all start ds c; Some (c, i :: js)
  end.

(** [create_and_get<T>()] up to where it suspends, and the name of the call;
    [None] when the fuel for nested calls runs out. *)
Fixpoint create_and_get (fuel : nat) (t : nat) (c : ServerResourceContext) : option (ServerResourceContext * nat) :=
  match fuel with
  | 0 => None
  | S fuel =>
      let i := length (tasks c) in
      match _dependencies c !! t with
      | Some r => Some (push_task (Finished t (Ok r)) c, i)
      | None =>
          match _construction c !! t with
          | Some _ => Some (push_task (Awaiting t) (tag t c), i)
          | None =>
              let c := push_task (Starting t) (tag t c) in
              match server_resources !! t with
              | None => Some (finish_construction i t (throw NotFound) c, i)
              | Some ds =>
                  '(c, children) ← start_all (create_and_get fuel) ds c;
                  Some (advance i (set_task i (Fetching t children) c), i)
              end
          end
      end
  end.

(** What happens to a context: a new call, a call resumed by the scheduler, and
    a future of a factory being set. *)
Inductive event := Create (t : nat) | Resume (i : nat) | Resolve (i : nat) (o : res nat).
Definition max_depth : nat := S (S (size server_resources)).
Definition step (e : event) (c : ServerResourceContext) : ServerResourceContext :=
  match e with
  | Create t => match create_and_get max_depth t c with Some (c, _) => c | None => c end
  | Resume i => advance i c
  | Resolve i o => match tasks c !! i with Some (Making t) => finish_construction i t o c | _ => c end
  end.
Definition run_events (es : list event) (c : ServerResourceContext) : ServerResourceContext := foldl (λ c e, step e c) c es.

(** * The invariant *)

Definition task_type (k : task) : nat :=
  match k with Starting t | Fetching t _ | Making t | Awaiting t | Notified t | Finished t _ => t end.

(** The call that constructs a resource of its type. *)
Definition builds (k : task) : bool :=
  match k with Starting _ | Fetching _ _ | Making _ => true | _ => false end.

Record consistent (c : ServerResourceContext) : Prop := {
  built_untagged : ∀ t r, _dependencies c !! t = Some r → _construction c !! t = None;
  builder_tagged : ∀ i k, tasks c !! i = Some k → builds k = true → is_Some (_construction c !! task_type k);
  builder_unique : ∀ i j k k', tasks c !! i = Some k → tasks c !! j = Some k' → builds k = true → builds k' = true →
    task_type k = task_type k' → i = j;
  finished_built : ∀ i t r, tasks c !! i = Some (Finished t (Ok r)) → _dependencies c !! t = Some r;
  notified_built : ∀ i t, tasks c !! i = Some (Notified t) → is_Some (_dependencies c !! t);
  fetching_children : ∀ i t ch, tasks c !! i = Some (Fetching t ch) →
    ∃ ds, server_resources !! t = Some ds ∧ Forall2 (λ j d, ∃ k, tasks c !! j = Some k ∧ task_type k = d) ch ds;
  invoked_once : NoDup (invoked c).*1;
  invoked_started : ∀ t args, (t, args) ∈ invoked c → is_Some (_dependencies c !! t) ∨ is_Some (_construction c !! t);
  invoked_not_fetching : ∀ i k, tasks c !! i = Some k → builds k = true → (∀ t, k ≠ Making t) → task_type k ∉ (invoked c).*1;
  invoked_args : ∀ t args, (t, args) ∈ invoked c →
    ∃ ds, server_resources !! t = Some ds ∧ Forall2 (λ d r, _dependencies c !! d = Some r) ds args;
}.

(** Resources stay, calls stay calls for their type, and the record of
    invocations grows. *)
Definition grows (c c' : ServerResourceContext) : Prop :=
  _dependencies c ⊆ _dependencies c' ∧
  (∀ i k, tasks c !! i = Some k → ∃ k', tasks c' !! i = Some k' ∧ task_type k' = task_type k) ∧
  invoked c `prefix_of` invoked c'.
#[export] Instance grows_preorder : PreOrder grows.
Proof.
  split; [intros c; split_and!; eauto|]. intros c1 c2 c3 (H1 & H2 & H3) (H4 & H5 & H6). split_and!; [by etrans| |by etrans].
  intros i k (k' & (k'' & ? & ?)%H5 & ?)%H2. eexists. split; [done|]. congruence.
Qed.

(** ** Single updates *)

Lemma push_lookup k c i k' : tasks (push_task k c) !! i = Some k' →
  tasks c !! i = Some k' ∨ i = length (tasks c) ∧ k' = k.
Proof. cbn. rewrite lookup_app_Some. intros [?|[Hle H]]; [by left|right]. apply list_lookup_singleton_Some in H. split; [lia|by destruct H]. Qed.

Lemma grows_push k c : grows c (push_task k c).
Proof.
  split_and!; [done| |done]. intros i k' Hi. exists k'. split; [|done]. cbn. by apply lookup_app_l_Some.
Qed.
Lemma grows_tag t c : grows c (tag t c).
Proof. split_and!; eauto. Qed.
Lemma grows_set i k k0 c : tasks c !! i = Some k0 → task_type k = task_type k0 → grows c (set_task i k c).
Proof.
  intros H0 Ht. split_and!; [done| |done]. intros j k' Hj. cbn. destruct (decide (i = j)) as [<-|Hne].
  - exists k. rewrite list_lookup_insert_eq by (by eapply lookup_lt_Some). split; [done|]. congruence.
  - exists k'. by rewrite list_lookup_insert_ne.
Qed.

(** A call that does not build anything is added. *)
Lemma push_consistent k c :
  consistent c → builds k = false →
  (∀ r, k = Finished (task_type k) (Ok r) → _dependencies c !! task_type k = Some r) →
  (∀ t, k = Notified t → is_Some (_dependencies c !! t)) → consistent (push_task k c).
Proof.
  intros [H1 H2 H3 H4 H5 H6 H7 H8 H9 H10] Hk Hf Hn. split; try done.
  - intros i k' [?|[-> ->]]%push_lookup ?; [eauto|congruence].
  - intros i j k1 k2 [?|[-> ->]]%push_lookup [?|[-> ->]]%push_lookup ???; [eauto|congruence..].
  - intros i t r [?|[-> <-]]%push_lookup; [eauto|]. by apply Hf.
  - intros i t [?|[-> <-]]%push_lookup; [eauto|]. by apply Hn.
  - intros i t ch [?|[-> <-]]%push_lookup; [|done]. destruct (H6 i t ch) as (ds & ? & Hall); [done|].
    exists ds. split; [done|]. eapply Forall2_impl; [exact Hall|]. intros j d (k' & Hj & ?). exists k'. split; [|done]. cbn. by apply lookup_app_l_Some.
  - intros i k' [?|[-> ->]]%push_lookup ??; [eauto|congruence].
Qed.

(** One more waiter for a type under construction. *)
Lemma tag_consistent t c : consistent c → is_Some (_construction c !! t) → consistent (tag t c).
Proof.
  intros [H1 H2 H3 H4 H5 H6 H7 H8 H9 H10] Ht.
  assert (∀ u, is_Some (_construction (tag t c) !! u) ↔ is_Some (_construction c !! u)) as Hiff.
  { intros u. cbn. destruct (decide (t = u)) as [<-|]; [by rewrite lookup_insert_eq|by rewrite lookup_insert_ne]. }
  split; try done.
  - intros u r Hu. cbn. destruct (decide (t = u)) as [<-|]; [|rewrite lookup_insert_ne by done; by eapply H1].
    rewrite (H1 _ _ Hu) in Ht. by destruct Ht.
  - intros i k Hi Hk. rewrite Hiff. eauto.
  - intros u args Hu. rewrite Hiff. eauto.
Qed.

(** The first call for a type tags it and builds. *)
Lemma start_consistent t c :
  consistent c → _dependencies c !! t = None → _construction c !! t = None → consistent (push_task (Starting t) (tag t c)).
Proof.
  intros [H1 H2 H3 H4 H5 H6 H7 H8 H9 H10] Hd Hc.
  assert (∀ u, is_Some (_construction c !! u) → is_Some (_construction (tag t c) !! u)) as Hmono.
  { intros u Hu. cbn. destruct (decide (t = u)) as [<-|]; [by rewrite lookup_insert_eq|by rewrite lookup_insert_ne]. }
  assert (∀ i k, tasks c !! i = Some k → builds k = true → task_type k ≠ t) as Hnew.
  { intros i k Hi Hk <-. destruct (H2 i k Hi Hk) as [? ?]. congruence. }
  split.
  - intros u r Hu. cbn in *. rewrite lookup_insert_ne by congruence. by eapply H1.
  - intros i k [Hi|[-> ->]]%push_lookup Hk; cbn [push_task _construction]; [by eapply Hmono, H2|]. cbn. by rewrite lookup_insert_eq.
  - intros i j k k' [Hi|[-> ->]]%push_lookup [Hj|[-> ->]]%push_lookup Hk Hk' Ht; [by eapply H3| | |done].
    + by destruct (Hnew i k Hi Hk).
    + by destruct (Hnew j k' Hj Hk').
  - intros i u r [Hi|[-> ?]]%push_lookup; [by eapply H4|done].
  - intros i u [Hi|[-> ?]]%push_lookup; [by eapply H5|done].
  - intros i u ch [Hi|[-> ?]]%push_lookup; [|done]. destruct (H6 i u ch Hi) as (ds & ? & Hall).
    exists ds. split; [done|]. eapply Forall2_impl; [exact Hall|]. intros j d (k' & Hj & ?). exists k'. split; [|done]. cbn. by apply lookup_app_l_Some.
  - done.
  - intros u args Hu. destruct (H8 u args Hu); [by left|right]. by apply Hmono.
  - intros i k [Hi|[-> ->]]%push_lookup Hk Hm; [by eapply H9|]. cbn. intros ([u args] & Heq & Hin)%list_elem_of_fmap. cbn in Heq. subst u.
    destruct (H8 t args Hin) as [[? ?]|[? ?]]; congruence.
  - done.
Qed.

Lemma children_grow c c' ch ds :
  grows c c' → Forall2 (λ j d, ∃ k, tasks c !! j = Some k ∧ task_type k = d) ch ds →
  Forall2 (λ j d, ∃ k, tasks c' !! j = Some k ∧ task_type k = d) ch ds.
Proof.
  intros (_ & Hg & _) H. eapply Forall2_impl; [exact H|]. intros j d (k & Hj & Hk). destruct (Hg j k Hj) as (k' & ? & ?).
  exists k'. split; [done|congruence].
Qed.

Lemma set_lookup i k k0 c j k' : tasks c !! i = Some k0 → tasks (set_task i k c) !! j = Some k' →
  i = j ∧ k' = k ∨ i ≠ j ∧ tasks c !! j = Some k'.
Proof.
  intros H0. cbn. destruct (decide (i = j)) as [<-|Hne].
  - rewrite list_lookup_insert_eq by (by eapply lookup_lt_Some). intros [= <-]. by left.
  - rewrite list_lookup_insert_ne by done. by right.
Qed.

(** A call goes on without anything else changing. *)
Lemma set_consistent i k k0 c :
  consistent c → tasks c !! i = Some k0 → task_type k = task_type k0 →
  (builds k = true → builds k0 = true) →
  (∀ t r, k = Finished t (Ok r) → _dependencies c !! t = Some r) →
  (∀ t, k ≠ Notified t) →
  (∀ t ch, k = Fetching t ch → ∃ ds, server_resources !! t = Some ds ∧
     Forall2 (λ j d, ∃ k, tasks c !! j = Some k ∧ task_type k = d) ch ds) →
  (builds k = true → (∀ t, k ≠ Making t) → task_type k ∉ (invoked c).*1) →
  consistent (set_task i k c).
Proof.
  intros Hc Hi Ht Hb Hf Hn Hch Hm. pose proof Hc as [H1 H2 H3 H4 H5 H6 H7 H8 H9 H10].
  pose proof (grows_set i k k0 c Hi Ht) as Hg. split; try done.
  - intros j k' [[<- ->]|[_ Hj]]%(set_lookup i k k0 c j k' Hi) Hk; cbn; [|by eapply H2].
    rewrite Ht. by eapply H2; [|apply Hb].
  - intros j j' k1 k2 [[<- ->]|[? Hj]]%(set_lookup i k k0 c _ _ Hi) [[<- ->]|[? Hj']]%(set_lookup i k k0 c _ _ Hi) Hk1 Hk2 Heq; [done|..].
    + eapply (H3 i j' k0 k2); auto; congruence.
    + eapply (H3 j i k1 k0); auto; congruence.
    + by eapply H3.
  - intros j t r [[<- <-]|[_ Hj]]%(set_lookup i k k0 c _ _ Hi); [by apply Hf|by eapply H4].
  - intros j t [[<- <-]|[_ Hj]]%(set_lookup i k k0 c _ _ Hi); [by destruct (Hn t)|by eapply H5].
  - intros j t ch Hj. assert (∃ ds, server_resources !! t = Some ds ∧
     Forall2 (λ j d, ∃ k, tasks c !! j = Some k ∧ task_type k = d) ch ds) as (ds & ? & Hall).
    { apply (set_lookup i k k0 c _ _ Hi) in Hj as [[<- <-]|[_ Hj]]; [by apply Hch|by eapply H6]. }
    exists ds. split; [done|]. by eapply children_grow.
  - intros j k' [[<- ->]|[_ Hj]]%(set_lookup i k k0 c _ _ Hi) Hk Hmk; [by apply Hm|by eapply H9].
Qed.

(** A factory is invoked for the type that call [i] is making. *)
Lemma invoked_consistent i t args ds c :
  consistent c → tasks c !! i = Some (Making t) → t ∉ (invoked c).*1 →
  server_resources !! t = Some ds → Forall2 (λ d r, _dependencies c !! d = Some r) ds args →
  consistent (MkContext (_dependencies c) (_construction c) (tasks c) (invoked c ++ [(t, args)])).
Proof.
  intros [H1 H2 H3 H4 H5 H6 H7 H8 H9 H10] Hi Ht Hds Hargs. split; try done; cbn.
  - rewrite fmap_app. apply NoDup_app. split_and!; [done| |apply NoDup_singleton]. by intros u Hu ->%list_elem_of_singleton.
  - intros u a [?|[= -> ->]%list_elem_of_singleton]%elem_of_app; [by eapply H8|]. right. by apply (H2 i (Making t)).
  - intros j k Hj Hk Hm. rewrite fmap_app. intros [Hin|Hu%list_elem_of_singleton]%elem_of_app; [by eapply H9|]. cbn in Hu.
    assert (i = j) as <- by by eapply (H3 i j (Making t) k). rewrite Hi in Hj. injection Hj as <-. by eapply Hm.
  - intros u a [?|[= -> ->]%list_elem_of_singleton]%elem_of_app; [by eapply H10|by exists ds].
Qed.

Lemma notify_type t k : task_type (notify t k) = task_type k.
Proof. destruct k; cbn; try done. by case_decide. Qed.
Lemma notify_cases t k : notify t k = k ∨ k = Awaiting t ∧ notify t k = Notified t.
Proof. destruct k; cbn; auto. case_decide; [subst; by right|by left]. Qed.

Lemma grows_finish i t o c k0 :
  tasks c !! i = Some k0 → task_type k0 = t → (∀ r, o = Ok r → _dependencies c !! t = None) →
  grows c (finish_construction i t o c).
Proof.
  intros Hi Ht Hd. destruct o as [r|e|]; cbn [finish_construction].
  - split_and!; cbn; [by apply insert_subseteq, (Hd r)| |done]. intros j k Hj. destruct (decide (i = j)) as [<-|Hne].
    + exists (Finished t (Ok r)). rewrite list_lookup_insert_eq by (rewrite length_fmap; by eapply lookup_lt_Some).
      split; [done|]. cbn. congruence.
    + exists (notify t k). rewrite list_lookup_insert_ne, list_lookup_fmap, Hj by done. split; [done|]. apply notify_type.
  - by apply (grows_set i _ k0).
  - by apply (grows_set i _ k0).
Qed.

(** The construction of a type ends. *)
Lemma finish_consistent i t o c k0 :
  consistent c → tasks c !! i = Some k0 → task_type k0 = t → builds k0 = true → consistent (finish_construction i t o c).
Proof.
  intros Hc Hi Ht Hb. destruct o as [r|e|]; cbn [finish_construction].
  2, 3: apply (set_consistent i _ k0); done.
  pose proof Hc as [H1 H2 H3 H4 H5 H6 H7 H8 H9 H10].
  assert (_dependencies c !! t = None) as Hd.
  { destruct (_dependencies c !! t) as [x|] eqn:E; [|done]. destruct (H2 i k0 Hi Hb) as [y Hy]. rewrite Ht in Hy.
    rewrite (H1 t x E) in Hy. done. }
  pose proof (grows_finish i t (Ok r) c k0 Hi Ht (λ _ _, Hd)) as (Hsub & Hg & _). cbn [finish_construction] in Hg.
  assert (∀ j k, (<[i := Finished t (Ok r)]> (notify t <$> tasks c)) !! j = Some k →
    i = j ∧ k = Finished t (Ok r) ∨ i ≠ j ∧ ∃ k1, tasks c !! j = Some k1 ∧ k = notify t k1) as Hback.
  { intros j k. destruct (decide (i = j)) as [<-|Hne].
    - rewrite list_lookup_insert_eq by (rewrite length_fmap; by eapply lookup_lt_Some). intros [= <-]. by left.
    - rewrite list_lookup_insert_ne by done. rewrite list_lookup_fmap_Some. intros (k1 & ? & ?). right. eauto. }
  assert (∀ j k, (<[i := Finished t (Ok r)]> (notify t <$> tasks c)) !! j = Some k → builds k = true →
    i ≠ j ∧ tasks c !! j = Some k ∧ task_type k ≠ t) as Hbuild.
  { intros j k [[<- ->]|(Hne & k1 & Hj & ->)]%Hback Hk; [done|]. destruct (notify_cases t k1) as [E|[-> E]]; rewrite E in *; [|done].
    split_and!; [done..|]. intros Hkt. apply Hne. eapply (H3 i j k0 k1); congruence. }
  split; cbn.
  - intros u x. destruct (decide (t = u)) as [<-|Hne]; [intros _; by rewrite lookup_delete_eq|].
    rewrite lookup_insert_ne, lookup_delete_ne by done. apply H1.
  - intros j k Hj Hk. destruct (Hbuild j k Hj Hk) as (_ & Hj' & Hne). rewrite lookup_delete_ne by congruence. by eapply H2.
  - intros j j' k k' Hj Hj' Hk Hk' Heq. destruct (Hbuild j k Hj Hk) as (_ & ? & _), (Hbuild j' k' Hj' Hk') as (_ & ? & _). by eapply H3.
  - intros j u x [[<- [= -> ->]]|(Hne & k1 & Hj & Hk)]%Hback; [by rewrite lookup_insert_eq|].
    destruct (notify_cases t k1) as [E|[-> E]]; rewrite E in Hk; [subst k1|done]. pose proof (H4 j u x Hj).
    rewrite lookup_insert_ne by congruence. done.
  - intros j u [[<- ?]|(Hne & k1 & Hj & Hk)]%Hback; [done|]. destruct (decide (t = u)) as [<-|Hu]; [by rewrite lookup_insert_eq|].
    rewrite lookup_insert_ne by done. destruct (notify_cases t k1) as [E|[-> E]]; rewrite E in Hk; [subst k1; by eapply H5|congruence].
  - intros j u ch [[<- ?]|(Hne & k1 & Hj & Hk)]%Hback; [done|]. destruct (notify_cases t k1) as [E|[-> E]]; rewrite E in Hk; [subst k1|done].
    destruct (H6 j u ch Hj) as (ds & Hds & Hall). exists ds. split; [done|].
    eapply Forall2_impl; [exact Hall|]. intros x d (k & Hx & Hkd). destruct (Hg x k Hx) as (k' & Hx' & Hk'). exists k'. split; [exact Hx'|congruence].
  - done.
  - intros u args Hu. destruct (decide (t = u)) as [<-|Hne]; [left; by rewrite lookup_insert_eq|].
    rewrite lookup_insert_ne, lookup_delete_ne by done. by eapply H8.
  - intros j k Hj Hk Hm. destruct (Hbuild j k Hj Hk) as (_ & ? & _). by eapply H9.
  - intros u args Hu. destruct (H10 u args Hu) as (ds & ? & Hall). exists ds. split; [done|].
    eapply Forall2_impl; [exact Hall|]. intros d x Hx. cbn. by rewrite lookup_insert_ne by congruence.
Qed.

(** ** Calls *)

Lemma await_all_args c ch ds args :
  consistent c → Forall2 (λ j d, ∃ k, tasks c !! j = Some k ∧ task_type k = d) ch ds →
  await_all (tasks c) ch = Some (Ok args) → Forall2 (λ d r, _dependencies c !! d = Some r) ds args.
Proof.
  intros Hc H. revert args. induction H as [|j d ch ds (k & Hj & Hk) _ IH]; intros args; cbn [await_all]; [by intros [= <-]|].
  rewrite Hj. destruct k as [| | | | |t [r|e|]]; try done. destruct (await_all (tasks c) ch) as [[rs|e|]|]; try done.
  intros [= <-]. constructor; [|by apply IH]. cbn in Hk. subst d. by eapply finished_built.
Qed.

Lemma making_finish_consistent i t o c : consistent c → tasks c !! i = Some (Making t) → consistent (finish_construction i t o c).
Proof. intros Hc Hi. by eapply finish_consistent. Qed.

Lemma builder_unbuilt c i k : consistent c → tasks c !! i = Some k → builds k = true → _dependencies c !! task_type k = None.
Proof.
  intros Hc Hi Hk. destruct (_dependencies c !! task_type k) as [r|] eqn:E; [|done].
  destruct (builder_tagged c Hc i k Hi Hk) as [x Hx]. by rewrite (built_untagged c Hc _ r E) in Hx.
Qed.

Lemma invoke_factory_ok i t ch args c :
  consistent c → tasks c !! i = Some (Fetching t ch) → await_all (tasks c) ch = Some (Ok args) →
  consistent (invoke_factory i t args c) ∧ grows c (invoke_factory i t args c).
Proof.
  intros Hc Hi Ha. destruct (fetching_children c Hc i t ch Hi) as (ds & Hds & Hch).
  pose proof (await_all_args c ch ds args Hc Hch Ha) as Hargs.
  assert (t ∉ (invoked c).*1) as Hfresh by (by apply (invoked_not_fetching c Hc i (Fetching t ch))).
  pose proof (set_consistent i (Making t) (Fetching t ch) c Hc Hi eq_refl) as Hset.
  assert (consistent (set_task i (Making t) c)) as Hm.
  { by apply Hset. }
  assert (tasks (set_task i (Making t) c) !! i = Some (Making t)) as Him
    by (cbn; by rewrite list_lookup_insert_eq by (by eapply lookup_lt_Some)).
  pose proof (invoked_consistent i t args ds (set_task i (Making t) c) Hm Him Hfresh Hds Hargs) as Hinv.
  assert (grows c (set_task i (Making t) (MkContext (_dependencies c) (_construction c) (tasks c) (invoked c ++ [(t, args)])))) as Hg.
  { destruct (grows_set i (Making t) (Fetching t ch) c Hi eq_refl) as (? & ? & _). split_and!; [done..|]. by eexists. }
  unfold invoke_factory. destruct (factory _ _ _) as [o|]; [|by split]. split.
  - by apply making_finish_consistent.
  - etrans; [exact Hg|]. apply (grows_finish i t o _ (Making t)); [done..|]. intros r _.
    by apply (builder_unbuilt _ i (Making t) Hm).
Qed.

Lemma advance_ok i c : consistent c → consistent (advance i c) ∧ grows c (advance i c).
Proof.
  intros Hc. unfold advance. destruct (tasks c !! i) as [[t|t ch|t|t|t|t r]|] eqn:Hi; try by split.
  - destruct (await_all (tasks c) ch) as [[args|e|]|] eqn:Ha; [by eapply invoke_factory_ok| | |by split];
      (split; [by eapply finish_consistent|by eapply grows_finish]).
  - destruct (notified_built c Hc i t Hi) as [r Hr]. unfold unsafe_get. rewrite Hr. split.
    + apply (set_consistent i _ (Notified t)); try done. by intros u x [= <- <-].
    + by apply (grows_set i _ (Notified t)).
Qed.

(** Only call [i] itself leaves its place among the builders. *)
Lemma finish_builders i t o c j k : i ≠ j → tasks c !! j = Some k → builds k = true → tasks (finish_construction i t o c) !! j = Some k.
Proof.
  intros Hne Hj Hk. destruct o; cbn; [|by rewrite list_lookup_insert_ne..].
  rewrite list_lookup_insert_ne, list_lookup_fmap, Hj by done. cbn. f_equal. by destruct k.
Qed.
Lemma advance_builders i c j k : i ≠ j → tasks c !! j = Some k → builds k = true → tasks (advance i c) !! j = Some k.
Proof.
  intros Hne Hj Hk. unfold advance. destruct (tasks c !! i) as [[t|t ch|t|t|t|t r]|] eqn:Hi; try done.
  - destruct (await_all (tasks c) ch) as [[args|e|]|]; [|by apply finish_builders..|done].
    unfold invoke_factory. destruct (factory _ _ _); [apply finish_builders; [done| |done]|]; cbn; by rewrite list_lookup_insert_ne.
  - cbn. by rewrite list_lookup_insert_ne.
Qed.

(** What starting a call for [d] does. *)
Definition starts (d : nat) (c c' : ServerResourceContext) (i : nat) : Prop :=
  consistent c' ∧ grows c c' ∧ (∃ k, tasks c' !! i = Some k ∧ task_type k = d) ∧
  (∀ j k, tasks c !! j = Some k → builds k = true → tasks c' !! j = Some k).

Lemma start_all_ok start ds c c' ch :
  (∀ d c c' i, start d c = Some (c', i) → consistent c → starts d c c' i) →
  start_all start ds c = Some (c', ch) → consistent c →
  consistent c' ∧ grows c c' ∧ Forall2 (λ j d, ∃ k, tasks c' !! j = Some k ∧ task_type k = d) ch ds ∧
  (∀ j k, tasks c !! j = Some k → builds k = true → tasks c' !! j = Some k).
Proof.
  intros Hstart. revert c c' ch. induction ds as [|d ds IH]; intros c c' ch; cbn [start_all]; [intros [= <- <-] Hc; split_and!; [done|done|constructor|done]|].
  destruct (start d c) as [[c1 i]|] eqn:E; [|done]. cbn. destruct (start_all start ds c1) as [[c2 js]|] eqn:E2; [|done]. cbn.
  intros [= <- <-] Hc. destruct (Hstart d c c1 i E Hc) as (H1 & H2 & (k & Hk & Hd) & Hb). destruct (IH c1 c2 js E2 H1) as (H3 & H4 & H5 & H6).
  split_and!; [done|by etrans| |by eauto]. constructor; [|done]. destruct H4 as (_ & H4 & _). destruct (H4 i k Hk) as (k' & ? & ?). exists k'. split; [done|congruence].
Qed.

Lemma push_last k c : tasks (push_task k c) !! length (tasks c) = Some k.
Proof. cbn. by rewrite lookup_app_r, Nat.sub_diag by lia. Qed.
Lemma push_starts k c : consistent (push_task k c) → starts (task_type k) c (push_task k c) (length (tasks c)).
Proof.
  intros Hc. split_and!; [done|apply grows_push|by exists k; split; [apply push_last|]|]. intros j k' Hj _. cbn. by apply lookup_app_l_Some.
Qed.

Lemma create_ok fuel t c c' i : create_and_get fuel t c = Some (c', i) → consistent c → starts t c c' i.
Proof.
  revert t c c' i. induction fuel as [|fuel IH]; intros t c c' i; cbn [create_and_get]; [done|].
  destruct (_dependencies c !! t) as [r|] eqn:Hd.
  { intros [= <- <-] Hc. apply (push_starts (Finished t (Ok r))), push_consistent; try done. by intros x [= <-]. }
  destruct (_construction c !! t) as [n|] eqn:Hcn.
  { intros [= <- <-] Hc. apply (push_starts (Awaiting t) (tag t c)), push_consistent; try done. by apply tag_consistent. }
  set (c1 := push_task (Starting t) (tag t c)). intros E Hc. assert (consistent c1) as Hc1 by by apply start_consistent.
  destruct (push_starts (Starting t) (tag t c) Hc1) as (_ & Hg1 & _ & Hb1). cbn [tasks tag] in Hb1.
  assert (grows c c1) as Hg01 by (etrans; [apply (grows_tag t)|exact Hg1]). clear Hg1.
  assert (tasks c1 !! length (tasks c) = Some (Starting t)) as Hi1 by apply (push_last _ (tag t c)).
  assert (∀ j k, tasks c !! j = Some k → length (tasks c) ≠ j) as Hlt by (intros j k Hj%lookup_lt_Some; lia).
  destruct (server_resources !! t) as [ds|] eqn:Hds.
  - destruct (start_all _ ds c1) as [[c2 ch]|] eqn:Es; [|done]. cbn in E. injection E as <- <-.
    destruct (start_all_ok _ ds c1 c2 ch IH Es Hc1) as (Hc2 & Hg2 & Hch & Hb2). pose proof (Hb2 _ _ Hi1 eq_refl) as Hi2.
    pose proof (set_consistent (length (tasks c)) (Fetching t ch) (Starting t) c2 Hc2 Hi2 eq_refl) as Hset.
    assert (consistent (set_task (length (tasks c)) (Fetching t ch) c2)) as Hc3.
    { apply Hset; try done; [by intros ?? [= <- <-]; exists ds|]. intros _ _. by apply (invoked_not_fetching c2 Hc2 (length (tasks c)) (Starting t)). }
    pose proof (grows_set (length (tasks c)) (Fetching t ch) (Starting t) c2 Hi2 eq_refl) as Hg3.
    destruct (advance_ok (length (tasks c)) _ Hc3) as [Hc4 Hg4]. split_and!; [done|by do 3 (etrans; [eassumption|])| |].
    + destruct Hg4 as (_ & Hg4 & _). destruct (Hg4 (length (tasks c)) (Fetching t ch)) as (k & ? & ?); [|by exists k].
      cbn. by rewrite list_lookup_insert_eq by (by eapply lookup_lt_Some).
    + intros j k Hj Hk. apply advance_builders; [by eapply Hlt| |done]. cbn. rewrite list_lookup_insert_ne by (by eapply Hlt). eauto.
  - injection E as <- <-. split_and!.
    + by apply (finish_consistent (length (tasks c)) t (throw NotFound) c1 (Starting t)).
    + etrans; [exact Hg01|]. by apply (grows_finish (length (tasks c)) t (throw NotFound) c1 (Starting t)).
    + exists (Finished t (throw NotFound)). split; [|done]. cbn. rewrite list_lookup_insert_eq; [done|]. by eapply lookup_lt_Some.
    + intros j k Hj Hk. apply (finish_builders (length (tasks c)) t (throw NotFound)); [by eapply Hlt|by apply Hb1|done].
Qed.

Lemma step_ok e c : consistent c → consistent (step e c) ∧ grows c (step e c).
Proof.
  intros Hc. destruct e as [t|i|i o]; cbn [step].
  - destruct (create_and_get max_depth t c) as [[c' i]|] eqn:E; [|by split]. by destruct (create_ok _ t c c' i E Hc) as (? & ? & _).
  - by apply advance_ok.
  - destruct (tasks c !! i) as [[t|t ch|t|t|t|t r]|] eqn:Hi; try by split. split; [by eapply finish_consistent|].
    eapply grows_finish; [done..|]. intros r _. by eapply (builder_unbuilt c i (Making t)).
Qed.
Lemma run_events_ok es c : consistent c → consistent (run_events es c) ∧ grows c (run_events es c).
Proof.
  revert c. induction es as [|e es IH]; intros c Hc; [by split|]. cbn. destruct (step_ok e c Hc) as [H1 H2].
  destruct (IH _ H1) as [H3 H4]. split; [done|by etrans].
Qed.
Lemma new_consistent : consistent new_context.
Proof. split; cbn; try done; try (intros; by rewrite lookup_empty in * ); try set_solver. apply NoDup_nil_2. Qed.

(** * The nested calls end *)

Definition started (c : ServerResourceContext) (t : nat) : Prop :=
  is_Some (_dependencies c !! t) ∨ is_Some (_construction c !! t).
#[local] Instance started_dec c t : Decision (started c t).
Proof. unfold started. solve_decision. Defined.

(** The registered types whose construction was not begun. *)
Definition unstarted (c : ServerResourceContext) : gset nat := filter (λ t, ¬ started c t) (dom server_resources).

Lemma finish_started i t o c u : started c u → started (finish_construction i t o c) u.
Proof.
  destruct o; cbn; [|done..]. unfold started. cbn. destruct (decide (t = u)) as [<-|].
  - rewrite lookup_insert_eq. by left.
  - by rewrite lookup_insert_ne, lookup_delete_ne.
Qed.
Lemma advance_started i c u : started c u → started (advance i c) u.
Proof.
  intros Hu. unfold advance. destruct (tasks c !! i) as [[t|t ch|t|t|t|t r]|]; try done.
  destruct (await_all (tasks c) ch) as [[args|e|]|]; try done.
  unfold invoke_factory. destruct (factory _ _ _); [by apply finish_started|done].
Qed.
Lemma tag_started t c u : started c u ∨ u = t → started (push_task (Starting t) (tag t c)) u.
Proof.
  unfold started. cbn. destruct (decide (t = u)) as [<-|]; [rewrite lookup_insert_eq; by right; eexists|].
  rewrite lookup_insert_ne by done. intros [?|?]; [done|congruence].
Qed.

Lemma start_all_started start ds c c' ch u :
  (∀ d c c' i, start d c = Some (c', i) → started c u → started c' u) →
  start_all start ds c = Some (c', ch) → started c u → started c' u.
Proof.
  intros Hs. revert c c' ch. induction ds as [|d ds IH]; intros c c' ch; cbn [start_all]; [by intros [= <- <-]|].
  destruct (start d c) as [[c1 i]|] eqn:E; [|done]. cbn. destruct (start_all start ds c1) as [[c2 js]|] eqn:E2; [|done].
  intros [= <- <-] Hu. by eapply IH, Hs.
Qed.
Lemma create_started fuel t c c' i u : create_and_get fuel t c = Some (c', i) → started c u → started c' u.
Proof.
  revert t c c' i. induction fuel as [|fuel IH]; intros t c c' i; cbn [create_and_get]; [done|].
  destruct (_dependencies c !! t) as [r|] eqn:Hd; [by intros [= <- <-]|].
  destruct (_construction c !! t) as [n|] eqn:Hcn.
  { intros [= <- <-] Hu. apply (tag_started t c u). by left. }
  destruct (server_resources !! t) as [ds|].
  - destruct (start_all _ ds _) as [[c2 ch]|] eqn:Es; [|done]. cbn. intros [= <- <-] Hu. apply advance_started.
    assert (started c2 u); [|done]. eapply start_all_started; [exact IH|exact Es|]. apply tag_started. by left.
  - intros [= <- <-] Hu. apply (tag_started t c u). by left.
Qed.

Lemma unstarted_mono c c' : (∀ u, started c u → started c' u) → size (unstarted c') ≤ size (unstarted c).
Proof.
  intros H. apply subseteq_size. intros u. unfold unstarted. rewrite !elem_of_filter. intros [? ?]. split; [auto|done].
Qed.

Lemma create_total fuel t c : size (unstarted c) < fuel → is_Some (create_and_get fuel t c).
Proof.
  revert t c. induction fuel as [|fuel IH]; intros t c Hlt; [lia|]. cbn [create_and_get].
  destruct (_dependencies c !! t) as [r|] eqn:Hd; [by eexists|].
  destruct (_construction c !! t) as [n|] eqn:Hcn; [by eexists|].
  destruct (server_resources !! t) as [ds|] eqn:Hds; [|by eexists].
  assert (size (unstarted (push_task (Starting t) (tag t c))) < fuel) as Hlt1.
  { assert (unstarted (push_task (Starting t) (tag t c)) ⊂ unstarted c) as Hsub%subset_size; [|lia].
    unfold unstarted. split.
    - intros u. rewrite !elem_of_filter. intros [Hu ?]. split; [|done]. intros Hn. apply Hu, tag_started. by left.
    - intros H. specialize (H t). rewrite !elem_of_filter in H. destruct H as [H _]; [split|].
      + unfold started. rewrite Hd, Hcn. by intros [[? ?]|[? ?]].
      + by eapply elem_of_dom_2.
      + apply H, tag_started. by right. }
  assert (∀ ds c1, size (unstarted c1) < fuel → is_Some (start_all (create_and_get fuel) ds c1)) as Hall.
  { clear -IH. induction ds as [|d ds IHd]; intros c1 Hc1; cbn [start_all]; [by eexists|].
    destruct (IH d c1 Hc1) as [[c2 i] E]. rewrite E. cbn. destruct (IHd c2) as [[c3 js] ->]; [|by eexists].
    pose proof (unstarted_mono c1 c2 (λ u, create_started fuel d c1 c2 i u E)). lia. }
  destruct (Hall ds _ Hlt1) as [[c2 ch] ->]. by eexists.
Qed.
Lemma max_depth_enough c : size (unstarted c) < max_depth.
Proof.
  unfold max_depth. assert (unstarted c ⊆ dom server_resources) as H%subseteq_size.
  { intros u. unfold unstarted. rewrite elem_of_filter. by intros [_ ?]. }
  rewrite size_dom in H. lia.
Qed.

(** * A construction that failed *)

(** Type [t] is tagged but no call builds it. *)
Definition abandoned (t : nat) (c : ServerResourceContext) : Prop :=
  is_Some (_construction c !! t) ∧ ∀ i k, tasks c !! i = Some k → builds k = true → task_type k ≠ t.
Definition keeps_waiting (t : nat) (c c' : ServerResourceContext) : Prop :=
  abandoned t c' ∧ ∀ i, tasks c !! i = Some (Awaiting t) → tasks c' !! i = Some (Awaiting t).

Lemma keeps_waiting_trans t c1 c2 c3 : keeps_waiting t c1 c2 → keeps_waiting t c2 c3 → keeps_waiting t c1 c3.
Proof. intros [_ H1] [H2 H3]. split; auto. Qed.

Lemma set_waiting t i k k0 c :
  abandoned t c → tasks c !! i = Some k0 → task_type k = task_type k0 → (builds k = true → builds k0 = true) →
  k0 ≠ Awaiting t → keeps_waiting t c (set_task i k c).
Proof.
  intros [H1 H2] Hi Ht Hb Hk0. split.
  - split; [done|]. intros j k' [[<- ->]|[_ Hj]]%(set_lookup i k k0 c _ _ Hi) Hk'; [|by eapply H2].
    rewrite Ht. by eapply H2; [|apply Hb].
  - intros j Hj. cbn. rewrite list_lookup_insert_ne; [done|]. congruence.
Qed.
Lemma finish_waiting t i u o c k0 :
  abandoned t c → tasks c !! i = Some k0 → task_type k0 = u → builds k0 = true → keeps_waiting t c (finish_construction i u o c).
Proof.
  intros [H1 H2] Hi Hu Hb. assert (u ≠ t) as Hne by (rewrite <- Hu; by eapply H2).
  destruct o; cbn [finish_construction]. 2, 3: apply (set_waiting t i _ k0); try done; by intros ->.
  split; [split|].
  - cbn. by rewrite lookup_delete_ne.
  - cbn. intros j k. destruct (decide (i = j)) as [<-|Hij].
    + rewrite list_lookup_insert_eq by (rewrite length_fmap; by eapply lookup_lt_Some). by intros [= <-].
    + rewrite list_lookup_insert_ne by done. rewrite list_lookup_fmap_Some. intros (k1 & -> & Hj) Hk.
      rewrite notify_type. eapply H2; [done|]. by destruct (notify_cases u k1) as [E|[-> E]]; rewrite E in Hk.
  - intros j Hj. assert (i ≠ j) by (intros ->; rewrite Hj in Hi; by injection Hi as <-). cbn.
    rewrite list_lookup_insert_ne, list_lookup_fmap, Hj by done. cbn. by rewrite decide_False by done.
Qed.
Lemma advance_waiting t i c : abandoned t c → keeps_waiting t c (advance i c).
Proof.
  intros Hc. unfold advance. destruct (tasks c !! i) as [[u|u ch|u|u|u|u r]|] eqn:Hi; try (by split).
  - destruct (await_all (tasks c) ch) as [[args|e|]|]; [|by apply (finish_waiting t i u _ c (Fetching u ch))..|by split].
    pose proof (set_waiting t i (Making u) (Fetching u ch) c Hc Hi eq_refl (λ _, eq_refl)) as Hm.
    assert (keeps_waiting t c (set_task i (Making u) (MkContext (_dependencies c) (_construction c) (tasks c) (invoked c ++ [(u, args)])))) as Hm' by by apply Hm.
    unfold invoke_factory. destruct (factory _ _ _); [|done]. eapply keeps_waiting_trans; [exact Hm'|].
    apply (finish_waiting t i u _ _ (Making u)); [apply Hm'| |done..]. cbn. by rewrite list_lookup_insert_eq by (by eapply lookup_lt_Some).
  - by apply (set_waiting t i _ (Notified u)).
Qed.
Lemma push_waiting t k u c :
  abandoned t c → (builds k = true → task_type k ≠ t) → keeps_waiting t c (push_task k (tag u c)) ∧ keeps_waiting t c (push_task k c).
Proof.
  intros [H1 H2] Hk. assert (∀ i k', tasks (push_task k c) !! i = Some k' → builds k' = true → task_type k' ≠ t) as Hb.
  { intros i k' [?|[-> ->]]%push_lookup ?; [by eapply H2|auto]. }
  assert (∀ i, tasks c !! i = Some (Awaiting t) → tasks (push_task k c) !! i = Some (Awaiting t)) as Ha
    by (intros i Hi; cbn; by apply lookup_app_l_Some).
  split; (split; [split|]); try done. cbn. destruct (decide (u = t)) as [->|]; [by rewrite lookup_insert_eq|by rewrite lookup_insert_ne].
Qed.

Lemma start_all_waiting t start ds c c' ch :
  (∀ d c c' i, start d c = Some (c', i) → consistent c → starts d c c' i ∧ (abandoned t c → keeps_waiting t c c')) →
  start_all start ds c = Some (c', ch) → consistent c → abandoned t c → keeps_waiting t c c'.
Proof.
  intros Hs. revert c c' ch. induction ds as [|d ds IH]; intros c c' ch; cbn [start_all]; [intros [= <- <-] ??; by split|].
  destruct (start d c) as [[c1 i]|] eqn:E; [|done]. cbn. destruct (start_all start ds c1) as [[c2 js]|] eqn:E2; [|done].
  intros [= <- <-] Hc Ha. destruct (Hs d c c1 i E Hc) as [(Hc1 & _) H1]. specialize (H1 Ha).
  eapply keeps_waiting_trans; [exact H1|]. eapply IH; [exact E2|exact Hc1|apply H1].
Qed.
Lemma create_waiting t fuel u c c' i : create_and_get fuel u c = Some (c', i) → consistent c → abandoned t c → keeps_waiting t c c'.
Proof.
  revert u c c' i. induction fuel as [|fuel IH]; intros u c c' i; cbn [create_and_get]; [done|].
  destruct (_dependencies c !! u) as [r|] eqn:Hd.
  { intros [= <- <-] _ Hc. by apply (push_waiting t (Finished u (Ok r)) u c). }
  destruct (_construction c !! u) as [n|] eqn:Hcn.
  { intros [= <- <-] _ Hc. by apply (push_waiting t (Awaiting u) u c). }
  set (c1 := push_task (Starting u) (tag u c)). intros E Hc Ha. assert (u ≠ t) as Hne.
  { intros ->. destruct Ha as [[? ?] _]. congruence. }
  assert (keeps_waiting t c c1) as H1 by by apply (push_waiting t (Starting u) u c).
  assert (consistent c1) as Hc1 by by apply start_consistent.
  assert (tasks c1 !! length (tasks c) = Some (Starting u)) as Hi1 by apply (push_last _ (tag u c)).
  destruct (server_resources !! u) as [ds|] eqn:Hds.
  - destruct (start_all _ ds c1) as [[c2 ch]|] eqn:Es; [|done]. cbn in E. injection E as <- <-.
    destruct (start_all_ok _ ds c1 c2 ch (create_ok fuel) Es Hc1) as (_ & _ & _ & Hb2). pose proof (Hb2 _ _ Hi1 eq_refl) as Hi2.
    assert (keeps_waiting t c1 c2) as H2.
    { eapply (start_all_waiting t (create_and_get fuel)); [|exact Es|done|apply H1]. intros d c0 c0' j E0 H0.
      split; [by eapply create_ok|]. by eapply IH. }
    assert (keeps_waiting t c2 (set_task (length (tasks c)) (Fetching u ch) c2)) as H3
      by (apply (set_waiting t _ _ (Starting u)); try done; apply H2).
    do 3 (eapply keeps_waiting_trans; [eassumption|]). apply advance_waiting, H3.
  - injection E as <- <-. eapply keeps_waiting_trans; [exact H1|].
    apply (finish_waiting t (length (tasks c)) u (throw NotFound) c1 (Starting u)); try done. apply H1.
Qed.

Lemma step_waiting t e c : consistent c → abandoned t c → keeps_waiting t c (step e c).
Proof.
  intros Hc Ha. destruct e as [u|i|i o]; cbn [step].
  - destruct (create_and_get max_depth u c) as [[c' i]|] eqn:E; [|by split]. by eapply create_waiting.
  - by apply advance_waiting.
  - destruct (tasks c !! i) as [[u|u ch|u|u|u|u r]|] eqn:Hi; try (by split). by apply (finish_waiting t i u o c (Making u)).
Qed.
Lemma run_events_waiting t es c : consistent c → abandoned t c → keeps_waiting t c (run_events es c).
Proof.
  revert c. induction es as [|e es IH]; intros c Hc Ha; [by split|]. cbn. pose proof (step_waiting t e c Hc Ha) as H1.
  eapply keeps_waiting_trans; [exact H1|]. apply IH; [by apply step_ok|apply H1].
Qed.

(** * Without cycles and without waiting *)

Context (rank : nat → nat).
Hypothesis acyclic : ∀ t ds, server_resources !! t = Some ds → Forall (λ d, is_Some (server_resources !! d) ∧ rank d < rank t) ds.
Hypothesis prompt : ∀ n t args, ∃ r, factory n t args = Sync (Ok r).

(** What a call for [t] has done when it returns: it is finished, and what was
    under construction still is. *)
Definition completes (t : nat) (c c' : ServerResourceContext) (i : nat) : Prop :=
  (∃ r, tasks c' !! i = Some (Finished t (Ok r))) ∧ _construction c' = _construction c ∧
  (∀ j u r, tasks c !! j = Some (Finished u r) → tasks c' !! j = Some (Finished u r)).

Lemma finish_finished i t r c j u o :
  i ≠ j → tasks c !! j = Some (Finished u o) → tasks (finish_construction i t (Ok r) c) !! j = Some (Finished u o).
Proof. intros Hne Hj. cbn. by rewrite list_lookup_insert_ne, list_lookup_fmap, Hj. Qed.

Lemma start_all_completes start ds c c' ch t :
  (∀ d c c' i, start d c = Some (c', i) → is_Some (server_resources !! d) → consistent c →
    (∀ u, is_Some (_construction c !! u) → rank d < rank u) → starts d c c' i ∧ completes d c c' i) →
  start_all start ds c = Some (c', ch) → Forall (λ d, is_Some (server_resources !! d) ∧ rank d < rank t) ds → consistent c →
  (∀ u, is_Some (_construction c !! u) → rank t ≤ rank u) →
  (∃ rs, await_all (tasks c') ch = Some (Ok rs)) ∧ _construction c' = _construction c ∧
  (∀ j u r, tasks c !! j = Some (Finished u r) → tasks c' !! j = Some (Finished u r)).
Proof.
  intros Hs. revert c c' ch. induction ds as [|d ds IH]; intros c c' ch; cbn [start_all];
    [intros [= <- <-] _ _ _; split_and!; [by exists []|done..]|].
  destruct (start d c) as [[c1 i]|] eqn:E; [|done]. cbn. destruct (start_all start ds c1) as [[c2 js]|] eqn:E2; [|done]. cbn.
  intros [= <- <-] [[Hreg Hd] Hds]%Forall_cons Hc Hup. destruct (Hs d c c1 i E Hreg Hc) as [(Hc1 & _) ((r & Hr) & Hcon & Hfin)].
  { intros u Hu%Hup. lia. }
  destruct (IH c1 c2 js E2 Hds Hc1) as ((rs & Hrs) & Hcon2 & Hfin2); [by rewrite Hcon|].
  split_and!; [|congruence|eauto]. exists (r :: rs). cbn [await_all]. rewrite (Hfin2 _ _ _ Hr). by rewrite Hrs.
Qed.

(** A call that is not finished stays so when it goes on. *)
Lemma await_all_unfinished ts i k k' ch :
  ts !! i = Some k → builds k = true → builds k' = true → await_all (<[i := k']> ts) ch = await_all ts ch.
Proof.
  intros Hi Hk Hk'. induction ch as [|j ch IH]; [done|]. cbn [await_all]. rewrite IH. destruct (decide (i = j)) as [<-|Hne].
  - rewrite list_lookup_insert_eq, Hi by (by eapply lookup_lt_Some). by destruct k, k'.
  - by rewrite list_lookup_insert_ne.
Qed.

Lemma create_completes fuel t c c' i :
  create_and_get fuel t c = Some (c', i) → is_Some (server_resources !! t) → consistent c →
  (∀ u, is_Some (_construction c !! u) → rank t < rank u) → completes t c c' i.
Proof.
  revert t c c' i. induction fuel as [|fuel IH]; intros t c c' i; cbn [create_and_get]; [done|].
  destruct (_dependencies c !! t) as [r|] eqn:Hd.
  { intros [= <- <-] _ _ _. split_and!; [exists r; apply push_last|done|]. intros j u x Hj. cbn. by apply lookup_app_l_Some. }
  destruct (_construction c !! t) as [n|] eqn:Hcn.
  { intros _ _ _ Hup. assert (rank t < rank t) by (by apply Hup; eexists). lia. }
  set (c1 := push_task (Starting t) (tag t c)). intros E [ds Hds] Hc Hup. rewrite Hds in E.
  assert (consistent c1) as Hc1 by by apply start_consistent.
  assert (tasks c1 !! length (tasks c) = Some (Starting t)) as Hi1 by apply (push_last _ (tag t c)).
  destruct (start_all _ ds c1) as [[c2 ch]|] eqn:Es; [|done]. cbn in E. injection E as <- <-.
  destruct (start_all_ok _ ds c1 c2 ch (create_ok fuel) Es Hc1) as (Hc2 & _ & _ & Hb2). pose proof (Hb2 _ _ Hi1 eq_refl) as Hi2.
  destruct (start_all_completes (create_and_get fuel) ds c1 c2 ch t) as ((rs & Hrs) & Hcon & Hfin); [|done|by apply acyclic|done| |].
  { intros d c0 c0' j E0 Hreg H0 Hup0. split; [by eapply create_ok|by eapply IH]. }
  { intros u. unfold c1. cbn. destruct (decide (t = u)) as [<-|]; [done|]. rewrite lookup_insert_ne by done. intros ?%Hup. lia. }
  set (i := length (tasks c)) in *. assert (i < length (tasks c2)) as Hlt by by eapply lookup_lt_Some.
  assert (∀ j u x, tasks c !! j = Some (Finished u x) → i ≠ j ∧ tasks c2 !! j = Some (Finished u x)) as Hold.
  { intros j u x Hj. split; [apply lookup_lt_Some in Hj; lia|]. apply Hfin. unfold c1. cbn. by apply lookup_app_l_Some. }
  unfold advance. cbn [tasks set_task]. rewrite list_lookup_insert_eq by done. rewrite (await_all_unfinished _ _ _ _ _ Hi2), Hrs by done.
  unfold invoke_factory. cbn [invoked set_task _dependencies _construction tasks].
  destruct (prompt (length (invoked c2)) t rs) as [x ->]. split_and!.
  - exists x. cbn. rewrite list_lookup_insert_eq; [done|]. by rewrite length_fmap, !length_insert.
  - cbn. rewrite Hcon. unfold c1. cbn. rewrite Hcn. by apply delete_insert_id.
  - intros j u y [Hne Hj]%Hold. apply finish_finished; [done|]. cbn. by rewrite !list_lookup_insert_ne.
Qed.
End context.

(** ** Consequences *)

Section consequences.
Context (server_resources : resource_map) (factory : nat → nat → list nat → outcome).
#[local] Abbreviation run := (run_events server_resources factory).
#[local] Abbreviation create := (create_and_get server_resources factory (max_depth server_resources)).

Lemma run_new_ok es : consistent server_resources (run es new_context).
Proof. apply run_events_ok, new_consistent. Qed.

(** The fuel of [step] is never used up. *)
Lemma create_returns t c :
  consistent server_resources c →
  ∃ c' i k, create t c = Some (c', i) ∧ tasks c' !! i = Some k ∧ task_type k = t.
Proof.
  intros Hc. destruct (create_total server_resources factory _ t c (max_depth_enough _ c)) as [[c' i] E].
  destruct (create_ok _ _ _ t c c' i E Hc) as (_ & _ & (k & ? & ?) & _). by exists c', i, k.
Qed.

(** A call for an abandoned type waits for ever. *)
Lemma abandoned_waits t c es :
  consistent server_resources c → abandoned t c →
  ∃ c' i, create t c = Some (c', i) ∧ tasks (run es c') !! i = Some (Awaiting t).
Proof.
  intros Hc Ha. destruct (create_returns t c Hc) as (c' & i & _ & E & _). exists c', i. split; [done|].
  destruct (create_ok _ _ _ t c c' i E Hc) as (Hc' & _). pose proof (create_waiting _ _ t _ t c c' i E Hc Ha) as [Ha' _].
  apply run_events_waiting; [done..|]. destruct Ha as [[n Hn] _]. unfold max_depth in E. cbn [create_and_get] in E.
  destruct (_dependencies c !! t) as [r|] eqn:Hd; [by rewrite (built_untagged _ c Hc t r Hd) in Hn|].
  rewrite Hn in E. injection E as <- <-. apply (push_last (Awaiting t) (tag t c)).
Qed.

(** The only builder of a type stops with an exception. *)
Lemma failed_abandoned i t e k c :
  consistent server_resources c → tasks c !! i = Some k → builds k = true → task_type k = t →
  abandoned t (finish_construction i t (Throw e) c).
Proof.
  intros Hc Hi Hb <-. split; [by apply (builder_tagged _ c Hc i k)|]. intros j k' [[<- ->]|[Hne Hj]]%(set_lookup i _ k c _ _ Hi) Hk'; [done|].
  intros Heq. destruct Hne. by eapply (builder_unique _ c Hc i j k k').
Qed.

Lemma create_unregistered t :
  server_resources !! t = None →
  ∃ c i, create t new_context = Some (c, i) ∧ tasks c !! i = Some (Finished t (throw NotFound)) ∧ abandoned t c.
Proof.
  intros Hm. unfold max_depth. cbn [create_and_get]. change (_dependencies new_context) with (∅ : gmap nat nat).
  change (_construction new_context) with (∅ : gmap nat nat). rewrite !lookup_empty, Hm. eexists _, _. split_and!; [done..|].
  eapply (failed_abandoned 0 t _ (Starting t)); [|done..]. apply start_consistent; [apply new_consistent|done..].
Qed.

Context (rank : nat → nat).
Hypothesis acyclic : ∀ t ds, server_resources !! t = Some ds → Forall (λ d, is_Some (server_resources !! d) ∧ rank d < rank t) ds.
Hypothesis prompt : ∀ n t args, ∃ r, factory n t args = Sync (Ok r).

Lemma create_done t c :
  consistent server_resources c → _construction c = ∅ → is_Some (server_resources !! t) →
  ∃ c' i r, create t c = Some (c', i) ∧ tasks c' !! i = Some (Finished t (Ok r)) ∧ _dependencies c' !! t = Some r ∧
    _construction c' = ∅ ∧ consistent server_resources c' ∧ grows c c'.
Proof.
  intros Hc He Ht. destruct (create_returns t c Hc) as (c' & i & _ & E & _).
  destruct (create_ok _ _ _ t c c' i E Hc) as (Hc' & Hg & _).
  destruct (create_completes _ _ rank acyclic prompt _ t c c' i E Ht Hc) as ((r & Hr) & Hcon & _).
  { intros u. rewrite He, lookup_empty. by intros [? ?]. }
  exists c', i, r. split_and!; [done..| |congruence|done|done]. by eapply finished_built.
Qed.

Lemma creates_done ts c :
  consistent server_resources c → _construction c = ∅ → Forall (λ t, is_Some (server_resources !! t)) ts →
  _construction (run (Create <$> ts) c) = ∅ ∧ Forall (λ t, is_Some (_dependencies (run (Create <$> ts) c) !! t)) ts.
Proof.
  intros Hc He Hts. revert c Hc He. induction Hts as [|t ts Ht _ IH]; intros c Hc He; [done|].
  destruct (create_done t c Hc He Ht) as (c' & i & r & E & _ & Hr & He' & Hc' & _).
  assert (run (Create <$> t :: ts) c = run (Create <$> ts) c') as -> by (unfold run_events; cbn [fmap list_fmap foldl step]; by rewrite E).
  destruct (IH c' Hc' He') as [H1 H2]. split; [done|]. constructor; [|done].
  destruct (run_events_ok server_resources factory (Create <$> ts) c' Hc') as (_ & Hg & _).
  exists r. by eapply lookup_weaken.
Qed.
End consequences.

(** * Properties *)


(** C29.  When no resource depends on itself and every factory gives its result
    at once, calls for registered types never wait: each returns its resource,
    with nothing left under construction. *)
Theorem resources_complete (m : resource_map) (factory : nat → nat → list nat → outcome) (rank : nat → nat) (ts : list nat) (t : nat)
    (acyclic : ∀ t ds, m !! t = Some ds → Forall (λ d, is_Some (m !! d) ∧ rank d < rank t) ds)
    (prompt : ∀ n t args, ∃ r, factory n t args = Sync (Ok r))
    (registered : Forall (λ t, is_Some (m !! t)) (t :: ts)) :
  let c := run_events m factory (Create <$> ts) new_context in
  Forall (λ u, ∃ r, unsafe_get u c = Ok r) ts ∧
  ∃ c' i r, create_and_get m factory (max_depth m) t c = Some (c', i) ∧ tasks c' !! i = Some (Finished t (Ok r)) ∧
    unsafe_get t c' = Ok r ∧ _construction c' = ∅.
Proof.
  cbn zeta. apply Forall_cons in registered as [Ht Hts].
  destruct (creates_done m factory rank acyclic prompt ts new_context (new_consistent m) eq_refl Hts) as [He Hd].
  destruct (create_done m factory rank acyclic prompt t _ (run_new_ok m factory (Create <$> ts)) He Ht)
    as (c' & i & r & E & Hi & Hr & He' & _). split.
  - eapply Forall_impl; [exact Hd|]. intros u [x Hx]. exists x. unfold unsafe_get. by rewrite Hx.
  - exists c', i, r. split_and!; [done..| |done]. unfold unsafe_get. by rewrite Hr.
Qed.

(** When a construction fails, its type stays tagged as under construction:
    the call that failed gets the exception, but the calls that wait for it, and
    every later call for the type, wait for ever.  A type without a factory
    fails this way on its first call. *)
Theorem failed_construction_sticks (m : resource_map) (factory : nat → nat → list nat → outcome)
    (before between after : list event) (i t : nat) (e : exn)
    (making : tasks (run_events m factory before new_context) !! i = Some (Making t)) :
  let c := run_events m factory (before ++ [Resolve i (Throw e)]) new_context in
  tasks c !! i = Some (Finished t (Throw e)) ∧
  (∀ j, tasks c !! j = Some (Awaiting t) → tasks (run_events m factory between c) !! j = Some (Awaiting t)) ∧
  (∃ c' j, create_and_get m factory (max_depth m) t (run_events m factory between c) = Some (c', j) ∧
    tasks (run_events m factory after c') !! j = Some (Awaiting t)) ∧
  (∀ u, m !! u = None → ∃ c' j, create_and_get m factory (max_depth m) u new_context = Some (c', j) ∧
    tasks c' !! j = Some (Finished u (throw NotFound)) ∧
    ∃ c'' k, create_and_get m factory (max_depth m) u (run_events m factory between c') = Some (c'', k) ∧
      tasks (run_events m factory after c'') !! k = Some (Awaiting u)).
Proof.
  cbn zeta. pose proof (run_new_ok m factory before) as H0.
  pose proof (run_new_ok m factory (before ++ [Resolve i (Throw e)])) as Hc.
  unfold run_events in Hc |- *. rewrite foldl_snoc in Hc |- *. fold (run_events m factory before new_context) in *.
  cbn [step] in *. rewrite making in *.
  pose proof (failed_abandoned m i t e (Making t) _ H0 making eq_refl eq_refl) as Ha.
  set (c := finish_construction i t (Throw e) _) in *. fold (run_events m factory between c).
  destruct (run_events_waiting m factory t between c Hc Ha) as [Ha' Hw].
  destruct (run_events_ok m factory between c Hc) as [Hc' _]. split_and!.
  - cbn. rewrite list_lookup_insert_eq; [done|]. by eapply lookup_lt_Some.
  - done.
  - by apply abandoned_waits.
  - intros u Hu. destruct (create_unregistered m factory u Hu) as (c1 & j & E & Hj & Hab). exists c1, j. split_and!; [done..|].
    destruct (create_ok _ _ _ u _ c1 j E (new_consistent m)) as [Hc1 _].
    apply abandoned_waits; [by apply run_events_ok|by apply run_events_waiting].
Qed.

(** * Witnesses *)

(** Resource 2 depends on 0 and 1, resource 1 on 0. *)
Definition sample_resources : resource_map :=
  register_server_resource 2 [0; 1] (register_server_resource 1 [0] (register_server_resource 0 [] ∅)).
Definition sample_factory (n t : nat) (args : list nat) : outcome := Sync (Ok (100 + n)).

Lemma resources_complete_witness :
  let c := run_events sample_resources sample_factory [Create 2] new_context in
  invoked c = [(0, []); (1, [100]); (2, [100; 101])] ∧
  Forall (λ u, ∃ r, unsafe_get u c = Ok r) [2] ∧
  ∃ c' i r, create_and_get sample_resources sample_factory (max_depth sample_resources) 1 c = Some (c', i) ∧
    tasks c' !! i = Some (Finished 1 (Ok r)) ∧ unsafe_get 1 c' = Ok r ∧ _construction c' = ∅.
Proof.
  split; [by vm_compute|]. apply (resources_complete sample_resources sample_factory (λ t, t) [2] 1).
  - intros t ds. unfold sample_resources, register_server_resource.
    rewrite lookup_empty, lookup_insert_ne, lookup_empty, !lookup_insert_ne, lookup_empty by done.
    intros Hds. apply lookup_insert_Some in Hds as [[<- <-]|[_ Hds]];
      [repeat constructor; try (cbn; lia); by eexists|].
    apply lookup_insert_Some in Hds as [[<- <-]|[_ Hds]]; [repeat constructor; try (cbn; lia); by eexists|].
    apply lookup_insert_Some in Hds as [[<- <-]|[_ Hds]]; [constructor|by rewrite lookup_empty in Hds].
  - intros n t args. by eexists.
  - repeat constructor; by eexists.
Defined.

Definition waiting_factory (n t : nat) (args : list nat) : outcome := Async.

Lemma failed_construction_sticks_witness :
  let es := [Create 0; Create 0] in
  let c := run_events sample_resources waiting_factory (es ++ [Resolve 0 (Throw StdOutOfRange)]) new_context in
  tasks c = [Finished 0 (Throw StdOutOfRange); Awaiting 0] ∧
  tasks c !! 0 = Some (Finished 0 (Throw StdOutOfRange)).
Proof.
  split; [by vm_compute|].
  apply (failed_construction_sticks sample_resources waiting_factory [Create 0; Create 0] [] [] 0 0 StdOutOfRange). by vm_compute.
Defined.

(** Two resources that depend on each other wait for each other. *)
Lemma dependency_cycle_waits :
  let m := register_server_resource 1 [0] (register_server_resource 0 [1] ∅) in
  tasks (run_events m sample_factory [Create 0; Resume 0; Resume 1; Resume 2] new_context) =
    [Fetching 0 [1]; Fetching 1 [2]; Awaiting 0].
Proof. by vm_compute. Qed.
