(* ===== verification/ResourceAccess.v ===== *)
(** lw/net/server_resource: how a resource gets at the resources it declared,
    through the pointer to its context. *)
From S2P Require Import Prelude Tuples ServerResources.

(** * Resources *)

(** [ServerResourceBase]: a pointer to the context, null until it is set. *)
Record ServerResourceBase := MkResource { _context : option nat }.
Definition new_resource : ServerResourceBase := MkResource None.
(** [server_resource_context(context)], which the context calls once the factory
    has returned. *)
Definition set_server_resource_context (a : nat) (r : ServerResourceBase) : ServerResourceBase := MkResource (Some a).

(** [TupleContains<T, Tuple>::value]. *)
Fixpoint TupleContains (t : type) (members : list type) : bool :=
  match members with [] => false | u :: rest => if decide (t = u) then true else TupleContains t rest end.

(** [ServerResource<Dependencies...>::dependencies_t]. *)
Definition dependencies_t (declared : list type) : list type := sanitize_tuple declared.

Lemma tuple_contains_In t l : TupleContains t l = true ↔ t ∈ l.
Proof.
  induction l as [|u l IH]; cbn; [by split; [|intros ?%elem_of_nil]|]. rewrite elem_of_cons. case_decide; [by split; [left|]|]. rewrite IH. naive_solver.
Qed.

Section access.
(** The name of a type, and the contexts there are. *)
Context (type_index : type → nat) (contexts : gmap nat ServerResourceContext).

Definition server_resource_context (r : ServerResourceBase) : res ServerResourceContext :=
  match _context r with
  | Some a => match contexts !! a with Some c => Ok c | None => Undef end
  | None => Undef
  end.

(** [get<T>()]; [None] when it does not compile. *)
Definition get (declared : list type) (t : type) (r : ServerResourceBase) : option (res nat) :=
  if TupleContains t (dependencies_t declared) then Some (c ← server_resource_context r; unsafe_get (type_index t) c) else None.

End access.

(** * Declared resources are there *)

(** A resource that was made gets each resource it declared, and it is the one
    that was given to its factory, whatever else has happened to the context
    since; what it did not declare it cannot ask for.  While its factory runs it
    has no context yet. *)
Theorem resource_gets (type_index : type → nat) (m : resource_map) (factory : nat → nat → list nat → outcome)
    (es later : list event) (contexts : gmap nat ServerResourceContext) (a t : nat) (args : list nat) (declared : list type)
    (registered : m !! t = Some (type_index <$> dependencies_t declared))
    (made : (t, args) ∈ invoked (run_events m factory es new_context))
    (here : contexts !! a = Some (run_events m factory later (run_events m factory es new_context))) :
  let r := set_server_resource_context a new_resource in
  (∀ i u, dependencies_t declared !! i = Some u → ∃ d, args !! i = Some d ∧ get type_index contexts declared u r = Some (Ok d)) ∧
  (∀ u, u ∉ dependencies_t declared → get type_index contexts declared u r = None) ∧
  (∀ u, u ∈ dependencies_t declared → get type_index contexts declared u new_resource = Some Undef).
Proof.
  cbn zeta. pose proof (run_new_ok m factory es) as Hc. destruct (run_events_ok m factory later _ Hc) as [Hc' (Hg & _ & _)].
  destruct (invoked_args m _ Hc t args made) as (ds & Hds & Hall). rewrite registered in Hds. injection Hds as <-. split_and!.
  - intros i u Hi. assert ((type_index <$> dependencies_t declared) !! i = Some (type_index u)) as Hi' by by rewrite list_lookup_fmap, Hi.
    destruct (Forall2_lookup_l _ _ _ _ _ Hall Hi') as (d & Hd & Hu). exists d. split; [done|]. unfold get.
    rewrite (proj2 (tuple_contains_In _ _)) by by eapply list_elem_of_lookup_2. unfold server_resource_context. cbn. rewrite here. cbn.
    unfold unsafe_get. by rewrite (lookup_weaken _ _ _ _ Hu Hg).
  - intros u Hu. unfold get. destruct (TupleContains u (dependencies_t declared)) eqn:E; [|done]. by apply tuple_contains_In in E.
  - intros u Hu%tuple_contains_In. unfold get. by rewrite Hu.
Qed.

(** Resource 2 declares 1 and, twice, 0, once as a reference. *)
Definition declared_sample : list type := [Named 0; Tuple [Named 1]; Qualified LvalueRef (Named 0)].
Definition index_sample (t : type) : nat := match t with Named n => n | _ => 9 end.
Lemma resource_gets_witness :
  let m := register_server_resource 2 (index_sample <$> dependencies_t declared_sample)
    (register_server_resource 1 [0] (register_server_resource 0 [] ∅)) in
  let c := run_events m sample_factory [Create 2] new_context in
  ∃ d, [100; 101] !! 1 = Some d ∧
    get index_sample {[5 := run_events m sample_factory [Create 0] c]} declared_sample (Named 1) (set_server_resource_context 5 new_resource) = Some (Ok d).
Proof.
  intros m c. eapply (resource_gets index_sample m sample_factory [Create 2] [Create 0] _ 5 2 [100; 101] declared_sample).
  - by vm_compute.
  - vm_compute. by do 2 right; left.
  - by rewrite lookup_singleton_eq.
  - by vm_compute.
Defined.
